(* ===== verification/_CoqProject ===== *)
-Q . S2P
Prelude.v
Core.v
Machine.v
Sys.v
Prog.v
Os.v
Unix.v
Windows.v
Drains.v
Task.v
Config.v
Run.v
Caller.v
Blocks.v
Lifecycle.v
Closure.v
Exit.v
Pool.v
Threads.v
History.v
Locks.v
Capture.v
Delivery.v
Captured.v
Contained.v
Types.v
Timeout.v
Progress.v
Kills.v
Race.v
Owned.v
Jobs.v
Utf8.v
Examples.v
Shown.v
Console.v
Verdict.v
Cstr.v
Ffi.v
Boundary.v
CRace.v
CEvents.v
Args.v
Sim.v
Runs.v
WinRuns.v
Demos.v
CRuns.v
