(* ===== verification/Prelude.v ===== *)
(** * aer-core: a verification library

    ** The program

    aer-core (src/src/) runs one external command to its end. A [Task]
    (task.rs) is built with [with_*] methods and run by [run] or
    [run_with_cancel], both [run_impl]: the child is spawned through the
    platform trait [OsProcess] (os/mod.rs; os/unix.rs with process groups,
    os/windows.rs with job objects), [Started] is given to the caller's
    callback, a monitor thread enforces the timeout, the output is drained by
    two threads and delivered as chunk events when capture is on, and [Exited]
    closes the run. A [CancelHandle] lets other threads kill the running tree;
    a guard kills and reaps it when the run is abandoned. ffi.rs is the C
    interface over this, with its own handles, error codes and event struct.

    ** How it is modelled

    The code of a thread is a [prog] (Prog.v): a free monad over the actions of
    Sys.v (system calls, the callback, atomics, mutex, channels, clock, joins),
    thread creation, and unbounded loops. What std, libc and Win32 answer is
    not assumed: an execution ([exec p trace result]) may have any answers, so
    a theorem over [exec] holds whatever the system, the callback and the other
    threads do. A panic is the value [Panic] of [outcome], passed on where Rust
    unwinds; the drops at scope ends that matter (guard, channel ends, mutex
    guard) are written where they happen. Integers are [Z]; the casts and the
    wrap-around of the [u64] sequence numbers are written out ([as_i32],
    [u64_succ]); durations are nanoseconds.

    Pool.v gives several threads an interleaving semantics over a shared,
    sequentially consistent memory (the source uses [SeqCst] and a mutex), with
    a rely/guarantee logic. Threads.v shows that the steps of each thread are
    one of its executions, History.v and Locks.v tell the channels, flags and
    mutexes from the log. Sim.v executes programs and schedules against a
    simulated system; Runs.v, WinRuns.v and CRuns.v apply the theorems to such
    runs.

    What the theorems over all interleavings take from outside is named in
    their hypotheses: [piped_children] (a child spawned with piped output has
    its pipes), [u32_children] (process identifiers fit 32 bits), [answers]
    (every call of the system answers), [aside_obs] (the callback and the
    threads beside a run, such as cancellers, leave the child's pipes and the
    run's channels alone) and [tidy] (a thread that locks goes on to unlock).
    The simulated system satisfies them.

    ** The files

    - Prelude.v: this file; [Result], machine integers, tactics, hints.
    - Core.v: [State], [ExitReason], [Event], [AerError] with their texts
      (machine.rs, event.rs, lib.rs).
    - Machine.v: [StateMachine::transition] (machine.rs).
    - Sys.v, Prog.v: actions, programs, executions, their calculi.
    - Os.v: the trait as the class [OsProcess], the laws [OsProcessLaws] that
      task.rs relies on, and the drain threads (os/mod.rs).
    - Unix.v, Windows.v: the two instances and their laws.
    - Drains.v: the class [OsDrains], what the capture path relies on in a
      backend, and its two instances.
    - Task.v, Config.v: the builder, and the command a child is spawned from.
    - Run.v: [run_impl] block by block, [CancelHandle], [KillOnDropGuard].
    - Blocks.v: the exact traces of [cancel], of the wiring, of the delivery
      loop and of the end of a run.
    - Lifecycle.v, Exit.v: what the caller of a run observes.
    - Pool.v, Threads.v, History.v, Locks.v: threads and memory, one thread of
      a log at a time, the memory told from the log, the lock discipline.
    - Caller.v, Capture.v, Delivery.v, Captured.v: a capturing run: its
      caller's thread, its other threads, the account of each stream, and what
      the caller is given, under every interleaving.
    - Contained.v: the tree of a capturing run on Windows.
    - Types.v: the events fit the types of their fields, in Rust and in C.
    - Timeout.v: the monitor against the run, under every interleaving.
    - Progress.v: no run gets stuck.
    - Race.v: cancellation under every interleaving.
    - Owned.v, Jobs.v: who owns the clones of a job handle: a logic of
      ownership over Pool.v, and the code of a run on Windows in it.
    - Closure.v: a run given a closure of the caller's, against a run whose
      callback is a step.
    - Utf8.v, Cstr.v: the UTF-8 validator of std and its lossy decoder; C
      strings.
    - Examples.v, Shown.v, Console.v, Verdict.v: the programs of src/examples/
      and what they print.
    - Ffi.v: every exported function of ffi.rs.
    - Boundary.v, CRace.v, CEvents.v, Args.v: sessions of C calls and the
      refinement of [Task::run] by [aer_task_run], threads of a C program,
      events for C, argument checking.
    - Sim.v, Runs.v, WinRuns.v, Demos.v, CRuns.v: the simulated system and
      concrete runs.

    ** What the theorems show

    - Cancellation (Race.v), for one run and any number of [cancel] calls in
      any interleaving, on any platform with the laws: [Ok] means that no
      cancel killed the process, [Cancelled] that one did; no request is lost
      between spawn and wiring; only the first [cancel] fires. The run's own
      callback may be among the callers of [cancel].
    - Lifecycle (Lifecycle.v, Exit.v): the order of the events at every moment;
      events, code and result agree; an abandoned run is killed and reaped; on
      Unix, without capture, the group is killed before [Exited].
    - Platforms (Unix.v, Windows.v): the kill escalation, its grace period and
      its termination; the waits; the probes; no leak on a failed Windows
      spawn; the exit codes.
    - Output (Os.v, Blocks.v, Captured.v): drain threads and delivery lose and
      reorder nothing; at any moment the callback has been given a prefix of
      what the drain threads read of each stream, and all of it, to the end of
      the stream, when it is given [Exited]; on Unix the group has been killed
      by then, also with capture.
    - Job handles (Jobs.v, Contained.v): on Windows, in every interleaving of a
      run with cancels, the job is opened once, its handle is used only while
      open, and the last clone to be dropped, whoever holds it, closes it, once;
      with capture, the job has been terminated before [Exited].
    - Timeout (Timeout.v): [TimedOut] is reported exactly when the monitor had
      seen the deadline pass with the tree alive before the run looked.
    - Progress (Progress.v): a configuration in which no thread can step is one
      in which the run has returned and its threads have ended.
    - Types (Types.v): every number of an event fits its machine type.
    - Closures (Closure.v): a run given any closure that leaves the handle and
      the run's channels alone does what the run with the callback step does,
      each callback replaced by the steps of the closure.
    - Examples (Shown.v, Console.v, Verdict.v): what each program prints, from
      the bytes read from the pipes to the lines printed; that tree.rs claims a
      clean tree only after the group was killed; that the verdict of cancel.rs
      is true in every interleaving of its threads.
    - C interface (Boundary.v, CRace.v, CEvents.v, Args.v): a handle runs once;
      [aer_task_run] refines [Task::run]; cancelled from other threads or from
      the callback, it answers the code that tells what happened; arguments are
      checked before anything changes; the event struct decodes to the event.

    ** Bounds and fuel

    Only the simulated runs have fuel: [sim_fuel] = 300 rounds per loop, more
    than the 200 polls of 25 ms in the 5 s grace period. That [kill_escalating]
    needs at most grace / 25 ms + 1 polls is a theorem
    ([kill_escalating_returns]), from hypotheses on the clock alone: it does
    not go back, and [sleep] lets at least its argument pass.

    ** What is not modelled

    The text of operating-system errors (a parameter), the C header, the .NET
    bindings, the tests, and what std does with the result of a program's
    [main]. On Windows, the drop of a [Child]'s own process handle, which std
    does. In Pool.v a mutex is never poisoned, since no thread of the crate
    unwinds with it held; Blocks.v covers poisoned locks too.

    ** Plan

    Next: the ownership of the job handle in [aer_task_run]; sessions of C
    calls on Windows. *)

From Stdlib Require Import ZArith Lia.
From stdpp Require Import base list strings gmap pretty option.

(** ** Scope and automation *)

Declare Scope aer_scope.
Delimit Scope aer_scope with aer.
Global Open Scope aer_scope.

Create HintDb aer.
Create Rewrite HintDb aer.

(** Case analysis on every [match] scrutinee of the goal and the hypotheses. *)
Ltac cases :=
  repeat (case_match; simplify_eq/=; try done).

(** Membership in a list built from appends and conses. *)
Ltac in_list :=
  repeat first
    [ rewrite elem_of_app | rewrite elem_of_cons | rewrite elem_of_nil ];
  tauto.

(** ** Rust's [Result] *)

Inductive Result (A E : Type) : Type :=
  | Ok (a : A)
  | Err (e : E).
Arguments Ok {A E} a.
Arguments Err {A E} e.

#[export] Instance Result_eq_dec {A E} `{EqDecision A, EqDecision E} :
  EqDecision (Result A E).
Proof. solve_decision. Defined.

Definition map_err {A E F} (f : E -> F) (r : Result A E) : Result A F :=
  match r with
  | Ok a => Ok a
  | Err e => Err (f e)
  end.

(** ** Machine integers

    Fixed-width integers are [Z]; the casts and the wrap-around of the source
    are written out. *)

Open Scope Z_scope.

Definition u32_max : Z := 2 ^ 32 - 1.
Definition u64_max : Z := 2 ^ 64 - 1.

Definition is_u32 (z : Z) : Prop := 0 <= z <= u32_max.
Definition is_i32 (z : Z) : Prop := - 2 ^ 31 <= z < 2 ^ 31.
Definition is_u64 (z : Z) : Prop := 0 <= z <= u64_max.

(** [x as i32] for a [u32] (or any wider integer): two's complement. *)
Definition as_i32 (z : Z) : Z := (z + 2 ^ 31) mod 2 ^ 32 - 2 ^ 31.

(** [seq += 1] on a [u64] in a release build. *)
Definition u64_succ (z : Z) : Z := (z + 1) mod 2 ^ 64.

Lemma as_i32_range z : is_i32 (as_i32 z).
Proof.
  unfold is_i32, as_i32.
  pose proof (Z.mod_pos_bound (z + 2 ^ 31) (2 ^ 32) ltac:(lia)). lia.
Qed.

Lemma as_i32_small z : is_i32 z -> as_i32 z = z.
Proof. unfold is_i32, as_i32. intros. rewrite Z.mod_small; lia. Qed.

Lemma u64_succ_small z : 0 <= z < u64_max -> u64_succ z = z + 1.
Proof. unfold u64_max, u64_succ. intros. rewrite Z.mod_small; lia. Qed.

Lemma u64_succ_range z : is_u64 (u64_succ z).
Proof.
  unfold is_u64, u64_max, u64_succ. pose proof (Z.mod_pos_bound (z + 1) (2 ^ 64) ltac:(lia)). lia.
Qed.

#[export] Hint Resolve as_i32_range u64_succ_range : aer.
#[export] Hint Rewrite u64_succ_small using lia : aer.

(** ** [omap] *)

Lemma omap_cons {A E} (f : A -> option E) x l : omap f (x :: l) = option_list (f x) ++ omap f l.
Proof. simpl. by destruct (f x). Qed.

Lemma omap_one {A B} (f : A -> option B) (x : A) : omap f [x] = option_list (f x).
Proof. simpl. by destruct (f x). Qed.

Lemma omap_none {A E} (f : A -> option E) (l : list A) :
  (forall x, x ∈ l -> f x = None) -> omap f l = [].
Proof.
  induction l as [|x l IH]; intros Hf; [done|]. rewrite omap_cons, (Hf x), IH; [done| |by left].
  intros y Hy. apply Hf. by right.
Qed.

Lemma omap_bind {A B E} (f : A -> option B) (g : B -> option E) (l : list A) :
  omap (fun x => f x ≫= g) l = omap g (omap f l).
Proof.
  induction l as [|x l IH]; [done|]. rewrite !omap_cons, omap_app, IH. f_equal.
  destruct (f x); simpl; [|done]. by destruct (g b).
Qed.
