(* ===== verification/Core.v ===== *)
(** * Core types of the crate: states, exit reasons, events and errors

    The data of src/src/machine.rs (the [State] enum), src/src/event.rs and
    src/src/lib.rs, with their [Display] output. *)

From Stdlib Require Import ZArith.
From stdpp Require Import base numbers list strings pretty.
From S2P Require Import Prelude.

Open Scope Z_scope.

(** ** machine.rs: the states of a task *)

Inductive State : Type :=
  | Created
  | Running
  | Exited.

#[export] Instance State_eq_dec : EqDecision State.
Proof. solve_decision. Defined.

Definition State_fmt (s : State) : string :=
  match s with
  | Created => "Created"
  | Running => "Running"
  | Exited => "Exited"
  end.

(** ** event.rs *)

Module ExitReason.
Inductive t : Type :=
  | NaturalExit
  | TimedOut
  | CancelRequested.

(** The [repr(u32)] discriminants. *)
Definition as_u32 (r : t) : Z :=
  match r with
  | NaturalExit => 0
  | TimedOut => 1
  | CancelRequested => 2
  end.

(** The derived [Debug] output. *)
Definition debug (r : t) : string :=
  match r with
  | NaturalExit => "NaturalExit"
  | TimedOut => "TimedOut"
  | CancelRequested => "CancelRequested"
  end.

#[global] Instance eq_dec : EqDecision t.
Proof. solve_decision. Defined.
End ExitReason.

Module Event.
Inductive t : Type :=
  | Started (pid : Z)
  | Exited (code : Z) (reason : ExitReason.t)
  | StdoutChunk (seq : Z) (bytes : list Byte.byte)
  | StderrChunk (seq : Z) (bytes : list Byte.byte).

Definition fmt (e : t) : string :=
  match e with
  | Started pid => "Started(pid=" +:+ pretty pid +:+ ")"
  | Exited code reason =>
      "Exited(code=" +:+ pretty code +:+ ", reason=" +:+ ExitReason.debug reason +:+ ")"
  | StdoutChunk seq bytes =>
      "StdoutChunk(seq=" +:+ pretty seq +:+ ", len=" +:+ pretty (Z.of_nat (length bytes)) +:+ ")"
  | StderrChunk seq bytes =>
      "StderrChunk(seq=" +:+ pretty seq +:+ ", len=" +:+ pretty (Z.of_nat (length bytes)) +:+ ")"
  end.

#[global] Instance byte_eq_dec : EqDecision Byte.byte.
Proof. exact Byte.byte_eq_dec. Defined.

#[global] Instance eq_dec : EqDecision t.
Proof. solve_decision. Defined.

(** The chunk events, the only ones allowed strictly between [Started] and
    [Exited]. *)
Definition is_chunk (e : t) : bool :=
  match e with
  | StdoutChunk _ _ | StderrChunk _ _ => true
  | Started _ | Exited _ _ => false
  end.
End Event.

(** ** std's [io::Error], as far as the crate looks at it

    Either an error code of the operating system ([raw_os_error] is [Some])
    or a custom error built with [io::Error::other]. *)

Inductive io_Error : Type :=
  | OsError (raw : Z)
  | OtherError (msg : string).

Definition raw_os_error (e : io_Error) : option Z :=
  match e with
  | OsError raw => Some raw
  | OtherError _ => None
  end.

(** ** lib.rs: the error type of the crate *)

Module AerError.
Inductive t : Type :=
  | SpawnFailed (e : io_Error)
  | WaitFailed (e : io_Error)
  | InvalidStateTransition (from to : State)
  | TimedOut
  | KillFailed (e : io_Error)
  | Cancelled.

(** [Display]; the text of an [io::Error] comes from the operating system
    and is the parameter [io_fmt]. *)
Definition fmt (io_fmt : io_Error -> string) (e : t) : string :=
  match e with
  | SpawnFailed e => "process spawn failed: " +:+ io_fmt e
  | WaitFailed e => "process wait failed: " +:+ io_fmt e
  | InvalidStateTransition from to =>
      "invalid state transition: " +:+ State_fmt from +:+ " → " +:+ State_fmt to
  | TimedOut => "process timed out and was killed"
  | KillFailed e => "kill attempt failed: " +:+ io_fmt e
  | Cancelled => "process was cancelled"
  end.

(** The derived [Debug] output; that of an [io::Error] is the parameter
    [io_debug]. [State]'s derived [Debug] is its [Display]. *)
Definition debug (io_debug : io_Error -> string) (e : t) : string :=
  match e with
  | SpawnFailed e => "SpawnFailed(" +:+ io_debug e +:+ ")"
  | WaitFailed e => "WaitFailed(" +:+ io_debug e +:+ ")"
  | InvalidStateTransition from to =>
      "InvalidStateTransition { from: " +:+ State_fmt from +:+ ", to: " +:+ State_fmt to +:+ " }"
  | TimedOut => "TimedOut"
  | KillFailed e => "KillFailed(" +:+ io_debug e +:+ ")"
  | Cancelled => "Cancelled"
  end.

(** [std::error::Error::source]. *)
Definition source (e : t) : option io_Error :=
  match e with
  | SpawnFailed e | WaitFailed e | KillFailed e => Some e
  | InvalidStateTransition _ _ | TimedOut | Cancelled => None
  end.
End AerError.
