(* ===== verification/Machine.v ===== *)
(** * The lifecycle state machine (src/src/machine.rs)

    [StateMachine] is the struct of the source, [transition] its only mutating
    method. The theorems show that the legal runs are exactly the prefixes of
    Created, Running, Exited. *)

From stdpp Require Import base list strings.
From S2P Require Import Prelude Core.

Record StateMachine : Type := mkStateMachine { state : State }.

Definition new : StateMachine := {| state := Created |}.

Definition legal (from to : State) : bool :=
  match from, to with
  | Created, Running | Running, Exited => true
  | _, _ => false
  end.

Definition transition (m : StateMachine) (next : State) :
    StateMachine * Result unit AerError.t :=
  if legal (state m) next
  then ({| state := next |}, Ok tt)
  else (m, Err (AerError.InvalidStateTransition (state m) next)).

Definition current (m : StateMachine) : State := state m.

(** A sequence of requested transitions: the machine after all of them, and
    the states that were entered. *)
Fixpoint drive (m : StateMachine) (reqs : list State) : StateMachine * list State :=
  match reqs with
  | [] => (m, [])
  | next :: reqs =>
      let '(m', r) := transition m next in
      let '(m'', entered) := drive m' reqs in
      (m'', match r with Ok _ => next :: entered | Err _ => entered end)
  end.

(** ** Lemmas *)

Lemma transition_running : transition new Running = ({| state := Running |}, Ok tt).
Proof. reflexivity. Qed.

Lemma transition_exited :
  transition {| state := Running |} Exited = ({| state := Exited |}, Ok tt).
Proof. reflexivity. Qed.

Lemma transition_err m next e m' :
  transition m next = (m', Err e) ->
  m' = m /\ e = AerError.InvalidStateTransition (state m) next.
Proof. unfold transition. destruct (legal _ _); naive_solver. Qed.

Lemma drive_exited reqs : drive {| state := Exited |} reqs = ({| state := Exited |}, []).
Proof.
  induction reqs as [|next reqs IH]; [done|].
  simpl. unfold transition. simpl. by rewrite IH.
Qed.

Lemma drive_running reqs :
  (drive {| state := Running |} reqs).2 = [] \/ (drive {| state := Running |} reqs).2 = [Exited].
Proof.
  induction reqs as [|next reqs IH]; [by left|].
  destruct next; cbn; [| |rewrite drive_exited; by right];
    destruct (drive _ reqs) as [m'' l]; simpl in *; tauto.
Qed.

Lemma drive_running_state reqs :
  current (drive {| state := Running |} reqs).1 =
  match (drive {| state := Running |} reqs).2 with
  | [] => Running
  | _ => Exited
  end.
Proof.
  induction reqs as [|next reqs IH]; [done|].
  destruct next; cbn; [| |by rewrite drive_exited];
    destruct (drive _ reqs) as [m l]; exact IH.
Qed.

(** ** Properties *)

(** The machine only moves forward: whatever transitions are requested, in
    whatever order and however often, the states entered are a prefix of
    Running, Exited, and the current state is the last one entered. *)
Theorem drive_forward reqs :
  let '(m, entered) := drive new reqs in
  (entered = [] /\ current m = Created) \/
  (entered = [Running] /\ current m = Running) \/
  (entered = [Running; Exited] /\ current m = Exited).
Proof.
  induction reqs as [|next reqs IH]; [by left|].
  destruct next; simpl.
  - destruct (drive new reqs) as [m l]. exact IH.
  - clear IH. pose proof (drive_running reqs) as Hr.
    pose proof (drive_running_state reqs) as Hs.
    destruct (drive {| state := Running |} reqs) as [m l]; simpl in *. subst.
    destruct Hr as [-> | ->]; auto.
  - destruct (drive new reqs) as [m l]. exact IH.
Qed.
