(* ===== verification/Sys.v ===== *)
(** * What the crate uses of std, libc and Win32

    The data types of the standard library that cross the code
    ([Command], [Child], pipes, channels, [CancelHandle]'s atomics and mutex),
    the plain data of src/src/os/mod.rs that travels through them, the C event
    struct of src/src/ffi.rs, and the actions a thread of the program can
    perform. An action is a request whose answer comes from outside the
    program: the operating system, another thread, or the caller's callback. *)

From Stdlib Require Import ZArith.
From stdpp Require Import base numbers list strings gmap.
From S2P Require Import Prelude Core.

Open Scope Z_scope.

(** ** Panics *)

(** What a panic carries (std's [Box<dyn Any + Send>]): a [&str], a [String],
    or something else. *)
Inductive payload : Type :=
  | PStr (s : string)
  | PString (s : string)
  | POther.

(** A call either returns or unwinds. *)
Inductive outcome (A : Type) : Type :=
  | Val (a : A)
  | Panic (p : payload).
Arguments Val {A} a.
Arguments Panic {A} p.

(** ** Identifiers *)

(** Heap cells shared through [Arc] (atomics, the mutex, channels), threads,
    and Windows handles (0 is the null handle). *)
Definition loc : Type := nat.
Definition tid : Type := nat.
Definition HANDLE : Type := Z.

(** ** os/mod.rs: plain data *)

(** [KillHandle]: the [cfg(not(windows))] field, and the [cfg(windows)] one, an
    [Arc] around the job's handle: its address, and the handle in it. *)
Inductive KillHandle : Type :=
  | UnixKill (pgid : Z)
  | WindowsKill (arc : loc) (job : HANDLE).

#[export] Instance KillHandle_eq_dec : EqDecision KillHandle.
Proof. solve_decision. Defined.

Module ChunkMsg.
Inductive t : Type :=
  | Stdout (seq : Z) (bytes : list Byte.byte)
  | Stderr (seq : Z) (bytes : list Byte.byte).
End ChunkMsg.

(** ** std::process *)

Inductive Stdio : Type :=
  | StdioInherit
  | StdioNull
  | StdioPiped.

(** std's [Command]: the environment part is what std's [CommandEnv] is built
    from, a [clear] flag and the variables set explicitly since, in the order of
    the calls; which of them are the same variable is the platform's business
    ([child_env], and [Windows.win_child_env]). The [pre_exec] closures are
    functions of what [setsid] returned and of [errno], the only call they
    make. *)
Record Command : Type := mkCommand {
  cmd_program : string;
  cmd_args : list string;
  cmd_stdin : Stdio;
  cmd_stdout : Stdio;
  cmd_stderr : Stdio;
  cmd_clear : bool;
  cmd_vars : list (string * string);
  cmd_cwd : option string;
  cmd_pre_exec : list (Z -> Z -> Result unit io_Error)
}.

Definition Command_new (program : string) : Command :=
  mkCommand program [] StdioInherit StdioInherit StdioInherit false [] None [].

Definition with_cmd_args (args : list string) (c : Command) : Command :=
  mkCommand (cmd_program c) (cmd_args c ++ args) (cmd_stdin c) (cmd_stdout c)
    (cmd_stderr c) (cmd_clear c) (cmd_vars c) (cmd_cwd c) (cmd_pre_exec c).

Definition with_stdio (i o e : Stdio) (c : Command) : Command :=
  mkCommand (cmd_program c) (cmd_args c) i o e (cmd_clear c) (cmd_vars c)
    (cmd_cwd c) (cmd_pre_exec c).

(** [Command::env_clear] forgets the variables set so far as well. *)
Definition env_clear (c : Command) : Command :=
  mkCommand (cmd_program c) (cmd_args c) (cmd_stdin c) (cmd_stdout c)
    (cmd_stderr c) true [] (cmd_cwd c) (cmd_pre_exec c).

Definition cmd_env (key value : string) (c : Command) : Command :=
  mkCommand (cmd_program c) (cmd_args c) (cmd_stdin c) (cmd_stdout c)
    (cmd_stderr c) (cmd_clear c) (cmd_vars c ++ [(key, value)]) (cmd_cwd c)
    (cmd_pre_exec c).

Definition current_dir (path : string) (c : Command) : Command :=
  mkCommand (cmd_program c) (cmd_args c) (cmd_stdin c) (cmd_stdout c)
    (cmd_stderr c) (cmd_clear c) (cmd_vars c) (Some path) (cmd_pre_exec c).

Definition pre_exec (hook : Z -> Z -> Result unit io_Error) (c : Command) : Command :=
  mkCommand (cmd_program c) (cmd_args c) (cmd_stdin c) (cmd_stdout c)
    (cmd_stderr c) (cmd_clear c) (cmd_vars c) (cmd_cwd c) (cmd_pre_exec c ++ [hook]).

(** The variables set, where names are compared as they are; the last call for
    a name is the one that counts. *)
Definition set_vars (c : Command) : gmap string string := list_to_map (reverse (cmd_vars c)).

(** The environment std hands to the child on Unix, from the parent's
    ([CommandEnv::capture]). *)
Definition child_env (c : Command) (parent : gmap string string) : gmap string string :=
  if cmd_clear c then set_vars c else set_vars c ∪ parent.

Inductive Stream : Type :=
  | OutStream
  | ErrStream.

#[export] Instance Stream_eq_dec : EqDecision Stream.
Proof. solve_decision. Defined.

(** The read end of a child's pipe. *)
Record Pipe : Type := mkPipe { pipe_pid : Z; pipe_stream : Stream }.

Record Child : Type := mkChild {
  child_id : Z;
  child_stdout : option Pipe;
  child_stderr : option Pipe
}.

(** The raw status: a wait status on Unix, the exit code on Windows. *)
Definition ExitStatus : Type := Z.

(** [OsHandle] of os/mod.rs. *)
Record OsHandle : Type := mkOsHandle {
  pid : Z;
  child : Child;
  kill : KillHandle
}.

(** ** std::sync::mpsc *)

(** The message types the crate sends, and a channel of each type. *)
Inductive chan_ty : Type :=
  | TyUnit
  | TyChunk
  | TyWait.

#[export] Instance chan_ty_eq_dec : EqDecision chan_ty.
Proof. solve_decision. Defined.

#[export] Instance chan_ty_countable : Countable chan_ty.
Proof.
  refine (inj_countable' (fun ty => match ty with TyUnit => 0%nat | TyChunk => 1%nat | TyWait => 2%nat end)
    (fun n => match n with O => TyUnit | S O => TyChunk | _ => TyWait end) _).
  by intros [].
Defined.

Definition msg (ty : chan_ty) : Type :=
  match ty with
  | TyUnit => unit
  | TyChunk => ChunkMsg.t
  | TyWait => Result Z AerError.t
  end.

Record chan (ty : chan_ty) : Type := mkChan { chan_loc : loc }.
Arguments mkChan {ty} chan_loc.
Arguments chan_loc {ty} c.

(** What tells a channel from every other: Rust's types keep channels of
    different messages apart. *)
Definition chan_key {ty : chan_ty} (c : chan ty) : chan_ty * loc := (ty, chan_loc c).

Inductive RecvTimeout : Type :=
  | RecvOk
  | RecvTimedOut
  | RecvDisconnected.

(** ** task.rs: the cancel handle's shared cells *)

(** [CancelHandle]: three [Arc]s, so a clone is the same record. *)
Record CancelHandle : Type := mkCancelHandle {
  cancelled : loc;
  kill_fired : loc;
  kill_slot : loc
}.

(** ** ffi.rs: the event struct handed to C *)

(** [data] is the memory the pointer refers to for the duration of the
    callback; [None] is the null pointer. *)
Record AerEvent : Type := mkAerEvent {
  ev_kind : Z;
  ev_pid : Z;
  ev_code : Z;
  ev_reason : Z;
  ev_seq : Z;
  ev_data : option (list Byte.byte);
  ev_data_len : Z
}.

(** ** The actions *)

(** What a C call returned, and [errno] (or [GetLastError]) right after it. *)
Record c_ret : Type := mkRet { rc : Z; errno : Z }.

Inductive act : Type -> Type :=
  (* the caller's event callback; the C callback cannot unwind *)
  | Callback (ev : Event.t) : act (outcome unit)
  | CCallback (ev : AerEvent) : act unit
  (* std::process *)
  | CommandSpawn (c : Command) : act (Result Child io_Error)
  | ChildWait (pid : Z) : act (Result ExitStatus io_Error)
  | ChildKill (pid : Z) : act (Result unit io_Error)
  (* std::io on a pipe: one [read] into a buffer, and [io::copy] to [io::sink] *)
  | PipeRead (p : Pipe) (cap : Z) : act (Result (list Byte.byte) io_Error)
  | PipeToSink (p : Pipe) : act (Result Z io_Error)
  (* libc *)
  | Killpg (pgrp sig : Z) : act c_ret
  | Kill (pid sig : Z) : act c_ret
  | Waitpid (pid options : Z) : act c_ret
  (* Win32 job objects *)
  | CreateJobObjectW : act c_ret
  | SetInformationJobObject (job : HANDLE) (limit_flags : Z) : act c_ret
  | AssignProcessToJobObject (job : HANDLE) (process : Z) : act c_ret
  | TerminateJobObject (job : HANDLE) (exit_code : Z) : act c_ret
  | QueryActiveProcesses (job : HANDLE) : act (c_ret * Z)
  | CloseHandle (job : HANDLE) : act unit
  (* std::time and std::thread::sleep, in nanoseconds *)
  | InstantNow : act Z
  | Sleep (d : Z) : act unit
  (* Arc<AtomicBool> *)
  | NewFlag (b : bool) : act loc
  | Load (l : loc) : act bool
  | Store (l : loc) (b : bool) : act unit
  | Swap (l : loc) (b : bool) : act bool
  (* Arc<JobHandle>: made around a job's handle, cloned, dropped; [ArcDrop]
     answers whether that was the last clone *)
  | NewArc (job : HANDLE) : act loc
  | ArcClone (a : loc) : act unit
  | ArcDrop (a : loc) : act bool
  (* Arc<Mutex<Option<KillHandle>>>; [Lock] answers whether it was poisoned,
     [SetSlot] what the slot held *)
  | NewMutex : act loc
  | Lock (l : loc) : act bool
  | GetSlot (l : loc) : act (option KillHandle)
  | SetSlot (l : loc) (v : option KillHandle) : act (option KillHandle)
  | Unlock (l : loc) : act unit
  (* mpsc channels *)
  | NewChan (ty : chan_ty) : act (chan ty)
  | CloneTx {ty} (c : chan ty) : act unit
  | DropTx {ty} (c : chan ty) : act unit
  | DropRx {ty} (c : chan ty) : act unit
  | Send {ty} (c : chan ty) (m : msg ty) : act bool
  | Recv {ty} (c : chan ty) : act (option (msg ty))
  | RecvWithTimeout (c : chan TyUnit) (d : Z) : act RecvTimeout
  (* JoinHandle::join; what the thread returned is not part of the answer *)
  | Join (t : tid) : act unit
  (* print!, which panics when standard output fails *)
  | Print (s : string) : act (outcome unit)
  (* a local Vec<u8> of the thread: made empty, extended, read *)
  | NewVec : act loc
  | Extend (l : loc) (bytes : list Byte.byte) : act unit
  | Contents (l : loc) : act (list Byte.byte).
