(* ===== verification/Prog.v ===== *)
(** * Programs: a free monad over the actions, and what a thread can do

    [prog A] is the code of a thread: actions, thread creation, loops and a
    result. A loop ([Iter]) has no bound; termination is proved where the code
    has it. [exec p tr r] says that the thread [p] can perform the trace [tr]
    of actions and answers, with [r = Some a] when it has then returned [a]
    and [r = None] when it has not (yet): the answers are arbitrary, so a
    theorem about every [exec] holds whatever the system and the other threads
    do. [run] executes a program against a deterministic handler. *)

From Stdlib Require Import ZArith.
From stdpp Require Import base list strings.
From S2P Require Import Prelude Core Sys.

Inductive prog : Type -> Type :=
  | Ret {A} (a : A) : prog A
  | Vis {A X} (e : act X) (k : X -> prog A) : prog A
  | Fork {A} (body : prog unit) (k : option tid -> prog A) : prog A
  | Iter {A I R} (body : I -> prog (I + R)) (i : I) (k : R -> prog A) : prog A.

Fixpoint bind {A B} (p : prog A) : (A -> prog B) -> prog B :=
  match p in prog A return (A -> prog B) -> prog B with
  | Ret a => fun f => f a
  | Vis e k => fun f => Vis e (fun x => bind (k x) f)
  | Fork body k => fun f => Fork body (fun t => bind (k t) f)
  | Iter body i k => fun f => Iter body i (fun r => bind (k r) f)
  end.

Definition do_act {X} (e : act X) : prog X := Vis e Ret.
Definition fork (body : prog unit) : prog (option tid) := Fork body Ret.
Definition iter {I R} (body : I -> prog (I + R)) (i : I) : prog R := Iter body i Ret.

Notation "'let!' x := p 'in' q" := (bind p (fun x => q))
  (at level 10, x pattern, p at level 100, q at level 200) : aer_scope.
Notation "p ;;; q" := (bind p (fun _ => q))
  (at level 100, q at level 200, right associativity) : aer_scope.

(** ** Traces *)

(** One step of a thread as the outside sees it. *)
Inductive obs : Type :=
  | Obs {X} (e : act X) (x : X)
  | ObsFork (body : prog unit) (t : option tid).

Section IterExec.
Context {I R A : Type}.
Variable body : I -> list obs -> option (I + R) -> Prop.
Variable cont : R -> list obs -> option A -> Prop.

Inductive iter_exec : I -> list obs -> option A -> Prop :=
  | iter_exec_cut i tr :
      body i tr None -> iter_exec i tr None
  | iter_exec_next i i' tr tr' r :
      body i tr (Some (inl i')) -> iter_exec i' tr' r -> iter_exec i (tr ++ tr') r
  | iter_exec_done i x tr tr' r :
      body i tr (Some (inr x)) -> cont x tr' r -> iter_exec i (tr ++ tr') r.
End IterExec.

Fixpoint exec {A} (p : prog A) : list obs -> option A -> Prop :=
  match p in prog A return list obs -> option A -> Prop with
  | Ret a => fun tr r => tr = [] /\ (r = None \/ r = Some a)
  | Vis e k => fun tr r =>
      (tr = [] /\ r = None) \/
      exists x tr', tr = Obs e x :: tr' /\ exec (k x) tr' r
  | Fork body k => fun tr r =>
      (tr = [] /\ r = None) \/
      exists t tr', tr = ObsFork body t :: tr' /\ exec (k t) tr' r
  | Iter body i k =>
      iter_exec (fun i => exec (body i)) (fun x => exec (k x)) i
  end.

(** ** Execution against a handler

    [fuel] bounds the rounds of each loop; a loop that needs more ends the run
    with [None]. *)

Section RunRounds.
Context {W I R A : Type}.
Variable body : I -> W -> option (I + R) * list obs * W.
Variable cont : R -> W -> option A * list obs * W.

Fixpoint run_rounds (n : nat) (i : I) (w : W) : option A * list obs * W :=
  match n with
  | O => (None, [], w)
  | S n =>
      let '(r, tr, w) := body i w in
      match r with
      | None => (None, tr, w)
      | Some (inl i) => let '(r', tr', w) := run_rounds n i w in (r', tr ++ tr', w)
      | Some (inr x) => let '(r', tr', w) := cont x w in (r', tr ++ tr', w)
      end
  end.
End RunRounds.

Section Run.
Context {W : Type}.
Variable handle : forall X, act X -> W -> X * W.
Variable handle_fork : prog unit -> W -> option tid * W.
Variable fuel : nat.

Fixpoint run {A} (p : prog A) : W -> option A * list obs * W :=
  match p in prog A return W -> option A * list obs * W with
  | Ret a => fun w => (Some a, [], w)
  | Vis e k => fun w =>
      let '(x, w) := handle _ e w in
      let '(r, tr, w) := run (k x) w in
      (r, Obs e x :: tr, w)
  | Fork body k => fun w =>
      let '(t, w) := handle_fork body w in
      let '(r, tr, w) := run (k t) w in
      (r, ObsFork body t :: tr, w)
  | Iter body i k =>
      run_rounds (fun i => run (body i)) (fun x => run (k x)) fuel i
  end.
End Run.

(** ** Predicates over executions *)

(** [wp p I Q h]: when [p] starts after the history [h], every history it
    reaches while running satisfies [I], and when it returns, the result and
    the history satisfy [Q]. *)
Definition wp {A} (p : prog A) (I : list obs -> Prop) (Q : A -> list obs -> Prop)
    (h : list obs) : Prop :=
  forall tr r, exec p tr r ->
    match r with
    | None => I (h ++ tr)
    | Some a => Q a (h ++ tr)
    end.

(** Every step [p] can perform satisfies [P]. *)
Definition all_obs {A} (P : obs -> Prop) (p : prog A) : Prop :=
  forall tr r, exec p tr r -> Forall P tr.

(** The same over an abstraction of the history: [f] picks what is observed
    of a step, the predicates see the list of observations. *)
Definition owp {E A} (f : obs -> option E) (p : prog A) (I : list E -> Prop)
    (Q : A -> list E -> Prop) (s : list E) : Prop :=
  forall tr r, exec p tr r ->
    match r with
    | None => I (s ++ omap f tr)
    | Some a => Q a (s ++ omap f tr)
    end.

(** The events the caller's callback is given, in order. *)
Definition obs_event (o : obs) : option Event.t :=
  match o with
  | Obs e _ =>
      match e with
      | Callback ev => Some ev
      | _ => None
      end
  | ObsFork _ _ => None
  end.

Definition events (tr : list obs) : list Event.t := omap obs_event tr.

(** The event structs handed to the C callback. *)
Definition obs_cevent (o : obs) : option AerEvent :=
  match o with
  | Obs e _ =>
      match e with
      | CCallback ev => Some ev
      | _ => None
      end
  | ObsFork _ _ => None
  end.

Definition cevents (tr : list obs) : list AerEvent := omap obs_cevent tr.

(** ** Lemmas *)

Lemma exec_nil {A} (p : prog A) : exec p [] None.
Proof.
  induction p; simpl; [by auto | by auto | by auto |].
  apply iter_exec_cut. auto.
Qed.

Section ExecBind.
Context {A B : Type}.

Lemma iter_exec_bind {I R} (body : I -> list obs -> option (I + R) -> Prop)
    (k : R -> list obs -> option A -> Prop) (k' : R -> list obs -> option B -> Prop)
    (f : A -> list obs -> option B -> Prop) :
  (forall x tr r, k' x tr r ->
     (r = None /\ k x tr None) \/
     exists a tr1 tr2, tr = tr1 ++ tr2 /\ k x tr1 (Some a) /\ f a tr2 r) ->
  forall i tr r, iter_exec body k' i tr r ->
    (r = None /\ iter_exec body k i tr None) \/
    exists a tr1 tr2, tr = tr1 ++ tr2 /\ iter_exec body k i tr1 (Some a) /\ f a tr2 r.
Proof.
  intros Hk i tr r. induction 1 as [i tr|i i' tr tr' r ? ? IH|i x tr tr' r Hb Hc].
  - left. split; [done|]. by constructor.
  - destruct IH as [[-> ?]|(a & tr1 & tr2 & -> & ? & ?)].
    + left. split; [done|]. by eapply iter_exec_next.
    + right. exists a, (tr ++ tr1), tr2. split; [by rewrite app_assoc|].
      split; [|done]. by eapply iter_exec_next.
  - destruct (Hk _ _ _ Hc) as [[-> ?]|(a & tr1 & tr2 & -> & ? & ?)].
    + left. split; [done|]. by eapply iter_exec_done.
    + right. exists a, (tr ++ tr1), tr2. split; [by rewrite app_assoc|].
      split; [|done]. by eapply iter_exec_done.
Qed.
End ExecBind.

(** A run of [bind p f] is a run of [p], cut or followed by a run of [f]. *)
Lemma exec_bind_inv {A B} (p : prog A) (f : A -> prog B) tr r :
  exec (bind p f) tr r ->
  (r = None /\ exec p tr None) \/
  exists a tr1 tr2, tr = tr1 ++ tr2 /\ exec p tr1 (Some a) /\ exec (f a) tr2 r.
Proof.
  revert f tr r. induction p as [A a|A X e k IH|A body _ k IH|A I R body _ i k IH];
    intros f tr r; simpl.
  - intros Hf. right. by exists a, [], tr; auto.
  - intros [[-> ->]|(x & tr' & -> & [[-> ?]|(a & tr1 & tr2 & -> & ? & ?)]%IH)].
    + by auto.
    + left. split; [done|]. right. by eauto.
    + right. exists a, (Obs e x :: tr1), tr2. split; [done|]. split; [|done]. right. by eauto.
  - intros [[-> ->]|(x & tr' & -> & [[-> ?]|(a & tr1 & tr2 & -> & ? & ?)]%IH)].
    + by auto.
    + left. split; [done|]. right. by eauto.
    + right. exists a, (ObsFork body x :: tr1), tr2. split; [done|]. split; [|done]. right. by eauto.
  - apply iter_exec_bind with (f := fun a => exec (f a)). intros x tr' r'. apply IH.
Qed.

Lemma exec_bind {A B} (p : prog A) (f : A -> prog B) a tr1 tr2 r :
  exec p tr1 (Some a) -> exec (f a) tr2 r -> exec (bind p f) (tr1 ++ tr2) r.
Proof.
  revert tr1 tr2 r a f.
  induction p as [A a|A X e k IH|A body _ k IH|A I R body _ i k IH];
    intros tr1 tr2 r b f; simpl.
  - intros [-> [?|?]]; simplify_eq/=; done.
  - intros [[_ ?]|(x & tr' & -> & ?)] ?; [done|]. right. simpl. by eauto.
  - intros [[_ ?]|(x & tr' & -> & ?)] ?; [done|]. right. simpl. by eauto.
  - intros Hi Hf. remember (Some b) as o eqn:Ho.
    induction Hi as [i tr|i i' tr tr' r0 ? ? IHi|i x tr tr' r0 Hb Hc]; [done| |];
      rewrite <- app_assoc.
    + eapply iter_exec_next; [done|]. by apply IHi.
    + subst. eapply iter_exec_done; [done|]. by eapply IH.
Qed.

(** [bind] is associative on runs. *)
Lemma bind_assoc_exec {A B C} (p : prog A) (f : A -> prog B) (g : B -> prog C) tr r :
  exec (bind (bind p f) g) tr r -> exec (bind p (fun a => bind (f a) g)) tr r.
Proof.
  revert f g tr r. induction p as [A a|A X e k IH|A body _ k IH|A I R body _ i k IH];
    intros f g tr r; simpl; [done| | |].
  - intros [?|(x & tr' & -> & Hex)]; [by left|right]. exists x, tr'. split; [done|]. by apply IH.
  - intros [?|(x & tr' & -> & Hex)]; [by left|right]. exists x, tr'. split; [done|]. by apply IH.
  - induction 1 as [j tr Hb|j i' tr tr' r Hb _ IHi|j x tr tr' r Hb Hc].
    + by apply iter_exec_cut.
    + by eapply iter_exec_next.
    + eapply iter_exec_done; [done|]. by apply IH.
Qed.

(** A run cut short is a run. *)
Lemma exec_cut {A} (p : prog A) tr r : exec p tr r -> exec p tr None.
Proof.
  revert tr r. induction p as [A a|A X e k IH|A body _ k IH|A I R body _ i k IH]; intros tr r; simpl.
  - intros [-> _]. by auto.
  - intros [[-> ->]|(x & tr' & -> & Hex)]; [by auto|]. right. eauto.
  - intros [[-> ->]|(x & tr' & -> & Hex)]; [by auto|]. right. eauto.
  - induction 1 as [i tr Hb|i i' tr tr' r Hb _ IHi|i x tr tr' r Hb Hc].
    + by apply iter_exec_cut.
    + by eapply iter_exec_next.
    + eapply iter_exec_done; [done|]. by eapply IH.
Qed.

Lemma exec_prefix {A} (p : prog A) tr tr' r : exec p (tr ++ tr') r -> exec p tr None.
Proof.
  revert tr tr' r.
  induction p as [A a|A X e k IH|A body _ k IH|A I R body IHb i k IH]; intros tr tr' r; simpl.
  - intros [[-> _]%app_nil _]. by auto.
  - destruct tr as [|o tr]; [by auto|].
    intros [[? _]|(x & tr2 & [= -> <-] & Hex)]; [done|]. right. eauto.
  - destruct tr as [|o tr]; [by auto|].
    intros [[? _]|(x & tr2 & [= -> <-] & Hex)]; [done|]. right. eauto.
  - intros Hex. remember (tr ++ tr') as tr0 eqn:E. revert tr E.
    induction Hex as [i tr0 Hb|i i' tr1 tr2 r Hb _ IHi|i x tr1 tr2 r Hb Hc]; intros tr E.
    + subst. apply iter_exec_cut. by eapply IHb.
    + apply app_eq_inv in E as [(l & -> & ->)|(l & -> & ->)].
      * apply iter_exec_cut. by eapply IHb.
      * eapply iter_exec_next; [done|]. by apply IHi.
    + apply app_eq_inv in E as [(l & -> & ->)|(l & -> & ->)].
      * apply iter_exec_cut. by eapply IHb.
      * eapply iter_exec_done; [done|]. by eapply IH.
Qed.

(** *** Predicate transformers *)

Section Wp.
Context {A : Type}.
Implicit Types (I : list obs -> Prop) (Q : A -> list obs -> Prop).

Lemma wp_ret (a : A) I Q h : I h -> Q a h -> wp (Ret a) I Q h.
Proof. intros HI HQ tr r [-> [-> | ->]]; by rewrite app_nil_r. Qed.

Lemma wp_vis {X} (e : act X) (k : X -> prog A) I Q h :
  I h -> (forall x, wp (k x) I Q (h ++ [Obs e x])) -> wp (Vis e k) I Q h.
Proof.
  intros HI Hk tr r [[-> ->]|(x & tr' & -> & Hx)].
  - by rewrite app_nil_r.
  - specialize (Hk x _ _ Hx). by rewrite <- app_assoc in Hk.
Qed.

Lemma wp_fork body (k : option tid -> prog A) I Q h :
  I h -> (forall t, wp (k t) I Q (h ++ [ObsFork body t])) -> wp (Fork body k) I Q h.
Proof.
  intros HI Hk tr r [[-> ->]|(t & tr' & -> & Ht)].
  - by rewrite app_nil_r.
  - specialize (Hk t _ _ Ht). by rewrite <- app_assoc in Hk.
Qed.

Lemma wp_iter {J R} (inv : J -> list obs -> Prop) (body : J -> prog (J + R)) i
    (k : R -> prog A) I Q h :
  (forall i h, inv i h ->
     wp (body i) I
       (fun x h => match x with inl i' => inv i' h | inr y => wp (k y) I Q h end) h) ->
  inv i h -> wp (Iter body i k) I Q h.
Proof.
  intros Hbody Hinv tr r Hex. simpl in Hex. revert h Hinv.
  induction Hex as [i tr Hb|i i' tr tr' r Hb _ IH|i x tr tr' r Hb Hc]; intros h Hinv.
  - exact (Hbody _ _ Hinv _ _ Hb).
  - rewrite app_assoc. apply IH. exact (Hbody _ _ Hinv _ _ Hb).
  - rewrite app_assoc. exact (Hbody _ _ Hinv _ _ Hb _ _ Hc).
Qed.

Lemma wp_mono (p : prog A) I Q (I' : list obs -> Prop) (Q' : A -> list obs -> Prop) h :
  (forall h, I h -> I' h) -> (forall a h, Q a h -> Q' a h) ->
  wp p I Q h -> wp p I' Q' h.
Proof. intros HI HQ Hp tr [a|] Hex; [apply HQ|apply HI]; exact (Hp _ _ Hex). Qed.

Lemma wp_inv_here (p : prog A) I Q h : wp p I Q h -> I h.
Proof. intros Hp. specialize (Hp [] None (exec_nil p)). by rewrite app_nil_r in Hp. Qed.
End Wp.

Lemma wp_bind {A B} (p : prog A) (f : A -> prog B) I Q h :
  wp p I (fun a => wp (f a) I Q) h -> wp (bind p f) I Q h.
Proof.
  intros Hp tr r [[-> Hex]|(a & tr1 & tr2 & -> & Hex & Hf)]%exec_bind_inv.
  - exact (Hp _ _ Hex).
  - rewrite app_assoc. exact (Hp _ _ Hex _ _ Hf).
Qed.

Lemma wp_act {X} (e : act X) I (Q : X -> list obs -> Prop) h :
  I h -> (forall x, I (h ++ [Obs e x]) /\ Q x (h ++ [Obs e x])) -> wp (do_act e) I Q h.
Proof. intros HI HQ. apply wp_vis; [done|]. intros x. by apply wp_ret; apply HQ. Qed.

(** A program whose steps do not change what an invariant looks at. *)
Lemma wp_all_obs {A} (P : obs -> Prop) (p : prog A) (I : list obs -> Prop)
    (Q : A -> list obs -> Prop) h :
  all_obs P p ->
  (forall tr, Forall P tr -> I (h ++ tr)) ->
  (forall a tr, Forall P tr -> exec p tr (Some a) -> Q a (h ++ tr)) ->
  wp p I Q h.
Proof. intros Hp HI HQ tr [a|] Hex; [apply HQ|apply HI]; by eauto. Qed.

(** One step of symbolic execution. *)
Ltac wp_step :=
  lazymatch goal with
  | |- wp (bind (do_act ?e) ?f) _ _ _ =>
      change (bind (do_act e) f) with (Vis e f); apply wp_vis; [|intros]
  | |- wp (bind (Ret ?a) ?f) _ _ _ => change (bind (Ret a) f) with (f a); cbv beta
  | |- wp (Vis _ _) _ _ _ => apply wp_vis; [|intros]
  | |- wp (do_act _) _ _ _ => apply wp_act; [|intros; split]
  | |- wp (Ret _) _ _ _ => apply wp_ret
  | |- wp (bind (match ?x with _ => _ end) _) _ _ _ => destruct x eqn:?
  | |- wp (match ?x with _ => _ end) _ _ _ => destruct x eqn:?
  | |- wp (bind _ _) _ _ _ => apply wp_bind
  end.

(** *** The same over observations *)

Section Owp.
Context {E : Type} (f : obs -> option E) (I : list E -> Prop).

Lemma owp_ret {A} (a : A) Q s : I s -> Q a s -> owp f (Ret a) I Q s.
Proof. intros HI HQ tr r [-> [-> | ->]]; simpl; by rewrite app_nil_r. Qed.

Lemma owp_bind {A B} (p : prog A) (k : A -> prog B) Q s :
  owp f p I (fun a => owp f (k a) I Q) s -> owp f (bind p k) I Q s.
Proof.
  intros Hp tr r [[-> Hex]|(a & tr1 & tr2 & -> & Hex & Hk)]%exec_bind_inv.
  - exact (Hp _ _ Hex).
  - rewrite omap_app, app_assoc. exact (Hp _ _ Hex _ _ Hk).
Qed.

(** A step that is not observed. *)
Lemma owp_silent {A X} (e : act X) (k : X -> prog A) Q s :
  (forall x, f (Obs e x) = None) -> I s -> (forall x, owp f (k x) I Q s) ->
  owp f (bind (do_act e) k) I Q s.
Proof.
  intros Hf HI Hk tr r [[-> ->]|(x & tr' & -> & Hx)].
  - simpl. by rewrite app_nil_r.
  - simpl. rewrite Hf. exact (Hk x _ _ Hx).
Qed.

(** A step that is observed. *)
Lemma owp_seen {A X} (e : act X) (k : X -> prog A) (o : E) Q s :
  (forall x, f (Obs e x) = Some o) -> I s -> I (s ++ [o]) ->
  (forall x, owp f (k x) I Q (s ++ [o])) -> owp f (bind (do_act e) k) I Q s.
Proof.
  intros Hf HI HI' Hk tr r [[-> ->]|(x & tr' & -> & Hx)].
  - simpl. by rewrite app_nil_r.
  - simpl. rewrite Hf. specialize (Hk x _ _ Hx). by rewrite <- app_assoc in Hk.
Qed.

Lemma owp_fork {A} body (k : option tid -> prog A) Q s :
  (forall t, f (ObsFork body t) = None) -> I s -> (forall t, owp f (k t) I Q s) ->
  owp f (bind (fork body) k) I Q s.
Proof.
  intros Hf HI Hk tr r [[-> ->]|(x & tr' & -> & Hx)].
  - simpl. by rewrite app_nil_r.
  - simpl. rewrite Hf. exact (Hk x _ _ Hx).
Qed.

Lemma owp_iter {J R} (inv : J -> list E -> Prop) (body : J -> prog (J + R)) i Q s :
  (forall i s, inv i s ->
     owp f (body i) I
       (fun x s => match x with inl i' => inv i' s | inr y => I s /\ Q y s end) s) ->
  inv i s -> owp f (iter body i) I Q s.
Proof.
  intros Hbody Hinv tr r Hex. unfold iter in Hex. simpl in Hex. revert s Hinv.
  induction Hex as [i tr Hb|i i' tr tr' r Hb _ IH|i x tr tr' r Hb Hc]; intros s Hinv.
  - exact (Hbody _ _ Hinv _ _ Hb).
  - rewrite omap_app, app_assoc. apply IH. exact (Hbody _ _ Hinv _ _ Hb).
  - destruct (Hbody _ _ Hinv _ _ Hb) as [HI HQ].
    destruct Hc as [-> [-> | ->]]; by rewrite app_nil_r.
Qed.

(** A program none of whose steps is observed. *)
Lemma owp_quiet {A} (p : prog A) Q s :
  all_obs (fun o => f o = None) p -> I s -> (forall a, Q a s) -> owp f p I Q s.
Proof.
  intros Hp HI HQ tr r Hex.
  assert (omap f tr = []) as ->.
  { specialize (Hp _ _ Hex). clear Hex. induction Hp as [|o tr Ho _ IH]; [done|].
    simpl. by rewrite Ho. }
  rewrite app_nil_r. by destruct r.
Qed.

Lemma owp_exec {A} (p : prog A) Q tr a :
  owp f p I Q [] -> exec p tr (Some a) -> Q a (omap f tr).
Proof. intros Hp Hex. exact (Hp _ _ Hex). Qed.

Lemma owp_cut {A} (p : prog A) Q tr :
  owp f p I Q [] -> exec p tr None -> I (omap f tr).
Proof. intros Hp Hex. exact (Hp _ _ Hex). Qed.

Lemma owp_mono {A} (p : prog A) (Q Q' : A -> list E -> Prop) s :
  (forall a s, Q a s -> Q' a s) -> owp f p I Q s -> owp f p I Q' s.
Proof. intros HQ Hp tr [a|] Hex; [apply HQ|]; exact (Hp _ _ Hex). Qed.
End Owp.

(** *** Static step predicates *)

Section AllObs.
Context (P : obs -> Prop).

Lemma all_obs_ret {A} (a : A) : all_obs P (Ret a).
Proof. intros tr r [-> _]. constructor. Qed.

Lemma all_obs_vis {A X} (e : act X) (k : X -> prog A) :
  (forall x, P (Obs e x)) -> (forall x, all_obs P (k x)) -> all_obs P (Vis e k).
Proof.
  intros HP Hk tr r [[-> ->]|(x & tr' & -> & Hx)]; [constructor|].
  constructor; [done|]. exact (Hk x _ _ Hx).
Qed.

Lemma all_obs_act {X} (e : act X) : (forall x, P (Obs e x)) -> all_obs P (do_act e).
Proof. intros HP. apply all_obs_vis; [done|]. intros. apply all_obs_ret. Qed.

Lemma all_obs_fork {A} body (k : option tid -> prog A) :
  (forall t, P (ObsFork body t)) -> (forall t, all_obs P (k t)) -> all_obs P (Fork body k).
Proof.
  intros HP Hk tr r [[-> ->]|(x & tr' & -> & Hx)]; [constructor|].
  constructor; [done|]. exact (Hk x _ _ Hx).
Qed.

Lemma all_obs_iter {A I R} (body : I -> prog (I + R)) i (k : R -> prog A) :
  (forall i, all_obs P (body i)) -> (forall x, all_obs P (k x)) ->
  all_obs P (Iter body i k).
Proof.
  intros Hb Hk tr r. simpl.
  induction 1; rewrite ?Forall_app; [by eapply Hb| |]; split;
    first [done | by eapply Hb | by eapply Hk].
Qed.

Lemma all_obs_bind {A B} (p : prog A) (f : A -> prog B) :
  all_obs P p -> (forall a, all_obs P (f a)) -> all_obs P (bind p f).
Proof.
  intros Hp Hf tr r [[-> Hex]|(a & tr1 & tr2 & -> & Hex & Hfx)]%exec_bind_inv.
  - by eapply Hp.
  - apply Forall_app. split; [by eapply Hp|by eapply Hf].
Qed.
End AllObs.

(** What [all_obs] of a program says of its parts. *)
Section AllObsInv.
Context (P : obs -> Prop).

Lemma all_obs_vis_inv {A X} (e : act X) (k : X -> prog A) x :
  all_obs P (Vis e k) -> P (Obs e x) /\ all_obs P (k x).
Proof.
  intros Hok. assert (forall tr r, exec (k x) tr r -> Forall P (Obs e x :: tr)) as H.
  { intros tr r Hex. apply (Hok _ r). right. by exists x, tr. }
  split; [by apply (Forall_inv (H _ _ (exec_nil _)))|]. intros tr r Hex. exact (Forall_inv_tail (H _ _ Hex)).
Qed.

Lemma all_obs_fork_inv {A} body (k : option tid -> prog A) t :
  all_obs P (Fork body k) -> P (ObsFork body t) /\ all_obs P (k t).
Proof.
  intros Hok. assert (forall tr r, exec (k t) tr r -> Forall P (ObsFork body t :: tr)) as H.
  { intros tr r Hex. apply (Hok _ r). right. by exists t, tr. }
  split; [by apply (Forall_inv (H _ _ (exec_nil _)))|]. intros tr r Hex. exact (Forall_inv_tail (H _ _ Hex)).
Qed.

Lemma all_obs_iter_inv {A I R} (body : I -> prog (I + R)) i (k : R -> prog A) :
  all_obs P (Iter body i k) ->
  all_obs P (body i) /\
  (forall j tr, exec (body i) tr (Some (inl j)) -> all_obs P (Iter body j k)) /\
  (forall x tr, exec (body i) tr (Some (inr x)) -> all_obs P (k x)).
Proof.
  intros Hok.
  assert (forall j tr, exec (body i) tr (Some (inl j)) ->
    forall tr' r, exec (Iter body j k) tr' r -> Forall P (tr ++ tr')) as Hl.
  { intros j tr Hex tr' r Hex'. by apply (Hok _ r), (iter_exec_next _ _ _ j). }
  assert (forall x tr, exec (body i) tr (Some (inr x)) ->
    forall tr' r, exec (k x) tr' r -> Forall P (tr ++ tr')) as Hr.
  { intros x tr Hex tr' r Hex'. by apply (Hok _ r), (iter_exec_done _ _ _ x). }
  split_and!.
  - intros tr [[j|x]|] Hex; [| |by apply (Hok _ None), iter_exec_cut].
    + by pose proof (proj1 (Forall_app _ _ _) (Hl _ _ Hex _ _ (exec_nil _))) as [? _].
    + by pose proof (proj1 (Forall_app _ _ _) (Hr _ _ Hex _ _ (exec_nil _))) as [? _].
  - intros j tr Hex tr' r Hex'. by pose proof (proj1 (Forall_app _ _ _) (Hl _ _ Hex _ _ Hex')) as [_ ?].
  - intros x tr Hex tr' r Hex'. by pose proof (proj1 (Forall_app _ _ _) (Hr _ _ Hex _ _ Hex')) as [_ ?].
Qed.
End AllObsInv.

Lemma all_obs_impl {A} (P P' : obs -> Prop) (p : prog A) :
  (forall o, P o -> P' o) -> all_obs P p -> all_obs P' p.
Proof. intros HP Hp tr r Hex. eapply Forall_impl; [exact (Hp _ _ Hex)|exact HP]. Qed.

#[export] Hint Resolve all_obs_ret all_obs_act all_obs_bind : aer.

(** [all_obs] by the structure of the program, the steps left to [tac]. *)
Ltac all_obs_step tac :=
  match goal with
  | |- all_obs _ (bind _ _) => apply all_obs_bind; [|intros]
  | |- all_obs _ (Ret _) => apply all_obs_ret
  | |- all_obs _ (do_act _) => apply all_obs_act; intros; tac
  | |- all_obs _ (Vis _ _) => apply all_obs_vis; intros; [tac|]
  | |- all_obs _ (fork _) => apply all_obs_fork; intros; [tac|apply all_obs_ret]
  | |- all_obs _ (iter _ _) => apply all_obs_iter; intros; [|apply all_obs_ret]
  | |- all_obs _ (match ?x with _ => _ end) => destruct x
  | |- all_obs _ (if ?x then _ else _) => destruct x
  end.
Ltac all_obs_solve tac :=
  intros; repeat all_obs_step tac; eauto with aer.

(** *** Running is one of the executions *)

Lemma run_exec {W} (handle : forall X, act X -> W -> X * W) handle_fork fuel
    {A} (p : prog A) w r tr w' :
  run handle handle_fork fuel p w = (r, tr, w') -> exec p tr r.
Proof.
  revert w r tr w'.
  induction p as [A a|A X e k IH|A body _ k IH|A I R body IHb i k IH];
    intros w r tr w'; simpl.
  - intros. simplify_eq. auto.
  - destruct (handle _ e w) as [x w1]. destruct (run _ _ _ (k x) w1) as [[r1 tr1] w2] eqn:E.
    intros. simplify_eq. right. eauto.
  - destruct (handle_fork body w) as [x w1].
    destruct (run _ _ _ (k x) w1) as [[r1 tr1] w2] eqn:E.
    intros. simplify_eq. right. eauto.
  - generalize fuel at 3. intros n. revert i w r tr w'.
    induction n as [|n IHn]; intros i w r tr w'; simpl.
    + intros. simplify_eq. apply iter_exec_cut. apply exec_nil.
    + destruct (run _ _ _ (body i) w) as [[[[i'|x]|] tr1] w1] eqn:E.
      * destruct (run_rounds _ _ n i' w1) as [[r2 tr2] w2] eqn:E2.
        intros. simplify_eq. eapply iter_exec_next; eauto.
      * destruct (run _ _ _ (k x) w1) as [[r2 tr2] w2] eqn:E2.
        intros. simplify_eq. eapply iter_exec_done; eauto.
      * intros. simplify_eq. apply iter_exec_cut. eauto.
Qed.

Lemma run_rounds_ext {W I R A} (body body' : I -> W -> option (I + R) * list obs * W)
    (cont cont' : R -> W -> option A * list obs * W) :
  (forall i w, body i w = body' i w) -> (forall x w, cont x w = cont' x w) ->
  forall n i w, run_rounds body cont n i w = run_rounds body' cont' n i w.
Proof.
  intros Hb Hc n. induction n as [|n IH]; intros i w; [done|]. simpl.
  rewrite Hb. destruct (body' i w) as [[[[i'|x]|] tr1] w1]; [by rewrite IH|by rewrite Hc|done].
Qed.

(** Running [bind p f] is running [p], then [f]. *)
Lemma run_bind {W} (handle : forall X, act X -> W -> X * W) handle_fork fuel
    {A B} (p : prog A) (f : A -> prog B) w :
  run handle handle_fork fuel (bind p f) w =
  let '(r, tr, w1) := run handle handle_fork fuel p w in
  match r with
  | None => (None, tr, w1)
  | Some a =>
      let '(r', tr', w2) := run handle handle_fork fuel (f a) w1 in (r', tr ++ tr', w2)
  end.
Proof.
  revert f w. induction p as [A a|A X e k IH|A body _ k IH|A I R body IHb i k IH];
    intros f w; simpl.
  - by destruct (run _ _ _ (f a) w) as [[??]?].
  - destruct (handle _ e w) as [x w1]. rewrite IH.
    destruct (run _ _ _ (k x) w1) as [[[a|] tr1] w2]; [|done].
    by destruct (run _ _ _ (f a) w2) as [[??]?].
  - destruct (handle_fork body w) as [x w1]. rewrite IH.
    destruct (run _ _ _ (k x) w1) as [[[a|] tr1] w2]; [|done].
    by destruct (run _ _ _ (f a) w2) as [[??]?].
  - generalize fuel at 3 6. intros n. revert i w.
    induction n as [|n IHn]; intros i w; simpl; [done|].
    destruct (run _ _ _ (body i) w) as [[[[i'|x]|] tr1] w1]; [| |done].
    + rewrite IHn. destruct (run_rounds _ _ n i' w1) as [[[a|] tr2] w2]; [|done].
      destruct (run _ _ _ (f a) w2) as [[??]?]. by rewrite app_assoc.
    + rewrite IH. destruct (run _ _ _ (k x) w1) as [[[a|] tr2] w2]; [|done].
      destruct (run _ _ _ (f a) w2) as [[??]?]. by rewrite app_assoc.
Qed.

Lemma run_act {W} (handle : forall X, act X -> W -> X * W) handle_fork fuel
    {A X} (e : act X) (k : X -> prog A) w :
  run handle handle_fork fuel (bind (do_act e) k) w =
  let '(x, w1) := handle X e w in
  let '(r, tr, w2) := run handle handle_fork fuel (k x) w1 in (r, Obs e x :: tr, w2).
Proof. reflexivity. Qed.

Lemma run_iter {W} (handle : forall X, act X -> W -> X * W) handle_fork fuel
    {I R} (body : I -> prog (I + R)) i w :
  run handle handle_fork fuel (iter body i) w =
  run_rounds (fun i => run handle handle_fork fuel (body i))
    (fun x => run handle handle_fork fuel (Ret x)) fuel i w.
Proof. reflexivity. Qed.

Lemma wp_exec {A} (p : prog A) I (Q : A -> list obs -> Prop) tr a :
  wp p I Q [] -> exec p tr (Some a) -> Q a tr.
Proof. intros Hp Hex. exact (Hp _ _ Hex). Qed.

Lemma exec_bind_Some {A B} (p : prog A) (f : A -> prog B) tr b :
  exec (bind p f) tr (Some b) ->
  exists a tr1 tr2, tr = tr1 ++ tr2 /\ exec p tr1 (Some a) /\ exec (f a) tr2 (Some b).
Proof. intros [[? ?]|?]%exec_bind_inv; [done|done]. Qed.

(** *** Inversion of complete executions *)

Lemma exec_ret_Some {A} (a b : A) tr : exec (Ret a) tr (Some b) <-> tr = [] /\ b = a.
Proof. simpl. split; [intros [-> [?|?]]; by simplify_eq|intros [-> ->]; auto]. Qed.

Lemma exec_act_Some {A X} (e : act X) (k : X -> prog A) tr b :
  exec (bind (do_act e) k) tr (Some b) <->
  exists x tr', tr = Obs e x :: tr' /\ exec (k x) tr' (Some b).
Proof. simpl. split; [intros [[_ ?]|?]; done|by right]. Qed.

Lemma exec_do_act_Some {X} (e : act X) tr x :
  exec (do_act e) tr (Some x) <-> tr = [Obs e x].
Proof.
  simpl. split.
  - intros [[_ ?]|(y & tr' & -> & -> & [?|?])]; by simplify_eq.
  - intros ->. right. eauto 6.
Qed.

Lemma exec_fork_Some {A} body (k : option tid -> prog A) tr b :
  exec (bind (fork body) k) tr (Some b) <->
  exists t tr', tr = ObsFork body t :: tr' /\ exec (k t) tr' (Some b).
Proof. simpl. split; [intros [[_ ?]|?]; done|by right]. Qed.

Lemma exec_seq_ret {A B} (p : prog A) (b c : B) tr :
  exec (p ;;; Ret b) tr (Some c) -> c = b.
Proof. intros (? & ? & ? & -> & _ & H)%exec_bind_Some. by apply exec_ret_Some in H as [_ ?]. Qed.

Lemma exec_snoc_ret {A B} (p : prog A) (a : A) (b : B) tr :
  exec p tr (Some a) -> exec (p ;;; Ret b) tr (Some b).
Proof.
  intros Hp. rewrite <- (app_nil_r tr). eapply exec_bind; [done|]. by apply exec_ret_Some.
Qed.

(** Take a complete execution apart, step by step. *)
Ltac exec_inv_step H :=
  lazymatch type of H with
  | exec (Ret _) _ (Some _) => apply exec_ret_Some in H as [? ?]; simplify_eq
  | exec (do_act _) _ (Some _) => apply exec_do_act_Some in H as ?; simplify_eq
  | exec (bind (Ret ?a) ?f) _ _ => change (bind (Ret a) f) with (f a) in H; cbv beta in H
  | exec (bind (do_act _) _) _ (Some _) =>
      let x := fresh "x" in let tr := fresh "tr" in
      apply exec_act_Some in H as (x & tr & ? & H); simplify_eq
  | exec (bind (fork _) _) _ (Some _) =>
      let t := fresh "t" in let tr := fresh "tr" in
      apply exec_fork_Some in H as (t & tr & ? & H); simplify_eq
  | exec (match ?x with _ => _ end) _ _ => destruct x eqn:?; simplify_eq
  end.

(** *** Events of traces *)

Lemma events_app tr tr' : events (tr ++ tr') = events tr ++ events tr'.
Proof. apply omap_app. Qed.

Lemma cevents_app tr tr' : cevents (tr ++ tr') = cevents tr ++ cevents tr'.
Proof. apply omap_app. Qed.

#[export] Hint Rewrite events_app cevents_app app_nil_r : aer.

#[global] Arguments exec : simpl never.
#[global] Arguments bind : simpl never.
#[global] Arguments do_act : simpl never.
#[global] Arguments fork : simpl never.
#[global] Arguments iter : simpl never.
