(* ===== verification/Os.v ===== *)
(** * The platform abstraction (src/src/os/mod.rs)

    [OsProcess] is the trait, as a type class; [SpawnOptions] and
    [OutputSinks] are the structs its methods take; [spawn_drain_thread] is
    the pipe-draining thread both backends share; [kill_clone] and [kill_drop]
    are the clone and the drop of a [KillHandle]. [OsProcessLaws] is what
    task.rs relies on: the platform never touches the caller's callback nor
    the shared cells of task.rs, and fails only with the errors of its own. *)

From Stdlib Require Import ZArith.
From stdpp Require Import base numbers list strings gmap.
From S2P Require Import Prelude Core Sys Prog.

Open Scope Z_scope.

(** ** Data *)

Record SpawnOptions : Type := mkSpawnOptions {
  opt_env : list (string * string);
  opt_clear_env : bool;
  opt_cwd : option string
}.

Record OutputSinks : Type := mkOutputSinks {
  sink_stdout : option (chan TyChunk);
  sink_stderr : option (chan TyChunk)
}.

(** ** The trait *)

Class OsProcess : Type := {
  os_spawn : string -> list string -> SpawnOptions -> prog (Result OsHandle AerError.t);
  os_wait : OsHandle -> OutputSinks -> prog (outcome (Result Z AerError.t));
  os_kill_escalating : KillHandle -> Z -> prog (Result unit AerError.t);
  os_tree_alive : KillHandle -> prog bool;
  os_reap_abandoned : KillHandle -> prog unit
}.

(** ** The kill handle's clones *)

(** [JobHandle]'s [drop] (os/windows.rs). *)
Definition job_drop (job : HANDLE) : prog unit := do_act (CloseHandle job).

(** The derived [KillHandle::clone]; the clone is the same value. *)
Definition kill_clone (k : KillHandle) : prog unit :=
  match k with
  | UnixKill _ => Ret tt
  | WindowsKill arc _ => do_act (ArcClone arc)
  end.

(** Dropping a [KillHandle]: the last clone of the [Arc] drops the
    [JobHandle]. *)
Definition kill_drop (k : KillHandle) : prog unit :=
  match k with
  | UnixKill _ => Ret tt
  | WindowsKill arc job =>
      let! last := do_act (ArcDrop arc) in
      if last : bool then job_drop job else Ret tt
  end.

Definition kill_drop_opt (v : option KillHandle) : prog unit :=
  match v with
  | Some k => kill_drop k
  | None => Ret tt
  end.

(** ** Threads *)

(** The panic of [thread::spawn] when the system refuses a thread (std goes
    on with the text of the system's error). *)
Definition spawn_panic : payload := PString "failed to spawn thread".

(** [thread::spawn(move || body)]; [captured] drops what the closure owns when
    the thread cannot be created. *)
Definition thread_spawn (body captured : prog unit) : prog (outcome tid) :=
  let! t := fork body in
  match t with
  | Some t => Ret (Val t)
  | None => captured ;;; Ret (Panic spawn_panic)
  end.

Definition drop_sink (tx : option (chan TyChunk)) : prog unit :=
  match tx with
  | Some tx => do_act (DropTx tx)
  | None => Ret tt
  end.

(** ** [spawn_drain_thread] *)

Definition drain_buf : Z := 8192.

Definition drain_round (reader : Pipe) (tx : chan TyChunk)
    (make_msg : Z -> list Byte.byte -> ChunkMsg.t) (seq : Z) : prog (Z + unit) :=
  let! r := do_act (PipeRead reader drain_buf) in
  match r with
  | Ok [] | Err _ => Ret (inr tt)
  | Ok bytes =>
      do_act (Send tx (make_msg seq bytes)) ;;;
      Ret (inl (u64_succ seq))
  end.

Definition drain_loop (reader : Pipe) (tx : chan TyChunk)
    (make_msg : Z -> list Byte.byte -> ChunkMsg.t) : prog unit :=
  iter (drain_round reader tx make_msg) 0.

Definition drain_body (reader : Pipe) (tx : option (chan TyChunk))
    (make_msg : Z -> list Byte.byte -> ChunkMsg.t) : prog unit :=
  match tx with
  | Some tx => drain_loop reader tx make_msg ;;; do_act (DropTx tx)
  | None => do_act (PipeToSink reader) ;;; Ret tt
  end.

Definition spawn_drain_thread (reader : Pipe) (tx : option (chan TyChunk))
    (make_msg : Z -> list Byte.byte -> ChunkMsg.t) : prog (outcome tid) :=
  thread_spawn (drain_body reader tx make_msg) (drop_sink tx).

(** [child.stdout.take().map(|out| spawn_drain_thread(out, sink, make_msg))]: the
    closure has taken the sink, and drops it when there is no pipe. *)
Definition drain_pipe (pipe : option Pipe) (tx : option (chan TyChunk))
    (make_msg : Z -> list Byte.byte -> ChunkMsg.t) : prog (outcome (option tid)) :=
  match pipe with
  | None => drop_sink tx ;;; Ret (Val None)
  | Some reader =>
      let! t := spawn_drain_thread reader tx make_msg in
      match t with
      | Val t => Ret (Val (Some t))
      | Panic p => Ret (Panic p)
      end
  end.

Definition join_drain (t : option tid) : prog unit :=
  match t with
  | Some t => do_act (Join t)
  | None => Ret tt
  end.

(** ** The pre-spawn environment and directory, identical in both backends *)

Definition configure (options : SpawnOptions) (cmd : Command) : Command :=
  let cmd := if opt_clear_env options then env_clear cmd else cmd in
  let cmd := fold_left (fun cmd '(key, value) => cmd_env key value cmd)
               (opt_env options) cmd in
  match opt_cwd options with
  | Some cwd => current_dir cwd cmd
  | None => cmd
  end.

(** ** What the platform's steps may be *)

(** Not a callback, not a shared cell of task.rs, no message other than a
    captured chunk, and nothing of the application's own. *)
Definition os_act {X} (e : act X) : Prop :=
  match e with
  | Callback _ | CCallback _ => False
  | NewFlag _ | Load _ | Store _ _ | Swap _ _ => False
  | NewMutex | Lock _ | GetSlot _ | SetSlot _ _ | Unlock _ => False
  | NewChan _ | CloneTx _ | DropRx _ | Recv _ | RecvWithTimeout _ _ => False
  | @Send ty _ _ => ty = TyChunk
  | Print _ | NewVec | Extend _ _ | Contents _ => False
  | _ => True
  end.

Definition os_obs (o : obs) : Prop :=
  match o with
  | Obs e _ => os_act e
  | ObsFork body _ => all_obs (fun o => match o with Obs e _ => os_act e | ObsFork _ _ => False end) body
  end.

Class OsProcessLaws (P : OsProcess) : Prop := {
  os_spawn_obs program args options : all_obs os_obs (os_spawn program args options);
  os_wait_obs handle sinks : all_obs os_obs (os_wait handle sinks);
  os_kill_obs kill grace : all_obs os_obs (os_kill_escalating kill grace);
  os_alive_obs kill : all_obs os_obs (os_tree_alive kill);
  os_reap_obs kill : all_obs os_obs (os_reap_abandoned kill);
  os_spawn_err program args options tr e :
    exec (os_spawn program args options) tr (Some (Err e)) ->
    exists io, e = AerError.SpawnFailed io;
  os_wait_err handle sinks tr e :
    exec (os_wait handle sinks) tr (Some (Val (Err e))) ->
    exists io, e = AerError.WaitFailed io
}.

(** ** Traces of a drain thread *)

(** The chunk messages sent, in order, whatever the channel answered. *)
Definition obs_sent (o : obs) : option ChunkMsg.t :=
  match o with
  | Obs e _ =>
      match e with
      | @Send ty _ m =>
          match ty return msg ty -> option ChunkMsg.t with
          | TyChunk => Some
          | TyUnit | TyWait => fun _ => None
          end m
      | _ => None
      end
  | ObsFork _ _ => None
  end.

Definition sent (tr : list obs) : list ChunkMsg.t := omap obs_sent tr.

(** The non-empty chunks read from a pipe, in order. *)
Definition obs_chunk (o : obs) : option (list Byte.byte) :=
  match o with
  | Obs e x =>
      match e in act X return X -> option (list Byte.byte) with
      | PipeRead _ _ => fun x =>
          match x with
          | Ok (b :: bs) => Some (b :: bs)
          | Ok [] | Err _ => None
          end
      | _ => fun _ => None
      end x
  | ObsFork _ _ => None
  end.

Definition chunks_read (tr : list obs) : list (list Byte.byte) := omap obs_chunk tr.

(** The messages a drain thread owes for a list of chunks, from [seq] on. *)
Fixpoint numbered (make_msg : Z -> list Byte.byte -> ChunkMsg.t) (seq : Z)
    (chunks : list (list Byte.byte)) : list ChunkMsg.t :=
  match chunks with
  | [] => []
  | bytes :: chunks => make_msg seq bytes :: numbered make_msg (u64_succ seq) chunks
  end.

(** ** Lemmas *)

Lemma sent_app tr tr' : sent (tr ++ tr') = sent tr ++ sent tr'.
Proof. apply omap_app. Qed.

Lemma chunks_read_app tr tr' : chunks_read (tr ++ tr') = chunks_read tr ++ chunks_read tr'.
Proof. apply omap_app. Qed.

#[export] Hint Rewrite sent_app chunks_read_app : aer.

Lemma numbered_lookup_iter make_msg seq chunks i :
  numbered make_msg seq chunks !! i =
  make_msg (Nat.iter i u64_succ seq) <$> chunks !! i.
Proof.
  revert seq i. induction chunks as [|b chunks IH]; intros seq i; [done|].
  destruct i as [|i]; [done|]. simpl. by rewrite IH, <- Nat.iter_succ_r.
Qed.

Lemma numbered_app make_msg seq l l' :
  numbered make_msg seq (l ++ l') =
  numbered make_msg seq l ++ numbered make_msg (Nat.iter (length l) u64_succ seq) l'.
Proof.
  revert seq. induction l as [|b l IH]; intros seq; [done|]. simpl.
  by rewrite IH, <- Nat.iter_succ_r.
Qed.

Lemma numbered_length make_msg seq l : length (numbered make_msg seq l) = length l.
Proof. revert seq. induction l as [|b l IH]; intros seq; [done|]. simpl. by rewrite IH. Qed.

Lemma iter_u64_succ n : Z.of_nat n <= u64_max -> Nat.iter n u64_succ 0 = Z.of_nat n.
Proof.
  induction n as [|n IH]; [done|]. intros Hn.
  rewrite Nat.iter_succ, IH, u64_succ_small; lia.
Qed.

(** The sequence numbers are 0, 1, 2, ... as long as the counter has not run
    through its 64 bits. *)
Lemma numbered_lookup make_msg chunks i bytes :
  Z.of_nat i <= u64_max -> chunks !! i = Some bytes ->
  numbered make_msg 0 chunks !! i = Some (make_msg (Z.of_nat i) bytes).
Proof. intros Hi Hl. by rewrite numbered_lookup_iter, iter_u64_succ, Hl. Qed.

(** *** The drain thread *)

(** The read that ends a drain: end of file or an error. *)
Definition ends_drain (r : Result (list Byte.byte) io_Error) : Prop :=
  match r with
  | Ok [] | Err _ => True
  | Ok _ => False
  end.

(** While it runs, what it has sent is the numbering of what it has read, the
    last chunk possibly not sent yet; when it stops, of all it has read, and
    its last step was the read that ends it. *)
Lemma drain_loop_wp reader tx make_msg :
  wp (drain_loop reader tx make_msg)
    (fun h => sent h = numbered make_msg 0 (chunks_read h) \/
       exists m, numbered make_msg 0 (chunks_read h) = sent h ++ [m])
    (fun _ h => sent h = numbered make_msg 0 (chunks_read h) /\
       exists h' r, h = h' ++ [Obs (PipeRead reader drain_buf) r] /\ ends_drain r) [].
Proof.
  apply wp_iter with (inv := fun seq h =>
    sent h = numbered make_msg 0 (chunks_read h) /\
    seq = Nat.iter (length (chunks_read h)) u64_succ 0); [|done].
  intros seq h [Hs Hseq]. unfold drain_round. wp_step; [by left|].
  assert (forall l, numbered make_msg 0 (chunks_read h ++ l) =
                    sent h ++ numbered make_msg seq l) as Hnum.
  { intros l. by rewrite numbered_app, Hs, Hseq. }
  assert (forall b bytes, Nat.iter (length (chunks_read h ++ [b :: bytes])) u64_succ 0
          = u64_succ seq) as Hiter.
  { intros. by rewrite length_app, Nat.add_comm, Nat.iter_succ, Hseq. }
  destruct x as [[|b bytes]|e]; repeat wp_step; autorewrite with aer; simpl;
    rewrite ?app_nil_r, ?Hnum, ?Hiter; try split; eauto.
  - eexists _, _. split; [done|]. done.
  - eexists _, _. split; [done|]. done.
Qed.

(** All the steps of a drain thread are the platform's. *)
Lemma drain_body_obs reader tx make_msg :
  all_obs (fun o => match o with Obs e _ => os_act e | ObsFork _ _ => False end)
    (drain_body reader tx make_msg).
Proof.
  unfold drain_body, drain_loop, drain_round. all_obs_solve ltac:(done).
Qed.

Lemma thread_spawn_obs body captured :
  all_obs (fun o => match o with Obs e _ => os_act e | ObsFork _ _ => False end) body ->
  all_obs os_obs captured -> all_obs os_obs (thread_spawn body captured).
Proof. intros. unfold thread_spawn. all_obs_solve ltac:(done). Qed.

Lemma drop_sink_obs tx : all_obs os_obs (drop_sink tx).
Proof. unfold drop_sink. all_obs_solve ltac:(done). Qed.

Lemma drain_pipe_obs pipe tx make_msg : all_obs os_obs (drain_pipe pipe tx make_msg).
Proof.
  unfold drain_pipe, spawn_drain_thread. all_obs_solve ltac:(done).
  - apply thread_spawn_obs; [apply drain_body_obs|apply drop_sink_obs].
  - apply drop_sink_obs.
Qed.

Lemma drain_pipe_exec reader tx make_msg tr t :
  exec (drain_pipe (Some reader) tx make_msg) tr (Some (Val t)) <->
  exists t', t = Some t' /\ tr = [ObsFork (drain_body reader tx make_msg) (Some t')].
Proof.
  unfold drain_pipe, spawn_drain_thread, thread_spawn. split.
  - intros (r & tr1 & tr2 & -> & H1 & H2)%exec_bind_Some.
    apply exec_fork_Some in H1 as (t' & tr' & -> & H1). destruct t' as [t'|].
    + repeat exec_inv_step H1. repeat exec_inv_step H2. by exists t'.
    + apply exec_bind_Some in H1 as (? & ? & ? & -> & _ & H1).
      repeat exec_inv_step H1. repeat exec_inv_step H2.
  - intros (t' & -> & ->).
    apply (exec_bind _ _ (Val t') [ObsFork _ (Some t')] []); [|by apply exec_ret_Some].
    apply exec_fork_Some. exists (Some t'), []. split; [done|]. by apply exec_ret_Some.
Qed.

Lemma join_drain_obs t : all_obs os_obs (join_drain t).
Proof. unfold join_drain. all_obs_solve ltac:(done). Qed.

#[export] Hint Resolve drain_pipe_obs join_drain_obs drop_sink_obs : aer.

(** *** The kill handle's clones *)

(** Only the [Arc]'s own steps, and the close of the job. *)
Definition arc_obs (o : obs) : Prop :=
  match o with
  | Obs (ArcClone _) _ | Obs (ArcDrop _) _ | Obs (CloseHandle _) _ => True
  | _ => False
  end.

Lemma kill_clone_arc k : all_obs arc_obs (kill_clone k).
Proof. unfold kill_clone. all_obs_solve ltac:(done). Qed.

Lemma kill_drop_arc k : all_obs arc_obs (kill_drop k).
Proof. unfold kill_drop, job_drop. all_obs_solve ltac:(done). Qed.

Lemma kill_drop_opt_arc v : all_obs arc_obs (kill_drop_opt v).
Proof. destruct v; [apply kill_drop_arc|apply all_obs_ret]. Qed.

(** Their complete runs. *)
Definition clone_trace (k : KillHandle) : list obs :=
  match k with
  | UnixKill _ => []
  | WindowsKill arc _ => [Obs (ArcClone arc) tt]
  end.

Definition drop_trace (k : KillHandle) (last : bool) : list obs :=
  match k with
  | UnixKill _ => []
  | WindowsKill arc job =>
      Obs (ArcDrop arc) last :: if last then [Obs (CloseHandle job) tt] else []
  end.

Definition drop_opt_trace (v : option KillHandle) (last : bool) : list obs :=
  match v with
  | Some k => drop_trace k last
  | None => []
  end.

Lemma kill_clone_exec k tr : exec (kill_clone k) tr (Some tt) <-> tr = clone_trace k.
Proof.
  destruct k as [p|arc j]; simpl; [rewrite exec_ret_Some; by split; [intros [-> _]|intros ->]|].
  by rewrite exec_do_act_Some.
Qed.

Lemma kill_drop_exec k tr :
  exec (kill_drop k) tr (Some tt) <-> exists last, tr = drop_trace k last.
Proof.
  destruct k as [p|arc j]; simpl.
  - rewrite exec_ret_Some. split; [intros [-> _]; by exists false|by intros [? ->]].
  - split.
    + intros (last & tr' & -> & Hex)%exec_act_Some. exists last.
      destruct last; [by apply exec_do_act_Some in Hex as ->|by apply exec_ret_Some in Hex as [-> _]].
    + intros [last ->]. apply exec_act_Some. eexists _, _. split; [done|].
      destruct last; [by apply exec_do_act_Some|by apply exec_ret_Some].
Qed.

Lemma kill_drop_opt_exec v tr :
  exec (kill_drop_opt v) tr (Some tt) <-> exists last, tr = drop_opt_trace v last.
Proof.
  destruct v as [k|]; simpl; [apply kill_drop_exec|]. rewrite exec_ret_Some.
  split; [intros [-> _]; by exists false|by intros [? ->]].
Qed.

Lemma arc_os o : arc_obs o -> os_obs o.
Proof. by destruct o as [X []|]. Qed.

Lemma kill_clone_obs k : all_obs os_obs (kill_clone k).
Proof. eapply all_obs_impl; [apply arc_os|apply kill_clone_arc]. Qed.

Lemma kill_drop_obs k : all_obs os_obs (kill_drop k).
Proof. eapply all_obs_impl; [apply arc_os|apply kill_drop_arc]. Qed.

Lemma kill_drop_opt_obs v : all_obs os_obs (kill_drop_opt v).
Proof. eapply all_obs_impl; [apply arc_os|apply kill_drop_opt_arc]. Qed.

(** Clones and drops keep to any condition on the steps of an [Arc]. *)
Lemma kill_clone_all (ok : obs -> Prop) k :
  (forall o, arc_obs o -> ok o) -> all_obs ok (kill_clone k).
Proof. intros Hok. eapply all_obs_impl; [exact Hok|apply kill_clone_arc]. Qed.

Lemma kill_drop_all (ok : obs -> Prop) k :
  (forall o, arc_obs o -> ok o) -> all_obs ok (kill_drop k).
Proof. intros Hok. eapply all_obs_impl; [exact Hok|apply kill_drop_arc]. Qed.

Lemma kill_drop_opt_all (ok : obs -> Prop) v :
  (forall o, arc_obs o -> ok o) -> all_obs ok (kill_drop_opt v).
Proof. intros Hok. eapply all_obs_impl; [exact Hok|apply kill_drop_opt_arc]. Qed.

Ltac arc_steps := intros [? [] ?|? ?] []; repeat split; solve [done | auto].

#[export] Hint Extern 1 (all_obs _ (kill_clone _)) => apply kill_clone_all; arc_steps : aer.
#[export] Hint Extern 1 (all_obs _ (kill_drop _)) => apply kill_drop_all; arc_steps : aer.
#[export] Hint Extern 1 (all_obs _ (kill_drop_opt _)) => apply kill_drop_opt_all; arc_steps : aer.
#[global] Arguments kill_clone : simpl never.
#[global] Arguments kill_drop : simpl never.

(** *** The configuration of the child *)

(** [configure] leaves the program, its arguments and its streams alone. *)
Lemma configure_stdio options cmd :
  let cmd' := configure options cmd in
  (cmd_program cmd', cmd_args cmd', cmd_stdin cmd', cmd_stdout cmd', cmd_stderr cmd') =
  (cmd_program cmd, cmd_args cmd, cmd_stdin cmd, cmd_stdout cmd, cmd_stderr cmd).
Proof.
  assert (forall envs cmd,
    let cmd' := fold_left (fun cmd '(key, value) => cmd_env key value cmd) envs cmd in
    (cmd_program cmd', cmd_args cmd', cmd_stdin cmd', cmd_stdout cmd', cmd_stderr cmd') =
    (cmd_program cmd, cmd_args cmd, cmd_stdin cmd, cmd_stdout cmd, cmd_stderr cmd)) as Henv.
  { induction envs as [|[k v] envs IH]; intros c; [done|]. simpl. by rewrite IH. }
  unfold configure. destruct (opt_cwd options); simpl; rewrite Henv;
    by destruct (opt_clear_env options).
Qed.

(** The variables a list of [Command::env] calls sets. *)
Lemma cmd_vars_env envs cmd :
  cmd_vars (fold_left (fun cmd '(key, value) => cmd_env key value cmd) envs cmd) =
  cmd_vars cmd ++ envs.
Proof.
  revert cmd. induction envs as [|[key value] envs IH]; intros cmd; simpl; [by rewrite app_nil_r|].
  rewrite IH. simpl. by rewrite <- app_assoc.
Qed.

Lemma cmd_clear_env envs cmd :
  cmd_clear (fold_left (fun cmd '(key, value) => cmd_env key value cmd) envs cmd) =
  cmd_clear cmd.
Proof. revert cmd. induction envs as [|[key value] envs IH]; intros cmd; simpl; [done|by rewrite IH]. Qed.

(** The environment part of the command: the variables as listed, and whether
    the parent's are cleared. *)
Lemma configure_vars options cmd :
  cmd_vars cmd = [] -> cmd_clear cmd = false ->
  cmd_vars (configure options cmd) = opt_env options /\
  cmd_clear (configure options cmd) = opt_clear_env options.
Proof.
  intros Hv Hc. unfold configure.
  destruct (opt_cwd options); destruct (opt_clear_env options); simpl;
    rewrite cmd_clear_env, cmd_vars_env; simpl; by rewrite ?Hc, ?Hv.
Qed.

(** ** Properties *)

(** A drain thread loses nothing and reorders nothing: what it has sent is
    what it has read, chunk by chunk, numbered from 0 up, the last chunk read
    possibly still in its hands; and when it stops it has sent all of it, the
    last read having been the end of the stream or an error. *)
Theorem drain_loop_spec reader tx make_msg tr r :
  exec (drain_loop reader tx make_msg) tr r ->
  (forall i bytes, Z.of_nat i <= u64_max -> chunks_read tr !! i = Some bytes ->
     (i < length (sent tr))%nat -> sent tr !! i = Some (make_msg (Z.of_nat i) bytes)) /\
  (length (sent tr) <= length (chunks_read tr) <= S (length (sent tr)))%nat /\
  (r = Some tt -> length (sent tr) = length (chunks_read tr) /\
     exists tr' x, tr = tr' ++ [Obs (PipeRead reader drain_buf) x] /\ ends_drain x).
Proof.
  intros Hex. pose proof (drain_loop_wp reader tx make_msg _ _ Hex) as Hw. simpl in Hw.
  assert (length (numbered make_msg 0 (chunks_read tr)) = length (chunks_read tr)) as Hlen
    by apply numbered_length.
  assert (exists l, numbered make_msg 0 (chunks_read tr) = sent tr ++ l /\ (length l <= 1)%nat /\
    (r = Some tt -> l = [])) as (l & Hl & Hl1 & Hr).
  { destruct r as [[]|].
    - destruct Hw as [<- _]. exists []. rewrite app_nil_r. split_and!; try done. simpl. lia.
    - destruct Hw as [<- |[m ->]]; [exists []|exists [m]]; rewrite ?app_nil_r; split_and!; try done; simpl; lia. }
  rewrite Hl, length_app in Hlen. split_and!; [|lia|lia|].
  - intros i bytes Hi Hc Hs. pose proof (numbered_lookup make_msg _ _ _ Hi Hc) as Hn.
    rewrite Hl in Hn. by rewrite lookup_app_l in Hn.
  - intros ->. rewrite (Hr eq_refl) in Hlen. simpl in Hlen. split; [lia|]. apply Hw.
Qed.
