(* ===== verification/Unix.v ===== *)
(** * The Unix backend (src/src/os/unix.rs)

    [UnixProcess] is the instance of [OsProcess] for Unix: spawn with
    [setsid], signalling of the process group with the direct-pid fallback,
    the polled grace window, the wait that always cleans the group up, and the
    liveness probe. *)

From Stdlib Require Import ZArith Lia.
From stdpp Require Import base numbers list strings gmap.
From S2P Require Import Prelude Core Sys Prog Os.

Open Scope Z_scope.

(** ** Constants of the platform *)

Definition SIGKILL : Z := 9.
Definition SIGTERM : Z := 15.
Definition ESRCH : Z := 3.

(** [ExitStatus::code]: the exit status when the process exited by itself
    ([WIFEXITED], [WEXITSTATUS]). *)
Definition ExitStatus_code (status : ExitStatus) : option Z :=
  if Z.land status 127 =? 0 then Some (Z.land (Z.shiftr status 8) 255) else None.

(** The [pgid] field; on Unix it is the only one [KillHandle] has. *)
Definition pgid (k : KillHandle) : Z :=
  match k with
  | UnixKill pgid => pgid
  | WindowsKill _ job => job
  end.

(** ** spawn *)

(** The [pre_exec] closure, given what [setsid] returned. *)
Definition setsid_hook (ret errno : Z) : Result unit io_Error :=
  if ret <? 0 then Err (OsError errno) else Ok tt.

Definition command (program : string) (args : list string) (options : SpawnOptions) : Command :=
  let cmd := Command_new program in
  let cmd := with_stdio StdioNull StdioPiped StdioPiped (with_cmd_args args cmd) in
  let cmd := configure options cmd in
  pre_exec setsid_hook cmd.

Definition spawn (program : string) (args : list string) (options : SpawnOptions) :
    prog (Result OsHandle AerError.t) :=
  let! r := do_act (CommandSpawn (command program args options)) in
  match r with
  | Err e => Ret (Err (AerError.SpawnFailed e))
  | Ok child =>
      let pid := child_id child in
      Ret (Ok (mkOsHandle pid child (UnixKill pid)))
  end.

(** ** Signals *)

(** [killpg] with the fallback to the pid itself when the group does not
    exist; the code is the same for SIGTERM and SIGKILL. *)
Definition signal_tree (k : KillHandle) (sig : Z) : prog (Result unit AerError.t) :=
  let! r := do_act (Killpg (as_i32 (pgid k)) sig) in
  if rc r =? 0 then Ret (Ok tt)
  else
    let e := OsError (errno r) in
    if decide (raw_os_error e = Some ESRCH) then
      do_act (Kill (as_i32 (pgid k)) sig) ;;;
      Ret (Ok tt)
    else Ret (Err (AerError.KillFailed e)).

Definition tree_alive (k : KillHandle) : prog bool :=
  let! r := do_act (Killpg (as_i32 (pgid k)) 0) in
  if rc r =? 0 then Ret true
  else if negb (bool_decide (raw_os_error (OsError (errno r)) = Some ESRCH)) then Ret true
  else
    let! r := do_act (Kill (as_i32 (pgid k)) 0) in
    if rc r =? 0 then Ret true
    else Ret (negb (bool_decide (raw_os_error (OsError (errno r)) = Some ESRCH))).

(** Nanoseconds. *)
Definition poll_interval : Z := 25 * 1000000.

(** One round of the grace loop: [inr true] is the return on a dead tree,
    [inr false] the [break] at the deadline. *)
Definition poll_round (k : KillHandle) (deadline : Z) (_ : unit) : prog (unit + bool) :=
  let! alive := tree_alive k in
  if negb alive then Ret (inr true)
  else
    let! now := do_act InstantNow in
    if deadline <=? now then Ret (inr false)
    else
      do_act (Sleep (Z.min poll_interval (deadline - now))) ;;;
      Ret (inl tt).

Definition kill_escalating (k : KillHandle) (grace : Z) : prog (Result unit AerError.t) :=
  let! r := signal_tree k SIGTERM in
  match r with
  | Err e => Ret (Err e)
  | Ok _ =>
      let! now := do_act InstantNow in
      let deadline := now + grace in
      let! dead := iter (poll_round k deadline) tt in
      if dead : bool then Ret (Ok tt)
      else signal_tree k SIGKILL
  end.

Definition reap_abandoned (k : KillHandle) : prog unit :=
  do_act (Waitpid (as_i32 (pgid k)) 0) ;;; Ret tt.

(** ** wait *)

Definition wait (handle : OsHandle) (sinks : OutputSinks) :
    prog (outcome (Result Z AerError.t)) :=
  let child := child handle in
  let pgid := pgid (kill handle) in
  let! stdout_drain := drain_pipe (child_stdout child) (sink_stdout sinks) ChunkMsg.Stdout in
  match stdout_drain with
  | Panic p => drop_sink (sink_stderr sinks) ;;; Ret (Panic p)
  | Val stdout_drain =>
      let! stderr_drain := drain_pipe (child_stderr child) (sink_stderr sinks) ChunkMsg.Stderr in
      match stderr_drain with
      | Panic p => Ret (Panic p)
      | Val stderr_drain =>
          let! wait_res := do_act (ChildWait (child_id child)) in
          do_act (Killpg (as_i32 pgid) SIGKILL) ;;;
          join_drain stdout_drain ;;;
          join_drain stderr_drain ;;;
          Ret (Val match map_err AerError.WaitFailed wait_res with
                   | Err e => Err e
                   | Ok status => Ok (default (-1) (ExitStatus_code status))
                   end)
      end
  end.

#[export] Instance UnixProcess : OsProcess := {
  os_spawn := spawn;
  os_wait := wait;
  os_kill_escalating := kill_escalating;
  os_tree_alive := tree_alive;
  os_reap_abandoned := reap_abandoned
}.

(** ** What the traces say *)

(** The tree was signalled: the group took the signal, or it did not exist
    and the root process was signalled directly. *)
Definition signalled (pg sig : Z) (tr : list obs) : Prop :=
  (exists err, Obs (Killpg pg sig) (mkRet 0 err) ∈ tr) \/
  (exists r r', r <> 0 /\ Obs (Killpg pg sig) (mkRet r ESRCH) ∈ tr /\ Obs (Kill pg sig) r' ∈ tr).

(** The two probes that make [tree_alive] answer [false]. *)
Definition dead_probe (pg : Z) : list obs -> Prop := fun tr =>
  exists r r', r <> 0 /\ r' <> 0 /\
    tr = [Obs (Killpg pg 0) (mkRet r ESRCH); Obs (Kill pg 0) (mkRet r' ESRCH)].

(** ** The instance's laws *)

Lemma signal_tree_obs k sig : all_obs os_obs (signal_tree k sig).
Proof. unfold signal_tree. all_obs_solve ltac:(done). Qed.

Lemma tree_alive_obs k : all_obs os_obs (tree_alive k).
Proof. unfold tree_alive. all_obs_solve ltac:(done). Qed.

#[export] Hint Resolve signal_tree_obs tree_alive_obs : aer.

Lemma wait_err handle sinks tr e :
  exec (wait handle sinks) tr (Some (Val (Err e))) -> exists io, e = AerError.WaitFailed io.
Proof.
  intros (o1 & tr1 & tr2 & -> & _ & H)%exec_bind_Some. destruct o1; [|by apply exec_seq_ret in H].
  apply exec_bind_Some in H as (o2 & tr3 & tr4 & -> & _ & H).
  destruct o2; [|by exec_inv_step H].
  repeat exec_inv_step H.
  apply exec_bind_Some in H as (? & ? & ? & -> & _ & H).
  apply exec_seq_ret in H. destruct x as [?|io]; simplify_eq/=. by exists io.
Qed.

#[export] Instance UnixLaws : OsProcessLaws UnixProcess.
Proof.
  split; simpl.
  1-5: unfold spawn, wait, kill_escalating, poll_round, reap_abandoned; all_obs_solve ltac:(done).
  - intros program args options tr e Hex. unfold spawn in Hex. exec_inv_step Hex.
    destruct x; exec_inv_step Hex. by eexists.
  - apply wait_err.
Qed.

(** What one signalling step leaves: the tree signalled, or the error of a
    [killpg] that failed otherwise than with ESRCH, as its only step. *)
Definition signal_post (pg sig : Z) (r : Result unit AerError.t) (tr : list obs) : Prop :=
  match r with
  | Ok _ => signalled pg sig tr
  | Err e => exists ret err, ret <> 0 /\ err <> ESRCH /\
      e = AerError.KillFailed (OsError err) /\
      tr = [Obs (Killpg pg sig) (mkRet ret err)]
  end.

(** A step of the grace loop: a probe, a look at the clock, a sleep. *)
Definition poll_obs (o : obs) : Prop :=
  match o with
  | Obs e _ =>
      match e with
      | Killpg _ sig | Kill _ sig => sig = 0
      | InstantNow | Sleep _ => True
      | _ => False
      end
  | ObsFork _ _ => False
  end.

(** How the grace loop ends: on a dead tree, or past the deadline. *)
Definition poll_post (pg deadline : Z) (dead : bool) (tr : list obs) : Prop :=
  if dead then exists tr' probe, tr = tr' ++ probe /\ dead_probe pg probe
  else exists tr' now, tr = tr' ++ [Obs InstantNow now] /\ deadline <= now.

(** ** Lemmas *)

Lemma signalled_mono pg sig tr tr' : tr ⊆ tr' -> signalled pg sig tr -> signalled pg sig tr'.
Proof.
  intros Hsub [[err ?]|(r & r' & ? & ? & ?)]; [left; exists err; by apply Hsub|].
  right. exists r, r'. repeat split; [done|by apply Hsub|by apply Hsub].
Qed.

Lemma signal_tree_exec k sig tr r :
  exec (signal_tree k sig) tr (Some r) -> signal_post (as_i32 (pgid k)) sig r tr.
Proof.
  apply (wp_exec _ (fun _ => True) (signal_post (as_i32 (pgid k)) sig)).
  unfold signal_tree. wp_step; [done|].
  destruct x as [ret err]; simpl. destruct (Z.eqb_spec ret 0) as [->|].
  - wp_step; [done|]. left. exists err. in_list.
  - case_decide; simplify_eq; repeat wp_step; try done.
    + right. eexists ret, _. repeat split; [done|in_list|in_list].
    + exists ret, err. naive_solver.
Qed.

Lemma tree_alive_exec k tr :
  exec (tree_alive k) tr (Some false) <-> dead_probe (as_i32 (pgid k)) tr.
Proof.
  split.
  - intros Hex.
    refine (wp_exec _ (fun _ => True)
              (fun b tr => b = false -> dead_probe (as_i32 (pgid k)) tr) _ _ _ Hex eq_refl).
    unfold tree_alive. wp_step; [done|]. destruct x as [ret err]; simpl.
    destruct (Z.eqb_spec ret 0); [by repeat wp_step|].
    case_bool_decide; simplify_eq; simpl; repeat wp_step; try done.
    destruct x as [ret' err']; simpl in *. intros [= Hb].
    case_bool_decide; simplify_eq. exists ret, ret'. apply Z.eqb_neq in Heqb. done.
  - intros (ret & ret' & Hr & Hr' & ->). apply Z.eqb_neq in Hr, Hr'.
    apply exec_act_Some. eexists _, _. split; [done|]. simpl. rewrite Hr.
    apply exec_act_Some. eexists _, _. split; [done|]. simpl. rewrite Hr'.
    by apply exec_ret_Some.
Qed.

Lemma poll_loop_obs k deadline : all_obs poll_obs (iter (poll_round k deadline) tt).
Proof. unfold poll_round, tree_alive. all_obs_solve ltac:(done). Qed.

Lemma poll_loop_exec k deadline tr dead :
  exec (iter (poll_round k deadline) tt) tr (Some dead) ->
  poll_post (as_i32 (pgid k)) deadline dead tr.
Proof.
  apply (wp_exec _ (fun _ => True) (poll_post (as_i32 (pgid k)) deadline)).
  apply wp_iter with (inv := fun _ _ => True); [|done]. intros [] h _.
  unfold poll_round. apply wp_bind. intros tr' [alive|]; [|done]. intros Hal.
  destruct alive; simpl.
  - wp_step; [done|]. rename x into now. destruct (Z.leb_spec deadline now).
    + do 2 (wp_step; [done|]). by eexists _, now.
    + by repeat wp_step.
  - do 2 (wp_step; [done|]). exists h, tr'. split; [done|]. by apply tree_alive_exec.
Qed.

(** The parts of a [kill_escalating]: the SIGTERM, the grace loop, the SIGKILL. *)
Lemma kill_escalating_exec k grace tr r :
  exec (kill_escalating k grace) tr (Some r) ->
  exists r1 tr1, exec (signal_tree k SIGTERM) tr1 (Some r1) /\
    match r1 with
    | Err e => r = Err e /\ tr = tr1
    | Ok _ => exists now dead tr2,
        exec (iter (poll_round k (now + grace)) tt) tr2 (Some dead) /\
        if dead : bool then r = Ok tt /\ tr = tr1 ++ Obs InstantNow now :: tr2
        else exists tr3, exec (signal_tree k SIGKILL) tr3 (Some r) /\
               tr = tr1 ++ Obs InstantNow now :: tr2 ++ tr3
    end.
Proof.
  intros (r1 & tr1 & tr' & -> & H1 & H2)%exec_bind_Some. exists r1, tr1. split; [done|].
  destruct r1 as [[]|e]; [|exec_inv_step H2; by rewrite app_nil_r].
  apply exec_act_Some in H2 as (now & tr2' & -> & H2). exists now.
  apply exec_bind_Some in H2 as (dead & tr2 & tr3 & -> & H2 & H3). exists dead, tr2.
  split; [done|]. destruct dead; [|by eexists].
  exec_inv_step H3. by rewrite app_nil_r.
Qed.

(** ** Properties *)

(** The probe reports a dead tree exactly when both the process group and the
    root process answered ESRCH. *)
Theorem tree_alive_spec k tr :
  exec (tree_alive k) tr (Some false) <-> dead_probe (as_i32 (pgid k)) tr.
Proof. apply tree_alive_exec. Qed.

(** C27: The contract of [kill_escalating]. *)
Theorem kill_escalating_spec k grace tr r :
  exec (kill_escalating k grace) tr (Some r) ->
  let pg := as_i32 (pgid k) in
  match r with
  | Ok _ => signalled pg SIGTERM tr /\
      ((exists tr' probe, tr = tr' ++ probe /\ dead_probe pg probe) \/ signalled pg SIGKILL tr)
  | Err e => exists tr' sig ret err, (sig = SIGTERM \/ sig = SIGKILL) /\
      ret <> 0 /\ err <> ESRCH /\ e = AerError.KillFailed (OsError err) /\
      tr = tr' ++ [Obs (Killpg pg sig) (mkRet ret err)]
  end.
Proof.
  intros Hex. apply kill_escalating_exec in Hex as (r1 & tr1 & H1 & Hr).
  apply signal_tree_exec in H1. destruct r1 as [[]|e1]; simpl.
  - destruct Hr as (now & dead & tr2 & H2%poll_loop_exec & Hr). destruct dead.
    + destruct Hr as [-> ->], H2 as (tr' & probe & -> & Hp). split.
      * eapply signalled_mono, H1. apply list_subseteq_app_l. done.
      * left. exists (tr1 ++ Obs InstantNow now :: tr'), probe. by rewrite <- app_assoc.
    + destruct Hr as (tr3 & H3%signal_tree_exec & ->). destruct r as [[]|e]; simpl in H3.
      * split; [|right]; (eapply signalled_mono; [|done]); intros o ?; in_list.
      * destruct H3 as (ret & err & ? & ? & -> & ->).
        exists (tr1 ++ Obs InstantNow now :: tr2), SIGKILL, ret, err.
        split_and!; try done; [by right|by rewrite <- app_assoc].
  - destruct Hr as [-> ->]. destruct H1 as (ret & err & ? & ? & -> & ->).
    exists [], SIGTERM, ret, err. split_and!; try done. by left.
Qed.

(** A step that sends SIGKILL to someone. *)
Definition is_sigkill (o : obs) : Prop :=
  match o with
  | Obs e _ =>
      match e with
      | Killpg _ sig | Kill _ sig => sig = SIGKILL
      | _ => False
      end
  | ObsFork _ _ => False
  end.

Lemma signal_tree_no_sigkill k tr r o :
  exec (signal_tree k SIGTERM) tr r -> o ∈ tr -> ~ is_sigkill o.
Proof.
  intros Hex. cut (all_obs (fun o => ~ is_sigkill o) (signal_tree k SIGTERM)).
  { intros Hall. specialize (Hall _ _ Hex). rewrite Forall_forall in Hall. apply Hall. }
  unfold signal_tree. all_obs_solve ltac:(done).
Qed.

Lemma poll_not_sigkill o : poll_obs o -> ~ is_sigkill o.
Proof. destruct o as [X e x|]; [destruct e|]; simpl; unfold SIGKILL; intros; first [done|lia]. Qed.

(** C28: SIGKILL waits for the grace period: whenever a (possibly unfinished) run
    has sent it, the clock was read twice before, at least [grace] apart, and
    SIGTERM was delivered before. *)
Theorem sigkill_after_grace k grace tr r o :
  exec (kill_escalating k grace) tr r -> o ∈ tr -> is_sigkill o ->
  exists tr1 t0 tr2 t1 tr3, tr = tr1 ++ Obs InstantNow t0 :: tr2 ++ Obs InstantNow t1 :: tr3 /\
    t0 + grace <= t1 /\ o ∈ tr3 /\ signalled (as_i32 (pgid k)) SIGTERM tr1.
Proof.
  intros [[-> Hex]|(r1 & tr1 & tr' & -> & H1 & H2)]%exec_bind_inv Ho Hk.
  { by destruct (signal_tree_no_sigkill _ _ _ _ Hex Ho). }
  apply elem_of_app in Ho as [Ho|Ho]; [by destruct (signal_tree_no_sigkill _ _ _ _ H1 Ho)|].
  apply signal_tree_exec in H1.
  destruct r1 as [[]|e]; [|destruct H2 as [-> _]; by apply elem_of_nil in Ho].
  destruct H2 as [[-> _]|(t0 & tr2 & -> & H2)]; [by apply elem_of_nil in Ho|].
  apply elem_of_cons in Ho as [->|Ho]; [done|].
  change (exec (let! dead := iter (poll_round k (t0 + grace)) tt in
                if dead : bool then Ret (Ok tt) else signal_tree k SIGKILL) tr2 r) in H2.
  assert (forall tr r, exec (iter (poll_round k (t0 + grace)) tt) tr r -> o ∉ tr) as Hpoll.
  { intros tr0 r0 Hex Hin. pose proof (poll_loop_obs _ _ _ _ Hex) as HF.
    rewrite Forall_forall in HF. by apply (poll_not_sigkill o); [apply HF|]. }
  apply exec_bind_inv in H2 as [[-> Hex]|(dead & tr3 & tr4 & -> & H3 & H4)];
    [by destruct (Hpoll _ _ Hex)|].
  apply elem_of_app in Ho as [Ho|Ho]; [by destruct (Hpoll _ _ H3)|].
  apply poll_loop_exec in H3. destruct dead; [destruct H4 as [-> _]; by apply elem_of_nil in Ho|].
  destruct H3 as (tr5 & t1 & -> & Hle). exists tr1, t0, tr5, t1, tr4.
  split_and!; try done. by rewrite <- app_assoc.
Qed.

(** *** Termination of the grace loop *)

Section Termination.
Context {W : Type}.
Variable handle : forall X, act X -> W -> X * W.
Variable handle_fork : prog unit -> W -> option tid * W.
(** The monotonic clock behind [Instant]. *)
Variable clock : W -> Z.
Hypothesis clock_mono : forall X (e : act X) w, clock w <= clock (handle X e w).2.
Hypothesis clock_now : forall w,
  clock w <= (handle Z InstantNow w).1 <= clock (handle Z InstantNow w).2.
Hypothesis clock_sleep : forall d w, clock w + d <= clock (handle unit (Sleep d) w).2.

(** A program without loops ends whatever the fuel, its clock not going back. *)
Definition ends {A} (p : prog A) : Prop :=
  forall fuel w, exists a tr w',
    run handle handle_fork fuel p w = (Some a, tr, w') /\ clock w <= clock w'.

Lemma ends_ret {A} (a : A) : ends (Ret a).
Proof. intros fuel w. exists a, [], w. by split; [|lia]. Qed.

Lemma ends_act {A X} (e : act X) (k : X -> prog A) :
  (forall x, ends (k x)) -> ends (bind (do_act e) k).
Proof.
  intros Hk fuel w. rewrite run_act. pose proof (clock_mono X e w).
  destruct (handle X e w) as [x w1]; simpl in *.
  destruct (Hk x fuel w1) as (a & tr & w' & Hr & ?). exists a, (Obs e x :: tr), w'.
  rewrite Hr. split; [done|lia].
Qed.

Lemma signal_tree_ends k sig : ends (signal_tree k sig).
Proof.
  apply ends_act. intros r. cbv zeta. destruct (rc r =? 0); [apply ends_ret|].
  case_decide; [apply ends_act; intros|]; apply ends_ret.
Qed.

Lemma tree_alive_ends k : ends (tree_alive k).
Proof.
  apply ends_act. intros r. destruct (rc r =? 0); [apply ends_ret|].
  destruct (negb _); [apply ends_ret|].
  apply ends_act. intros r'. destruct (rc r' =? 0); apply ends_ret.
Qed.

(** A round either ends the loop or brings the deadline one interval nearer. *)
Lemma poll_round_runs k deadline fuel w :
  exists r tr w', run handle handle_fork fuel (poll_round k deadline tt) w = (Some r, tr, w') /\
    (r = inl tt -> clock w < deadline /\
       (clock w + poll_interval <= clock w' \/ deadline <= clock w')).
Proof.
  unfold poll_round. rewrite run_bind.
  destruct (tree_alive_ends k fuel w) as (alive & tr & w1 & -> & Hw1).
  destruct alive; simpl negb; cbv iota; [|by eexists _, _, _]. rewrite run_act.
  pose proof (clock_now w1) as Hnow.
  destruct (handle Z InstantNow w1) as [now w2]; simpl in Hnow.
  destruct (Z.leb_spec deadline now); [by eexists _, _, _|]. rewrite run_act.
  pose proof (clock_sleep (Z.min poll_interval (deadline - now)) w2) as Hs.
  destruct (handle unit (Sleep _) w2) as [[] w3]; simpl in Hs.
  eexists _, _, _. split; [done|]. intros _. split; lia.
Qed.

Lemma poll_loop_runs k deadline rounds : forall n w,
  deadline - clock w <= Z.of_nat rounds * poll_interval -> (rounds < n)%nat ->
  forall fuel, exists dead tr w',
    run_rounds (fun i => run handle handle_fork fuel (poll_round k deadline i))
      (fun x => run handle handle_fork fuel (Ret x)) n tt w = (Some dead, tr, w').
Proof.
  assert (0 < poll_interval) as Hp by done.
  induction rounds as [|rounds IH]; intros [|n] w Hd Hn fuel; try lia;
    cbn [run_rounds];
    destruct (poll_round_runs k deadline fuel w) as (r & tr & w1 & -> & Hr);
    destruct r as [[]|dead]; try by eexists _, _, _.
  - destruct (Hr eq_refl). lia.
  - destruct (Hr eq_refl). destruct (IH n w1) with (fuel := fuel) as (dead & tr' & w' & ->);
      [lia|lia|by eexists _, _, _].
Qed.

(** C29: With a clock that advances by at least what is slept, [kill_escalating]
    returns, after at most [grace / 25ms + 1] rounds of its loop. *)
Theorem kill_escalating_returns k grace fuel w :
  0 <= grace -> grace / poll_interval + 1 < Z.of_nat fuel ->
  exists r tr w', run handle handle_fork fuel (kill_escalating k grace) w = (Some r, tr, w').
Proof.
  intros Hg Hf. unfold kill_escalating. rewrite run_bind.
  destruct (signal_tree_ends k SIGTERM fuel w) as (r1 & tr1 & w1 & -> & _).
  destruct r1 as [[]|e]; [|by eexists _, _, _]. rewrite run_act.
  pose proof (clock_now w1) as Hnow.
  destruct (handle Z InstantNow w1) as [now w2]. simpl in Hnow. rewrite run_bind.
  destruct (poll_loop_runs k (now + grace) (Z.to_nat (grace / poll_interval + 1)) fuel w2)
    with (fuel := fuel) as (dead & tr2 & w3 & E3).
  - pose proof (Z.mul_succ_div_gt grace poll_interval ltac:(done)).
    pose proof (Z.div_pos grace poll_interval Hg ltac:(done)). lia.
  - pose proof (Z.div_pos grace poll_interval Hg ltac:(done)). lia.
  - rewrite run_iter, E3. destruct dead; [by eexists _, _, _|].
    destruct (signal_tree_ends k SIGKILL fuel w3) as (r4 & tr4 & w4 & -> & _).
    by eexists _, _, _.
Qed.
End Termination.

(** *** wait *)

(** The exit code reported for a wait status. *)
Definition reported (wait_res : Result ExitStatus io_Error) : Result Z AerError.t :=
  match wait_res with
  | Err e => Err (AerError.WaitFailed e)
  | Ok status => Ok (default (-1) (ExitStatus_code status))
  end.

(** Whatever the child: once the root was waited for, the group is killed. *)
Lemma wait_kills handle sinks tr r :
  exec (wait handle sinks) tr (Some (Val r)) ->
  exists tr1 wait_res kill_res tr2,
    tr = tr1 ++ Obs (ChildWait (child_id (child handle))) wait_res ::
         Obs (Killpg (as_i32 (pgid (kill handle))) SIGKILL) kill_res :: tr2 /\
    r = reported wait_res.
Proof.
  intros (o1 & tr1 & tr2 & -> & _ & H)%exec_bind_Some. destruct o1; [|by apply exec_seq_ret in H].
  apply exec_bind_Some in H as (o2 & tr3 & tr4 & -> & _ & H).
  destruct o2; [|by exec_inv_step H].
  repeat exec_inv_step H.
  apply exec_bind_Some in H as (? & ? & ? & -> & _ & H).
  apply exec_seq_ret in H. simplify_eq. eexists (tr1 ++ tr3), x, x0, _. split.
  - by rewrite <- app_assoc.
  - by destruct x.
Qed.

(** C30: The whole contract of [wait] on a child with both pipes: both drain
    threads run before the root is waited for, the group is killed whatever
    the wait answered, and only then are the drain threads joined. *)
Theorem wait_spec id pid out err k sinks tr r :
  let handle := mkOsHandle pid (mkChild id (Some out) (Some err)) k in
  exec (wait handle sinks) tr (Some (Val r)) <->
  exists t1 t2 wait_res kill_res,
    tr = [ObsFork (drain_body out (sink_stdout sinks) ChunkMsg.Stdout) (Some t1);
          ObsFork (drain_body err (sink_stderr sinks) ChunkMsg.Stderr) (Some t2);
          Obs (ChildWait id) wait_res;
          Obs (Killpg (as_i32 (pgid k)) SIGKILL) kill_res;
          Obs (Join t1) tt; Obs (Join t2) tt] /\
    r = reported wait_res.
Proof.
  intros handle. unfold wait. split.
  - intros (o1 & tr1 & tr2 & -> & H1 & H)%exec_bind_Some.
    destruct o1 as [t1|]; [|by apply exec_seq_ret in H].
    apply drain_pipe_exec in H1 as (t1' & -> & ->).
    apply exec_bind_Some in H as (o2 & tr3 & tr4 & -> & H2 & H).
    destruct o2 as [t2|]; [|by exec_inv_step H].
    apply drain_pipe_exec in H2 as (t2' & -> & ->). simpl in H.
    repeat exec_inv_step H. destruct x1, x2.
    eexists t1', t2', x, x0. split; [done|]. by destruct x.
  - intros (t1 & t2 & wait_res & kill_res & -> & ->).
    apply (exec_bind _ _ (Val (Some t1)) [ObsFork _ (Some t1)]); [by apply drain_pipe_exec; eauto|].
    apply (exec_bind _ _ (Val (Some t2)) [ObsFork _ (Some t2)]); [by apply drain_pipe_exec; eauto|].
    simpl. do 4 (apply exec_act_Some; eexists _, _; split; [done|]).
    apply exec_ret_Some. by destruct wait_res.
Qed.

Lemma reported_range wait_res code :
  reported wait_res = Ok code -> code = -1 \/ 0 <= code <= 255.
Proof.
  destruct wait_res as [status|e]; simpl; [|done]. unfold ExitStatus_code.
  destruct (_ =? 0); simpl; intros [= <-]; [|by left]. right.
  pose proof (Z.land_ones (Z.shiftr status 8) 8 ltac:(lia)) as Hl.
  change (Z.ones 8) with 255 in Hl. rewrite Hl.
  pose proof (Z.mod_pos_bound (Z.shiftr status 8) 256 ltac:(lia)). change (2 ^ 8) with 256. lia.
Qed.

Lemma ExitStatus_code_exited code :
  0 <= code <= 255 -> ExitStatus_code (Z.shiftl code 8) = Some code.
Proof.
  intros Hc. unfold ExitStatus_code.
  assert (Z.land (Z.shiftl code 8) 127 = 0) as ->.
  { change 127 with (Z.ones 7). rewrite Z.land_ones, Z.shiftl_mul_pow2 by lia.
    change (2 ^ 8) with (2 * 2 ^ 7). rewrite Z.mul_assoc. apply Z.mod_mul. done. }
  rewrite Z.shiftr_shiftl_l by lia. simpl Z.sub. rewrite Z.shiftl_0_r.
  change 255 with (Z.ones 8). rewrite Z.land_ones by lia. rewrite Z.mod_small; [done|].
  simpl. lia.
Qed.

Lemma ExitStatus_code_signalled sig core :
  0 < sig < 127 -> core = 0 \/ core = 128 -> ExitStatus_code (sig + core) = None.
Proof.
  intros Hs Hc. unfold ExitStatus_code. change 127 with (Z.ones 7).
  rewrite Z.land_ones by lia.
  assert ((sig + core) mod 2 ^ 7 = sig) as ->; [|by destruct (Z.eqb_spec sig 0); [lia|]].
  destruct Hc as [-> | ->]; change (2 ^ 7) with 128.
  - rewrite Z.add_0_r. apply Z.mod_small. lia.
  - replace (sig + 128) with (sig + 1 * 128) by lia. rewrite Z.mod_add by lia. apply Z.mod_small. lia.
Qed.

(** C35: The codes [wait] returns, whatever the child and whatever its pipes, and
    whatever the trace: it waits for the child once it has started to drain,
    and the answer of that wait is what it reports: the exit code of a process
    that exited, -1 for one that a signal killed (core dumped or not), nothing
    outside -1 and 0 to 255 ever, and an error only for a failed wait. *)
Theorem reported_codes handle sinks tr r :
  exec (wait handle sinks) tr (Some (Val r)) ->
  exists tr1 wait_res tr2, tr = tr1 ++ Obs (ChildWait (child_id (child handle))) wait_res :: tr2 /\
    (forall code, 0 <= code <= 255 -> wait_res = Ok (Z.shiftl code 8) -> r = Ok code) /\
    (forall sig core, 0 < sig < 127 -> core = 0 \/ core = 128 ->
       wait_res = Ok (sig + core) -> r = Ok (-1)) /\
    (forall code, r = Ok code -> code = -1 \/ 0 <= code <= 255) /\
    (forall e, r = Err e <-> exists io, wait_res = Err io /\ e = AerError.WaitFailed io).
Proof.
  intros (tr1 & wait_res & kill_res & tr2 & -> & ->)%wait_kills.
  eexists tr1, wait_res, _. split; [done|]. split_and!.
  - intros code Hc ->. simpl. by rewrite ExitStatus_code_exited.
  - intros sig core Hs Hc ->. simpl. by rewrite ExitStatus_code_signalled.
  - apply reported_range.
  - intros e. destruct wait_res as [status|io]; simpl; split.
    + done.
    + by intros (? & ? & _).
    + intros [= <-]. by exists io.
    + by intros (? & [= ->] & ->).
Qed.
