(* ===== verification/Windows.v ===== *)
(** * The Windows backend (src/src/os/windows.rs)

    [WindowsProcess] is the instance of [OsProcess] for Windows: a job object
    per task, into which the child is put right after its creation and which
    is terminated as a whole. A [KillHandle] is a clone of the [Arc] around the
    job's handle; the clones are dropped where their scopes end, and the last
    one closes the handle. *)

From Stdlib Require Import ZArith Lia.
From stdpp Require Import base numbers list strings gmap.
From S2P Require Import Prelude Core Sys Prog Os.

Open Scope Z_scope.

Definition JOB_OBJECT_LIMIT_KILL_ON_JOB_CLOSE : Z := 8192.

(** [ExitStatus::code]: a Windows process always has one. *)
Definition ExitStatus_code (status : ExitStatus) : option Z := Some (as_i32 status).

(** The [job] field; on Windows it is the only one [KillHandle] has. *)
Definition job (k : KillHandle) : HANDLE :=
  match k with
  | WindowsKill _ job => job
  | UnixKill pgid => pgid
  end.

(** ** The child's environment *)

Section Environment.
(** The system's upper case, by which std compares the names of variables on
    Windows ([CompareStringOrdinal], ignoring case). *)
Variable upcase : string -> string.

(** std's [BTreeMap<EnvKey, OsString>]: for each variable, its name as it was
    first written, and its value. *)
#[local] Abbreviation EnvMap := (gmap string (string * string)).

Definition env_insert (m : EnvMap) '(name, value) : EnvMap :=
  <[upcase name := (match m !! upcase name with Some (first, _) => first | None => name end, value)]> m.

Definition env_inserted (vars : list (string * string)) : EnvMap := fold_left env_insert vars ∅.

(** [CommandEnv::capture]: the parent's variables, and those of the command
    inserted into them. *)
Definition win_child_env (c : Command) (parent : list (string * string)) : EnvMap :=
  union_with (fun old new => Some (old.1, new.2))
    (if cmd_clear c then ∅ else env_inserted parent) (env_inserted (cmd_vars c)).

(** What a process finds under a name. *)
Definition env_var (m : EnvMap) (name : string) : option string := snd <$> m !! upcase name.
End Environment.

(** ** spawn *)

Definition command (program : string) (args : list string) (options : SpawnOptions) : Command :=
  let command := Command_new program in
  let command := with_stdio StdioNull StdioPiped StdioPiped (with_cmd_args args command) in
  configure options command.

Definition spawn (program : string) (args : list string) (options : SpawnOptions) :
    prog (Result OsHandle AerError.t) :=
  let! raw_job := do_act CreateJobObjectW in
  if rc raw_job =? 0 then Ret (Err (AerError.SpawnFailed (OsError (errno raw_job))))
  else
    let job := rc raw_job in
    let! arc := do_act (NewArc job) in
    let kill := WindowsKill arc job in
    let! r := do_act (SetInformationJobObject job JOB_OBJECT_LIMIT_KILL_ON_JOB_CLOSE) in
    if rc r =? 0 then
      kill_drop kill ;;;
      Ret (Err (AerError.SpawnFailed (OsError (errno r))))
    else
      let! spawned := do_act (CommandSpawn (command program args options)) in
      match spawned with
      | Err e =>
          kill_drop kill ;;;
          Ret (Err (AerError.SpawnFailed e))
      | Ok child =>
          let! r := do_act (AssignProcessToJobObject job (child_id child)) in
          if rc r =? 0 then
            let err := OsError (errno r) in
            do_act (ChildKill (child_id child)) ;;;
            do_act (ChildWait (child_id child)) ;;;
            kill_drop kill ;;;
            Ret (Err (AerError.SpawnFailed err))
          else
            let pid := child_id child in
            Ret (Ok (mkOsHandle pid child kill))
      end.

(** ** wait *)

Definition wait (handle : OsHandle) (sinks : OutputSinks) :
    prog (outcome (Result Z AerError.t)) :=
  let child := child handle in
  let kill := kill handle in
  let! stdout_drain := drain_pipe (child_stdout child) (sink_stdout sinks) ChunkMsg.Stdout in
  match stdout_drain with
  | Panic p => kill_drop kill ;;; drop_sink (sink_stderr sinks) ;;; Ret (Panic p)
  | Val stdout_drain =>
      let! stderr_drain := drain_pipe (child_stderr child) (sink_stderr sinks) ChunkMsg.Stderr in
      match stderr_drain with
      | Panic p => kill_drop kill ;;; Ret (Panic p)
      | Val stderr_drain =>
          let! wait_res := do_act (ChildWait (child_id child)) in
          match map_err AerError.WaitFailed wait_res with
          | Err e =>
              kill_drop kill ;;;
              Ret (Val (Err e))
          | Ok status =>
              do_act (TerminateJobObject (job kill) 1) ;;;
              kill_drop kill ;;;
              join_drain stdout_drain ;;;
              join_drain stderr_drain ;;;
              Ret (Val (Ok (default (-1) (ExitStatus_code status))))
          end
      end
  end.

(** ** Killing *)

Definition kill_escalating (k : KillHandle) (_grace : Z) : prog (Result unit AerError.t) :=
  let! r := do_act (TerminateJobObject (job k) 1) in
  let result :=
    if rc r =? 0 then Err (AerError.KillFailed (OsError (errno r))) else Ok tt in
  kill_drop k ;;;
  Ret result.

Definition tree_alive (k : KillHandle) : prog bool :=
  let! (ok, active_processes) := do_act (QueryActiveProcesses (job k)) in
  if rc ok =? 0 then Ret true else Ret (0 <? active_processes).

Definition reap_abandoned (_k : KillHandle) : prog unit := Ret tt.

#[export] Instance WindowsProcess : OsProcess := {
  os_spawn := spawn;
  os_wait := wait;
  os_kill_escalating := kill_escalating;
  os_tree_alive := tree_alive;
  os_reap_abandoned := reap_abandoned
}.

(** ** Lemmas on the environment *)

Section EnvironmentLemmas.
Variable upcase : string -> string.

(** The variables under their names in upper case. *)
Definition folded (vars : list (string * string)) : list (string * string) :=
  prod_map upcase id <$> vars.

Lemma env_inserted_values vars m :
  snd <$> fold_left (env_insert upcase) vars m =
  list_to_map (reverse (folded vars)) ∪ (snd <$> m) :> gmap string string.
Proof.
  revert m. induction vars as [|[name value] vars IH]; intros m; simpl; [by rewrite map_empty_union|].
  rewrite IH. simpl. rewrite reverse_cons, list_to_map_app. simpl.
  rewrite <- map_union_assoc. f_equal. unfold env_insert. rewrite fmap_insert. simpl.
  by rewrite insert_empty, <- insert_union_singleton_l.
Qed.

Lemma env_var_child c parent name :
  env_var upcase (win_child_env upcase c parent) name =
  match (list_to_map (reverse (folded (cmd_vars c))) : gmap string string) !! upcase name with
  | Some value => Some value
  | None => if cmd_clear c then None else env_var upcase (env_inserted upcase parent) name
  end.
Proof.
  assert (snd <$> env_inserted upcase (cmd_vars c) =
    list_to_map (reverse (folded (cmd_vars c))) :> gmap string string) as <-.
  { unfold env_inserted. rewrite env_inserted_values.
    by rewrite fmap_empty, map_union_empty. }
  unfold env_var, win_child_env. rewrite lookup_fmap, lookup_union_with.
  destruct (cmd_clear c); [rewrite lookup_empty|];
    destruct (env_inserted upcase (cmd_vars c) !! upcase name); try done;
    by destruct (env_inserted upcase parent !! upcase name).
Qed.

(** A name that no other spelling of it competes with. *)
Lemma folded_lookup vars name :
  (forall n, n ∈ vars.*1 -> upcase n = upcase name -> n = name) ->
  (list_to_map (folded vars) : gmap string string) !! upcase name =
  (list_to_map vars : gmap string string) !! name.
Proof.
  induction vars as [|[n v] vars IH]; intros Hn; [done|]. simpl.
  destruct (decide (n = name)) as [->|Hne]; [by rewrite !lookup_insert_eq|].
  rewrite !lookup_insert_ne; [|done|].
  - apply IH. intros n' Hn'. apply Hn. by right.
  - intros E. apply Hne, Hn; [by left|done].
Qed.
End EnvironmentLemmas.

(** ** The instance's laws *)

Lemma win_wait_err handle sinks tr e :
  exec (wait handle sinks) tr (Some (Val (Err e))) -> exists io, e = AerError.WaitFailed io.
Proof.
  intros (o1 & tr1 & tr2 & -> & _ & H)%exec_bind_Some.
  destruct o1; [|by do 2 apply exec_bind_Some in H as (? & ? & ? & -> & _ & H); exec_inv_step H].
  apply exec_bind_Some in H as (o2 & tr3 & tr4 & -> & _ & H).
  destruct o2; [|by apply exec_bind_Some in H as (? & ? & ? & -> & _ & H); exec_inv_step H].
  exec_inv_step H. destruct x as [status|io]; simpl in H.
  - exec_inv_step H. do 3 apply exec_bind_Some in H as (? & ? & ? & -> & _ & H). exec_inv_step H.
  - apply exec_bind_Some in H as (? & ? & ? & -> & _ & H). exec_inv_step H. by exists io.
Qed.

(** What a [spawn] has done before it gives up or succeeds. *)
Lemma win_spawn_inv program args options tr r :
  exec (spawn program args options) tr (Some r) ->
  (exists err, tr = [Obs CreateJobObjectW (mkRet 0 err)] /\ r = Err (AerError.SpawnFailed (OsError err))) \/
  exists job err0 arc r1 tr',
    job <> 0 /\
    tr = Obs CreateJobObjectW (mkRet job err0) :: Obs (NewArc job) arc ::
         Obs (SetInformationJobObject job JOB_OBJECT_LIMIT_KILL_ON_JOB_CLOSE) r1 :: tr' /\
    exec (if rc r1 =? 0 then
            kill_drop (WindowsKill arc job) ;;;
            Ret (Err (AerError.SpawnFailed (OsError (errno r1))))
          else
            let! spawned := do_act (CommandSpawn (command program args options)) in
            match spawned with
            | Err e => kill_drop (WindowsKill arc job) ;;; Ret (Err (AerError.SpawnFailed e))
            | Ok child =>
                let! r := do_act (AssignProcessToJobObject job (child_id child)) in
                if rc r =? 0 then
                  do_act (ChildKill (child_id child)) ;;;
                  do_act (ChildWait (child_id child)) ;;;
                  kill_drop (WindowsKill arc job) ;;;
                  Ret (Err (AerError.SpawnFailed (OsError (errno r))))
                else Ret (Ok (mkOsHandle (child_id child) child (WindowsKill arc job)))
            end) tr' (Some r).
Proof.
  intros ([job err0] & tr1 & -> & Hex)%exec_act_Some. simpl in Hex.
  destruct (Z.eqb_spec job 0) as [->|Hj].
  - left. exec_inv_step Hex. by exists err0.
  - right. apply exec_act_Some in Hex as (arc & tr2 & -> & Hex).
    apply exec_act_Some in Hex as (r1 & tr3 & -> & Hex). by exists job, err0, arc, r1, tr3.
Qed.

#[export] Instance WindowsLaws : OsProcessLaws WindowsProcess.
Proof.
  split; simpl.
  1-5: unfold spawn, wait, kill_escalating, tree_alive, reap_abandoned;
    all_obs_solve ltac:(done).
  - intros program args options tr e
      [(err & _ & [= ->])|(job & err0 & arc & r1 & tr' & _ & _ & Hex)]%win_spawn_inv; [by eexists|].
    destruct (rc r1 =? 0); [apply exec_seq_ret in Hex; simplify_eq; by eexists|].
    apply exec_act_Some in Hex as ([child|io] & tr2 & -> & Hex);
      [|apply exec_seq_ret in Hex; simplify_eq; by eexists].
    apply exec_act_Some in Hex as (r & tr3 & -> & Hex). destruct (rc r =? 0).
    + do 2 apply exec_act_Some in Hex as (? & ? & -> & Hex).
      apply exec_seq_ret in Hex. simplify_eq. by eexists.
    + by apply exec_ret_Some in Hex as [_ ?].
  - apply win_wait_err.
Qed.

(** ** Properties *)

(** The complete runs of a [spawn] that fails; [last] is what the drop of its
    clone of the job answers. *)
Inductive spawn_failure (cmd : Command) (last : bool) : list obs -> io_Error -> Prop :=
  | fail_job err :
      spawn_failure cmd last [Obs CreateJobObjectW (mkRet 0 err)] (OsError err)
  | fail_limits job err0 arc err :
      job <> 0 ->
      spawn_failure cmd last
        ([Obs CreateJobObjectW (mkRet job err0);
          Obs (NewArc job) arc;
          Obs (SetInformationJobObject job JOB_OBJECT_LIMIT_KILL_ON_JOB_CLOSE) (mkRet 0 err)] ++
         drop_trace (WindowsKill arc job) last) (OsError err)
  | fail_process job err0 arc r e :
      job <> 0 -> rc r <> 0 ->
      spawn_failure cmd last
        ([Obs CreateJobObjectW (mkRet job err0);
          Obs (NewArc job) arc;
          Obs (SetInformationJobObject job JOB_OBJECT_LIMIT_KILL_ON_JOB_CLOSE) r;
          Obs (CommandSpawn cmd) (Err e)] ++
         drop_trace (WindowsKill arc job) last) e
  | fail_assign job err0 arc r child err killed waited :
      job <> 0 -> rc r <> 0 ->
      spawn_failure cmd last
        ([Obs CreateJobObjectW (mkRet job err0);
          Obs (NewArc job) arc;
          Obs (SetInformationJobObject job JOB_OBJECT_LIMIT_KILL_ON_JOB_CLOSE) r;
          Obs (CommandSpawn cmd) (Ok child);
          Obs (AssignProcessToJobObject job (child_id child)) (mkRet 0 err);
          Obs (ChildKill (child_id child)) killed;
          Obs (ChildWait (child_id child)) waited] ++
         drop_trace (WindowsKill arc job) last) (OsError err).

(** A [spawn] that fails drops its clone of the job, and a child that was
    created but could not be put into the job is killed and waited for first;
    the error is that of the call that failed. *)
Lemma spawn_failure_exec program args options tr e :
  exec (spawn program args options) tr (Some (Err (AerError.SpawnFailed e))) <->
  exists last, spawn_failure (command program args options) last tr e.
Proof.
  split.
  - intros [(err & -> & [= ->])|(job & err0 & arc & r1 & tr' & Hj & -> & Hex)]%win_spawn_inv;
      [exists true; constructor|].
    destruct (Z.eqb_spec (rc r1) 0) as [Hr|Hr].
    + apply exec_bind_Some in Hex as ([] & tr2 & tr3 & -> & [last ->]%kill_drop_exec & Hex).
      exec_inv_step Hex. rewrite app_nil_r. destruct r1 as [r1 err]. simpl in Hr. subst.
      exists last. by apply fail_limits.
    + apply exec_act_Some in Hex as ([child|io] & tr2 & -> & Hex).
      * apply exec_act_Some in Hex as ([r err] & tr3 & -> & Hex). simpl in Hex.
        destruct (Z.eqb_spec r 0) as [->|Hr']; [|by apply exec_ret_Some in Hex as [_ ?]].
        apply exec_act_Some in Hex as (killed & tr4 & -> & Hex).
        apply exec_act_Some in Hex as (waited & tr5 & -> & Hex).
        apply exec_bind_Some in Hex as ([] & tr6 & tr7 & -> & [last ->]%kill_drop_exec & Hex).
        exec_inv_step Hex. rewrite app_nil_r. exists last. by apply fail_assign.
      * apply exec_bind_Some in Hex as ([] & tr3 & tr4 & -> & [last ->]%kill_drop_exec & Hex).
        exec_inv_step Hex. rewrite app_nil_r. exists last. by apply fail_process.
  - intros [last Hf].
    assert (forall j, j <> 0 -> (j =? 0) = false) as Hne by (intros; by apply Z.eqb_neq).
    unfold spawn. destruct Hf; repeat lazymatch goal with
      | |- exec (bind (kill_drop _) _) _ _ => apply (exec_snoc_ret _ tt), kill_drop_exec;
          match goal with b : bool |- _ => by exists b end
      | |- exec (bind (do_act _) _) _ _ =>
          apply exec_act_Some; eexists _, _; split; [reflexivity|];
          cbn -[bind]; rewrite ?Hne by done; cbv iota
      | |- exec (Ret _) _ _ => by apply exec_ret_Some
      end.
Qed.

(** A [spawn] that succeeds has put the child into a job with the
    kill-on-close limit, and its kill handle is the one clone of that job. *)
Theorem win_spawn_success program args options tr handle :
  exec (spawn program args options) tr (Some (Ok handle)) <->
  exists job err0 arc r child r',
    job <> 0 /\ rc r <> 0 /\ rc r' <> 0 /\
    tr = [Obs CreateJobObjectW (mkRet job err0);
          Obs (NewArc job) arc;
          Obs (SetInformationJobObject job JOB_OBJECT_LIMIT_KILL_ON_JOB_CLOSE) r;
          Obs (CommandSpawn (command program args options)) (Ok child);
          Obs (AssignProcessToJobObject job (child_id child)) r'] /\
    handle = mkOsHandle (child_id child) child (WindowsKill arc job).
Proof.
  split.
  - intros [(err & _ & ?)|(job & err0 & arc & r1 & tr' & Hj & -> & Hex)]%win_spawn_inv; [done|].
    destruct (Z.eqb_spec (rc r1) 0) as [Hr|Hr]; [by apply exec_seq_ret in Hex|].
    apply exec_act_Some in Hex as ([child|io] & tr2 & -> & Hex); [|by apply exec_seq_ret in Hex].
    apply exec_act_Some in Hex as (r & tr3 & -> & Hex). destruct (Z.eqb_spec (rc r) 0).
    + do 2 apply exec_act_Some in Hex as (? & ? & -> & Hex). by apply exec_seq_ret in Hex.
    + exec_inv_step Hex. by eexists job, err0, arc, r1, child, r.
  - intros (j & err0 & arc & r & child & r' & Hj & Hr & Hr' & -> & ->).
    apply Z.eqb_neq in Hj, Hr, Hr'. unfold spawn.
    apply exec_act_Some; eexists _, _; split; [done|]; simpl; rewrite Hj.
    apply exec_act_Some; eexists _, _; split; [done|]; simpl.
    apply exec_act_Some; eexists _, _; split; [done|]; simpl; rewrite Hr.
    apply exec_act_Some; eexists _, _; split; [done|]; simpl.
    apply exec_act_Some; eexists _, _; split; [done|]; simpl; rewrite Hr'.
    by apply exec_ret_Some.
Qed.

(** C34: The contract of [wait] on a child with both pipes: both drain threads run
    before the root is waited for; on its exit the whole job is terminated
    and this clone of it dropped before the drain threads are joined, and a
    failed wait returns at once, leaving the tree to its caller's guard. *)
Theorem win_wait_spec id pid out err k sinks tr r :
  let handle := mkOsHandle pid (mkChild id (Some out) (Some err)) k in
  exec (wait handle sinks) tr (Some (Val r)) <->
  exists t1 t2 wait_res rest last,
    tr = ObsFork (drain_body out (sink_stdout sinks) ChunkMsg.Stdout) (Some t1) ::
         ObsFork (drain_body err (sink_stderr sinks) ChunkMsg.Stderr) (Some t2) ::
         Obs (ChildWait id) wait_res :: rest /\
    match wait_res with
    | Err e => rest = drop_trace k last /\ r = Err (AerError.WaitFailed e)
    | Ok status => exists kill_res,
        rest = Obs (TerminateJobObject (job k) 1) kill_res ::
               drop_trace k last ++ [Obs (Join t1) tt; Obs (Join t2) tt] /\
        r = Ok (as_i32 status)
    end.
Proof.
  intros handle. unfold wait. split.
  - intros (o1 & tr1 & tr2 & -> & H1 & H)%exec_bind_Some.
    destruct o1 as [t1|]; [|by do 2 apply exec_bind_Some in H as (? & ? & ? & -> & _ & H); exec_inv_step H].
    apply drain_pipe_exec in H1 as (t1' & -> & ->).
    apply exec_bind_Some in H as (o2 & tr3 & tr4 & -> & H2 & H).
    destruct o2 as [t2|]; [|by apply exec_bind_Some in H as (? & ? & ? & -> & _ & H); exec_inv_step H].
    apply drain_pipe_exec in H2 as (t2' & -> & ->). simpl in H.
    apply exec_act_Some in H as (wait_res & tr5 & -> & H). exists t1', t2', wait_res.
    destruct wait_res as [status|e]; simpl in H.
    + apply exec_act_Some in H as (kill_res & tr6 & -> & H).
      apply exec_bind_Some in H as ([] & tr7 & tr8 & -> & [last ->]%kill_drop_exec & H).
      eexists _, last. split; [done|]. exists kill_res. repeat exec_inv_step H.
      by repeat match goal with u : unit |- _ => destruct u end.
    + apply exec_bind_Some in H as ([] & tr7 & tr8 & -> & [last ->]%kill_drop_exec & H).
      repeat exec_inv_step H. eexists _, last. split; [done|]. by rewrite app_nil_r.
  - intros (t1 & t2 & wait_res & rest & last & -> & Hrest).
    apply (exec_bind _ _ (Val (Some t1)) [ObsFork _ (Some t1)]); [by apply drain_pipe_exec; eauto|].
    apply (exec_bind _ _ (Val (Some t2)) [ObsFork _ (Some t2)]); [by apply drain_pipe_exec; eauto|].
    simpl. apply exec_act_Some; eexists _, _; split; [done|].
    assert (exec (kill_drop k) (drop_trace k last) (Some tt)) as Hdrop by (apply kill_drop_exec; by eexists).
    destruct wait_res as [status|e]; simpl.
    + destruct Hrest as (kill_res & -> & ->).
      apply exec_act_Some; eexists _, _; split; [done|]. apply (exec_bind _ _ tt); [done|].
      do 2 (apply exec_act_Some; eexists _, _; split; [done|]). by apply exec_ret_Some.
    + destruct Hrest as [-> ->]. by apply (exec_snoc_ret _ tt).
Qed.

(** [kill_escalating] is one [TerminateJobObject], whatever the grace, and the
    drop of its argument; the probe answers dead only when the query worked
    and found no process. *)
Theorem win_kill_and_probe k grace tr :
  (forall r, exec (kill_escalating k grace) tr (Some r) <->
     exists ret last, tr = Obs (TerminateJobObject (job k) 1) ret :: drop_trace k last /\
       r = if rc ret =? 0 then Err (AerError.KillFailed (OsError (errno ret))) else Ok tt) /\
  (exec (tree_alive k) tr (Some false) <->
     exists ret n, rc ret <> 0 /\ n <= 0 /\ tr = [Obs (QueryActiveProcesses (job k)) (ret, n)]).
Proof.
  split; [intros r|]; split.
  - intros (ret & tr1 & -> & Hex)%exec_act_Some.
    apply exec_bind_Some in Hex as ([] & tr2 & tr3 & -> & [last ->]%kill_drop_exec & Hex).
    exec_inv_step Hex. exists ret, last. by rewrite app_nil_r.
  - intros (ret & last & -> & ->). apply exec_act_Some. eexists _, _. split; [done|].
    apply (exec_snoc_ret _ tt), kill_drop_exec. by eexists.
  - intros Hex. unfold tree_alive in Hex. exec_inv_step Hex. destruct x as [ret n].
    destruct (Z.eqb_spec (rc ret) 0); apply exec_ret_Some in Hex as [-> Hn]; [done|].
    exists ret, n. split; [done|]. split; [|done]. symmetry in Hn. by apply Z.ltb_ge in Hn.
  - intros (ret & n & Hr & Hn & ->). apply exec_act_Some. eexists _, _. split; [done|].
    apply Z.eqb_neq in Hr. simpl. rewrite Hr. apply exec_ret_Some. split; [done|].
    symmetry. by apply Z.ltb_ge.
Qed.
