(* ===== verification/Drains.v ===== *)
(** * What the capture path relies on in a platform

    [OsDrains] is the interface between the capture path of task.rs and a
    backend (os/unix.rs, os/windows.rs), finer than [OsProcessLaws]: only
    [wait] touches the child's pipes, and it does so by starting one drain
    thread per pipe, stdout first, each with the sink of its stream; when it
    returns an exit code, both run and have been joined. Both backends keep
    it. *)

From Stdlib Require Import ZArith.
From stdpp Require Import base numbers list strings gmap.
From S2P Require Import Prelude Core Sys Prog Os Unix Windows.

(** ** Steps *)

(** A call to the system, or a step on the [Arc] of a kill handle: what
    involves neither the caller, nor the flags, mutexes and channels of the
    program, nor the child's pipes. *)
Definition plain_act {X} (e : act X) : Prop :=
  match e with
  | CommandSpawn _ | ChildWait _ | ChildKill _ => True
  | Killpg _ _ | Kill _ _ | Waitpid _ _ => True
  | CreateJobObjectW | SetInformationJobObject _ _ | AssignProcessToJobObject _ _ => True
  | TerminateJobObject _ _ | QueryActiveProcesses _ | CloseHandle _ => True
  | NewArc _ | ArcClone _ | ArcDrop _ => True
  | InstantNow | Sleep _ => True
  | _ => False
  end.

Definition plain_obs (o : obs) : Prop :=
  match o with
  | Obs e _ => plain_act e
  | ObsFork _ _ => False
  end.

(** Such a call, or the drop of a sink. *)
Definition dropping_obs (o : obs) : Prop :=
  match o with
  | Obs e _ =>
      match e with
      | @DropTx ty _ => ty = TyChunk
      | e => plain_act e
      end
  | ObsFork _ _ => False
  end.

(** Such a call, or the end of one of two threads. *)
Definition joining_obs (t1 t2 : tid) (o : obs) : Prop :=
  match o with
  | Obs e _ =>
      match e with
      | Join t => t = t1 \/ t = t2
      | e => plain_act e
      end
  | ObsFork _ _ => False
  end.

(** Dropping a sink, and that after plain steps. *)
Definition sink_drops (tx : option (chan TyChunk)) : list obs :=
  match tx with
  | Some tx => [Obs (DropTx tx) tt]
  | None => []
  end.

Definition after_plain (l tr : list obs) : Prop :=
  exists pre, tr = pre ++ l /\ Forall plain_obs pre.

(** ** The runs of [wait] *)

(** How far [wait] has come, on a child with both pipes: a drain thread that
    the system refuses ends it with a panic. *)
Inductive wait_shape (out err : Pipe) (sinks : OutputSinks) :
    list obs -> option (outcome (Result Z AerError.t)) -> Prop :=
  | wait_not_started :
      wait_shape out err sinks [] None
  | wait_out_refused tr r :
      Forall dropping_obs tr -> (forall v, r <> Some (Val v)) ->
      (forall x, r = Some x -> exists tr', tr = sink_drops (sink_stdout sinks) ++ tr' /\
         after_plain (sink_drops (sink_stderr sinks)) tr') ->
      wait_shape out err sinks
        (ObsFork (drain_body out (sink_stdout sinks) ChunkMsg.Stdout) None :: tr) r
  | wait_out_started t1 :
      wait_shape out err sinks
        [ObsFork (drain_body out (sink_stdout sinks) ChunkMsg.Stdout) (Some t1)] None
  | wait_err_refused t1 tr r :
      Forall dropping_obs tr -> (forall v, r <> Some (Val v)) ->
      (forall x, r = Some x -> exists tr', tr = sink_drops (sink_stderr sinks) ++ tr' /\
         after_plain [] tr') ->
      wait_shape out err sinks
        (ObsFork (drain_body out (sink_stdout sinks) ChunkMsg.Stdout) (Some t1) ::
         ObsFork (drain_body err (sink_stderr sinks) ChunkMsg.Stderr) None :: tr) r
  | wait_both t1 t2 tr r :
      Forall (joining_obs t1 t2) tr -> (forall p, r <> Some (Panic p)) ->
      (forall code, r = Some (Val (Ok code)) ->
         Obs (Join t1) tt ∈ tr /\ Obs (Join t2) tt ∈ tr) ->
      wait_shape out err sinks
        (ObsFork (drain_body out (sink_stdout sinks) ChunkMsg.Stdout) (Some t1) ::
         ObsFork (drain_body err (sink_stderr sinks) ChunkMsg.Stderr) (Some t2) :: tr) r.

Class OsDrains (P : OsProcess) : Prop := {
  plain_spawn program args options : all_obs plain_obs (os_spawn program args options);
  plain_kill kill grace : all_obs plain_obs (os_kill_escalating kill grace);
  plain_alive kill : all_obs plain_obs (os_tree_alive kill);
  plain_reap kill : all_obs plain_obs (os_reap_abandoned kill);
  spawn_child program args options tr handle :
    exec (os_spawn program args options) tr (Some (Ok handle)) ->
    exists c, Obs (CommandSpawn c) (Ok (child handle)) ∈ tr /\
      cmd_stdout c = StdioPiped /\ cmd_stderr c = StdioPiped;
  spawn_pid program args options tr handle :
    exec (os_spawn program args options) tr (Some (Ok handle)) -> pid handle = child_id (child handle);
  wait_code handle sinks tr code :
    exec (os_wait handle sinks) tr (Some (Val (Ok code))) -> is_i32 code;
  wait_drains handle sinks out err tr r :
    child_stdout (child handle) = Some out -> child_stderr (child handle) = Some err ->
    exec (os_wait handle sinks) tr r -> wait_shape out err sinks tr r
}.

(** ** Lemmas *)

(** One pipe's drain thread, started or refused. *)
Lemma drain_pipe_inv reader tx make_msg tr (r : option (outcome (option tid))) :
  exec (drain_pipe (Some reader) tx make_msg) tr r ->
  (tr = [] /\ r = None) \/
  (exists t, tr = [ObsFork (drain_body reader tx make_msg) (Some t)] /\
     (r = None \/ r = Some (Val (Some t)))) \/
  (exists tr', tr = ObsFork (drain_body reader tx make_msg) None :: tr' /\
     Forall dropping_obs tr' /\ (forall v, r <> Some (Val v)) /\
     (forall x, r = Some x -> tr' = sink_drops tx)).
Proof.
  unfold drain_pipe, spawn_drain_thread, thread_spawn.
  assert (forall t tr (r : option (outcome tid)), exec (match t with
      | Some t => Ret (Val t)
      | None => drop_sink tx;;; Ret (Panic spawn_panic)
      end) tr r ->
    match t with
    | Some t => tr = [] /\ (r = None \/ r = Some (Val t))
    | None => Forall dropping_obs tr /\ (forall v, r <> Some (Val v)) /\
        (forall x, r = Some x -> tr = sink_drops tx)
    end) as Ht.
  { clear tr r. intros [t|] tr r Hex; [exact Hex|]. split_and!.
    - assert (all_obs dropping_obs (drop_sink tx;;; Ret (Panic (A := tid) spawn_panic))) as Hd
        by (unfold drop_sink; all_obs_solve ltac:(done)).
      exact (Hd _ _ Hex).
    - intros v ->. by apply exec_seq_ret in Hex.
    - intros x ->. unfold drop_sink in Hex. destruct tx as [tx|]; repeat exec_inv_step Hex; [|done].
      by destruct x0. }
  intros [[-> Hex]|(o & tr1 & tr2 & -> & Hex & Ho)]%exec_bind_inv.
  - destruct Hex as [[-> _]|(t & tr' & -> & Hex)]; [by left|]. right.
    apply Ht in Hex. destruct t as [t|].
    + left. exists t. destruct Hex as [-> _]. split; [done|by left].
    + right. exists tr'. by destruct Hex as [? _].
  - apply exec_fork_Some in Hex as (t & tr' & -> & Hex). right. apply Ht in Hex.
    destruct t as [t|].
    + destruct Hex as [-> [?|?]]; simplify_eq. destruct Ho as [-> Hr]. left. by exists t.
    + right. exists (tr' ++ tr2). split; [done|]. destruct Hex as (Hd & Hv & Hs).
      destruct o as [v|p]; [by destruct (Hv v)|]. destruct Ho as [-> Hr].
      rewrite app_nil_r. split_and!; [done| |intros x _; by eapply Hs]. intros v ->. by destruct Hr.
Qed.

(** A way out of [wait] by unwinding, whose complete run ends with [l]. *)
Definition spends (l : list obs) (p : prog (outcome (Result Z AerError.t))) : Prop :=
  forall tr r, exec p tr r ->
    Forall dropping_obs tr /\ (forall v, r <> Some (Val v)) /\
    forall x, r = Some x -> after_plain l tr.

(** A [wait] that starts the two drain threads as os/unix.rs and
    os/windows.rs do, and goes on with plain steps. *)
Lemma wait_shape_intro out err sinks
    (rest : option tid -> option tid -> prog (outcome (Result Z AerError.t)))
    (fail1 fail2 : payload -> prog (outcome (Result Z AerError.t))) tr r :
  (forall p, spends (sink_drops (sink_stderr sinks)) (fail1 p)) -> (forall p, spends [] (fail2 p)) ->
  (forall t1 t2 tr r, exec (rest (Some t1) (Some t2)) tr r ->
     Forall (joining_obs t1 t2) tr /\ (forall p, r <> Some (Panic p)) /\
     forall code, r = Some (Val (Ok code)) -> Obs (Join t1) tt ∈ tr /\ Obs (Join t2) tt ∈ tr) ->
  exec (let! t1 := drain_pipe (Some out) (sink_stdout sinks) ChunkMsg.Stdout in
        match t1 with
        | Panic p => fail1 p
        | Val t1 =>
            let! t2 := drain_pipe (Some err) (sink_stderr sinks) ChunkMsg.Stderr in
            match t2 with
            | Panic p => fail2 p
            | Val t2 => rest t1 t2
            end
        end) tr r ->
  wait_shape out err sinks tr r.
Proof.
  intros H1 H2 Hrest.
  intros [[-> Hex]|(o1 & tr1 & tr2 & -> & Hex & Ho)]%exec_bind_inv.
  - apply drain_pipe_inv in Hex as [[-> _]|[(t & -> & _)|(tr' & -> & Hd & _ & _)]]; by constructor.
  - apply drain_pipe_inv in Hex as [[_ ?]|[(t & -> & [?|?])|(tr' & -> & Hd & Hv & Hs)]]; simplify_eq.
    2: { destruct o1 as [v|p]; [by destruct (Hv v)|]. destruct (H1 _ _ _ Ho) as (? & ? & Hl).
         simpl. constructor; [by apply Forall_app|done|]. intros x Hx. exists tr2.
         split; [by rewrite (Hs (Panic p))|by eapply Hl]. }
    destruct (exec_bind_inv _ _ _ _ Ho) as [[-> Hex]|(o2 & tr3 & tr4 & -> & Hex & Ho2)]; clear Ho.
    + apply drain_pipe_inv in Hex as [[-> _]|[(t' & -> & _)|(tr' & -> & Hd & _ & _)]]; by constructor.
    + apply drain_pipe_inv in Hex as [[_ ?]|[(t' & -> & [?|?])|(tr' & -> & Hd & Hv & Hs)]]; simplify_eq.
      * destruct (Hrest _ _ _ _ Ho2) as (? & ? & ?). by constructor.
      * destruct o2 as [v|p]; [by destruct (Hv v)|]. destruct (H2 _ _ _ Ho2) as (? & ? & Hl).
        simpl. constructor; [by apply Forall_app|done|]. intros x Hx. exists tr4.
        split; [by rewrite (Hs (Panic p))|by eapply Hl].
Qed.

Lemma plain_dropping o : plain_obs o -> dropping_obs o.
Proof. destruct o as [X e x|]; [|done]. by destruct e. Qed.

(** What may come before the drop of the last sink. *)
Lemma spends_sink tx (pre : prog unit) (p : payload) :
  all_obs plain_obs pre -> spends (sink_drops tx) (pre ;;; drop_sink tx ;;; Ret (Panic p)).
Proof.
  intros Hpre tr r Hex. split_and!.
  - assert (all_obs dropping_obs (pre ;;; drop_sink tx ;;; Ret (Panic (A := Result Z AerError.t) p))) as Hd.
    { apply all_obs_bind; [eapply all_obs_impl; [apply plain_dropping|done]|].
      intros []. unfold drop_sink. all_obs_solve ltac:(done). }
    exact (Hd _ _ Hex).
  - intros v ->. do 2 apply exec_bind_Some in Hex as (? & ? & ? & _ & _ & Hex).
    by apply exec_ret_Some in Hex as [_ ?].
  - intros x ->. apply exec_bind_Some in Hex as ([] & tr1 & tr2 & -> & H1 & Hex).
    exists tr1. split; [|exact (Hpre _ _ H1)]. f_equal. unfold drop_sink in Hex.
    destruct tx as [tx|]; repeat exec_inv_step Hex; [|done].
    by repeat match goal with u : unit |- _ => destruct u end.
Qed.

Lemma arc_plain o : arc_obs o -> plain_obs o.
Proof. by destruct o as [X []|]. Qed.

Lemma kill_drop_plain k : all_obs plain_obs (kill_drop k).
Proof. eapply all_obs_impl; [apply arc_plain|apply kill_drop_arc]. Qed.

(** ** The two backends *)

Lemma joining_exec {A} t1 t2 (p : prog A) tr r :
  all_obs (joining_obs t1 t2) p -> exec p tr r -> Forall (joining_obs t1 t2) tr.
Proof. intros Hp. exact (Hp tr r). Qed.

Lemma unix_wait_drains handle sinks out err tr r :
  child_stdout (child handle) = Some out -> child_stderr (child handle) = Some err ->
  exec (Unix.wait handle sinks) tr r -> wait_shape out err sinks tr r.
Proof.
  intros Ho He. unfold Unix.wait. cbv zeta. rewrite Ho, He. apply wait_shape_intro.
  - intros p. exact (spends_sink _ (Ret tt) p (all_obs_ret _ _)).
  - intros p. exact (spends_sink None (Ret tt) p (all_obs_ret _ _)).
  - clear tr r. intros t1 t2 tr r Hex. simpl in Hex. split_and!.
    + eapply joining_exec; [|exact Hex]. all_obs_solve ltac:(simpl; auto).
    + intros p ->. by repeat exec_inv_step Hex.
    + intros code ->. repeat exec_inv_step Hex.
      repeat match goal with u : unit |- _ => destruct u end. split; in_list.
Qed.

Lemma windows_wait_drains handle sinks out err tr r :
  child_stdout (child handle) = Some out -> child_stderr (child handle) = Some err ->
  exec (Windows.wait handle sinks) tr r -> wait_shape out err sinks tr r.
Proof.
  intros Ho He. unfold Windows.wait. cbv zeta. rewrite Ho, He. apply wait_shape_intro.
  - intros p. apply spends_sink, kill_drop_plain.
  - intros p. apply (spends_sink None), kill_drop_plain.
  - clear tr r. intros t1 t2 tr r Hex. simpl in Hex. split_and!.
    + eapply joining_exec; [|exact Hex].
      all_obs_solve ltac:(simpl; auto).
    + intros p ->. apply exec_act_Some in Hex as ([status|e] & ? & _ & Hex); simpl in Hex;
        [apply exec_act_Some in Hex as (? & ? & _ & Hex)|];
        apply exec_bind_Some in Hex as (? & ? & ? & _ & _ & Hex); by repeat exec_inv_step Hex.
    + intros code ->. apply exec_act_Some in Hex as ([status|e] & ? & -> & Hex); simpl in Hex.
      * apply exec_act_Some in Hex as (? & ? & -> & Hex).
        apply exec_bind_Some in Hex as (? & ? & ? & -> & _ & Hex). repeat exec_inv_step Hex.
        repeat match goal with u : unit |- _ => destruct u end. split; in_list.
      * apply exec_bind_Some in Hex as (? & ? & ? & _ & _ & Hex). by repeat exec_inv_step Hex.
Qed.

#[export] Instance UnixDrains : OsDrains UnixProcess.
Proof.
  split; simpl.
  1-4: unfold Unix.spawn, Unix.kill_escalating, signal_tree, poll_round, Unix.tree_alive,
    Unix.reap_abandoned; all_obs_solve ltac:(done).
  - intros program args options tr handle Hex. unfold Unix.spawn in Hex. exec_inv_step Hex.
    destruct x as [c|]; exec_inv_step Hex. eexists. split; [by left|].
    unfold Unix.command. simpl.
    pose proof (configure_stdio options (with_stdio StdioNull StdioPiped StdioPiped
      (with_cmd_args args (Command_new program)))) as Hc. simpl in Hc. by injection Hc as _ _ _ -> ->.
  - intros program args options tr handle Hex. unfold Unix.spawn in Hex. exec_inv_step Hex.
    by destruct x as [c|]; exec_inv_step Hex.
  - intros handle sinks tr code Hex. apply wait_kills in Hex as (tr1 & wr & kr & tr2 & _ & Hr).
    symmetry in Hr. apply reported_range in Hr. unfold is_i32. lia.
  - apply unix_wait_drains.
Qed.

#[export] Instance WindowsDrains : OsDrains WindowsProcess.
Proof.
  split; simpl.
  1-4: unfold Windows.spawn, Windows.kill_escalating, Windows.tree_alive,
    Windows.reap_abandoned; all_obs_solve ltac:(done).
  - intros program args options tr handle
      (job & err0 & arc & r & c & r' & _ & _ & _ & -> & ->)%win_spawn_success.
    eexists. split; [in_list|]. unfold Windows.command.
    pose proof (configure_stdio options (with_stdio StdioNull StdioPiped StdioPiped
      (with_cmd_args args (Command_new program)))) as Hc. simpl in Hc. by injection Hc as _ _ _ -> ->.
  - by intros program args options tr handle
      (job & err0 & arc & r & c & r' & _ & _ & _ & _ & ->)%win_spawn_success.
  - intros handle sinks tr code Hex. unfold Windows.wait in Hex.
    apply exec_bind_Some in Hex as (o1 & ? & ? & _ & _ & Hex).
    destruct o1; [|by apply exec_bind_Some in Hex as (? & ? & ? & _ & _ & Hex); apply exec_seq_ret in Hex].
    apply exec_bind_Some in Hex as (o2 & ? & ? & _ & _ & Hex).
    destruct o2; [|by apply exec_bind_Some in Hex as (? & ? & ? & _ & _ & Hex); exec_inv_step Hex].
    apply exec_act_Some in Hex as (ws & ? & _ & Hex). destruct ws as [status|e]; simpl in Hex.
    + apply exec_act_Some in Hex as (? & ? & _ & Hex).
      do 3 apply exec_bind_Some in Hex as (? & ? & ? & _ & _ & Hex).
      apply exec_ret_Some in Hex as [_ [= ->]]. apply as_i32_range.
    + apply exec_bind_Some in Hex as (? & ? & ? & _ & _ & Hex).
      by apply exec_ret_Some in Hex as [_ ?].
  - apply windows_wait_drains.
Qed.
