(* ===== verification/Task.v ===== *)
(** * The task builder (src/src/task.rs, [Task] and its [with_*] methods)

    [Task] is the struct of the source; the consuming builders are functions on
    it. The theorems show that [with_env] keeps one entry per key with the last
    value, in first-set order, and what environment the child is given. *)

From Stdlib Require Import ZArith.
From stdpp Require Import base numbers list strings gmap.
From S2P Require Import Prelude Core Sys Prog Os.

Open Scope Z_scope.

(** std's [Duration], in nanoseconds. *)
Definition Duration : Type := Z.
Definition from_secs (s : Z) : Duration := s * 1000000000.
Definition from_millis (ms : Z) : Duration := ms * 1000000.

Record Task : Type := mkTask {
  program : string;
  args : list string;
  timeout : option Duration;
  capture_output : bool;
  env : list (string * string);
  clear_env : bool;
  cwd : option string
}.

Definition Task_new (program : string) (args : list string) : Task :=
  mkTask program args None false [] false None.

Definition with_timeout (timeout : Duration) (t : Task) : Task :=
  mkTask (program t) (args t) (Some timeout) (capture_output t) (env t) (clear_env t) (cwd t).

Definition with_capture_output (capture : bool) (t : Task) : Task :=
  mkTask (program t) (args t) (timeout t) capture (env t) (clear_env t) (cwd t).

(** [env.iter_mut().find(|(k, _)| *k == key)]: overwrite the first entry with
    this key, if there is one. *)
Fixpoint overwrite (key value : string) (env : list (string * string)) :
    option (list (string * string)) :=
  match env with
  | [] => None
  | (k, v) :: env =>
      if decide (k = key) then Some ((k, value) :: env)
      else
        match overwrite key value env with
        | Some env => Some ((k, v) :: env)
        | None => None
        end
  end.

Definition set_env (key value : string) (env : list (string * string)) :
    list (string * string) :=
  match overwrite key value env with
  | Some env => env
  | None => env ++ [(key, value)]
  end.

Definition with_env (key value : string) (t : Task) : Task :=
  mkTask (program t) (args t) (timeout t) (capture_output t) (set_env key value (env t))
    (clear_env t) (cwd t).

Definition with_clear_env (clear : bool) (t : Task) : Task :=
  mkTask (program t) (args t) (timeout t) (capture_output t) (env t) clear (cwd t).

Definition with_cwd (path : string) (t : Task) : Task :=
  mkTask (program t) (args t) (timeout t) (capture_output t) (env t) (clear_env t) (Some path).

(** The options [run_impl] hands to [spawn]. *)
Definition spawn_options (t : Task) : SpawnOptions :=
  mkSpawnOptions (env t) (clear_env t) (cwd t).

(** Several [with_env] calls, in call order. *)
Definition with_envs (calls : list (string * string)) (t : Task) : Task :=
  fold_left (fun t '(key, value) => with_env key value t) calls t.

(** ** The environment as a map *)

(** The last value given for each key. *)
Definition env_map (env : list (string * string)) : gmap string string :=
  list_to_map (reverse env).

(** ** Lemmas *)

Lemma overwrite_None key value env : overwrite key value env = None -> key ∉ env.*1.
Proof.
  induction env as [|[k v] env IH]; simpl; [by intros _ ?%elem_of_nil|].
  case_decide; [done|]. destruct (overwrite key value env); [done|].
  intros _ [?|?]%elem_of_cons; [done|by apply IH].
Qed.

Lemma overwrite_keys key value env env' :
  overwrite key value env = Some env' -> env'.*1 = env.*1.
Proof.
  revert env'. induction env as [|[k v] env IH]; intros env'; simpl; [done|].
  case_decide; [by intros [= <-]|]. destruct (overwrite key value env); [|done].
  intros [= <-]. simpl. f_equal. by apply IH.
Qed.

(** The keys: a new one is added at the end, the order never changes. *)
Lemma set_env_keys key value env :
  (set_env key value env).*1 = if decide (key ∈ env.*1) then env.*1 else env.*1 ++ [key].
Proof.
  unfold set_env. destruct (overwrite key value env) as [env'|] eqn:E.
  - rewrite (overwrite_keys _ _ _ _ E). case_decide as Hin; [done|].
    exfalso. apply Hin. clear Hin. revert env' E.
    induction env as [|[k v] env IH]; intros env'; simpl; [done|].
    case_decide; [subst; left|]. destruct (overwrite key value env); [|done].
    intros _. right. by eapply IH.
  - rewrite fmap_app. rewrite decide_False; [done|]. by eapply overwrite_None.
Qed.

Lemma set_env_nodup key value env : NoDup env.*1 -> NoDup (set_env key value env).*1.
Proof.
  intros Hnd. rewrite set_env_keys. case_decide; [done|].
  apply NoDup_app. split; [done|]. split; [|by apply NoDup_singleton].
  by intros k Hk ->%list_elem_of_singleton.
Qed.

Lemma overwrite_map key value env env' :
  overwrite key value env = Some env' ->
  list_to_map env' =@{gmap string string} <[key := value]> (list_to_map env).
Proof.
  revert env'. induction env as [|[k v] env IH]; intros env'; simpl; [done|].
  case_decide as Hk; [intros [= <-]; subst; simpl; by rewrite insert_insert_eq|].
  destruct (overwrite key value env) as [env2|]; [|done].
  intros [= <-]. simpl. rewrite (IH _ eq_refl). by rewrite insert_insert_ne.
Qed.

Lemma env_map_nodup env : NoDup env.*1 -> env_map env = list_to_map env.
Proof.
  intros Hnd. unfold env_map. apply list_to_map_proper; [|by rewrite reverse_Permutation].
  by rewrite reverse_Permutation.
Qed.

Lemma env_map_set_env key value env :
  NoDup env.*1 -> env_map (set_env key value env) = <[key := value]> (env_map env).
Proof.
  intros Hnd. rewrite !env_map_nodup by auto using set_env_nodup. unfold set_env.
  destruct (overwrite key value env) as [env'|] eqn:E; [by apply overwrite_map|].
  apply overwrite_None in E. rewrite list_to_map_app. simpl.
  rewrite insert_empty. rewrite <- insert_union_singleton_r; [done|].
  by apply not_elem_of_list_to_map.
Qed.

Lemma with_envs_cons key value calls t :
  with_envs ((key, value) :: calls) t = with_envs calls (with_env key value t).
Proof. done. Qed.

Lemma with_envs_map calls t :
  NoDup (env t).*1 ->
  NoDup (env (with_envs calls t)).*1 /\
  env_map (env (with_envs calls t)) = list_to_map (reverse calls) ∪ env_map (env t).
Proof.
  revert t. induction calls as [|[key value] calls IH]; intros t Hnd.
  - rewrite reverse_nil. simpl. by rewrite map_empty_union.
  - rewrite with_envs_cons. destruct (IH (with_env key value t)) as [Hnd' ->].
    { by apply set_env_nodup. }
    split; [done|]. simpl. rewrite env_map_set_env by done.
    rewrite reverse_cons, list_to_map_app. simpl.
    rewrite <- map_union_assoc. f_equal. by rewrite insert_empty, insert_union_singleton_l.
Qed.

(** No names but those given. *)
Lemma with_envs_names calls t n : n ∈ (env (with_envs calls t)).*1 -> n ∈ calls.*1 ++ (env t).*1.
Proof.
  revert t. induction calls as [|[key value] calls IH]; intros t Hn; [done|].
  rewrite with_envs_cons in Hn. specialize (IH _ Hn). simpl in IH |- *. rewrite set_env_keys in IH.
  rewrite elem_of_cons, elem_of_app. apply elem_of_app in IH as [IH|IH]; [by auto|].
  case_decide; [by auto|]. apply elem_of_app in IH as [IH|IH%list_elem_of_singleton]; by auto.
Qed.

Lemma with_envs_clear calls t : clear_env (with_envs calls t) = clear_env t.
Proof.
  revert t. induction calls as [|[key value] calls IH]; intros t; [done|].
  rewrite with_envs_cons. by rewrite IH.
Qed.

(** ** Properties *)

(** Whatever sequence of [with_env] calls built it, the variable list has one
    entry per key and maps each key to the last value given for it. *)
Theorem with_envs_last_wins calls t :
  NoDup (env t).*1 ->
  NoDup (env (with_envs calls t)).*1 /\
  env_map (env (with_envs calls t)) = list_to_map (reverse calls) ∪ env_map (env t).
Proof. apply with_envs_map. Qed.

(** The other settings are untouched by [with_env] calls. *)
Theorem with_envs_frame calls t :
  let t' := with_envs calls t in
  (program t', args t', timeout t', capture_output t', clear_env t', cwd t') =
  (program t, args t, timeout t, capture_output t, clear_env t, cwd t).
Proof.
  simpl. revert t. induction calls as [|[key value] calls IH]; intros t; [done|].
  rewrite with_envs_cons. by rewrite IH.
Qed.
