(* ===== verification/Config.v ===== *)
(** * What the child process is given (task.rs with os/unix.rs and os/windows.rs)

    From the builder calls to the [Command] both backends spawn. *)

From Stdlib Require Import ZArith.
From stdpp Require Import base numbers list strings gmap.
From S2P Require Import Prelude Core Sys Prog Os Unix Windows Task.

Lemma configure_cwd options cmd :
  cmd_cwd (configure options cmd) =
  match opt_cwd options with Some cwd => Some cwd | None => cmd_cwd cmd end.
Proof.
  assert (forall envs cmd, cmd_cwd (fold_left (fun cmd '(key, value) => cmd_env key value cmd)
    envs cmd) = cmd_cwd cmd) as Henv.
  { induction envs as [|[k v] envs IH]; intros c; [done|]. simpl. by rewrite IH. }
  unfold configure. destruct (opt_cwd options); [done|]. rewrite Henv.
  by destruct (opt_clear_env options).
Qed.

(** ** Properties *)

(** C32: The environment of the child: the variables of the [with_env] calls, the
    last call for a name winning, over those the task had before and, unless it
    was cleared, over the parent's. On Windows, where names that differ only in
    case are the same variable, this holds of every name that the task has
    under one spelling only, and of those it does not have. *)
Theorem child_environment upcase prog argv calls t :
  NoDup (env t).*1 ->
  let t' := with_envs calls t in
  let given := list_to_map (reverse calls) ∪ env_map (env t) : gmap string string in
  (forall parent, child_env (Unix.command prog argv (spawn_options t')) parent =
     given ∪ (if clear_env t then ∅ else parent)) /\
  (forall parent name,
     (forall n, n ∈ calls.*1 ++ (env t).*1 -> upcase n = upcase name -> n = name) ->
     env_var upcase (win_child_env upcase (Windows.command prog argv (spawn_options t')) parent) name =
     match given !! name with
     | Some value => Some value
     | None => if clear_env t then None else env_var upcase (env_inserted upcase parent) name
     end).
Proof.
  intros Hnd t' given.
  assert (list_to_map (reverse (env t')) = given) as Hg.
  { exact (proj2 (with_envs_map calls t Hnd)). }
  assert (clear_env t' = clear_env t) as Hc by apply with_envs_clear. split.
  - intros parent. unfold child_env, set_vars, Unix.command. simpl.
    destruct (configure_vars (spawn_options t') (with_stdio StdioNull StdioPiped StdioPiped
      (with_cmd_args argv (Command_new prog)))) as [-> ->]; [done..|]. simpl. rewrite Hg, Hc.
    destruct (clear_env t); [by rewrite map_union_empty|done].
  - intros parent name Hn. rewrite env_var_child. unfold Windows.command.
    destruct (configure_vars (spawn_options t') (with_stdio StdioNull StdioPiped StdioPiped
      (with_cmd_args argv (Command_new prog)))) as [-> ->]; [done..|]. simpl. rewrite Hc, <- Hg.
    unfold folded. rewrite <- fmap_reverse. fold (folded upcase (reverse (env t'))).
    rewrite folded_lookup; [done|]. intros n Hin. apply Hn, (with_envs_names calls t n).
    by rewrite fmap_reverse, elem_of_reverse in Hin.
Qed.

(** The rest of the command: the program and its arguments as given, no
    standard input, both outputs piped (so that the child never inherits the
    caller's), the directory of [with_cwd], and on Unix [setsid] before the
    program starts, its failure failing the spawn. *)
Theorem child_command t :
  let u := Unix.command (program t) (args t) (spawn_options t) in
  let w := Windows.command (program t) (args t) (spawn_options t) in
  (forall c, c = u \/ c = w ->
     cmd_program c = program t /\ cmd_args c = args t /\ cmd_stdin c = StdioNull /\
     cmd_stdout c = StdioPiped /\ cmd_stderr c = StdioPiped /\ cmd_cwd c = cwd t) /\
  exists hook, cmd_pre_exec u = cmd_pre_exec w ++ [hook] /\
    forall ret err, hook ret err = if (ret <? 0)%Z then Err (OsError err) else Ok tt.
Proof.
  intros u w. split; [|by eexists].
  intros c [-> | ->]; subst u w; unfold Unix.command, Windows.command; simpl;
    [pose proof (configure_stdio (spawn_options t)
       (with_stdio StdioNull StdioPiped StdioPiped (with_cmd_args (args t) (Command_new (program t))))) as H
    |pose proof (configure_stdio (spawn_options t)
       (with_stdio StdioNull StdioPiped StdioPiped (with_cmd_args (args t) (Command_new (program t))))) as H];
    simpl in H; injection H as -> -> -> -> ->; rewrite configure_cwd; simpl; by destruct (cwd t).
Qed.
