(* ===== verification/Run.v ===== *)
(** * Running a task (src/src/task.rs)

    [CancelHandle], [KillOnDropGuard] and [run_impl], over any platform. The
    blocks of [run_impl] are definitions of their own, composed by [run_impl]
    in the order of the source; the drops of channel ends and of the guard
    happen where Rust's scopes end. *)

From Stdlib Require Import ZArith.
From stdpp Require Import base numbers list strings gmap.
From S2P Require Import Prelude Core Machine Sys Prog Os Task.

Open Scope Z_scope.

Definition KILL_GRACE : Duration := from_secs 5.

(** ** The kill-on-drop guard *)

Record KillOnDropGuard : Type := mkGuard { guard_kill : KillHandle; armed : bool }.

Definition Guard_new (kill : KillHandle) : KillOnDropGuard := mkGuard kill true.

Definition disarm (g : KillOnDropGuard) : KillOnDropGuard := mkGuard (guard_kill g) false.

Section Run.
Context `{P : OsProcess}.

(** [drop], and then the guard's field. *)
Definition guard_drop (g : KillOnDropGuard) : prog unit :=
  (if armed g then
     kill_clone (guard_kill g) ;;;
     os_kill_escalating (guard_kill g) 0 ;;;
     os_reap_abandoned (guard_kill g)
   else Ret tt) ;;;
  kill_drop (guard_kill g).

(** ** CancelHandle *)

Definition CancelHandle_new : prog CancelHandle :=
  let! cancelled := do_act (NewFlag false) in
  let! kill_fired := do_act (NewFlag false) in
  let! kill := do_act NewMutex in
  Ret (mkCancelHandle cancelled kill_fired kill).

(** [cancel]: the block under [if let Ok(guard)] runs with the mutex held; a
    poisoned mutex is released at once. *)
Definition cancel (ch : CancelHandle) : prog unit :=
  let! old := do_act (Swap (cancelled ch) true) in
  if negb old then
    let! poisoned := do_act (Lock (kill_slot ch)) in
    (if negb poisoned then
       let! slot := do_act (GetSlot (kill_slot ch)) in
       match slot with
       | Some kill =>
           let! alive := os_tree_alive kill in
           if alive : bool then
             do_act (Store (kill_fired ch) true) ;;;
             kill_clone kill ;;;
             os_kill_escalating kill KILL_GRACE ;;;
             Ret tt
           else Ret tt
       | None => Ret tt
       end
     else Ret tt) ;;;
    do_act (Unlock (kill_slot ch))
  else Ret tt.

Definition is_cancelled (ch : CancelHandle) : prog bool := do_act (Load (cancelled ch)).

(** [*ch.kill.lock().unwrap_or_else(|e| e.into_inner()) = v]; what the slot held
    is dropped where the new value is written, before the lock is released. *)
Definition set_kill (ch : CancelHandle) (v : option KillHandle) : prog unit :=
  do_act (Lock (kill_slot ch)) ;;;
  let! old := do_act (SetSlot (kill_slot ch) v) in
  kill_drop_opt old ;;;
  do_act (Unlock (kill_slot ch)).

(** ** The blocks of [run_impl] *)

(** Wiring the cancel handle, and the kill for a cancel that came first. *)
Definition wire_cancel (ch : option CancelHandle) (kill : KillHandle) : prog unit :=
  match ch with
  | None => Ret tt
  | Some ch =>
      kill_clone kill ;;;
      set_kill ch (Some kill) ;;;
      let! c := do_act (Load (cancelled ch)) in
      let! due :=
        (if c : bool then
           let! f := do_act (Load (kill_fired ch)) in
           if f : bool then Ret false else os_tree_alive kill
         else Ret false) in
      if due : bool then
        do_act (Store (kill_fired ch) true) ;;;
        kill_clone kill ;;;
        os_kill_escalating kill KILL_GRACE ;;;
        Ret tt
      else Ret tt
  end.

(** The timeout monitor thread, which owns a clone of the kill handle. *)
Definition monitor_body (kill : KillHandle) (timed_out : loc) (cancel_ch : chan TyUnit)
    (timeout : Duration) : prog unit :=
  let! r := do_act (RecvWithTimeout cancel_ch timeout) in
  match r with
  | RecvTimedOut =>
      let! alive := os_tree_alive kill in
      if alive : bool then
        do_act (Store timed_out true) ;;;
        os_kill_escalating kill KILL_GRACE ;;;
        do_act (DropRx cancel_ch)
      else do_act (DropRx cancel_ch) ;;; kill_drop kill
  | RecvOk | RecvDisconnected => do_act (DropRx cancel_ch) ;;; kill_drop kill
  end.

Definition start_monitor (timeout : option Duration) (kill : KillHandle) (timed_out : loc)
    (cancel_ch : chan TyUnit) : prog (outcome unit) :=
  match timeout with
  | None => Ret (Val tt)
  | Some timeout =>
      kill_clone kill ;;;
      let! t := thread_spawn (monitor_body kill timed_out cancel_ch timeout)
                  (do_act (DropRx cancel_ch) ;;; kill_drop kill) in
      match t with
      | Val _ => Ret (Val tt)
      | Panic p => Ret (Panic p)
      end
  end.

(** How a block ends: with a value, by [?] (an early [return Err]), or by
    unwinding. *)
Inductive ctl (A : Type) : Type :=
  | Go (a : A)
  | Early (e : AerError.t)
  | Unwind (p : payload).
Arguments Go {A} a.
Arguments Early {A} e.
Arguments Unwind {A} p.

(** The wait thread of the capture path. *)
Definition wait_body (handle : OsHandle) (sinks : OutputSinks) (wait_ch : chan TyWait) :
    prog unit :=
  let! result := os_wait handle sinks in
  match result with
  | Val result => do_act (Send wait_ch result) ;;; do_act (DropTx wait_ch)
  | Panic _ => do_act (DropTx wait_ch)
  end.

Definition chunk_event (m : ChunkMsg.t) : Event.t :=
  match m with
  | ChunkMsg.Stdout seq bytes => Event.StdoutChunk seq bytes
  | ChunkMsg.Stderr seq bytes => Event.StderrChunk seq bytes
  end.

(** [while let Ok(msg) = chunk_rx.recv() { ... }]. *)
Definition pump_round (on_event : Event.t -> prog (outcome unit)) (chunk_ch : chan TyChunk)
    (_ : unit) : prog (unit + outcome unit) :=
  let! m := do_act (Recv chunk_ch) in
  match m with
  | Some m =>
      let! r := on_event (chunk_event m) in
      match r with
      | Val _ => Ret (inl tt)
      | Panic p => Ret (inr (Panic p))
      end
  | None => Ret (inr (Val tt))
  end.

Definition pump (on_event : Event.t -> prog (outcome unit)) (chunk_ch : chan TyChunk) :
    prog (outcome unit) :=
  iter (pump_round on_event chunk_ch) tt.

(** The capture-enabled way to an exit code. *)
Definition wait_capturing (on_event : Event.t -> prog (outcome unit)) (handle : OsHandle) :
    prog (ctl Z) :=
  let! chunk_ch := do_act (NewChan TyChunk) in
  do_act (CloneTx chunk_ch) ;;;
  do_act (CloneTx chunk_ch) ;;;
  let sinks := mkOutputSinks (Some chunk_ch) (Some chunk_ch) in
  do_act (DropTx chunk_ch) ;;;
  let! wait_ch := do_act (NewChan TyWait) in
  let! wait_thread :=
    thread_spawn (wait_body handle sinks wait_ch)
      (kill_drop (kill handle) ;;;
       do_act (DropTx chunk_ch) ;;; do_act (DropTx chunk_ch) ;;; do_act (DropTx wait_ch)) in
  let! code :=
    (match wait_thread with
     | Panic p => Ret (Unwind p)
     | Val wait_thread =>
         let! pumped := pump on_event chunk_ch in
         match pumped with
         | Panic p => Ret (Unwind p)
         | Val _ =>
             let! result := do_act (Recv wait_ch) in
             match result with
             | None =>
                 Ret (Early (AerError.WaitFailed
                               (OtherError "wait thread ended without sending a result")))
             | Some result =>
                 do_act (Join wait_thread) ;;;
                 match result with
                 | Ok code => Ret (Go code)
                 | Err e => Ret (Early e)
                 end
             end
         end
     end) in
  do_act (DropRx wait_ch) ;;;
  do_act (DropRx chunk_ch) ;;;
  Ret code.

(** The plain way: [wait] on the caller's thread, output discarded. *)
Definition wait_discarding (handle : OsHandle) : prog (ctl Z) :=
  let! r := os_wait handle (mkOutputSinks None None) in
  match r with
  | Panic p => Ret (Unwind p)
  | Val (Err e) => Ret (Early e)
  | Val (Ok code) => Ret (Go code)
  end.

(** Disconnecting the cancel handle once the process is dead. *)
Definition unwire_cancel (ch : option CancelHandle) : prog unit :=
  match ch with
  | None => Ret tt
  | Some ch => set_kill ch None
  end.

Definition exit_reason (was_timed_out was_cancelled : bool) : ExitReason.t :=
  if was_timed_out then ExitReason.TimedOut
  else if was_cancelled then ExitReason.CancelRequested
  else ExitReason.NaturalExit.

Definition exit_code (was_timed_out was_cancelled : bool) (os_code : Z) : Z :=
  if was_timed_out || was_cancelled then -1 else os_code.

Definition run_result (was_timed_out was_cancelled : bool) : Result unit AerError.t :=
  if was_timed_out then Err AerError.TimedOut
  else if was_cancelled then Err AerError.Cancelled
  else Ok tt.

(** From the exit code to the return. *)
Definition finish (on_event : Event.t -> prog (outcome unit)) (ch : option CancelHandle)
    (machine : StateMachine) (timed_out : loc) (cancel_ch : chan TyUnit) (os_code : Z) :
    prog (outcome (Result unit AerError.t)) :=
  unwire_cancel ch ;;;
  do_act (Send (ty := TyUnit) cancel_ch tt) ;;;
  let! was_timed_out := do_act (Load timed_out) in
  let! was_cancelled :=
    (match ch with
     | Some ch => do_act (Load (kill_fired ch))
     | None => Ret false
     end) in
  let reason := exit_reason was_timed_out was_cancelled in
  let code := exit_code was_timed_out was_cancelled os_code in
  match transition machine Exited with
  | (_, Err e) => Ret (Val (Err e))
  | (_, Ok _) =>
      let! r := on_event (Event.Exited code reason) in
      match r with
      | Panic p => Ret (Panic p)
      | Val _ => Ret (Val (run_result was_timed_out was_cancelled))
      end
  end.

(** Everything between the arming of the guard and its drop: the guard as it
    is then, the process handle if [wait] was not given it, and how the body
    ends. *)
Definition guarded_body (task : Task) (on_event : Event.t -> prog (outcome unit))
    (ch : option CancelHandle) (machine : StateMachine) (handle : OsHandle)
    (kill_guard : KillOnDropGuard) :
    prog (KillOnDropGuard * option OsHandle * outcome (Result unit AerError.t)) :=
  match transition machine Running with
  | (_, Err e) => Ret (kill_guard, Some handle, Val (Err e))
  | (machine, Ok _) =>
      let! r := on_event (Event.Started (pid handle)) in
      match r with
      | Panic p => Ret (kill_guard, Some handle, Panic p)
      | Val _ =>
          wire_cancel ch (kill handle) ;;;
          let! timed_out := do_act (NewFlag false) in
          let! cancel_ch := do_act (NewChan TyUnit) in
          let! m := start_monitor (timeout task) (kill handle) timed_out cancel_ch in
          let! res :=
            (match m with
             | Panic p => Ret (kill_guard, Some handle, Panic p)
             | Val _ =>
                 let! code :=
                   (if capture_output task then wait_capturing on_event handle
                    else wait_discarding handle) in
                 match code with
                 | Unwind p => Ret (kill_guard, None, Panic p)
                 | Early e => Ret (kill_guard, None, Val (Err e))
                 | Go os_code =>
                     let! out := finish on_event ch machine timed_out cancel_ch os_code in
                     Ret (disarm kill_guard, None, out)
                 end
             end) in
          (match timeout task with
           | None => do_act (DropRx cancel_ch)
           | Some _ => Ret tt
           end) ;;;
          do_act (DropTx cancel_ch) ;;;
          Ret res
      end
  end.

(** The process handle, where the run still has it. *)
Definition drop_handle (handle : option OsHandle) : prog unit :=
  match handle with
  | Some handle => kill_drop (kill handle)
  | None => Ret tt
  end.

Definition run_impl (task : Task) (on_event : Event.t -> prog (outcome unit))
    (ch : option CancelHandle) : prog (outcome (Result unit AerError.t)) :=
  let machine := Machine.new in
  let! spawned := os_spawn (program task) (args task) (spawn_options task) in
  match spawned with
  | Err e => Ret (Val (Err e))
  | Ok handle =>
      kill_clone (kill handle) ;;;
      let kill_guard := Guard_new (kill handle) in
      let! (kill_guard, handle, out) := guarded_body task on_event ch machine handle kill_guard in
      guard_drop kill_guard ;;;
      drop_handle handle ;;;
      Ret out
  end.

(** [Task::run] and [Task::run_with_cancel]. *)
Definition run (task : Task) (on_event : Event.t -> prog (outcome unit)) :
    prog (outcome (Result unit AerError.t)) :=
  run_impl task on_event None.

Definition run_with_cancel (task : Task) (on_event : Event.t -> prog (outcome unit))
    (ch : CancelHandle) : prog (outcome (Result unit AerError.t)) :=
  run_impl task on_event (Some ch).
End Run.

Arguments Go {A} a.
Arguments Early {A} e.
Arguments Unwind {A} p.

(** The Rust caller's callback. *)
Definition rust_callback (ev : Event.t) : prog (outcome unit) := do_act (Callback ev).
