(* ===== verification/Caller.v ===== *)
(** * The caller's thread of a capturing run (src/src/task.rs)

    The steps of [run_impl] with capture on, cut at any point: before the wait
    block, the wait block itself, and after it; and which steps of each can
    concern the child's output. The callback is any program that leaves the
    crate's channels and the child's pipes alone. *)

From Stdlib Require Import ZArith.
From stdpp Require Import base numbers list strings gmap.
From S2P Require Import Prelude Core Machine Sys Prog Os Drains Task Run.

Open Scope Z_scope.

(** ** Steps that do not concern the child's output *)

Definition aside_act {X} (e : act X) : Prop :=
  match e with
  | PipeRead _ _ | PipeToSink _ | Recv _ | Join _ => False
  | NewChan ty => ty = TyUnit
  | @CloneTx ty _ | @DropTx ty _ | @DropRx ty _ | @Send ty _ _ => ty = TyUnit
  | _ => True
  end.

Definition aside_obs (o : obs) : Prop :=
  match o with
  | Obs e _ => aside_act e
  | ObsFork _ _ => False
  end.

(** The same for the caller's thread, which also starts the timeout monitor,
    outside its callback. *)
Definition calm_obs (o : obs) : Prop :=
  match o with
  | Obs e _ => aside_act e
  | ObsFork body _ => all_obs aside_obs body
  end.

Definition silent_obs (o : obs) : Prop := calm_obs o /\ obs_event o = None.

(** A step of the wait block that starts no thread and receives nothing. *)
Definition early_obs (o : obs) : Prop :=
  match o with
  | Obs e _ =>
      match e with
      | NewChan _ | CloneTx _ | DropTx _ | DropRx _ => True
      | ArcClone _ | ArcDrop _ | CloseHandle _ => True
      | _ => False
      end
  | ObsFork _ t => t = None
  end.

(** A step of the delivery loop. *)
Definition pump_obs (chunk_ch : chan TyChunk) (o : obs) : Prop :=
  match o with
  | Obs e _ =>
      match e with
      | Recv c => chan_key c = chan_key chunk_ch
      | _ => aside_act e
      end
  | ObsFork _ _ => False
  end.

(** A step after the delivery loop: the end of the wait thread and the drops. *)
Definition tail_obs (o : obs) : Prop :=
  match o with
  | Obs e _ =>
      match e with
      | @Recv ty _ => ty = TyWait
      | Join _ | DropRx _ => True
      | _ => False
      end
  | ObsFork _ _ => False
  end.

(** The same, naming the channel and the thread. *)
Definition tail_of (wait_ch : chan TyWait) (w : tid) (o : obs) : Prop :=
  match o with
  | Obs e _ =>
      match e with
      | Recv c => chan_key c = chan_key wait_ch
      | Join t => t = w
      | DropRx _ => True
      | _ => False
      end
  | ObsFork _ _ => False
  end.

Lemma tail_of_obs wait_ch w o : tail_of wait_ch w o -> tail_obs o.
Proof. destruct o as [X e x|]; [|done]. destruct e; try done. by intros [= -> _]. Qed.

Lemma aside_calm o : aside_obs o -> calm_obs o.
Proof. by destruct o. Qed.

Lemma plain_aside o : plain_obs o -> aside_obs o.
Proof. destruct o as [X e x|]; [|done]. by destruct e. Qed.

Lemma plain_silent o : plain_obs o -> silent_obs o.
Proof. intros Ho. split; [by apply aside_calm, plain_aside|]. destruct o as [X e x|]; [by destruct e|done]. Qed.

Lemma early_event o : early_obs o -> obs_event o = None.
Proof. destruct o as [X e x|]; [|done]. by destruct e. Qed.

Lemma tail_event o : tail_obs o -> obs_event o = None.
Proof. destruct o as [X e x|]; [|done]. by destruct e. Qed.

Definition is_started (ev : Event.t) : Prop :=
  match ev with Event.Started _ => True | _ => False end.

(** The exit events of a run whose wait gave [os_code]. *)
Definition exit_of (os_code : Z) (ev : Event.t) : Prop :=
  exists was_timed_out was_cancelled, ev =
    Event.Exited (exit_code was_timed_out was_cancelled os_code) (exit_reason was_timed_out was_cancelled).

Section Caller.
Context `{P : OsProcess} {D : OsDrains P}.
(** The callback, and the steps it takes on each event. *)
Context (on_event : Event.t -> prog (outcome unit)).
Context (caller : Event.t -> obs -> Prop).
Context (Hon : forall ev, all_obs (caller ev) (on_event ev)).
Context (Haside : forall ev o, caller ev o -> aside_obs o).

(** A silent step, or one of the callback on an event of kind [E]. *)
Definition on_obs (E : Event.t -> Prop) (o : obs) : Prop :=
  silent_obs o \/ exists ev, E ev /\ caller ev o.

(** How a capturing run has come along: up to the wait block, through it,
    beyond it; beyond it there are events only if it gave an exit code. *)
Definition viewed (w : prog (ctl Z)) {A} (p : prog A) : Prop :=
  forall tr r, exec p tr r ->
    Forall (on_obs is_started) tr \/
    exists tr1 tr2 tr3 r2, tr = tr1 ++ tr2 ++ tr3 /\
      Forall (on_obs is_started) tr1 /\
      exec w tr2 r2 /\
      (r2 = None -> r = None /\ tr3 = []) /\
      Forall (on_obs (fun ev => exists code, r2 = Some (Go code) /\ exit_of code ev)) tr3.

Lemma silent_on E o : silent_obs o -> on_obs E o.
Proof. by left. Qed.

Lemma silent_all {A} E (p : prog A) : all_obs silent_obs p -> all_obs (on_obs E) p.
Proof. apply all_obs_impl. intros o. apply silent_on. Qed.

Lemma event_all (E : Event.t -> Prop) ev : E ev -> all_obs (on_obs E) (on_event ev).
Proof using Hon. intros HE. eapply all_obs_impl; [|apply Hon]. intros o Ho. right. by exists ev. Qed.

(** The wait block of a run. *)
Definition obtain (task : Task) (handle : OsHandle) : prog (ctl Z) :=
  if capture_output task then wait_capturing on_event handle else wait_discarding handle.

Lemma viewed_before w {A B} (p : prog A) (f : A -> prog B) :
  all_obs (on_obs is_started) p -> (forall a, viewed w (f a)) -> viewed w (bind p f).
Proof.
  intros Hp Hf tr r [[-> Hex]|(a & tr1 & tr2 & -> & Hex & Hk)]%exec_bind_inv.
  - left. exact (Hp _ _ Hex).
  - pose proof (Hp _ _ Hex) as H1.
    destruct (Hf a _ _ Hk) as [H2|(t1 & t2 & t3 & r2 & -> & H2 & H3)].
    + left. by apply Forall_app.
    + right. exists (tr1 ++ t1), t2, t3, r2. rewrite <- app_assoc. split; [done|].
      split; [by apply Forall_app|done].
Qed.

Lemma viewed_only w {A} (p : prog A) : all_obs (on_obs is_started) p -> viewed w p.
Proof. intros Hp tr r Hex. left. exact (Hp _ _ Hex). Qed.

Lemma viewed_after w {A B} (p : prog A) (f : A -> prog B) :
  viewed w p -> (forall a, all_obs silent_obs (f a)) -> viewed w (bind p f).
Proof.
  intros Hp Hf tr r [[-> Hex]|(a & tr1 & tr2 & -> & Hex & Hk)]%exec_bind_inv.
  - destruct (Hp _ _ Hex) as [H1|(t1 & t2 & t3 & r2 & -> & H1 & H3 & Hr & H4)]; [by left|right].
    exists t1, t2, t3, r2. split_and!; try done. intros E. by destruct (Hr E).
  - pose proof (Hf a _ _ Hk) as H2.
    destruct (Hp _ _ Hex) as [H1|(t1 & t2 & t3 & r2 & -> & H1 & H3 & Hr & H4)].
    + left. apply Forall_app. split; [done|]. eapply Forall_impl; [done|]. apply silent_on.
    + destruct r2 as [c|].
      * right. exists t1, t2, (t3 ++ tr2), (Some c). rewrite <- !app_assoc. split_and!; try done.
        apply Forall_app. split; [done|]. eapply Forall_impl; [done|]. apply silent_on.
      * by destruct (Hr eq_refl).
Qed.

Lemma viewed_wait (w : prog (ctl Z)) {A} (k : ctl Z -> prog A) :
  (forall code, all_obs (on_obs (exit_of code)) (k (Go code))) ->
  (forall e, all_obs silent_obs (k (Early e))) -> (forall q, all_obs silent_obs (k (Unwind q))) ->
  viewed w (bind w k).
Proof.
  intros Hgo Hearly Hunwind tr r [[-> Hex]|(c & tr1 & tr2 & -> & Hex & Hk)]%exec_bind_inv.
  - right. exists [], tr, [], None. rewrite app_nil_r. by split_and!.
  - right. exists [], tr1, tr2, (Some c). split_and!; try done. destruct c as [code|e|q].
    + eapply Forall_impl; [exact (Hgo _ _ _ Hk)|].
      intros o [?|(ev & ? & ?)]; [by left|right]. exists ev. eauto.
    + eapply Forall_impl; [exact (Hearly _ _ _ Hk)|]. intros o. apply silent_on.
    + eapply Forall_impl; [exact (Hunwind _ _ _ Hk)|]. intros o. apply silent_on.
Qed.

(** *** The wait block *)

Lemma pump_view chunk_ch tr r :
  exec (pump on_event chunk_ch) tr r ->
  Forall (pump_obs chunk_ch) tr /\
  (forall u, r = Some (Val u) -> exists tr', tr = tr' ++ [Obs (Recv chunk_ch) None]).
Proof using Hon Haside.
  assert (forall ev, all_obs (pump_obs chunk_ch) (on_event ev)) as Hev.
  { intros ev. eapply all_obs_impl; [|apply Hon]. intros o Ho%Haside. destruct o as [X e x|]; [|done].
    by destruct e. }
  intros Hex. split.
  - assert (all_obs (pump_obs chunk_ch) (pump on_event chunk_ch)) as Hp; [|exact (Hp _ _ Hex)].
    unfold pump, pump_round. all_obs_solve ltac:(done).
  - assert (wp (pump on_event chunk_ch) (fun _ => True)
      (fun out h => forall u, out = Val u -> exists h', h = h' ++ [Obs (Recv chunk_ch) None]) []) as Hw.
    { apply wp_iter with (inv := fun _ _ => True); [|done]. intros [] h _. unfold pump_round.
      wp_step; [done|]. destruct x as [m|].
      - apply wp_bind. intros tr' [[u|q]|] _; [by apply wp_ret| |done].
        apply wp_ret; [done|]. by apply wp_ret.
      - apply wp_ret; [done|]. apply wp_ret; [done|]. intros u _. by exists h. }
    intros u ->. exact (Hw _ _ Hex u eq_refl).
Qed.

Definition setup (chunk_ch : chan TyChunk) (wait_ch : chan TyWait) : list obs :=
  [Obs (NewChan TyChunk) chunk_ch; Obs (CloneTx chunk_ch) tt; Obs (CloneTx chunk_ch) tt;
   Obs (DropTx chunk_ch) tt; Obs (NewChan TyWait) wait_ch].

(** The wait block, cut at any point: no thread started, or the wait thread
    running, the delivery loop, and what follows it. *)
Inductive capture_shape (handle : OsHandle) : list obs -> option (ctl Z) -> Prop :=
  | capture_early tr r :
      Forall early_obs tr -> (forall code, r <> Some (Go code)) -> capture_shape handle tr r
  | capture_started (chunk_ch : chan TyChunk) (wait_ch : chan TyWait) (w : tid) trp rp tr r :
      exec (pump on_event chunk_ch) trp rp ->
      Forall (tail_of wait_ch w) tr ->
      (forall code, r = Some (Go code) ->
         rp = Some (Val tt) /\ Obs (Recv wait_ch) (Some (Ok code)) ∈ tr) ->
      capture_shape handle
        (setup chunk_ch wait_ch ++
         ObsFork (wait_body handle (mkOutputSinks (Some chunk_ch) (Some chunk_ch)) wait_ch) (Some w) ::
         trp ++ tr) r.

(** The end of the wait block. *)
Definition drop_ends (chunk_ch : chan TyChunk) (wait_ch : chan TyWait) (code : ctl Z) : prog (ctl Z) :=
  do_act (DropRx wait_ch) ;;; do_act (DropRx chunk_ch) ;;; Ret code.

Lemma drop_ends_exec chunk_ch wait_ch w code tr r :
  exec (drop_ends chunk_ch wait_ch code) tr r ->
  Forall early_obs tr /\ Forall (tail_of wait_ch w) tr /\ (r = None \/ r = Some code).
Proof.
  intros Hex. split_and!.
  - assert (all_obs early_obs (drop_ends chunk_ch wait_ch code)) as H by
      (unfold drop_ends; all_obs_solve ltac:(done)). exact (H _ _ Hex).
  - assert (all_obs (tail_of wait_ch w) (drop_ends chunk_ch wait_ch code)) as H by
      (unfold drop_ends; all_obs_solve ltac:(done)). exact (H _ _ Hex).
  - destruct r as [c|]; [|by left]. unfold drop_ends in Hex. repeat exec_inv_step Hex. by right.
Qed.

(** From the end of the delivery loop on. *)
Definition after_pump (wait_ch : chan TyWait) (wait_thread : tid) (pumped : outcome unit) :
    prog (ctl Z) :=
  match pumped with
  | Panic p => Ret (Unwind p)
  | Val _ =>
      let! result := do_act (Recv wait_ch) in
      match result with
      | None => Ret (Early (AerError.WaitFailed
                  (OtherError "wait thread ended without sending a result")))
      | Some result =>
          do_act (Join wait_thread) ;;;
          match result with
          | Ok code => Ret (Go code)
          | Err e => Ret (Early e)
          end
      end
  end.

Lemma after_pump_exec chunk_ch wait_ch wait_thread pumped tr r :
  exec (let! code := after_pump wait_ch wait_thread pumped in
        drop_ends chunk_ch wait_ch code) tr r ->
  Forall (tail_of wait_ch wait_thread) tr /\
  forall code, r = Some (Go code) ->
    pumped = Val tt /\ Obs (Recv wait_ch) (Some (Ok code)) ∈ tr.
Proof.
  intros Hex. split.
  - assert (forall A (p : prog A) q, all_obs (tail_of wait_ch wait_thread) p ->
      exec p tr q -> Forall (tail_of wait_ch wait_thread) tr) as H
      by (intros A p q Hp; exact (Hp tr q)).
    eapply H, Hex. unfold drop_ends, after_pump. all_obs_solve ltac:(done).
  - intros code ->. apply exec_bind_Some in Hex as (c & tr1 & tr2 & -> & H1 & H2).
    destruct (drop_ends_exec _ _ 0%nat _ _ _ H2) as (_ & _ & [?|?]); simplify_eq.
    destruct pumped as [[]|p]; simpl in H1; [|by exec_inv_step H1]. split; [done|].
    exec_inv_step H1. destruct x as [[c|e]|]; repeat exec_inv_step H1. in_list.
Qed.

Lemma wait_capturing_shape handle tr r :
  exec (wait_capturing on_event handle) tr r -> capture_shape handle tr r.
Proof.
  unfold wait_capturing.
  assert (forall tr', Forall early_obs tr' -> capture_shape handle tr' None) as Hnone
    by (intros; by apply capture_early).
  intros Hex.
  destruct Hex as [[-> ->]|(lc & tr1 & -> & Hex)]; [by apply Hnone|].
  destruct Hex as [[-> ->]|([] & tr2 & -> & Hex)]; [by apply Hnone; repeat constructor|].
  destruct Hex as [[-> ->]|([] & tr3 & -> & Hex)]; [by apply Hnone; repeat constructor|].
  destruct Hex as [[-> ->]|([] & tr4 & -> & Hex)]; [by apply Hnone; repeat constructor|].
  destruct Hex as [[-> ->]|(lw & tr5 & -> & Hex)]; [by apply Hnone; repeat constructor|].
  unfold thread_spawn in Hex.
  destruct Hex as [[-> ->]|([w|] & tr6 & -> & Hex)]; [by apply Hnone; repeat constructor| |].
  - assert (exec (let! code := (let! pumped := pump on_event lc in after_pump lw w pumped) in
      drop_ends lc lw code) tr6 r) as Hex' by exact Hex. clear Hex.
    assert (exists trp rp tr', tr6 = trp ++ tr' /\ exec (pump on_event lc) trp rp /\
      Forall (tail_of lw w) tr' /\ forall code, r = Some (Go code) ->
        rp = Some (Val tt) /\ Obs (Recv lw) (Some (Ok code)) ∈ tr') as (trp & rp & tr' & -> & ? & ? & ?).
    { apply bind_assoc_exec in Hex' as [[-> Hex]|(rp & trp & tr' & -> & Hex & Ha)]%exec_bind_inv.
      - exists tr6, None, []. by rewrite app_nil_r.
      - exists trp, (Some rp), tr'. destruct (after_pump_exec _ _ _ _ _ _ Ha) as [Ht Hgo].
        split_and!; [done..|]. intros code E. by destruct (Hgo code E) as [-> ?]. }
    by eapply (capture_started handle lc lw w).
  - lazymatch type of Hex with
    | exec (bind (bind (Ret ?t) ?f) ?k) _ _ => change (exec (bind (f t) k) tr6 r) in Hex
    end. cbv beta iota in Hex.
    assert (exec ((kill_drop (kill handle) ;;; do_act (DropTx lc) ;;; do_act (DropTx lc) ;;;
        do_act (DropTx lw)) ;;; drop_ends lc lw (Unwind spawn_panic)) tr6 r) as Hex'
      by exact (bind_assoc_exec _ _ _ _ _ Hex).
    clear Hex. apply capture_early.
    + do 6 (constructor; [done|]).
      assert (forall A (p : prog A) q, all_obs early_obs p -> exec p tr6 q -> Forall early_obs tr6) as H
        by (intros A p q Hp; exact (Hp tr6 q)).
      eapply H, Hex'. unfold drop_ends. all_obs_solve ltac:(done).
    + intros code ->. apply exec_bind_Some in Hex' as (c & tr1 & tr2 & -> & H1 & H2).
      by destruct (drop_ends_exec _ _ 0%nat _ _ _ H2) as (_ & _ & [?|?]); simplify_eq.
Qed.

(** *** The blocks around the wait *)

Lemma silent_plain {A} (p : prog A) : all_obs plain_obs p -> all_obs silent_obs p.
Proof. apply all_obs_impl, plain_silent. Qed.

Lemma silent_spawn pr ar op : all_obs silent_obs (os_spawn pr ar op).
Proof using D. apply silent_plain, plain_spawn. Qed.
Lemma silent_kill kill grace : all_obs silent_obs (os_kill_escalating kill grace).
Proof using D. apply silent_plain, plain_kill. Qed.
Lemma silent_alive kill : all_obs silent_obs (os_tree_alive kill).
Proof using D. apply silent_plain, plain_alive. Qed.
Lemma silent_reap kill : all_obs silent_obs (os_reap_abandoned kill).
Proof using D. apply silent_plain, plain_reap. Qed.

#[local] Hint Resolve silent_spawn silent_kill silent_alive silent_reap : aer.

Lemma silent_wire ch kill : all_obs silent_obs (wire_cancel ch kill).
Proof using D. unfold wire_cancel, set_kill. all_obs_solve ltac:(done). Qed.

Lemma silent_unwire ch : all_obs silent_obs (unwire_cancel ch).
Proof. unfold unwire_cancel, set_kill. all_obs_solve ltac:(done). Qed.

(** The threads that run aside a capture: the monitor and a canceller. *)
Lemma aside_plain {A} (p : prog A) : all_obs plain_obs p -> all_obs aside_obs p.
Proof. apply all_obs_impl, plain_aside. Qed.

Lemma aside_kill kill grace : all_obs aside_obs (os_kill_escalating kill grace).
Proof using D. apply aside_plain, plain_kill. Qed.
Lemma aside_alive kill : all_obs aside_obs (os_tree_alive kill).
Proof using D. apply aside_plain, plain_alive. Qed.
#[local] Hint Resolve aside_kill aside_alive : aer.

Lemma monitor_aside kill timed_out cancel_ch timeout :
  all_obs aside_obs (monitor_body kill timed_out cancel_ch timeout).
Proof using D. unfold monitor_body. all_obs_solve ltac:(done). Qed.

Lemma cancel_aside ch : all_obs aside_obs (cancel ch).
Proof using D. unfold cancel. all_obs_solve ltac:(done). Qed.

Lemma silent_monitor timeout kill timed_out cancel_ch :
  all_obs silent_obs (start_monitor timeout kill timed_out cancel_ch).
Proof using D.
  unfold start_monitor, thread_spawn.
  all_obs_solve ltac:(first [done | split; [apply monitor_aside|done]]).
Qed.

Lemma silent_guard_drop g : all_obs silent_obs (guard_drop g).
Proof using D. unfold guard_drop. all_obs_solve ltac:(done). Qed.

#[local] Hint Resolve silent_wire silent_unwire silent_monitor silent_guard_drop : aer.

Lemma finish_view ch machine timed_out cancel_ch os_code :
  all_obs (on_obs (exit_of os_code)) (finish on_event ch machine timed_out cancel_ch os_code).
Proof using Hon D.
  unfold finish. apply all_obs_bind; [apply silent_all; auto with aer|intros _].
  apply all_obs_bind; [apply silent_all; all_obs_solve ltac:(done)|intros _].
  apply all_obs_bind; [apply silent_all; all_obs_solve ltac:(done)|intros t].
  apply all_obs_bind; [apply silent_all; all_obs_solve ltac:(done)|intros f].
  destruct (transition machine Exited) as [machine' []]; [|apply all_obs_ret].
  apply all_obs_bind; [apply event_all; by do 2 eexists|intros []; apply all_obs_ret].
Qed.

Lemma guarded_body_viewed task ch handle guard :
  viewed (obtain task handle) (guarded_body task on_event ch Machine.new handle guard).
Proof using Hon D.
  unfold guarded_body.
  change (transition Machine.new Running) with (mkStateMachine Running, @Ok unit AerError.t tt).
  cbv iota beta zeta.
  apply viewed_before; [by apply event_all|].
  intros [[]|q]; [|apply viewed_only, all_obs_ret].
  apply viewed_before; [apply silent_all; auto with aer|intros _].
  apply viewed_before; [apply silent_all; all_obs_solve ltac:(done)|intros timed_out].
  apply viewed_before; [apply silent_all; all_obs_solve ltac:(done)|intros cancel_ch].
  apply viewed_before; [apply silent_all; auto with aer|intros m].
  apply viewed_after; [|intros; all_obs_solve ltac:(done)].
  destruct m as [[]|q]; [|apply viewed_only, all_obs_ret].
  apply viewed_wait; [|intros; apply all_obs_ret..].
  intros code. apply all_obs_bind; [apply finish_view|intros; apply all_obs_ret].
Qed.

(** The whole run: nothing but aside steps, or a wait block on the child that
    was spawned with both its pipes, with aside steps around. *)
Lemma run_impl_view task ch tr r :
  exec (run_impl task on_event ch) tr r ->
  Forall (on_obs is_started) tr \/
  exists handle cmd tr0 tr1 tr2 tr3 r2, tr = tr1 ++ tr2 ++ tr3 /\
    (exec (os_spawn (program task) (args task) (spawn_options task)) tr0 (Some (Ok handle)) /\
     tr0 ⊆ tr1) /\
    Obs (CommandSpawn cmd) (Ok (child handle)) ∈ tr1 /\
    cmd_stdout cmd = StdioPiped /\ cmd_stderr cmd = StdioPiped /\
    Forall (on_obs is_started) tr1 /\
    exec (obtain task handle) tr2 r2 /\
    Forall (on_obs (fun ev => exists code, r2 = Some (Go code) /\ exit_of code ev)) tr3.
Proof using Hon D.
  unfold run_impl.
  intros [[-> Hex]|(o & tr0 & tr4 & -> & Hex & Hk)]%exec_bind_inv.
  - left. eapply silent_all; [apply silent_spawn|exact Hex].
  - assert (Forall (on_obs is_started) tr0) as H0 by (eapply silent_all; [apply silent_spawn|exact Hex]).
    destruct o as [handle|e]; [|destruct Hk as [-> _]; left; by rewrite app_nil_r].
    destruct (spawn_child _ _ _ _ _ Hex) as (cmd & Hin & Ho & He).
    assert (viewed (obtain task handle) (kill_clone (kill handle) ;;;
      let! (kill_guard, handle, out) :=
        guarded_body task on_event ch Machine.new handle (Guard_new (kill handle)) in
      guard_drop kill_guard ;;; drop_handle handle ;;; Ret out)) as Hv.
    { apply viewed_before; [apply silent_all; auto with aer|intros _].
      apply viewed_after; [by apply guarded_body_viewed|].
      intros [[g h] out]. unfold drop_handle. all_obs_solve ltac:(done). }
    destruct (Hv _ _ Hk) as [H1|(t1 & t2 & t3 & r2 & -> & H1 & H2 & _ & H3)].
    + left. by apply Forall_app.
    + right. exists handle, cmd, tr0, (tr0 ++ t1), t2, t3, r2. rewrite <- app_assoc.
      split_and!; try done; [|in_list|by apply Forall_app]. intros o' Ho'. in_list.
Qed.
End Caller.
