(* ===== verification/Blocks.v ===== *)
(** * The blocks of task.rs, step by step

    Exact contracts of [CancelHandle::cancel], of the wiring of a cancel
    handle, of the delivery loop and of the end of [run_impl]: which traces
    each of them has, so that the theorems about several threads can use them
    without looking at the code again. *)

From Stdlib Require Import ZArith.
From stdpp Require Import base numbers list strings gmap.
From S2P Require Import Prelude Core Machine Sys Prog Os Task Run.

Open Scope Z_scope.

(** ** CancelHandle::cancel *)

Section Cancel.
Context `{P : OsProcess}.

(** The complete runs of [cancel]. *)
Inductive cancel_trace (ch : CancelHandle) : list obs -> Prop :=
  | cancel_again :
      cancel_trace ch [Obs (Swap (cancelled ch) true) true]
  | cancel_poisoned :
      cancel_trace ch
        [Obs (Swap (cancelled ch) true) false; Obs (Lock (kill_slot ch)) true;
         Obs (Unlock (kill_slot ch)) tt]
  | cancel_unwired :
      cancel_trace ch
        [Obs (Swap (cancelled ch) true) false; Obs (Lock (kill_slot ch)) false;
         Obs (GetSlot (kill_slot ch)) None; Obs (Unlock (kill_slot ch)) tt]
  | cancel_dead kill probe :
      exec (os_tree_alive kill) probe (Some false) ->
      cancel_trace ch
        (Obs (Swap (cancelled ch) true) false :: Obs (Lock (kill_slot ch)) false ::
         Obs (GetSlot (kill_slot ch)) (Some kill) :: probe ++
         [Obs (Unlock (kill_slot ch)) tt])
  | cancel_fired kill probe kills r :
      exec (os_tree_alive kill) probe (Some true) ->
      exec (os_kill_escalating kill KILL_GRACE) kills (Some r) ->
      cancel_trace ch
        (Obs (Swap (cancelled ch) true) false :: Obs (Lock (kill_slot ch)) false ::
         Obs (GetSlot (kill_slot ch)) (Some kill) :: probe ++
         Obs (Store (kill_fired ch) true) tt :: clone_trace kill ++ kills ++
         [Obs (Unlock (kill_slot ch)) tt]).

Lemma cancel_exec ch tr :
  exec (cancel ch) tr (Some tt) <-> cancel_trace ch tr.
Proof.
  unfold cancel. split.
  - intros Hex. exec_inv_step Hex. destruct x; simpl in Hex; [exec_inv_step Hex; by constructor|].
    exec_inv_step Hex. rename x into poisoned.
    apply exec_bind_Some in Hex as ([] & tr1 & tr2 & -> & H1 & H2).
    exec_inv_step H2.
    destruct poisoned; simpl in H1; [exec_inv_step H1; by constructor|].
    exec_inv_step H1. destruct x as [kill|]; [|exec_inv_step H1; by constructor].
    apply exec_bind_Some in H1 as (alive & probe & tr1 & -> & Hp & H1).
    destruct alive; [|exec_inv_step H1; rewrite app_nil_r; by apply (cancel_dead _ kill)].
    exec_inv_step H1. destruct x.
    apply exec_bind_Some in H1 as ([] & clone & tr1' & -> & ->%kill_clone_exec & H1).
    apply exec_bind_Some in H1 as (r & kills & tr3 & -> & Hk & H1). exec_inv_step H1.
    rewrite app_nil_r. pose proof (cancel_fired ch kill probe kills r Hp Hk) as Ht.
    simpl. rewrite <- !app_assoc. simpl. by rewrite <- app_assoc.
  - intros Ht. apply exec_act_Some. destruct Ht as [| | |kill probe Hp|kill probe kills r Hp Hk];
      (eexists _, _; split; [done|]; simpl); [by apply exec_ret_Some|..];
      (apply exec_act_Some; eexists _, _; split; [done|]; simpl).
    + by apply (exec_bind _ _ tt [] [_]); [apply exec_ret_Some|apply exec_do_act_Some].
    + apply (exec_bind _ _ tt [_] [_]); [|by apply exec_do_act_Some].
      apply exec_act_Some. eexists _, _. split; [done|]. by apply exec_ret_Some.
    + apply (exec_bind _ _ tt (_ :: probe) [_]); [|by apply exec_do_act_Some].
      apply exec_act_Some. eexists _, _. split; [done|]. simpl.
      rewrite <- (app_nil_r probe). by eapply exec_bind; [done|apply exec_ret_Some].
    + replace (probe ++ _) with ((probe ++ Obs (Store (kill_fired ch) true) tt ::
        clone_trace kill ++ kills) ++ [Obs (Unlock (kill_slot ch)) tt])
        by (rewrite <- app_assoc; simpl; by rewrite <- app_assoc).
      apply (exec_bind _ _ tt (_ :: _) [_]); [|by apply exec_do_act_Some].
      apply exec_act_Some. eexists _, _. split; [done|]. simpl.
      eapply exec_bind; [done|]. simpl. apply exec_act_Some. eexists _, _. split; [done|].
      apply (exec_bind _ _ tt); [by apply kill_clone_exec|]. by eapply exec_snoc_ret.
Qed.

(** C31: [cancel] has exactly these runs: a second call stops at the swap; the
    first call fires only on a wired handle whose tree the probe reports
    alive, sets [kill_fired] before it kills, and holds the mutex from the
    look at the slot to the end of the kill. *)
Theorem cancel_spec ch tr :
  exec (cancel ch) tr (Some tt) <-> cancel_trace ch tr.
Proof. apply cancel_exec. Qed.

(** ** Wiring the cancel handle *)

(** The mutex-protected write of the slot, poisoned or not: what it held is
    dropped before the mutex is released. *)
Definition set_kill_trace (ch : CancelHandle) (poisoned : bool) (v old : option KillHandle)
    (last : bool) : list obs :=
  Obs (Lock (kill_slot ch)) poisoned :: Obs (SetSlot (kill_slot ch) v) old ::
  drop_opt_trace old last ++ [Obs (Unlock (kill_slot ch)) tt].

(** What follows the write: nothing if no cancel came first, or if its kill
    was already fired, or if the tree is dead; else the kill. *)
Inductive late_kill_trace (ch : CancelHandle) (kill : KillHandle) : list obs -> Prop :=
  | late_none :
      late_kill_trace ch kill [Obs (Load (cancelled ch)) false]
  | late_fired :
      late_kill_trace ch kill
        [Obs (Load (cancelled ch)) true; Obs (Load (kill_fired ch)) true]
  | late_dead probe :
      exec (os_tree_alive kill) probe (Some false) ->
      late_kill_trace ch kill
        (Obs (Load (cancelled ch)) true :: Obs (Load (kill_fired ch)) false :: probe)
  | late_kill probe kills r :
      exec (os_tree_alive kill) probe (Some true) ->
      exec (os_kill_escalating kill KILL_GRACE) kills (Some r) ->
      late_kill_trace ch kill
        (Obs (Load (cancelled ch)) true :: Obs (Load (kill_fired ch)) false :: probe ++
         Obs (Store (kill_fired ch) true) tt :: clone_trace kill ++ kills).

Lemma set_kill_exec ch v tr :
  exec (set_kill ch v) tr (Some tt) <->
  exists poisoned old last, tr = set_kill_trace ch poisoned v old last.
Proof.
  unfold set_kill. split.
  - intros (p & tr1 & -> & Hex)%exec_act_Some.
    apply exec_act_Some in Hex as (old & tr2 & -> & Hex).
    apply exec_bind_Some in Hex as ([] & tr3 & tr4 & -> & [last ->]%kill_drop_opt_exec & Hex).
    apply exec_do_act_Some in Hex as ->. by exists p, old, last.
  - intros (p & old & last & ->). do 2 (apply exec_act_Some; eexists _, _; split; [done|]).
    apply (exec_bind _ _ tt); [apply kill_drop_opt_exec; by exists last|by apply exec_do_act_Some].
Qed.

Lemma wire_cancel_exec ch kill tr :
  exec (wire_cancel (Some ch) kill) tr (Some tt) <->
  exists poisoned old last late,
    tr = clone_trace kill ++ set_kill_trace ch poisoned (Some kill) old last ++ late /\
    late_kill_trace ch kill late.
Proof.
  unfold wire_cancel. split.
  - intros ([] & tr0 & tr' & -> & ->%kill_clone_exec & H)%exec_bind_Some.
    apply exec_bind_Some in H as ([] & tr1 & late & -> & (p & old & last & ->)%set_kill_exec & H).
    exists p, old, last, late. split; [done|]. exec_inv_step H.
    destruct x; [|repeat exec_inv_step H; constructor].
    apply exec_bind_Some in H as (due & tr1 & tr2 & -> & H1 & H2). exec_inv_step H1.
    destruct x; [exec_inv_step H1; exec_inv_step H2; constructor|].
    destruct due; [|exec_inv_step H2; rewrite app_nil_r; by constructor].
    exec_inv_step H2. destruct x.
    apply exec_bind_Some in H2 as ([] & clone & tr'' & -> & ->%kill_clone_exec & H2).
    apply exec_bind_Some in H2 as (r & kills & tr' & -> & Hk & H2). exec_inv_step H2.
    rewrite app_nil_r. by apply (late_kill _ _ _ _ r).
  - intros (p & old & last & late & -> & Hl). eapply exec_bind; [by apply kill_clone_exec|].
    eapply exec_bind; [apply set_kill_exec; by exists p, old, last|].
    apply exec_act_Some. destruct Hl as [| |probe Hp|probe kills r Hp Hk];
      (eexists _, _; split; [done|]; simpl); [by apply exec_ret_Some|..].
    + by apply (exec_bind _ _ false [_] []); [apply exec_act_Some; eexists _, _; split;
        [done|]|]; apply exec_ret_Some.
    + rewrite <- (app_nil_r (_ :: probe)).
      eapply exec_bind with (a := false); [|by apply exec_ret_Some].
      apply exec_act_Some. by eexists _, _.
    + apply (exec_bind _ _ true (_ :: probe)); [apply exec_act_Some; by eexists _, _|].
      apply exec_act_Some. eexists _, _. split; [done|].
      apply (exec_bind _ _ tt); [by apply kill_clone_exec|]. by eapply exec_snoc_ret.
Qed.

(** C14: Wiring a cancel handle has exactly these runs: it stores a clone of the
    kill handle in the slot before it looks at [cancelled], drops what an earlier
    run left there, and, when a cancel came before, whose kill was not fired, and
    the tree is alive, sets [kill_fired] and carries that kill out. *)
Theorem wire_cancel_spec ch kill tr :
  exec (wire_cancel (Some ch) kill) tr (Some tt) <->
  exists poisoned old last late,
    tr = clone_trace kill ++ set_kill_trace ch poisoned (Some kill) old last ++ late /\
    late_kill_trace ch kill late.
Proof. apply wire_cancel_exec. Qed.
End Cancel.

(** ** The delivery loop *)

(** The chunk messages received from the channel, in order. *)
Definition obs_received (o : obs) : option ChunkMsg.t :=
  match o with
  | Obs e x =>
      match e in act X return X -> option ChunkMsg.t with
      | @Recv ty _ =>
          match ty return option (msg ty) -> option ChunkMsg.t with
          | TyChunk => fun m => m
          | TyUnit | TyWait => fun _ => None
          end
      | _ => fun _ => None
      end x
  | ObsFork _ _ => None
  end.

Definition received (tr : list obs) : list ChunkMsg.t := omap obs_received tr.

Lemma pump_exec chunk_ch tr r :
  exec (pump rust_callback chunk_ch) tr r ->
  (events tr = chunk_event <$> received tr \/
   exists m, chunk_event <$> received tr = events tr ++ [m]) /\
  (forall u, r = Some (Val u) ->
     events tr = chunk_event <$> received tr /\
     exists tr', tr = tr' ++ [Obs (Recv chunk_ch) None]).
Proof.
  intros Hex. cut (wp (pump rust_callback chunk_ch)
    (fun h => events h = chunk_event <$> received h \/
       exists m, chunk_event <$> received h = events h ++ [m])
    (fun out h => events h = chunk_event <$> received h /\
       forall u, out = Val u -> exists h', h = h' ++ [Obs (Recv chunk_ch) None]) []).
  { intros Hw. specialize (Hw _ _ Hex). destruct r as [out|]; [|by split].
    destruct Hw as [Hw Hc]. split; [by left|]. intros u [= ->]. split; [done|by eapply Hc]. }
  clear Hex. apply wp_iter with (inv := fun _ h => events h = chunk_event <$> received h); [|done].
  intros [] h Hh. unfold pump_round, rust_callback. wp_step; [by left|].
  assert (forall tr tr', received (tr ++ tr') = received tr ++ received tr') as Happ
    by (intros; apply omap_app).
  destruct x as [m|]; repeat wp_step; rewrite ?events_app, ?Happ; simpl;
    rewrite ?app_nil_r, ?fmap_app, ?Hh; simpl; eauto; by split.
Qed.

(** The loop hands every message it receives to the callback, in order and
    once; at any moment at most the last one is not handed over yet. It
    returns normally only when the channel is closed. *)
Theorem pump_delivers chunk_ch tr r :
  exec (pump rust_callback chunk_ch) tr r ->
  (events tr = chunk_event <$> received tr \/
   exists m, chunk_event <$> received tr = events tr ++ [m]) /\
  (forall u, r = Some (Val u) ->
     events tr = chunk_event <$> received tr /\
     exists tr', tr = tr' ++ [Obs (Recv chunk_ch) None]).
Proof. apply pump_exec. Qed.

(** ** The end of [run_impl] *)

Section Finish.
Context `{P : OsProcess}.

(** The reads of the cancel handle at the end. *)
Definition unwire_trace (ch : option CancelHandle) (poisoned : bool) (old : option KillHandle)
    (last : bool) : list obs :=
  match ch with
  | None => []
  | Some ch => set_kill_trace ch poisoned None old last
  end.

Definition read_fired_trace (ch : option CancelHandle) (fired : bool) : list obs :=
  match ch with
  | None => []
  | Some ch => [Obs (Load (kill_fired ch)) fired]
  end.

Lemma finish_exec ch timed_out cancel_ch os_code tr out :
  exec (finish rust_callback ch {| state := Running |} timed_out cancel_ch os_code) tr (Some out) <->
  exists poisoned old last sent b1 b2 cb,
    tr = unwire_trace ch poisoned old last ++
         Obs (Send (ty := TyUnit) cancel_ch tt) sent :: Obs (Load timed_out) b1 ::
         read_fired_trace ch b2 ++
         [Obs (Callback (Event.Exited (exit_code b1 b2 os_code) (exit_reason b1 b2))) cb] /\
    (ch = None -> b2 = false) /\
    out = match cb with
          | Val _ => Val (run_result b1 b2)
          | Panic p => Panic p
          end.
Proof.
  unfold finish. split.
  - intros ([] & tr1 & tr2 & -> & Hu & H)%exec_bind_Some.
    assert (exists poisoned old last, tr1 = unwire_trace ch poisoned old last)
      as (poisoned & old & last & ->).
    { destruct ch; [by apply set_kill_exec|]. unfold unwire_cancel in Hu. exec_inv_step Hu.
      by exists false, None, false. }
    do 2 exec_inv_step H. rename x into sent, x0 into b1.
    apply exec_bind_Some in H as (b2 & tr3 & tr4 & -> & Hf & H).
    exists poisoned, old, last, sent, b1, b2.
    assert (tr3 = read_fired_trace ch b2 /\ (ch = None -> b2 = false)) as [-> ?].
    { destruct ch; [by apply exec_do_act_Some in Hf|by exec_inv_step Hf]. }
    change (transition {| state := Running |} Exited) with
      ({| state := Exited |}, @Ok unit AerError.t tt) in H. cbv iota beta zeta in H.
    apply exec_act_Some in H as (cb & tr5 & -> & H). exists cb.
    destruct cb; exec_inv_step H; done.
  - intros (poisoned & old & last & sent & b1 & b2 & cb & -> & Hb2 & ->).
    apply (exec_bind _ _ tt).
    { destruct ch; [apply set_kill_exec; by exists poisoned, old, last|by apply exec_ret_Some]. }
    do 2 (apply exec_act_Some; eexists _, _; split; [done|]).
    apply (exec_bind _ _ b2).
    { destruct ch; [by apply exec_do_act_Some|]. rewrite (Hb2 eq_refl). by apply exec_ret_Some. }
    change (transition {| state := Running |} Exited) with
      ({| state := Exited |}, @Ok unit AerError.t tt). cbv iota beta zeta.
    apply exec_act_Some. eexists _, _. split; [done|].
    destruct cb; by apply exec_ret_Some.
Qed.

(** The end of a run, in order: the handle disconnected, the monitor told,
    the two flags read, [Exited] emitted with what they say, and the result
    returned; [timed_out] wins over [kill_fired]. *)
Theorem finish_spec ch timed_out cancel_ch os_code tr out :
  exec (finish rust_callback ch {| state := Running |} timed_out cancel_ch os_code) tr (Some out) <->
  exists poisoned old last sent b1 b2 cb,
    tr = unwire_trace ch poisoned old last ++
         Obs (Send (ty := TyUnit) cancel_ch tt) sent :: Obs (Load timed_out) b1 ::
         read_fired_trace ch b2 ++
         [Obs (Callback (Event.Exited (exit_code b1 b2 os_code) (exit_reason b1 b2))) cb] /\
    (ch = None -> b2 = false) /\
    out = match cb with
          | Val _ => Val (run_result b1 b2)
          | Panic p => Panic p
          end.
Proof. apply finish_exec. Qed.
End Finish.
