(* ===== verification/Lifecycle.v ===== *)
(** * What a caller of [Task::run] observes (properties of src/src/task.rs)

    Over any platform that satisfies [OsProcessLaws]: the order of the events,
    how the result goes with them, what the guard does, and what the blocks of
    [run_impl] do step by step. Every theorem is about all executions of the
    caller's thread, whatever the system, the callback and the other threads
    answer. *)

From Stdlib Require Import ZArith.
From stdpp Require Import base numbers list strings gmap.
From S2P Require Import Prelude Core Machine Sys Prog Os Task Run.

Open Scope Z_scope.

(** ** The event contract *)

(** The event sequences a run may have shown so far: nothing, or [Started]
    and chunk events (none without capture), closed or not by one [Exited]. *)
Inductive lifecycle (cap : bool) : list Event.t -> Prop :=
  | life_created : lifecycle cap []
  | life_running pid chunks :
      Forall (fun e => Event.is_chunk e = true) chunks ->
      (cap = false -> chunks = []) ->
      lifecycle cap (Event.Started pid :: chunks)
  | life_exited pid chunks code reason :
      Forall (fun e => Event.is_chunk e = true) chunks ->
      (cap = false -> chunks = []) ->
      lifecycle cap (Event.Started pid :: chunks ++ [Event.Exited code reason]).

Definition is_exited (e : Event.t) : bool :=
  match e with
  | Event.Exited _ _ => true
  | _ => false
  end.

(** What the guarded body of [run_impl] leaves: the guard, the result, and the
    events.

    Either the run was abandoned: the guard is still armed, no [Exited] was
    emitted, and the body ended by a panic or an early error. Or the process
    was seen dead: the guard is disarmed, [Exited] is the last event, and the
    two flags read give code, reason and result together (unless the callback
    panicked on [Exited] itself). *)
Inductive body_end (cap : bool) (pid : Z) (kill : KillHandle) :
    KillOnDropGuard -> outcome (Result unit AerError.t) -> list Event.t -> Prop :=
  | end_panicked_early p evs chunks :
      Forall (fun e => Event.is_chunk e = true) chunks ->
      (cap = false -> chunks = []) ->
      evs = Event.Started pid :: chunks ->
      body_end cap pid kill (mkGuard kill true) (Panic p) evs
  | end_wait_error e evs chunks :
      Forall (fun e => Event.is_chunk e = true) chunks ->
      (cap = false -> chunks = [] /\ exists io, e = AerError.WaitFailed io) ->
      evs = Event.Started pid :: chunks ->
      body_end cap pid kill (mkGuard kill true) (Val (Err e)) evs
  | end_exited timed_out cancelled os_code (cb : outcome unit) evs chunks :
      Forall (fun e => Event.is_chunk e = true) chunks ->
      (cap = false -> chunks = []) ->
      evs = Event.Started pid :: chunks ++
              [Event.Exited (exit_code timed_out cancelled os_code)
                            (exit_reason timed_out cancelled)] ->
      body_end cap pid kill (mkGuard kill false)
        (match cb with
         | Val _ => Val (run_result timed_out cancelled)
         | Panic p => Panic p
         end) evs.

Section Lifecycle.
Context `{P : OsProcess} {L : OsProcessLaws P}.

(** ** Quiet steps *)

#[local] Abbreviation quiet := (all_obs (fun o => obs_event o = None)).

Lemma os_obs_event o : os_obs o -> obs_event o = None.
Proof. destruct o as [X e x|]; [|done]. by destruct e. Qed.

Lemma quiet_os {A} (p : prog A) : all_obs os_obs p -> quiet p.
Proof. apply all_obs_impl, os_obs_event. Qed.

Lemma quiet_spawn pr ar op : quiet (os_spawn pr ar op).
Proof. apply quiet_os, os_spawn_obs. Qed.
Lemma quiet_wait handle sinks : quiet (os_wait handle sinks).
Proof. apply quiet_os, os_wait_obs. Qed.
Lemma quiet_kill kill grace : quiet (os_kill_escalating kill grace).
Proof. apply quiet_os, os_kill_obs. Qed.
Lemma quiet_alive kill : quiet (os_tree_alive kill).
Proof. apply quiet_os, os_alive_obs. Qed.
Lemma quiet_reap kill : quiet (os_reap_abandoned kill).
Proof. apply quiet_os, os_reap_obs. Qed.
#[local] Hint Resolve quiet_spawn quiet_wait quiet_kill quiet_alive quiet_reap : aer.

Lemma quiet_wire ch kill : quiet (wire_cancel ch kill).
Proof. unfold wire_cancel, set_kill. all_obs_solve ltac:(done). Qed.

Lemma quiet_unwire ch : quiet (unwire_cancel ch).
Proof. unfold unwire_cancel, set_kill. all_obs_solve ltac:(done). Qed.

Lemma quiet_thread_spawn body captured :
  quiet captured -> quiet (thread_spawn body captured).
Proof. intros. unfold thread_spawn. all_obs_solve ltac:(done). Qed.

Lemma quiet_monitor timeout kill timed_out cancel_ch :
  quiet (start_monitor timeout kill timed_out cancel_ch).
Proof.
  unfold start_monitor. all_obs_solve ltac:(done).
  apply quiet_thread_spawn. all_obs_solve ltac:(done).
Qed.

Lemma quiet_guard_drop g : quiet (guard_drop g).
Proof. unfold guard_drop. all_obs_solve ltac:(done). Qed.

Lemma quiet_kill_clone kill : quiet (kill_clone kill).
Proof. auto with aer. Qed.

Lemma drop_handle_arc handle : all_obs arc_obs (drop_handle handle).
Proof. destruct handle; [apply kill_drop_arc|apply all_obs_ret]. Qed.

Lemma quiet_drop_handle handle : quiet (drop_handle handle).
Proof. unfold drop_handle. all_obs_solve ltac:(done). Qed.

#[local] Hint Resolve quiet_wire quiet_unwire quiet_monitor quiet_guard_drop quiet_drop_handle : aer.

Lemma quiet_events {A} (p : prog A) tr r : quiet p -> exec p tr r -> events tr = [].
Proof.
  intros Hq Hex. specialize (Hq _ _ Hex). clear Hex. unfold events.
  induction Hq as [|o tr Ho _ IH]; [done|]. simpl. by rewrite Ho.
Qed.

(** ** The blocks *)

(** The events a body has shown before [finish]. *)
Definition running (cap : bool) (pid : Z) (evs : list Event.t) : Prop :=
  exists chunks, evs = Event.Started pid :: chunks /\
    Forall (fun e => Event.is_chunk e = true) chunks /\ (cap = false -> chunks = []).

Lemma running_lifecycle cap pid evs : running cap pid evs -> lifecycle cap evs.
Proof. intros (chunks & -> & ? & ?). by constructor. Qed.

Lemma running_exited cap pid evs code reason :
  running cap pid evs -> lifecycle cap (evs ++ [Event.Exited code reason]).
Proof. intros (chunks & -> & ? & ?). by constructor. Qed.

Lemma running_chunk pid evs m :
  running true pid evs -> running true pid (evs ++ [chunk_event m]).
Proof.
  intros (chunks & -> & Hc & _). exists (chunks ++ [chunk_event m]).
  split; [done|]. split; [|done]. apply Forall_app. split; [done|].
  constructor; [by destruct m|constructor].
Qed.

Lemma chunks_no_exited chunks code reason :
  Forall (fun e => Event.is_chunk e = true) chunks -> Event.Exited code reason ∉ chunks.
Proof. rewrite Forall_forall. intros Hc Hin. by specialize (Hc _ Hin). Qed.

Lemma body_end_lifecycle cap pid kill g out evs :
  body_end cap pid kill g out evs -> lifecycle cap evs.
Proof.
  intros [p evs' chunks Hc Hcap ->|e evs' chunks Hc Hcap ->|b1 b2 c cb evs' chunks Hc Hcap ->].
  - by apply life_running.
  - apply life_running; [done|]. intros E. by destruct (Hcap E).
  - by apply life_exited.
Qed.

Lemma body_end_started cap pid kill g out evs :
  body_end cap pid kill g out evs -> exists evs', evs = Event.Started pid :: evs'.
Proof. intros []; subst; by eexists. Qed.

(** The end of a body that emitted [Exited]. *)
Lemma body_end_exited cap pid kill g out evs code reason :
  body_end cap pid kill g out evs -> Event.Exited code reason ∈ evs ->
  exists b1 b2 os_code (cb : outcome unit), g = mkGuard kill false /\
    code = exit_code b1 b2 os_code /\ reason = exit_reason b1 b2 /\
    out = match cb with Val _ => Val (run_result b1 b2) | Panic p => Panic p end.
Proof.
  intros [p evs' chunks Hc Hcap ->|e evs' chunks Hc Hcap ->|b1 b2 c cb evs' chunks Hc Hcap ->] Hin;
    apply elem_of_cons in Hin as [?|Hin]; try done.
  1, 2: by destruct (chunks_no_exited _ _ _ Hc Hin).
  apply elem_of_app in Hin as [Hin|Hin%list_elem_of_singleton].
  - by destruct (chunks_no_exited _ _ _ Hc Hin).
  - simplify_eq. by exists b1, b2, c, cb.
Qed.

(** The end of a body that did not. *)
Lemma body_end_abandoned cap pid kill g out evs :
  body_end cap pid kill g out evs -> existsb is_exited evs = false ->
  g = mkGuard kill true.
Proof.
  intros [p evs' chunks Hc Hcap ->|e evs' chunks Hc Hcap ->|b1 b2 c cb evs' chunks Hc Hcap ->];
    [done|done|].
  simpl. rewrite existsb_app. simpl. by rewrite orb_true_r.
Qed.

#[local] Hint Resolve running_lifecycle running_exited : aer.

(** [pump] only emits chunk events. *)
Lemma pump_owp pid chunk_ch s :
  running true pid s ->
  owp obs_event (pump rust_callback chunk_ch) (lifecycle true) (fun _ s => running true pid s) s.
Proof.
  intros Hs. apply owp_iter with (inv := fun _ s => running true pid s); [|done].
  clear s Hs. intros [] s Hs. unfold pump_round.
  apply owp_silent; [done|by eauto with aer|]. intros [m|].
  - pose proof (running_chunk _ _ m Hs) as Hs'.
    eapply owp_seen with (o := chunk_event m); [done|by eauto with aer..|].
    intros [[]|p]; apply owp_ret; eauto with aer.
  - apply owp_ret; eauto with aer.
Qed.

(** How a wait block ends. *)
Definition code_post (cap : bool) (pid : Z) (c : ctl Z) (s : list Event.t) : Prop :=
  running cap pid s /\
  match c with
  | Early e => cap = false -> exists io, e = AerError.WaitFailed io
  | Go _ | Unwind _ => True
  end.

Lemma wait_discarding_owp pid handle s :
  running false pid s ->
  owp obs_event (wait_discarding handle) (lifecycle false) (code_post false pid) s.
Proof.
  intros Hs. apply owp_bind. intros tr r Hex.
  change (omap obs_event tr) with (events tr).
  rewrite (quiet_events _ _ _ (quiet_wait _ _) Hex).
  rewrite app_nil_r. destruct r as [[[code|e]|p]|]; [| | |by eauto with aer];
    apply owp_ret; eauto with aer; split; try done.
  intros _. by eapply os_wait_err.
Qed.

Lemma wait_capturing_owp pid handle s :
  running true pid s ->
  owp obs_event (wait_capturing rust_callback handle) (lifecycle true) (code_post true pid) s.
Proof.
  intros Hs. unfold wait_capturing.
  apply owp_silent; [done|by eauto with aer|]. intros chunk_ch.
  do 3 (apply owp_silent; [done|by eauto with aer|]; intros _).
  apply owp_silent; [done|by eauto with aer|]. intros wait_ch.
  apply owp_bind, owp_quiet; [|by eauto with aer|].
  { apply quiet_thread_spawn. all_obs_solve ltac:(done). }
  intros t. apply owp_bind.
  apply owp_mono with (Q := code_post true pid).
  - intros c s' Hc. pose proof (running_lifecycle _ _ _ (proj1 Hc)).
    do 2 (apply owp_silent; [done|done|]; intros _). by apply owp_ret.
  - destruct t as [t|p]; [|by apply owp_ret; eauto with aer; split].
    apply owp_bind. eapply owp_mono; [|by apply pump_owp].
    intros [[]|p] s' Hs'; simpl; [|by apply owp_ret; eauto with aer; split].
    apply owp_silent; [done|by eauto with aer|]. intros [result|].
    + apply owp_silent; [done|by eauto with aer|]. intros _.
      destruct result; apply owp_ret; eauto with aer; split; done.
    + apply owp_ret; eauto with aer. split; done.
Qed.

Lemma finish_owp cap pid kill ch timed_out cancel_ch os_code s :
  running cap pid s ->
  owp obs_event
    (finish rust_callback ch {| state := Running |} timed_out cancel_ch os_code) (lifecycle cap)
    (fun out s => body_end cap pid kill (mkGuard kill false) out s) s.
Proof.
  intros Hs. pose proof (running_lifecycle _ _ _ Hs). unfold finish.
  apply owp_bind, owp_quiet; [apply quiet_unwire|done|]. intros _.
  apply owp_silent; [done|done|]. intros _.
  apply owp_silent; [done|done|]. intros b1.
  apply owp_bind, owp_quiet; [all_obs_solve ltac:(done)|done|]. intros b2.
  change (transition {| state := Running |} Exited) with
    ({| state := Exited |}, @Ok unit AerError.t tt). cbv iota beta zeta.
  eapply owp_seen with (o := Event.Exited _ _); [done|done|by eauto with aer|].
  intros r. destruct Hs as (chunks & -> & Hc & Hcap).
  pose proof (end_exited cap pid kill b1 b2 os_code r _ chunks Hc Hcap eq_refl) as Hend.
  destruct r as [[]|p]; apply owp_ret; try by apply life_exited. all: done.
Qed.

Lemma guarded_body_owp task ch handle :
  owp obs_event
    (guarded_body task rust_callback ch Machine.new handle (Guard_new (kill handle)))
    (lifecycle (capture_output task))
    (fun '(g, _, out) s => body_end (capture_output task) (pid handle) (kill handle) g out s) [].
Proof.
  unfold guarded_body. rewrite transition_running.
  set (cap := capture_output task). set (pid := pid handle). set (k := kill handle).
  assert (running cap pid [Event.Started pid]) as Hs by (exists []; auto).
  pose proof (running_lifecycle _ _ _ Hs) as HI.
  eapply owp_seen with (o := Event.Started pid); [done|constructor|done|]. simpl.
  intros [[]|p]; [|apply owp_ret; [done|]; eapply end_panicked_early; eauto].
  apply owp_bind, owp_quiet; [apply quiet_wire|done|]. intros _.
  apply owp_silent; [done|done|]. intros timed_out.
  apply owp_silent; [done|done|]. intros cancel_ch.
  apply owp_bind, owp_quiet; [apply quiet_monitor|done|]. intros m.
  apply owp_bind. eapply owp_mono with
    (Q := fun '(g, _, out) s => body_end cap pid k g out s /\ lifecycle cap s).
  - intros [[g h] out] s [Hend HIs].
    apply owp_bind, owp_quiet; [all_obs_solve ltac:(done)|done|]. intros _.
    apply owp_silent; [done|done|]. intros _. by apply owp_ret.
  - destruct m as [[]|p]; [|apply owp_ret; [done|]; split; [|done]; eapply end_panicked_early; eauto].
    apply owp_bind. eapply owp_mono with (Q := code_post cap pid).
    + intros c s [Hrun Hc]. pose proof (running_lifecycle _ _ _ Hrun) as HIs.
      pose proof Hrun as (chunks & -> & Hch & Hcap).
      destruct c as [os_code|e|p].
      * apply owp_bind. eapply owp_mono; [|by apply finish_owp with (kill := k)].
        intros out s Hend. assert (lifecycle cap s).
        { by eapply body_end_lifecycle. }
        by apply owp_ret.
      * apply owp_ret; [done|]. split; [|done]. eapply end_wait_error; eauto.
      * apply owp_ret; [done|]. split; [|done]. eapply end_panicked_early; eauto.
    + subst cap. destruct (capture_output task);
        [by apply wait_capturing_owp|by apply wait_discarding_owp].
Qed.

(** The stretches of a completed run: spawn, guarded body, guard drop, and the
    drop of the process handle, where the run still has it. *)
Lemma run_impl_parts task ch tr out :
  exec (run_impl task rust_callback ch) tr (Some out) ->
  (exists io, out = Val (Err (AerError.SpawnFailed io)) /\
     exec (os_spawn (program task) (args task) (spawn_options task)) tr
       (Some (Err (AerError.SpawnFailed io)))) \/
  exists handle tr1 tr2 tr3 tr4 g rest,
    tr = tr1 ++ clone_trace (kill handle) ++ tr2 ++ tr3 ++ tr4 /\
    exec (os_spawn (program task) (args task) (spawn_options task)) tr1 (Some (Ok handle)) /\
    exec (guarded_body task rust_callback ch Machine.new handle (Guard_new (kill handle)))
      tr2 (Some (g, rest, out)) /\
    exec (guard_drop g) tr3 (Some tt) /\ exec (drop_handle rest) tr4 (Some tt) /\
    body_end (capture_output task) (pid handle) (kill handle) g out (events tr2) /\
    events tr = events tr2.
Proof.
  intros (spawned & tr1 & tr' & -> & H1 & H)%exec_bind_Some.
  destruct spawned as [handle|e].
  - right. apply exec_bind_Some in H as ([] & trc & tr2 & -> & Hc & H).
    apply exec_bind_Some in H as ([[g rest] out'] & tr3 & tr4 & -> & H2 & H).
    apply exec_bind_Some in H as ([] & tr5 & tr6 & -> & H3 & H).
    apply exec_bind_Some in H as ([] & tr7 & tr8 & -> & H4 & H). exec_inv_step H.
    exists handle, tr1, tr3, tr5, tr7, g, rest. rewrite app_nil_r. split_and!; try done.
    + by apply kill_clone_exec in Hc as ->.
    + exact (guarded_body_owp _ _ _ _ _ H2).
    + rewrite !events_app. rewrite (quiet_events _ _ _ (quiet_spawn _ _ _) H1).
      rewrite (quiet_events _ _ _ (quiet_kill_clone _) Hc).
      rewrite (quiet_events _ _ _ (quiet_guard_drop _) H3).
      by rewrite (quiet_events _ _ _ (quiet_drop_handle _) H4), !app_nil_r.
  - left. exec_inv_step H. destruct (os_spawn_err _ _ _ _ _ H1) as [io ->].
    exists io. by rewrite app_nil_r.
Qed.

(** The events of a run that returned [Ok]. *)
Lemma run_ok_events task ch tr :
  exec (run_impl task rust_callback ch) tr (Some (Val (Ok tt))) ->
  exists pid chunks code,
    events tr = Event.Started pid :: chunks ++ [Event.Exited code ExitReason.NaturalExit] /\
    Forall (fun e => Event.is_chunk e = true) chunks /\ (capture_output task = false -> chunks = []).
Proof.
  intros [(io & ? & Hs)|(handle & tr1 & tr2 & tr3 & tr4 & g & rest & Htr & H1 & H2 & H3 & H4 & Hend & ->)]%run_impl_parts;
    [done|].
  inversion Hend as [| |b1 b2 os_code cb evs chunks Hc Hcap E Hg Hcb Hevs].
  destruct cb; simplify_eq/=. destruct b1, b2; simplify_eq/=. rewrite E. eauto 6.
Qed.

(** What a run without capture has shown when it returns a given result. *)
Definition result_shown (r : Result unit AerError.t) (evs : list Event.t) : Prop :=
  match r with
  | Ok _ => exists pid code, evs = [Event.Started pid; Event.Exited code ExitReason.NaturalExit]
  | Err AerError.TimedOut =>
      exists pid, evs = [Event.Started pid; Event.Exited (-1) ExitReason.TimedOut]
  | Err AerError.Cancelled =>
      exists pid, evs = [Event.Started pid; Event.Exited (-1) ExitReason.CancelRequested]
  | Err (AerError.WaitFailed _) => exists pid, evs = [Event.Started pid]
  | Err (AerError.SpawnFailed _) => evs = []
  | Err (AerError.InvalidStateTransition _ _) | Err (AerError.KillFailed _) => False
  end.

Lemma run_result_shown task ch tr r :
  capture_output task = false ->
  exec (run_impl task rust_callback ch) tr (Some (Val r)) -> result_shown r (events tr).
Proof.
  intros Hcap [(io & [= ->] & Hs)|(handle & tr1 & tr2 & tr3 & tr4 & g & rest & Htr & H1 & H2 & H3 & H4 & Hend & ->)]%run_impl_parts.
  { exact (quiet_events _ _ _ (quiet_spawn _ _ _) Hs). }
  inversion Hend as [| e evs chunks Hc Hw E Hg Hr Hevs|b1 b2 os_code cb evs chunks Hc Hch E Hg Hcb Hevs].
  - destruct (Hw Hcap) as [-> [io ->]]. rewrite E. by exists (pid handle).
  - rewrite E, (Hch Hcap). destruct cb; simplify_eq/=. destruct b1, b2; simpl; eauto.
Qed.

(** ** Properties *)

(** C18: At every moment of a run, what the callback has been given is: nothing;
    or [Started] and then chunk events only, none of them without capture;
    or the same closed by a single [Exited], after which nothing comes. *)
Theorem run_lifecycle task ch tr r :
  exec (run_impl task rust_callback ch) tr r -> lifecycle (capture_output task) (events tr).
Proof.
  intros Hex. cut (owp obs_event (run_impl task rust_callback ch)
    (lifecycle (capture_output task)) (fun _ => lifecycle (capture_output task)) []).
  { intros Hw. specialize (Hw _ _ Hex). by destruct r. }
  apply owp_bind, owp_quiet; [apply quiet_spawn|constructor|]. intros [handle|e].
  - apply owp_bind, owp_quiet; [apply quiet_kill_clone|constructor|]. intros _.
    apply owp_bind. eapply owp_mono; [|apply guarded_body_owp].
    intros [[g h] out] s Hend. assert (lifecycle (capture_output task) s).
    { by eapply body_end_lifecycle. }
    apply owp_bind, owp_quiet; [apply quiet_guard_drop|done|]. intros _.
    apply owp_bind, owp_quiet; [apply quiet_drop_handle|done|]. intros _. by apply owp_ret.
  - apply owp_ret; constructor.
Qed.

(** A completed run shows no event exactly when the system refused the
    spawn; the run is then that spawn and nothing else, and its error is
    returned. *)
Theorem run_without_events task ch tr out :
  exec (run_impl task rust_callback ch) tr (Some out) ->
  (events tr = [] <->
   exists io, out = Val (Err (AerError.SpawnFailed io)) /\
     exec (os_spawn (program task) (args task) (spawn_options task)) tr
       (Some (Err (AerError.SpawnFailed io)))).
Proof.
  intros [?|(handle & tr1 & tr2 & tr3 & tr4 & g & rest & Htr & H1 & H2 & H3 & H4 & Hend & Hev)]%run_impl_parts.
  - split; [done|]. intros (io & -> & Hs). by eapply quiet_events; [apply quiet_spawn|].
  - rewrite Hev. split.
    { by destruct (body_end_started _ _ _ _ _ _ Hend) as [? ->]. }
    intros (io & -> & Hs). rewrite <- Hev. by eapply quiet_events; [apply quiet_spawn|].
Qed.

(** C21: When [Exited] was emitted, its reason, its code and the result of the
    run agree: [TimedOut] and [CancelRequested] come with code -1 and their
    errors, [NaturalExit] with [Ok]; the one other way out is a panic of the
    callback on [Exited] itself. *)
Theorem run_exited_result task ch tr out code reason :
  exec (run_impl task rust_callback ch) tr (Some out) ->
  Event.Exited code reason ∈ events tr ->
  match reason with
  | ExitReason.NaturalExit => out = Val (Ok tt)
  | ExitReason.TimedOut => code = -1 /\ out = Val (Err AerError.TimedOut)
  | ExitReason.CancelRequested => code = -1 /\ out = Val (Err AerError.Cancelled)
  end \/ exists p, out = Panic p.
Proof.
  intros [(io & -> & Hs)|(handle & tr1 & tr2 & tr3 & tr4 & g & rest & Htr & H1 & H2 & H3 & H4 & Hend & Hev)]%run_impl_parts
    Hin.
  { rewrite (quiet_events _ _ _ (quiet_spawn _ _ _) Hs) in Hin. by apply elem_of_nil in Hin. }
  rewrite Hev in Hin.
  destruct (body_end_exited _ _ _ _ _ _ _ _ Hend Hin) as (b1 & b2 & c & cb & -> & -> & -> & ->).
  destruct cb as [[]|p]; [left; by destruct b1, b2|by right; eexists].
Qed.

(** No run returns [Ok] without [Exited] with reason [NaturalExit] as its
    last event. *)
Theorem run_ok_exited task ch tr :
  exec (run_impl task rust_callback ch) tr (Some (Val (Ok tt))) ->
  exists pid chunks code,
    events tr = Event.Started pid :: chunks ++ [Event.Exited code ExitReason.NaturalExit].
Proof. intros (pid & chunks & code & E & _)%run_ok_events. by exists pid, chunks, code. Qed.

(** C20: A run that started and ended without emitting [Exited] (a panic of the
    callback, a wait error) ends with the kill of the tree it spawned, with
    zero grace, and the reaping of its root. *)
Theorem run_abandoned_killed task ch tr out pid evs :
  exec (run_impl task rust_callback ch) tr (Some out) ->
  events tr = Event.Started pid :: evs ->
  existsb is_exited evs = false ->
  exists handle tr1 tr2 tr3 tr4 tr5 r, tr = tr1 ++ tr2 ++ tr3 ++ tr4 ++ tr5 /\
    exec (os_spawn (program task) (args task) (spawn_options task)) tr1 (Some (Ok handle)) /\
    exec (os_kill_escalating (kill handle) 0) tr3 (Some r) /\
    exec (os_reap_abandoned (kill handle)) tr4 (Some tt) /\ Forall arc_obs tr5.
Proof.
  intros [(io & -> & Hs)|(handle & tr1 & tr2 & tr3 & tr4 & g & rest & Htr & H1 & H2 & H3 & H4 & Hend & Hev)]%run_impl_parts
    Hst Hne.
  { by rewrite (quiet_events _ _ _ (quiet_spawn _ _ _) Hs) in Hst. }
  assert (g = mkGuard (kill handle) true) as ->.
  { eapply body_end_abandoned; [done|]. rewrite <- Hev, Hst. exact Hne. }
  apply exec_bind_Some in H3 as ([] & tr5 & tr6 & -> & H3 & H5).
  simpl in H3. apply exec_bind_Some in H3 as ([] & tr7 & tr8 & -> & _ & H3).
  apply exec_bind_Some in H3 as (r & tr9 & tr10 & -> & H3 & H6).
  exists handle, tr1, (clone_trace (kill handle) ++ tr2 ++ tr7), tr9, tr10, (tr6 ++ tr4), r.
  split_and!; try done; [by rewrite Htr, <- !app_assoc|].
  apply Forall_app. split; [exact (kill_drop_arc _ _ _ H5)|exact (drop_handle_arc _ _ _ H4)].
Qed.

(** Once [Exited] was emitted the guard is disarmed: nothing is done to the
    process any more, not even when the callback panics on [Exited], but to
    drop what the run holds. *)
Theorem run_exited_guard_off task ch tr out code reason :
  exec (run_impl task rust_callback ch) tr (Some out) ->
  Event.Exited code reason ∈ events tr ->
  exists handle tr1 tr2 tr3 g rest, tr = tr1 ++ clone_trace (kill handle) ++ tr2 ++ tr3 /\
    exec (os_spawn (program task) (args task) (spawn_options task)) tr1 (Some (Ok handle)) /\
    exec (guarded_body task rust_callback ch Machine.new handle (Guard_new (kill handle)))
      tr2 (Some (g, rest, out)) /\ armed g = false /\ Forall arc_obs tr3.
Proof.
  intros [(io & -> & Hs)|(handle & tr1 & tr2 & tr3 & tr4 & g & rest & Htr & H1 & H2 & H3 & H4 & Hend & Hev)]%run_impl_parts
    Hin.
  { rewrite (quiet_events _ _ _ (quiet_spawn _ _ _) Hs) in Hin. by apply elem_of_nil in Hin. }
  rewrite Hev in Hin.
  destruct (body_end_exited _ _ _ _ _ _ _ _ Hend Hin) as (b1 & b2 & c & cb & -> & _).
  exists handle, tr1, tr2, (tr3 ++ tr4), (mkGuard (kill handle) false), rest.
  split_and!; try done. apply Forall_app. split; [exact (kill_drop_arc _ _ _ H3)|].
  exact (drop_handle_arc _ _ _ H4).
Qed.
End Lifecycle.
