(* ===== verification/Closure.v ===== *)
(** * Runs with a given closure (src/src/task.rs)

    [run_impl] over a callback that is one step with an arbitrary answer
    ([rust_callback]) against [run_impl] over the code of a closure: the second
    refines the first, so what is proved of the events of a run holds of the
    calls of the closure. *)

From Stdlib Require Import ZArith.
From stdpp Require Import base numbers list strings gmap.
From S2P Require Import Prelude Core Machine Sys Prog Os Task Run Lifecycle.

Open Scope Z_scope.

(** What a callback unwound with. *)
Definition callback_panic (o : obs) : option payload :=
  match o with
  | Obs e x =>
      match e in act X return X -> option payload with
      | Callback _ => fun x => match x with Val _ => None | Panic q => Some q end
      | _ => fun _ => None
      end x
  | ObsFork _ _ => None
  end.

Section Closure.
Context (on_event : Event.t -> prog (outcome unit)).

(** ** Traces with the calls of the closure in place of the callback steps *)

Inductive expands : list obs -> list obs -> Prop :=
  | expands_nil : expands [] []
  | expands_step o tr tr' :
      obs_event o = None -> expands tr tr' -> expands (o :: tr) (o :: tr')
  | expands_call ev x call tr tr' :
      exec (on_event ev) call (Some x) -> expands tr tr' ->
      expands (Obs (Callback ev) x :: tr) (call ++ tr').

(** A cut run may be inside a call, of which [q] has yet to make the step. *)
Definition inside {A} (q : prog A) (tr call : list obs) : Prop :=
  call = [] \/
  exists ev, exec (on_event ev) call None /\ forall x, exec q (tr ++ [Obs (Callback ev) x]) None.

Definition answers_to {A} (q : prog A) (tr tr' : list obs) (r : option A) : Prop :=
  exec q tr r /\
  match r with
  | Some _ => expands tr tr'
  | None => exists tr1' call, tr' = tr1' ++ call /\ expands tr tr1' /\ inside q tr call
  end.

(** Every run of [p] is one of [q], the callback steps expanded. *)
Definition refines {A} (p q : prog A) : Prop :=
  forall tr' r, exec p tr' r -> exists tr, answers_to q tr tr' r.

(** ** Lemmas *)

Lemma expands_app tr1 tr1' tr2 tr2' :
  expands tr1 tr1' -> expands tr2 tr2' -> expands (tr1 ++ tr2) (tr1' ++ tr2').
Proof.
  intros H1 H2. induction H1 as [|o tr tr' Ho _ IH|ev x call tr tr' Hc _ IH]; [done| |].
  - by apply expands_step.
  - rewrite <- app_assoc. by apply (expands_call ev x).
Qed.

Lemma expands_quiet tr : Forall (fun o => obs_event o = None) tr -> expands tr tr.
Proof. induction 1; [constructor|by apply expands_step]. Qed.

Lemma expands_app_inv tr1 tr2 tr' :
  expands (tr1 ++ tr2) tr' ->
  exists tr1' tr2', tr' = tr1' ++ tr2' /\ expands tr1 tr1' /\ expands tr2 tr2'.
Proof.
  revert tr'. induction tr1 as [|o tr1 IH]; intros tr' H.
  - exists [], tr'. split_and!; [done|constructor|done].
  - inversion H as [|o' tr tr2' Ho Htr|ev x call tr tr2' Hc Htr]; simplify_eq/=;
      destruct (IH _ Htr) as (tr1' & tr3' & -> & H1 & H2).
    + exists (o :: tr1'), tr3'. split_and!; [done|by apply expands_step|done].
    + exists (call ++ tr1'), tr3'. rewrite app_assoc. split_and!; [done|by apply expands_call|done].
Qed.

(** A silent stretch is expanded as it is. *)
Lemma expands_quiet_inv tr tr' :
  Forall (fun o => obs_event o = None) tr -> expands tr tr' -> tr' = tr.
Proof.
  intros Hq H. induction H as [|o tr tr' Ho _ IH|ev x call tr tr' Hc _ IH]; [done| |].
  - apply Forall_cons in Hq as [_ Hq]. by rewrite IH.
  - by apply Forall_cons in Hq as [? _].
Qed.

Lemma expands_elem tr tr' o : expands tr tr' -> o ∈ tr -> obs_event o = None -> o ∈ tr'.
Proof.
  intros H. induction H as [|o' tr tr' Ho _ IH|ev x call tr tr' Hc _ IH]; [done| |].
  - intros [->|Hin]%elem_of_cons Hq; [by left|right; by apply IH].
  - intros [->|Hin]%elem_of_cons Hq; [done|]. apply elem_of_app. right. by apply IH.
Qed.

(** What is seen of an expanded trace in which no call unwound. *)
Lemma expands_omap {E} (f : obs -> option E) (seen : Event.t -> list E) tr tr' :
  (forall ev call u, exec (on_event ev) call (Some (Val u)) -> omap f call = seen ev) ->
  (forall o, o ∈ tr -> obs_event o = None -> f o = None) ->
  omap callback_panic tr = [] -> expands tr tr' -> omap f tr' = events tr ≫= seen.
Proof.
  intros Hs Hq Hv H. induction H as [|o tr tr' Ho _ IH|ev x call tr tr' Hc _ IH]; [done| |].
  - rewrite omap_cons, (Hq o) by (done || by left). simpl. unfold events. simpl. rewrite Ho.
    rewrite omap_cons in Hv. apply app_nil in Hv as [_ Hv].
    apply IH; [|done]. intros o' Ho'. apply Hq. by right.
  - rewrite omap_cons in Hv. apply app_nil in Hv as [Hx Hv]. destruct x as [u|q]; [|done].
    rewrite omap_app, (Hs _ _ _ Hc), IH; [done| |done]. intros o' Ho'. apply Hq. by right.
Qed.

(** What the closure does not do is seen as it was. *)
Lemma expands_omap_same {E} (f : obs -> option E) tr tr' :
  (forall ev, all_obs (fun o => f o = None) (on_event ev)) ->
  (forall ev x, f (Obs (Callback ev) x) = None) ->
  expands tr tr' -> omap f tr' = omap f tr.
Proof.
  intros Hs Hcb H. induction H as [|o tr tr' Ho _ IH|ev x call tr tr' Hc _ IH]; [done| |].
  - by rewrite !omap_cons, IH.
  - rewrite omap_app, omap_cons, Hcb, IH. simpl. rewrite omap_none; [done|].
    intros o Ho. exact (proj1 (Forall_forall _ _) (Hs ev _ _ Hc) o Ho).
Qed.

Lemma expands_Forall (P Q : obs -> Prop) tr tr' :
  (forall o, P o -> obs_event o = None -> Q o) ->
  (forall ev, all_obs Q (on_event ev)) ->
  Forall P tr -> expands tr tr' -> Forall Q tr'.
Proof.
  intros Hp Hc Htr H. induction H as [|o tr tr' Ho _ IH|ev x call tr tr' Hx _ IH]; [done| |];
    apply Forall_cons in Htr as [Ho' Htr].
  - constructor; [by apply Hp|by apply IH].
  - apply Forall_app. split; [exact (Hc _ _ _ Hx)|by apply IH].
Qed.

(** *** Refinement by the structure of the code *)

Lemma refines_quiet {A} (p : prog A) : all_obs (fun o => obs_event o = None) p -> refines p p.
Proof.
  intros Hp tr r Hex. exists tr. split; [done|]. pose proof (expands_quiet _ (Hp _ _ Hex)) as He.
  destruct r; [done|]. exists tr, []. rewrite app_nil_r. split_and!; [done|done|by left].
Qed.

Lemma refines_call ev : refines (on_event ev) (rust_callback ev).
Proof.
  intros tr' [x|] Hex.
  - exists [Obs (Callback ev) x]. split; [by apply exec_do_act_Some|].
    rewrite <- (app_nil_r tr'). by apply expands_call, expands_nil.
  - exists []. split; [apply exec_nil|]. exists [], tr'. split_and!; [done|constructor|].
    right. exists ev. split; [done|]. intros x. right. exists x, []. split; [done|]. split; [done|by left].
Qed.

Lemma exec_bind_cut {A B} (p : prog A) (f : A -> prog B) tr :
  exec p tr None -> exec (bind p f) tr None.
Proof.
  revert tr. induction p as [A a|A X e k IH|A body _ k IH|A I R body IHb i k IH]; intros tr.
  - intros [-> _]. apply exec_nil.
  - intros [[-> _]|(x & tr' & -> & Hex)]; [by left|]. right. exists x, tr'. split; [done|by apply IH].
  - intros [[-> _]|(x & tr' & -> & Hex)]; [by left|]. right. exists x, tr'. split; [done|by apply IH].
  - intros Hex. remember None as r eqn:Er in Hex. induction Hex as [i tr Hb|i i' tr tr' r Hb _ IHi|i x tr tr' r Hb Hc].
    + by apply iter_exec_cut.
    + eapply iter_exec_next; [done|]. by apply IHi.
    + subst. eapply iter_exec_done; [done|]. by apply IH.
Qed.

Lemma refines_bind {A B} (p q : prog A) (f g : A -> prog B) :
  refines p q -> (forall a, refines (f a) (g a)) -> refines (bind p f) (bind q g).
Proof.
  intros Hp Hf tr' r [[-> Hex]|(a & tr1' & tr2' & -> & Hex & Hk)]%exec_bind_inv.
  - destruct (Hp _ _ Hex) as (tr & Hq & t & call & -> & He & Hin). exists tr.
    split; [by apply exec_bind_cut|]. exists t, call. split_and!; [done|done|].
    destruct Hin as [?|(ev & Hc & Hx)]; [by left|right]. exists ev. split; [done|].
    intros x. apply exec_bind_cut, Hx.
  - destruct (Hp _ _ Hex) as (tr1 & Hq & He1). destruct (Hf a _ _ Hk) as (tr2 & Hg & He2).
    exists (tr1 ++ tr2). split; [by eapply exec_bind|]. destruct r as [b|]; [by apply expands_app|].
    destruct He2 as (t & call & -> & He & Hin). exists (tr1' ++ t), call.
    split_and!; [by rewrite app_assoc|by apply expands_app|].
    destruct Hin as [?|(ev & Hc & Hx)]; [by left|right]. exists ev. split; [done|].
    intros x. rewrite <- app_assoc. eapply exec_bind; [exact Hq|apply Hx].
Qed.

Lemma refines_iter {I R} (body body' : I -> prog (I + R)) i :
  (forall i, refines (body i) (body' i)) -> refines (iter body i) (iter body' i).
Proof.
  intros Hb tr' r Hex. unfold iter in Hex |- *.
  induction Hex as [i tr' Hc|i i' t1 t2 r Hn _ IH|i x t1 t2 r Hd Hc].
  - destruct (Hb i _ _ Hc) as (tr & Hq & t & call & -> & He & Hin). exists tr.
    split; [by apply iter_exec_cut|]. exists t, call. split_and!; [done|done|].
    destruct Hin as [?|(ev & Hx & Hin)]; [by left|right]. exists ev. split; [done|].
    intros y. apply iter_exec_cut, Hin.
  - destruct (Hb i _ _ Hn) as (tr1 & Hq & He1). destruct IH as (tr2 & Hg & He2).
    exists (tr1 ++ tr2). split; [by eapply iter_exec_next|].
    destruct r as [b|]; [by apply expands_app|].
    destruct He2 as (t & call & -> & He & Hin). exists (t1 ++ t), call.
    split_and!; [by rewrite app_assoc|by apply expands_app|].
    destruct Hin as [?|(ev & Hx & Hin)]; [by left|right]. exists ev. split; [done|].
    intros y. rewrite <- app_assoc. eapply iter_exec_next; [done|apply Hin].
  - destruct (Hb i _ _ Hd) as (tr1 & Hq & He1). destruct Hc as [-> Hr].
    exists (tr1 ++ []). split; [by eapply iter_exec_done|]. rewrite !app_nil_r.
    destruct Hr as [-> | ->]; [|done]. exists t1, []. rewrite app_nil_r. split_and!; [done|done|by left].
Qed.

Lemma refines_ret {A} (a : A) : refines (Ret a) (Ret a).
Proof. apply refines_quiet, all_obs_ret. Qed.

(** ** The blocks of a run *)

Section Run.
Context `{P : OsProcess} {L : OsProcessLaws P}.
#[local] Hint Resolve quiet_spawn quiet_wait quiet_wire quiet_monitor quiet_unwire
  quiet_guard_drop quiet_drop_handle : aer.

#[local] Ltac refine_step :=
  match goal with
  | |- refines (Ret _) (Ret _) => apply refines_ret
  | |- refines (on_event _) (rust_callback _) => apply refines_call
  | |- refines (thread_spawn _ _) _ =>
      apply refines_quiet, quiet_thread_spawn; all_obs_solve ltac:(done)
  | |- refines ?p ?p => apply refines_quiet; all_obs_solve ltac:(done)
  | |- refines (bind _ _) (bind _ _) => apply refines_bind; [|intros]
  | |- refines (iter _ _) (iter _ _) => apply refines_iter; intros
  | |- refines (match ?x with _ => _ end) _ => destruct x
  end.

Lemma refines_capturing handle :
  refines (wait_capturing on_event handle) (wait_capturing rust_callback handle).
Proof using L.
  unfold wait_capturing, pump, pump_round. repeat refine_step.
Qed.

Lemma refines_discarding handle : refines (wait_discarding handle) (wait_discarding handle).
Proof using L. unfold wait_discarding. repeat refine_step. Qed.

Lemma refines_finish ch machine timed_out cancel_ch os_code :
  refines (finish on_event ch machine timed_out cancel_ch os_code)
    (finish rust_callback ch machine timed_out cancel_ch os_code).
Proof using L. unfold finish. repeat refine_step. Qed.

Lemma refines_run task ch : refines (run_impl task on_event ch) (run_impl task rust_callback ch).
Proof using L.
  unfold run_impl, guarded_body.
  repeat first [apply refines_capturing | apply refines_discarding | apply refines_finish | refine_step].
Qed.

(** A completed run. *)
Lemma closure_run task ch tr' out :
  exec (run_impl task on_event ch) tr' (Some out) ->
  exists tr, exec (run_impl task rust_callback ch) tr (Some out) /\ expands tr tr'.
Proof using L. intros Hex. by destruct (refines_run _ _ _ _ Hex) as (tr & Hq & He); exists tr. Qed.
End Run.
End Closure.

(** ** The crate's own steps *)

(** Nothing that only an application does. *)
Definition crate_obs (o : obs) : Prop :=
  match o with
  | Obs e _ =>
      match e with
      | Print _ | NewVec | Extend _ _ | Contents _ => False
      | _ => True
      end
  | ObsFork _ _ => True
  end.

Section Crate.
Context `{P : OsProcess} {L : OsProcessLaws P}.

Lemma crate_os {A} (p : prog A) : all_obs os_obs p -> all_obs crate_obs p.
Proof. apply all_obs_impl. intros o. destruct o as [X e x|]; [|done]. by destruct e. Qed.

Lemma crate_spawn pr ar op : all_obs crate_obs (os_spawn pr ar op).
Proof. apply crate_os, os_spawn_obs. Qed.
Lemma crate_wait handle sinks : all_obs crate_obs (os_wait handle sinks).
Proof. apply crate_os, os_wait_obs. Qed.
Lemma crate_kill kill grace : all_obs crate_obs (os_kill_escalating kill grace).
Proof. apply crate_os, os_kill_obs. Qed.
Lemma crate_alive kill : all_obs crate_obs (os_tree_alive kill).
Proof. apply crate_os, os_alive_obs. Qed.
Lemma crate_reap kill : all_obs crate_obs (os_reap_abandoned kill).
Proof. apply crate_os, os_reap_obs. Qed.
#[local] Hint Resolve crate_spawn crate_wait crate_kill crate_alive crate_reap : aer.

Lemma crate_run task ch : all_obs crate_obs (run_impl task rust_callback ch).
Proof.
  unfold run_impl, guarded_body, wire_cancel, start_monitor, wait_capturing, wait_discarding, finish,
    unwire_cancel, set_kill, guard_drop, drop_handle, pump, pump_round, thread_spawn, rust_callback.
  all_obs_solve ltac:(done).
Qed.

(** A run that did not unwind had no call that did. *)
#[local] Abbreviation calm := (all_obs (fun o => callback_panic o = None)).

Lemma calm_quiet {A} (p : prog A) : all_obs (fun o => obs_event o = None) p -> calm p.
Proof.
  apply all_obs_impl. intros o. destruct o as [X e x|]; [|done]. by destruct e.
Qed.

Definition unwinds {A} (a : outcome A) (s : list payload) : Prop :=
  match a with
  | Val _ => s = []
  | Panic _ => True
  end.

Lemma rust_callback_unwinds ev :
  owp callback_panic (rust_callback ev) (fun _ => True) unwinds [].
Proof.
  intros tr [x|] Hex; [|done]. apply exec_do_act_Some in Hex as ->. by destruct x.
Qed.

Lemma pump_unwinds chunk_ch :
  owp callback_panic (pump rust_callback chunk_ch) (fun _ => True) unwinds [].
Proof.
  apply owp_iter with (inv := fun _ s => s = []); [|done]. intros [] s ->. unfold pump_round.
  apply owp_silent; [done|done|]. intros [m|]; [|by apply owp_ret].
  apply owp_bind. eapply owp_mono; [|apply rust_callback_unwinds].
  intros [u|q] s Hs; simpl in Hs; subst; by apply owp_ret.
Qed.

#[local] Hint Resolve quiet_spawn quiet_wait quiet_wire quiet_monitor quiet_unwire
  quiet_guard_drop quiet_drop_handle : aer.
#[local] Ltac calm_block := first
  [ apply calm_quiet; eauto with aer; fail
  | apply calm_quiet; all_obs_solve ltac:(done); fail
  | apply calm_quiet, quiet_thread_spawn; all_obs_solve ltac:(done) ].
(** A block that calls no callback. *)
#[local] Ltac skip_block := apply owp_bind, owp_quiet; [calm_block|done|].

Lemma wait_unwinds task handle :
  owp callback_panic (if capture_output task then wait_capturing rust_callback handle
    else wait_discarding handle) (fun _ => True)
    (fun c s => match c with Unwind _ => True | _ => s = [] end) [].
Proof using L.
  destruct (capture_output task).
  - unfold wait_capturing. skip_block. intros chunk_ch. do 3 (skip_block; intros _).
    skip_block. intros wait_ch. skip_block. intros t.
    apply owp_bind. apply owp_mono with (Q := fun c s => match c with Unwind _ => True | _ => s = [] end).
    { intros c s Hs. do 2 (apply owp_silent; [done|done|intros _]). by apply owp_ret. }
    destruct t as [t|q]; [|by apply owp_ret]. apply owp_bind. eapply owp_mono; [|apply pump_unwinds].
    intros [u|q] s Hs; simpl in Hs; subst; [|by apply owp_ret].
    apply owp_silent; [done|done|]. intros [[c|e]|]; [| |by apply owp_ret].
    all: apply owp_silent; [done|done|intros _]; by apply owp_ret.
  - apply owp_quiet; [apply calm_quiet|done|by intros []].
    unfold wait_discarding. all_obs_solve ltac:(done).
Qed.

Lemma finish_unwinds ch machine timed_out cancel_ch os_code :
  owp callback_panic (finish rust_callback ch machine timed_out cancel_ch os_code) (fun _ => True)
    unwinds [].
Proof using L.
  unfold finish. skip_block. intros _. skip_block. intros _. skip_block. intros b1. skip_block. intros b2.
  destruct (transition machine Exited) as [m' []]; [|by apply owp_ret].
  apply owp_bind. eapply owp_mono; [|apply rust_callback_unwinds].
  intros [u|q] s Hs; simpl in Hs; subst; by apply owp_ret.
Qed.

Lemma guarded_body_unwinds task ch machine handle guard :
  owp callback_panic (guarded_body task rust_callback ch machine handle guard) (fun _ => True)
    (fun o s => unwinds o.2 s) [].
Proof using L.
  unfold guarded_body. destruct (transition machine Running) as [m' []]; [|by apply owp_ret].
  apply owp_bind. eapply owp_mono; [|apply rust_callback_unwinds].
  intros [u|q] s Hs; simpl in Hs; subst; [|by apply owp_ret].
  skip_block. intros _. skip_block. intros timed_out. skip_block. intros cancel_ch. skip_block. intros m.
  apply owp_bind. apply owp_mono with (Q := fun o s => unwinds o.2 s).
  { intros o s Hs. apply owp_bind, owp_quiet; [calm_block|done|intros _].
    apply owp_silent; [done|done|intros _]. by apply owp_ret. }
  destruct m as [m|q]; [|by apply owp_ret]. apply owp_bind. eapply owp_mono; [|apply wait_unwinds].
  intros [code|e|q] s Hs; simpl in Hs; subst; [|by apply owp_ret..].
  apply owp_bind. eapply owp_mono; [|apply finish_unwinds].
  intros o s Hs. by apply owp_ret.
Qed.

Lemma run_no_panic task ch tr r :
  exec (run_impl task rust_callback ch) tr (Some (Val r)) -> omap callback_panic tr = [].
Proof using L.
  intros Hex. cut (owp callback_panic (run_impl task rust_callback ch) (fun _ => True) unwinds []).
  { intros Hw. exact (Hw _ _ Hex). }
  unfold run_impl. skip_block. intros [handle|e]; [|by apply owp_ret]. skip_block. intros _.
  apply owp_bind. eapply owp_mono; [|apply guarded_body_unwinds]. intros [[g h] o] s Hs.
  do 2 (skip_block; intros _). by apply owp_ret.
Qed.
End Crate.
