(* ===== verification/Exit.v ===== *)
(** * How a run ends (properties of src/src/task.rs, with os/unix.rs)

    The stretches of a run that got as far as [Exited]: what was waited for,
    where the reported code comes from, and that the process tree was killed
    before [Exited] was emitted. *)

From Stdlib Require Import ZArith.
From stdpp Require Import base numbers list strings gmap.
From S2P Require Import Prelude Core Machine Sys Prog Os Unix Task Run Caller Blocks Lifecycle.

Open Scope Z_scope.

Section Exit.
Context `{P : OsProcess} {L : OsProcessLaws P}.

(** A body that disarmed its guard went through the wait block and the end. *)
Lemma guarded_body_finished task ch handle tr g rest out :
  exec (guarded_body task rust_callback ch Machine.new handle (Guard_new (kill handle))) tr
    (Some (g, rest, out)) ->
  armed g = false ->
  exists timed_out cancel_ch os_code tr1 trc trf tr3,
    tr = tr1 ++ trc ++ trf ++ tr3 /\
    exec (obtain rust_callback task handle) trc (Some (Go os_code)) /\
    exec (finish rust_callback ch {| state := Running |} timed_out cancel_ch os_code) trf (Some out).
Proof.
  unfold guarded_body. rewrite transition_running. intros Hex Hg.
  apply exec_act_Some in Hex as (x & tr1 & -> & Hex).
  destruct x as [[]|p]; [|apply exec_ret_Some in Hex as [_ ?]; by simplify_eq].
  apply exec_bind_Some in Hex as ([] & tr2 & tr3 & -> & _ & Hex).
  do 2 (apply exec_act_Some in Hex as (? & ? & -> & Hex)).
  apply exec_bind_Some in Hex as (m & tr4 & tr5 & -> & _ & Hex).
  apply exec_bind_Some in Hex as ([[g' rest'] out'] & tr6 & tr7 & -> & Hres & Hex).
  apply exec_bind_Some in Hex as (? & tr8 & tr9 & -> & _ & Hex).
  apply exec_act_Some in Hex as (? & ? & -> & Hex). apply exec_ret_Some in Hex as [-> [= <- <- <-]].
  destruct m as [[]|p]; [|apply exec_ret_Some in Hres as [_ ?]; by simplify_eq].
  apply exec_bind_Some in Hres as (code & trc & trf & -> & Hc & Hres).
  destruct code as [os_code|e|p]; [|apply exec_ret_Some in Hres as [_ ?]; by simplify_eq..].
  apply exec_bind_Some in Hres as (out' & trf' & tre & -> & Hf & Hres).
  apply exec_ret_Some in Hres as [-> ?]. simplify_eq. rewrite app_nil_r.
  eexists x, x1, os_code, (_ :: tr2 ++ _ :: _ :: tr4), trc, trf', _.
  split_and!; [|exact Hc|exact Hf].
  rewrite <- !app_assoc. simpl. rewrite <- !app_assoc. reflexivity.
Qed.

(** A run that emitted [Exited], from the spawn to the end. *)
Lemma run_exited_parts task ch tr out code reason :
  exec (run_impl task rust_callback ch) tr (Some out) ->
  Event.Exited code reason ∈ events tr ->
  exists handle timed_out cancel_ch os_code tr0 tr1 trc trf tr3,
    tr = (tr0 ++ tr1) ++ trc ++ trf ++ tr3 /\
    exec (os_spawn (program task) (args task) (spawn_options task)) tr0 (Some (Ok handle)) /\
    exec (obtain rust_callback task handle) trc (Some (Go os_code)) /\
    exec (finish rust_callback ch {| state := Running |} timed_out cancel_ch os_code) trf (Some out) /\
    lifecycle (capture_output task) (events tr) /\
    exists evs, events tr = Event.Started (pid handle) :: evs.
Proof.
  intros [(io & -> & Hs)|(handle & tr0 & tr2 & tr3 & tr4 & g & rest & -> & H1 & H2 & H3 & H4 & Hend & Hev)]%run_impl_parts
    Hin.
  { rewrite (quiet_events _ _ _ (quiet_spawn _ _ _) Hs) in Hin. by apply elem_of_nil in Hin. }
  rewrite Hev in *. pose proof (body_end_lifecycle _ _ _ _ _ _ Hend) as Hlife.
  pose proof (body_end_started _ _ _ _ _ _ Hend) as Hstart.
  destruct (body_end_exited _ _ _ _ _ _ _ _ Hend Hin) as (b1 & b2 & c & cb & -> & _).
  destruct (guarded_body_finished _ _ _ _ _ _ _ H2 eq_refl)
    as (timed_out & cancel_ch & os_code & tr1 & trc & trf & tre & -> & Hc & Hf).
  eexists handle, timed_out, cancel_ch, os_code, tr0, (clone_trace (kill handle) ++ tr1), trc, trf,
    (tre ++ tr3 ++ tr4).
  split_and!; try done. by rewrite <- !app_assoc.
Qed.

(** The event at the end of a finish. *)
Lemma finish_event ch timed_out cancel_ch os_code trf out :
  exec (finish rust_callback ch {| state := Running |} timed_out cancel_ch os_code) trf (Some out) ->
  exists b1 b2 cb trf', trf = trf' ++
      [Obs (Callback (Event.Exited (exit_code b1 b2 os_code) (exit_reason b1 b2))) cb] /\
    events trf = [Event.Exited (exit_code b1 b2 os_code) (exit_reason b1 b2)].
Proof.
  intros (poisoned & old & last & sent & b1 & b2 & cb & -> & _ & _)%finish_exec.
  eexists b1, b2, cb, (unwire_trace ch poisoned old last ++
           Obs (Send (ty := TyUnit) cancel_ch tt) sent :: Obs (Load timed_out) b1 ::
           read_fired_trace ch b2). split.
  - rewrite <- app_assoc. done.
  - destruct ch; [|done]. by destruct old as [[|]|], last.
Qed.

Lemma lifecycle_one_exited cap evs c r c' r' :
  lifecycle cap evs -> Event.Exited c r ∈ evs -> Event.Exited c' r' ∈ evs -> c = c' /\ r = r'.
Proof.
  intros Hl. destruct Hl as [|pid chunks Hc _|pid chunks code reason Hc _]; intros H1 H2.
  - by apply elem_of_nil in H1.
  - apply elem_of_cons in H1 as [?|H1]; [done|]. by destruct (chunks_no_exited _ _ _ Hc H1).
  - apply elem_of_cons in H1 as [?|H1]; [done|]. apply elem_of_cons in H2 as [?|H2]; [done|].
    apply elem_of_app in H1 as [H1|H1%list_elem_of_singleton];
      [by destruct (chunks_no_exited _ _ _ Hc H1)|].
    apply elem_of_app in H2 as [H2|H2%list_elem_of_singleton];
      [by destruct (chunks_no_exited _ _ _ Hc H2)|]. by simplify_eq.
Qed.

Lemma wait_discarding_exec handle tr os_code :
  exec (wait_discarding handle) tr (Some (Go os_code)) ->
  exec (os_wait handle (mkOutputSinks None None)) tr (Some (Val (Ok os_code))).
Proof.
  intros (r & tr1 & tr2 & -> & H1 & H2)%exec_bind_Some.
  destruct r as [[c|e]|p]; apply exec_ret_Some in H2 as [-> H2]; simplify_eq. by rewrite app_nil_r.
Qed.

(** ** Properties *)

(** Without capture, the code of a natural exit is the one the platform's
    [wait] reported, and that of a timed out or cancelled run is -1. *)
Theorem run_exit_code task ch tr out code reason :
  capture_output task = false ->
  exec (run_impl task rust_callback ch) tr (Some out) ->
  Event.Exited code reason ∈ events tr ->
  exists handle tr1 trw tr2 os_code,
    tr = tr1 ++ trw ++ tr2 /\
    exec (os_wait handle (mkOutputSinks None None)) trw (Some (Val (Ok os_code))) /\
    code = (if decide (reason = ExitReason.NaturalExit) then os_code else -1).
Proof.
  intros Hcap Hex Hin.
  destruct (run_exited_parts _ _ _ _ _ _ Hex Hin) as (handle & timed_out & cancel_ch & os_code &
    tr0 & tr1 & trc & trf & tr3 & -> & _ & Hc & Hf & Hl & _).
  unfold obtain in Hc. rewrite Hcap in Hc. apply wait_discarding_exec in Hc.
  destruct (finish_event _ _ _ _ _ _ Hf) as (b1 & b2 & cb & trf' & _ & Hev).
  exists handle, (tr0 ++ tr1), trc, (trf ++ tr3), os_code. split_and!; [done|done|].
  destruct (lifecycle_one_exited _ _ code reason (exit_code b1 b2 os_code) (exit_reason b1 b2) Hl Hin)
    as [-> ->].
  { rewrite !events_app, Hev. apply elem_of_app. right. apply elem_of_app. right.
    apply elem_of_app. left. by left. }
  by destruct b1, b2.
Qed.
End Exit.

(** The root is waited for and its group killed before [Exited]. *)
Lemma killed_before_exited task ch tr out code reason :
  capture_output task = false ->
  exec (run_impl task rust_callback ch) tr (Some out) ->
  Event.Exited code reason ∈ events tr ->
  exists pid tr1 wait_res kill_res tr2 cb tr3,
    tr = tr1 ++ Obs (ChildWait pid) wait_res :: Obs (Killpg (as_i32 pid) SIGKILL) kill_res :: tr2 ++
         Obs (Callback (Event.Exited code reason)) cb :: tr3 /\
    exists evs, events tr = Event.Started pid :: evs.
Proof.
  intros Hcap Hex Hin.
  destruct (run_exited_parts _ _ _ _ _ _ Hex Hin) as (handle & timed_out & cancel_ch & os_code &
    tr0 & tr1 & trc & trf & tr3 & -> & Hs & Hc & Hf & Hl & evs & Hst).
  unfold obtain in Hc. rewrite Hcap in Hc. apply wait_discarding_exec in Hc.
  apply wait_kills in Hc as (trw & wait_res & kill_res & trw' & -> & _).
  destruct (finish_event _ _ _ _ _ _ Hf) as (b1 & b2 & cb & trf' & -> & Hev).
  destruct (lifecycle_one_exited _ _ code reason (exit_code b1 b2 os_code) (exit_reason b1 b2) Hl Hin)
    as [-> ->].
  { rewrite !events_app in *. rewrite Hev. rewrite !elem_of_app, elem_of_cons. tauto. }
  unfold os_spawn in Hs. simpl in Hs. unfold spawn in Hs. exec_inv_step Hs.
  destruct x as [child|]; exec_inv_step Hs. simpl.
  exists (child_id child), ((Obs (CommandSpawn (command (program task) (args task) (spawn_options task)))
    (Ok child) :: tr1) ++ trw), wait_res, kill_res, (trw' ++ trf'), cb, tr3.
  split; [simpl; by rewrite <- !app_assoc|]. by exists evs.
Qed.

(** ** Properties *)

(** C19: On Unix, without capture: before [Exited] is emitted the root has been
    waited for and SIGKILL has been sent to its whole process group, so nothing
    of the tree outlives the run. *)
Theorem unix_no_survivors task ch tr out code reason :
  capture_output task = false ->
  exec (run_impl task rust_callback ch) tr (Some out) ->
  Event.Exited code reason ∈ events tr ->
  exists pid tr1 wait_res kill_res tr2 cb tr3,
    tr = tr1 ++ Obs (ChildWait pid) wait_res :: Obs (Killpg (as_i32 pid) SIGKILL) kill_res :: tr2 ++
         Obs (Callback (Event.Exited code reason)) cb :: tr3.
Proof.
  intros Hcap Hex Hin.
  destruct (killed_before_exited _ _ _ _ _ _ Hcap Hex Hin) as (p & tr1 & w & k & tr2 & cb & tr3 & E & _).
  by exists p, tr1, w, k, tr2, cb, tr3.
Qed.
