(* ===== verification/Pool.v ===== *)
(** * Threads and shared memory

    The interleaving semantics of the programs: threads that take turns at
    single actions over shared flags, mutexes and channels, an external world
    for the rest, and a log of every step with the thread that took it. A
    rely/guarantee logic ([wpc]) proves facts about every interleaving from
    the code of one thread at a time. *)

From Stdlib Require Import ZArith.
From stdpp Require Import base numbers list gmap relations.
From S2P Require Import Prelude Core Sys Prog.

Open Scope Z_scope.

(** ** Shared memory *)

Record mutex : Type := mkMutex { holder : option tid; value : option KillHandle }.

(** A channel: what is queued, how many senders there are, and whether the
    receiver is alive. Only the queue of the channel's own type is used. *)
Record chan_state : Type := mkChanState {
  q_unit : list unit;
  q_chunk : list ChunkMsg.t;
  q_wait : list (Result Z AerError.t);
  txs : nat;
  rx : bool
}.

Record mem : Type := mkMem {
  flags : gmap loc bool;
  mutexes : gmap loc mutex;
  chans : gmap (chan_ty * loc) chan_state;
  (** The [Arc]s around job handles: how many clones, and the handle. *)
  arcs : gmap loc (nat * HANDLE);
  (** The local buffers of each thread. *)
  vecs : gmap (tid * loc) (list Byte.byte);
  next : loc
}.

Definition flag (m : mem) (l : loc) : bool := default false (flags m !! l).
Definition mutex_at (m : mem) (l : loc) : mutex := default (mkMutex None None) (mutexes m !! l).
Definition chan_at (m : mem) (k : chan_ty * loc) : chan_state :=
  default (mkChanState [] [] [] 0 false) (chans m !! k).
Definition arc_at (m : mem) (l : loc) : nat * HANDLE := default (0%nat, 0) (arcs m !! l).
Definition vec (m : mem) (k : tid * loc) : list Byte.byte := default [] (vecs m !! k).

Definition set_flag (l : loc) (b : bool) (m : mem) : mem :=
  mkMem (<[l := b]> (flags m)) (mutexes m) (chans m) (arcs m) (vecs m) (next m).
Definition set_mutex (l : loc) (x : mutex) (m : mem) : mem :=
  mkMem (flags m) (<[l := x]> (mutexes m)) (chans m) (arcs m) (vecs m) (next m).
Definition set_chan (k : chan_ty * loc) (c : chan_state) (m : mem) : mem :=
  mkMem (flags m) (mutexes m) (<[k := c]> (chans m)) (arcs m) (vecs m) (next m).
Definition set_vec (k : tid * loc) (v : list Byte.byte) (m : mem) : mem :=
  mkMem (flags m) (mutexes m) (chans m) (arcs m) (<[k := v]> (vecs m)) (next m).
Definition set_arc (l : loc) (x : nat * HANDLE) (m : mem) : mem :=
  mkMem (flags m) (mutexes m) (chans m) (<[l := x]> (arcs m)) (vecs m) (next m).
Definition bump (m : mem) : mem :=
  mkMem (flags m) (mutexes m) (chans m) (arcs m) (vecs m) (S (next m)).

Definition queue (ty : chan_ty) (c : chan_state) : list (msg ty) :=
  match ty with
  | TyUnit => q_unit c
  | TyChunk => q_chunk c
  | TyWait => q_wait c
  end.

Definition set_queue (ty : chan_ty) : list (msg ty) -> chan_state -> chan_state :=
  match ty with
  | TyUnit => fun q c => mkChanState q (q_chunk c) (q_wait c) (txs c) (rx c)
  | TyChunk => fun q c => mkChanState (q_unit c) q (q_wait c) (txs c) (rx c)
  | TyWait => fun q c => mkChanState (q_unit c) (q_chunk c) q (txs c) (rx c)
  end.

Definition set_txs (n : nat) (c : chan_state) : chan_state :=
  mkChanState (q_unit c) (q_chunk c) (q_wait c) n (rx c).
Definition set_rx (b : bool) (c : chan_state) : chan_state :=
  mkChanState (q_unit c) (q_chunk c) (q_wait c) (txs c) b.

(** What the memory says to an action: not its business, not now, or an answer. *)
Inductive answer (X : Type) : Type :=
  | External
  | Blocked
  | Answer (x : X) (m : mem).
Arguments External {X}.
Arguments Blocked {X}.
Arguments Answer {X} x m.

(** [elapsed] tells whether the deadline of a timed receive has passed. A
    mutex is never poisoned: no thread of the program unwinds with one held. *)
Definition mem_step (t : tid) (elapsed : bool) {X} (e : act X) (m : mem) : answer X :=
  match e in act X return answer X with
  | NewFlag b => Answer (next m) (bump (set_flag (next m) b m))
  | Load l => Answer (flag m l) m
  | Store l b => Answer tt (set_flag l b m)
  | Swap l b => Answer (flag m l) (set_flag l b m)
  | NewArc job => Answer (next m) (bump (set_arc (next m) (1%nat, job) m))
  | ArcClone l => Answer tt (set_arc l (S (arc_at m l).1, (arc_at m l).2) m)
  | ArcDrop l =>
      Answer ((arc_at m l).1 =? 1)%nat (set_arc l (pred (arc_at m l).1, (arc_at m l).2) m)
  | NewMutex => Answer (next m) (bump (set_mutex (next m) (mkMutex None None) m))
  | Lock l =>
      match holder (mutex_at m l) with
      | None => Answer false (set_mutex l (mkMutex (Some t) (value (mutex_at m l))) m)
      | Some _ => Blocked
      end
  | GetSlot l => Answer (value (mutex_at m l)) m
  | SetSlot l v =>
      Answer (value (mutex_at m l)) (set_mutex l (mkMutex (holder (mutex_at m l)) v) m)
  | Unlock l => Answer tt (set_mutex l (mkMutex None (value (mutex_at m l))) m)
  | NewChan ty =>
      Answer (mkChan (next m)) (bump (set_chan (ty, next m) (mkChanState [] [] [] 1 true) m))
  | CloneTx c =>
      let s := chan_at m (chan_key c) in
      Answer tt (set_chan (chan_key c) (set_txs (S (txs s)) s) m)
  | DropTx c =>
      let s := chan_at m (chan_key c) in
      Answer tt (set_chan (chan_key c) (set_txs (pred (txs s)) s) m)
  | DropRx c =>
      let s := chan_at m (chan_key c) in
      Answer tt (set_chan (chan_key c) (set_rx false s) m)
  | @Send ty c x =>
      let s := chan_at m (chan_key c) in
      if rx s then Answer true (set_chan (chan_key c) (set_queue ty (queue ty s ++ [x]) s) m)
      else Answer false m
  | @Recv ty c =>
      let s := chan_at m (chan_key c) in
      match queue ty s with
      | x :: q => Answer (Some x) (set_chan (chan_key c) (set_queue ty q s) m)
      | [] => match txs s with O => Answer None m | S _ => Blocked end
      end
  | RecvWithTimeout c _ =>
      let s := chan_at m (chan_key c) in
      match q_unit s with
      | _ :: q => Answer RecvOk (set_chan (chan_key c) (set_queue TyUnit q s) m)
      | [] =>
          match txs s with
          | O => Answer RecvDisconnected m
          | S _ => if elapsed then Answer RecvTimedOut m else Blocked
          end
      end
  | NewVec => Answer (next m) (bump (set_vec (t, next m) [] m))
  | Extend l bytes => Answer tt (set_vec (t, l) (vec m (t, l) ++ bytes) m)
  | Contents l => Answer (vec m (t, l)) m
  | _ => External
  end.

(** ** Global states *)

Section Pool.
Context {W : Type}.

Record global : Type := mkGlobal {
  memory : mem;
  world : W;
  log : list (tid * obs)
}.

(** What the world does with an external action; a [Join] also waits for its
    thread. *)
Variable external : tid -> forall X, act X -> W -> X -> W -> Prop.

Definition join_target {X} (e : act X) : option tid :=
  match e with
  | Join t => Some t
  | _ => None
  end.

Definition act_sem (finished : tid -> Prop) (t : tid) {X} (e : act X) (g : global) (x : X)
    (g' : global) : Prop :=
  log g' = log g ++ [(t, Obs e x)] /\
  ((exists elapsed, mem_step t elapsed e (memory g) = Answer x (memory g') /\
      world g' = world g) \/
   (mem_step t false e (memory g) = External /\ memory g' = memory g /\
    external t X e (world g) x (world g') /\
    forall u, join_target e = Some u -> finished u)).

Definition unroll {A I R} (body : I -> prog (I + R)) (i : I) (k : R -> prog A) : prog A :=
  bind (body i) (fun r => match r with inl i' => Iter body i' k | inr x => k x end).

(** One step of thread [t]; [n] is the next thread identifier, [born] the
    program of the thread created, if any. *)
Definition thread_step (finished : tid -> Prop) (n t : tid) {A} (p : prog A) (g : global)
    (born : option (prog unit)) (p' : prog A) (g' : global) : Prop :=
  match p in prog A return prog A -> Prop with
  | Ret _ => fun _ => False
  | Vis e k => fun p' => born = None /\ exists x, act_sem finished t e g x g' /\ p' = k x
  | Fork body k => fun p' =>
      memory g' = memory g /\ world g' = world g /\
      ((born = Some body /\ p' = k (Some n) /\
        log g' = log g ++ [(t, ObsFork body (Some n))]) \/
       (born = None /\ p' = k None /\ log g' = log g ++ [(t, ObsFork body None)]))
  | Iter body i k => fun p' => born = None /\ g' = g /\ p' = unroll body i k
  end p'.

(** A main thread (thread 0) with a result, and the others. *)
Record config (R : Type) : Type := mkConfig {
  main : prog R;
  others : list (prog unit);
  state : global
}.
Arguments mkConfig {R}.
Arguments main {R}.
Arguments others {R}.
Arguments state {R}.

Definition returned {A} (p : prog A) : Prop :=
  match p with
  | Ret _ => True
  | _ => False
  end.

Definition finished {R} (c : config R) (t : tid) : Prop :=
  match t with
  | O => returned (main c)
  | S i => exists p, others c !! i = Some p /\ returned p
  end.

Inductive step {R} (c : config R) : config R -> Prop :=
  | step_main born p' g' :
      thread_step (finished c) (S (length (others c))) 0%nat (main c) (state c) born p' g' ->
      step c (mkConfig p' (others c ++ option_list born) g')
  | step_other i p born p' g' :
      others c !! i = Some p ->
      thread_step (finished c) (S (length (others c))) (S i) p (state c) born p' g' ->
      step c (mkConfig (main c) (<[i := p']> (others c) ++ option_list born) g').

Definition reachable {R} : config R -> config R -> Prop := rtc step.

(** ** The rely/guarantee logic *)

Section Logic.
(** An invariant of the global state, and what a step of thread [t] may
    change. *)
Variable Inv : global -> Prop.
Variable Guar : tid -> global -> global -> Prop.

Definition rely (t : tid) (g g' : global) : Prop :=
  Inv g /\ exists u, u <> t /\ Guar u g g' /\ Inv g'.

(** [wpc t p Q g]: from [g], whatever the other threads do within their
    guarantees, every step of [p] as thread [t] keeps the invariant and
    thread [t]'s guarantee, and [Q] holds when [p] has returned. *)
Fixpoint wpc {A} (t : tid) (p : prog A) : (A -> global -> Prop) -> global -> Prop :=
  match p in prog A return (A -> global -> Prop) -> global -> Prop with
  | Ret a => fun Q g => forall g', rtc (rely t) g g' -> Inv g' -> Q a g'
  | Vis e k => fun Q g => forall g', rtc (rely t) g g' -> Inv g' ->
      forall fin x g'', act_sem fin t e g' x g'' ->
      Guar t g' g'' /\ Inv g'' /\ wpc t (k x) Q g''
  | Fork body k => fun Q g => forall g', rtc (rely t) g g' -> Inv g' ->
      forall o g'', memory g'' = memory g' -> world g'' = world g' ->
      log g'' = log g' ++ [(t, ObsFork body o)] ->
      Guar t g' g'' /\ Inv g'' /\ wpc t (k o) Q g'' /\
      (forall n, o = Some n -> n <> 0%nat -> wpc n body (fun _ _ => True) g'')
  | Iter body i k => fun Q g => forall g', rtc (rely t) g g' -> Inv g' ->
      exists J, J i g' /\
        forall i g, J i g -> Inv g ->
          wpc t (body i)
            (fun r g => match r with inl i' => J i' g | inr x => wpc t (k x) Q g end) g
  end.

(** What the other threads cannot invalidate. *)
Definition stable (t : tid) (P : global -> Prop) : Prop :=
  forall g g', P g -> rely t g g' -> P g'.
End Logic.

(** ** Lemmas *)

Section LogicLemmas.
Context (Inv : global -> Prop) (Guar : tid -> global -> global -> Prop).
#[local] Abbreviation wpc := (wpc Inv Guar).
#[local] Abbreviation rely := (rely Inv Guar).

Lemma wpc_rely {A} t (p : prog A) Q g g' : wpc t p Q g -> rtc (rely t) g g' -> wpc t p Q g'.
Proof. destruct p; intros Hp Hr g2 Hr2; apply Hp; by etrans. Qed.

Lemma wpc_intro {A} t (p : prog A) Q g :
  (forall g', rtc (rely t) g g' -> Inv g' -> wpc t p Q g') -> wpc t p Q g.
Proof.
  destruct p; intros Hp g' Hr HI; exact (Hp g' Hr HI g' (rtc_refl _ _) HI).
Qed.

Lemma wpc_mono {A} t (p : prog A) (Q Q' : A -> global -> Prop) g :
  (forall a g, Inv g -> Q a g -> Q' a g) -> wpc t p Q g -> wpc t p Q' g.
Proof.
  revert Q Q' g.
  induction p as [A a|A X e k IH|A body _ k IH|A J R body IHb i k IH]; intros Q Q' g HQ Hp g' Hr HI.
  - apply HQ; [done|]. by apply Hp.
  - intros fin x g'' Hs. destruct (Hp g' Hr HI fin x g'' Hs) as (? & ? & ?).
    split_and!; [done|done|]. by eapply IH.
  - intros o g'' Hm Hw Hl. destruct (Hp g' Hr HI o g'' Hm Hw Hl) as (? & ? & ? & ?).
    split_and!; [done|done| |done]. by eapply IH.
  - destruct (Hp g' Hr HI) as (inv & Hi & Hb). exists inv. split; [done|].
    intros j g2 Hj HI2. eapply IHb; [|by apply Hb].
    intros [j'|x] g3 HI3; [done|]. by apply IH.
Qed.

Lemma wpc_bind {A B} t (p : prog A) (f : A -> prog B) Q g :
  wpc t p (fun a => wpc t (f a) Q) g -> wpc t (bind p f) Q g.
Proof.
  revert f g.
  induction p as [A a|A X e k IH|A body _ k IH|A J R body IHb i k IH]; intros f g Hp.
  - apply wpc_intro. exact Hp.
  - intros g' Hr HI fin x g'' Hs. destruct (Hp g' Hr HI fin x g'' Hs) as (? & ? & ?).
    split_and!; [done|done|]. by apply IH.
  - intros g' Hr HI o g'' Hm Hw Hl. destruct (Hp g' Hr HI o g'' Hm Hw Hl) as (? & ? & ? & ?).
    split_and!; [done|done| |done]. by apply IH.
  - intros g' Hr HI. destruct (Hp g' Hr HI) as (inv & Hi & Hb). exists inv. split; [done|].
    intros j g2 Hj HI2. eapply wpc_mono; [|by apply Hb].
    intros [j'|x] g3 HI3; [done|]. by apply IH.
Qed.

Lemma wpc_ret {A} t (a : A) (P : global -> Prop) (Q : A -> global -> Prop) g :
  stable Inv Guar t P -> P g -> (forall g, P g -> Inv g -> Q a g) -> wpc t (Ret a) Q g.
Proof.
  intros Hst HP HQ g' Hr HI. apply HQ; [|done]. clear HI HQ.
  induction Hr as [|g g1 g2 Hr1 _ IH]; [done|]. apply IH. by eapply Hst.
Qed.

Lemma stable_rtc t (P : global -> Prop) g g' :
  stable Inv Guar t P -> P g -> rtc (rely t) g g' -> P g'.
Proof. intros Hst HP Hr. induction Hr; [done|]. by eauto. Qed.

(** One action under a stable assertion. *)
Lemma wpc_act {A X} t (e : act X) (k : X -> prog A) (P : global -> Prop) Q g :
  stable Inv Guar t P -> P g ->
  (forall fin g x g', P g -> Inv g -> act_sem fin t e g x g' ->
     Guar t g g' /\ Inv g' /\ wpc t (k x) Q g') ->
  wpc t (bind (do_act e) k) Q g.
Proof.
  intros Hst HP Hk g' Hr HI fin x g'' Hs. apply (Hk fin g'); [|done|done].
  by eapply stable_rtc.
Qed.

Lemma wpc_fork {A} t body (k : option tid -> prog A) (P : global -> Prop) Q g :
  stable Inv Guar t P -> P g ->
  (forall g o g', P g -> Inv g -> memory g' = memory g -> world g' = world g ->
     log g' = log g ++ [(t, ObsFork body o)] ->
     Guar t g g' /\ Inv g' /\ wpc t (k o) Q g' /\
     (forall n, o = Some n -> n <> 0%nat -> wpc n body (fun _ _ => True) g')) ->
  wpc t (bind (fork body) k) Q g.
Proof.
  intros Hst HP Hk g' Hr HI o g'' Hm Hw Hl. apply (Hk g'); try done.
  by eapply stable_rtc.
Qed.

Lemma wpc_iter {A I} t (body : I -> prog (I + A)) i (J : I -> global -> Prop) Q g :
  (forall i, stable Inv Guar t (J i)) ->
  J i g ->
  (forall i g, J i g -> Inv g ->
     wpc t (body i)
       (fun r g => match r with inl i' => J i' g | inr x => wpc t (Ret x) Q g end) g) ->
  wpc t (iter body i) Q g.
Proof.
  intros Hst HJ Hb g' Hr HI. exists J. split; [by eapply stable_rtc|]. exact Hb.
Qed.

(** A loop's round: what [Iter] promises covers its unrolling. *)
Lemma wpc_unroll {A I R} t (body : I -> prog (I + R)) i (k : R -> prog A) Q g :
  Inv g -> wpc t (Iter body i k) Q g -> wpc t (unroll body i k) Q g.
Proof.
  intros HI Hp. destruct (Hp g (rtc_refl _ _) HI) as (J & HJ & Hb).
  apply wpc_bind. eapply wpc_mono; [|by apply Hb].
  intros [i'|x] g1 HI1 Hg1; [|done].
  intros g2 Hr HI2.
  exists (fun i g => exists g0, Inv g0 /\ J i g0 /\ rtc (rely t) g0 g).
  split; [by exists g1|].
  intros j g3 (g0 & HI0 & HJ0 & Hr0) HI3. eapply wpc_rely; [|done].
  eapply wpc_mono; [|by apply Hb].
  intros [j'|y] g4 HI4 Hg4; [|done]. by exists g4.
Qed.

(** A program all of whose steps are harmless keeps a stable assertion. *)
Lemma wpc_all_obs {A} (ok : obs -> Prop) t (p : prog A) (P : global -> Prop)
    (Q : A -> global -> Prop) g :
  stable Inv Guar t P ->
  (forall fin X (e : act X) x g g', ok (Obs e x) -> P g -> Inv g -> act_sem fin t e g x g' ->
     Guar t g g' /\ Inv g' /\ P g') ->
  (forall body o g g', ok (ObsFork body o) -> P g -> Inv g ->
     memory g' = memory g -> world g' = world g ->
     log g' = log g ++ [(t, ObsFork body o)] ->
     Guar t g g' /\ Inv g' /\ P g' /\
     forall n, o = Some n -> n <> 0%nat -> wpc n body (fun _ _ => True) g') ->
  all_obs ok p -> P g ->
  (forall a tr g, exec p tr (Some a) -> P g -> Inv g -> Q a g) ->
  wpc t p Q g.
Proof.
  intros Hst Hact Hfork. revert Q g.
  induction p as [A a|A X e k IH|A body _ k IH|A J R body IHb i k IH]; intros Q g Hok HP HQ.
  - apply (wpc_ret _ _ P); [done|done|]. intros g' ? ?. by apply (HQ a []); [apply exec_ret_Some|..].
  - apply (wpc_act _ e k P); [done|done|]. intros fin g1 x g2 HP1 HI1 Hs.
    destruct (all_obs_vis_inv _ _ _ x Hok) as [Hox Hok'].
    destruct (Hact fin X e x g1 g2 Hox HP1 HI1 Hs) as (? & ? & ?).
    split_and!; [done|done|]. apply IH; [done|done|].
    intros a tr g3 Hex. apply (HQ a (Obs e x :: tr)). right. by exists x, tr.
  - apply (wpc_fork _ body k P); [done|done|]. intros g1 o g2 HP1 HI1 Hm Hw Hl.
    destruct (all_obs_fork_inv _ _ _ o Hok) as [Hox Hok'].
    destruct (Hfork body o g1 g2 Hox HP1 HI1 Hm Hw Hl) as (? & ? & ? & ?).
    split_and!; [done|done| |done]. apply IH; [done|done|].
    intros a tr g3 Hex. apply (HQ a (ObsFork body o :: tr)). right. by exists o, tr.
  - intros g1 Hr HI1.
    exists (fun j g => all_obs ok (Iter body j k) /\ P g /\
      forall a tr g, exec (Iter body j k) tr (Some a) -> P g -> Inv g -> Q a g).
    split; [split_and!; [done|by eapply stable_rtc|done]|].
    clear i g g1 Hok HP HQ Hr HI1. intros j g (Hok & HP & HQ) HI.
    destruct (all_obs_iter_inv _ _ _ _ Hok) as (Hbody & Hnext & Hdone).
    apply IHb; [exact Hbody|done|].
    intros [j'|x] tr g2 Hex HP2 HI2.
    + split_and!; [by eapply Hnext|done|]. intros a tr' g3 Hex'. apply (HQ a (tr ++ tr')).
      by apply (iter_exec_next _ _ _ j').
    + apply IH; [by eapply Hdone|done|]. intros a tr' g3 Hex'. apply (HQ a (tr ++ tr')).
      by apply (iter_exec_done _ _ _ x).
Qed.

(** One step of a thread under its [wpc]. *)
Lemma wpc_step {A} fin n t (p : prog A) g born p' g' Q :
  n <> 0%nat -> Inv g -> wpc t p Q g -> thread_step fin n t p g born p' g' ->
  (g' = g \/ Guar t g g') /\ Inv g' /\ wpc t p' Q g' /\
  (forall b, born = Some b -> wpc n b (fun _ _ => True) g').
Proof.
  intros Hn HI Hp. destruct p as [A a|A X e k|A body k|A J R body i k]; simpl.
  - done.
  - intros (-> & x & Hs & ->). destruct (Hp g (rtc_refl _ _) HI fin x g' Hs) as (? & ? & ?).
    split_and!; try done. by right.
  - intros (Hm & Hw & [(-> & -> & Hl)|(-> & -> & Hl)]);
      destruct (Hp g (rtc_refl _ _) HI _ g' Hm Hw Hl) as (? & ? & ? & Hb);
      split_and!; try done; try by right.
    intros b [= <-]. by apply Hb.
  - intros (-> & -> & ->). split_and!; [by left|done|by apply wpc_unroll|done].
Qed.

Definition pool_ok {R} (Q : R -> global -> Prop) (c : config R) : Prop :=
  Inv (state c) /\ wpc 0%nat (main c) Q (state c) /\
  forall i p, others c !! i = Some p -> wpc (S i) p (fun _ _ => True) (state c).

Lemma rely_step t u g g' :
  u <> t -> Inv g -> Inv g' -> g' = g \/ Guar u g g' -> rtc (rely t) g g'.
Proof.
  intros Hne HI HI' [->|HG]; [done|]. apply rtc_once. split; [done|]. by exists u.
Qed.

Lemma others_born {R} (c : config R) i (p : prog unit) (l : list (prog unit)) born g' :
  length l = length (others c) ->
  (forall i (p : prog unit), l !! i = Some p -> wpc (S i) p (fun _ _ => True) g') ->
  (forall b, born = Some b -> wpc (S (length (others c))) b (fun _ _ => True) g') ->
  (l ++ option_list born) !! i = Some p -> wpc (S i) p (fun _ _ => True) g'.
Proof.
  intros Hlen Hl Hb [Hi|[Hge Hi]]%lookup_app_Some; [by apply Hl|].
  destruct born as [b|]; [|done]. simpl in Hi.
  destruct (i - length l)%nat as [|j] eqn:E; [|by destruct j].
  injection Hi as ->. assert (i = length (others c)) as -> by lia. by apply Hb.
Qed.

Lemma pool_step {R} Q (c c' : config R) : pool_ok Q c -> step c c' -> pool_ok Q c'.
Proof.
  intros (HI & Hm & Ho) Hs. destruct Hs as [born p' g' Ht|i p born p' g' Hi Ht].
  - destruct (wpc_step _ _ _ _ _ _ _ _ _ (Nat.neq_succ_0 _) HI Hm Ht) as (HG & HI' & Hp & Hb).
    split_and!; [done|done|]. simpl. intros j q Hj.
    eapply (others_born c); [done| |done|done].
    intros j' q' Hj'. eapply wpc_rely; [by apply Ho|]. by eapply rely_step with (u := 0%nat).
  - destruct (wpc_step _ _ _ _ _ _ _ _ _ (Nat.neq_succ_0 _) HI (Ho _ _ Hi) Ht)
      as (HG & HI' & Hp & Hb).
    split_and!; [done| |]; simpl.
    + eapply wpc_rely; [done|]. by eapply rely_step with (u := S i).
    + intros j q Hj. eapply (others_born c); [by rewrite length_insert| |done|done].
      intros j' q' Hj'. destruct (decide (j' = i)) as [->|Hne].
      * rewrite list_lookup_insert_eq in Hj' by (by eapply lookup_lt_Some). by simplify_eq.
      * rewrite list_lookup_insert_ne in Hj' by done.
        eapply wpc_rely; [by apply Ho|]. eapply rely_step with (u := S i); [lia|done..].
Qed.

(** Soundness: in every reachable configuration the invariant holds, and
    [Q] when the main thread has returned. *)
Lemma pool_sound {R} Q (c c' : config R) : pool_ok Q c -> reachable c c' -> pool_ok Q c'.
Proof. intros Hok Hr. induction Hr; [done|]. by eauto using pool_step. Qed.

Lemma pool_ok_returned {R} Q (c : config R) a : pool_ok Q c -> main c = Ret a -> Q a (state c).
Proof. intros (HI & Hm & _) Ha. rewrite Ha in Hm. by apply Hm. Qed.
End LogicLemmas.

(** ** The log under the logic *)

Section Logged.
Context (Inv : global -> Prop) (Guar : tid -> global -> global -> Prop).

(** The guarantee, and that a step only adds to the log. *)
Definition logged (t : tid) (g g' : global) : Prop := Guar t g g' /\ log g `prefix_of` log g'.

Lemma logged_rely t g g' : rtc (rely Inv logged t) g g' -> rtc (rely Inv Guar t) g g'.
Proof.
  induction 1 as [|g g1 g2 (HI & u & Hu & [HG _] & HI') _ IH]; [done|].
  eapply rtc_l; [|exact IH]. split; [done|]. by exists u.
Qed.

Lemma stable_logged t P : stable Inv Guar t P -> stable Inv logged t P.
Proof.
  intros Hst g g' HP Hr. apply (stable_rtc Inv Guar t P g); [done|done|].
  apply logged_rely. by apply rtc_once.
Qed.

(** What is in the log stays there. *)
Lemma log_stable t x : stable Inv logged t (fun g => x ∈ log g).
Proof. intros g g' Hx (_ & u & _ & [_ [l Hl]] & _). rewrite Hl. apply elem_of_app. by left. Qed.

Lemma wpc_logged {A} t (p : prog A) Q g : wpc Inv Guar t p Q g -> wpc Inv logged t p Q g.
Proof.
  revert t Q g.
  induction p as [A a|A X e k IH|A body IHb k IH|A J R body IHb i k IH];
    intros t Q g Hp g' Hr%logged_rely HI.
  - by apply Hp.
  - intros fin x g'' Hs. destruct (Hp g' Hr HI fin x g'' Hs) as (? & ? & ?).
    split_and!; [split; [done|]|done|by apply IH]. destruct Hs as [-> _]. by apply prefix_app_r.
  - intros o g'' Hm Hw Hl. destruct (Hp g' Hr HI o g'' Hm Hw Hl) as (? & ? & ? & Hn).
    split_and!; [split; [done|]|done|by apply IH|].
    + rewrite Hl. by apply prefix_app_r.
    + intros n Hn' Hne. apply IHb. by apply Hn.
  - destruct (Hp g' Hr HI) as (inv & Hi & Hb). exists inv. split; [done|].
    intros j g2 Hj HI2. eapply wpc_mono; [|apply IHb; by apply Hb].
    intros [j'|x] g3 _ Hg3; [done|]. by apply IH.
Qed.
End Logged.

(** ** A thread on its own *)

Lemma reachable_alone {R X} (e : act X) (k : X -> prog R) g c :
  reachable (mkConfig (Vis e k) [] g) c ->
  main c = Vis e k \/
  exists fin x g', act_sem fin 0%nat e g x g' /\ reachable (mkConfig (k x) [] g') c.
Proof.
  intros Hr. apply rtc_inv in Hr as [<-|(c1 & Hs & Hr)]; [by left|right].
  remember (mkConfig (Vis e k) [] g) as c0 eqn:E.
  destruct Hs as [born p' g' Ht|i p born p' g' Hi Ht]; subst c0; [|done].
  destruct Ht as (-> & x & Hs & ->). by exists (finished (mkConfig (Vis e k) [] g)), x, g'.
Qed.

Lemma reachable_returned {R} (a : R) g c : reachable (mkConfig (Ret a) [] g) c -> main c = Ret a.
Proof.
  intros Hr. apply rtc_inv in Hr as [<-|(c1 & Hs & _)]; [done|].
  remember (mkConfig (Ret a) [] g) as c0 eqn:E.
  by destruct Hs as [born p' g' Ht|i p born p' g' Hi Ht]; subst c0.
Qed.

Lemma reachable_forking {R} body (k : option tid -> prog R) g c :
  reachable (mkConfig (Fork body k) [] g) c ->
  main c = Fork body k \/
  exists born o g', memory g' = memory g /\ log g' = log g ++ [(0%nat, ObsFork body o)] /\
    (born = Some body /\ o = Some 1%nat \/ born = None /\ o = None) /\
    reachable (mkConfig (k o) (option_list born) g') c.
Proof.
  intros Hr. apply rtc_inv in Hr as [<-|(c1 & Hs & Hr)]; [by left|right].
  remember (mkConfig (Fork body k) [] g) as c0 eqn:E.
  destruct Hs as [born p' g' Ht|i p born p' g' Hi Ht]; subst c0; [|done].
  destruct Ht as (Hm & _ & [(-> & -> & Hl)|(-> & -> & Hl)]); eexists _, _, g'; split_and!; eauto.
Qed.

End Pool.

Arguments global W : clear implicits.
Arguments config W R : clear implicits.
Arguments mkConfig {W R}.
Arguments main {W R}.
Arguments others {W R}.
Arguments state {W R}.

#[global] Arguments wpc : simpl never.
