(* ===== verification/Threads.v ===== *)
(** * The threads of a log

    What the interleaving semantics of Pool.v says of one thread at a time:
    the steps of a thread in the log of a reachable configuration are an
    execution of the program it was started with, thread identifiers are never
    reused, and what is observed of the log as a whole is made of what is
    observed of its threads. *)

From Stdlib Require Import ZArith.
From stdpp Require Import base numbers list gmap relations.
From S2P Require Import Prelude Core Sys Prog Pool.

(** The steps of thread [t] in a log. *)
Definition own (t : tid) (l : list (tid * obs)) : list obs :=
  omap (fun x => if decide (x.1 = t) then Some x.2 else None) l.

(** The threads created in a log, with their programs, oldest first. *)
Definition birth (x : tid * obs) : option (tid * prog unit) :=
  match x.2 with
  | ObsFork b (Some n) => Some (n, b)
  | _ => None
  end.

Definition births (l : list (tid * obs)) : list (tid * prog unit) := omap birth l.

(** ** Logs *)

Lemma own_app t l l' : own t (l ++ l') = own t l ++ own t l'.
Proof. apply omap_app. Qed.

Lemma own_cons t x l : own t (x :: l) = (if decide (x.1 = t) then [x.2] else []) ++ own t l.
Proof. unfold own. simpl. by case_decide. Qed.

Lemma own_self t (tr : list obs) : own t (pair t <$> tr) = tr.
Proof.
  induction tr as [|o tr IH]; [done|]. rewrite fmap_cons, own_cons, IH.
  by rewrite decide_True.
Qed.

Lemma elem_of_own t o l : o ∈ own t l <-> (t, o) ∈ l.
Proof.
  unfold own. rewrite list_elem_of_omap. split.
  - intros ([u o'] & Hin & Hd). simpl in Hd. case_decide; by simplify_eq.
  - intros Hin. exists (t, o). split; [done|]. simpl. by rewrite decide_True.
Qed.

Lemma own_fresh t l : (forall x, x ∈ l -> x.1 <> t) -> own t l = [].
Proof.
  intros Hf. induction l as [|x l IH]; [done|].
  rewrite own_cons, decide_False by (apply Hf; left). apply IH.
  intros y Hy. apply Hf. by right.
Qed.

Lemma own_other t u (tr : list obs) : u <> t -> own t (pair u <$> tr) = [].
Proof.
  intros Hne. apply own_fresh. intros x (o & -> & _)%list_elem_of_fmap. done.
Qed.

Lemma births_app l l' : births (l ++ l') = births l ++ births l'.
Proof. apply omap_app. Qed.

Lemma elem_of_births v b n l : (v, ObsFork b (Some n)) ∈ l -> (n, b) ∈ births l.
Proof. intros Hin. apply list_elem_of_omap. by exists (v, ObsFork b (Some n)). Qed.

Lemma births_forked n b l : (n, b) ∈ births l -> exists v, (v, ObsFork b (Some n)) ∈ l.
Proof.
  intros ([v o] & Hin & Ho)%list_elem_of_omap. unfold birth in Ho. simpl in Ho.
  destruct o as [|b' [n'|]]; simplify_eq. by exists v.
Qed.

(** A point of a thread's own steps is a point of the log. *)
Lemma own_split t l tr1 o tr2 :
  own t l = tr1 ++ o :: tr2 ->
  exists l1 l2, l = l1 ++ (t, o) :: l2 /\ own t l1 = tr1 /\ own t l2 = tr2.
Proof.
  revert tr1. induction l as [|[u o'] l IH]; intros tr1 E; [by destruct tr1|].
  rewrite own_cons in E. simpl in E. case_decide as Hu; simpl in E.
  - subst u. destruct tr1 as [|o1 tr1]; simplify_eq/=; [by exists [], l|].
    destruct (IH tr1) as (l1 & l2 & -> & <- & <-); [done|]. exists ((t, o1) :: l1), l2.
    split_and!; [done| |done]. rewrite own_cons. by rewrite decide_True.
  - destruct (IH tr1) as (l1 & l2 & -> & <- & <-); [done|]. exists ((u, o') :: l1), l2.
    split_and!; [done| |done]. rewrite own_cons. by rewrite decide_False.
Qed.

(** What only one thread does is seen in its own log. *)
Lemma omap_own {E} (f : obs -> option E) t l :
  (forall u o, (u, o) ∈ l -> f o <> None -> u = t) -> omap f (l.*2) = omap f (own t l).
Proof.
  induction l as [|[u o] l IH]; intros Hf; [done|].
  rewrite own_cons, omap_app, fmap_cons, omap_cons, IH.
  2: { intros u' o' ? ?. apply (Hf u' o'); [by right|done]. }
  f_equal. simpl. destruct (f o) as [x|] eqn:E0; case_decide as Hu; simpl; rewrite ?E0; try done.
  destruct Hu. apply (Hf u o); [by left|by rewrite E0].
Qed.

(** A count over the log is the sum of the counts of the threads. *)
Definition counts (f : obs -> option unit) (l : list (tid * obs)) (ts : list tid) : nat :=
  sum_list ((fun t => length (omap f (own t l))) <$> ts).

Lemma counts_cons f l t ts : counts f l (t :: ts) = (length (omap f (own t l)) + counts f l ts)%nat.
Proof. done. Qed.

Lemma counts_other f u o l ts : u ∉ ts -> counts f ((u, o) :: l) ts = counts f l ts.
Proof.
  induction ts as [|t ts IH]; [done|]. intros [Hne Hu]%not_elem_of_cons.
  rewrite !counts_cons, own_cons, decide_False, IH by done. done.
Qed.

Lemma counts_step f u o l ts :
  NoDup ts -> u ∈ ts ->
  counts f ((u, o) :: l) ts = (length (option_list (f o)) + counts f l ts)%nat.
Proof.
  induction ts as [|t ts IH]; [by intros _ ?%elem_of_nil|].
  intros [Hn Hnd]%NoDup_cons [->|Hu]%elem_of_cons; rewrite !counts_cons, own_cons; simpl.
  - rewrite decide_True, counts_other, omap_app, omap_cons, app_nil_r, length_app by done.
    by rewrite Nat.add_assoc.
  - rewrite IH by done. rewrite decide_False; [simpl|by intros ->].
    by rewrite !Nat.add_assoc, (Nat.add_comm (length (omap f (own t l)))).
Qed.

Lemma count_le (f : obs -> option unit) t l :
  (length (omap f (own t l)) <= length (omap f (l.*2)))%nat.
Proof.
  induction l as [|[u o] l IH]; [done|].
  rewrite own_cons, fmap_cons, omap_app, omap_cons, !length_app. simpl.
  case_decide; simpl; destruct (f o); simpl; lia.
Qed.

Lemma count_own (f : obs -> option unit) (ts : list tid) l :
  NoDup ts -> (forall u o, (u, o) ∈ l -> f o <> None -> u ∈ ts) ->
  length (omap f (l.*2)) = counts f l ts.
Proof.
  intros Hnd. induction l as [|[u o] l IH]; intros Hf.
  { clear. induction ts as [|t ts IHt]; [done|]. by rewrite counts_cons, <- IHt. }
  rewrite fmap_cons, omap_cons, length_app, IH by (intros u' o' ?; apply (Hf u' o'); by right).
  destruct (decide (u ∈ ts)) as [Hu|Hu]; [by rewrite counts_step|].
  rewrite counts_other by done. simpl. destruct (f o) eqn:Eo; [|done].
  destruct Hu. apply (Hf u o); [by left|by rewrite Eo].
Qed.

Section Threads.
Context {W : Type}.
Variable external : tid -> forall X, act X -> W -> X -> W -> Prop.
#[local] Abbreviation step := (step external).
#[local] Abbreviation reachable := (reachable external).
#[local] Abbreviation thread_step := (thread_step external).

(** ** The log of a thread is one of its executions *)

Lemma unroll_exec {A I R} (body : I -> prog (I + R)) i (k : R -> prog A) tr r :
  exec (unroll body i k) tr r -> exec (Iter body i k) tr r.
Proof.
  intros [[-> Hex]|([i'|x] & tr1 & tr2 & -> & Hb & Hex)]%exec_bind_inv.
  - by apply iter_exec_cut.
  - by apply (iter_exec_next _ _ _ i').
  - by apply (iter_exec_done _ _ _ x).
Qed.

(** A step logs at most one observation. *)
Lemma thread_step_exec fin n t {A} (p : prog A) (g : global W) born p' g' :
  thread_step fin n t p g born p' g' ->
  exists tr, log g' = log g ++ (pair t <$> tr) /\ (length tr <= 1)%nat /\
    (forall tr' r, exec p' tr' r -> exec p (tr ++ tr') r) /\
    births (pair t <$> tr) = pair n <$> option_list born.
Proof.
  destruct p as [A a|A X e k|A body k|A J R body i k]; simpl; [done| | |].
  - intros (-> & x & [Hl _] & ->). exists [Obs e x]. split_and!; [done|done| |done].
    intros tr' r Hex. right. by exists x, tr'.
  - intros (_ & _ & [(-> & -> & Hl)|(-> & -> & Hl)]);
      (eexists [_]; split_and!; [exact Hl|done| |done]);
      intros tr' r Hex; right; by eexists _, tr'.
  - intros (-> & -> & ->). exists []. rewrite app_nil_r.
    split_and!; [done|simpl; lia|intros; by apply unroll_exec|done].
Qed.

(** [p] is where the program [p0] of thread [t] stands after the log [l]. *)
Definition follows (t : tid) {A} (p0 p : prog A) (l : list (tid * obs)) : Prop :=
  forall tr r, exec p tr r -> exec p0 (own t l ++ tr) r.

Lemma follows_step t {A} (p0 p p' : prog A) l tr :
  follows t p0 p l -> (forall tr' r, exec p' tr' r -> exec p (tr ++ tr') r) ->
  follows t p0 p' (l ++ (pair t <$> tr)).
Proof. intros Hf Hp tr' r Hex. rewrite own_app, own_self, <- app_assoc. by apply Hf, Hp. Qed.

Lemma follows_other t u {A} (p0 p : prog A) l tr :
  u <> t -> follows t p0 p l -> follows t p0 p (l ++ (pair u <$> tr)).
Proof. intros Hne Hf tr' r Hex. rewrite own_app, own_other, app_nil_r by done. by apply Hf. Qed.

Lemma follows_done t {A} (p0 p : prog A) l :
  follows t p0 p l -> returned p -> exists a, exec p0 (own t l) (Some a).
Proof.
  intros Hf Hret. destruct p as [A a| | |]; [|done..]. exists a.
  rewrite <- (app_nil_r (own _ _)). by apply Hf, exec_ret_Some.
Qed.

(** What the other threads were started with: the initial ones, then those of
    the log. *)
Definition programs {R} (c : config W R) (l : list (tid * obs)) : list (prog unit) :=
  others c ++ (births l).*2.

(** [c'] is where [c] stands after its log. *)
Record traced {R} (c c' : config W R) : Prop := {
  traced_main : follows 0%nat (main c) (main c') (log (state c'));
  traced_others i p : others c' !! i = Some p ->
    exists p0, programs c (log (state c')) !! i = Some p0 /\ follows (S i) p0 p (log (state c'));
  traced_length : length (others c') = length (programs c (log (state c')));
  traced_ids : (births (log (state c'))).*1 =
    seq (S (length (others c))) (length (births (log (state c'))));
  traced_bound x : x ∈ log (state c') -> (x.1 <= length (others c'))%nat;
  traced_older v b n : (v, ObsFork b (Some n)) ∈ log (state c') -> (v < n)%nat
}.

Lemma traced_refl {R} (c : config W R) : log (state c) = [] -> traced c c.
Proof.
  intros Hl. split; unfold programs; rewrite ?Hl; simpl; rewrite ?app_nil_r; try done.
  - by intros tr r Hex.
  - intros i p Hi. exists p. split; [done|]. by intros tr r Hex.
  - intros x Hx. by apply elem_of_nil in Hx.
  - intros v b n Hx. by apply elem_of_nil in Hx.
Qed.

(** One step of thread [t], from program [p] to [p']; [l] are the threads
    after it, the new one left out. *)
Lemma traced_after {R} (c c1 : config W R) main' (l : list (prog unit)) t born tr g' :
  traced c c1 -> (t <= length (others c1))%nat -> length l = length (others c1) ->
  log g' = log (state c1) ++ (pair t <$> tr) -> (length tr <= 1)%nat ->
  births (pair t <$> tr) = pair (S (length (others c1))) <$> option_list born ->
  follows 0%nat (main c) main' (log g') ->
  (forall i p p0, l !! i = Some p -> programs c (log (state c1)) !! i = Some p0 ->
     (forall q, others c1 !! i = Some q -> follows (S i) p0 q (log (state c1))) ->
     follows (S i) p0 p (log g')) ->
  traced c (mkConfig main' (l ++ option_list born) g').
Proof.
  intros [Hm Ho Hlen Hids Hb Hold] Ht Hl Hlog Htr Hborn Hm' Ho'.
  assert (programs c (log g') = programs c (log (state c1)) ++ option_list born) as Hp.
  { unfold programs. rewrite Hlog, births_app, fmap_app, Hborn, app_assoc.
    f_equal. by destruct born. }
  assert (length (programs c (log (state c1))) =
    (length (others c) + length (births (log (state c1))))%nat) as Hpl
    by (unfold programs; by rewrite length_app, length_fmap).
  split; simpl.
  - done.
  - intros i p Hi. rewrite Hp. apply lookup_app_Some in Hi as [Hi|[Hge Hi]].
    + pose proof (lookup_lt_Some _ _ _ Hi) as Hlt.
      destruct (lookup_lt_is_Some_2 (others c1) i) as [q Hq]; [lia|].
      destruct (Ho _ _ Hq) as (p0 & Hp0 & Hf). exists p0. split; [by apply lookup_app_l_Some|].
      apply (Ho' _ _ _ Hi Hp0). intros q' Hq'. by simplify_eq.
    + exists p. split.
      { rewrite lookup_app_r by lia. by rewrite <- Hlen, <- Hl. }
      intros tr' r Hex. rewrite own_fresh; [done|]. intros x Hx E.
      rewrite Hlog in Hx. apply elem_of_app in Hx as [Hx|Hx].
      * specialize (Hb _ Hx). unfold tid in *. lia.
      * apply list_elem_of_fmap in Hx as (o & -> & _). simpl in E. lia.
  - rewrite Hp, !length_app, Hl, Hlen. done.
  - rewrite Hlog, births_app, fmap_app, Hborn, Hids, length_app, seq_app. f_equal.
    rewrite length_fmap. destruct born as [b|]; [|done]. simpl. do 2 f_equal. lia.
  - intros x Hx. rewrite Hlog in Hx. rewrite length_app. apply elem_of_app in Hx as [Hx|Hx].
    + specialize (Hb _ Hx). lia.
    + apply list_elem_of_fmap in Hx as (o & -> & _). simpl. lia.
  - intros v b n Hx. rewrite Hlog in Hx. apply elem_of_app in Hx as [Hx|Hx]; [by eapply Hold|].
    pose proof (elem_of_births _ _ _ _ Hx) as Hn. rewrite Hborn in Hn.
    apply list_elem_of_fmap in Hx as (o & ? & _). simplify_eq.
    apply list_elem_of_fmap in Hn as (b' & ? & _). simplify_eq. lia.
Qed.

Lemma traced_step {R} (c c1 c2 : config W R) : traced c c1 -> step c1 c2 -> traced c c2.
Proof.
  intros Htr Hs. pose proof Htr as [Hm Ho _ _ _ _].
  destruct Hs as [born p' g' Ht|i p born p' g' Hi Ht];
    destruct (thread_step_exec _ _ _ _ _ _ _ _ Ht) as (tr & Hl & Hle & Hex & Hborn).
  - apply (traced_after c c1 p' (others c1) 0%nat born tr); rewrite ?Hl; try done; [lia| |].
    + by eapply follows_step.
    + intros j q q0 Hj Hq0 Hf. apply follows_other; [lia|by apply Hf].
  - pose proof (lookup_lt_Some _ _ _ Hi).
    apply (traced_after c c1 (main c1) _ (S i) born tr); rewrite ?Hl;
      try done; [by rewrite length_insert| |].
    + by apply follows_other.
    + intros j q q0 Hj Hq0 Hf. destruct (decide (j = i)) as [->|Hne].
      * rewrite list_lookup_insert_eq in Hj by done. simplify_eq.
        eapply follows_step; [by apply Hf|done].
      * rewrite list_lookup_insert_ne in Hj by done.
        apply follows_other; [lia|by apply Hf].
Qed.

Lemma reachable_traced {R} (c c' : config W R) :
  log (state c) = [] -> reachable c c' -> traced c c'.
Proof.
  intros Hl Hr. cut (forall c1, traced c c1 -> rtc step c1 c' -> traced c c').
  { intros H. by apply (H c); [apply traced_refl|]. }
  clear Hl Hr. intros c1 Ht Hr. induction Hr; [done|]. by eauto using traced_step.
Qed.

(** ** Using it *)

Section Traced.
Context {R : Type} (c c' : config W R) (Hl : log (state c) = []) (Hr : reachable c c').
#[local] Abbreviation l := (log (state c')).

(** The main thread's own log is an execution of its program, complete when
    it has returned. *)
Lemma main_exec : exec (main c) (own 0%nat l) None.
Proof using Hl Hr.
  rewrite <- (app_nil_r (own _ _)). by apply (traced_main _ _ (reachable_traced _ _ Hl Hr)), exec_nil.
Qed.

Lemma main_exec_done a : main c' = Ret a -> exec (main c) (own 0%nat l) (Some a).
Proof using Hl Hr.
  intros Ha. rewrite <- (app_nil_r (own _ _)).
  apply (traced_main _ _ (reachable_traced _ _ Hl Hr)). rewrite Ha. by apply exec_ret_Some.
Qed.

(** Of a thread that started with [p0]. *)
Lemma program_exec i p0 :
  programs c l !! i = Some p0 -> exec p0 (own (S i) l) None /\
  exists p, others c' !! i = Some p /\ follows (S i) p0 p l /\
    (returned p -> exec p0 (own (S i) l) (Some tt)).
Proof using Hl Hr.
  intros Hi. pose proof (reachable_traced _ _ Hl Hr) as Ht.
  pose proof (lookup_lt_Some _ _ _ Hi) as Hlt. rewrite <- (traced_length _ _ Ht) in Hlt.
  apply lookup_lt_is_Some_2 in Hlt as [p Hp].
  destruct (traced_others _ _ Ht _ _ Hp) as (p1 & Hp1 & Hf). simplify_eq.
  split; [rewrite <- (app_nil_r (own _ _)); apply Hf, exec_nil|].
  exists p. split_and!; [done|done|]. intros Hret.
  by destruct (follows_done _ _ _ _ Hf Hret) as [[] Hex].
Qed.

Lemma initial_program i p0 : others c !! i = Some p0 -> programs c l !! i = Some p0.
Proof using Type. intros Hi. by apply lookup_app_l_Some. Qed.

(** A thread created by the log: where it stands in the list, and that it is
    younger than the initial threads and its creator. *)
Lemma born_program v b n :
  (v, ObsFork b (Some n)) ∈ l ->
  (v < n)%nat /\ (length (others c) < n)%nat /\ exists i, n = S i /\ programs c l !! i = Some b.
Proof using Hl Hr.
  intros Hin. pose proof (reachable_traced _ _ Hl Hr) as Ht.
  split; [by eapply traced_older|].
  pose proof (elem_of_births _ _ _ _ Hin) as [k Hk]%list_elem_of_lookup.
  assert ((births l).*1 !! k = Some n) as Hn by (by rewrite list_lookup_fmap, Hk).
  rewrite (traced_ids _ _ Ht) in Hn. apply lookup_seq in Hn as [-> _].
  split; [lia|]. exists (length (others c) + k)%nat. split; [lia|]. unfold programs.
  rewrite lookup_app_r, list_lookup_fmap by lia.
  by replace (length (others c) + k - length (others c))%nat with k by lia; rewrite Hk.
Qed.

Lemma born_once v b v' b' n :
  (v, ObsFork b (Some n)) ∈ l -> (v', ObsFork b' (Some n)) ∈ l -> b = b'.
Proof using Hl Hr.
  intros H1 H2. destruct (born_program _ _ _ H1) as (_ & _ & i & -> & Hi).
  destruct (born_program _ _ _ H2) as (_ & _ & j & ? & Hj). by simplify_eq.
Qed.

(** No identifier is given twice. *)
Lemma born_distinct v b1 n1 b2 n2 tr1 tr2 tr3 :
  own v l = tr1 ++ ObsFork b1 (Some n1) :: tr2 ++ ObsFork b2 (Some n2) :: tr3 -> n1 <> n2.
Proof using Hl Hr.
  intros E. pose proof (traced_ids _ _ (reachable_traced _ _ Hl Hr)) as Hids.
  assert (NoDup (births l).*1) as Hnd by (rewrite Hids; apply NoDup_seq).
  destruct (own_split _ _ _ _ _ E) as (l1 & l2 & El & _ & E2).
  destruct (own_split _ _ _ _ _ E2) as (l3 & l4 & -> & _ & _). rewrite El in Hnd.
  rewrite births_app, fmap_app in Hnd. apply NoDup_app in Hnd as (_ & _ & Hnd).
  simpl in Hnd. apply NoDup_cons in Hnd as [Hn _]. intros ->. apply Hn.
  unfold births. rewrite omap_app, fmap_app. apply elem_of_app. right. by left.
Qed.

(** A thread is an initial one or born. *)
Lemma program_origin i p0 :
  programs c l !! i = Some p0 ->
  others c !! i = Some p0 \/ exists v, (v, ObsFork p0 (Some (S i))) ∈ l.
Proof using Hl Hr.
  intros [Hi|[Hge Hi]]%lookup_app_Some; [by left|right].
  rewrite list_lookup_fmap in Hi. destruct (births l !! (i - length (others c))%nat) as [[n b]|] eqn:E; [|done].
  simpl in Hi. injection Hi as ->.
  assert ((births l).*1 !! (i - length (others c))%nat = Some n) as Hn by (by rewrite list_lookup_fmap, E).
  rewrite (traced_ids _ _ (reachable_traced _ _ Hl Hr)) in Hn. apply lookup_seq in Hn as [-> _].
  destruct (births_forked _ _ _ (list_elem_of_lookup_2 _ _ _ E)) as [v Hv]. exists v.
  by replace (S i) with (S (length (others c)) + (i - length (others c)))%nat by lia.
Qed.

(** A thread that took a step is the main one, an initial one, or born. *)
Lemma thread_cases t o :
  (t, o) ∈ l ->
  t = 0%nat \/
  (exists i p0, t = S i /\ others c !! i = Some p0) \/
  (exists v b, (v < t)%nat /\ (v, ObsFork b (Some t)) ∈ l).
Proof using Hl Hr.
  intros Hin. pose proof (reachable_traced _ _ Hl Hr) as Ht.
  destruct t as [|i]; [by left|]. right. pose proof (traced_bound _ _ Ht _ Hin) as Hb. simpl in Hb.
  rewrite (traced_length _ _ Ht) in Hb. unfold programs in Hb.
  rewrite length_app, length_fmap in Hb.
  destruct (decide (i < length (others c))%nat) as [Hlt|Hge].
  - left. apply lookup_lt_is_Some_2 in Hlt as [p0 Hp0]. by exists i, p0.
  - right. destruct (lookup_lt_is_Some_2 (births l) (i - length (others c))) as [[n b] Hn]; [lia|].
    assert (n = S i) as ->.
    { assert ((births l).*1 !! (i - length (others c))%nat = Some n) as Hn'
        by (by rewrite list_lookup_fmap, Hn).
      rewrite (traced_ids _ _ Ht) in Hn'. apply lookup_seq in Hn' as [-> _]. lia. }
    apply list_elem_of_lookup_2, births_forked in Hn as [v Hv].
    exists v, b. split; [by eapply traced_older|done].
Qed.
End Traced.

(** ** The steps of a log *)

(** What a logged step did, from [g] to [g']. *)
Definition obs_step (fin : tid -> Prop) (t : tid) (o : obs) (g g' : global W) : Prop :=
  match o with
  | Obs e x => act_sem external fin t e g x g'
  | ObsFork _ _ => memory g' = memory g /\ world g' = world g
  end.

Lemma step_log {R} (c c' : config W R) :
  step c c' -> log (state c') = log (state c) \/
  exists t o, log (state c') = log (state c) ++ [(t, o)] /\
    obs_step (finished c) t o (state c) (state c').
Proof.
  assert (forall fin n t A (p : prog A) (g : global W) born p' g',
    thread_step fin n t p g born p' g' -> log g' = log g \/
    exists o, log g' = log g ++ [(t, o)] /\ obs_step fin t o g g') as Ht.
  { intros fin n t A p g born p' g' Hs. destruct p as [A a|A X e k|A body k|A J S body i k]; simpl in Hs.
    - done.
    - destruct Hs as (_ & x & Hs & _). right. exists (Obs e x). split; [by destruct Hs|done].
    - destruct Hs as (Hm & Hw & [(_ & _ & Hl)|(_ & _ & Hl)]); right; eexists; (split; [done|by split]).
    - destruct Hs as (_ & -> & _). by left. }
  intros Hs. destruct Hs as [born p' g' Hs|i p born p' g' Hi Hs]; apply Ht in Hs as [?|(o & ? & ?)];
    [by left|right; by eexists _, _|by left|right; by eexists _, _].
Qed.

(** A configuration on the way to a reachable one, at a given point of its
    log. *)
Lemma reachable_split {R} (c c' : config W R) l1 t o l2 :
  log (state c) = [] -> reachable c c' -> log (state c') = l1 ++ (t, o) :: l2 ->
  exists c1 c2, reachable c c1 /\ reachable c2 c' /\
    log (state c1) = l1 /\ log (state c2) = l1 ++ [(t, o)] /\
    obs_step (finished c1) t o (state c1) (state c2).
Proof.
  intros Hl Hr. revert l2. revert c' Hr.
  apply (rtc_ind_r (fun c' => forall l2, log (state c') = l1 ++ (t, o) :: l2 -> _)).
  { intros l2 E. rewrite Hl in E. by destruct l1. }
  intros c1 c2 Hr Hs IH l2 E.
  assert (forall l2, log (state c1) = l1 ++ (t, o) :: l2 ->
    exists d1 d2, reachable c d1 /\ reachable d2 c2 /\ log (state d1) = l1 /\
      log (state d2) = l1 ++ [(t, o)] /\ obs_step (finished d1) t o (state d1) (state d2)) as IH'.
  { intros l3 E3. destruct (IH l3 E3) as (d1 & d2 & ? & ? & ? & ? & ?). exists d1, d2.
    split_and!; try done. by eapply rtc_r. }
  destruct (step_log _ _ Hs) as [E'|(u & o' & E' & Ho)]; rewrite E' in E; [by eapply IH'|].
  induction l2 as [|z l3 _] using rev_ind.
  - apply app_inj_tail in E as [E Ex]. injection Ex as -> ->. exists c1, c2.
    rewrite E', E. by split_and!.
  - rewrite app_comm_cons, app_assoc in E. apply app_inj_tail in E as [E _]. by eapply IH'.
Qed.
End Threads.
