(* ===== verification/History.v ===== *)
(** * What the log says of the memory

    The shared memory of a reachable configuration, told from its log: a
    channel queues what was sent to it and not received yet, in order, and
    recounts its senders; a flag has the value last written; identifiers are
    given once. *)

From Stdlib Require Import ZArith.
From stdpp Require Import base numbers list gmap relations.
From S2P Require Import Prelude Core Sys Prog Pool Threads.

(** ** Observations of one channel or flag *)

(** A message, when it is of type [ty]. *)
Definition as_msg (ty : chan_ty) {ty' : chan_ty} : msg ty' -> option (msg ty) :=
  match ty', ty return msg ty' -> option (msg ty) with
  | TyUnit, TyUnit => Some
  | TyChunk, TyChunk => Some
  | TyWait, TyWait => Some
  | _, _ => fun _ => None
  end.

(** The messages sent to channel [l], whether they were queued or not. *)
Definition sends (ty : chan_ty) (l : loc) (o : obs) : option (msg ty) :=
  match o with
  | Obs e _ =>
      match e with
      | Send c m => if decide (chan_key c = (ty, l)) then as_msg ty m else None
      | _ => None
      end
  | ObsFork _ _ => None
  end.

Definition recvs (ty : chan_ty) (l : loc) (o : obs) : option (msg ty) :=
  match o with
  | Obs e x =>
      match e in act X return X -> option (msg ty) with
      | Recv c => fun x => if decide (chan_key c = (ty, l)) then x ≫= as_msg ty else None
      | RecvWithTimeout c _ => fun x =>
          match x with
          | RecvOk => if decide (chan_key c = (ty, l)) then as_msg (ty' := TyUnit) ty tt else None
          | RecvTimedOut | RecvDisconnected => None
          end
      | _ => fun _ => None
      end x
  | ObsFork _ _ => None
  end.

Definition at_key (k k' : chan_ty * loc) : option unit :=
  if decide (k' = k) then Some tt else None.

Definition clones (k : chan_ty * loc) (o : obs) : option unit :=
  match o with
  | Obs (CloneTx c) _ => at_key k (chan_key c)
  | _ => None
  end.

Definition drops (k : chan_ty * loc) (o : obs) : option unit :=
  match o with
  | Obs (DropTx c) _ => at_key k (chan_key c)
  | _ => None
  end.

Definition closes (k : chan_ty * loc) (o : obs) : option unit :=
  match o with
  | Obs (DropRx c) _ => at_key k (chan_key c)
  | _ => None
  end.

Definition writes (l : loc) (o : obs) : option bool :=
  match o with
  | Obs (Store l' b) _ | Obs (Swap l' b) _ => if decide (l' = l) then Some b else None
  | _ => None
  end.

(** The creation of a channel of type [ty], of a flag. *)
Definition creates (ty : chan_ty) (o : obs) : option loc :=
  match o with
  | Obs e x =>
      match e in act X return X -> option loc with
      | NewChan ty' => fun x => if decide (ty' = ty) then Some (chan_loc x) else None
      | _ => fun _ => None
      end x
  | ObsFork _ _ => None
  end.

Definition new_flag (o : obs) : option (loc * bool) :=
  match o with
  | Obs e x =>
      match e in act X return X -> option (loc * bool) with
      | NewFlag b => fun x => Some (x, b)
      | _ => fun _ => None
      end x
  | ObsFork _ _ => None
  end.

(** The identifiers given out. *)
Definition allocs (o : obs) : option loc :=
  match o with
  | Obs e x =>
      match e in act X return X -> option loc with
      | NewFlag _ => fun x => Some x
      | NewMutex => fun x => Some x
      | NewChan _ => fun x => Some (chan_loc x)
      | NewVec => fun x => Some x
      | _ => fun _ => None
      end x
  | ObsFork _ _ => None
  end.

(** ** Invariants over the steps that touch the memory *)

Section History.
Context {W : Type}.
Variable external : tid -> forall X, act X -> W -> X -> W -> Prop.
#[local] Abbreviation step := (step external).
#[local] Abbreviation reachable := (reachable external).

Lemma reachable_memory (I : mem -> list (tid * obs) -> Prop) :
  (forall t el X (e : act X) x m m' l,
     I m l -> mem_step t el e m = Answer x m' -> I m' (l ++ [(t, Obs e x)])) ->
  (forall t X (e : act X) x m l,
     I m l -> mem_step t false e m = External -> I m (l ++ [(t, Obs e x)])) ->
  (forall t body o m l, I m l -> I m (l ++ [(t, ObsFork body o)])) ->
  forall R (c c' : config W R),
    I (memory (state c)) (log (state c)) -> reachable c c' ->
    I (memory (state c')) (log (state c')).
Proof.
  intros Hmem Hext Hfork R c c' HI Hr. induction Hr as [|c c1 c2 Hs _ IH]; [done|].
  apply IH. clear IH c2.
  assert (forall fin n t A (p : prog A) g born p' g',
    I (memory g) (log g) -> thread_step external fin n t p g born p' g' ->
    I (memory g') (log g')) as Hstep.
  { intros fin n t A p g born p' g' Hg Ht.
    destruct p as [A a|A X e k|A body k|A J S body i k]; simpl in Ht; [done| | |].
    - destruct Ht as (_ & x & [Hl [(el & Hm & _)|(Hm & -> & _)]] & _); rewrite Hl; eauto.
    - destruct Ht as (Hm & _ & [(_ & _ & Hl)|(_ & _ & Hl)]); rewrite Hm, Hl; auto.
    - by destruct Ht as (_ & -> & _). }
  destruct Hs; simpl; by eapply Hstep.
Qed.

(** ** One channel *)

(** After the observations [l] made since the channel [lc] was created: what
    was sent is what was received, then what is queued, then what was sent
    with the receiver gone; and each sender not dropped is counted. *)
Record chan_inv (ty : chan_ty) (lc : loc) (m : mem) (l : list obs) : Prop := {
  chan_fifo : exists lost,
    omap (sends ty lc) l = omap (recvs ty lc) l ++ queue ty (chan_at m (ty, lc)) ++ lost /\
    (lost = [] \/ rx (chan_at m (ty, lc)) = false);
  chan_open : rx (chan_at m (ty, lc)) = true \/ omap (closes (ty, lc)) l <> [];
  chan_txs : (S (length (omap (clones (ty, lc)) l)) <=
    txs (chan_at m (ty, lc)) + length (omap (drops (ty, lc)) l))%nat;
  chan_spent l1 l2 : l = l1 ++ l2 -> omap (clones (ty, lc)) l2 = [] ->
    (txs (chan_at m (ty, lc)) <=
     S (length (omap (clones (ty, lc)) l1)) - length (omap (drops (ty, lc)) l2))%nat
}.

Lemma chan_at_set m l l' c :
  chan_at (set_chan l c m) l' = if decide (l = l') then c else chan_at m l'.
Proof.
  unfold chan_at, set_chan. simpl. case_decide as E; [subst; by rewrite lookup_insert_eq|].
  by rewrite lookup_insert_ne.
Qed.

(** What one observation must do to the channel's state, from [s] to [s']. *)
Definition chan_move (ty : chan_ty) (lc : loc) (o : obs) (s s' : chan_state) : Prop :=
  (forall lost, lost = [] \/ rx s = false -> exists lost',
     queue ty s ++ lost ++ option_list (sends ty lc o) =
     option_list (recvs ty lc o) ++ queue ty s' ++ lost' /\ (lost' = [] \/ rx s' = false)) /\
  (rx s' = rx s \/ closes (ty, lc) o = Some tt) /\
  txs s' = (txs s + length (option_list (clones (ty, lc) o)) - length (option_list (drops (ty, lc) o)))%nat.

Lemma chan_inv_move ty lc m m' l o :
  chan_move ty lc o (chan_at m (ty, lc)) (chan_at m' (ty, lc)) ->
  chan_inv ty lc m l -> chan_inv ty lc m' (l ++ [o]).
Proof.
  intros (Hq & Hrx & Htx) [(lost & Hf & Hlost) Ho Ht Hs].
  split; [rewrite !omap_app, !omap_one..|].
  - destruct (Hq lost Hlost) as (lost' & E & Hl'). exists lost'. split; [|done].
    by rewrite Hf, <- !app_assoc, E.
  - destruct Hrx as [->|Hc]; [|right; rewrite Hc; by destruct (omap (closes (ty, lc)) l)].
    destruct Ho as [?|Ho]; [by left|right]. by destruct (omap (closes (ty, lc)) l).
  - rewrite !length_app. lia.
  - intros l1 l2 E Hc. destruct l2 as [|o' l2 _] using rev_ind.
    + rewrite app_nil_r in E. subst l1. specialize (Hs l [] (eq_sym (app_nil_r l)) eq_refl).
      rewrite omap_app, length_app, omap_one. simpl in *. lia.
    + rewrite app_assoc in E. apply app_inj_tail in E as [-> ->].
      rewrite omap_app, omap_one in Hc. apply app_nil in Hc as [Hc Hc'].
      specialize (Hs l1 l2 eq_refl Hc). rewrite omap_app, length_app, omap_one, Htx, Hc'. simpl. lia.
Qed.

Lemma chan_move_still ty lc o s :
  sends ty lc o = None -> recvs ty lc o = None -> clones (ty, lc) o = None ->
  drops (ty, lc) o = None -> chan_move ty lc o s s.
Proof.
  intros Hs Hr Hc Hd. unfold chan_move. rewrite Hs, Hr, Hc, Hd. simpl. split_and!.
  - intros lost Hl. exists lost. by rewrite app_nil_r.
  - by left.
  - lia.
Qed.

(** Each action keeps the account of a channel that exists. *)
Lemma chan_move_step ty (lc : loc) t el {X} (e : act X) m x m' :
  (lc < next m)%nat -> mem_step t el e m = Answer x m' ->
  chan_move ty lc (Obs e x) (chan_at m (ty, lc)) (chan_at m' (ty, lc)).
Proof.
  intros Hlt Hm.
  destruct e; simpl in Hm; try done; repeat case_match; simplify_eq;
    try (change (chan_at (bump ?a) ?b) with (chan_at a b)); rewrite ?chan_at_set;
    try by apply chan_move_still.
  1: { rewrite decide_False by (intros [= _ E]; lia). by apply chan_move_still. }
  5: { destruct (decide (chan_key c = (ty, lc))) as [E|Hne].
       - injection E as -> <-. split_and!; simpl; [|by left|lia]. rewrite decide_True by done.
         intros lost _. exists (lost ++ option_list (as_msg ty m0)). by auto.
       - apply chan_move_still; simpl; by rewrite ?decide_False. }
  5: { apply chan_move_still; simpl; by repeat case_decide. }
  all: case_decide as E;
    [first [injection E as -> <-|injection E as <- <-]|apply chan_move_still; simpl; unfold at_key; by rewrite ?decide_False].
  all: change (@chan_key ?ty c) with (ty, chan_loc c) in *.
  all: split_and!; simpl; unfold at_key; change (@chan_key ?ty c) with (ty, chan_loc c);
    rewrite ?decide_True by done; simpl; try lia; try by left.
  - intros lost Hl. exists lost. rewrite app_nil_r. by destruct ty.
  - intros lost Hl. exists lost. rewrite app_nil_r. by destruct ty.
  - intros lost Hl. exists lost. rewrite app_nil_r. destruct ty; by auto.
  - by right.
  - intros lost [->|?]; [|congruence]. exists []. rewrite app_nil_r. simpl.
    destruct ty; simpl; rewrite ?app_nil_r; by auto.
  - by destruct ty; left.
  - by destruct ty; simpl; lia.
  - intros lost Hl. exists lost. rewrite app_nil_r.
    destruct ty; simpl in *; match goal with H : _ = ?u :: _ |- _ => rewrite ?H; destruct u end; done.
  - by destruct ty; left.
  - by destruct ty; simpl; lia.
  - intros lost Hl. exists lost. rewrite app_nil_r.
    match goal with H : _ = ?u :: _ |- _ => simpl in H; simpl; rewrite ?H; destruct u end; done.
Qed.

Lemma next_mono t el {X} (e : act X) m x m' :
  mem_step t el e m = Answer x m' -> (next m <= next m')%nat.
Proof. intros Hm. destruct e; simpl in Hm; repeat case_match; simplify_eq; simpl; lia. Qed.

(** An action that is not the memory's is not observed here. *)
Lemma external_silent t el {X} (e : act X) m x :
  mem_step t el e m = External ->
  (forall ty l, sends ty l (Obs e x) = None /\ recvs ty l (Obs e x) = None) /\
  (forall ty l, clones (ty, l) (Obs e x) = None /\ drops (ty, l) (Obs e x) = None /\ closes (ty, l) (Obs e x) = None) /\
  (forall l, writes l (Obs e x) = None) /\
  allocs (Obs e x) = None.
Proof. intros Hm. destruct e; simpl in Hm; repeat case_match; done. Qed.

Lemma app_snoc_cons {A} (l l1 l2 : list A) x y :
  l ++ [x] = l1 ++ y :: l2 ->
  (l2 = [] /\ l = l1 /\ x = y) \/ exists l3, l2 = l3 ++ [x] /\ l = l1 ++ y :: l3.
Proof.
  intros E. induction l2 as [|z l3 _] using rev_ind.
  - left. apply app_inj_tail in E as [-> ->]. done.
  - right. rewrite app_comm_cons, app_assoc in E. apply app_inj_tail in E as [-> ->]. by exists l3.
Qed.

Lemma chan_inv_new ty m :
  chan_inv ty (next m) (bump (set_chan (ty, next m) (mkChanState [] [] [] 1 true) m)) [].
Proof.
  split; change (chan_at (bump ?a) ?b) with (chan_at a b); rewrite chan_at_set, decide_True by done;
    simpl; [|by left|lia|].
  - exists []. split; [by destruct ty|by left].
  - intros l1 l2 E _. symmetry in E. apply app_nil in E as [-> ->]. simpl. lia.
Qed.

(** Every channel of the log is in order. *)
Lemma channel_history R (c c' : config W R) ty lc l1 x l2 :
  log (state c) = [] -> reachable c c' ->
  log (state c') = l1 ++ x :: l2 -> creates ty x.2 = Some lc ->
  chan_inv ty lc (memory (state c')) (l2.*2).
Proof.
  intros Hl Hr E Hc. revert l1 x l2 E Hc.
  cut (forall l1 x l2, log (state c') = l1 ++ x :: l2 -> creates ty x.2 = Some lc ->
    (lc < next (memory (state c')))%nat /\ chan_inv ty lc (memory (state c')) (l2.*2)).
  { intros H l1 x l2 E Hc. by eapply H. }
  revert R c c' Hl Hr. cut (forall R (c c' : config W R), log (state c) = [] -> reachable c c' ->
    (fun m l => forall l1 x l2, l = l1 ++ x :: l2 -> creates ty x.2 = Some lc ->
       (lc < next m)%nat /\ chan_inv ty lc m (l2.*2)) (memory (state c')) (log (state c')));
    [done|].
  intros R c c' Hl. apply reachable_memory.
  - intros u el X e y m m' l IH Hm l1 x l2 E Hc.
    destruct (app_snoc_cons _ _ _ _ _ E) as [(-> & _ & <-)|(l3 & -> & ->)].
    + destruct e; simpl in Hc, Hm; simplify_eq; try case_decide; simplify_eq.
      simpl. split; [lia|apply chan_inv_new].
    + destruct (IH _ _ _ eq_refl Hc) as [Hlt HI]. pose proof (next_mono _ _ _ _ _ _ Hm).
      split; [lia|]. rewrite fmap_app. by eapply chan_inv_move, HI; eapply chan_move_step.
  - intros u X e y m l IH Hm l1 x l2 E Hc.
    destruct (app_snoc_cons _ _ _ _ _ E) as [(-> & _ & <-)|(l3 & -> & ->)].
    + by destruct e.
    + destruct (IH _ _ _ eq_refl Hc) as [Hlt HI]. split; [done|]. rewrite fmap_app.
      destruct (external_silent u false e m y Hm) as (Hs & Hcl & _ & _).
      destruct (Hs ty lc), (Hcl ty lc) as (? & ? & _).
      by eapply chan_inv_move, HI; apply chan_move_still.
  - intros u body o m l IH l1 x l2 E Hc.
    destruct (app_snoc_cons _ _ _ _ _ E) as [(-> & _ & <-)|(l3 & -> & ->)]; [done|].
    destruct (IH _ _ _ eq_refl Hc) as [Hlt HI]. split; [done|]. rewrite fmap_app.
    by eapply chan_inv_move, HI; apply chan_move_still.
  - intros l1 x l2 E. rewrite Hl in E. by destruct l1.
Qed.

(** An identifier is given once. *)
Lemma alloc_once R (c c' : config W R) a x y :
  log (state c) = [] -> reachable c c' -> x ∈ log (state c') -> y ∈ log (state c') ->
  allocs x.2 = Some a -> allocs y.2 = Some a -> x = y.
Proof.
  intros Hl Hr Hx Hy Hax Hay.
  assert (NoDup (omap (fun x => allocs x.2) (log (state c'))) /\
    forall a, a ∈ omap (fun x => allocs x.2) (log (state c')) -> (a < next (memory (state c')))%nat)
    as [Hnd _].
  { clear x y Hx Hy Hax Hay. revert R c c' Hl Hr.
    cut (forall R (c c' : config W R), log (state c) = [] -> reachable c c' ->
      (fun m l => NoDup (omap (fun x : tid * obs => allocs x.2) l) /\
        forall a, a ∈ omap (fun x => allocs x.2) l -> (a < next m)%nat)
        (memory (state c')) (log (state c'))); [done|].
    intros R c c' Hl. apply reachable_memory.
    - intros u el X e x m m' l [Hnd Hlt] Hm. rewrite omap_app, omap_one. cbn [snd].
      pose proof (next_mono _ _ _ _ _ _ Hm) as Hn.
      assert (match allocs (Obs e x) with Some b => b = next m /\ next m' = S (next m) | None => True end)
        as Ha by (destruct e; simpl in Hm |- *; repeat case_match; simplify_eq; done).
      destruct (allocs (Obs e x)) as [b|]; simpl; [destruct Ha as [-> Hn']|].
      + split.
        * apply NoDup_app. split_and!; [done| |by apply NoDup_singleton].
          intros z Hz ->%list_elem_of_singleton. specialize (Hlt _ Hz). lia.
        * intros z [Hz|Hz%list_elem_of_singleton]%elem_of_app; [|lia]. specialize (Hlt _ Hz). lia.
      + rewrite app_nil_r. split; [done|]. intros z Hz. specialize (Hlt _ Hz). lia.
    - intros u X e x m l [Hnd Hlt] Hm. rewrite omap_app, omap_one.
      cbn [snd]. destruct (external_silent u false e m x Hm) as (_ & _ & _ & ->). by rewrite app_nil_r.
    - intros u body o m l [Hnd Hlt]. rewrite omap_app. simpl. by rewrite app_nil_r.
    - rewrite Hl. simpl. split; [constructor|]. by intros ? ?%elem_of_nil. }
  apply list_elem_of_split in Hx as (l1 & l2 & E). rewrite E in Hy, Hnd.
  rewrite omap_app in Hnd. simpl in Hnd. rewrite Hax in Hnd.
  apply NoDup_app in Hnd as (_ & Hd & [Hn _]%NoDup_cons).
  assert (forall l, y ∈ l -> a ∈ omap (fun x : tid * obs => allocs x.2) l) as Hin
    by (intros l Hyl; apply list_elem_of_omap; by exists y).
  apply elem_of_app in Hy as [Hy|[->|Hy]%elem_of_cons]; [|done|].
  - by destruct (Hd a (Hin _ Hy)); left.
  - by destruct (Hn (Hin _ Hy)).
Qed.

Lemma flag_step f b0 t el {X} (e : act X) m x m' l :
  (f < next m)%nat -> mem_step t el e m = Answer x m' ->
  flag m f = default b0 (last (omap (writes f) l)) ->
  flag m' f = default b0 (last (omap (writes f) l ++ option_list (writes f (Obs e x)))).
Proof.
  intros Hlt Hm HI.
  assert (forall f' b', f' <> f -> flag (set_flag f' b' m) f = flag m f) as Hne
    by (intros; unfold flag; simpl; by rewrite lookup_insert_ne).
  assert (forall b', flag (set_flag f b' m) f = b') as Heq
    by (intros; unfold flag; simpl; by rewrite lookup_insert_eq).
  destruct e; simpl in Hm |- *; repeat case_match; simplify_eq; simpl; rewrite ?app_nil_r, ?last_snoc; try done;
    try (by rewrite Heq); try by rewrite Hne.
  change (flag (set_flag (next m) b m) f = default b0 (last (omap (writes f) l))).
  rewrite Hne; [done|lia].
Qed.

(** A flag has the value last written. *)
Lemma flag_history R (c c' : config W R) f b0 l1 x l2 :
  log (state c) = [] -> reachable c c' ->
  log (state c') = l1 ++ x :: l2 -> new_flag x.2 = Some (f, b0) ->
  flag (memory (state c')) f = default b0 (last (omap (writes f) (l2.*2))).
Proof.
  intros Hl Hr E Hc. revert l1 x l2 E Hc.
  cut (forall l1 x l2, log (state c') = l1 ++ x :: l2 -> new_flag x.2 = Some (f, b0) ->
    (f < next (memory (state c')))%nat /\
    flag (memory (state c')) f = default b0 (last (omap (writes f) (l2.*2)))).
  { intros H l1 x l2 E Hc. by eapply H. }
  revert R c c' Hl Hr. cut (forall R (c c' : config W R), log (state c) = [] -> reachable c c' ->
    (fun m l => forall l1 x l2, l = l1 ++ x :: l2 -> new_flag x.2 = Some (f, b0) ->
       (f < next m)%nat /\ flag m f = default b0 (last (omap (writes f) (l2.*2))))
      (memory (state c')) (log (state c'))); [done|].
  intros R c c' Hl. apply reachable_memory.
  - intros u el X e y m m' l IH Hm l1 x l2 E Hc.
    destruct (app_snoc_cons _ _ _ _ _ E) as [(-> & _ & <-)|(l3 & -> & ->)].
    + destruct e; simpl in Hc, Hm; simplify_eq. simpl. split; [lia|].
      unfold flag. simpl. by rewrite lookup_insert_eq.
    + destruct (IH _ _ _ eq_refl Hc) as [Hlt HI]. pose proof (next_mono _ _ _ _ _ _ Hm).
      split; [lia|]. rewrite fmap_app, omap_app. cbn [fmap list_fmap snd]. rewrite omap_one.
      by eapply flag_step.
  - intros u X e y m l IH Hm l1 x l2 E Hc.
    destruct (app_snoc_cons _ _ _ _ _ E) as [(-> & _ & <-)|(l3 & -> & ->)].
    + by destruct e.
    + destruct (IH _ _ _ eq_refl Hc) as [Hlt HI]. split; [done|].
      rewrite fmap_app, omap_app. cbn [fmap list_fmap snd]. rewrite omap_one.
      destruct (external_silent u false e m y Hm) as (_ & _ & Hw & _).
      rewrite (Hw f). by rewrite app_nil_r.
  - intros u body o m l IH l1 x l2 E Hc.
    destruct (app_snoc_cons _ _ _ _ _ E) as [(-> & _ & <-)|(l3 & -> & ->)]; [done|].
    destruct (IH _ _ _ eq_refl Hc) as [Hlt HI]. split; [done|].
    rewrite fmap_app, omap_app. simpl. by rewrite app_nil_r.
  - intros l1 x l2 E. rewrite Hl in E. by destruct l1.
Qed.
(** ** One local buffer *)

(** What is appended to it. *)
Definition extends (b : loc) (o : obs) : option (list Byte.byte) :=
  match o with
  | Obs e _ =>
      match e with
      | Extend l bytes => if decide (l = b) then Some bytes else None
      | _ => None
      end
  | ObsFork _ _ => None
  end.

Definition new_vec (o : obs) : option loc :=
  match o with
  | Obs e x =>
      match e in act X return X -> option loc with
      | NewVec => fun x => Some x
      | _ => fun _ => None
      end x
  | ObsFork _ _ => None
  end.

Lemma vec_other k k' v m : k <> k' -> vec (set_vec k v m) k' = vec m k'.
Proof. intros Hne. unfold vec. simpl. by rewrite lookup_insert_ne. Qed.

Lemma vec_same k v m : vec (set_vec k v m) k = v.
Proof. unfold vec. simpl. by rewrite lookup_insert_eq. Qed.

Lemma vec_step t b u el {X} (e : act X) m x m' :
  (b < next m)%nat -> mem_step u el e m = Answer x m' ->
  vec m' (t, b) = vec m (t, b) ++ (if decide (u = t) then default [] (extends b (Obs e x)) else []).
Proof.
  intros Hlt Hm. assert (forall A, (if decide (u = t) then [] else []) = @nil A) as Hnil
    by (intros A; by case_decide).
  destruct e;
    simpl in Hm |- *; rewrite ?Hnil, ?app_nil_r;
    try (repeat case_match; by simplify_eq); simplify_eq.
  - change (vec (set_vec (u, next m) [] m) (t, b) = vec m (t, b)).
    apply vec_other. intros [= _ ?]. lia.
  - match goal with |- context [set_vec (u, ?l') _ _] => rename l' into l end.
    destruct (decide (u = t)) as [->|Hne].
    + destruct (decide (l = b)) as [->|Hne]; simpl; [by rewrite vec_same|].
      rewrite app_nil_r. apply vec_other. congruence.
    + rewrite app_nil_r. apply vec_other. congruence.
Qed.

(** A buffer holds what its thread has appended to it. *)
Lemma vec_history R (c c' : config W R) b l1 x l2 :
  log (state c) = [] -> reachable c c' ->
  log (state c') = l1 ++ x :: l2 -> new_vec x.2 = Some b ->
  (b < next (memory (state c')))%nat /\
  vec (memory (state c')) (x.1, b) = concat (omap (extends b) (own x.1 l2)).
Proof.
  intros Hl Hr E Hc. revert l1 l2 E. revert R c c' Hl Hr. cut (forall R (c c' : config W R), log (state c) = [] -> reachable c c' ->
    (fun m l => forall l1 l2, l = l1 ++ x :: l2 ->
       (b < next m)%nat /\ vec m (x.1, b) = concat (omap (extends b) (own x.1 l2)))
      (memory (state c')) (log (state c'))); [done|].
  intros R c c' Hl. apply reachable_memory.
  - intros u el X e y m m' l IH Hm l1 l2 E.
    destruct (app_snoc_cons _ _ _ _ _ E) as [(-> & _ & <-)|(l3 & -> & ->)].
    + destruct e; simpl in Hc, Hm; simplify_eq. simpl. split; [lia|]. apply vec_same.
    + destruct (IH _ _ eq_refl) as [Hlt HI]. pose proof (next_mono _ _ _ _ _ _ Hm). split; [lia|].
      rewrite (vec_step _ _ _ _ _ _ _ _ Hlt Hm), own_app, omap_app, concat_app, own_cons.
      f_equal; [exact HI|].
      simpl fst. case_decide; [|done]. rewrite app_nil_r. simpl snd. rewrite omap_one.
      destruct (extends b (Obs e y)); [|done]. simpl. by rewrite app_nil_r.
  - intros u X e y m l IH Hm l1 l2 E.
    destruct (app_snoc_cons _ _ _ _ _ E) as [(-> & _ & <-)|(l3 & -> & ->)]; [by destruct e|].
    destruct (IH _ _ eq_refl) as [Hlt HI]. split; [done|]. rewrite HI, own_app, omap_app, concat_app, own_cons.
    assert (extends b (Obs e y) = None) as He by (destruct e; simpl in Hm; repeat case_match; done).
    simpl fst. case_decide; simpl; [|by rewrite app_nil_r].
    fold (extends b (Obs e y)). rewrite He. simpl. by rewrite app_nil_r.
  - intros u body o m l IH l1 l2 E.
    destruct (app_snoc_cons _ _ _ _ _ E) as [(-> & _ & <-)|(l3 & -> & ->)]; [done|].
    destruct (IH _ _ eq_refl) as [Hlt HI]. split; [done|]. rewrite HI, own_app, omap_app, concat_app, own_cons.
    simpl fst. case_decide; simpl; by rewrite app_nil_r.
  - intros l1 l2 E. rewrite Hl in E. by destruct l1.
Qed.

(** *** An [Arc] that nobody has cloned *)

(** A clone or a drop of the [Arc] at [a], and its creation. *)
Definition recounts (a : loc) (o : obs) : Prop :=
  match o with
  | Obs (ArcClone a') _ | Obs (ArcDrop a') _ => a' = a
  | _ => False
  end.

Definition makes (a : loc) (o : obs) : Prop :=
  match o with
  | Obs e x =>
      match e in act X return X -> Prop with
      | NewArc _ => fun x => x = a
      | _ => fun _ => False
      end x
  | ObsFork _ _ => False
  end.

Lemma arc_other a a' v m : a' <> a -> arc_at (set_arc a' v m) a = arc_at m a.
Proof. intros Hne. unfold arc_at. simpl. by rewrite lookup_insert_ne. Qed.

Lemma arc_step a t el {X} (e : act X) m x m' :
  mem_step t el e m = Answer x m' -> ~ recounts a (Obs e x) ->
  (makes a (Obs e x) -> (arc_at m' a).1 = 1%nat /\ (a < next m')%nat) /\
  ((a < next m)%nat -> arc_at m' a = arc_at m a).
Proof.
  intros Hm Hn. destruct e; simpl in Hm, Hn |- *; repeat case_match; simplify_eq;
    (split; [try done|intros; try done; try by apply arc_other]).
  - intros <-. split; [|simpl; lia]. change (arc_at (bump ?m) ?l) with (arc_at m l).
    unfold arc_at. simpl. by rewrite lookup_insert_eq.
  - change (arc_at (bump ?m) ?l) with (arc_at m l). apply arc_other. lia.
Qed.

(** The first drop of an [Arc] that was never cloned is its last. *)
Lemma sole_arc R (c c' : config W R) l1 t a (last : bool) l2 :
  log (state c) = [] -> reachable c c' ->
  log (state c') = l1 ++ (t, Obs (ArcDrop a) last) :: l2 ->
  (exists x, x ∈ l1 /\ makes a x.2) -> Forall (fun x => ~ recounts a x.2) l1 -> last = true.
Proof.
  intros Hl Hr E Hnew Hsole.
  destruct (reachable_split _ _ _ _ _ _ _ Hl Hr E) as (c1 & c2 & Hr1 & _ & E1 & _ & Ho).
  destruct Ho as [_ [(el & [= <- _] & _)|(Hm & _)]]; [|done].
  enough ((arc_at (memory (state c1)) a).1 = 1%nat) as -> by done.
  rewrite <- E1 in Hnew, Hsole. clear c' c2 l2 el Hr E E1.
  revert Hnew Hsole. revert R c c1 Hl Hr1.
  cut (forall R (c c1 : config W R), log (state c) = [] -> reachable c c1 ->
    (fun (m : mem) (l : list (tid * obs)) => (exists x : tid * obs, x ∈ l /\ makes a x.2) -> Forall (fun x => ~ recounts a x.2) l ->
       (arc_at m a).1 = 1%nat /\ (a < next m)%nat) (memory (state c1)) (log (state c1))).
  { intros H R c c1 Hl Hr Hx Hs. by apply (H R c c1). }
  intros R c c1 Hl. apply reachable_memory.
  - intros u el X e y m m' l IH Hm (x & [Hx|Hx%list_elem_of_singleton]%elem_of_app & Hmk)
      [Hs [Hone _]%Forall_cons]%Forall_app; destruct (arc_step a _ _ _ _ _ _ Hm Hone) as [Hnew Hold].
    + destruct IH as [IH Hlt]; [by exists x|done|]. rewrite Hold by done.
      pose proof (next_mono _ _ _ _ _ _ Hm). split; [done|lia].
    + subst. by apply Hnew.
  - intros u X e y m l IH Hm (x & [Hx|Hx%list_elem_of_singleton]%elem_of_app & Hmk)
      [Hs _]%Forall_app; [apply IH; [by exists x|done]|]. subst. by destruct e.
  - intros u body o m l IH (x & [Hx|Hx%list_elem_of_singleton]%elem_of_app & Hmk)
      [Hs _]%Forall_app; [apply IH; [by exists x|done]|]. by subst.
  - rewrite Hl. by intros (x & ?%elem_of_nil & _).
Qed.

(** *** What a mutex has held *)

(** What was put under the mutex at [l], and what was found there. *)
Definition puts (l : loc) (o : obs) : option KillHandle :=
  match o with
  | Obs e _ =>
      match e with
      | SetSlot l' v => if decide (l' = l) then v else None
      | _ => None
      end
  | ObsFork _ _ => None
  end.

Definition finds (l : loc) (o : obs) : option KillHandle :=
  match o with
  | Obs e x =>
      match e in act X return X -> option KillHandle with
      | GetSlot l' => fun v => if decide (l' = l) then v else None
      | _ => fun _ => None
      end x
  | ObsFork _ _ => None
  end.

Lemma mutex_at_set m l l' v :
  mutex_at (set_mutex l v m) l' = if decide (l = l') then v else mutex_at m l'.
Proof.
  unfold mutex_at, set_mutex. simpl. case_decide as E; [subst; by rewrite lookup_insert_eq|].
  by rewrite lookup_insert_ne.
Qed.

Lemma slot_step l t el {X} (e : act X) m x m' k :
  mem_step t el e m = Answer x m' ->
  (value (mutex_at m' l) = Some k -> value (mutex_at m l) = Some k \/ puts l (Obs e x) = Some k) /\
  (finds l (Obs e x) = Some k -> value (mutex_at m l) = Some k).
Proof.
  intros Hm. destruct e; simpl in Hm |- *; repeat case_match; simplify_eq; (split; [|try done]);
    try (change (mutex_at (bump ?a) ?b) with (mutex_at a b)); rewrite ?mutex_at_set; try by left.
  all: try (case_decide; subst; simpl; by auto).
Qed.

(** What was found under a mutex was put there. *)
Lemma slot_history R (c c' : config W R) l t o k :
  Forall (fun x => finds l x.2 = None) (log (state c)) ->
  value (mutex_at (memory (state c)) l) = None -> reachable c c' ->
  (t, o) ∈ log (state c') -> finds l o = Some k ->
  exists u o', (u, o') ∈ log (state c') /\ puts l o' = Some k.
Proof.
  intros Hl Hv Hr. revert R c c' Hl Hv Hr t o.
  cut (forall R (c c' : config W R), Forall (fun x => finds l x.2 = None) (log (state c)) ->
    value (mutex_at (memory (state c)) l) = None ->
    reachable c c' -> (fun (m : mem) (lg : list (tid * obs)) =>
      (value (mutex_at m l) = Some k -> exists x, x ∈ lg /\ puts l x.2 = Some k) /\
      forall x, x ∈ lg -> finds l x.2 = Some k -> exists y, y ∈ lg /\ puts l y.2 = Some k)
    (memory (state c')) (log (state c'))).
  { intros H R c c' Hl Hv Hr t o Hin Ho. destruct (H R c c' Hl Hv Hr) as [_ Hf].
    destruct (Hf (t, o) Hin Ho) as ([u o'] & ? & ?). by exists u, o'. }
  intros R c c' Hl Hv.
  assert (forall (lg : list (tid * obs)) z, (exists x, x ∈ lg /\ puts l x.2 = Some k) ->
    exists x, x ∈ lg ++ [z] /\ puts l x.2 = Some k) as Hmore.
  { intros lg z (x & ? & ?). exists x. rewrite elem_of_app. auto. }
  apply reachable_memory.
  - intros u el X e y m m' lg [IHv IHf] Hm. destruct (slot_step l _ _ _ _ _ _ k Hm) as [Hput Hfind].
    split.
    + intros [Hm'|Hp]%Hput; [by apply Hmore, IHv|].
      exists (u, Obs e y). split; [apply elem_of_app; right; by left|done].
    + intros x [Hx| ->%list_elem_of_singleton]%elem_of_app Hf; apply Hmore; [by apply (IHf x)|by apply IHv, Hfind].
  - intros u X e y m lg [IHv IHf] Hm. split; [by intros Hv'; apply Hmore, IHv|].
    intros x [Hx| ->%list_elem_of_singleton]%elem_of_app Hf; apply Hmore; [by apply (IHf x)|by destruct e].
  - intros u body o m lg [IHv IHf]. split; [by intros Hv'; apply Hmore, IHv|].
    intros x [Hx| ->%list_elem_of_singleton]%elem_of_app Hf; apply Hmore; [by apply (IHf x)|done].
  - rewrite Hv, Forall_forall in *. split; [done|]. intros x Hx Hf. by rewrite (Hl x Hx) in Hf.
Qed.

(** Every action of the log that is not the memory's was answered by the
    world. *)
Lemma external_history R (c c' : config W R) (ok : obs -> Prop) :
  (forall t X (e : act X) x w w', external t X e w x w' -> ok (Obs e x)) ->
  log (state c) = [] -> reachable c c' ->
  forall t X (e : act X) x, (forall u el m, mem_step u el e m = External) ->
  (t, Obs e x) ∈ log (state c') -> ok (Obs e x).
Proof.
  intros Hok Hl Hr t X e x He Hin. apply list_elem_of_split in Hin as (l1 & l2 & E).
  destruct (reachable_split _ _ _ _ _ _ _ Hl Hr E) as (c1 & c2 & _ & _ & _ & _ & Ho).
  destruct Ho as [_ [(el & Hm & _)|(_ & _ & Hx & _)]]; [by rewrite He in Hm|by eapply Hok].
Qed.
End History.
