(* ===== verification/Locks.v ===== *)
(** * The lock discipline

    A thread that holds a mutex goes on to release it: while it holds one it
    locks no other, waits for no message and joins no thread ([tidy]). With
    the history of the mutexes this says that a mutex is only ever held by a
    thread that can take its next step. *)

From Stdlib Require Import ZArith.
From stdpp Require Import base numbers list gmap relations.
From S2P Require Import Prelude Core Machine Sys Prog Os Drains Task Run Pool Threads History.

Open Scope Z_scope.

(** The locking and unlocking of mutex [l]. *)
Definition locks (l : loc) (o : obs) : option bool :=
  match o with
  | Obs e _ =>
      match e with
      | Lock l' => if decide (l' = l) then Some true else None
      | Unlock l' => if decide (l' = l) then Some false else None
      | _ => None
      end
  | ObsFork _ _ => None
  end.

(** The mutex held after a step, from the one held before it; [None] when the
    step breaks the discipline. *)
Definition lock_step (s : option loc) (o : obs) : option (option loc) :=
  match o with
  | Obs e _ =>
      match e with
      | Lock l => match s with None => Some (Some l) | Some _ => None end
      | Unlock l =>
          match s with
          | Some l' => if decide (l' = l) then Some None else None
          | None => None
          end
      | Recv _ | Join _ => match s with None => Some None | Some _ => None end
      | _ => Some s
      end
  | ObsFork _ _ => Some s
  end.

Fixpoint held (s : option loc) (tr : list obs) : option (option loc) :=
  match tr with
  | [] => Some s
  | o :: tr => lock_step s o ≫= fun s => held s tr
  end.

(** A step that touches no mutex; nor do those of the threads it starts, to
    the given depth. *)
Fixpoint lock_free (n : nat) (o : obs) : Prop :=
  match o with
  | Obs e _ => match e with Lock _ | Unlock _ => False | _ => True end
  | ObsFork body _ => match n with O => False | S n => all_obs (lock_free n) body end
  end.

(** A step that can be taken with a mutex held. *)
Definition still_obs (o : obs) : Prop :=
  match o with
  | Obs e _ => match e with Lock _ | Unlock _ | Recv _ | Join _ => False | _ => True end
  | ObsFork _ _ => False
  end.

Definition fork_free (o : obs) : Prop :=
  match o with
  | Obs _ _ => True
  | ObsFork body _ => exists n, all_obs (lock_free n) body
  end.

Definition tidy {A} (p : prog A) : Prop :=
  forall tr r, exec p tr r ->
    Forall fork_free tr /\
    match r with
    | None => is_Some (held None tr)
    | Some _ => held None tr = Some None
    end.

(** ** Lemmas *)

Lemma held_app s tr tr' : held s (tr ++ tr') = held s tr ≫= fun s => held s tr'.
Proof.
  revert s. induction tr as [|o tr IH]; intros s; [done|]. simpl. destruct (lock_step s o); simpl; auto.
Qed.

Lemma held_still s tr : Forall still_obs tr -> held s tr = Some s.
Proof.
  induction 1 as [|o tr Ho _ IH]; [done|]. simpl. destruct o as [X e x|]; [|done].
  by destruct e.
Qed.

Lemma held_free n tr : Forall (lock_free n) tr -> held None tr = Some None.
Proof.
  induction 1 as [|o tr Ho _ IH]; [done|]. simpl. destruct o as [X e x|]; [|done].
  destruct n; by destruct e.
Qed.

(** What a thread with a discipline holds is what it last locked. *)
Lemma held_last l tr :
  is_Some (held None tr) -> last (omap (locks l) tr) = Some true -> held None tr = Some (Some l).
Proof.
  induction tr as [|o tr IH] using rev_ind; [done|].
  rewrite held_app, omap_app, omap_one. intros [s Hs] Hl.
  destruct (held None tr) as [s1|] eqn:E; [|done]. simpl in Hs |- *.
  destruct (lock_step s1 o) as [s2|] eqn:E2; [|done]. simpl in Hs |- *. injection Hs as ->.
  assert (locks l o = None -> s1 = Some l -> Some s = Some (Some l)) as Hkeep.
  { intros Hn ->. destruct o as [X e x|]; [|by simplify_eq/=].
    destruct e; simpl in E2, Hn; repeat case_decide; by simplify_eq. }
  destruct (locks l o) as [b|] eqn:Eo; simpl in Hl.
  - rewrite last_snoc in Hl. injection Hl as ->. destruct o as [X e x|]; [|done].
    destruct e; simpl in Eo; try done; case_decide; simplify_eq/=.
    by destruct s1; simplify_eq.
  - rewrite app_nil_r in Hl. specialize (IH (mk_is_Some _ _ eq_refl) Hl). simplify_eq. by apply Hkeep.
Qed.

(** *** Programs *)

Lemma tidy_ret {A} (a : A) : tidy (Ret a).
Proof. intros tr r [-> [-> | ->]]; split; done. Qed.

Lemma tidy_bind {A B} (p : prog A) (f : A -> prog B) :
  tidy p -> (forall a, tidy (f a)) -> tidy (bind p f).
Proof.
  intros Hp Hf tr r [[-> Hex]|(a & tr1 & tr2 & -> & Hex & Hk)]%exec_bind_inv; [exact (Hp _ _ Hex)|].
  destruct (Hp _ _ Hex) as [H1 H2], (Hf _ _ _ Hk) as [H3 H4]. split; [by apply Forall_app|].
  destruct r; rewrite held_app, H2; done.
Qed.

Lemma tidy_free {A} n (p : prog A) : all_obs (lock_free n) p -> tidy p.
Proof.
  intros Hp tr r Hex. pose proof (Hp _ _ Hex) as Htr. split.
  - eapply Forall_impl; [exact Htr|]. intros [X e x|body t]; [done|]. destruct n; [done|]. by exists n.
  - rewrite (held_free n) by done. by destruct r.
Qed.

(** A block under a lock. *)
Lemma tidy_locked l (p : bool -> prog unit) :
  (forall b, all_obs still_obs (p b)) ->
  tidy (let! b := do_act (Lock l) in p b ;;; do_act (Unlock l)).
Proof.
  intros Hp tr r [[-> ->]|(b & tr1 & -> & Hex)]; [by split|].
  change (exec (p b ;;; do_act (Unlock l)) tr1 r) in Hex.
  assert (forall tr, Forall still_obs tr -> Forall fork_free tr) as Hff.
  { intros t Ht. eapply Forall_impl; [exact Ht|]. by intros []. }
  apply exec_bind_inv in Hex as [[-> Hex]|([] & tr2 & tr3 & -> & Hex & Hu)];
    pose proof (Hp _ _ _ Hex) as Hs.
  - split; [by constructor; [|apply Hff]|]. simpl. by rewrite held_still.
  - destruct Hu as [[-> ->]|([] & tr4 & -> & [-> Hr])].
    + rewrite app_nil_r. split; [by constructor; [|apply Hff]|]. simpl. by rewrite held_still.
    + split; [constructor; [done|]; apply Forall_app; split; [by apply Hff|by repeat constructor]|].
      simpl. rewrite held_app, held_still by done. simpl. rewrite decide_True by done.
      by destruct Hr as [-> | ->].
Qed.

Lemma plain_free n o : plain_obs o -> lock_free n o.
Proof. destruct o as [X e x|]; [|done]. destruct n; by destruct e. Qed.

Lemma plain_still o : plain_obs o -> still_obs o.
Proof. destruct o as [X e x|]; [|done]. by destruct e. Qed.

Lemma os_obs_free o : os_obs o -> lock_free 1 o.
Proof.
  destruct o as [X e x|body t]; [by destruct e|]. simpl. apply all_obs_impl.
  intros [X e x|]; [by destruct e|done].
Qed.

Ltac tidy_step :=
  lazymatch goal with
  | |- tidy (Ret _) => apply tidy_ret
  | |- tidy (bind _ _) => apply tidy_bind; [|intros]
  | |- tidy (do_act _) => apply (tidy_free 0); all_obs_solve ltac:(done)
  | |- tidy (match ?x with _ => _ end) => destruct x
  end.
Ltac tidy_solve := intros; repeat tidy_step; eauto with aer.

Section Tidy.
Context `{P : OsProcess} {L : OsProcessLaws P} {D : OsDrains P}.

Lemma tidy_plain {A} (p : prog A) : all_obs plain_obs p -> tidy p.
Proof. intros Hp. apply (tidy_free 0). eapply all_obs_impl; [apply plain_free|done]. Qed.

Lemma tidy_spawn pr ar op : tidy (os_spawn pr ar op).
Proof using D. apply tidy_plain, plain_spawn. Qed.
Lemma tidy_kill kill grace : tidy (os_kill_escalating kill grace).
Proof using D. apply tidy_plain, plain_kill. Qed.
Lemma tidy_alive kill : tidy (os_tree_alive kill).
Proof using D. apply tidy_plain, plain_alive. Qed.
Lemma tidy_reap kill : tidy (os_reap_abandoned kill).
Proof using D. apply tidy_plain, plain_reap. Qed.

Lemma tidy_clone kill : tidy (kill_clone kill).
Proof. apply (tidy_free 0). auto with aer. Qed.
Lemma tidy_drop kill : tidy (kill_drop kill).
Proof. apply (tidy_free 0). auto with aer. Qed.

Lemma free_wait handle sinks : all_obs (lock_free 1) (os_wait handle sinks).
Proof using L. eapply all_obs_impl; [apply os_obs_free|apply os_wait_obs]. Qed.
Lemma free_kill n kill grace : all_obs (lock_free n) (os_kill_escalating kill grace).
Proof using D. eapply all_obs_impl; [apply plain_free|apply plain_kill]. Qed.
Lemma free_alive n kill : all_obs (lock_free n) (os_tree_alive kill).
Proof using D. eapply all_obs_impl; [apply plain_free|apply plain_alive]. Qed.
Lemma still_kill kill grace : all_obs still_obs (os_kill_escalating kill grace).
Proof using D. eapply all_obs_impl; [apply plain_still|apply plain_kill]. Qed.
Lemma still_alive kill : all_obs still_obs (os_tree_alive kill).
Proof using D. eapply all_obs_impl; [apply plain_still|apply plain_alive]. Qed.

#[local] Hint Resolve tidy_spawn tidy_kill tidy_alive tidy_reap tidy_clone tidy_drop free_wait free_kill free_alive
  still_kill still_alive : aer.

Lemma tidy_cancel ch : tidy (cancel ch).
Proof using D.
  unfold cancel. tidy_step; [tidy_step|]. destruct (negb a); [|tidy_step].
  apply tidy_locked. intros b. all_obs_solve ltac:(done).
Qed.

Lemma tidy_set_kill ch v : tidy (set_kill ch v).
Proof.
  unfold set_kill. apply (tidy_locked (kill_slot ch) (fun _ =>
    let! old := do_act (SetSlot (kill_slot ch) v) in kill_drop_opt old)).
  intros _. all_obs_solve ltac:(done).
Qed.

#[local] Hint Resolve tidy_cancel tidy_set_kill : aer.

Lemma tidy_wire ch kill : tidy (wire_cancel ch kill).
Proof using D. unfold wire_cancel. tidy_solve. Qed.

Lemma tidy_unwire ch : tidy (unwire_cancel ch).
Proof. unfold unwire_cancel. tidy_solve. Qed.

Lemma tidy_fork n body : all_obs (lock_free n) body -> tidy (fork body).
Proof. intros Hb. apply (tidy_free (S n)). all_obs_solve ltac:(done). Qed.

Lemma tidy_monitor timeout kill timed_out cancel_ch :
  tidy (start_monitor timeout kill timed_out cancel_ch).
Proof using D.
  unfold start_monitor, thread_spawn. tidy_solve.
  apply (tidy_fork 0). unfold monitor_body. all_obs_solve ltac:(done).
Qed.

Lemma wait_body_free handle sinks wait_ch : all_obs (lock_free 1) (wait_body handle sinks wait_ch).
Proof using L. unfold wait_body. all_obs_solve ltac:(done). Qed.

Lemma tidy_pump on_event chunk_ch :
  (forall ev, all_obs (lock_free 0) (on_event ev)) -> tidy (pump on_event chunk_ch).
Proof.
  intros Hon. apply (tidy_free 0). unfold pump, pump_round. all_obs_solve ltac:(done).
Qed.

Lemma tidy_capturing on_event handle :
  (forall ev, all_obs (lock_free 0) (on_event ev)) -> tidy (wait_capturing on_event handle).
Proof using L.
  intros Hon. unfold wait_capturing, thread_spawn. repeat tidy_step; auto using tidy_pump, tidy_drop.
  apply (tidy_fork 1), wait_body_free.
Qed.

Lemma tidy_discarding handle : tidy (wait_discarding handle).
Proof using L. unfold wait_discarding. repeat tidy_step. apply (tidy_free 1), free_wait. Qed.

Lemma tidy_finish on_event ch machine timed_out cancel_ch os_code :
  (forall ev, all_obs (lock_free 0) (on_event ev)) ->
  tidy (finish on_event ch machine timed_out cancel_ch os_code).
Proof.
  intros Hon. unfold finish. repeat tidy_step; auto using tidy_unwire. by apply (tidy_free 0).
Qed.

Lemma tidy_guard_drop g : tidy (guard_drop g).
Proof using D. unfold guard_drop. tidy_solve. Qed.

Lemma tidy_drop_handle handle : tidy (drop_handle handle).
Proof. unfold drop_handle. tidy_solve. Qed.

Lemma tidy_guarded_body task on_event ch machine handle g :
  (forall ev, all_obs (lock_free 0) (on_event ev)) ->
  tidy (guarded_body task on_event ch machine handle g).
Proof using L D.
  intros Hon. unfold guarded_body.
  repeat tidy_step;
    auto using tidy_wire, tidy_monitor, tidy_finish, tidy_capturing, tidy_discarding.
  all: by apply (tidy_free 0).
Qed.

Lemma tidy_run task on_event ch :
  (forall ev, all_obs (lock_free 0) (on_event ev)) -> tidy (run_impl task on_event ch).
Proof using L D.
  intros Hon. unfold run_impl. repeat tidy_step; auto using tidy_guarded_body, tidy_guard_drop,
    tidy_spawn, tidy_clone, tidy_drop_handle.
Qed.
End Tidy.

(** ** Who holds a mutex *)

Section Holders.
Context {W : Type}.
Variable external : tid -> forall X, act X -> W -> X -> W -> Prop.
#[local] Abbreviation reachable := (reachable external).

(** The holder of a mutex is the thread that last locked it, and it has not
    unlocked it since. *)
Lemma mutex_step l t el {X} (e : act X) m x m' lg :
  mem_step t el e m = Answer x m' ->
  (forall h, holder (mutex_at m l) = Some h -> last (omap (locks l) (own h lg)) = Some true) ->
  forall h, holder (mutex_at m' l) = Some h ->
    last (omap (locks l) (own h (lg ++ [(t, Obs e x)]))) = Some true.
Proof.
  intros Hm HI.
  assert (locks l (Obs e x) = None -> holder (mutex_at m' l) = holder (mutex_at m l) -> forall h,
    holder (mutex_at m' l) = Some h -> last (omap (locks l) (own h (lg ++ [(t, Obs e x)]))) = Some true)
    as Hsame.
  { intros Hn Hh h E. rewrite Hh in E. rewrite own_app, omap_app, own_cons. simpl.
    case_decide; simpl; [simpl in Hn; rewrite Hn|]; rewrite app_nil_r; by apply HI. }
  assert (forall l' mu, holder (mutex_at (set_mutex l' mu m) l) =
    if decide (l' = l) then holder mu else holder (mutex_at m l)) as Hset.
  { intros l' mu. unfold mutex_at. simpl. case_decide as E; [subst; by rewrite lookup_insert_eq|].
    by rewrite lookup_insert_ne. }
  destruct e; simpl in Hm; try done; repeat case_match; simplify_eq; try (by apply Hsame).
  - intros h E. change (holder (mutex_at (set_mutex (next m) (mkMutex None None) m) l) = Some h) in E.
    rewrite Hset in E. rewrite own_app, omap_app, own_cons. simpl.
    case_decide; [done|]. case_decide; simpl; rewrite app_nil_r; by apply HI.
  - intros h E. rewrite Hset in E. rewrite own_app, omap_app, own_cons. case_decide as El; simpl in E.
    + injection E as <-. simpl. rewrite decide_True by done. simpl. rewrite decide_True by done.
      by rewrite last_snoc.
    + simpl. case_decide; simpl; rewrite ?decide_False, app_nil_r by done; by apply HI.
  - apply Hsame; [done|]. rewrite Hset. by case_decide; subst.
  - intros h E. rewrite Hset in E. rewrite own_app, omap_app, own_cons. case_decide as El; simpl in E; [done|].
    simpl. case_decide; simpl; rewrite ?decide_False, app_nil_r by done; by apply HI.
Qed.

Lemma mutex_history {R} (c c' : config W R) l :
  log (state c) = [] -> holder (mutex_at (memory (state c)) l) = None -> reachable c c' ->
  forall h, holder (mutex_at (memory (state c')) l) = Some h ->
    last (omap (locks l) (own h (log (state c')))) = Some true.
Proof.
  intros Hl Hh Hr. revert R c c' Hl Hh Hr.
  cut (forall R (c c' : config W R), log (state c) = [] -> holder (mutex_at (memory (state c)) l) = None ->
    reachable c c' -> (fun m lg => forall h, holder (mutex_at m l) = Some h ->
      last (omap (locks l) (own h lg)) = Some true) (memory (state c')) (log (state c'))); [done|].
  intros R c c' Hl Hh. apply reachable_memory.
  - intros u el X e y m m' lg IH Hm. by eapply mutex_step.
  - intros u X e y m lg IH Hm h Hm'. rewrite own_app, omap_app, own_cons. simpl.
    case_decide; simpl; [|rewrite app_nil_r; by apply IH].
    destruct e; simpl in Hm |- *; repeat case_match; try done; rewrite app_nil_r; by apply IH.
  - intros u body o m lg IH h Hm'. rewrite own_app, omap_app, own_cons. simpl.
    case_decide; simpl; rewrite app_nil_r; by apply IH.
  - rewrite Hh. done.
Qed.

Context {R : Type} (c c' : config W R) (Hl : log (state c) = []) (Hr : reachable c c').
Context (Hmain : tidy (main c)) (Hothers : Forall tidy (others c)).

(** The threads started on the way touch no mutex. *)
Lemma born_free v b n :
  (v, ObsFork b (Some n)) ∈ log (state c') -> exists k, all_obs (lock_free k) b.
Proof using Hl Hr Hmain Hothers.
  revert b n. induction (lt_wf v) as [v _ IH]. intros b n Hin.
  destruct (thread_cases external c c' Hl Hr _ _ Hin) as [->|[(i & p0 & -> & Hi)|(u & b' & Hlt & Hb)]].
  - destruct (Hmain _ _ (main_exec external c c' Hl Hr)) as [Hf _].
    exact (proj1 (Forall_forall _ _) Hf _ (proj2 (elem_of_own _ _ _) Hin)).
  - destruct (program_exec external c c' Hl Hr i p0) as [Hex _]; [by apply initial_program|].
    destruct (Forall_lookup_1 _ _ _ _ Hothers Hi _ _ Hex) as [Hf _].
    exact (proj1 (Forall_forall _ _) Hf _ (proj2 (elem_of_own _ _ _) Hin)).
  - destruct (IH u Hlt _ _ Hb) as [k Hk].
    destruct (born_program external c c' Hl Hr _ _ _ Hb) as (_ & _ & i & -> & Hi).
    destruct (program_exec external c c' Hl Hr i b' Hi) as [Hex _].
    pose proof (proj1 (Forall_forall _ _) (Hk _ _ Hex) _ (proj2 (elem_of_own _ _ _) Hin)) as Hf.
    destruct k as [|k]; [done|]. by exists k.
Qed.

(** So a mutex is held by the caller's thread or an initial one. *)
Lemma holder_initial l h :
  holder (mutex_at (memory (state c)) l) = None ->
  holder (mutex_at (memory (state c')) l) = Some h ->
  last (omap (locks l) (own h (log (state c')))) = Some true /\
  (h = 0%nat \/ exists i p0, h = S i /\ others c !! i = Some p0).
Proof using Hl Hr Hmain Hothers.
  intros Hn Hh. pose proof (mutex_history c c' l Hl Hn Hr h Hh) as Hlast. split; [done|].
  assert (exists o, (h, o) ∈ log (state c') /\ locks l o = Some true) as (o & Hin & Ho).
  { apply last_Some in Hlast as [l' E].
    assert (true ∈ omap (locks l) (own h (log (state c')))) as Hin.
    { rewrite E. apply elem_of_app. right. by left. }
    apply list_elem_of_omap in Hin as (o & Hin & Ho). exists o. by rewrite <- elem_of_own. }
  destruct (thread_cases external c c' Hl Hr _ _ Hin) as [->|[?|(u & b & _ & Hb)]]; [by left|by right|].
  exfalso. destruct (born_free _ _ _ Hb) as [k Hk].
  destruct (born_program external c c' Hl Hr _ _ _ Hb) as (_ & _ & i & -> & Hi).
  destruct (program_exec external c c' Hl Hr i b Hi) as [Hex _].
  pose proof (proj1 (Forall_forall _ _) (Hk _ _ Hex) _ (proj2 (elem_of_own _ _ _) Hin)) as Hf.
  destruct o as [X e x|]; [|done]. destruct e; try done; by destruct k.
Qed.
End Holders.
