(* ===== verification/Capture.v ===== *)
(** * Captured output under every interleaving (src/src/task.rs, os/mod.rs)

    A capturing run with its wait thread, its two drain threads, its timeout
    monitor and any other threads that leave the run's channels and the
    child's pipes alone (cancellers, say): which threads there are, what each
    can do to the output, and that the chunks the callback is given are the
    chunks the drain threads read. *)

From Stdlib Require Import ZArith.
From stdpp Require Import base numbers list strings gmap.
From S2P Require Import Prelude Core Sys Prog Os Drains Task Run Caller Blocks Pool Threads History.

Open Scope Z_scope.

(** ** Streams *)

Definition chunk_stream (m : ChunkMsg.t) : Stream :=
  match m with
  | ChunkMsg.Stdout _ _ => OutStream
  | ChunkMsg.Stderr _ _ => ErrStream
  end.

Definition make_msg (s : Stream) : Z -> list Byte.byte -> ChunkMsg.t :=
  match s with
  | OutStream => ChunkMsg.Stdout
  | ErrStream => ChunkMsg.Stderr
  end.

Definition on_stream (s : Stream) (m : ChunkMsg.t) : option ChunkMsg.t :=
  if decide (chunk_stream m = s) then Some m else None.

(** The answers to the reads of a stream's pipe, and the chunks among them. *)
Definition pipe_read (s : Stream) (o : obs) : option (Result (list Byte.byte) io_Error) :=
  match o with
  | Obs e x =>
      match e in act X return X -> option (Result (list Byte.byte) io_Error) with
      | PipeRead p _ => fun x => if decide (pipe_stream p = s) then Some x else None
      | _ => fun _ => None
      end x
  | ObsFork _ _ => None
  end.

Definition chunk_of (r : Result (list Byte.byte) io_Error) : option (list Byte.byte) :=
  match r with
  | Ok (b :: bs) => Some (b :: bs)
  | Ok [] | Err _ => None
  end.

Definition chunk_read (s : Stream) (o : obs) : option (list Byte.byte) := pipe_read s o ≫= chunk_of.

(** The chunk messages of a stream sent to and received from a channel. *)
Definition sent_on (lc : loc) (s : Stream) (o : obs) : option ChunkMsg.t :=
  sends TyChunk lc o ≫= on_stream s.
Definition recv_on (lc : loc) (s : Stream) (o : obs) : option ChunkMsg.t :=
  recvs TyChunk lc o ≫= on_stream s.

(** ** The drain threads *)

(** A step of the drain thread of pipe [p], sending to [c]. *)
Definition drain_obs (p : Pipe) (c : chan TyChunk) (o : obs) : Prop :=
  match o with
  | Obs e _ =>
      match e with
      | PipeRead p' _ => p' = p
      | @Send ty c' m =>
          chan_key c' = chan_key c /\
          match ty return msg ty -> Prop with
          | TyChunk => fun m => chunk_stream m = pipe_stream p
          | _ => fun _ => False
          end m
      | DropTx c' => chan_key c' = chan_key c
      | _ => False
      end
  | ObsFork _ _ => False
  end.

Lemma drain_body_steps p c :
  all_obs (drain_obs p c) (drain_body p (Some c) (make_msg (pipe_stream p))).
Proof.
  unfold drain_body, drain_loop, drain_round.
  all_obs_solve ltac:(simpl; try split; try done; by destruct (pipe_stream p)).
Qed.

(** What a drain thread has done at any point: its sends are the numbering of
    its reads, the last one possibly missing; it drops its sender once, as its
    last step, with everything sent and the stream at its end. *)
Lemma drain_body_exec p c tr r :
  exec (drain_body p (Some c) (make_msg (pipe_stream p))) tr r ->
  (exists pending, numbered (make_msg (pipe_stream p)) 0 (chunks_read tr) = sent tr ++ pending) /\
  (omap (drops (chan_key c)) tr = [] \/
   omap (drops (chan_key c)) tr = [tt] /\
   sent tr = numbered (make_msg (pipe_stream p)) 0 (chunks_read tr) /\
   exists tr' x, tr = tr' ++ [Obs (PipeRead p drain_buf) x; Obs (DropTx c) tt] /\ ends_drain x).
Proof.
  intros Hex. unfold drain_body in Hex.
  assert (forall tr r, exec (drain_loop p c (make_msg (pipe_stream p))) tr r ->
    omap (drops (chan_key c)) tr = []) as Hnone.
  { clear tr r Hex. intros tr r Hex. apply omap_none. intros o Ho.
    assert (all_obs (fun o => drops (chan_key c) o = None)
      (drain_loop p c (make_msg (pipe_stream p)))) as Hd
      by (unfold drain_loop, drain_round; all_obs_solve ltac:(done)).
    exact (proj1 (Forall_forall _ _) (Hd _ _ Hex) o Ho). }
  apply exec_bind_inv in Hex as [[-> Hex]|([] & tr1 & tr2 & -> & Hex & Hd)].
  - pose proof (drain_loop_wp _ _ _ _ _ Hex) as Hw. simpl in Hw. split; [|left; by eapply Hnone].
    destruct Hw as [->|[m ->]]; [by exists []; rewrite app_nil_r|by exists [m]].
  - pose proof (drain_loop_wp _ _ _ _ _ Hex) as Hw. simpl in Hw. destruct Hw as (Hw & h' & x & -> & Hx).
    destruct Hd as [[-> ->]|(u & tr3 & -> & [-> _])].
    + rewrite app_nil_r in *. split; [|left; by eapply Hnone].
      rewrite <- Hw. by exists []; rewrite app_nil_r.
    + destruct u. rewrite sent_app, chunks_read_app, omap_app. simpl. rewrite !app_nil_r.
      rewrite (Hnone _ _ Hex). unfold at_key. rewrite decide_True by done.
      rewrite <- Hw. split; [by exists []; rewrite app_nil_r|]. right. split_and!; [done|done|].
      exists h', x. by rewrite <- app_assoc.
Qed.

(** ** The wait thread *)

(** A step that does not read a pipe, and does nothing to a chunk channel but
    count its senders. *)
Definition mute_obs (o : obs) : Prop :=
  (forall s, pipe_read s o = None) /\
  forall l, sends TyChunk l o = None /\ recvs TyChunk l o = None /\ closes (TyChunk, l) o = None.

Ltac mute_solve :=
  split; [done|]; intros l; simpl; unfold at_key; repeat case_match; simplify_eq; done.

Lemma dropping_mute o : dropping_obs o -> mute_obs o.
Proof. destruct o as [X e x|]; [|done]. by destruct e. Qed.

Lemma aside_mute o : aside_obs o -> mute_obs o.
Proof. destruct o as [X e x|]; [|done]. destruct e; try done; simpl; intros; subst; mute_solve. Qed.

Lemma aside_drops o l : aside_obs o -> drops (TyChunk, l) o = None.
Proof.
  destruct o as [X e x|]; [|done]. destruct e; try done. simpl. intros ->. unfold at_key.
  by rewrite decide_False.
Qed.

Lemma calm_mute o : calm_obs o -> mute_obs o.
Proof. destruct o as [X e x|]; [apply (aside_mute (Obs e x))|done]. Qed.

(** A step of the wait thread once [wait] has come back with [rw]. *)
Definition sender_obs (rw : option (outcome (Result Z AerError.t))) (o : obs) : Prop :=
  match o with
  | Obs e _ =>
      match e with
      | @Send ty _ m =>
          match ty return msg ty -> Prop with
          | TyWait => fun m => rw = Some (Val m)
          | _ => fun _ => False
          end m
      | @DropTx ty _ => ty = TyWait
      | _ => False
      end
  | ObsFork _ _ => False
  end.

Lemma sender_mute rw o : sender_obs rw o -> mute_obs o.
Proof.
  destruct o as [X e x|]; [|done]. destruct e; try done; destruct ty; try done; intros; mute_solve.
Qed.

Lemma wait_body_exec `{P : OsProcess} handle sinks wait_ch tr r :
  exec (wait_body handle sinks wait_ch) tr r ->
  exists trw rw tr', tr = trw ++ tr' /\ exec (os_wait handle sinks) trw rw /\
    Forall (sender_obs rw) tr' /\
    forall u, r = Some u -> is_Some rw /\ Obs (DropTx wait_ch) tt ∈ tr'.
Proof.
  unfold wait_body. intros [[-> Hex]|(rw & trw & tr' & -> & Hex & Hs)]%exec_bind_inv.
  - exists tr, None, []. by rewrite app_nil_r.
  - exists trw, (Some rw), tr'. split_and!; [done|done| |].
    + assert (all_obs (sender_obs (Some rw)) (match rw with
        | Val result => do_act (Send wait_ch result) ;;; do_act (DropTx wait_ch)
        | Panic _ => do_act (DropTx wait_ch)
        end)) as H; [|exact (H _ _ Hs)].
      all_obs_solve ltac:(done).
    + intros u ->. split; [by eexists|].
      destruct rw; repeat exec_inv_step Hs; repeat match goal with u : unit |- _ => destruct u end; in_list.
Qed.

Section Crew.
Context `{P : OsProcess} {D : OsDrains P}.
Context (handle : OsHandle) (id : Z).
Context (Hout : child_stdout (child handle) = Some (mkPipe id OutStream)).
Context (Herr : child_stderr (child handle) = Some (mkPipe id ErrStream)).
Context (chunk_ch : chan TyChunk) (wait_ch : chan TyWait).
#[local] Abbreviation sinks := (mkOutputSinks (Some chunk_ch) (Some chunk_ch)).

(** The program of the drain thread of a stream. *)
Definition drainer (s : Stream) : prog unit :=
  drain_body (mkPipe id s) (Some chunk_ch) (make_msg s).

(** A step of the wait thread: it starts drain threads, waits for those it has
    started, and reports. *)
Definition crew_obs (T : Stream -> option tid) (o : obs) : Prop :=
  match o with
  | Obs e _ =>
      match e with
      | Join t => exists s, T s = Some t
      | DropTx _ => True
      | @Send ty _ _ => ty = TyWait
      | e => plain_act e
      end
  | ObsFork _ _ => True
  end.

(** Such a step before the report. *)
Definition resting_obs (T : Stream -> option tid) (o : obs) : Prop :=
  match o with
  | Obs e _ =>
      match e with
      | Join t => exists s, T s = Some t
      | @DropTx ty _ => ty = TyChunk
      | e => plain_act e
      end
  | ObsFork _ _ => False
  end.

(** The drain threads that the wait thread has started, after the steps [tr]. *)
Record crew (tr : list obs) (T : Stream -> option tid) : Prop := {
  crew_forks b u : ObsFork b (Some u) ∈ tr -> exists s, T s = Some u /\ b = drainer s;
  crew_started s t : T s = Some t -> ObsFork (drainer s) (Some t) ∈ tr;
  crew_two t1 t2 : T OutStream = Some t1 -> T ErrStream = Some t2 ->
    exists tr1 tr2 tr3, tr = tr1 ++ ObsFork (drainer OutStream) (Some t1) :: tr2 ++
      ObsFork (drainer ErrStream) (Some t2) :: tr3;
  crew_steps o : o ∈ tr -> crew_obs T o;
  crew_done o code : o ∈ tr -> sends TyWait (chan_loc wait_ch) o = Some (Ok code) ->
    is_Some (T OutStream) /\ is_Some (T ErrStream) /\
    omap (drops (chan_key chunk_ch)) tr = []
}.

Lemma crew_mute tr T : crew tr T -> forall o, o ∈ tr -> mute_obs o.
Proof.
  intros HT o Ho. pose proof (crew_steps _ _ HT o Ho) as Hs. destruct o as [X e x|]; [|done].
  destruct e; try done; simpl in Hs; subst; mute_solve.
Qed.

Lemma resting_crew T o : resting_obs T o -> crew_obs T o.
Proof. destruct o as [X e x|]; [|done]. by destruct e. Qed.

Lemma sender_crew T rw o : sender_obs rw o -> crew_obs T o.
Proof. destruct o as [X e x|]; [|done]. destruct e; try done. by destruct ty. Qed.

Lemma dropping_resting T o : dropping_obs o -> resting_obs T o.
Proof. destruct o as [X e x|]; [|done]. by destruct e. Qed.

(** The two drain threads. *)
Definition crew_of (t1 t2 : option tid) (s : Stream) : option tid :=
  match s with
  | OutStream => t1
  | ErrStream => t2
  end.

Lemma sender_no_drops rw tr :
  Forall (sender_obs rw) tr -> omap (drops (chan_key chunk_ch)) tr = [].
Proof.
  intros Ht. apply omap_none. intros o Ho. eapply Forall_forall in Ht; [|done].
  destruct o as [X e x|]; [|done]. destruct e; try done. simpl in Ht. subst. unfold drops, at_key.
  by rewrite decide_False.
Qed.

Lemma joining_no_drops t1 t2 tr :
  Forall (joining_obs t1 t2) tr -> omap (drops (chan_key chunk_ch)) tr = [].
Proof.
  intros Ht. apply omap_none. intros o Ho. eapply Forall_forall in Ht; [|done].
  destruct o as [X e x|]; [|done]. by destruct e.
Qed.

(** Neither kind of step starts a thread or reports a code before [wait] has
    come back with it. *)
Lemma sends_sender rw o code :
  sender_obs rw o -> sends TyWait (chan_loc wait_ch) o = Some (Ok code) -> rw = Some (Val (Ok code)).
Proof.
  destruct o as [X e x|]; [|done]. destruct e; try done. destruct ty; try done. simpl.
  case_decide; [|done]. intros -> [= ->]. done.
Qed.

Lemma resting_sends T o : resting_obs T o -> sends TyWait (chan_loc wait_ch) o = None.
Proof. destruct o as [X e x|]; [|done]. by destruct e. Qed.

Lemma joining_resting t1 t2 o :
  joining_obs t1 t2 o -> resting_obs (crew_of (Some t1) (Some t2)) o.
Proof.
  destruct o as [X e x|]; [|done]. destruct e; try done.
  intros [-> | ->]; [by exists OutStream|by exists ErrStream].
Qed.

(** A code is reported once [wait] has come back with it. *)
Lemma wait_silent tr r o :
  exec (os_wait handle sinks) tr r -> o ∈ tr -> sends TyWait (chan_loc wait_ch) o = None.
Proof using D Hout Herr.
  intros Hw Ho. apply (wait_drains _ _ _ _ _ _ Hout Herr) in Hw.
  assert (forall T tr, Forall (resting_obs T) tr -> o ∈ tr ->
    sends TyWait (chan_loc wait_ch) o = None) as Hd.
  { intros T tr' Htr Hin. apply (resting_sends T). exact (proj1 (Forall_forall _ _) Htr o Hin). }
  assert (forall tr, Forall dropping_obs tr -> Forall (resting_obs (fun _ => None)) tr) as Hdr
    by (intros; eapply Forall_impl; [done|apply dropping_resting]).
  destruct Hw as [|rest rw Hr _ _|t1|t1 rest rw Hr _ _|t1 t2 rest rw Hr _ _];
    repeat (apply elem_of_cons in Ho as [->|Ho]; [done|]); try (by apply elem_of_nil in Ho).
  - by eapply Hd, Ho; eauto.
  - by eapply Hd, Ho; eauto.
  - eapply Hd, Ho. eapply Forall_impl; [exact Hr|apply joining_resting].
Qed.

Lemma wait_sent tr r o code :
  exec (wait_body handle sinks wait_ch) tr r -> o ∈ tr ->
  sends TyWait (chan_loc wait_ch) o = Some (Ok code) ->
  exists trw tr', tr = trw ++ tr' /\ exec (os_wait handle sinks) trw (Some (Val (Ok code))).
Proof using D Hout Herr.
  intros (trw & rw & tr' & -> & Hw & Hs & _)%wait_body_exec Ho Hsend.
  apply elem_of_app in Ho as [Ho|Ho]; [by rewrite (wait_silent _ _ _ Hw Ho) in Hsend|].
  rewrite (sends_sender rw o code (proj1 (Forall_forall _ _) Hs _ Ho) Hsend) in Hw. eauto.
Qed.

Definition fork_obs (o : obs) : Prop :=
  match o with
  | ObsFork _ _ => True
  | Obs _ _ => False
  end.

(** The crew is in the first steps [fs] of [wait], which start threads. *)
Lemma crew_intro fs rest rw tr' T :
  Forall fork_obs fs -> Forall (resting_obs T) rest -> Forall (sender_obs rw) tr' ->
  (forall b u, ObsFork b (Some u) ∈ fs -> exists s, T s = Some u /\ b = drainer s) ->
  (forall s t, T s = Some t -> ObsFork (drainer s) (Some t) ∈ fs) ->
  (forall t1 t2, T OutStream = Some t1 -> T ErrStream = Some t2 ->
     fs = [ObsFork (drainer OutStream) (Some t1); ObsFork (drainer ErrStream) (Some t2)]) ->
  (forall code, rw = Some (Val (Ok code)) ->
     is_Some (T OutStream) /\ is_Some (T ErrStream) /\ omap (drops (chan_key chunk_ch)) rest = []) ->
  crew (fs ++ rest ++ tr') T.
Proof.
  intros Hfs Hrest Htr' Hforks Hstarted Htwo Hdone.
  assert (forall b u, ObsFork b (Some u) ∈ fs ++ rest ++ tr' -> ObsFork b (Some u) ∈ fs) as Hin.
  { intros b u [?|[Hu|Hu]%elem_of_app]%elem_of_app; [done| |].
    - eapply Forall_forall in Hrest; [|done]. done.
    - eapply Forall_forall in Htr'; [|done]. done. }
  split.
  - intros b u Hu. by apply Hforks, Hin.
  - intros s t Ht. apply elem_of_app. left. by apply Hstarted.
  - intros t1 t2 H1 H2. rewrite (Htwo _ _ H1 H2). by exists [], [], (rest ++ tr').
  - intros o [Ho|[Ho|Ho]%elem_of_app]%elem_of_app.
    + eapply Forall_forall in Hfs; [|done]. by destruct o.
    + by eapply resting_crew, Forall_forall.
    + by eapply sender_crew, Forall_forall.
  - intros o code [Ho|[Ho|Ho]%elem_of_app]%elem_of_app Hs.
    + eapply Forall_forall in Hfs; [|done]. by destruct o.
    + eapply Forall_forall in Hrest; [|done]. by rewrite (resting_sends T) in Hs.
    + pose proof (sends_sender _ _ _ (proj1 (Forall_forall _ _) Htr' _ Ho) Hs) as E.
      destruct (Hdone code E) as (? & ? & Hd). split_and!; [done..|].
      rewrite !omap_app, Hd, (sender_no_drops rw tr' Htr'), !app_nil_r.
      apply omap_none. intros o' Ho'. eapply Forall_forall in Hfs; [|done]. by destruct o'.
Qed.

(** Where the two sinks went, once [wait] has come back: dropped by the wait
    thread, or moved into a drain thread. *)
Definition sinks_given (tr : list obs) (T : Stream -> option tid) : Prop :=
  (length (omap (drops (chan_key chunk_ch)) tr) + length (option_list (T OutStream)) +
     length (option_list (T ErrStream)) = 2)%nat.

Lemma sinks_given_intro fs rest rw tr' T :
  Forall fork_obs fs -> Forall (sender_obs rw) tr' ->
  (length (omap (drops (chan_key chunk_ch)) rest) + length (option_list (T OutStream)) +
     length (option_list (T ErrStream)) = 2)%nat ->
  sinks_given (fs ++ rest ++ tr') T.
Proof.
  intros Hfs Htr' Hn. unfold sinks_given.
  rewrite !omap_app, (sender_no_drops rw tr' Htr'), app_nil_r.
  rewrite (omap_none _ fs); [done|]. intros o Ho. eapply Forall_forall in Hfs; [|done]. by destruct o.
Qed.

Lemma drops_after_plain k l tr : after_plain l tr -> omap (drops k) tr = omap (drops k) l.
Proof.
  intros (pre & -> & Hpre). rewrite omap_app, (omap_none _ pre); [done|].
  intros o Ho. eapply Forall_forall in Hpre; [|done]. destruct o as [X e x|]; [by destruct e|done].
Qed.

Lemma wait_crew_given tr r :
  exec (wait_body handle sinks wait_ch) tr r ->
  exists T, crew tr T /\ forall u, r = Some u -> sinks_given tr T /\ Obs (DropTx wait_ch) tt ∈ tr.
Proof using D Hout Herr.
  intros (trw & rw & tr' & -> & Hw & Hs & Hdone)%wait_body_exec.
  apply (wait_drains _ _ _ _ _ _ Hout Herr) in Hw. simpl in Hw.
  assert (forall T tr, Forall dropping_obs tr -> Forall (resting_obs T) tr) as Hdr
    by (intros; eapply Forall_impl; [done|apply dropping_resting]).
  assert (forall T, (is_Some rw -> sinks_given (trw ++ tr') T) -> forall u, r = Some u ->
    sinks_given (trw ++ tr') T /\ Obs (DropTx wait_ch) tt ∈ trw ++ tr') as Hg.
  { intros T HT u Hu. destruct (Hdone u Hu) as [Hrw Hin]. split; [by apply HT|].
    apply elem_of_app. by right. }
  destruct Hw as [|rest rw Hr Hv Hd|t1|t1 rest rw Hr Hv Hd|t1 t2 rest rw Hr Hp Hj].
  - exists (crew_of None None). split; [|by apply Hg; intros []].
    apply (crew_intro [] [] None tr'); try done.
    + intros b u Hu. by apply elem_of_nil in Hu.
    + by intros [].
  - exists (crew_of None None). split.
    2: { apply Hg. intros [x ->]. eapply (sinks_given_intro [_]); [by constructor|done|].
         destruct (Hd x eq_refl) as (tr2 & -> & Hp). rewrite omap_app, (drops_after_plain _ _ _ Hp).
         simpl. change (@chan_key TyChunk chunk_ch) with (chan_key chunk_ch).
         unfold at_key. by rewrite !decide_True. }
    apply (crew_intro [_] rest rw tr'); try done; [by constructor|by apply Hdr|..].
    + intros b u Hu. apply list_elem_of_singleton in Hu. done.
    + by intros [].
    + intros code ->. by destruct (Hv (Ok code)).
  - exists (crew_of (Some t1) None). split; [|by apply Hg; intros []].
    apply (crew_intro [_] [] None tr'); try done; [by constructor|..].
    + intros b u Hu%list_elem_of_singleton. injection Hu as -> ->. by exists OutStream.
    + intros [] t; [|done]. intros [= <-]. by left.
  - exists (crew_of (Some t1) None). split.
    2: { apply Hg. intros [x ->]. eapply (sinks_given_intro [_; _]); [by repeat constructor|done|].
         destruct (Hd x eq_refl) as (tr2 & -> & Hp). rewrite omap_app, (drops_after_plain _ _ _ Hp).
         simpl. unfold at_key. by rewrite !decide_True. }
    apply (crew_intro [_; _] rest rw tr'); try done; [by repeat constructor|by apply Hdr|..].
    + intros b u [Hu|Hu%list_elem_of_singleton]%elem_of_cons; [|done].
      injection Hu as -> ->. by exists OutStream.
    + intros [] t; [|done]. intros [= <-]. by left.
    + intros code ->. by destruct (Hv (Ok code)).
  - exists (crew_of (Some t1) (Some t2)). split.
    2: { apply Hg. intros _. eapply (sinks_given_intro [_; _]); [by repeat constructor|done|].
         by erewrite joining_no_drops. }
    apply (crew_intro [_; _] rest rw tr'); try done; [by repeat constructor|..].
    + eapply Forall_impl; [exact Hr|apply joining_resting].
    + intros b u [Hu|Hu%list_elem_of_singleton]%elem_of_cons; injection Hu as -> ->;
        [by exists OutStream|by exists ErrStream].
    + intros [] t [= <-]; [by left|by right; left].
    + by intros u1 u2 [= <-] [= <-].
    + intros code _. split_and!; [by eexists|by eexists|by eapply joining_no_drops].
Qed.

Lemma wait_crew tr r :
  exec (wait_body handle sinks wait_ch) tr r -> exists T, crew tr T.
Proof using D Hout Herr. intros (T & HT & _)%wait_crew_given. by exists T. Qed.
End Crew.
