(* ===== verification/Delivery.v ===== *)
(** * The threads of a capturing run, and the delivery of its output

    Every step in the log of a capturing run is the caller's, the wait
    thread's, a drain thread's, or leaves the output alone; from there, the
    account of each stream from the pipe to the callback. *)

From Stdlib Require Import ZArith.
From stdpp Require Import base numbers list strings gmap relations.
From S2P Require Import Prelude Core Sys Prog Os Drains Task Run Caller Blocks Pool Threads History Capture.

Open Scope Z_scope.

(** What std documents of a child spawned with piped outputs: it has both
    pipes, each of its stream. *)
Definition piped_children {W} (external : tid -> forall X, act X -> W -> X -> W -> Prop) : Prop :=
  forall t cmd w child w',
    external t _ (CommandSpawn cmd) w (Ok child) w' ->
    cmd_stdout cmd = StdioPiped -> cmd_stderr cmd = StdioPiped ->
    child_stdout child = Some (mkPipe (child_id child) OutStream) /\
    child_stderr child = Some (mkPipe (child_id child) ErrStream).

(** ** The caller's thread *)

(** A step of the caller's thread that leaves the channels of the run alone. *)
Definition idle_obs (o : obs) : Prop := calm_obs o \/ early_obs o.

(** Any step of the caller's thread. *)
Definition caller_obs (o : obs) : Prop :=
  (forall s, pipe_read s o = None) /\
  forall l, sends TyChunk l o = None /\ sends TyWait l o = None.

Lemma idle_caller o : idle_obs o -> caller_obs o.
Proof.
  intros [Ho|Ho]; (destruct o as [X e x|]; [|done]); destruct e; try done; simpl in Ho; subst;
    (split; [done|]); intros l; simpl; repeat case_match; simplify_eq; done.
Qed.

Lemma pump_caller c o : pump_obs c o -> caller_obs o.
Proof.
  destruct o as [X e x|]; [|done]. destruct e; try done; simpl; intros; subst;
    (split; [done|]); intros l; simpl; repeat case_match; simplify_eq; done.
Qed.

Lemma tail_caller o : tail_obs o -> caller_obs o.
Proof. destruct o as [X e x|]; [|done]. by destruct e. Qed.

Lemma idle_no_recv o : idle_obs o -> forall ty l, ty <> TyUnit -> recvs ty l o = None.
Proof.
  intros [Ho|Ho] ty l Hty; (destruct o as [X e x|]; [|done]); destruct e; try done.
  simpl. destruct x; try done. case_decide as E; [by injection E as <- <-|done].
Qed.

Section Delivery.
Context `{P : OsProcess} {D : OsDrains P}.
Context {W : Type}.
Variable external : tid -> forall X, act X -> W -> X -> W -> Prop.
Hypothesis Hpiped : piped_children external.
Context (on_event : Event.t -> prog (outcome unit)).
Context (caller : Event.t -> obs -> Prop).
Context (Hon : forall ev, all_obs (caller ev) (on_event ev)).
Context (Haside : forall ev o, caller ev o -> aside_obs o).
#[local] Abbreviation reachable := (reachable external).

(** A run of [task] beside threads that leave its output alone. *)
Definition capture_run (task : Task) (ch : option CancelHandle) (rest : list (prog unit))
    (g : global W) : config W (outcome (Result unit AerError.t)) :=
  mkConfig (run_impl task on_event ch) rest g.

(** ** Threads *)

Section Threads.
Context {R : Type} (c c' : config W R) (Hl : log (state c) = []) (Hr : reachable c c').
Context (Hrest : Forall (all_obs aside_obs) (others c)).
#[local] Abbreviation l := (log (state c')).

Lemma aside_thread i p0 o :
  programs c l !! i = Some p0 -> all_obs aside_obs p0 -> (S i, o) ∈ l -> aside_obs o.
Proof using Hl Hr.
  intros Hi Hp Ho. destruct (program_exec external c c' Hl Hr _ _ Hi) as [Hex _].
  exact (proj1 (Forall_forall _ _) (Hp _ _ Hex) o (proj2 (elem_of_own _ _ _) Ho)).
Qed.

(** A thread other than the caller's: it leaves the output alone, or it comes
    from a thread of the caller's that does not. *)
Lemma other_threads (work : tid -> Prop) :
  (forall b u, (0%nat, ObsFork b (Some u)) ∈ l -> all_obs aside_obs b \/ work u) ->
  (forall v b u, work v -> (v, ObsFork b (Some u)) ∈ l -> work u) ->
  forall u o, (u, o) ∈ l -> u <> 0%nat -> aside_obs o \/ work u.
Proof using Hl Hr Hrest.
  intros Hmain Hwork u. induction (lt_wf u) as [u _ IH]. intros o Hin Hu.
  destruct (thread_cases external c c' Hl Hr _ _ Hin) as [?|[(i & p0 & -> & Hi)|(v & b & Hlt & Hb)]];
    [done| |].
  - left. eapply (aside_thread i p0); [by apply initial_program| |done].
    by eapply Forall_lookup_1 in Hrest.
  - destruct (born_program external c c' Hl Hr _ _ _ Hb) as (_ & _ & i & -> & Hi).
    destruct (decide (v = 0%nat)) as [->|Hv].
    + destruct (Hmain _ _ Hb) as [Ha|?]; [|by right]. left. by eapply (aside_thread i b).
    + destruct (IH v Hlt _ Hb Hv) as [[]|Hw]. right. by eapply Hwork.
Qed.

(** While the caller's thread leaves the output alone, so do all. *)
Lemma idle_threads :
  Forall idle_obs (own 0%nat l) -> forall u o, (u, o) ∈ l -> u = 0%nat /\ idle_obs o \/ aside_obs o.
Proof using Hl Hr Hrest.
  intros H0 u o Hin. destruct (decide (u = 0%nat)) as [->|Hu].
  - left. split; [done|]. exact (proj1 (Forall_forall _ _) H0 o (proj2 (elem_of_own _ _ _) Hin)).
  - right. destruct (other_threads (fun _ => False)) with (u := u) (o := o) as [?|[]]; try done.
    intros b u' Hb. left.
    destruct (proj1 (Forall_forall _ _) H0 _ (proj2 (elem_of_own _ _ _) Hb)) as [?|?]; done.
Qed.
End Threads.

(** ** A run whose wait thread was started *)

(** A step of the caller's thread after that. *)
Definition later_obs (chunk_ch : chan TyChunk) (o : obs) : Prop :=
  calm_obs o \/ pump_obs chunk_ch o \/ tail_obs o.

Lemma later_caller chunk_ch o : later_obs chunk_ch o -> caller_obs o.
Proof.
  intros [Ho|[Ho|Ho]]; [apply idle_caller; by left|by eapply pump_caller|by apply tail_caller].
Qed.

Section Started.
Context {R : Type} (c c' : config W R) (Hl : log (state c) = []) (Hr : reachable c c').
Context (Hrest : Forall (all_obs aside_obs) (others c)).
#[local] Abbreviation l := (log (state c')).
Context (handle : OsHandle) (id : Z).
Context (Hout : child_stdout (child handle) = Some (mkPipe id OutStream)).
Context (Herr : child_stderr (child handle) = Some (mkPipe id ErrStream)).
Context (lc : chan TyChunk) (lw : chan TyWait) (w : tid) (tr1 tr2 : list obs).
#[local] Abbreviation sinks := (mkOutputSinks (Some lc) (Some lc)).
Context (Hown : own 0%nat l =
  tr1 ++ setup lc lw ++ ObsFork (wait_body handle sinks lw) (Some w) :: tr2).
Context (H1 : Forall calm_obs tr1) (H2 : Forall (later_obs lc) tr2).

Lemma own_main o :
  (0%nat, o) ∈ l -> calm_obs o \/ o ∈ setup lc lw \/
    o = ObsFork (wait_body handle sinks lw) (Some w) \/ later_obs lc o.
Proof using Hown H1 H2.
  intros Ho%elem_of_own. rewrite Hown in Ho.
  apply elem_of_app in Ho as [Ho|[Ho|[->|Ho]%elem_of_cons]%elem_of_app].
  - left. by eapply Forall_forall in H1.
  - by right; left.
  - by right; right; left.
  - right; right; right. by eapply Forall_forall in H2.
Qed.

Lemma setup_elem o : o ∈ setup lc lw -> early_obs o.
Proof. intros Ho. repeat (apply elem_of_cons in Ho as [->|Ho]; [done|]). by apply elem_of_nil in Ho. Qed.

Lemma main_caller o : (0%nat, o) ∈ l -> caller_obs o.
Proof using Hown H1 H2.
  intros [Ho|[Ho|[->|Ho]]]%own_main; [|by apply idle_caller; right; apply setup_elem|done|].
  - apply idle_caller. by left.
  - by eapply later_caller.
Qed.

Lemma wait_born : (0%nat, ObsFork (wait_body handle sinks lw) (Some w)) ∈ l.
Proof using Hown. apply elem_of_own. rewrite Hown, !elem_of_app, elem_of_cons. tauto. Qed.

Lemma wait_thread_crew : exists T, crew id lc lw (own w l) T.
Proof using Hl Hr Hown Hout Herr D.
  destruct (born_program external c c' Hl Hr _ _ _ wait_born) as (_ & _ & i & -> & Hi).
  destruct (program_exec external c c' Hl Hr _ _ Hi) as [Hex _].
  by eapply wait_crew.
Qed.

Context (T : Stream -> option tid) (HT : crew id lc lw (own w l) T).

Lemma drain_born s t : T s = Some t -> (w, ObsFork (drainer id lc s) (Some t)) ∈ l.
Proof using HT. intros Ht. by apply elem_of_own, (crew_started _ _ _ _ _ HT). Qed.

Lemma drain_thread s t : T s = Some t -> exec (drainer id lc s) (own t l) None.
Proof using Hl Hr HT.
  intros Ht. destruct (born_program external c c' Hl Hr _ _ _ (drain_born _ _ Ht)) as (_ & _ & i & -> & Hi).
  by destruct (program_exec external c c' Hl Hr _ _ Hi) as [Hex _].
Qed.

Lemma drain_steps s t o : T s = Some t -> (t, o) ∈ l -> drain_obs (mkPipe id s) lc o.
Proof using Hl Hr HT.
  intros Ht Ho. pose proof (drain_body_steps (mkPipe id s) lc _ _ (drain_thread _ _ Ht)) as Hd.
  exact (proj1 (Forall_forall _ _) Hd o (proj2 (elem_of_own _ _ _) Ho)).
Qed.

Lemma started_threads u o :
  (u, o) ∈ l -> u <> 0%nat -> aside_obs o \/ u = w \/ exists s, T s = Some u.
Proof using Hl Hr Hrest Hown H1 H2 HT.
  apply (other_threads c c' Hl Hr Hrest (fun u => u = w \/ exists s, T s = Some u)).
  - intros b v Hb. destruct (own_main _ Hb) as [Ho|[Ho|[Ho|[Ho|[Ho|Ho]]]]]; try done; [by left| | |by left].
    + by apply setup_elem in Ho.
    + injection Ho as _ ->. right. by left.
  - intros v b v' [->|[s Hs]] Hb.
    + right. apply elem_of_own in Hb. destruct (crew_forks _ _ _ _ _ HT _ _ Hb) as (s & ? & _).
      by exists s.
    + by apply (drain_steps s v) in Hb.
Qed.

Lemma thread_ids s t : T s = Some t -> (0 < w < t)%nat.
Proof using Hl Hr Hown HT.
  intros Ht. destruct (born_program external c c' Hl Hr _ _ _ wait_born) as [? _].
  by destruct (born_program external c c' Hl Hr _ _ _ (drain_born _ _ Ht)) as [? _].
Qed.

Lemma streams_differ s s' t : T s = Some t -> T s' = Some t -> s = s'.
Proof using Hl Hr HT.
  assert (forall t, T OutStream = Some t -> T ErrStream = Some t -> False) as Hd.
  { intros u Ho He. destruct (crew_two _ _ _ _ _ HT _ _ Ho He) as (a & b & d & E).
    by apply (born_distinct external c c' Hl Hr w (drainer id lc OutStream) u
      (drainer id lc ErrStream) u a b d). }
  destruct s, s'; try done; intros; exfalso; by eapply Hd.
Qed.

Lemma crew_nodup : NoDup ([0%nat; w] ++ option_list (T OutStream) ++ option_list (T ErrStream)).
Proof using Hl Hr Hown HT.
  destruct (born_program external c c' Hl Hr _ _ _ wait_born) as [Hw0 _].
  pose proof thread_ids as Hid. pose proof streams_differ as Hdiff.
  destruct (T OutStream) as [t1|] eqn:Eo; destruct (T ErrStream) as [t2|] eqn:Ee; simpl;
    repeat (apply NoDup_cons; split); try apply NoDup_nil_2;
    rewrite ?elem_of_cons, ?elem_of_nil.
  all: try (specialize (Hid OutStream _ Eo) as Hid1); try (specialize (Hid ErrStream _ Ee) as Hid2).
  all: try (intros Hin; repeat destruct Hin as [Hin|Hin]; try done; subst; try lia).
  all: specialize (Hdiff _ _ _ Eo Ee); done.
Qed.

(** Only a stream's drain thread reads its pipe and sends its chunks. *)
Lemma stream_owner s u o :
  (u, o) ∈ l -> pipe_read s o <> None \/ sent_on (chan_loc lc) s o <> None -> T s = Some u.
Proof using Hl Hr Hrest Hown H1 H2 HT.
  intros Hin Ho.
  assert ((forall s, pipe_read s o = None) -> (forall l, sends TyChunk l o = None) -> T s = Some u) as Hno.
  { intros Hp Hs. exfalso. destruct Ho as [Ho|Ho]; [by rewrite Hp in Ho|].
    unfold sent_on in Ho. by rewrite Hs in Ho. }
  destruct (decide (u = 0%nat)) as [->|Hu].
  { destruct (main_caller _ Hin) as [Hp Hs]. apply Hno; [done|]. intros k. by destruct (Hs k). }
  destruct (started_threads _ _ Hin Hu) as [Ha|[->|[s' Hs']]].
  - destruct (aside_mute _ Ha) as [Hp Hs]. apply Hno; [done|]. intros k. by destruct (Hs k).
  - destruct (crew_mute _ _ _ _ _ HT o) as [Hp Hs]; [by apply elem_of_own|].
    apply Hno; [done|]. intros k. by destruct (Hs k).
  - cut (s' = s); [by intros <-|]. pose proof (drain_steps _ _ _ Hs' Hin) as Hd.
    destruct o as [X e x|]; [|done]. destruct e; try done; simpl in Hd, Ho.
    + subst p. simpl in Ho. destruct Ho as [Ho|Ho]; [by case_decide|done].
    + by destruct Ho.
    + destruct Hd as [_ Hd]. destruct Ho as [?|Ho]; [done|]. destruct ty; try done.
      unfold sent_on in Ho. simpl in Ho. case_decide; [|done]. simpl in Ho. unfold on_stream in Ho.
      case_decide; [|done]. simpl in Hd. congruence.
Qed.
(** *** The account of a stream *)

(** What concerns a stream is in the log of its drain thread. *)
Lemma stream_steps {E} (f : obs -> option E) s :
  (forall o, f o <> None -> pipe_read s o <> None \/ sent_on (chan_loc lc) s o <> None) ->
  omap f (l.*2) = match T s with Some t => omap f (own t l) | None => [] end.
Proof using Hl Hr Hrest Hown H1 H2 HT.
  intros Hf. destruct (T s) as [t|] eqn:Ht.
  - apply omap_own. intros u o Hin Ho%Hf. pose proof (stream_owner _ _ _ Hin Ho). congruence.
  - apply omap_none. intros o ([u o'] & -> & Hin)%list_elem_of_fmap. simpl.
    destruct (f o') eqn:E0; [|done]. exfalso. assert (f o' <> None) as Ho%Hf by (by rewrite E0).
    pose proof (stream_owner _ _ _ Hin Ho). congruence.
Qed.

Lemma drain_projections s tr :
  Forall (drain_obs (mkPipe id s) lc) tr ->
  omap (chunk_read s) tr = chunks_read tr /\ omap (sent_on (chan_loc lc) s) tr = sent tr.
Proof.
  intros Htr. split; apply list_omap_ext; clear -Htr; induction Htr as [|o tr Ho _ IH]; constructor; try done.
  - destruct o as [X e x|]; [|done]. destruct e; try done. simpl in Ho. subst p. unfold chunk_read.
    simpl. rewrite decide_True by done. simpl. unfold chunk_of. by repeat case_match.
  - destruct o as [X e x|]; [|done]. destruct e; try done. destruct Ho as [Hk Hs]. destruct ty; try done.
    simpl. unfold sent_on. simpl. rewrite decide_True by done. simpl. unfold on_stream.
    by rewrite decide_True.
Qed.

Lemma stream_account s :
  exists pending, numbered (make_msg s) 0 (omap (chunk_read s) (l.*2)) =
    omap (sent_on (chan_loc lc) s) (l.*2) ++ pending.
Proof using Hl Hr Hrest Hown H1 H2 HT.
  rewrite !(stream_steps _ s); [|by right|].
  2: { intros o Ho. left. unfold chunk_read in Ho. by destruct (pipe_read s o). }
  destruct (T s) as [t|] eqn:Ht; [|by exists []].
  pose proof (drain_thread _ _ Ht) as Hex.
  destruct (drain_projections s (own t l)) as [-> ->].
  { exact (drain_body_steps (mkPipe id s) lc _ _ Hex). }
  by destruct (drain_body_exec (mkPipe id s) lc _ _ Hex) as [? _].
Qed.

(** *** From the drain threads to the caller *)

(** The log from the creation of the chunk channel on. *)
Lemma chunk_channel :
  exists l1 l2 : list (tid * obs), l = l1 ++ (0%nat : tid, Obs (NewChan TyChunk) lc) :: l2 /\
    (forall (u : tid) o, (u, o) ∈ l1 -> calm_obs o) /\
    own 0%nat l2 = tail (setup lc lw) ++ ObsFork (wait_body handle sinks lw) (Some w) :: tr2.
Proof using Hl Hr Hrest Hown H1.
  destruct (own_split _ _ _ _ _ Hown) as (l1 & l2 & E & E1 & E2). exists l1, l2.
  split_and!; [done| |done].
  destruct (reachable_split external c c' _ _ _ _ Hl Hr E) as (c1 & c2 & Hr1 & _ & El & _ & _).
  intros u o Hin. rewrite <- El in Hin, E1.
  destruct (idle_threads c c1 Hl Hr1 Hrest) with (u := u) (o := o) as [[-> _]|Ha]; try done.
  - rewrite E1. eapply Forall_impl; [done|]. by left.
  - apply elem_of_own in Hin. rewrite E1 in Hin. by eapply Forall_forall in H1.
  - by apply aside_calm.
Qed.

(** Only the caller's thread receives chunks. *)
Lemma chunk_receiver {E} (f : obs -> option E) u o :
  (forall o, recvs TyChunk (chan_loc lc) o = None -> f o = None) ->
  (u, o) ∈ l -> f o <> None -> u = 0%nat.
Proof using Hl Hr Hrest Hown H1 H2 HT.
  intros Hf Hin Ho. destruct (decide (u = 0%nat)) as [?|Hu]; [done|]. destruct Ho. apply Hf.
  destruct (started_threads _ _ Hin Hu) as [Ha|[->|[s Hs]]].
  - by destruct (aside_mute _ Ha) as [_ Hm]; destruct (Hm (chan_loc lc)) as (_ & ? & _).
  - destruct (crew_mute _ _ _ _ _ HT o) as [_ Hm]; [by apply elem_of_own|].
    by destruct (Hm (chan_loc lc)) as (_ & ? & _).
  - pose proof (drain_steps _ _ _ Hs Hin) as Hd. destruct o as [X e x|]; [|done]. by destruct e.
Qed.

Lemma stream_fifo s :
  exists lost, omap (sent_on (chan_loc lc) s) (l.*2) =
    omap (recv_on (chan_loc lc) s) (own 0%nat l) ++
    omap (on_stream s) (queue TyChunk (chan_at (memory (state c')) (chan_key lc))) ++ lost /\
    (lost = [] \/ exists (u : tid) o, (u, o) ∈ l /\ closes (chan_key lc) o <> None).
Proof using Hl Hr Hrest Hown H1 H2 HT.
  rewrite <- (omap_own _ 0%nat l).
  2: { intros u o. apply chunk_receiver. intros o' Ho'. unfold recv_on. by rewrite Ho'. }
  destruct chunk_channel as (l1 & l2 & E & Hidle & _).
  pose proof (channel_history external _ c c' TyChunk (chan_loc lc) l1 _ l2 Hl Hr E eq_refl)
    as [(lost & Hf & Hlost) Hopen _].
  assert (omap (sent_on (chan_loc lc) s) (l1.*2) = [] /\ omap (recv_on (chan_loc lc) s) (l1.*2) = [])
    as [Hs1 Hr1].
  { split; apply omap_none; intros o ([u o'] & -> & Hin)%list_elem_of_fmap;
      destruct (calm_mute _ (Hidle _ _ Hin)) as [_ Hm]; destruct (Hm (chan_loc lc)) as (Hs & Hrc & _);
      unfold sent_on, recv_on; simpl; by rewrite ?Hs, ?Hrc. }
  exists (omap (on_stream s) lost). split.
  - assert (forall k, omap (sent_on (chan_loc lc) s) k =
      omap (on_stream s) (omap (sends TyChunk (chan_loc lc)) k)) as Hb1 by (intros; apply omap_bind).
    assert (forall k, omap (recv_on (chan_loc lc) s) k =
      omap (on_stream s) (omap (recvs TyChunk (chan_loc lc)) k)) as Hb2 by (intros; apply omap_bind).
    rewrite E, !fmap_app, !omap_app, Hs1, Hr1, !fmap_cons, !omap_cons, !Hb1, !Hb2, Hf, !omap_app.
    done.
  - destruct Hlost as [->|Hrx]; [by left|]. right. destruct Hopen as [Ho|Ho]; [congruence|].
    destruct (omap _ (l2.*2)) as [|[] rest] eqn:E0 in Ho; [done|].
    assert (tt ∈ omap (closes (TyChunk, chan_loc lc)) (l2.*2)) as Hin by (rewrite E0; by left).
    apply list_elem_of_omap in Hin as (o & ([u o'] & -> & Hin)%list_elem_of_fmap & Hc).
    exists u, o'. split; [rewrite E; apply elem_of_app; right; by right|].
    simpl in Hc. unfold chan_key. by rewrite Hc.
Qed.

(** At any moment: what the caller has received of a stream is the beginning
    of the numbering of what was read from the stream's pipe. *)
Lemma received_prefix s :
  omap (recv_on (chan_loc lc) s) (own 0%nat l) `prefix_of`
  numbered (make_msg s) 0 (omap (chunk_read s) (l.*2)).
Proof using Hl Hr Hrest Hown H1 H2 HT.
  destruct (stream_account s) as [pending ->]. destruct (stream_fifo s) as (lost & -> & _).
  rewrite <- !app_assoc. by eexists.
Qed.
(** *** The wait thread's report *)

(** A code received by the caller was sent by the wait thread. *)
Lemma wait_reported code :
  (0%nat, Obs (Recv lw) (Some (Ok code))) ∈ l ->
  exists o, o ∈ own w l /\ sends TyWait (chan_loc lw) o = Some (Ok code).
Proof using Hl Hr Hrest Hown H1 H2 HT.
  intros Hin.
  destruct (own_split 0%nat l (tr1 ++ take 4 (setup lc lw)) (Obs (NewChan TyWait) lw)
    (ObsFork (wait_body handle sinks lw) (Some w) :: tr2)) as (l1 & l2 & E & E1 & _).
  { by rewrite Hown, <- app_assoc. }
  assert ((0%nat : tid, Obs (Recv lw) (Some (Ok code))) ∈ l2) as Hin2.
  { rewrite E in Hin. apply elem_of_app in Hin as [Hin|[?|?]%elem_of_cons]; [|done|done].
    exfalso. apply elem_of_own in Hin. rewrite E1 in Hin. apply elem_of_app in Hin as [Hin|Hin].
    - exact (proj1 (Forall_forall _ _) H1 _ Hin).
    - repeat (apply elem_of_cons in Hin as [?|Hin]; [done|]). by apply elem_of_nil in Hin. }
  pose proof (channel_history external _ c c' TyWait (chan_loc lw) l1 _ l2 Hl Hr E eq_refl)
    as [(lost & Hf & _) _ _].
  assert (Ok code ∈ omap (sends TyWait (chan_loc lw)) (l2.*2)) as Hs.
  { rewrite Hf. apply elem_of_app. left. apply list_elem_of_omap.
    exists (Obs (Recv lw) (Some (Ok code))). split; [|simpl; by rewrite decide_True].
    apply list_elem_of_fmap. by exists (0%nat : tid, Obs (Recv lw) (Some (Ok code))). }
  apply list_elem_of_omap in Hs as (o & ([u o'] & -> & Ho)%list_elem_of_fmap & Hs). simpl in Hs.
  exists o'. split; [|done]. apply elem_of_own.
  assert ((u, o') ∈ l) as Ho' by (rewrite E; apply elem_of_app; right; by right).
  destruct (decide (u = 0%nat)) as [->|Hu].
  { destruct (main_caller _ Ho') as [_ Hm]. destruct (Hm (chan_loc lw)). congruence. }
  destruct (started_threads _ _ Ho' Hu) as [Ha|[->|[s Hsu]]]; [exfalso|done|exfalso].
  - destruct o' as [X e x|]; [|done]. destruct e; try done; simpl in Ha, Hs; subst; by repeat case_match.
  - pose proof (drain_steps _ _ _ Hsu Ho') as Hd. destruct o' as [X e x|]; [|done].
    destruct e; try done; simpl in Hd, Hs; try destruct Hd as [_ Hd]; by repeat case_match.
Qed.

(** *** The senders of the chunk channel *)

Lemma main_drops :
  Forall (pump_obs lc) tr2 -> omap (drops (chan_key lc)) (own 0%nat l) = [tt] /\
  omap (closes (chan_key lc)) (own 0%nat l) = [].
Proof using Hown H1.
  intros Hp.
  assert (forall o, calm_obs o -> drops (chan_key lc) o = None /\ closes (chan_key lc) o = None) as Hc.
  { intros o Ho. destruct o as [X e x|]; [|done]. destruct e; try done; simpl in Ho; subst;
      unfold drops, closes, at_key; by rewrite decide_False. }
  assert (forall tr, (forall o, o ∈ tr -> drops (chan_key lc) o = None /\ closes (chan_key lc) o = None) ->
    omap (drops (chan_key lc)) tr = [] /\ omap (closes (chan_key lc)) tr = []) as Hn.
  { intros tr Ht. split; apply omap_none; intros o Ho; by destruct (Ht o Ho). }
  destruct (Hn tr1) as [Hd1 Hc1].
  { intros o Ho. apply Hc. by eapply Forall_forall in H1. }
  destruct (Hn tr2) as [Hd2 Hc2].
  { intros o Ho. eapply Forall_forall in Hp; [|done]. destruct o as [X e x|]; [|done].
    destruct e; try done; simpl in Hp; subst; unfold drops, closes, at_key; by rewrite decide_False. }
  rewrite Hown, !omap_app, Hd1, Hc1. simpl. unfold at_key. rewrite decide_True by done.
  change (list_omap obs unit (drops (chan_key lc)) tr2) with (omap (drops (chan_key lc)) tr2).
  change (list_omap obs unit (closes (chan_key lc)) tr2) with (omap (closes (chan_key lc)) tr2).
  by rewrite Hd2, Hc2.
Qed.

(** Nobody gives up the receiver during the delivery loop. *)
Lemma receiver_open u o :
  Forall (pump_obs lc) tr2 -> (u, o) ∈ l -> closes (chan_key lc) o = None.
Proof using Hl Hr Hrest Hown H1 H2 HT.
  intros Hp Hin. destruct (decide (u = 0%nat)) as [->|Hu].
  - destruct (main_drops Hp) as [_ Hc]. destruct (closes (chan_key lc) o) eqn:Eo; [|done].
    exfalso. assert (u ∈ omap (closes (chan_key lc)) (own 0%nat l)) as Hin'; [|rewrite Hc in Hin'].
    + apply list_elem_of_omap. exists o. split; [by apply elem_of_own|done].
    + by apply elem_of_nil in Hin'.
  - destruct (started_threads _ _ Hin Hu) as [Ha|[->|[s Hs]]].
    + destruct (aside_mute _ Ha) as [_ Hm]. by destruct (Hm (chan_loc lc)) as (_ & _ & ?).
    + destruct (crew_mute _ _ _ _ _ HT o) as [_ Hm]; [by apply elem_of_own|].
      by destruct (Hm (chan_loc lc)) as (_ & _ & ?).
    + pose proof (drain_steps _ _ _ Hs Hin) as Hd. destruct o as [X e x|]; [|done]. by destruct e.
Qed.

(** What the caller receives, it receives after the setup. *)
Lemma received_later s :
  omap (recv_on (chan_loc lc) s) (own 0%nat l) = omap (recv_on (chan_loc lc) s) tr2.
Proof using Hown H1.
  rewrite Hown, omap_app, (omap_none _ tr1); [done|].
  intros o Ho. eapply Forall_forall in H1; [|done]. destruct (calm_mute _ H1) as [_ Hm].
  unfold recv_on. by destruct (Hm (chan_loc lc)) as (_ & -> & _).
Qed.

(** Who drops a sender of the chunk channel. *)
Lemma droppers u o :
  (u, o) ∈ l -> drops (chan_key lc) o <> None ->
  u ∈ [0%nat; w] ++ option_list (T OutStream) ++ option_list (T ErrStream).
Proof using Hl Hr Hrest Hown H1 H2 HT.
  intros Hin Ho. destruct (decide (u = 0%nat)) as [->|Hu]; [by left|].
  destruct (started_threads _ _ Hin Hu) as [Ha|[->|[s Hs]]].
  - by destruct (Ho (aside_drops o (chan_loc lc) Ha)).
  - by right; left.
  - apply elem_of_app. right. apply elem_of_app. destruct s; [left|right]; rewrite Hs; by left.
Qed.
End Started.

(** ** The end of the delivery loop *)

Section Finished.
Context {R : Type} (c c' : config W R) (Hl : log (state c) = []) (Hr : reachable c c').
Context (Hrest : Forall (all_obs aside_obs) (others c)).
#[local] Abbreviation l := (log (state c')).
Context (handle : OsHandle) (id : Z).
Context (Hout : child_stdout (child handle) = Some (mkPipe id OutStream)).
Context (Herr : child_stderr (child handle) = Some (mkPipe id ErrStream)).
Context (lc : chan TyChunk) (lw : chan TyWait) (w : tid) (tr1 trp tr3 : list obs).
#[local] Abbreviation sinks := (mkOutputSinks (Some lc) (Some lc)).
(** The delivery loop [trp] has seen the channel closed, and the wait thread
    has reported an exit code. *)
Context (Hown : own 0%nat l =
  tr1 ++ setup lc lw ++ ObsFork (wait_body handle sinks lw) (Some w) ::
  trp ++ Obs (Recv lc) None :: tr3).
Context (H1 : Forall calm_obs tr1) (Hp : Forall (pump_obs lc) trp) (H3 : Forall (later_obs lc) tr3).
Context (code : Z) (Hcode : (0%nat, Obs (Recv lw) (Some (Ok code))) ∈ l).

(** The configuration in which the channel was seen closed: nothing queued,
    no sender, and no receiver gone. *)
Lemma closed_state :
  exists (c1 : config W R) l2, reachable c c1 /\
    l = log (state c1) ++ (0%nat : tid, Obs (Recv lc) None) :: l2 /\
    own 0%nat (log (state c1)) =
      tr1 ++ setup lc lw ++ ObsFork (wait_body handle sinks lw) (Some w) :: trp /\
    q_chunk (chan_at (memory (state c1)) (chan_key lc)) = [] /\
    txs (chan_at (memory (state c1)) (chan_key lc)) = 0%nat.
Proof using Hl Hr Hown.
  destruct (own_split 0%nat l (tr1 ++ setup lc lw ++
    ObsFork (wait_body handle sinks lw) (Some w) :: trp) (Obs (Recv lc) None) tr3)
    as (l1 & l2 & E & E1 & _).
  { rewrite Hown, <- !app_assoc. simpl. by rewrite <- ?app_assoc. }
  destruct (reachable_split external c c' _ _ _ _ Hl Hr E) as (c1 & c2 & Hr1 & _ & El & _ & Ho).
  exists c1, l2. rewrite El. split_and!; [done|done|done| |].
  all: destruct Ho as [_ [(el & Hm & _)|(Hm & _)]]; simpl in Hm;
    destruct (q_chunk _); try done; destruct (txs _); done.
Qed.

Lemma later_all : Forall (later_obs lc) (trp ++ Obs (Recv lc) None :: tr3).
Proof using Hp H3.
  apply Forall_app. split; [|constructor; [by right; left|done]].
  eapply Forall_impl; [exact Hp|]. by right; left.
Qed.

(** The wait thread has dropped no sender of its own by then. *)
Lemma wait_no_drops (c1 : config W R) x l2 T :
  l = log (state c1) ++ x :: l2 -> crew id lc lw (own w l) T ->
  omap (drops (chan_key lc)) (own w (log (state c1))) = [].
Proof using Hl Hr Hrest Hown H1 Hp H3 Hcode.
  intros E HT.
  destruct (wait_reported c c' Hl Hr Hrest handle id lc lw w tr1 _ Hown H1 later_all T HT code Hcode)
    as (o & Ho & Hs).
  destruct (crew_done _ _ _ _ _ HT o code Ho Hs) as (_ & _ & Hd).
  rewrite E, own_app, omap_app in Hd. by apply app_nil in Hd as [? _].
Qed.

Lemma drain_drops_once (c1 : config W R) tr T s t :
  reachable c c1 -> own 0%nat (log (state c1)) =
    tr1 ++ setup lc lw ++ ObsFork (wait_body handle sinks lw) (Some w) :: tr ->
  crew id lc lw (own w (log (state c1))) T -> T s = Some t ->
  (length (omap (drops (chan_key lc)) (own t (log (state c1)))) <= 1)%nat.
Proof using Hl.
  intros Hr1 E1 HT Ht. pose proof (drain_thread c c1 Hl Hr1 id lc lw w T HT s t Ht) as Hex.
  destruct (drain_body_exec (mkPipe id s) lc _ _ Hex) as [_ [->|[-> _]]]; simpl; lia.
Qed.

(** Both drain threads have dropped theirs. *)
Lemma both_dropped (c1 : config W R) x l2 T T1 :
  reachable c c1 -> l = log (state c1) ++ x :: l2 ->
  own 0%nat (log (state c1)) =
    tr1 ++ setup lc lw ++ ObsFork (wait_body handle sinks lw) (Some w) :: trp ->
  txs (chan_at (memory (state c1)) (chan_key lc)) = 0%nat ->
  crew id lc lw (own w l) T -> crew id lc lw (own w (log (state c1))) T1 ->
  forall s, exists t, T1 s = Some t /\ omap (drops (chan_key lc)) (own t (log (state c1))) = [tt].
Proof using Hl Hr Hrest Hown H1 Hp H3 Hcode.
  intros Hr1 E E1 Htx HT HT1.
  assert (Forall (later_obs lc) trp) as Hp' by (eapply Forall_impl; [exact Hp|by right; left]).
  destruct (chunk_channel c c1 Hl Hr1 Hrest handle lc lw w tr1 trp E1 H1) as (a & b & Eb & _ & E2).
  pose proof (channel_history external _ c c1 TyChunk (chan_loc lc) a _ b Hl Hr1 Eb eq_refl) as [_ _ Ht].
  change (TyChunk, chan_loc lc) with (chan_key lc) in Ht. rewrite Htx in Ht.
  assert (2 <= length (omap (clones (chan_key lc)) (b.*2)))%nat as Hcl.
  { etrans; [|apply (count_le _ 0%nat)]. rewrite E2, omap_app. simpl. unfold at_key.
    rewrite decide_True by done. simpl. lia. }
  assert (length (omap (drops (chan_key lc)) (b.*2)) <=
    length (omap (drops (chan_key lc)) ((log (state c1)).*2)))%nat as Hdb.
  { rewrite Eb, fmap_app, omap_app, fmap_cons, omap_cons, !length_app. lia. }
  pose proof (crew_nodup c c1 Hl Hr1 handle id lc lw w tr1 trp E1 T1 HT1) as Hnd.
  rewrite (count_own (drops (chan_key lc)) _ _ Hnd
    (droppers c c1 Hl Hr1 Hrest handle id lc lw w tr1 trp E1 H1 Hp' T1 HT1)) in Hdb.
  destruct (main_drops c1 handle lc lw w tr1 trp E1 H1 Hp) as [Hd0 _].
  simpl in Hdb. rewrite !counts_cons, Hd0, (wait_no_drops c1 x l2 T E HT) in Hdb. simpl in Hdb.
  pose proof (fun s t => drain_drops_once c1 trp T1 s t Hr1 E1 HT1) as Hone.
  assert (forall (l : list unit), length l = 1%nat -> l = [tt]) as Hunit
    by (intros [|[] [|]]; by auto).
  destruct (T1 OutStream) as [t1|] eqn:Eo; destruct (T1 ErrStream) as [t2|] eqn:Ee; simpl in Hdb;
    rewrite ?counts_cons in Hdb; unfold counts in Hdb; simpl in Hdb;
    try (pose proof (Hone _ _ Eo)); try (pose proof (Hone _ _ Ee)); try lia.
  intros []; [exists t1|exists t2]; (split; [done|]); apply Hunit; lia.
Qed.
(** A drain thread that has dropped its sender does nothing more. *)
Lemma drain_last (c1 : config W R) x l2 T1 s t :
  reachable c c1 -> l = log (state c1) ++ x :: l2 ->
  own 0%nat (log (state c1)) =
    tr1 ++ setup lc lw ++ ObsFork (wait_body handle sinks lw) (Some w) :: trp ->
  crew id lc lw (own w (log (state c1))) T1 -> T1 s = Some t ->
  omap (drops (chan_key lc)) (own t (log (state c1))) = [tt] ->
  own t l = own t (log (state c1)).
Proof using Hl Hr.
  intros Hr1 E E1 HT1 Ht Hd.
  assert ((w, ObsFork (drainer id lc s) (Some t)) ∈ l) as Hb.
  { rewrite E. apply elem_of_app. left. by apply (drain_born c1 id lc lw w T1 HT1). }
  destruct (born_program external c c' Hl Hr _ _ _ Hb) as (_ & _ & i & -> & Hi).
  destruct (program_exec external c c' Hl Hr _ _ Hi) as [Hex _].
  rewrite E, own_app in Hex |- *. remember (own (S i) (x :: l2)) as rest eqn:Er. clear Er.
  destruct (drain_body_exec (mkPipe id s) lc _ _ Hex) as [_ [H0|(H0 & _ & tr' & y & E' & _)]];
    rewrite omap_app, Hd in H0; [done|]. injection H0 as H0.
  induction rest as [|o rest _] using rev_ind; [by rewrite app_nil_r|].
  exfalso. assert (o = Obs (DropTx lc) tt) as ->.
  { rewrite app_assoc in E'. change [Obs (PipeRead (mkPipe id s) drain_buf) y; Obs (DropTx lc) ()] with
      ([Obs (PipeRead (mkPipe id s) drain_buf) y] ++ [Obs (DropTx lc) ()]) in E'.
    rewrite (app_assoc tr') in E'. by apply app_inj_tail in E' as [_ ->]. }
  rewrite omap_app in H0. apply app_nil in H0 as [_ H0]. simpl in H0. unfold at_key in H0.
  by rewrite decide_True in H0.
Qed.

(** Each stream has its drain thread, which has read the stream to its end,
    sent everything and gone; and everything it sent was received. *)
Lemma stream_complete s :
  omap (recv_on (chan_loc lc) s) trp = numbered (make_msg s) 0 (omap (chunk_read s) (l.*2)) /\
  exists x, last (omap (pipe_read s) (l.*2)) = Some x /\ ends_drain x.
Proof using Hl Hr Hrest Hout Herr Hown H1 Hp H3 Hcode D.
  destruct closed_state as (c1 & l2 & Hr1 & E & E1 & Hq & Htx).
  assert (Forall (later_obs lc) trp) as Hp' by (eapply Forall_impl; [exact Hp|by right; left]).
  destruct (wait_thread_crew c c' Hl Hr handle id Hout Herr lc lw w tr1 _ Hown) as [T HT].
  destruct (wait_thread_crew c c1 Hl Hr1 handle id Hout Herr lc lw w tr1 trp E1) as [T1 HT1].
  destruct (both_dropped c1 _ l2 T T1 Hr1 E E1 Htx HT HT1 s) as (t & Ht & Hd).
  pose proof (drain_thread c c1 Hl Hr1 id lc lw w T1 HT1 s t Ht) as Hex.
  pose proof (drain_last c1 _ l2 T1 s t Hr1 E E1 HT1 Ht Hd) as Hlast.
  destruct (drain_body_exec (mkPipe id s) lc _ _ Hex) as [_ [H0|(_ & Hs & tr' & x & Etr & Hx)]];
    [by rewrite H0 in Hd|].
  assert (T s = Some t) as HTs.
  { apply (stream_owner c c' Hl Hr Hrest handle id lc lw w tr1 _ Hown H1 later_all T HT s t
      (Obs (PipeRead (mkPipe id s) drain_buf) x)).
    - apply elem_of_own. rewrite Hlast, Etr. in_list.
    - left. simpl. by rewrite decide_True. }
  pose proof (fun E (f : obs -> option E) => stream_steps c c' Hl Hr Hrest handle id lc lw w tr1 _ Hown H1
    later_all T HT f s) as Hsteps. rewrite HTs, Hlast in Hsteps.
  destruct (drain_projections id lc s (own t (log (state c1)))) as [Hcr Hss].
  { exact (drain_body_steps (mkPipe id s) lc _ _ Hex). }
  simpl in Hs. split.
  - rewrite Hsteps, Hcr, <- Hs, <- Hss.
    2: { intros o Ho. left. unfold chunk_read in Ho. by destruct (pipe_read s o). }
    pose proof (stream_steps c c1 Hl Hr1 Hrest handle id lc lw w tr1 trp E1 H1 Hp' T1 HT1
      (sent_on (chan_loc lc) s) s) as Hsum. rewrite Ht in Hsum. rewrite <- Hsum by (by right).
    destruct (stream_fifo c c1 Hl Hr1 Hrest handle id lc lw w tr1 trp E1 H1 Hp' T1 HT1 s)
      as (lost & -> & Hlost).
    rewrite (received_later c1 handle lc lw w tr1 trp E1 H1 s). simpl. rewrite Hq.
    destruct Hlost as [->|(u & o & Hin & Hc)]; [by rewrite app_nil_r|].
    by rewrite (receiver_open c c1 Hl Hr1 Hrest handle id lc lw w tr1 trp E1 H1 Hp' T1 HT1 u o Hp Hin) in Hc.
  - exists x. split; [|done]. rewrite Hsteps by (by left). rewrite Etr, omap_app. simpl.
    rewrite decide_True by done. by rewrite last_snoc.
Qed.
End Finished.
End Delivery.
