(* ===== verification/Captured.v ===== *)
(** * What the caller of a capturing run is given (src/src/task.rs, os/mod.rs)

    The theorems about captured output, over every interleaving of the
    caller's thread with the wait thread, the drain threads, the timeout
    monitor and any threads that leave the output alone. *)

From Stdlib Require Import ZArith.
From stdpp Require Import base numbers list strings gmap relations.
From S2P Require Import Prelude Core Sys Prog Os Unix Drains Task Run Caller Blocks Pool Threads History Capture Delivery.

Open Scope Z_scope.

(** The chunk events of a stream. *)
Definition event_on (s : Stream) (ev : Event.t) : option Event.t :=
  match ev, s with
  | Event.StdoutChunk _ _, OutStream | Event.StderrChunk _ _, ErrStream => Some ev
  | _, _ => None
  end.

(** The events the caller has been given, in a configuration. *)
Definition caller_events {W R} (c : config W R) : list Event.t := events (own 0%nat (log (state c))).

(** The chunks read so far from the pipe of a stream, by whatever thread. *)
Definition chunks_of {W R} (c : config W R) (s : Stream) : list (list Byte.byte) :=
  omap (chunk_read s) (log (state c)).*2.

(** The chunk events owed for them: one per chunk, in order, numbered from 0. *)
Definition owed {W R} (c : config W R) (s : Stream) : list Event.t :=
  chunk_event <$> numbered (make_msg s) 0 (chunks_of c s).

(** The read that ended a stream has been made, and is the last one. *)
Definition drained {W R} (c : config W R) (s : Stream) : Prop :=
  exists x, last (omap (pipe_read s) (log (state c)).*2) = Some x /\ ends_drain x.

Lemma event_on_chunk s m : event_on s (chunk_event m) = chunk_event <$> on_stream s m.
Proof. by destruct m, s. Qed.

Lemma events_on_chunks s (ms : list ChunkMsg.t) :
  omap (event_on s) (chunk_event <$> ms) = chunk_event <$> omap (on_stream s) ms.
Proof.
  induction ms as [|m ms IH]; [done|]. rewrite fmap_cons, !omap_cons, fmap_app, <- IH, event_on_chunk.
  by destruct (on_stream s m).
Qed.

(** The steps of the callback of a Rust caller. *)
Definition rust_caller (ev : Event.t) (o : obs) : Prop := obs_event o = Some ev.

Lemma rust_callback_steps ev : all_obs (rust_caller ev) (rust_callback ev).
Proof. unfold rust_callback. all_obs_solve ltac:(done). Qed.

Lemma rust_caller_aside ev o : rust_caller ev o -> aside_obs o.
Proof. destruct o as [X e x|]; [|done]. by destruct e. Qed.

Section Captured.
Context `{P : OsProcess} {D : OsDrains P}.
Context {W : Type}.
Variable external : tid -> forall X, act X -> W -> X -> W -> Prop.
Hypothesis Hpiped : piped_children external.
#[local] Abbreviation reachable := (reachable external).
#[local] Abbreviation on_obs := (on_obs rust_caller).

Lemma on_calm E o : on_obs E o -> calm_obs o.
Proof. intros [[? _]|(ev & _ & Ho)]; [done|]. by eapply aside_calm, rust_caller_aside. Qed.

Lemma on_event_obs E o ev : on_obs E o -> obs_event o = Some ev -> E ev.
Proof. intros [[_ ?]|(ev' & HE & Ho)] Hev; [congruence|]. unfold rust_caller in Ho. congruence. Qed.

(** Events of kind [E] only. *)
Lemma on_events E tr ev : Forall (on_obs E) tr -> ev ∈ events tr -> E ev.
Proof.
  intros Htr (o & Ho & Hev)%list_elem_of_omap. eapply Forall_forall in Htr; [|done].
  by eapply on_event_obs.
Qed.

Lemma no_stream_events s (evs : list Event.t) :
  (forall ev, ev ∈ evs -> event_on s ev = None) -> omap (event_on s) evs = [].
Proof. apply omap_none. Qed.

Lemma started_no_stream s ev : is_started ev -> event_on s ev = None.
Proof. by destruct ev. Qed.
Lemma exited_no_stream code s ev : exit_of code ev -> event_on s ev = None.
Proof. by intros (? & ? & ->). Qed.

(** A child spawned by a run has its two pipes. *)
Lemma spawned_pipes {R} (c c' : config W R) cmd child :
  log (state c) = [] -> reachable c c' ->
  (0%nat, Obs (CommandSpawn cmd) (Ok child)) ∈ log (state c') ->
  cmd_stdout cmd = StdioPiped -> cmd_stderr cmd = StdioPiped ->
  child_stdout child = Some (mkPipe (child_id child) OutStream) /\
  child_stderr child = Some (mkPipe (child_id child) ErrStream).
Proof using Hpiped.
  intros Hl Hr Hin. pose (fun o : obs => match o with
    | Obs e x =>
        match e in act X return X -> Prop with
        | CommandSpawn cmd => fun x =>
            match x with
            | Ok child => cmd_stdout cmd = StdioPiped -> cmd_stderr cmd = StdioPiped ->
                child_stdout child = Some (mkPipe (child_id child) OutStream) /\
                child_stderr child = Some (mkPipe (child_id child) ErrStream)
            | Err _ => True
            end
        | _ => fun _ => True
        end x
    | ObsFork _ _ => True
    end) as ok.
  apply (external_history external R c c' ok) in Hin; [exact Hin| |done|done|done].
  intros t X e x w w' Hx. destruct e; try done. destruct x as [ch|]; [|done]. simpl.
  intros Ho He. by eapply Hpiped.
Qed.

(** Where the caller's thread of a capturing run stands: before its wait
    thread, or past its start. *)
Lemma run_stage task ch tr r :
  capture_output task = true -> exec (run_impl task rust_callback ch) tr r ->
  (Forall idle_obs tr /\ forall ev, ev ∈ events tr -> is_started ev) \/
  exists handle cmd lc lw w tr0 tr1 trp rp trt tr3 r2,
    tr = tr1 ++ setup lc lw ++
      ObsFork (wait_body handle (mkOutputSinks (Some lc) (Some lc)) lw) (Some w) :: trp ++ trt ++ tr3 /\
    (exec (os_spawn (program task) (args task) (spawn_options task)) tr0 (Some (Ok handle)) /\
     tr0 ⊆ tr1) /\
    Obs (CommandSpawn cmd) (Ok (child handle)) ∈ tr1 /\
    cmd_stdout cmd = StdioPiped /\ cmd_stderr cmd = StdioPiped /\
    Forall (on_obs is_started) tr1 /\
    exec (pump rust_callback lc) trp rp /\
    Forall tail_obs trt /\
    Forall (on_obs (fun ev => exists code, r2 = Some (Go code) /\ exit_of code ev)) tr3 /\
    forall code, r2 = Some (Go code) -> rp = Some (Val tt) /\ Obs (Recv lw) (Some (Ok code)) ∈ trt.
Proof using D.
  intros Hcap Hex.
  assert (forall E tr, Forall (on_obs E) tr -> Forall idle_obs tr) as Hidle.
  { intros E t Ht. eapply Forall_impl; [exact Ht|]. intros o Ho. left. by eapply on_calm. }
  destruct (run_impl_view rust_callback rust_caller rust_callback_steps task ch _ _ Hex)
    as [H1|(handle & cmd & tr0 & tr1 & tr2 & tr3 & r2 & E & [Hspawn Hsub] & Hs & Ho & He & H1 & Hw & H3)].
  { left. split; [by eapply Hidle|]. intros ev. exact (on_events _ _ _ H1). }
  unfold obtain in Hw. rewrite Hcap in Hw. apply wait_capturing_shape in Hw.
  destruct Hw as [tr2 r2 H2 Hgo|lc lw w trp rp trt r2 Hp Ht Hgo].
  - left. rewrite E. split.
    + apply Forall_app; split; [by eapply Hidle|].
      apply Forall_app; split; [eapply Forall_impl; [exact H2|by right]|by eapply Hidle].
    + intros ev. rewrite !events_app. intros [Hev|[Hev|Hev]%elem_of_app]%elem_of_app.
      * by eapply on_events.
      * apply list_elem_of_omap in Hev as (o & Hin & Hev). eapply Forall_forall in H2; [|done].
        by rewrite early_event in Hev.
      * destruct (on_events _ _ _ H3 Hev) as (code & -> & _). by destruct (Hgo code).
  - right. exists handle, cmd, lc, lw, w, tr0, tr1, trp, rp, trt, tr3, r2.
    split_and!; try done; [|by eapply Forall_impl; [exact Ht|apply tail_of_obs]].
    rewrite E. unfold setup. simpl. by rewrite <- !app_assoc.
Qed.

(** The same in a configuration, where the child has its pipes. *)
Lemma capture_stage task ch rest g c :
  capture_output task = true -> log g = [] ->
  reachable (capture_run rust_callback task ch rest g) c ->
  let tr := own 0%nat (log (state c)) in
  (Forall idle_obs tr /\ forall ev, ev ∈ events tr -> is_started ev) \/
  exists handle lc lw w tr0 tr1 trp rp trt tr3 r2,
    let id := child_id (child handle) in
    tr = tr1 ++ setup lc lw ++
      ObsFork (wait_body handle (mkOutputSinks (Some lc) (Some lc)) lw) (Some w) :: trp ++ trt ++ tr3 /\
    exec (os_spawn (program task) (args task) (spawn_options task)) tr0 (Some (Ok handle)) /\
    child_stdout (child handle) = Some (mkPipe id OutStream) /\
    child_stderr (child handle) = Some (mkPipe id ErrStream) /\
    Forall (on_obs is_started) tr1 /\
    exec (pump rust_callback lc) trp rp /\
    Forall tail_obs trt /\
    Forall (on_obs (fun ev => exists code, r2 = Some (Go code) /\ exit_of code ev)) tr3 /\
    forall code, r2 = Some (Go code) -> rp = Some (Val tt) /\ Obs (Recv lw) (Some (Ok code)) ∈ trt.
Proof using Hpiped D.
  intros Hcap Hl Hr tr.
  destruct (run_stage task ch tr None Hcap (main_exec external (capture_run rust_callback task ch rest g) c Hl Hr))
    as [?|(handle & cmd & lc & lw & w & tr0 & tr1 & trp & rp & trt & tr3 & r2 & E & [Hspawn Hsub] & Hs & Ho & He & H1 & Hrest)];
    [by left|right].
  exists handle, lc, lw, w, tr0, tr1, trp, rp, trt, tr3, r2. intros id.
  destruct (spawned_pipes (capture_run rust_callback task ch rest g) c cmd (child handle) Hl Hr) as [Hout Herr]; [|done|done|].
  { apply elem_of_own. fold tr. rewrite E. apply elem_of_app. by left. }
  do 5 (split; [done|]). exact Hrest.
Qed.

(** The events of the delivery loop, per stream. *)
Lemma pump_received lc trp :
  Forall (pump_obs lc) trp -> received trp = omap (recvs TyChunk (chan_loc lc)) trp.
Proof.
  intros Hp. apply list_omap_ext. induction Hp as [|o tr Ho _ IH]; constructor; [|done].
  destruct o as [X e x|]; [|done]. destruct e; try done.
  - simpl in Ho. injection Ho as Et E. destruct ty; try done. simpl.
    rewrite decide_True by (unfold chan_key; by rewrite E). by destruct x.
  - simpl. by destruct x.
Qed.

Lemma pump_stream lc trp rp s :
  exec (pump rust_callback lc) trp rp ->
  omap (event_on s) (events trp) `prefix_of`
    chunk_event <$> omap (recv_on (chan_loc lc) s) trp /\
  (rp = Some (Val tt) ->
     omap (event_on s) (events trp) = chunk_event <$> omap (recv_on (chan_loc lc) s) trp) /\
  forall code reason, Event.Exited code reason ∉ events trp.
Proof.
  intros Hex. destruct (pump_exec _ _ _ Hex) as [Hev Hdone].
  destruct (pump_view rust_callback rust_caller rust_callback_steps rust_caller_aside _ _ _ Hex)
    as [Hp _].
  assert (chunk_event <$> omap (recv_on (chan_loc lc) s) trp =
    omap (event_on s) (chunk_event <$> received trp)) as ->.
  { rewrite events_on_chunks, (pump_received lc) by done. f_equal. apply omap_bind. }
  split_and!.
  - destruct Hev as [->|[m ->]]; [done|]. rewrite omap_app. by apply prefix_app_r.
  - intros ->. by destruct (Hdone tt eq_refl) as [-> _].
  - intros code reason Hin. assert (Event.Exited code reason ∈ chunk_event <$> received trp) as Hin'.
    { destruct Hev as [<-|[m ->]]; [done|]. apply elem_of_app. by left. }
    apply list_elem_of_fmap in Hin' as (m & Hm & _). by destruct m.
Qed.

(** The steps after the start of the wait thread. *)
Lemma later_steps lc E trp rp trt tr3 :
  exec (pump rust_callback lc) trp rp -> Forall tail_obs trt -> Forall (on_obs E) tr3 ->
  Forall (pump_obs lc) trp /\ Forall (later_obs lc) (trt ++ tr3) /\
  Forall (later_obs lc) (trp ++ trt ++ tr3).
Proof.
  intros Hex Ht H3.
  destruct (pump_view rust_callback rust_caller rust_callback_steps rust_caller_aside _ _ _ Hex)
    as [Hp _].
  assert (Forall (later_obs lc) (trt ++ tr3)) as Hl.
  { apply Forall_app. split; [eapply Forall_impl; [exact Ht|by right; right]|].
    eapply Forall_impl; [exact H3|]. intros o Ho. left. by eapply on_calm. }
  split_and!; [done|done|]. apply Forall_app. split; [|done].
  eapply Forall_impl; [exact Hp|by right; left].
Qed.

(** The stream events of a run past the start of its wait thread are those of
    its delivery loop. *)
Lemma stage_events E (handle : OsHandle) lc lw w tr1 trp trt tr3 s :
  Forall (on_obs is_started) tr1 -> Forall tail_obs trt ->
  Forall (on_obs E) tr3 -> (forall ev, E ev -> event_on s ev = None) ->
  omap (event_on s) (events (tr1 ++ setup lc lw ++
    ObsFork (wait_body handle (mkOutputSinks (Some lc) (Some lc)) lw) (Some w) :: trp ++ trt ++ tr3)) =
  omap (event_on s) (events trp).
Proof.
  intros H1 Ht H3 HE.
  assert (omap (event_on s) (events tr1) = []) as E1.
  { apply no_stream_events. intros ev Hev. by eapply started_no_stream, on_events. }
  assert (events trt = []) as E2.
  { apply omap_none. intros o Ho. eapply Forall_forall in Ht; [|done]. by apply tail_event. }
  assert (omap (event_on s) (events tr3) = []) as E3.
  { apply no_stream_events. intros ev Hev. by eapply HE, on_events. }
  rewrite events_app, omap_app, E1. simpl. fold (events (trp ++ trt ++ tr3)).
  change (omap obs_event (trp ++ trt ++ tr3)) with (events (trp ++ trt ++ tr3)).
  by rewrite !events_app, !omap_app, E2, E3, !app_nil_r.
Qed.

(** A run that gave its caller [Exited]: the delivery loop saw the channel
    closed, the exit code was received, and the event follows. *)
Lemma run_exited_stage task ch tr r code reason :
  capture_output task = true -> exec (run_impl task rust_callback ch) tr r ->
  Event.Exited code reason ∈ events tr ->
  exists handle cmd lc lw w tr0 tr1 trp trt tr3 os_code,
    tr = tr1 ++ setup lc lw ++
      ObsFork (wait_body handle (mkOutputSinks (Some lc) (Some lc)) lw) (Some w) ::
      (trp ++ [Obs (Recv lc) None]) ++ trt ++ tr3 /\
    (exec (os_spawn (program task) (args task) (spawn_options task)) tr0 (Some (Ok handle)) /\
     tr0 ⊆ tr1) /\
    Obs (CommandSpawn cmd) (Ok (child handle)) ∈ tr1 /\
    cmd_stdout cmd = StdioPiped /\ cmd_stderr cmd = StdioPiped /\
    Forall (on_obs is_started) tr1 /\
    exec (pump rust_callback lc) (trp ++ [Obs (Recv lc) None]) (Some (Val tt)) /\
    Forall tail_obs trt /\ Obs (Recv lw) (Some (Ok os_code)) ∈ trt /\
    Forall (on_obs (exit_of os_code)) tr3 /\ Event.Exited code reason ∈ events tr3.
Proof using D.
  intros Hcap Hx Hin.
  destruct (run_stage task ch tr r Hcap Hx) as [[_ Hst]|(handle & cmd & lc & lw & w & tr0 & tr1 & trp & rp & trt &
    tr3 & r2 & E & [Hs Hsub] & Hc & Ho & He & H1 & Hp & Ht & H3 & Hgo)].
  { by destruct (Hst _ Hin). }
  destruct (pump_stream _ _ _ OutStream Hp) as (_ & _ & Hno).
  assert (Event.Exited code reason ∈ events tr3) as Hex.
  { rewrite E, !events_app in Hin. apply elem_of_app in Hin as [Hin|Hin].
    - by destruct (on_events _ _ _ H1 Hin).
    - change (Event.Exited code reason ∈ events (trp ++ trt ++ tr3)) in Hin. rewrite !events_app in Hin.
      apply elem_of_app in Hin as [Hin|[Hin|Hin]%elem_of_app]; [by destruct (Hno code reason)| |done].
      apply list_elem_of_omap in Hin as (o & Hoi & Hoe). eapply Forall_forall in Ht; [|done].
      by rewrite tail_event in Hoe. }
  destruct (on_events _ _ _ H3 Hex) as (os_code & -> & _).
  destruct (Hgo os_code eq_refl) as [-> Hrecv].
  destruct (pump_view rust_callback rust_caller rust_callback_steps rust_caller_aside _ _ _ Hp)
    as [_ Hend].
  destruct (Hend tt eq_refl) as [tr' ->].
  exists handle, cmd, lc, lw, w, tr0, tr1, tr', trt, tr3, os_code. split_and!; try done.
  eapply Forall_impl; [exact H3|]. intros o [?|(ev & (? & [= <-] & Hev) & ?)]; [by left|right; eauto].
Qed.

Lemma capture_exited task ch rest g c code reason :
  capture_output task = true -> log g = [] ->
  reachable (capture_run rust_callback task ch rest g) c ->
  Event.Exited code reason ∈ caller_events c ->
  exists handle lc lw w tr0 tr1 trp trt tr3 os_code,
    let id := child_id (child handle) in
    own 0%nat (log (state c)) = tr1 ++ setup lc lw ++
      ObsFork (wait_body handle (mkOutputSinks (Some lc) (Some lc)) lw) (Some w) ::
      (trp ++ [Obs (Recv lc) None]) ++ trt ++ tr3 /\
    (exec (os_spawn (program task) (args task) (spawn_options task)) tr0 (Some (Ok handle)) /\
     tr0 ⊆ tr1) /\
    child_stdout (child handle) = Some (mkPipe id OutStream) /\
    child_stderr (child handle) = Some (mkPipe id ErrStream) /\
    Forall (on_obs is_started) tr1 /\
    exec (pump rust_callback lc) (trp ++ [Obs (Recv lc) None]) (Some (Val tt)) /\
    Forall tail_obs trt /\ Obs (Recv lw) (Some (Ok os_code)) ∈ trt /\
    Forall (on_obs (exit_of os_code)) tr3 /\ Event.Exited code reason ∈ events tr3.
Proof using Hpiped D.
  intros Hcap Hl Hr Hin.
  destruct (run_exited_stage task ch _ None code reason Hcap
    (main_exec external (capture_run rust_callback task ch rest g) c Hl Hr) Hin)
    as (handle & cmd & lc & lw & w & tr0 & tr1 & trp & trt & tr3 & os_code & E & Hs & Hc & Ho & He & H1 & Hrest).
  exists handle, lc, lw, w, tr0, tr1, trp, trt, tr3, os_code. intros id.
  destruct (spawned_pipes (capture_run rust_callback task ch rest g) c cmd (child handle) Hl Hr) as [Hout Herr]; [|done|done|].
  { apply elem_of_own. rewrite E. apply elem_of_app. by left. }
  do 5 (split; [done|]). exact Hrest.
Qed.

(** The wait thread of a run that gave its caller [Exited] has come back from
    [wait] by then, with the code the event is made of. *)
Lemma capture_waited task ch rest g c code reason :
  capture_output task = true -> Forall (all_obs aside_obs) rest -> log g = [] ->
  reachable (capture_run rust_callback task ch rest g) c ->
  Event.Exited code reason ∈ caller_events c ->
  exists handle tr0 sinks (w : tid) trw tr' l1 l2 cb os_code,
    exec (os_spawn (program task) (args task) (spawn_options task)) tr0 (Some (Ok handle)) /\
    (forall o, o ∈ tr0 -> (0%nat : tid, o) ∈ l1) /\
    log (state c) = l1 ++ (0%nat : tid, Obs (Callback (Event.Exited code reason)) cb) :: l2 /\
    own w l1 = trw ++ tr' /\
    exec (os_wait handle sinks) trw (Some (Val (Ok os_code))) /\
    exit_of os_code (Event.Exited code reason).
Proof using Hpiped D.
  intros Hcap Hrest Hl Hr Hin.
  destruct (capture_exited _ _ _ _ _ _ _ Hcap Hl Hr Hin)
    as (handle & lc & lw & w & tr0 & tr1 & trp & trt & tr3 & os_code & E & Hs & Hout & Herr & H1 & Hp &
        Ht & Hrecv & H3 & Hex).
  pose proof (on_events _ _ _ H3 Hex) as Hcode.
  apply list_elem_of_omap in Hex as (o & (t3 & t4 & ->)%list_elem_of_split & Ho).
  assert (exists cb, o = Obs (Callback (Event.Exited code reason)) cb) as [cb ->].
  { destruct o as [X e x|]; [|done]. destruct e; try done. simplify_eq/=. by eexists. }
  set (fork := ObsFork (wait_body handle (mkOutputSinks (Some lc) (Some lc)) lw) (Some w)) in *.
  destruct (own_split 0%nat (log (state c)) (tr1 ++ setup lc lw ++ fork ::
    (trp ++ [Obs (Recv lc) None]) ++ trt ++ t3) (Obs (Callback (Event.Exited code reason)) cb) t4)
    as (l1 & l2 & El & E1 & _).
  { rewrite E. by list_simplifier. }
  destruct (reachable_split external (capture_run rust_callback task ch rest g) c _ _ _ _ Hl Hr El) as (c1 & _ & Hr1 & _ & El1 & _ & _).
  subst l1. apply Forall_app in H3 as [H3 _].
  destruct (later_steps _ _ _ _ _ _ Hp Ht H3) as (_ & _ & Hl3).
  assert (Forall calm_obs tr1) as H1' by (eapply Forall_impl; [exact H1|apply on_calm]).
  destruct (wait_thread_crew external (capture_run rust_callback task ch rest g) c1 Hl Hr1 handle _ Hout Herr
    lc lw w tr1 _ E1) as [T HT].
  destruct (wait_reported external (capture_run rust_callback task ch rest g) c1 Hl Hr1 Hrest handle _
    lc lw w tr1 _ E1 H1' Hl3 T HT os_code) as (o & Hw & Hsend).
  { apply elem_of_own. rewrite E1. in_list. }
  destruct (born_program external (capture_run rust_callback task ch rest g) c1 Hl Hr1 _ _ _ (wait_born c1 handle lc lw w tr1 _ E1))
    as (_ & _ & i & -> & Hi).
  destruct (program_exec external (capture_run rust_callback task ch rest g) c1 Hl Hr1 _ _ Hi) as [Hwait _].
  destruct (wait_sent handle _ Hout Herr lc lw _ _ o os_code Hwait Hw Hsend) as (trw & tr' & Ew & Hwx).
  exists handle, tr0, (mkOutputSinks (Some lc) (Some lc)), (S i), trw, tr', (log (state c1)), l2, cb, os_code.
  destruct Hs as [Hs Hsub]. split_and!; try done.
  intros o' Ho'. apply elem_of_own. rewrite E1. apply elem_of_app. left. by apply Hsub.
Qed.

(** What the caller has been given of a stream is owed to it. *)
Lemma owed_prefix task ch rest g c s :
  capture_output task = true -> Forall (all_obs aside_obs) rest -> log g = [] ->
  reachable (capture_run rust_callback task ch rest g) c ->
  omap (event_on s) (caller_events c) `prefix_of` owed c s.
Proof using Hpiped D.
  intros Hcap Hrest Hl Hr. unfold caller_events, owed, chunks_of.
  destruct (capture_stage task ch rest g c Hcap Hl Hr)
    as [[_ Hev]|(handle & lc & lw & w & tr0 & tr1 & trp & rp & trt & tr3 & r2 & E & _ & Hout & Herr & H1 & Hp & Ht & H3 & _)].
  { rewrite no_stream_events; [apply prefix_nil|]. intros ev Hin. by apply started_no_stream, Hev. }
  destruct (later_steps _ _ _ _ _ _ Hp Ht H3) as (Hp' & _ & Hlater).
  assert (Forall calm_obs tr1) as H1' by (eapply Forall_impl; [exact H1|apply on_calm]).
  destruct (wait_thread_crew external (capture_run rust_callback task ch rest g) c Hl Hr handle _ Hout Herr
    lc lw w tr1 _ E) as [T HT].
  pose proof (received_prefix external (capture_run rust_callback task ch rest g) c Hl Hr Hrest handle _
    lc lw w tr1 _ E H1' Hlater T HT s) as Hpre.
  rewrite (received_later c handle lc lw w tr1 _ E H1' s), omap_app in Hpre.
  rewrite E, (stage_events _ handle lc lw w tr1 trp trt tr3 s H1 Ht H3)
    by (intros ev (? & _ & ?); by eapply exited_no_stream).
  destruct (pump_stream _ _ _ s Hp) as [Hev _]. etrans; [exact Hev|].
  destruct Hpre as [k ->]. rewrite !fmap_app, <- !app_assoc. by apply prefix_app_r.
Qed.

(** ** Properties *)

Context (task : Task) (ch : option CancelHandle) (rest : list (prog unit)) (g : global W).
Context (c : config W (outcome (Result unit AerError.t))).

(** C11: At every moment of a capturing run, whatever the threads do: the chunk
    events of each stream are the beginning of what was read from its pipe,
    chunk by chunk, in order, numbered from 0. *)
Theorem captured_prefix s :
  capture_output task = true -> Forall (all_obs aside_obs) rest -> log g = [] ->
  reachable (capture_run rust_callback task ch rest g) c ->
  omap (event_on s) (caller_events c) `prefix_of` owed c s.
Proof using Hpiped D. apply owed_prefix. Qed.

(** C6: When the caller of a capturing run is told of the exit: both streams have
    been read to their end, and it has been given every chunk of them. *)
Theorem captured_all s :
  capture_output task = true -> Forall (all_obs aside_obs) rest -> log g = [] ->
  reachable (capture_run rust_callback task ch rest g) c ->
  (exists code reason, Event.Exited code reason ∈ caller_events c) ->
  omap (event_on s) (caller_events c) = owed c s /\ drained c s.
Proof using Hpiped D.
  intros Hcap Hrest Hl Hr (code & reason & Hin).
  destruct (capture_exited _ _ _ _ _ _ _ Hcap Hl Hr Hin)
    as (handle & lc & lw & w & _ & tr1 & trp & trt & tr3 & os_code & E & _ & Hout & Herr & H1 & Hp &
        Ht & Hrecv & H3 & _).
  unfold caller_events, owed, chunks_of, drained.
  destruct (later_steps _ _ _ _ _ _ Hp Ht H3) as (Hp' & Hl3 & _).
  assert (Forall calm_obs tr1) as H1' by (eapply Forall_impl; [exact H1|apply on_calm]).
  destruct (pump_stream _ _ _ s Hp) as (_ & Hall & _).
  apply Forall_app in Hp' as [Hp' _].
  pose proof E as E'. rewrite <- (app_assoc trp) in E'. simpl in E'.
  assert ((0%nat : tid, Obs (Recv lw) (Some (Ok os_code))) ∈ log (state c)) as Hcode.
  { apply elem_of_own. rewrite E'. in_list. }
  destruct (stream_complete external (capture_run rust_callback task ch rest g) c Hl Hr Hrest handle _
    Hout Herr lc lw w tr1 trp (trt ++ tr3) E' H1' Hp' Hl3 os_code Hcode s) as [Hc Hd].
  split; [|exact Hd]. rewrite E, (stage_events _ handle lc lw w tr1 _ trt tr3 s H1 Ht H3), (Hall eq_refl)
    by (intros ev; by apply exited_no_stream).
  rewrite omap_app, Hc, omap_one. unfold recv_on. simpl. rewrite decide_True by done.
  by rewrite app_nil_r.
Qed.
End Captured.

Lemma spawned_group prog argv options tr handle :
  exec (spawn prog argv options) tr (Some (Ok handle)) -> pgid (kill handle) = child_id (child handle).
Proof. unfold spawn. intros Hs. exec_inv_step Hs. by destruct x as [child|]; exec_inv_step Hs. Qed.

(** The code of a natural exit is the one [wait] reported. *)
Lemma exit_of_code os_code code reason :
  exit_of os_code (Event.Exited code reason) ->
  code = if decide (reason = ExitReason.NaturalExit) then os_code else -1.
Proof. intros (b1 & b2 & [= -> ->]). by destruct b1, b2. Qed.

(** C9: On Unix, with capture, whatever the threads do: before the caller is told
    of the exit, the wait thread has waited for the root and then sent SIGKILL
    to its whole process group; and the code of a natural exit is the one the
    wait reported. *)
Theorem captured_no_survivors {W} (external : tid -> forall X, act X -> W -> X -> W -> Prop)
    task ch rest g c code reason :
  piped_children external -> capture_output task = true -> Forall (all_obs aside_obs) rest ->
  log g = [] -> reachable external (capture_run rust_callback task ch rest g) c ->
  Event.Exited code reason ∈ caller_events c ->
  exists pid (w : tid) l1 wait_res l2 kill_res l3 cb l4 os_code,
    log (state c) = l1 ++ (w, Obs (ChildWait pid) wait_res) :: l2 ++
      (w, Obs (Killpg (as_i32 pid) SIGKILL) kill_res) :: l3 ++
      (0%nat : tid, Obs (Callback (Event.Exited code reason)) cb) :: l4 /\
    reported wait_res = Ok os_code /\
    code = if decide (reason = ExitReason.NaturalExit) then os_code else -1.
Proof.
  intros Hpiped Hcap Hrest Hl Hr Hin.
  destruct (capture_waited external Hpiped task ch rest g c code reason Hcap Hrest Hl Hr Hin)
    as (handle & tr0 & sinks & w & trw & tr' & la & lb & cb & os_code & Hs & _ & El & Ew & Hw & Hcode).
  apply spawned_group in Hs. apply wait_kills in Hw as (t1 & wait_res & kill_res & t2 & -> & Hrep).
  rewrite Hs, <- app_assoc in Ew. simpl in Ew.
  destruct (own_split w la t1 _ _ Ew) as (l1 & lr & -> & _ & Er).
  destruct (own_split w lr [] _ _ Er) as (l2 & l3 & -> & _ & _).
  exists (child_id (child handle)), w, l1, wait_res, l2, kill_res, l3, cb, lb, os_code.
  split_and!; [|done|by apply exit_of_code]. rewrite El, <- !app_assoc. simpl. by rewrite <- app_assoc.
Qed.
