(* ===== verification/Contained.v ===== *)
(** * The tree of a run on Windows

    When the caller of a capturing run is told of the exit, the job the child
    was put into has been terminated, with everything that was still in it:
    the Windows counterpart of the group kill of Captured.v. *)

From Stdlib Require Import ZArith.
From stdpp Require Import base numbers list strings gmap relations.
From S2P Require Import Prelude Core Machine Sys Prog Os Windows Drains Task Run Caller Lifecycle Pool Threads History Capture Delivery Captured.

Open Scope Z_scope.

(** Whatever the child: once the root was waited for, its job is terminated. *)
Lemma win_wait_kills handle sinks tr code :
  exec (wait handle sinks) tr (Some (Val (Ok code))) ->
  exists tr1 status kill_res tr2,
    tr = tr1 ++ Obs (ChildWait (child_id (child handle))) (Ok status) ::
         Obs (TerminateJobObject (job (kill handle)) 1) kill_res :: tr2 /\
    code = as_i32 status.
Proof.
  unfold wait. intros (o1 & tr1 & tr2 & -> & _ & H)%exec_bind_Some.
  destruct o1 as [o1|];
    [|by do 2 apply exec_bind_Some in H as (? & ? & ? & -> & _ & H); apply exec_ret_Some in H as [_ ?]].
  apply exec_bind_Some in H as (o2 & tr3 & tr4 & -> & _ & H).
  destruct o2 as [o2|];
    [|by apply exec_bind_Some in H as (? & ? & ? & -> & _ & H); apply exec_ret_Some in H as [_ ?]].
  apply exec_act_Some in H as (wait_res & tr5 & -> & H).
  destruct wait_res as [status|e]; simpl in H.
  - apply exec_act_Some in H as (kill_res & tr6 & -> & H).
    do 3 apply exec_bind_Some in H as (? & ? & ? & -> & _ & H).
    apply exec_ret_Some in H as [-> [= ->]].
    eexists (tr1 ++ tr3), status, kill_res, _. split; [by rewrite <- app_assoc|done].
  - apply exec_bind_Some in H as (? & ? & ? & -> & _ & H). by apply exec_ret_Some in H as [_ ?].
Qed.

(** The job of a spawned child: limited to kill on close, and the child in it. *)
Lemma win_spawned_job prog argv options tr handle :
  exec (spawn prog argv options) tr (Some (Ok handle)) ->
  exists r r', rc r <> 0 /\ rc r' <> 0 /\
    Obs (SetInformationJobObject (job (kill handle)) JOB_OBJECT_LIMIT_KILL_ON_JOB_CLOSE) r ∈ tr /\
    Obs (AssignProcessToJobObject (job (kill handle)) (child_id (child handle))) r' ∈ tr.
Proof.
  intros (j & err0 & arc & r & child & r' & Hj & Hr & Hr' & -> & ->)%win_spawn_success.
  exists r, r'. split_and!; [done|done| |]; in_list.
Qed.

(** ** A spawn that fails *)

(** A step that has nothing to do with an [Arc], and starts no thread. *)
Definition arcless (o : obs) : Prop :=
  match o with
  | Obs e _ =>
      match e with
      | NewArc _ | ArcClone _ | ArcDrop _ => False
      | _ => True
      end
  | ObsFork _ _ => False
  end.

Lemma arcless_recounts a o : arcless o -> ~ recounts a o.
Proof. destruct o as [X e x|]; [|by intros ? ?]. destruct e; by intros ? ?. Qed.

Lemma spawn_forkless prog argv options :
  all_obs (fun o => match o with Obs _ _ => True | ObsFork _ _ => False end) (spawn prog argv options).
Proof. unfold spawn. all_obs_solve ltac:(done). Qed.

(** It drops the [Arc] it has made, once, and no other. *)
Lemma spawn_failure_drops cmd last tr e :
  spawn_failure cmd last tr e ->
  spawn_failure cmd true tr e \/
  exists pre arc tr', tr = pre ++ Obs (ArcDrop arc) last :: tr' /\
    (exists o, o ∈ pre /\ makes arc o) /\ Forall (fun o => ~ recounts arc o) pre.
Proof.
  destruct 1 as [err|job err0 arc err|job err0 arc r e|job err0 arc r child err killed waited];
    [left; constructor|right..]; (eexists _, arc, _; split; [reflexivity|]);
    (split; [exists (Obs (NewArc job) arc); split; [in_list|done]|]);
    repeat (constructor; [by intros ?|]); by constructor.
Qed.

Section SpawnFailure.
Context {W : Type} (external : tid -> forall X, act X -> W -> X -> W -> Prop).
Context (prog : string) (argv : list string) (options : SpawnOptions) (rest : list (Prog.prog unit)).
Context (Hrest : Forall (all_obs arcless) rest).
#[local] Abbreviation c0 g := (mkConfig (spawn prog argv options) rest g).

(** The other threads of the spawn touch no [Arc]. *)
Lemma others_arcless g c t o :
  log g = [] -> reachable external (c0 g) c -> (t, o) ∈ log (state c) -> t <> 0%nat -> arcless o.
Proof using Hrest.
  intros Hl Hr. revert o. induction (lt_wf t) as [t _ IH]. intros o Hin Ht.
  destruct (thread_cases external (c0 g) c Hl Hr _ _ Hin) as [?|[(i & p0 & -> & Hi)|(v & b & Hlt & Hb)]]; [done| |].
  - destruct (program_exec external (c0 g) c Hl Hr i p0) as [Hex _]; [by apply initial_program|].
    pose proof (Forall_lookup_1 _ _ _ _ Hrest Hi _ _ Hex) as Hf.
    exact (proj1 (Forall_forall _ _) Hf _ (proj2 (elem_of_own _ _ _) Hin)).
  - exfalso. destruct (decide (v = 0%nat)) as [->|Hne]; [|by apply (IH v Hlt _ Hb)].
    pose proof (spawn_forkless _ _ _ _ _ (main_exec external (c0 g) c Hl Hr)) as Hf.
    exact (proj1 (Forall_forall _ _) Hf _ (proj2 (elem_of_own _ _ _) Hb)).
Qed.
End SpawnFailure.

(** ** Properties *)

(** C10: On Windows, with capture, whatever the threads do: before the caller is
    told of the exit, the wait thread has waited for the child and then
    terminated the job the child was put into, which kills what is left of the
    tree; and the code of a natural exit is the child's. *)
Theorem win_captured_no_survivors {W} (external : tid -> forall X, act X -> W -> X -> W -> Prop)
    task ch rest g c code reason :
  piped_children external -> capture_output task = true -> Forall (all_obs aside_obs) rest ->
  log g = [] -> reachable external (capture_run rust_callback task ch rest g) c ->
  Event.Exited code reason ∈ caller_events c ->
  exists job pid assigned (w : tid) l1 status l2 kill_res l3 cb l4,
    log (state c) = l1 ++ (w, Obs (ChildWait pid) (Ok status)) :: l2 ++
      (w, Obs (TerminateJobObject job 1) kill_res) :: l3 ++
      (0%nat : tid, Obs (Callback (Event.Exited code reason)) cb) :: l4 /\
    (0%nat : tid, Obs (AssignProcessToJobObject job pid) assigned) ∈ log (state c) /\
    rc assigned <> 0 /\
    code = if decide (reason = ExitReason.NaturalExit) then as_i32 status else -1.
Proof.
  intros Hpiped Hcap Hrest Hl Hr Hin.
  destruct (capture_waited external Hpiped task ch rest g c code reason Hcap Hrest Hl Hr Hin)
    as (handle & tr0 & sinks & w & trw & tr' & la & lb & cb & os_code & Hs & Hsub & El & Ew & Hw & Hcode).
  apply win_spawned_job in Hs as (r & assigned & _ & Ha & _ & Hassign).
  apply win_wait_kills in Hw as (t1 & status & kill_res & t2 & -> & ->).
  rewrite <- app_assoc in Ew. simpl in Ew.
  assert ((0%nat : tid, Obs (AssignProcessToJobObject (job (kill handle)) (child_id (child handle)))
    assigned) ∈ log (state c)) as Hjob.
  { rewrite El. apply elem_of_app. left. by apply Hsub. }
  destruct (own_split w la t1 _ _ Ew) as (l1 & lr & -> & _ & Er).
  destruct (own_split w lr [] _ _ Er) as (l2 & l3 & -> & _ & _).
  exists (job (kill handle)), (child_id (child handle)), assigned, w, l1, status, l2, kill_res, l3, cb, lb.
  split_and!; [|done|done|by apply exit_of_code]. rewrite El, <- !app_assoc. simpl. by rewrite <- app_assoc.
Qed.

(** C33: A [spawn] that fails leaves nothing behind, whatever other threads do that
    have no share in its job: the job it has created is closed, a child that was
    created but could not be put into the job is killed and waited for first,
    and the error is that of the call that failed. *)
Theorem win_spawn_failure {W} (external : tid -> forall X, act X -> W -> X -> W -> Prop)
    prog argv options rest g c e :
  Forall (all_obs arcless) rest -> log g = [] ->
  reachable external (mkConfig (spawn prog argv options) rest g) c ->
  main c = Ret (Err (AerError.SpawnFailed e)) ->
  spawn_failure (command prog argv options) true (own 0%nat (log (state c))) e.
Proof.
  intros Hrest Hl Hr Hm. pose (c0 := mkConfig (spawn prog argv options) rest g).
  pose proof (main_exec_done external c0 c Hl Hr _ Hm) as Hex.
  apply spawn_failure_exec in Hex as [last Hf].
  destruct (spawn_failure_drops _ _ _ _ Hf) as [?|(pre & arc & tr' & E & (o & Ho & Hmk) & Hpre)]; [done|].
  destruct (own_split 0%nat (log (state c)) pre _ _ E) as (l1 & l2 & El & E1 & _).
  assert (last = true) as <-; [|done]. apply (sole_arc external _ c0 c l1 0%nat arc last l2 Hl Hr El).
  - exists (0%nat : tid, o). split; [|done]. apply elem_of_own. by rewrite E1.
  - apply Forall_forall. intros [t o'] Hin. simpl. destruct (decide (t = 0%nat)) as [->|Hne].
    + rewrite Forall_forall in Hpre. apply Hpre. rewrite <- E1. by apply elem_of_own.
    + apply arcless_recounts, (others_arcless external prog argv options rest Hrest g c t); [done|done| |done].
      rewrite El. apply elem_of_app. by left.
Qed.
