(* ===== verification/Types.v ===== *)
(** * The events have the types of their fields (src/src/event.rs, ffi.rs)

    Numbers are [Z] in this development and machine integers in the code: what
    the caller of a run is given fits the types the fields have in event.rs
    ([u32], [i32], [u64]), and the fields of the C struct made of it fit those
    of [AerEvent], with nothing lost in the casts. *)

From Stdlib Require Import ZArith.
From stdpp Require Import base numbers list strings gmap relations.
From S2P Require Import Prelude Core Sys Prog Os Unix Windows Drains Task Run Caller Blocks Lifecycle Exit Pool Threads History Capture Delivery Captured.

Open Scope Z_scope.

Definition typed_event (ev : Event.t) : Prop :=
  match ev with
  | Event.Started pid => is_u32 pid
  | Event.Exited code _ => is_i32 code
  | Event.StdoutChunk seq bytes | Event.StderrChunk seq bytes => is_u64 seq /\ bytes <> []
  end.

(** What std documents of [Child::id]: a [u32]. *)
Definition u32_children {W} (external : tid -> forall X, act X -> W -> X -> W -> Prop) : Prop :=
  forall t cmd w child w', external t _ (CommandSpawn cmd) w (Ok child) w' -> is_u32 (child_id child).

(** ** Lemmas *)

Lemma numbered_typed make_msg seq chunks m :
  is_u64 seq -> m ∈ numbered make_msg seq chunks ->
  exists seq' bytes, m = make_msg seq' bytes /\ is_u64 seq' /\ bytes ∈ chunks.
Proof.
  revert seq. induction chunks as [|b chunks IH]; intros seq Hs; [by intros ?%elem_of_nil|].
  intros [->|Hm]%elem_of_cons; [exists seq, b; split_and!; [done..|by left]|].
  destruct (IH _ (u64_succ_range seq) Hm) as (seq' & bytes & ? & ? & ?). exists seq', bytes.
  split_and!; [done..|by right].
Qed.

Lemma exit_of_typed os_code ev : is_i32 os_code -> exit_of os_code ev -> typed_event ev.
Proof. intros Hc (b1 & b2 & ->). unfold is_i32 in *. by destruct b1, b2; simpl; unfold is_i32; try lia. Qed.

Lemma event_on_self ev : (exists s, event_on s ev = Some ev) \/ is_started ev \/ exists code reason, ev = Event.Exited code reason.
Proof.
  destruct ev as [pid|code reason|seq bytes|seq bytes]; [by right; left|right; right; eauto|left..];
    [by exists OutStream|by exists ErrStream].
Qed.

(** A step of a run after its spawn: [Started] carries the given pid. *)
Definition starts (p : Z) (o : obs) : Prop :=
  match obs_event o with
  | Some (Event.Started p') => p' = p
  | _ => True
  end.

Lemma os_starts p o : os_obs o -> starts p o.
Proof. destruct o as [X e x|]; [|done]. by destruct e. Qed.

Section Types.
Context `{P : OsProcess} {L : OsProcessLaws P} {D : OsDrains P}.

Lemma starts_spawn p pr ar op : all_obs (starts p) (os_spawn pr ar op).
Proof using L. eapply all_obs_impl; [apply os_starts|apply os_spawn_obs]. Qed.
Lemma starts_wait p handle sinks : all_obs (starts p) (os_wait handle sinks).
Proof using L. eapply all_obs_impl; [apply os_starts|apply os_wait_obs]. Qed.
Lemma starts_kill p kill grace : all_obs (starts p) (os_kill_escalating kill grace).
Proof using L. eapply all_obs_impl; [apply os_starts|apply os_kill_obs]. Qed.
Lemma starts_alive p kill : all_obs (starts p) (os_tree_alive kill).
Proof using L. eapply all_obs_impl; [apply os_starts|apply os_alive_obs]. Qed.
Lemma starts_reap p kill : all_obs (starts p) (os_reap_abandoned kill).
Proof using L. eapply all_obs_impl; [apply os_starts|apply os_reap_obs]. Qed.

#[local] Hint Resolve starts_spawn starts_wait starts_kill starts_alive starts_reap : aer.

Lemma starts_body task ch handle g :
  all_obs (starts (pid handle)) (guarded_body task rust_callback ch Machine.new handle g).
Proof using L.
  unfold guarded_body, wire_cancel, start_monitor, wait_capturing, wait_discarding, finish,
    unwire_cancel, pump, pump_round, thread_spawn, rust_callback, set_kill.
  all_obs_solve ltac:(try done). by destruct m.
Qed.

(** [Started] carries the pid of the child that was spawned. *)
Lemma started_pid task ch tr r p :
  exec (run_impl task rust_callback ch) tr r -> Event.Started p ∈ events tr ->
  exists cmd child, Obs (CommandSpawn cmd) (Ok child) ∈ tr /\ p = child_id child.
Proof using L D.
  unfold run_impl. intros Hex Hin.
  assert (forall tr, Forall os_obs tr -> Event.Started p ∉ events tr) as Hquiet.
  { intros tr' Ht (o & Ho & Hev)%list_elem_of_omap. eapply Forall_forall in Ht; [|done].
    by rewrite os_obs_event in Hev. }
  apply exec_bind_inv in Hex as [[-> Hex]|(o & tr0 & tr1 & -> & Hex & Hk)].
  { destruct (Hquiet tr); [|done]. exact (os_spawn_obs _ _ _ _ _ Hex). }
  rewrite events_app in Hin. apply elem_of_app in Hin as [Hin|Hin].
  { destruct (Hquiet tr0); [|done]. exact (os_spawn_obs _ _ _ _ _ Hex). }
  destruct o as [handle|e]; [|by destruct Hk as [-> _]; apply elem_of_nil in Hin].
  destruct (spawn_child _ _ _ _ _ Hex) as (cmd & Hs & _).
  exists cmd, (child handle). split; [apply elem_of_app; by left|].
  rewrite <- (spawn_pid _ _ _ _ _ Hex).
  assert (all_obs (starts (pid handle)) (kill_clone (kill handle) ;;; let! (g, rest, out) :=
    guarded_body task rust_callback ch Machine.new handle (Guard_new (kill handle)) in
    guard_drop g ;;; drop_handle rest ;;; Ret out)) as Hst.
  { apply all_obs_bind; [auto with aer|intros _].
    apply all_obs_bind; [apply starts_body|]. intros [[g rest] out].
    unfold guard_drop, drop_handle. all_obs_solve ltac:(done). }
  apply list_elem_of_omap in Hin as (o & Ho & Hev).
  pose proof (proj1 (Forall_forall _ _) (Hst _ _ Hk) o Ho) as Hp. unfold starts in Hp. by rewrite Hev in Hp.
Qed.

(** The exit code of a plain run. *)
Lemma discarding_code handle tr code :
  exec (wait_discarding handle) tr (Some (Go code)) -> is_i32 code.
Proof using D. intros Hw%wait_discarding_exec. by eapply wait_code. Qed.

Section Run.
Context {W : Type}.
Variable external : tid -> forall X, act X -> W -> X -> W -> Prop.
Hypothesis Hpiped : piped_children external.
Context (task : Task) (ch : option CancelHandle) (rest : list (prog unit)) (g : global W).
Context (c : config W (outcome (Result unit AerError.t))).
#[local] Abbreviation start := (capture_run rust_callback task ch rest g).
Context (Hrest : Forall (all_obs aside_obs) rest) (Hl : log g = []).
Context (Hr : reachable external start c).

Lemma started_typed p :
  u32_children external -> Event.Started p ∈ caller_events c -> is_u32 p.
Proof using L D Hl Hr.
  intros Hpid Hin.
  destruct (started_pid task ch _ _ p (main_exec external start c Hl Hr) Hin) as (cmd & child & Hs & ->).
  apply elem_of_own in Hs. pose (fun o : obs => match o with
    | Obs e x =>
        match e in act X return X -> Prop with
        | CommandSpawn _ => fun x => match x with Ok child => is_u32 (child_id child) | Err _ => True end
        | _ => fun _ => True
        end x
    | ObsFork _ _ => True
    end) as ok.
  apply (external_history external _ start c ok) in Hs; [exact Hs| |done|done|done].
  intros t X e x w w' Hx. destruct e; try done. destruct x as [child'|]; [|done]. simpl. by eapply Hpid.
Qed.

Lemma chunk_typed s ev :
  capture_output task = true -> ev ∈ caller_events c -> event_on s ev = Some ev -> typed_event ev.
Proof using D Hpiped Hrest Hl Hr.
  intros Hcap Hin Hev.
  pose proof (owed_prefix external Hpiped task ch rest g c s Hcap Hrest Hl Hr) as [k Hk].
  assert (ev ∈ owed c s) as Ho.
  { rewrite Hk. apply elem_of_app. left. apply list_elem_of_omap. by exists ev. }
  apply list_elem_of_fmap in Ho as (m & -> & Hm).
  apply numbered_typed in Hm as (seq & bytes & -> & Hseq & Hb); [|unfold is_u64, u64_max; lia].
  assert (bytes <> []) as Hne.
  { apply list_elem_of_omap in Hb as (o & _ & Ho). unfold chunk_read in Ho.
    destruct (pipe_read s o) as [[[|? ?]|]|]; simpl in Ho; by simplify_eq. }
  by destruct s.
Qed.

Lemma plain_typed ev :
  capture_output task = false -> ev ∈ caller_events c -> is_started ev \/ typed_event ev.
Proof using L D Hl Hr.
  intros Hcap Hin.
  destruct (run_impl_view rust_callback rust_caller rust_callback_steps task ch _ _ (main_exec external start c Hl Hr))
    as [H1|(handle & cmd & tr0 & tr1 & tr2 & tr3 & r2 & E & _ & _ & _ & _ & H1 & Hw & H3)];
    unfold caller_events in Hin.
  { left. exact (on_events _ _ _ H1 Hin). }
  unfold obtain in Hw. rewrite Hcap in Hw.
  rewrite E, !events_app in Hin. apply elem_of_app in Hin as [Hin|[Hin|Hin]%elem_of_app].
  - left. exact (on_events _ _ _ H1 Hin).
  - assert (all_obs (fun o => obs_event o = None) (wait_discarding handle)) as Hq.
    { unfold wait_discarding. apply all_obs_bind; [|intros [[?|?]|?]; apply all_obs_ret].
      eapply all_obs_impl; [apply os_obs_event|apply os_wait_obs]. }
    apply list_elem_of_omap in Hin as (o & Ho & Hev).
    pose proof (proj1 (Forall_forall _ _) (Hq _ _ Hw) o Ho). congruence.
  - right. destruct (on_events _ _ _ H3 Hin) as (code & -> & Hev).
    eapply exit_of_typed, Hev. by eapply discarding_code.
Qed.

(** C13: Every event that the caller of a run is given, capturing or not, in every
    interleaving, has its fields within the types of event.rs: a [u32] pid, an
    [i32] code, a [u64] sequence number; and no chunk is empty. *)
Theorem event_types ev :
  u32_children external -> ev ∈ caller_events c -> typed_event ev.
Proof using L D Hpiped Hrest Hl Hr.
  intros Hpid Hin.
  assert (is_started ev -> typed_event ev) as Hst.
  { destruct ev; try done. intros _. by apply started_typed. }
  destruct (capture_output task) eqn:Hcap; [|by destruct (plain_typed ev Hcap Hin); auto].
  destruct (event_on_self ev) as [[s Hev]|[?|(code & reason & ->)]]; [by eapply chunk_typed|by auto|].
  destruct (capture_waited external Hpiped task ch rest g c code reason Hcap Hrest Hl Hr Hin)
    as (handle & tr0 & sinks & w & trw & tr' & l1 & l2 & cb & os_code & _ & _ & _ & _ & Hw & Hcode).
  eapply exit_of_typed, Hcode. by eapply wait_code.
Qed.
End Run.
End Types.
