(* ===== verification/Timeout.v ===== *)
(** * The timeout monitor against the run (src/src/task.rs)

    What makes a run report a timeout, over every interleaving of the caller's
    thread with the monitor and all other threads: the reason given with
    [Exited] is [TimedOut] exactly when the monitor, before the caller's thread
    looked, had seen the deadline pass with the process tree alive. *)

From Stdlib Require Import ZArith.
From stdpp Require Import base numbers list strings gmap relations.
From S2P Require Import Prelude Core Machine Sys Prog Os Drains Task Run Caller Blocks Lifecycle Pool Threads History Capture Delivery Captured.

Open Scope Z_scope.

(** A step that writes no flag; nor do those of the threads it starts, to the
    given depth. *)
Fixpoint flag_free (n : nat) (o : obs) : Prop :=
  match o with
  | Obs e _ => match e with Store _ _ | Swap _ _ => False | _ => True end
  | ObsFork body _ => match n with O => False | S n => all_obs (flag_free n) body end
  end.

Section Timeout.
Context `{P : OsProcess} {L : OsProcessLaws P} {D : OsDrains P}.

(** A step of the caller's thread: the flags it writes are those of its cancel
    handle, and the threads it starts write none, the monitor apart. *)
Definition caller_writes (task : Task) (ch : option CancelHandle) (o : obs) : Prop :=
  match o with
  | Obs e _ =>
      match e with
      | Store l _ => exists h, ch = Some h /\ l = kill_fired h
      | Swap _ _ => False
      | _ => True
      end
  | ObsFork body _ =>
      (exists kill timed_out cancel_ch d,
         timeout task = Some d /\ body = monitor_body kill timed_out cancel_ch d) \/
      all_obs (flag_free 1) body
  end.

(** A step that starts no thread and is not given [Exited]. *)
Definition opening_obs (o : obs) : Prop :=
  match o with
  | Obs e _ => match e with Callback (Event.Exited _ _) => False | _ => True end
  | ObsFork _ _ => False
  end.

(** A step that is not given [Exited]. *)
Definition unexited (o : obs) : Prop :=
  match o with
  | Obs e _ => match e with Callback (Event.Exited _ _) => False | _ => True end
  | ObsFork _ _ => True
  end.

Lemma unexited_events tr code reason : Forall unexited tr -> Event.Exited code reason ∉ events tr.
Proof.
  intros Ht (o & Ho & Hev)%list_elem_of_omap. eapply Forall_forall in Ht; [|done].
  destruct o as [X e x|]; [|done]. destruct e; try done. simplify_eq/=. done.
Qed.

Lemma opening_unexited o : opening_obs o -> unexited o.
Proof. by destruct o. Qed.

Lemma plain_opening o : plain_obs o -> opening_obs o.
Proof. destruct o as [X e x|]; [|done]. by destruct e. Qed.

Lemma os_unexited o : os_obs o -> unexited o.
Proof. destruct o as [X e x|]; [|done]. by destruct e. Qed.

Lemma plain_flags n o : plain_obs o -> flag_free n o.
Proof. destruct o as [X e x|]; [|done]. destruct n; by destruct e. Qed.

Lemma os_flags o : os_obs o -> flag_free 1 o.
Proof.
  destruct o as [X e x|body t]; [by destruct e|]. simpl. apply all_obs_impl.
  intros [X e x|]; [by destruct e|done].
Qed.

Lemma os_writes task ch o : os_obs o -> caller_writes task ch o.
Proof.
  destruct o as [X e x|body t]; [by destruct e|]. intros Ho%os_flags. right.
  eapply all_obs_impl; [|exact Ho]. intros [X e x|]; [by destruct e|done].
Qed.

Lemma writes_spawn task ch pr ar op : all_obs (caller_writes task ch) (os_spawn pr ar op).
Proof using L. eapply all_obs_impl; [apply os_writes|apply os_spawn_obs]. Qed.
Lemma writes_wait task ch handle sinks : all_obs (caller_writes task ch) (os_wait handle sinks).
Proof using L. eapply all_obs_impl; [apply os_writes|apply os_wait_obs]. Qed.
Lemma writes_kill task ch kill grace : all_obs (caller_writes task ch) (os_kill_escalating kill grace).
Proof using L. eapply all_obs_impl; [apply os_writes|apply os_kill_obs]. Qed.
Lemma writes_alive task ch kill : all_obs (caller_writes task ch) (os_tree_alive kill).
Proof using L. eapply all_obs_impl; [apply os_writes|apply os_alive_obs]. Qed.
Lemma writes_reap task ch kill : all_obs (caller_writes task ch) (os_reap_abandoned kill).
Proof using L. eapply all_obs_impl; [apply os_writes|apply os_reap_obs]. Qed.
Lemma flags_wait handle sinks : all_obs (flag_free 1) (os_wait handle sinks).
Proof using L. eapply all_obs_impl; [apply os_flags|apply os_wait_obs]. Qed.

#[local] Hint Resolve writes_spawn writes_wait writes_kill writes_alive writes_reap flags_wait : aer.

Lemma wait_body_flags handle sinks wait_ch : all_obs (flag_free 1) (wait_body handle sinks wait_ch).
Proof using L. unfold wait_body. all_obs_solve ltac:(done). Qed.

Lemma writes_monitor task ch kill timed_out cancel_ch :
  all_obs (caller_writes task ch) (start_monitor (timeout task) kill timed_out cancel_ch).
Proof.
  unfold start_monitor, thread_spawn. destruct (timeout task) as [d|] eqn:E; [|apply all_obs_ret].
  all_obs_solve ltac:(try done). left. by exists kill, timed_out, cancel_ch, d.
Qed.

#[local] Hint Resolve writes_monitor wait_body_flags : aer.

Lemma run_writes task ch : all_obs (caller_writes task ch) (run_impl task rust_callback ch).
Proof using L.
  unfold run_impl, guarded_body, wire_cancel, wait_capturing, wait_discarding, finish,
    unwire_cancel, pump, pump_round, thread_spawn, rust_callback, set_kill, guard_drop, drop_handle.
  all_obs_solve ltac:(try done); [simpl; eauto|]. right. apply wait_body_flags.
Qed.

(** ** The caller's thread *)

Lemma opening_plain {A} (p : prog A) : all_obs plain_obs p -> all_obs opening_obs p.
Proof. apply all_obs_impl, plain_opening. Qed.

Lemma opening_spawn pr ar op : all_obs opening_obs (os_spawn pr ar op).
Proof using D. apply opening_plain, plain_spawn. Qed.
Lemma opening_kill kill grace : all_obs opening_obs (os_kill_escalating kill grace).
Proof using D. apply opening_plain, plain_kill. Qed.
Lemma opening_alive kill : all_obs opening_obs (os_tree_alive kill).
Proof using D. apply opening_plain, plain_alive. Qed.
Lemma opening_reap kill : all_obs opening_obs (os_reap_abandoned kill).
Proof using D. apply opening_plain, plain_reap. Qed.
Lemma unexited_wait handle sinks : all_obs unexited (os_wait handle sinks).
Proof using L. eapply all_obs_impl; [apply os_unexited|apply os_wait_obs]. Qed.

#[local] Hint Resolve opening_spawn opening_kill opening_alive opening_reap unexited_wait : aer.

Lemma unexited_opening {A} (p : prog A) : all_obs opening_obs p -> all_obs unexited p.
Proof. apply all_obs_impl, opening_unexited. Qed.

Lemma opening_wire ch kill : all_obs opening_obs (wire_cancel ch kill).
Proof using D. unfold wire_cancel, set_kill. all_obs_solve ltac:(done). Qed.

Lemma opening_guard g : all_obs opening_obs (guard_drop g).
Proof using D. unfold guard_drop. all_obs_solve ltac:(done). Qed.

Lemma unexited_obtain task handle :
  all_obs unexited (if capture_output task then wait_capturing rust_callback handle else wait_discarding handle).
Proof using L.
  unfold wait_capturing, wait_discarding, pump, pump_round, thread_spawn, rust_callback.
  all_obs_solve ltac:(try done). by destruct m.
Qed.

(** *** Finding [Exited] in a run *)

Lemma skip_unexited {A B} (p : prog A) (f : A -> prog B) tr r code reason :
  all_obs unexited p -> exec (bind p f) tr r -> Event.Exited code reason ∈ events tr ->
  exists a tr1 tr2, tr = tr1 ++ tr2 /\ exec p tr1 (Some a) /\ exec (f a) tr2 r /\
    Event.Exited code reason ∈ events tr2.
Proof.
  intros Hp Hex Hin.
  apply exec_bind_inv in Hex as [[_ Hex]|(a & tr1 & tr2 & -> & Hex & Hk)];
    [by destruct (unexited_events _ _ _ (Hp _ _ Hex) Hin)|].
  rewrite events_app in Hin. apply elem_of_app in Hin as [Hin|Hin];
    [by destruct (unexited_events _ _ _ (Hp _ _ Hex) Hin)|].
  by exists a, tr1, tr2.
Qed.

Lemma before_unexited {A B} (p : prog A) (f : A -> prog B) tr r code reason :
  (forall a, all_obs unexited (f a)) -> exec (bind p f) tr r -> Event.Exited code reason ∈ events tr ->
  exists tr1 r1 tr2, tr = tr1 ++ tr2 /\ exec p tr1 r1 /\ Event.Exited code reason ∈ events tr1.
Proof.
  intros Hf Hex Hin.
  apply exec_bind_inv in Hex as [[_ Hex]|(a & tr1 & tr2 & -> & Hex & Hk)].
  - exists tr, None, []. by rewrite app_nil_r.
  - rewrite events_app in Hin. apply elem_of_app in Hin as [Hin|Hin]; [by exists tr1, (Some a), tr2|].
    by destruct (unexited_events _ _ _ (Hf _ _ _ Hk) Hin).
Qed.

Lemma unexited_ret {A} (a : A) tr r code reason :
  exec (Ret a) tr r -> Event.Exited code reason ∈ events tr -> False.
Proof. intros [-> _]. by intros ?%elem_of_nil. Qed.

Lemma unexited_act {X} (e : act X) :
  match e with Callback (Event.Exited _ _) => False | _ => True end -> all_obs unexited (do_act e).
Proof. intros He. all_obs_solve ltac:(done). Qed.

(** Where the run looked at the monitor's flag, and what it made of it. *)
Definition looked (reason : ExitReason.t) (timed_out : loc) (tr : list obs) : Prop :=
  exists tr1 b1 b2 tr2, tr = tr1 ++ Obs (Load timed_out) b1 :: tr2 /\ reason = exit_reason b1 b2.

Lemma looked_app reason timed_out tr tr' tr'' :
  looked reason timed_out tr -> looked reason timed_out (tr' ++ tr ++ tr'').
Proof.
  intros (tr1 & b1 & b2 & tr2 & -> & E). exists (tr' ++ tr1), b1, b2, (tr2 ++ tr'').
  split; [|done]. by rewrite <- !app_assoc.
Qed.

Lemma finish_looked ch machine timed_out cancel_ch os_code tr r code reason :
  exec (finish rust_callback ch machine timed_out cancel_ch os_code) tr r ->
  Event.Exited code reason ∈ events tr -> looked reason timed_out tr.
Proof.
  unfold finish. intros Hex Hin.
  apply (skip_unexited _ _ _ _ code reason) in Hex as ([] & t1 & t2 & -> & _ & Hex & Hin');
    [clear Hin|unfold unwire_cancel, set_kill; all_obs_solve ltac:(done)|done].
  apply (skip_unexited _ _ _ _ code reason) in Hex as (sent & t3 & t4 & -> & _ & Hex & Hin);
    [clear Hin'|by apply unexited_act|done].
  apply (skip_unexited _ _ _ _ code reason) in Hex as (b1 & t5 & t6 & -> & Hb & Hex & Hin');
    [clear Hin|by apply unexited_act|done].
  apply exec_do_act_Some in Hb as ->.
  apply (skip_unexited _ _ _ _ code reason) in Hex as (b2 & t7 & t8 & -> & _ & Hex & Hin);
    [clear Hin'|all_obs_solve ltac:(done)|done].
  exists (t1 ++ t3), b1, b2, (t7 ++ t8). split; [by rewrite <- !app_assoc|].
  destruct (transition machine Exited) as [m [u|e]]; [|by destruct (unexited_ret _ _ _ _ _ Hex Hin)].
  apply before_unexited with (code := code) (reason := reason) in Hex as (t9 & r9 & t10 & -> & Hex & Hin');
    [|intros []; apply all_obs_ret|done].
  destruct Hex as [[-> _]|(x & t11 & -> & [-> _])]; [by apply elem_of_nil in Hin'|].
  by apply list_elem_of_singleton in Hin' as [= _ ->].
Qed.

(** The whole run: the flag is created before any thread is started, and
    looked at before [Exited] is given. *)
Lemma run_looked task ch tr r code reason :
  exec (run_impl task rust_callback ch) tr r -> Event.Exited code reason ∈ events tr ->
  exists timed_out tr1 tr2, tr = tr1 ++ Obs (NewFlag false) timed_out :: tr2 /\
    Forall opening_obs tr1 /\ looked reason timed_out tr2.
Proof using L D.
  unfold run_impl. intros Hex Hin.
  apply (skip_unexited _ _ _ _ code reason) in Hex as ([handle|e] & t1 & t2 & -> & H1 & Hex & Hin');
    [clear Hin| |apply unexited_opening, opening_spawn|done].
  2: { by destruct (unexited_ret _ _ _ _ _ Hex Hin'). }
  apply (skip_unexited _ _ _ _ code reason) in Hex as ([] & tc & t2' & -> & Hc & Hex & Hin);
    [clear Hin'|auto with aer|done]. apply kill_clone_exec in Hc as ->.
  apply before_unexited with (code := code) (reason := reason) in Hex as (t3 & r3 & t4 & -> & Hex & Hin');
    [clear Hin; rename Hin' into Hin| |done].
  2: { intros [[g rest] out]. apply all_obs_bind; [apply unexited_opening, opening_guard|intros _].
       unfold drop_handle. all_obs_solve ltac:(done). }
  unfold guarded_body in Hex. rewrite transition_running in Hex.
  apply (skip_unexited _ _ _ _ code reason) in Hex as (x & t5 & t6 & -> & H5 & Hex & Hin');
    [clear Hin|by apply unexited_act|done].
  destruct x as [[]|p]; [|by destruct (unexited_ret _ _ _ _ _ Hex Hin')].
  apply (skip_unexited _ _ _ _ code reason) in Hex as ([] & t7 & t8 & -> & H7 & Hex & Hin);
    [clear Hin'|apply unexited_opening, opening_wire|done].
  apply (skip_unexited _ _ _ _ code reason) in Hex as (lf & t9 & t10 & -> & H9 & Hex & Hin');
    [clear Hin|by apply unexited_act|done].
  apply exec_do_act_Some in H9 as ->. apply exec_do_act_Some in H5 as ->.
  exists lf, (t1 ++ clone_trace (kill handle) ++ [Obs (Callback (Event.Started (pid handle))) (Val tt)] ++ t7), (t10 ++ t4).
  split_and!; [by rewrite <- !app_assoc| |].
  { apply Forall_app; split; [exact (opening_spawn _ _ _ _ _ H1)|].
    apply Forall_app; split; [by destruct (kill handle); repeat constructor|].
    constructor; [done|]. exact (opening_wire _ _ _ _ H7). }
  apply (looked_app _ _ _ []).
  apply (skip_unexited _ _ _ _ code reason) in Hex as (cc & t11 & t12 & -> & _ & Hex & Hin);
    [clear Hin'|by apply unexited_act|done].
  apply (skip_unexited _ _ _ _ code reason) in Hex as (m & t13 & t14 & -> & _ & Hex & Hin');
    [clear Hin|unfold start_monitor, thread_spawn; all_obs_solve ltac:(done)|done].
  apply before_unexited with (code := code) (reason := reason) in Hex as (t15 & r15 & t16 & -> & Hex & Hin);
    [clear Hin'|intros [[g rest] out]; all_obs_solve ltac:(done)|done].
  rewrite app_assoc. apply looked_app.
  destruct m as [[]|p]; [|by destruct (unexited_ret _ _ _ _ _ Hex Hin)].
  apply (skip_unexited _ _ _ _ code reason) in Hex as (k & t17 & t18 & -> & _ & Hex & Hin');
    [clear Hin|apply unexited_obtain|done].
  destruct k as [os_code|e|p]; [|by destruct (unexited_ret _ _ _ _ _ Hex Hin')..].
  apply before_unexited with (code := code) (reason := reason) in Hex as (t19 & r19 & t20 & -> & Hex & Hin);
    [|intros; apply all_obs_ret|done].
  by eapply looked_app, finish_looked.
Qed.

(** ** The monitor *)

(** Thread [t] has been a monitor of deadline [d] that fired: the deadline
    passed with no word from the run, the tree was seen alive, the flag set. *)
Definition fired (t : tid) (d : Duration) (timed_out : loc) (l : list (tid * obs)) : Prop :=
  exists kill cancel_ch tr1 tr2,
    own t l = Obs (RecvWithTimeout cancel_ch d) RecvTimedOut :: tr1 ++
      Obs (Store timed_out true) tt :: tr2 /\
    exec (os_tree_alive kill) tr1 (Some true).

Lemma monitor_writes kill timed_out cancel_ch d tr r l o b :
  exec (monitor_body kill timed_out cancel_ch d) tr r -> o ∈ tr -> writes l o = Some b ->
  l = timed_out /\ b = true /\
  exists tr1 tr2, tr = Obs (RecvWithTimeout cancel_ch d) RecvTimedOut :: tr1 ++
    Obs (Store timed_out true) tt :: tr2 /\ exec (os_tree_alive kill) tr1 (Some true).
Proof using D.
  unfold monitor_body. intros Hex Ho Hw.
  assert (forall tr, Forall plain_obs tr -> o ∈ tr -> False) as Hplain.
  { intros t Ht Hin. eapply Forall_forall in Ht; [|done]. destruct o as [X e x|]; [|done]. by destruct e. }
  assert (forall (p : prog unit), all_obs (fun o => writes l o = None) p ->
    forall tr (r : option unit), exec p tr r -> o ∈ tr -> False) as Hmute.
  { intros p Hp t r' Hp' Hin. pose proof (proj1 (Forall_forall _ _) (Hp _ _ Hp') _ Hin) as Hn.
    simpl in Hn. congruence. }
  pose proof (Hmute (do_act (DropRx cancel_ch)) ltac:(all_obs_solve ltac:(done))) as Hdrop.
  pose proof (Hmute (do_act (DropRx cancel_ch) ;;; kill_drop kill) ltac:(all_obs_solve ltac:(done)))
    as Hdrops.
  apply exec_bind_inv in Hex as [[_ Hex]|(x & t0 & tr1 & -> & H0 & Hex)].
  { destruct Hex as [[-> _]|(x & t' & -> & [-> _])]; [by apply elem_of_nil in Ho|].
    by apply list_elem_of_singleton in Ho as ->. }
  apply exec_do_act_Some in H0 as ->. apply elem_of_cons in Ho as [->|Ho]; [done|].
  destruct x; try by destruct (Hdrops _ _ Hex Ho).
  apply exec_bind_inv in Hex as [[_ Hex]|(alive & tr2 & tr3 & -> & Hal & Hex)];
    [by destruct (Hplain tr1); [exact (plain_alive _ _ _ Hex)|]|].
  apply elem_of_app in Ho as [Ho|Ho];
    [by destruct (Hplain tr2); [exact (plain_alive _ _ _ Hal)|]|].
  destruct alive; [|by destruct (Hdrops _ _ Hex Ho)].
  apply exec_bind_inv in Hex as [[_ Hex]|([] & t4 & tr4 & -> & H4 & Hex)].
  { destruct Hex as [[-> _]|([] & t' & -> & [-> _])]; [by apply elem_of_nil in Ho|].
    apply list_elem_of_singleton in Ho as ->. simpl in Hw. case_decide; [|done]. simplify_eq.
    split_and!; [done..|]. by exists tr2, []. }
  apply exec_do_act_Some in H4 as ->.
  assert (o = Obs (Store timed_out true) tt) as ->.
  { apply elem_of_cons in Ho as [->|Ho]; [done|exfalso].
    apply exec_bind_inv in Hex as [[_ Hex]|(res & tr5 & tr6 & -> & Hk & Hex)].
    - by apply (Hplain tr4); [exact (plain_kill _ _ _ _ Hex)|].
    - apply elem_of_app in Ho as [Ho|Ho]; [by apply (Hplain tr5); [exact (plain_kill _ _ _ _ Hk)|]|].
      by apply (Hdrop _ _ Hex). }
  simpl in Hw. case_decide; [|done]. simplify_eq. split_and!; [done..|]. by exists tr2, tr4.
Qed.

(** ** Who writes the flag *)

Section Writers.
Context {W : Type}.
Variable external : tid -> forall X, act X -> W -> X -> W -> Prop.
#[local] Abbreviation reachable := (reachable external).
Context (task : Task) (ch : option CancelHandle) (rest : list (prog unit)) (g : global W).
#[local] Abbreviation cstart := (capture_run rust_callback task ch rest g).

(** A step that writes only flags that were there before the run. *)
Definition low_writes (o : obs) : Prop :=
  forall l b, writes l o = Some b -> (l < next (memory g))%nat.

Context (Hrest : Forall (fun p => all_obs aside_obs p /\ all_obs low_writes p) rest).
Context (Hch : forall h, ch = Some h -> (kill_fired h < next (memory g))%nat).
Context (Hl : log g = []).

Section At.
Context (c : config W (outcome (Result unit AerError.t))) (Hr : reachable cstart c).

Lemma born_writes v b n :
  (v, ObsFork b (Some n)) ∈ log (state c) ->
  (v = 0%nat /\ exists kill timed_out cancel_ch d,
     timeout task = Some d /\ b = monitor_body kill timed_out cancel_ch d) \/
  exists k, all_obs (flag_free k) b.
Proof using L D Hl Hr Hrest.
  revert b n. induction (lt_wf v) as [v _ IH]. intros b n Hin.
  destruct (thread_cases external cstart c Hl Hr _ _ Hin) as [->|[(i & p0 & -> & Hi)|(u & b' & Hlt & Hb)]].
  - pose proof (run_writes task ch _ _ (main_exec external cstart c Hl Hr)) as Hw.
    destruct (proj1 (Forall_forall _ _) Hw _ (proj2 (elem_of_own _ _ _) Hin)) as [?|?]; [by left|].
    right. by exists 1%nat.
  - exfalso. destruct (program_exec external cstart c Hl Hr i p0) as [Hex _]; [by apply initial_program|].
    destruct (Forall_lookup_1 _ _ _ _ Hrest Hi) as [Ha _].
    by apply (proj1 (Forall_forall _ _) (Ha _ _ Hex) _ (proj2 (elem_of_own _ _ _) Hin)).
  - destruct (born_program external cstart c Hl Hr _ _ _ Hb) as (_ & _ & i & -> & Hi).
    destruct (program_exec external cstart c Hl Hr i b' Hi) as [Hex _].
    destruct (IH u Hlt _ _ Hb) as [(_ & kill & tl & cc & d & _ & ->)|[k Hk]].
    + exfalso. pose proof (monitor_aside kill tl cc d _ _ Hex) as Ha.
      by apply (proj1 (Forall_forall _ _) Ha _ (proj2 (elem_of_own _ _ _) Hin)).
    + pose proof (proj1 (Forall_forall _ _) (Hk _ _ Hex) _ (proj2 (elem_of_own _ _ _) Hin)) as Hf.
      right. destruct k as [|k]; [done|]. by exists k.
Qed.

(** A flag created by the run is written by its monitor only. *)
Lemma flag_writer t o timed_out b :
  (next (memory g) <= timed_out)%nat -> (t, o) ∈ log (state c) -> writes timed_out o = Some b ->
  b = true /\ (exists d, timeout task = Some d /\ fired t d timed_out (log (state c))) /\
  exists body, (0%nat, ObsFork body (Some t)) ∈ log (state c).
Proof using L D Hl Hr Hrest Hch.
  intros Hge Hin Hw.
  destruct (thread_cases external cstart c Hl Hr _ _ Hin) as [->|[(i & p0 & -> & Hi)|(u & b' & Hlt & Hb)]].
  - exfalso. pose proof (run_writes task ch _ _ (main_exec external cstart c Hl Hr)) as Hm.
    pose proof (proj1 (Forall_forall _ _) Hm _ (proj2 (elem_of_own _ _ _) Hin)) as Ho.
    destruct o as [X e x|]; [|done]. destruct e; try done. destruct Ho as (h & Eh & ->).
    simpl in Hw. case_decide; [|done]. subst timed_out. specialize (Hch h Eh). lia.
  - exfalso. destruct (program_exec external cstart c Hl Hr i p0) as [Hex _]; [by apply initial_program|].
    destruct (Forall_lookup_1 _ _ _ _ Hrest Hi) as [_ Hlow].
    pose proof (proj1 (Forall_forall _ _) (Hlow _ _ Hex) _ (proj2 (elem_of_own _ _ _) Hin) _ _ Hw). lia.
  - destruct (born_program external cstart c Hl Hr _ _ _ Hb) as (_ & _ & i & -> & Hi).
    destruct (program_exec external cstart c Hl Hr i b' Hi) as [Hex _].
    destruct (born_writes _ _ _ Hb) as [(-> & kill & tl & cc & d & Ed & ->)|[k Hk]].
    + destruct (monitor_writes kill tl cc d _ _ timed_out o b Hex (proj2 (elem_of_own _ _ _) Hin) Hw)
        as (-> & -> & tr1 & tr2 & E & Hal).
      split_and!; [done| |by eexists]. exists d. split; [done|]. by exists kill, cc, tr1, tr2.
    + exfalso. pose proof (proj1 (Forall_forall _ _) (Hk _ _ Hex) _ (proj2 (elem_of_own _ _ _) Hin)) as Hf.
      destruct o as [X e x|]; [|done]. destruct k; by destruct e.
Qed.
End At.

(** Identifiers only grow. *)
Lemma next_reached (c : config W (outcome (Result unit AerError.t))) :
  reachable cstart c -> (next (memory g) <= next (memory (state c)))%nat.
Proof using Type.
  intros Hr. apply (reachable_memory external (fun m _ => (next (memory g) <= next m)%nat)) in Hr; [done|..].
  - intros t el X e x m m' l Hle Hm. pose proof (next_mono _ _ _ _ _ _ Hm). lia.
  - done.
  - done.
  - simpl. lia.
Qed.

Context (c : config W (outcome (Result unit AerError.t))) (Hr : reachable cstart c).

(** The flag at the moment the caller's thread reads it. *)
Lemma flag_fired timed_out b l0 l1 l2 :
  log (state c) = (l0 ++ (0%nat : tid, Obs (NewFlag false) timed_out) :: l1) ++
    (0%nat : tid, Obs (Load timed_out) b) :: l2 ->
  Forall opening_obs (own 0%nat l0) ->
  b = true <-> exists t d, timeout task = Some d /\
    fired t d timed_out (l0 ++ (0%nat : tid, Obs (NewFlag false) timed_out) :: l1).
Proof using L D Hl Hr Hrest Hch.
  intros E Hopen.
  destruct (reachable_split external cstart c _ _ _ _ Hl Hr E) as (c1 & c1b & Hr1 & _ & El & _ & Ho).
  destruct (reachable_split external cstart c1 _ _ _ _ Hl Hr1 El) as (c0 & c0b & Hr0 & _ & El0 & _ & Ho0).
  assert (next (memory g) <= timed_out)%nat as Hge.
  { pose proof (next_reached c0 Hr0) as Hn.
    destruct Ho0 as [_ [(el & Hm & _)|(Hm & _)]]; simpl in Hm; [|done]. by injection Hm as <- _. }
  pose proof (flag_history external _ cstart c1 timed_out false l0 _ l1 Hl Hr1 El eq_refl) as Hflag.
  assert (b = flag (memory (state c1)) timed_out) as Hb.
  { destruct Ho as [_ [(el & Hm & _)|(Hm & _)]]; simpl in Hm; [|done]. by injection Hm as <- _. }
  assert (forall x, x ∈ omap (writes timed_out) (l1.*2) -> x = true /\
    exists t d, timeout task = Some d /\ fired t d timed_out (log (state c1))) as Hall.
  { intros x (o & ([t o'] & -> & Hin)%list_elem_of_fmap & Hw)%list_elem_of_omap.
    destruct (flag_writer c1 Hr1 t o' timed_out x Hge) as (-> & (d & ? & ?) & _); [|done|by eauto].
    rewrite El. apply elem_of_app. right. by right. }
  rewrite <- El, Hb, Hflag. split.
  - intros Hlast. destruct (last (omap (writes timed_out) (l1.*2))) as [x|] eqn:Ex; [|done].
    apply last_Some in Ex as [k Ek]. apply (Hall x). rewrite Ek. apply elem_of_app. right. by left.
  - intros (t & d & _ & kill & cc & t1 & t2 & Eo & _).
    assert ((t, Obs (Store timed_out true) tt) ∈ log (state c1)) as Hin.
    { apply elem_of_own. rewrite Eo. in_list. }
    assert (writes timed_out (Obs (Store timed_out true) tt) = Some true) as Hw
      by (simpl; by rewrite decide_True).
    rewrite El in Hin. apply elem_of_app in Hin as [Hin|[?|Hin]%elem_of_cons]; [exfalso|done|].
    + rewrite <- El0 in Hin. destruct (flag_writer c0 Hr0 t _ timed_out true Hge Hin Hw) as (_ & _ & body & Hf).
      rewrite El0 in Hf. apply elem_of_own in Hf.
      by apply (proj1 (Forall_forall _ _) Hopen _ Hf).
    + assert (true ∈ omap (writes timed_out) (l1.*2)) as Ht.
      { apply list_elem_of_omap. exists (Obs (Store timed_out true) tt). split; [|done].
        apply list_elem_of_fmap. by exists (t, Obs (Store timed_out true) tt). }
      destruct (last (omap (writes timed_out) (l1.*2))) as [x|] eqn:Ex.
      * simpl. apply last_Some in Ex as [k Ek]. apply (Hall x). rewrite Ek. apply elem_of_app. right. by left.
      * apply last_None in Ex. rewrite Ex in Ht. by apply elem_of_nil in Ht.
Qed.

(** C12: The reason given with [Exited] is [TimedOut] exactly when a timeout was
    set and the monitor had fired by the time the caller's thread read its
    flag: it had waited out the deadline without word from the run, seen the
    process tree alive, and set the flag. *)
Theorem timeout_outcome code reason :
  Event.Exited code reason ∈ caller_events c ->
  exists timed_out l1 b l2,
    log (state c) = l1 ++ (0%nat : tid, Obs (Load timed_out) b) :: l2 /\
    (0%nat : tid, Obs (NewFlag false) timed_out) ∈ l1 /\
    (reason = ExitReason.TimedOut <->
     exists t d, timeout task = Some d /\ fired t d timed_out l1).
Proof using L D Hl Hr Hrest Hch.
  intros Hin.
  destruct (run_looked task ch _ _ code reason (main_exec external cstart c Hl Hr) Hin)
    as (lf & tr1 & tr2 & E & Hopen & ta & b1 & b2 & tb & -> & ->).
  destruct (own_split 0%nat _ _ _ _ E) as (l0 & lr & El & E0 & Er).
  destruct (own_split 0%nat _ _ _ _ Er) as (l1 & l2 & -> & _ & _).
  assert (log (state c) = (l0 ++ (0%nat : tid, Obs (NewFlag false) lf) :: l1) ++
    (0%nat : tid, Obs (Load lf) b1) :: l2) as El' by (by rewrite El, <- app_assoc).
  exists lf, (l0 ++ (0%nat : tid, Obs (NewFlag false) lf) :: l1), b1, l2.
  split_and!; [done|apply elem_of_app; right; by left|].
  rewrite <- (flag_fired lf b1 l0 l1 l2 El') by (by rewrite E0). by destruct b1, b2.
Qed.
End Writers.
End Timeout.
