(* ===== verification/Progress.v ===== *)
(** * No run gets stuck (src/src/task.rs, os/mod.rs, both backends)

    A configuration of a run in which no thread can take a step is one in
    which the run has returned and every thread of it has ended: nobody waits
    for a message that no one will send, for a thread that will not end, or
    for a mutex that will not be released. *)

From Stdlib Require Import ZArith.
From stdpp Require Import base numbers list strings gmap relations.
From S2P Require Import Prelude Core Sys Prog Os Drains Task Run Caller Pool Threads History Locks Capture Delivery Captured.

Open Scope Z_scope.

(** Why a thread cannot take its next step: the mutex is held, the channel is
    empty and has a sender, or the thread to be joined runs. *)
Definition blocked_on (fin : tid -> Prop) (m : mem) (o : obs) : Prop :=
  match o with
  | Obs e _ =>
      match e with
      | Lock l => holder (mutex_at m l) <> None
      | Recv c => txs (chan_at m (chan_key c)) <> 0%nat
      | Join t => ~ fin t
      | _ => False
      end
  | ObsFork _ _ => False
  end.

Section Stuck.
Context {W : Type}.
Variable external : tid -> forall X, act X -> W -> X -> W -> Prop.
#[local] Abbreviation reachable := (reachable external).

(** The world answers every call. *)
Definition answers : Prop := forall t X (e : act X) w, exists x w', external t X e w x w'.

(** No thread can take a step. *)
Definition stuck {R} (c : config W R) : Prop := forall c', ~ step external c c'.

Hypothesis Htotal : answers.

Lemma act_blocked fin t {X} (e : act X) g :
  (forall x g', ~ act_sem external fin t e g x g') -> exists x, blocked_on fin (memory g) (Obs e x).
Proof using Htotal.
  intros Hno.
  assert (forall el x m, mem_step t el e (memory g) = Answer x m -> False) as Hmem.
  { intros el x m Hm. apply (Hno x (mkGlobal m (world g) (log g ++ [(t, Obs e x)]))).
    split; [done|]. left. by exists el. }
  assert (mem_step t false e (memory g) = External -> join_target e = None -> False) as Hext.
  { intros Hm Hj. destruct (Htotal t X e (world g)) as (x & w' & Hx).
    apply (Hno x (mkGlobal (memory g) w' (log g ++ [(t, Obs e x)]))).
    split; [done|]. right. split_and!; [done|done|done|]. rewrite Hj. done. }
  destruct e; try (by destruct (Hext eq_refl eq_refl));
    try (by exfalso; eapply (Hmem false); reflexivity).
  - exists false. simpl. intros E. eapply (Hmem false). simpl. by rewrite E.
  - exfalso. destruct (rx (chan_at (memory g) (chan_key c))) eqn:E; eapply (Hmem false); simpl; by rewrite E.
  - exists None. simpl. intros E. destruct (queue ty (chan_at (memory g) (chan_key c))) eqn:Eq;
      eapply (Hmem false); simpl; rewrite Eq; [by rewrite E|done].
  - exfalso. destruct (q_unit (chan_at (memory g) (chan_key c))) eqn:Eq;
      [destruct (txs (chan_at (memory g) (chan_key c))) eqn:E|];
      eapply (Hmem true); simpl; rewrite Eq; [by rewrite E..|done].
  - exists tt. simpl. intros Hf. destruct (Htotal t unit (Join t0) (world g)) as (x & w' & Hx).
    apply (Hno x (mkGlobal (memory g) w' (log g ++ [(t, Obs (Join t0) x)]))).
    split; [done|]. right. split_and!; [done|done|done|]. by intros u [= <-].
Qed.

Lemma step_blocked fin n t {A} (p : prog A) g :
  (forall born p' g', ~ thread_step external fin n t p g born p' g') ->
  returned p \/ exists o, blocked_on fin (memory g) o /\ exec p [o] None.
Proof using Htotal.
  intros Hno. destruct p as [A a|A X e k|A body k|A I B body i k]; [by left|right..].
  - destruct (act_blocked fin t e g) as [x Hx].
    { intros x g' Hs. by apply (Hno None (k x) g'); split; [done|exists x]. }
    exists (Obs e x). split; [done|]. right. exists x, []. split; [done|apply exec_nil].
  - exfalso. apply (Hno None (k None) (mkGlobal (memory g) (world g) (log g ++ [(t, ObsFork body None)]))).
    simpl. split_and!; [done|done|]. by right.
  - exfalso. by apply (Hno None (unroll body i k) g).
Qed.

Context {R : Type} (c c' : config W R) (Hl : log (state c) = []) (Hr : reachable c c').
Hypothesis Hstuck : stuck c'.
#[local] Abbreviation l := (log (state c')).
#[local] Abbreviation blocked := (blocked_on (finished c') (memory (state c'))).

(** The caller's thread has returned, or is about to take a step it cannot. *)
Lemma main_halts :
  (exists a, main c' = Ret a) \/
  exists o, blocked o /\ exec (main c) (own 0%nat l ++ [o]) None.
Proof using Htotal Hstuck Hl Hr.
  destruct (step_blocked (finished c') (S (length (others c'))) 0%nat (main c') (state c'))
    as [Hret|(o & Ho & Hex)].
  - intros born p' g' Hs. by eapply Hstuck, step_main.
  - left. destruct (main c') as [A a| | |]; [by exists a|done..].
  - right. exists o. split; [done|]. by apply (traced_main _ _ (reachable_traced external c c' Hl Hr)).
Qed.

Lemma program_halts i p0 :
  programs c l !! i = Some p0 ->
  exists p, others c' !! i = Some p /\
    ((returned p /\ exec p0 (own (S i) l) (Some tt)) \/
     exists o, blocked o /\ exec p0 (own (S i) l ++ [o]) None).
Proof using Htotal Hstuck Hl Hr.
  intros Hi. destruct (program_exec external c c' Hl Hr i p0 Hi) as (_ & p & Hp & Hf & Hret).
  exists p. split; [done|].
  destruct (step_blocked (finished c') (S (length (others c'))) (S i) p (state c')) as [Hd|(o & Ho & Hex)].
  - intros born p' g' Hs. by eapply Hstuck, step_other.
  - left. auto.
  - right. exists o. split; [done|]. by apply Hf.
Qed.

(** When every thread keeps the lock discipline, no mutex is held. *)
Lemma stuck_unlocked m :
  tidy (main c) -> Forall tidy (others c) ->
  holder (mutex_at (memory (state c)) m) = None -> holder (mutex_at (memory (state c')) m) = None.
Proof using Htotal Hstuck Hl Hr.
  intros Hmain Hothers Hn. destruct (holder (mutex_at (memory (state c')) m)) as [h|] eqn:Hh; [|done].
  exfalso. destruct (holder_initial external c c' Hl Hr Hmain Hothers m h Hn Hh) as [Hlast Hwho].
  assert (forall A (p : prog A) tr, tidy p -> last (omap (locks m) tr) = Some true ->
    (exists a, exec p tr (Some a)) \/ (exists o, blocked o /\ exec p (tr ++ [o]) None) -> False) as Hno.
  { intros A p tr Hp Hm [[a Hex]|(o & Ho & Hex)]; destruct (Hp _ _ Hex) as [_ Hheld].
    - rewrite (held_last m) in Hheld; [done|by rewrite Hheld|done].
    - rewrite held_app in Hheld. assert (is_Some (held None tr)) as Hs.
      { destruct (held None tr); [done|by destruct Hheld]. }
      rewrite (held_last m tr Hs Hm) in Hheld. simpl in Hheld.
      destruct o as [X e x|]; [|done]. destruct e; simpl in Ho, Hheld; try done; by destruct Hheld. }
  destruct Hwho as [->|(i & p0 & -> & Hi)].
  - eapply (Hno _ (main c)); [done|exact Hlast|].
    destruct main_halts as [[a Ha]|?]; [left|by right]. exists a. by apply (main_exec_done external c c' Hl Hr).
  - eapply (Hno _ p0); [by eapply Forall_lookup_1 in Hothers|exact Hlast|].
    destruct (program_halts i p0) as (p & _ & [[_ ?]|?]); [by apply initial_program| |by right].
    left. by exists tt.
Qed.
End Stuck.

(** ** The threads that wait for nothing *)

(** A step of a thread that starts no thread, receives nothing and joins
    nothing. *)
Definition leaf_obs (o : obs) : Prop :=
  match o with
  | Obs e _ => match e with Recv _ | Join _ => False | _ => True end
  | ObsFork _ _ => False
  end.

(** A step that starts no thread but such ones. *)
Definition leaf_fork (o : obs) : Prop :=
  match o with
  | Obs _ _ => True
  | ObsFork body t => t = None \/ all_obs leaf_obs body
  end.

Lemma aside_leaf o : aside_obs o -> leaf_obs o.
Proof. destruct o as [X e x|]; [|done]. by destruct e. Qed.

Lemma calm_fork o : calm_obs o -> leaf_fork o.
Proof. destruct o as [X e x|]; [done|]. intros Ho. right. eapply all_obs_impl; [apply aside_leaf|done]. Qed.

Lemma drain_leaf p c o : drain_obs p c o -> leaf_obs o.
Proof. destruct o as [X e x|]; [|done]. by destruct e. Qed.

Section Progress.
Context `{P : OsProcess} {L : OsProcessLaws P} {D : OsDrains P}.
Context {W : Type}.
Variable external : tid -> forall X, act X -> W -> X -> W -> Prop.
Hypothesis Htotal : answers external.
#[local] Abbreviation reachable := (reachable external).

Section Leaves.
Context {R : Type} (c c' : config W R) (Hl : log (state c) = []) (Hr : reachable c c').
Hypothesis Hstuck : stuck external c'.
Hypothesis Hfree : forall m, holder (mutex_at (memory (state c')) m) = None.
#[local] Abbreviation l := (log (state c')).
#[local] Abbreviation blocked := (blocked_on (finished c') (memory (state c'))).

Lemma leaf_unblocked o : leaf_obs o -> blocked o -> False.
Proof using Hfree.
  destruct o as [X e x|]; [|done]. destruct e; try done. simpl. intros _ Hh. by destruct Hh.
Qed.

Lemma blocked_obs o : blocked o -> exists X (e : act X) x, o = Obs e x.
Proof using Type. destruct o as [X e x|]; [|done]. eauto. Qed.

Lemma leaf_returns i p0 :
  all_obs leaf_obs p0 -> programs c l !! i = Some p0 ->
  exec p0 (own (S i) l) (Some tt) /\ exists p, others c' !! i = Some p /\ returned p.
Proof using Htotal Hl Hr Hstuck Hfree.
  intros Hp Hi. destruct (program_halts external Htotal c c' Hl Hr Hstuck i p0 Hi)
    as (p & Hp' & [[? ?]|(o & Ho & Hex)]); [split; [done|by exists p]|].
  exfalso. apply Hp in Hex. apply Forall_app in Hex as [_ Hex]. rewrite Forall_singleton in Hex.
  exact (leaf_unblocked o Hex Ho).
Qed.

(** When all but the caller's thread are such, they have all ended. *)
Lemma leaves_return :
  Forall (all_obs leaf_obs) (others c) -> Forall leaf_fork (own 0%nat l) -> Forall returned (others c').
Proof using Htotal Hl Hr Hstuck Hfree.
  intros Hrest Hmain.
  assert (forall v b n, (v, ObsFork b (Some n)) ∈ l -> all_obs leaf_obs b) as Hborn.
  { intros v. induction (lt_wf v) as [v _ IH]. intros b n Hin.
    destruct (thread_cases external c c' Hl Hr _ _ Hin) as [->|[(i & p0 & -> & Hi)|(u & b' & Hlt & Hb)]].
    - pose proof (proj1 (Forall_forall _ _) Hmain _ (proj2 (elem_of_own _ _ _) Hin)) as Hf. by destruct Hf.
    - destruct (program_exec external c c' Hl Hr i p0) as [Hex _]; [by apply initial_program|].
      pose proof (Forall_lookup_1 _ _ _ _ Hrest Hi _ _ Hex) as Hf.
      by destruct (proj1 (Forall_forall _ _) Hf _ (proj2 (elem_of_own _ _ _) Hin)).
    - destruct (born_program external c c' Hl Hr _ _ _ Hb) as (_ & _ & i & -> & Hi).
      destruct (program_exec external c c' Hl Hr i b' Hi) as [Hex _].
      pose proof (IH u Hlt _ _ Hb _ _ Hex) as Hf.
      by destruct (proj1 (Forall_forall _ _) Hf _ (proj2 (elem_of_own _ _ _) Hin)). }
  apply Forall_lookup_2. intros i p Hp.
  destruct (traced_others _ _ (reachable_traced external c c' Hl Hr) _ _ Hp) as (p0 & Hi & _).
  destruct (leaf_returns i p0) as (_ & q & Hq & Hret); [|done|by simplify_eq].
  destruct (program_origin external c c' Hl Hr i p0 Hi) as [Hi'|[v Hv]]; [|by eapply Hborn].
  by eapply Forall_lookup_1 in Hrest.
Qed.

Lemma born_finished v b n :
  Forall returned (others c') -> (v, ObsFork b (Some n)) ∈ l -> finished c' n.
Proof using Hl Hr.
  intros Hret Hb. destruct (born_program external c c' Hl Hr _ _ _ Hb) as (_ & _ & i & -> & Hi).
  destruct (program_exec external c c' Hl Hr i b Hi) as (_ & p & Hp & _). exists p.
  split; [done|]. by eapply Forall_lookup_1 in Hret.
Qed.
End Leaves.

(** ** The crew of a capturing run *)

Section Crew.
Context {R : Type} (c c' : config W R) (Hl : log (state c) = []) (Hr : reachable c c').
Context (Hrest : Forall (all_obs aside_obs) (others c)).
Hypothesis Hstuck : stuck external c'.
Hypothesis Hfree : forall m, holder (mutex_at (memory (state c')) m) = None.
#[local] Abbreviation l := (log (state c')).
#[local] Abbreviation blocked := (blocked_on (finished c') (memory (state c'))).
Context (handle : OsHandle) (id : Z).
Context (Hout : child_stdout (child handle) = Some (mkPipe id OutStream)).
Context (Herr : child_stderr (child handle) = Some (mkPipe id ErrStream)).
Context (lc : chan TyChunk) (lw : chan TyWait) (w : tid) (tr1 tr2 : list obs).
#[local] Abbreviation sinks := (mkOutputSinks (Some lc) (Some lc)).
Context (Hown : own 0%nat l =
  tr1 ++ setup lc lw ++ ObsFork (wait_body handle sinks lw) (Some w) :: tr2).
Context (H1 : Forall calm_obs tr1) (H2 : Forall (later_obs lc) tr2).

Lemma drainer_done s tr :
  exec (drainer id lc s) tr (Some tt) -> omap (drops (chan_key lc)) tr = [tt].
Proof using Type.
  intros Hex. unfold drainer in Hex. destruct (drain_body_exec _ _ _ _ Hex) as [_ [Hn|[? _]]]; [|done].
  exfalso. unfold drain_body in Hex. apply exec_bind_Some in Hex as ([] & t1 & t2 & -> & _ & Hex).
  repeat exec_inv_step Hex. rewrite omap_app in Hn. apply app_nil in Hn as [_ Hn].
  simpl in Hn. unfold at_key in Hn. by rewrite decide_True in Hn.
Qed.

(** A drain thread always gets to its end. *)
Lemma drain_returns s t :
  (w, ObsFork (drainer id lc s) (Some t)) ∈ l ->
  finished c' t /\ omap (drops (chan_key lc)) (own t l) = [tt].
Proof using Htotal Hl Hr Hstuck Hfree.
  intros Hb. destruct (born_program external c c' Hl Hr _ _ _ Hb) as (_ & _ & i & -> & Hi).
  destruct (leaf_returns c c' Hl Hr Hstuck Hfree i (drainer id lc s)) as (Hex & p & Hp & Hret); [|done|].
  - eapply all_obs_impl; [apply (drain_leaf (mkPipe id s) lc)|]. apply drain_body_steps.
  - split; [by exists p|]. by eapply drainer_done.
Qed.

(** So the wait thread does too, and all the senders are gone. *)
Lemma crew_returns :
  exists T, crew id lc lw (own w l) T /\ sinks_given lc (own w l) T /\
    Obs (DropTx lw) tt ∈ own w l /\ finished c' w.
Proof using Htotal Hl Hr Hstuck Hfree Hown Hout Herr L D.
  destruct (born_program external c c' Hl Hr _ _ _ (wait_born c' handle lc lw w tr1 tr2 Hown))
    as (_ & _ & i & Ew & Hi).
  destruct (program_halts external Htotal c c' Hl Hr Hstuck i _ Hi) as (p & Hp & [[Hret Hex]|(o & Ho & Hex)]).
  - rewrite <- Ew in Hex. destruct (wait_crew_given handle id Hout Herr lc lw _ _ Hex) as (T & HT & Hg).
    destruct (Hg tt eq_refl). exists T. split_and!; try done. rewrite Ew. by exists p.
  - exfalso. rewrite <- Ew in Hex. destruct (wait_crew handle id Hout Herr lc lw _ _ Hex) as [T HT].
    assert (crew_obs T o) as Hc by (apply (crew_steps _ _ _ _ _ HT); in_list).
    destruct o as [X e x|]; [|done]. destruct e; try done.
    destruct Hc as [s Hs]. apply Ho.
    pose proof (crew_started _ _ _ _ _ HT s t Hs) as Hf.
    apply elem_of_app in Hf as [Hf|Hf%list_elem_of_singleton]; [|done].
    apply (drain_returns s t). by apply elem_of_own.
Qed.

Context (T : Stream -> option tid) (HT : crew id lc lw (own w l) T).
Context (Hdrop : Obs (DropTx lw) tt ∈ own w l).

Lemma no_wait_clones u o : (u, o) ∈ l -> clones (chan_key lw) o = None.
Proof using Hl Hr Hrest Hown H1 H2 HT.
  intros Hin.
  assert (forall o, aside_obs o -> clones (chan_key lw) o = None) as Ha.
  { intros o' Ho. destruct o' as [X e x|]; [|done]. destruct e; try done. simpl in Ho. subst.
    simpl. unfold at_key. by rewrite decide_False. }
  destruct (decide (u = 0%nat)) as [->|Hu].
  - assert (forall o, calm_obs o -> clones (chan_key lw) o = None) as Hc.
    { intros o' Ho. destruct o' as [X e x|]; [by apply Ha|done]. }
    destruct (own_main c' handle lc lw w tr1 tr2 Hown H1 H2 o Hin) as [Ho|[Ho|[->|[Ho|[Ho|Ho]]]]];
      [by apply Hc| |done|by apply Hc| |].
    + repeat (apply elem_of_cons in Ho as [->|Ho]; [done|]). by apply elem_of_nil in Ho.
    + destruct o as [X e x|]; [|done]. destruct e; try done. simpl in Ho. subst.
      simpl. unfold at_key. by rewrite decide_False.
    + destruct o as [X e x|]; [|done]. by destruct e.
  - destruct (started_threads external c c' Hl Hr Hrest handle id lc lw w tr1 tr2 Hown H1 H2 T HT u o Hin Hu)
      as [Ho|[->|[s Hs]]]; [by apply Ha| |].
    + assert (crew_obs T o) as Ho by (apply (crew_steps _ _ _ _ _ HT); by apply elem_of_own).
      destruct o as [X e x|]; [|done]. by destruct e.
    + pose proof (drain_steps external c c' Hl Hr id lc lw w T HT s u o Hs Hin) as Ho.
      destruct o as [X e x|]; [|done]. by destruct e.
Qed.

(** The channel of the report has no sender left. *)
Lemma reporter_gone : txs (chan_at (memory (state c')) (chan_key lw)) = 0%nat.
Proof using Hl Hr Hrest Hown H1 H2 HT Hdrop.
  destruct (own_split 0%nat l (tr1 ++ take 4 (setup lc lw)) (Obs (NewChan TyWait) lw)
    (ObsFork (wait_body handle sinks lw) (Some w) :: tr2)) as (l1 & l2 & E & E1 & _).
  { by rewrite Hown, <- app_assoc. }
  pose proof (channel_history external _ c c' TyWait (chan_loc lw) l1 _ l2 Hl Hr E eq_refl) as Hc.
  pose proof (chan_spent _ _ _ _ Hc [] (l2.*2) eq_refl) as Hs.
  change (TyWait, chan_loc lw) with (chan_key lw) in Hs.
  rewrite (omap_none (clones (chan_key lw)) (l2.*2)) in Hs.
  2: { intros o ([u o'] & -> & Hin)%list_elem_of_fmap. apply (no_wait_clones u). rewrite E.
       apply elem_of_app. right. by right. }
  specialize (Hs eq_refl). simpl in Hs.
  assert (omap (drops (chan_key lw)) (l2.*2) <> []) as Hne.
  { assert ((w, Obs (DropTx lw) tt) ∈ l) as Hin by (by apply elem_of_own).
    destruct (born_program external c c' Hl Hr _ _ _ (wait_born c' handle lc lw w tr1 tr2 Hown)) as [Hw _].
    rewrite E in Hin. apply elem_of_app in Hin as [Hin|[?|Hin]%elem_of_cons].
    - exfalso. destruct (reachable_split external c c' _ _ _ _ Hl Hr E) as (c1 & _ & Hr1 & _ & El & _ & _).
      rewrite <- El in Hin, E1.
      assert (Forall idle_obs (own 0%nat (log (state c1)))) as Hi.
      { rewrite E1. apply Forall_app. split; [eapply Forall_impl; [exact H1|by left]|].
        repeat (constructor; [by right|]). done. }
      destruct (idle_threads external c c1 Hl Hr1 Hrest Hi _ _ Hin) as [[-> _]|Ha]; [lia|done].
    - by simplify_eq.
    - intros Hn. assert (tt ∈ omap (drops (chan_key lw)) (l2.*2)) as Ht; [|rewrite Hn in Ht; by apply elem_of_nil in Ht].
      apply list_elem_of_omap. exists (Obs (DropTx lw) tt). split.
      + apply list_elem_of_fmap. by exists (w, Obs (DropTx lw) tt).
      + simpl. unfold at_key. by rewrite decide_True. }
  destruct (omap (drops (chan_key lw)) (l2.*2)); [done|]. simpl in Hs. lia.
Qed.

(** Only the caller's thread clones a sender of the chunk channel. *)
Lemma chunk_cloner u o : (u, o) ∈ l -> clones (chan_key lc) o <> None -> u = 0%nat.
Proof using Hl Hr Hrest Hown H1 H2 HT.
  intros Hin Ho. destruct (decide (u = 0%nat)) as [?|Hu]; [done|]. destruct Ho.
  destruct (started_threads external c c' Hl Hr Hrest handle id lc lw w tr1 tr2 Hown H1 H2 T HT u o Hin Hu)
    as [Ha|[->|[s Hs]]].
  - destruct o as [X e x|]; [|done]. destruct e; try done. simpl in Ha. subst.
    simpl. unfold at_key. by rewrite decide_False.
  - assert (crew_obs T o) as Ho by (apply (crew_steps _ _ _ _ _ HT); by apply elem_of_own).
    destruct o as [X e x|]; [|done]. by destruct e.
  - pose proof (drain_steps external c c' Hl Hr id lc lw w T HT s u o Hs Hin) as Ho.
    destruct o as [X e x|]; [|done]. by destruct e.
Qed.

Lemma later_no_clone o : later_obs lc o -> clones (chan_key lc) o = None.
Proof using Type.
  intros [Ho|[Ho|Ho]]; (destruct o as [X e x|]; [|done]); destruct e; try done; simpl in Ho; subst;
    simpl; unfold at_key; by rewrite decide_False.
Qed.

(** The log at the second clone: nothing dropped before, nothing cloned after. *)
Lemma clones_split :
  exists l1 a b : list (tid * obs),
    l = (l1 ++ (0%nat : tid, Obs (NewChan TyChunk) lc) :: a) ++ (0%nat : tid, Obs (CloneTx lc) tt) :: b /\
    length (omap (clones (chan_key lc)) (a.*2)) = 1%nat /\
    omap (clones (chan_key lc)) (b.*2) = [] /\
    omap (drops (chan_key lc)) ((l1 ++ (0%nat : tid, Obs (NewChan TyChunk) lc) :: a).*2) = [].
Proof using Hl Hr Hrest Hown H1 H2 HT.
  destruct (own_split 0%nat l tr1 (Obs (NewChan TyChunk) lc)
    (tail (setup lc lw) ++ ObsFork (wait_body handle sinks lw) (Some w) :: tr2) Hown)
    as (l1 & l2 & E & E1 & E2).
  destruct (own_split 0%nat l2 [Obs (CloneTx lc) tt] (Obs (CloneTx lc) tt) _ E2) as (a & b & -> & Ea & Eb).
  assert (l = (l1 ++ (0%nat : tid, Obs (NewChan TyChunk) lc) :: a) ++
    (0%nat : tid, Obs (CloneTx lc) tt) :: b) as E' by (by rewrite E, <- app_assoc).
  exists l1, a, b. clear E.
  assert (forall k, (forall x, x ∈ k -> x ∈ l) ->
    omap (clones (chan_key lc)) (k.*2) = omap (clones (chan_key lc)) (own 0%nat k)) as Hc.
  { intros k Hk. apply omap_own. intros u o Hin. by apply chunk_cloner, Hk. }
  split_and!; [done|..].
  - rewrite Hc, Ea; [simpl; unfold at_key; by rewrite decide_True|]. intros x Hx. rewrite E'.
    apply elem_of_app. left. apply elem_of_app. right. by right.
  - rewrite Hc, Eb.
    2: { intros x Hx. rewrite E'. apply elem_of_app. right. by right. }
    apply omap_none. intros o Ho. simpl in Ho.
    repeat (apply elem_of_cons in Ho as [->|Ho]; [done|]).
    apply later_no_clone. exact (proj1 (Forall_forall _ _) H2 o Ho).
  - destruct (reachable_split external c c' _ _ _ _ Hl Hr E') as (c1 & _ & Hr1 & _ & El & _ & _).
    rewrite <- El.
    assert (own 0%nat (log (state c1)) = tr1 ++ take 2 (setup lc lw)) as Eo.
    { rewrite El, own_app, own_cons, E1, Ea. simpl. done. }
    assert (Forall idle_obs (own 0%nat (log (state c1)))) as Hi.
    { rewrite Eo. apply Forall_app. split; [eapply Forall_impl; [exact H1|by left]|].
      repeat (constructor; [by right|]). done. }
    apply omap_none. intros o ([u o'] & -> & Hin)%list_elem_of_fmap. simpl.
    destruct (idle_threads external c c1 Hl Hr1 Hrest Hi _ _ Hin) as [[-> _]|Ha]; [|by apply aside_drops].
    apply elem_of_own in Hin. rewrite Eo in Hin. apply elem_of_app in Hin as [Hin|Hin].
    + pose proof (proj1 (Forall_forall _ _) H1 _ Hin) as Ho. destruct o' as [X e x|]; [|done].
      by apply (aside_drops (Obs e x)).
    + repeat (apply elem_of_cons in Hin as [->|Hin]; [done|]). by apply elem_of_nil in Hin.
Qed.

Context (Hgiven : sinks_given lc (own w l) T).

(** The chunk channel has no sender left. *)
Lemma senders_gone : txs (chan_at (memory (state c')) (chan_key lc)) = 0%nat.
Proof using Htotal Hl Hr Hrest Hstuck Hfree Hown H1 H2 HT Hgiven.
  destruct clones_split as (l1 & a & b & E & Hca & Hcb & Hd).
  assert (l = l1 ++ (0%nat : tid, Obs (NewChan TyChunk) lc) :: a ++ (0%nat : tid, Obs (CloneTx lc) tt) :: b)
    as E' by (by rewrite E, <- app_assoc).
  pose proof (channel_history external _ c c' TyChunk (chan_loc lc) l1 _ _ Hl Hr E' eq_refl) as Hc.
  pose proof (chan_spent _ _ _ _ Hc (a.*2 ++ [Obs (CloneTx lc) tt]) (b.*2)) as Hs.
  change (TyChunk, chan_loc lc) with (chan_key lc) in Hs.
  rewrite omap_app, length_app, Hca in Hs. simpl in Hs. unfold at_key in Hs.
  rewrite decide_True in Hs by done. simpl in Hs.
  cut (3 <= length (omap (drops (chan_key lc)) (b.*2)))%nat.
  { intros Hb. specialize (Hs ltac:(by rewrite fmap_app, <- app_assoc) Hcb). lia. }
  assert (length (omap (drops (chan_key lc)) (l.*2)) = length (omap (drops (chan_key lc)) (b.*2))) as <-.
  { rewrite E, fmap_app, omap_app, Hd. simpl. done. }
  rewrite (count_own (drops (chan_key lc)) _ _
    (crew_nodup external c c' Hl Hr handle id lc lw w tr1 tr2 Hown T HT)
    (droppers external c c' Hl Hr Hrest handle id lc lw w tr1 tr2 Hown H1 H2 T HT)).
  assert (1 <= length (omap (drops (chan_key lc)) (own 0%nat l)))%nat as H0.
  { rewrite Hown, !omap_app, !length_app. simpl. unfold at_key. rewrite decide_True by done. simpl. lia. }
  assert (forall s t, T s = Some t -> length (omap (drops (chan_key lc)) (own t l)) = 1%nat) as Ht.
  { intros s t Hst. destruct (drain_returns s t) as [_ ->]; [|done].
    apply elem_of_own, (crew_started _ _ _ _ _ HT s t Hst). }
  unfold sinks_given in Hgiven. simpl. rewrite !counts_cons.
  destruct (T OutStream) as [t1|] eqn:Eo; destruct (T ErrStream) as [t2|] eqn:Ee; simpl in *;
    rewrite ?counts_cons, ?(Ht _ _ Eo), ?(Ht _ _ Ee); lia.
Qed.

(** Every thread but the caller's has ended. *)
Lemma crew_all_return : Forall returned (others c').
Proof using Htotal Hl Hr Hrest Hstuck Hfree Hown Hout Herr H1 H2 L D.
  clear T HT Hdrop Hgiven. destruct crew_returns as (T & HT & _ & _ & Hw).
  assert (forall i p0, programs c l !! i = Some p0 -> all_obs aside_obs p0 ->
    exists p, others c' !! i = Some p /\ returned p) as Haside.
  { intros i p0 Hi Hp. apply (leaf_returns c c' Hl Hr Hstuck Hfree i p0); [|done].
    eapply all_obs_impl; [apply aside_leaf|done]. }
  assert (forall i, finished c' (S i) -> exists p, others c' !! i = Some p /\ returned p) as Hfin
    by (intros i Hi; exact Hi).
  apply Forall_lookup_2. intros i p Hp.
  cut (exists q, others c' !! i = Some q /\ returned q); [intros (q & ? & ?); by simplify_eq|].
  destruct (traced_others _ _ (reachable_traced external c c' Hl Hr) _ _ Hp) as (p0 & Hi & _).
  destruct (program_origin external c c' Hl Hr i p0 Hi) as [Hi'|[v Hv]].
  { apply (Haside i p0 Hi). by eapply Forall_lookup_1 in Hrest. }
  destruct (decide (v = 0%nat)) as [->|Hne].
  - destruct (own_main c' handle lc lw w tr1 tr2 Hown H1 H2 _ Hv) as [Ho|[Ho|[Ho|[Ho|[Ho|Ho]]]]];
      try done; try (by apply (Haside i p0 Hi)).
    + by apply setup_elem in Ho.
    + injection Ho as _ Ew. apply Hfin. by rewrite Ew.
  - destruct (started_threads external c c' Hl Hr Hrest handle id lc lw w tr1 tr2 Hown H1 H2 T HT v _ Hv Hne)
      as [Ho|[->|[s Hs]]]; [done| |].
    + apply elem_of_own in Hv. destruct (crew_forks _ _ _ _ _ HT _ _ Hv) as (s & _ & ->).
      apply Hfin, (drain_returns s). by apply elem_of_own.
    + by apply (drain_steps external c c' Hl Hr id lc lw w T HT s v _ Hs) in Hv.
Qed.
End Crew.

(** ** The caller's thread *)

(** A run that starts no wait thread: it receives nothing, and joins only
    threads that it has started itself and that wait for nothing. *)
Definition settled (tr : list obs) (o : obs) : Prop :=
  leaf_fork o /\
  match o with
  | Obs e _ =>
      match e with
      | Recv _ => False
      | Join t => exists body, ObsFork body (Some t) ∈ tr
      | _ => True
      end
  | ObsFork _ _ => True
  end.

(** A step after the start of a wait thread. *)
Definition after_obs (lc : chan TyChunk) (lw : chan TyWait) (w : tid) (o : obs) : Prop :=
  calm_obs o \/ pump_obs lc o \/ tail_of lw w o.

Lemma after_later lc lw w o : after_obs lc lw w o -> later_obs lc o.
Proof. intros [?|[?|?%tail_of_obs]]; [by left|by right; left|by right; right]. Qed.

Lemma idle_settled tr o : idle_obs o -> settled tr o.
Proof.
  intros [Ho|Ho].
  - split; [by apply calm_fork|]. destruct o as [X e x|]; [|done]. by destruct e.
  - destruct o as [X e x|]; [|by split; [left|]]. split; [done|]. by destruct e.
Qed.

Lemma on_obs_calm E o : on_obs rust_caller E o -> calm_obs o.
Proof. intros [[? _]|(ev & _ & Ho)]; [done|]. by eapply aside_calm, rust_caller_aside. Qed.

(** A plain run's wait. *)
Lemma discarding_settled handle out err tr r :
  child_stdout (child handle) = Some out -> child_stderr (child handle) = Some err ->
  exec (wait_discarding handle) tr r -> Forall (settled tr) tr.
Proof using D.
  intros Ho He Hex.
  assert (exists r', exec (os_wait handle (mkOutputSinks None None)) tr r') as [r' Hw].
  { apply exec_bind_inv in Hex as [[-> Hex]|(a & t1 & t2 & -> & Hex & Hk)]; [by exists None|].
    exists (Some a). destruct a as [[code|e]|p]; destruct Hk as [-> _]; by rewrite app_nil_r. }
  apply (wait_drains _ _ _ _ _ _ Ho He) in Hw. simpl in Hw.
  assert (forall tr o, dropping_obs o -> settled tr o) as Hd.
  { intros t o Hdo. destruct o as [X e x|]; [|done]. split; [done|]. by destruct e. }
  assert (forall tr p mk t, settled tr (ObsFork (drain_body p None mk) t)) as Hf.
  { intros tr0 p mk t. split; [|done]. right. unfold drain_body. all_obs_solve ltac:(done). }
  destruct Hw as [|rest rw Hr _ _|t1|t1 rest rw Hr _ _|t1 t2 rest rw Hr _ _];
    repeat (constructor; [apply Hf|]); try done; try (by eapply Forall_impl; [exact Hr|apply Hd]).
  eapply Forall_impl; [exact Hr|]. intros o Hj. destruct o as [X e x|]; [|done]. split; [done|].
  destruct e; try done. destruct Hj as [-> | ->]; eexists; [by left|by right; left].
Qed.

Lemma settled_more tr tr' o : (forall o, o ∈ tr -> o ∈ tr') -> settled tr o -> settled tr' o.
Proof.
  intros Hsub [Hf Ho]. split; [done|]. destruct o as [X e x|]; [|done]. destruct e; try done.
  destruct Ho as [b Hb]. exists b. by apply Hsub.
Qed.

(** Where the caller's thread stands, or tries to go. *)
Lemma main_stage task ch tr :
  exec (run_impl task rust_callback ch) tr None ->
  (forall cmd child, Obs (CommandSpawn cmd) (Ok child) ∈ tr ->
     cmd_stdout cmd = StdioPiped -> cmd_stderr cmd = StdioPiped ->
     child_stdout child = Some (mkPipe (child_id child) OutStream) /\
     child_stderr child = Some (mkPipe (child_id child) ErrStream)) ->
  Forall (settled tr) tr \/
  exists handle id lc lw w tr1 tr2,
    tr = tr1 ++ setup lc lw ++
      ObsFork (wait_body handle (mkOutputSinks (Some lc) (Some lc)) lw) (Some w) :: tr2 /\
    child_stdout (child handle) = Some (mkPipe id OutStream) /\
    child_stderr (child handle) = Some (mkPipe id ErrStream) /\
    Forall calm_obs tr1 /\ Forall (after_obs lc lw w) tr2.
Proof using D.
  intros Hex Hpipes.
  assert (forall E tr, Forall (on_obs rust_caller E) tr -> Forall calm_obs tr) as Hcalm
    by (intros; eapply Forall_impl; [done|apply on_obs_calm]).
  assert (forall tr' E tr, Forall (on_obs rust_caller E) tr -> Forall (settled tr') tr) as Hset.
  { intros tr' E tr0 Ht. eapply Forall_impl; [exact (Hcalm _ _ Ht)|]. intros o Ho. apply idle_settled. by left. }
  destruct (run_impl_view rust_callback rust_caller rust_callback_steps task ch _ _ Hex)
    as [H1|(handle & cmd & tr0 & tr1 & tr2 & tr3 & r2 & E & _ & Hs & Ho & He & H1 & Hw & H3)];
    [left; by eapply Hset|].
  destruct (Hpipes cmd (child handle)) as [Hout Herr]; [rewrite E; in_list|done|done|].
  unfold obtain in Hw. destruct (capture_output task).
  - apply wait_capturing_shape in Hw.
    destruct Hw as [tr2 r2 H2 _|lc lw w trp rp trt r2 Hp Ht _].
    + left. rewrite E. apply Forall_app; split; [by eapply Hset|]. apply Forall_app; split; [|by eapply Hset].
      eapply Forall_impl; [exact H2|]. intros o Hi. apply idle_settled. by right.
    + right. exists handle, (child_id (child handle)), lc, lw, w, tr1, (trp ++ trt ++ tr3).
      split_and!; [|done|done|by eapply Hcalm|].
      { rewrite E. unfold setup. simpl. by rewrite <- !app_assoc. }
      destruct (pump_view rust_callback rust_caller rust_callback_steps rust_caller_aside _ _ _ Hp) as [Hp' _].
      apply Forall_app; split; [eapply Forall_impl; [exact Hp'|by right; left]|].
      apply Forall_app; split; [eapply Forall_impl; [exact Ht|by right; right]|].
      eapply Forall_impl; [exact (Hcalm _ _ H3)|by left].
  - left. pose proof (discarding_settled _ _ _ _ _ Hout Herr Hw) as H2. rewrite E.
    apply Forall_app; split; [by eapply Hset|]. apply Forall_app; split; [|by eapply Hset].
    eapply Forall_impl; [exact H2|]. intros o. apply settled_more. intros o' Hin. in_list.
Qed.

Section Run.
Context (task : Task) (ch : option CancelHandle) (rest : list (prog unit)) (g : global W).
Context (c : config W (outcome (Result unit AerError.t))).
Hypothesis Hpiped : piped_children external.
Hypothesis Hbeside : Forall (fun p => all_obs aside_obs p /\ tidy p) rest.
Hypothesis Hl : log g = [].
Hypothesis Hn : forall m, holder (mutex_at (memory g) m) = None.
#[local] Abbreviation cstart := (capture_run rust_callback task ch rest g).
Hypothesis Hr : reachable cstart c.
Hypothesis Hstuck : stuck external c.

Lemma beside_aside : Forall (all_obs aside_obs) (others cstart).
Proof using Hbeside. eapply Forall_impl; [exact Hbeside|]. by intros p [? _]. Qed.

Lemma beside_leaf : Forall (all_obs leaf_obs) (others cstart).
Proof using Hbeside.
  eapply Forall_impl; [exact beside_aside|]. intros p Hp. eapply all_obs_impl; [apply aside_leaf|done].
Qed.

Lemma run_unlocked m : holder (mutex_at (memory (state c)) m) = None.
Proof using Htotal L D Hbeside Hl Hn Hr Hstuck.
  apply (stuck_unlocked external Htotal cstart c Hl Hr Hstuck); [| |done].
  - apply tidy_run. intros ev. unfold rust_callback. all_obs_solve ltac:(done).
  - eapply Forall_impl; [exact Hbeside|]. by intros p [_ ?].
Qed.

(** Whatever the caller's thread has done, the others have ended. *)
Lemma others_ended : Forall returned (others c).
Proof using Htotal L D Hpiped Hbeside Hl Hn Hr Hstuck.
  pose proof (main_exec external cstart c Hl Hr) as Hex.
  destruct (main_stage task ch _ Hex) as [Hs|(handle & id & lc & lw & w & tr1 & tr2 & E & Hout & Herr & H1 & H2)].
  - intros cmd child Hin. apply (spawned_pipes external Hpiped cstart c cmd child Hl Hr). by apply elem_of_own.
  - apply (leaves_return cstart c Hl Hr Hstuck run_unlocked beside_leaf).
    eapply Forall_impl; [exact Hs|]. by intros o [? _].
  - eapply (crew_all_return cstart c Hl Hr beside_aside Hstuck run_unlocked handle id Hout Herr lc lw w tr1 tr2 E H1).
    eapply Forall_impl; [exact H2|apply after_later].
Qed.

(** The caller's thread is not waiting for anything. *)
Lemma settled_unblocked tr o :
  own 0%nat (log (state c)) = tr -> settled (tr ++ [o]) o ->
  ~ blocked_on (finished c) (memory (state c)) o.
Proof using Htotal L D Hpiped Hbeside Hl Hn Hr Hstuck.
  intros E [_ Ho] Hb. destruct o as [X e x|]; [|done].
  destruct e; try done; simpl in Hb; [by rewrite run_unlocked in Hb|].
  apply Hb. destruct Ho as [b Ho]. apply elem_of_app in Ho as [Ho|?%list_elem_of_singleton]; [|done].
  apply (born_finished cstart c Hl Hr 0%nat b); [apply others_ended|]. apply elem_of_own. by rewrite E.
Qed.

Lemma after_unblocked handle id lc lw w tr1 tr2 o :
  own 0%nat (log (state c)) = tr1 ++ setup lc lw ++
    ObsFork (wait_body handle (mkOutputSinks (Some lc) (Some lc)) lw) (Some w) :: tr2 ->
  child_stdout (child handle) = Some (mkPipe id OutStream) ->
  child_stderr (child handle) = Some (mkPipe id ErrStream) ->
  Forall calm_obs tr1 -> Forall (after_obs lc lw w) tr2 -> after_obs lc lw w o ->
  ~ blocked_on (finished c) (memory (state c)) o.
Proof using Htotal L D Hbeside Hl Hn Hr Hstuck.
  intros E Hout Herr H1 H2 Ho Hb. pose proof beside_aside as Hrest. pose proof run_unlocked as Hfree.
  assert (Forall (later_obs lc) tr2) as H2' by (eapply Forall_impl; [exact H2|apply after_later]).
  destruct (crew_returns cstart c Hl Hr Hstuck Hfree handle id Hout Herr lc lw w tr1 tr2 E)
    as (T & HT & Hg & Hd & Hw).
  destruct o as [X e x|]; [|done].
  destruct Ho as [Ho|[Ho|Ho]]; destruct e; try done; simpl in Ho, Hb; try (by rewrite Hfree in Hb).
  - apply Hb. rewrite Ho.
    by apply (senders_gone cstart c Hl Hr Hrest Hstuck Hfree handle id lc lw w tr1 tr2 E H1 H2' T HT).
  - apply Hb. rewrite Ho.
    by apply (reporter_gone cstart c Hl Hr Hrest handle id lc lw w tr1 tr2 E H1 H2' T HT).
  - subst. by destruct Hb.
Qed.

Lemma main_unblocked o :
  exec (main cstart) (own 0%nat (log (state c)) ++ [o]) None ->
  ~ blocked_on (finished c) (memory (state c)) o.
Proof using Htotal L D Hpiped Hbeside Hl Hn Hr Hstuck.
  intros Hex Hb. destruct (main_stage task ch _ Hex)
    as [Hs|(handle & id & lc & lw & w & tr1 & tr2 & E & Hout & Herr & H1 & H2)].
  - intros cmd child [Hin|<-%list_elem_of_singleton]%elem_of_app; [|done].
    apply (spawned_pipes external Hpiped cstart c cmd child Hl Hr). by apply elem_of_own.
  - apply Forall_app in Hs as [_ Hlast]. rewrite Forall_singleton in Hlast.
    by eapply settled_unblocked.
  - destruct tr2 as [|o2 tr2 _] using rev_ind.
    { rewrite !app_assoc in E. apply app_inj_tail in E as [_ ->]. done. }
    rewrite !app_comm_cons, !app_assoc in E. apply app_inj_tail in E as [E <-].
    rewrite <- !app_assoc in E. apply Forall_app in H2 as [H2 Hlast]. rewrite Forall_singleton in Hlast.
    by eapply after_unblocked.
Qed.
End Run.

(** ** The property *)

(** C8: Every configuration of a run, capturing or not, beside threads that leave
    its output alone and keep the lock discipline (cancels, say), in which no
    thread can take a step, is a finished one: the run has returned, and so
    have its wait thread, drain threads and timeout monitor and the threads
    beside it. Calls to the system and the callback are assumed to return. *)
Theorem run_progress task ch rest g c :
  piped_children external ->
  Forall (fun p => all_obs aside_obs p /\ tidy p) rest ->
  log g = [] -> (forall m, holder (mutex_at (memory g) m) = None) ->
  reachable (capture_run rust_callback task ch rest g) c -> stuck external c ->
  returned (main c) /\ Forall returned (others c).
Proof using Htotal L D.
  intros Hpiped Hbeside Hl Hn Hr Hstuck. split; [|by eapply others_ended].
  destruct (main_halts external Htotal (capture_run rust_callback task ch rest g) c Hl Hr Hstuck) as [[a Ha]|(o & Ho & Hex)]; [by rewrite Ha|].
  by eapply main_unblocked in Ho.
Qed.
End Progress.
