(* ===== verification/Kills.v ===== *)
(** * Who has killed the process

    What a thread's own steps say about kills: the steps that kill, a kill of
    the tree before the thread has waited for the child, and the kill of a
    cancel, carried out to its end; what task.rs relies on from a platform for
    that ([OsKills]), which both backends satisfy; and what it makes of the
    complete steps of [cancel] and of [run_impl]. *)

From Stdlib Require Import ZArith.
From stdpp Require Import base numbers list strings gmap.
From S2P Require Import Prelude Core Machine Sys Prog Os Windows Unix Task Run Blocks.

Open Scope Z_scope.

(** ** Kill steps *)

(** A step that signals or terminates a process or a tree of them; signal 0
    only asks whether it is there. *)
Definition kill_step (o : obs) : Prop :=
  match o with
  | Obs e _ =>
      match e with
      | Killpg _ sig | Kill _ sig => sig <> 0
      | TerminateJobObject _ _ | ChildKill _ => True
      | _ => False
      end
  | ObsFork _ _ => False
  end.

Definition waits (o : obs) : Prop :=
  match o with
  | Obs e _ => match e with ChildWait _ => True | _ => False end
  | ObsFork _ _ => False
  end.

(** A thread with these steps has killed a process it had not waited for. *)
Definition struck (tr : list obs) : Prop :=
  exists tr1 o tr2, tr = tr1 ++ o :: tr2 /\ kill_step o /\ Forall (fun o => ~ waits o) tr1.

(** It has waited for the child before every kill. *)
Definition orderly (tr : list obs) : Prop :=
  forall tr1 o tr2, tr = tr1 ++ o :: tr2 -> kill_step o -> Exists waits tr1.

Definition spares (tr : list obs) : Prop := Forall (fun o => ~ kill_step o) tr.

Lemma orderly_struck tr : orderly tr -> ~ struck tr.
Proof.
  intros Ho (tr1 & o & tr2 & -> & Hk & Hn). pose proof (Ho _ _ _ eq_refl Hk) as Hw.
  apply Exists_exists in Hw as (w & Hw & Hww). rewrite Forall_forall in Hn. by apply (Hn w).
Qed.

Lemma orderly_spares tr : spares tr -> orderly tr.
Proof.
  intros Hs tr1 o tr2 -> Hk. apply Forall_app in Hs as [_ [Hn _]%Forall_cons]. done.
Qed.

Lemma orderly_app tr tr' : orderly tr -> orderly tr' -> orderly (tr ++ tr').
Proof.
  intros H H' tr1 o tr2 E Hk. apply app_eq_inv in E as [(l & -> & E)|(l & -> & ->)].
  - destruct l as [|o' l]; simpl in E.
    + pose proof (H' [] o tr2 (eq_sym E) Hk) as Hw. by apply Exists_nil in Hw.
    + injection E as <- ->. by apply (H tr1 o l).
  - apply Exists_app. right. by apply (H' l o tr2).
Qed.

(** Once the child was waited for, anything goes. *)
Lemma orderly_waited tr o tr' : orderly tr -> waits o -> orderly (tr ++ o :: tr').
Proof.
  intros H Hw tr1 o' tr2 E Hk. apply app_eq_inv in E as [(l & -> & E)|(l & -> & E)].
  - destruct l as [|o1 l]; simpl in E; [|injection E as <- ->; by apply (H tr1 o' l)].
    injection E as <- ->. by destruct o' as [X []|].
  - apply Exists_app. right. destruct l as [|o1 l]; simpl in E; injection E as <- _.
    + by destruct o as [X []|].
    + by left.
Qed.

(** ** The platform *)

Class OsKills (P : OsProcess) : Prop := {
  os_spawn_spares program args options tr handle :
    exec (os_spawn program args options) tr (Some (Ok handle)) -> spares tr;
  os_alive_spares kill tr r : exec (os_tree_alive kill) tr r -> spares tr;
  os_wait_waits handle sinks tr r : exec (os_wait handle sinks) tr (Some r) -> orderly tr;
  os_kill_strikes kill grace tr r :
    exec (os_kill_escalating kill grace) tr (Some r) -> Exists kill_step tr
}.

Lemma spares_all {A} (p : prog A) tr r :
  all_obs (fun o => ~ kill_step o) p -> exec p tr r -> spares tr.
Proof. intros Hp. apply Hp. Qed.

Lemma drain_spares pipe tx mk tr r : exec (drain_pipe pipe tx mk) tr r -> spares tr.
Proof.
  apply spares_all. unfold drain_pipe, spawn_drain_thread, thread_spawn, drop_sink.
  all_obs_solve ltac:(by intros ?).
Qed.

(** Both backends start the drains, and then wait for the child. *)
Lemma wait_waits pipe1 pipe2 tx1 tx2 pid tr r
    (rest : option tid -> option tid -> Result ExitStatus io_Error -> prog (outcome (Result Z AerError.t)))
    (fail1 fail2 : payload -> prog (outcome (Result Z AerError.t))) :
  (forall p, all_obs (fun o => ~ kill_step o) (fail1 p)) ->
  (forall p, all_obs (fun o => ~ kill_step o) (fail2 p)) ->
  exec (let! t1 := drain_pipe pipe1 tx1 ChunkMsg.Stdout in
        match t1 with
        | Panic p => fail1 p
        | Val t1 =>
            let! t2 := drain_pipe pipe2 tx2 ChunkMsg.Stderr in
            match t2 with
            | Panic p => fail2 p
            | Val t2 => let! wait_res := do_act (ChildWait pid) in rest t1 t2 wait_res
            end
        end) tr (Some r) ->
  orderly tr.
Proof.
  intros Hf1 Hf2 (o1 & tr1 & tr2 & -> & H1%drain_spares & H)%exec_bind_Some.
  apply orderly_spares in H1. destruct o1 as [t1|p].
  2: { apply orderly_app; [done|]. by eapply orderly_spares, (spares_all (fail1 p)). }
  apply exec_bind_Some in H as (o2 & tr3 & tr4 & -> & H2%drain_spares & H).
  apply orderly_spares in H2. rewrite app_assoc. assert (orderly (tr1 ++ tr3)) by by apply orderly_app.
  destruct o2 as [t2|p].
  2: { apply orderly_app; [done|]. by eapply orderly_spares, (spares_all (fail2 p)). }
  apply exec_act_Some in H as (wait_res & tr5 & -> & _). by apply orderly_waited.
Qed.

#[export] Instance UnixKills : OsKills UnixProcess.
Proof.
  split; simpl.
  - intros program args options tr handle. apply spares_all. unfold spawn.
    all_obs_solve ltac:(by intros ?).
  - intros kill tr r. apply spares_all. unfold tree_alive. all_obs_solve ltac:(simpl; by intros ?).
  - intros handle sinks tr r. unfold wait. cbv zeta. apply wait_waits; intros p; unfold drop_sink;
      all_obs_solve ltac:(by intros ?).
  - intros kill grace tr r (r1 & tr1 & tr2 & -> & H & _)%exec_bind_Some.
    apply exec_act_Some in H as (x & tr3 & -> & _). by left.
Qed.

#[export] Instance WindowsKills : OsKills WindowsProcess.
Proof.
  split; simpl.
  - intros program args options tr handle
      (job & err0 & arc & r & child & r' & _ & _ & _ & -> & _)%win_spawn_success.
    by repeat (constructor; [by intros ?|]).
  - intros kill tr r. apply spares_all. unfold Windows.tree_alive. all_obs_solve ltac:(by intros ?).
  - intros handle sinks tr r. unfold Windows.wait. cbv zeta. apply wait_waits; intros p; unfold drop_sink;
      all_obs_solve ltac:(by intros ?).
  - intros kill grace tr r (x & tr3 & -> & _)%exec_act_Some. by left.
Qed.

(** A result the wait thread may report. *)
Definition wait_ok (r : Result Z AerError.t) : Prop :=
  match r with
  | Ok _ => True
  | Err e => exists io, e = AerError.WaitFailed io
  end.

(** ** The kill of a cancel *)

Section Cancel.
Context `{P : OsProcess} {L : OsProcessLaws P} {K : OsKills P}.
Variable ch : CancelHandle.

(** The store of [kill_fired]. *)
Definition fires : obs := Obs (Store (kill_fired ch) true) tt.

(** After it, the kill of the tree of [k], to its end. *)
Definition carried (k : KillHandle) (tr : list obs) : Prop :=
  exists tr1 kills r tr2, tr = tr1 ++ fires :: clone_trace k ++ kills ++ tr2 /\
    exec (os_kill_escalating k KILL_GRACE) kills (Some r) /\ Exists kill_step kills.

(** The run saw the request and no kill, but found the tree dead. *)
Definition found_dead (k : KillHandle) (tr : list obs) : Prop :=
  exists tr1 probe tr2,
    tr = tr1 ++ Obs (Load (cancelled ch)) true :: Obs (Load (kill_fired ch)) false :: probe ++ tr2 /\
    exec (os_tree_alive k) probe (Some false).

(** [k] was in the slot. *)
Definition aimed (k : KillHandle) (tr : list obs) : Prop :=
  Obs (GetSlot (kill_slot ch)) (Some k) ∈ tr \/
  exists old, Obs (SetSlot (kill_slot ch) (Some k)) old ∈ tr.

(** What the steps of the run's own thread have to satisfy. *)
Record proper (tr : list obs) : Prop := {
  (** A kill before the wait comes with the flag. *)
  proper_excused : fires ∈ tr \/ orderly tr;
  (** The flag comes with the kill. *)
  proper_kept : fires ∈ tr -> exists k, carried k tr /\ aimed k tr;
  (** A request that was seen is carried out, unless its kill was fired already
      or the tree is dead. *)
  proper_seen : Obs (Load (cancelled ch)) true ∈ tr ->
    Obs (Load (kill_fired ch)) true ∈ tr \/
    exists k, aimed k tr /\ (carried k tr \/ found_dead k tr)
}.

(** A step that concerns none of this. *)
Definition idle (o : obs) : Prop :=
  match o with
  | Obs e x =>
      match e in act X return X -> Prop with
      | Killpg _ sig | Kill _ sig => fun _ => sig = 0
      | TerminateJobObject _ _ | ChildKill _ => fun _ => False
      | Store l b => fun _ => l <> kill_fired ch \/ b = false
      | Load l => fun b => l <> cancelled ch \/ b = false
      | _ => fun _ => True
      end x
  | ObsFork _ _ => True
  end.

(** A flag made on the way is not the handle's, and the wait thread reports no
    error but its own. *)
Definition clean (o : obs) : Prop :=
  match o with
  | Obs e x =>
      match e in act X return X -> Prop with
      | NewFlag _ => fun l => l <> cancelled ch
      | @Recv ty _ =>
          match ty return option (msg ty) -> Prop with
          | TyWait => fun v => forall r, v = Some r -> wait_ok r
          | TyUnit | TyChunk => fun _ => True
          end
      | _ => fun _ => True
      end x
  | ObsFork _ _ => True
  end.

(** The complete runs of [p] are proper, and end with an answer in [Q]. *)
Definition full {A} (p : prog A) (Q : A -> Prop) : Prop :=
  forall tr a, exec p tr (Some a) -> Forall clean tr -> proper tr /\ Q a.

(** *** Lemmas *)

Lemma carried_inside k a tr b : carried k tr -> carried k (a ++ tr ++ b).
Proof.
  intros (tr1 & kills & r & tr2 & -> & Hk). exists (a ++ tr1), kills, r, (tr2 ++ b).
  split; [|done]. by rewrite <- !app_assoc, <- app_comm_cons, <- !app_assoc.
Qed.

Lemma found_inside k a tr b : found_dead k tr -> found_dead k (a ++ tr ++ b).
Proof.
  intros (tr1 & probe & tr2 & -> & Hk). exists (a ++ tr1), probe, (tr2 ++ b).
  split; [|done]. by rewrite <- !app_assoc, <- !app_comm_cons, <- !app_assoc.
Qed.

Lemma aimed_sub k tr tr' : tr ⊆ tr' -> aimed k tr -> aimed k tr'.
Proof. intros Hs [H|[old H]]; [left; by apply Hs|right; exists old; by apply Hs]. Qed.

Lemma proper_nil : proper [].
Proof.
  split; [right; apply orderly_spares; by constructor|by intros ?%elem_of_nil|by intros ?%elem_of_nil].
Qed.

Lemma proper_app tr tr' : proper tr -> proper tr' -> proper (tr ++ tr').
Proof.
  assert (forall k, carried k tr \/ carried k tr' -> carried k (tr ++ tr')) as Hc.
  { intros k [H|H]; [apply (carried_inside k []), H|].
    apply (carried_inside k tr _ []) in H. by rewrite app_nil_r in H. }
  assert (forall k, found_dead k tr \/ found_dead k tr' -> found_dead k (tr ++ tr')) as Hd.
  { intros k [H|H]; [apply (found_inside k []), H|].
    apply (found_inside k tr _ []) in H. by rewrite app_nil_r in H. }
  assert (forall k, aimed k tr \/ aimed k tr' -> aimed k (tr ++ tr')) as Ha.
  { intros k [H|H]; eapply aimed_sub; try exact H; intros o ?; apply elem_of_app; auto. }
  intros [E1 K1 S1] [E2 K2 S2]. split.
  - destruct E1, E2; [left..|right; by apply orderly_app]; apply elem_of_app; auto.
  - intros [H|H]%elem_of_app; [destruct (K1 H) as (k & ? & ?)|destruct (K2 H) as (k & ? & ?)];
      exists k; auto.
  - intros [H|H]%elem_of_app; [destruct (S1 H) as [?|(k & ? & [?|?])]|destruct (S2 H) as [?|(k & ? & [?|?])]];
      rewrite elem_of_app; auto; right; exists k; auto.
Qed.

Lemma idle_spares tr : Forall idle tr -> spares tr.
Proof.
  intros Hi. eapply Forall_impl; [exact Hi|]. intros [X e x|] Ho Hk; [|done].
  destruct e; simpl in *; congruence.
Qed.

Lemma idle_unfired tr : Forall idle tr -> fires ∉ tr.
Proof. intros Hi Ho. rewrite Forall_forall in Hi. by destruct (Hi _ Ho). Qed.

Lemma proper_idle tr : Forall idle tr -> proper tr.
Proof.
  intros Hi. split.
  - right. by apply orderly_spares, idle_spares.
  - by intros ?%idle_unfired.
  - intros Ho. rewrite Forall_forall in Hi. by destruct (Hi _ Ho).
Qed.

(** The steps of the platform, where it keeps to the order. *)
Lemma proper_os tr : Forall os_obs tr -> orderly tr -> proper tr.
Proof.
  intros Ho Hord. rewrite Forall_forall in Ho. split; [by right| |]; intros Hin; by specialize (Ho _ Hin).
Qed.

Lemma os_idle tr : Forall os_obs tr -> spares tr -> Forall idle tr.
Proof.
  intros Ho Hs. apply Forall_forall. intros o Hin. rewrite Forall_forall in Ho.
  specialize (Ho o Hin). unfold spares in Hs. rewrite Forall_forall in Hs. specialize (Hs o Hin).
  destruct o as [X e x|]; [|done]. destruct e; simpl in *; try done;
    match goal with H : ~ (?n <> 0) |- _ => destruct (Z.eq_dec n 0); tauto end.
Qed.

(** *** Programs *)

Lemma full_ret {A} (a : A) (Q : A -> Prop) : Q a -> full (Ret a) Q.
Proof. intros HQ tr a' [-> ->]%exec_ret_Some _. split; [apply proper_nil|done]. Qed.

Lemma full_bind {A B} (p : prog A) (f : A -> prog B) R Q :
  full p R -> (forall a, R a -> full (f a) Q) -> full (bind p f) Q.
Proof.
  intros Hp Hf tr b (a & tr1 & tr2 & -> & H1 & H2)%exec_bind_Some [Hc1 Hc2]%Forall_app.
  destruct (Hp _ _ H1 Hc1) as [Hm1 HR]. destruct (Hf a HR _ _ H2 Hc2) as [Hm2 HQ].
  split; [by apply proper_app|done].
Qed.

Lemma full_mono {A} (p : prog A) (Q Q' : A -> Prop) : (forall a, Q a -> Q' a) -> full p Q -> full p Q'.
Proof. intros HQ Hp tr a Hex Hc. destruct (Hp _ _ Hex Hc). auto. Qed.

Lemma full_act {A X} (e : act X) (k : X -> prog A) Q :
  (forall x, clean (Obs e x) -> idle (Obs e x) /\ full (k x) Q) -> full (bind (do_act e) k) Q.
Proof.
  intros Hk. apply full_bind with (R := fun x => clean (Obs e x)); [|by intros x Hx; apply Hk].
  intros tr x ->%exec_do_act_Some [Hc _]%Forall_cons. split; [|done].
  apply proper_idle. constructor; [by apply Hk|constructor].
Qed.

Lemma full_do {X} (e : act X) (Q : X -> Prop) :
  (forall x, clean (Obs e x) -> idle (Obs e x) /\ Q x) -> full (do_act e) Q.
Proof.
  intros HQ. apply (full_act e Ret). intros x Hx. destruct (HQ x Hx).
  split; [done|by apply full_ret].
Qed.

Lemma full_idle {A} (p : prog A) (Q : A -> Prop) :
  all_obs idle p -> (forall a, Q a) -> full p Q.
Proof. intros Hp HQ tr a Hex _. split; [by apply proper_idle, (Hp _ _ Hex)|done]. Qed.

Lemma full_iter {I R} (body : I -> prog (I + R)) i :
  (forall i, full (body i) (fun _ => True)) -> full (iter body i) (fun _ => True).
Proof.
  intros Hb tr a Hex Hc. split; [|done]. unfold iter in Hex. simpl in Hex.
  remember (Some a) as o eqn:Ho. induction Hex as [i tr Hex|i i' tr tr' r Hex _ IH|i x tr tr' r Hex [-> _]];
    [done| |].
  - apply Forall_app in Hc as [Hc1 Hc2]. destruct (Hb i _ _ Hex Hc1). apply proper_app; auto.
  - apply Forall_app in Hc as [Hc1 _]. destruct (Hb i _ _ Hex Hc1).
    by apply proper_app; [|apply proper_nil].
Qed.

Lemma full_alive k (Q : bool -> Prop) : (forall b, Q b) -> full (os_tree_alive k) Q.
Proof using L K.
  intros HQ tr b Hex _. split; [|done].
  apply proper_idle, os_idle; [exact (os_alive_obs _ _ _ Hex)|by eapply os_alive_spares].
Qed.

Lemma arc_idle o : arc_obs o -> idle o.
Proof. by destruct o as [X []|]. Qed.

Lemma full_arc {A} (p : prog A) (Q : A -> Prop) : all_obs arc_obs p -> (forall a, Q a) -> full p Q.
Proof. intros Hp. apply full_idle. eapply all_obs_impl; [exact arc_idle|done]. Qed.

(** *** cancel and wire_cancel *)

Lemma clone_idle k : Forall idle (clone_trace k).
Proof. destruct k; by repeat constructor. Qed.

Lemma drop_idle v last : Forall idle (drop_opt_trace v last).
Proof. destruct v as [[]|]; [by constructor| |by constructor]. destruct last; by repeat constructor. Qed.

Lemma alive_idle k tr r : exec (os_tree_alive k) tr r -> Forall idle tr.
Proof using L K.
  intros Hex. apply os_idle; [exact (os_alive_obs _ _ _ Hex)|by eapply os_alive_spares].
Qed.

(** A kill that is carried out, after steps that concern none of this. *)
Lemma proper_carried k tr1 kills r tr2 :
  aimed k (tr1 ++ fires :: clone_trace k ++ kills ++ tr2) ->
  exec (os_kill_escalating k KILL_GRACE) kills (Some r) ->
  proper (tr1 ++ fires :: clone_trace k ++ kills ++ tr2).
Proof using K.
  intros Ha Hk.
  assert (carried k (tr1 ++ fires :: clone_trace k ++ kills ++ tr2)) as Hc.
  { exists tr1, kills, r, tr2. split_and!; [done|done|by eapply os_kill_strikes]. }
  split.
  - left. apply elem_of_app. right. by left.
  - intros _. by exists k.
  - intros _. right. exists k. by split; [|left].
Qed.

Lemma full_cancel (Q : unit -> Prop) : Q tt -> full (cancel ch) Q.
Proof using L K.
  intros HQ tr [] Ht%cancel_exec _. split; [|done].
  destruct Ht as [| | |k probe Hp|k probe kills r Hp Hk].
  - apply proper_idle. by repeat constructor.
  - apply proper_idle. by repeat constructor.
  - apply proper_idle. by repeat constructor.
  - apply proper_idle. repeat (constructor; [done|]). apply Forall_app. split; [by eapply alive_idle|].
    by repeat constructor.
  - refine (proper_carried k (_ :: _ :: _ :: probe) kills r [_] _ Hk). left. do 2 right. by left.
Qed.

Lemma full_wire kill (Q : unit -> Prop) : Q tt -> full (wire_cancel (Some ch) kill) Q.
Proof using L K.
  intros HQ tr [] (poisoned & old & last & late & -> & Hl)%wire_cancel_exec _. split; [|done].
  assert (Forall idle (clone_trace kill ++ set_kill_trace ch poisoned (Some kill) old last)) as Hi.
  { apply Forall_app. split; [apply clone_idle|]. repeat (constructor; [done|]).
    apply Forall_app. split; [apply drop_idle|by repeat constructor]. }
  rewrite app_assoc.
  assert (aimed kill (clone_trace kill ++ set_kill_trace ch poisoned (Some kill) old last)) as Ha.
  { right. exists old. apply elem_of_app. right. right. by left. }
  revert Hi Ha. generalize (clone_trace kill ++ set_kill_trace ch poisoned (Some kill) old last).
  intros pre Hi Ha.
  assert (forall tr', aimed kill (pre ++ tr')) as Ha'.
  { intros tr'. eapply aimed_sub; [|exact Ha]. intros o ?. apply elem_of_app. by left. }
  destruct Hl as [| |probe Hp|probe kills r Hp Hk].
  - apply proper_idle, Forall_app. split; [done|]. constructor; [by right|constructor].
  - apply proper_app; [by apply proper_idle|]. split.
    + right. apply orderly_spares. repeat (constructor; [by intros ?|]). constructor.
    + intros Ho. by repeat (apply elem_of_cons in Ho as [Ho|Ho]; [done|]); apply elem_of_nil in Ho.
    + intros _. left. right. by left.
  - apply alive_idle in Hp as Hpi. split.
    + right. apply orderly_app; [by apply orderly_spares, idle_spares|].
      apply orderly_spares. repeat (constructor; [by intros ?|]). by apply idle_spares.
    + intros [Ho|Ho]%elem_of_app; [by apply idle_unfired in Ho|].
      do 2 (apply elem_of_cons in Ho as [?|Ho]; [done|]). by apply idle_unfired in Ho.
    + intros _. right. exists kill. split; [apply Ha'|]. right.
      exists pre, probe, []. by rewrite app_nil_r.
  - assert (pre ++ Obs (Load (cancelled ch)) true :: Obs (Load (kill_fired ch)) false :: probe ++
        Obs (Store (kill_fired ch) true) tt :: clone_trace kill ++ kills =
      (pre ++ Obs (Load (cancelled ch)) true :: Obs (Load (kill_fired ch)) false :: probe) ++
        fires :: clone_trace kill ++ kills ++ []) as ->.
    { rewrite app_nil_r, <- app_assoc. done. }
    eapply proper_carried; [|done]. rewrite <- app_assoc. apply Ha'.
Qed.

(** *** Another thread in [cancel] *)

(** Its steps up to some moment: no kill without the flag; with the mutex
    released, the kill is carried out; and no kill where the slot was empty. *)
Record candid (tr : list obs) : Prop := {
  candid_spares : fires ∈ tr \/ spares tr;
  candid_carried : fires ∈ tr -> Obs (Unlock (kill_slot ch)) tt ∈ tr ->
    exists k, carried k tr /\ Obs (GetSlot (kill_slot ch)) (Some k) ∈ tr;
  candid_empty : Obs (GetSlot (kill_slot ch)) None ∈ tr -> fires ∉ tr
}.

(** A step that is neither a kill nor one on the handle. *)
Definition quiet (o : obs) : Prop :=
  match o with
  | Obs e _ =>
      match e with
      | Killpg _ _ | Kill _ _ | TerminateJobObject _ _ | ChildKill _ => False
      | Store l _ => l <> kill_fired ch
      | Unlock _ | GetSlot _ => False
      | _ => True
      end
  | ObsFork _ _ => True
  end.

(** What a look at a slot found. *)
Definition found (o : obs) : option KillHandle :=
  match o with
  | Obs e x =>
      match e in act X return X -> option KillHandle with
      | GetSlot _ => fun v => v
      | _ => fun _ => None
      end x
  | ObsFork _ _ => None
  end.

Definition unfired (tr : list obs) : Prop := spares tr /\ fires ∉ tr.

Definition firing (tr : list obs) : Prop :=
  fires ∈ tr /\ (Obs (GetSlot (kill_slot ch)) None ∉ tr) /\ (Obs (Unlock (kill_slot ch)) tt ∉ tr).

Lemma unfired_candid tr : unfired tr -> candid tr.
Proof. intros [? ?]. split; [by right|by intros ?|done]. Qed.

Lemma firing_candid tr : firing tr -> candid tr.
Proof. intros (? & ? & ?). split; [by left|by intros _ ?|by intros ?]. Qed.

Lemma unfired_app tr tr' : unfired tr -> unfired tr' -> unfired (tr ++ tr').
Proof.
  intros [? ?] [? ?]. split; [by apply Forall_app|]. intros [?|?]%elem_of_app; done.
Qed.

Lemma unfired_one o : ~ kill_step o -> o <> fires -> unfired [o].
Proof. intros Hk Ho. split; [by constructor|]. by intros <-%list_elem_of_singleton. Qed.

Lemma firing_os tr tr' : firing tr -> Forall os_obs tr' -> firing (tr ++ tr').
Proof.
  intros (? & ? & ?) Ho. rewrite Forall_forall in Ho. unfold firing.
  rewrite !elem_of_app. split_and!; [by left|intros [?|Hin]|intros [?|Hin]]; try done; by apply Ho in Hin.
Qed.

Lemma unfired_os tr : Forall os_obs tr -> spares tr -> unfired tr.
Proof. intros Ho Hs. split; [done|]. intros Hin. rewrite Forall_forall in Ho. by apply Ho in Hin. Qed.

Lemma candid_quiet tr1 tr tr2 :
  Forall quiet tr1 -> Forall quiet tr2 -> candid tr -> candid (tr1 ++ tr ++ tr2).
Proof.
  intros H1 H2 [Hs Hc He]. rewrite Forall_forall in H1, H2.
  assert (forall o, ~ quiet o -> (o ∈ tr1 ++ tr ++ tr2) -> o ∈ tr) as Hin.
  { intros o Ho. rewrite !elem_of_app. intros [Hi|[?|Hi]]; [by apply H1 in Hi|done|by apply H2 in Hi]. }
  assert (forall l, (forall o, (o ∈ l) -> quiet o) -> spares l) as Hq.
  { intros l Hl. apply Forall_forall. intros [X e x|] Hi Hk; [|done]. apply Hl in Hi. by destruct e. }
  split.
  - destruct Hs as [?|?]; [left; rewrite !elem_of_app; auto|right].
    apply Forall_app. split; [by apply Hq|]. apply Forall_app. split; [done|by apply Hq].
  - intros Hf%Hin Hu%Hin; [|by intros ?..]. destruct (Hc Hf Hu) as (k & Hk & Hg). exists k.
    split; [by apply carried_inside|]. rewrite !elem_of_app. auto.
  - intros Hg%Hin Hf%Hin; [by apply (He Hg)|by intros ?..].
Qed.

(** From the store of the flag to the release of the mutex. *)
Lemma firing_wp k h :
  unfired h -> (Obs (GetSlot (kill_slot ch)) None ∉ h) -> (Obs (Unlock (kill_slot ch)) tt ∉ h) ->
  Obs (GetSlot (kill_slot ch)) (Some k) ∈ h ->
  wp (do_act (Store (kill_fired ch) true) ;;; kill_clone k ;;; os_kill_escalating k KILL_GRACE ;;; Ret tt)
    candid (fun _ => wp (do_act (Unlock (kill_slot ch))) candid (fun _ => candid)) h.
Proof using L K.
  intros Hh Hn Hu Hg. wp_step; [by apply unfired_candid|]. destruct x.
  assert (firing (h ++ [fires])) as Hf.
  { split; [by apply elem_of_app; right; left|]. rewrite !elem_of_app.
    split; intros [?|Hin%list_elem_of_singleton]; done. }
  apply wp_bind. intros tr [[]|] Hex; pose proof (kill_clone_obs k _ _ Hex) as Ho;
    [|by apply firing_candid, firing_os]. apply kill_clone_exec in Hex as ->.
  apply wp_bind. intros kills [r|] Hex; pose proof (os_kill_obs _ _ _ _ Hex) as Ho';
    [|by apply firing_candid, firing_os; [apply firing_os|]].
  assert (firing (((h ++ [fires]) ++ clone_trace k) ++ kills)) as (Hf1 & Hf2 & Hf3)
    by by apply firing_os; [apply firing_os|].
  wp_step; [by apply firing_candid|]. intros tr r' [[-> ->]|([] & tr' & -> & [-> Hr'])].
  { rewrite app_nil_r. by apply firing_candid. }
  assert (candid ((((h ++ [fires]) ++ clone_trace k) ++ kills) ++ [Obs (Unlock (kill_slot ch)) tt]))
    as Hc; [|by destruct Hr' as [-> | ->]].
  split.
  - left. apply elem_of_app. by left.
  - intros _ _. exists k. split; [|rewrite !elem_of_app; auto]. exists h, kills, r, [Obs (Unlock (kill_slot ch)) tt].
    rewrite <- !app_assoc. split_and!; [done|done|by eapply os_kill_strikes].
  - rewrite elem_of_app. by intros [?|?%list_elem_of_singleton].
Qed.

Lemma cancel_wp : wp (cancel ch) candid (fun _ => candid) [].
Proof using L K.
  assert (forall tr o, unfired tr -> ~ kill_step o -> o <> fires -> unfired (tr ++ [o])) as Hone.
  { intros tr o Hu Hk Ho. apply unfired_app; [done|by apply unfired_one]. }
  assert (unfired []) as H0 by (by split; [constructor|intros ?%elem_of_nil]).
  assert (forall h, unfired h -> wp (do_act (Unlock (kill_slot ch))) candid (fun _ => candid) h) as Hend.
  { intros h Hh. wp_step; [by apply unfired_candid|..]; destruct x; apply unfired_candid;
      (apply Hone; [done|by intros ?..]). }
  unfold cancel. wp_step; [by apply unfired_candid|].
  assert (unfired ([] ++ [Obs (Swap (cancelled ch) true) x])) as H1 by (apply Hone; [done|by intros ?..]).
  destruct x; simpl; [wp_step; by apply unfired_candid|].
  wp_step; [by apply unfired_candid|]. apply Hone with (o := Obs (Lock (kill_slot ch)) x) in H1; [|by intros ?..].
  apply wp_bind. destruct x; simpl; [wp_step; [by apply unfired_candid|by apply Hend]|].
  wp_step; [by apply unfired_candid|].
  apply Hone with (o := Obs (GetSlot (kill_slot ch)) x) in H1; [|by intros ?..].
  destruct x as [k|]; [|wp_step; [by apply unfired_candid|by apply Hend]].
  apply wp_bind. intros tr alive Hex. pose proof (os_alive_obs _ _ _ Hex) as Ho.
  simpl in H1. simpl app. apply unfired_app with (tr' := tr) in H1;
    [|apply unfired_os; [done|by eapply os_alive_spares]].
  destruct alive as [[]|]; [|wp_step; [by apply unfired_candid|by apply Hend]|by apply unfired_candid].
  rewrite Forall_forall in Ho. apply firing_wp; [done|..].
  - intros Hin. do 2 (apply elem_of_cons in Hin as [?|Hin]; [done|]).
    apply elem_of_cons in Hin as [E%(f_equal found)|Hin]; [done|]. by apply Ho in Hin.
  - intros Hin. repeat (apply elem_of_cons in Hin as [?|Hin]; [done|]). by apply Ho in Hin.
  - do 2 right. by left.
Qed.

(** Whatever it has done so far. *)
Lemma cancel_candid tr r : exec (cancel ch) tr r -> candid tr.
Proof using L K. intros Hex. pose proof (cancel_wp _ _ Hex) as Hc. by destruct r. Qed.

(** *** The run *)

(** A result that comes after the process's end. *)
Definition conclusive (r : Result unit AerError.t) : Prop :=
  r = Ok tt \/ r = Err AerError.TimedOut \/ r = Err AerError.Cancelled.

(** Nothing is put into the slot. *)
Definition unset (o : obs) : Prop :=
  match o with
  | Obs e _ => match e with SetSlot l (Some _) => l <> kill_slot ch | _ => True end
  | ObsFork _ _ => True
  end.

(** Nothing but [k]. *)
Definition sets_only (k : KillHandle) (o : obs) : Prop :=
  match o with
  | Obs e _ => match e with SetSlot l (Some k') => l = kill_slot ch -> k' = k | _ => True end
  | ObsFork _ _ => True
  end.

(** A callback that may cancel too. *)
Definition obliging (on_event : Event.t -> prog (outcome unit)) : Prop :=
  forall ev, full (on_event ev) (fun _ => True) /\ all_obs unset (on_event ev).

(** The kill handle of the process the run has started. *)
Definition run_handle (task : Task) (k : KillHandle) (tr : list obs) : Prop :=
  exists tr1 trs tr2 handle, tr = tr1 ++ trs ++ tr2 /\ k = kill handle /\
    exec (os_spawn (program task) (args task) (spawn_options task)) trs (Some (Ok handle)).

Lemma run_handle_inside task k tr1 tr tr2 : run_handle task k tr -> run_handle task k (tr1 ++ tr ++ tr2).
Proof.
  intros (a & trs & b & handle & -> & Hk). exists (tr1 ++ a), trs, (b ++ tr2), handle.
  by rewrite <- !app_assoc.
Qed.

Lemma unset_only k o : unset o -> sets_only k o.
Proof. destruct o as [X e x|]; [|done]. destruct e; try done. simpl. by destruct v. Qed.

Lemma os_unset o : os_obs o -> unset o.
Proof. destruct o as [X e x|]; [|done]. by destruct e. Qed.

Lemma arc_unset o : arc_obs o -> unset o.
Proof. by destruct o as [X []|]. Qed.

Lemma os_only {A} k (p : prog A) : all_obs os_obs p -> all_obs (sets_only k) p.
Proof. apply all_obs_impl. intros o ?. by apply unset_only, os_unset. Qed.

Lemma arc_only {A} k (p : prog A) : all_obs arc_obs p -> all_obs (sets_only k) p.
Proof. apply all_obs_impl. intros o ?. by apply unset_only, arc_unset. Qed.

Lemma all_obs_inside {A} (R : obs -> Prop) (p : prog A) tr r : all_obs R p -> exec p tr r -> Forall R tr.
Proof. intros Hp. apply Hp. Qed.

Section Callback.
Context (on_event : Event.t -> prog (outcome unit)) (Hcb : obliging on_event).

Lemma full_event ev : full (on_event ev) (fun _ => True).
Proof using Hcb. apply Hcb. Qed.

Lemma event_only k ev : all_obs (sets_only k) (on_event ev).
Proof using Hcb. eapply all_obs_impl; [apply unset_only|apply Hcb]. Qed.

Lemma guarded_only task machine handle guard :
  all_obs (sets_only (kill handle)) (guarded_body task on_event (Some ch) machine handle guard).
Proof using L Hcb.
  unfold guarded_body, wire_cancel, start_monitor, wait_capturing, pump, pump_round, wait_discarding, finish,
    unwire_cancel, set_kill, thread_spawn.
  all_obs_solve ltac:(done);
    auto using event_only, os_only, arc_only, os_wait_obs, os_kill_obs, os_alive_obs, kill_clone_arc,
      kill_drop_arc, kill_drop_opt_arc.
Qed.

Lemma full_wait_discarding handle :
  full (wait_discarding handle)
    (fun c => match c with Early e => exists io, e = AerError.WaitFailed io | _ => True end).
Proof using L K.
  unfold wait_discarding. apply full_bind with (R := fun r => forall e, r = Val (Err e) -> exists io, e = AerError.WaitFailed io).
  - intros tr r Hex _. split.
    + apply proper_os; [exact (os_wait_obs _ _ _ _ Hex)|by eapply os_wait_waits].
    + intros e ->. by eapply os_wait_err.
  - intros [[code|e]|p] He; apply full_ret; try done. by apply He.
Qed.

(** A step that concerns none of this. *)
Ltac full_pass := apply full_act; intros ? _; split; [done|].

Lemma full_pump chunk_ch : full (pump on_event chunk_ch) (fun _ => True).
Proof using Hcb.
  apply full_iter. intros []. unfold pump_round. apply full_act. intros m _. split; [done|].
  destruct m as [m|]; [|by apply full_ret].
  eapply full_bind; [apply full_event|]. intros [u|p] _; by apply full_ret.
Qed.

Lemma full_wait_capturing handle :
  full (wait_capturing on_event handle)
    (fun c => match c with Early e => exists io, e = AerError.WaitFailed io | _ => True end).
Proof using L K Hcb.
  unfold wait_capturing, thread_spawn. apply full_act. intros chunk_ch _. split; [done|].
  do 3 full_pass. apply full_act. intros wait_ch _. split; [done|].
  apply full_bind with (R := fun _ => True).
  { apply full_idle; [|done]. all_obs_solve ltac:(done). }
  intros wt _. apply full_bind with
    (R := fun c => match c with Early e => exists io, e = AerError.WaitFailed io | _ => True end).
  - destruct wt as [wt|p]; [|by apply full_ret]. eapply full_bind; [apply full_pump|].
    intros [u|p] _; [|by apply full_ret]. apply full_act. intros result Hres. split; [done|].
    destruct result as [result|]; [|apply full_ret; by eexists]. specialize (Hres _ eq_refl).
    full_pass. destruct result; by apply full_ret.
  - intros c Hc. do 2 full_pass. by apply full_ret.
Qed.

Context (Hd : cancelled ch <> kill_fired ch).

Lemma full_finish machine timed_out cancel_ch os_code :
  timed_out <> cancelled ch ->
  full (finish on_event (Some ch) machine timed_out cancel_ch os_code) (fun _ => True).
Proof using Hcb Hd.
  intros Ht. unfold finish, unwire_cancel, set_kill. apply full_bind with (R := fun _ => True).
  { apply full_idle; [|done]. all_obs_solve ltac:(done). }
  intros _ _. full_pass. apply full_act. intros b1 _. split; [by left|].
  apply full_act. intros b2 _. split; [by left|].
  destruct (transition _ _) as [m [u|e]]; [|by apply full_ret].
  eapply full_bind; [apply full_event|]. intros [v|p] _; by apply full_ret.
Qed.

(** Where the guard is left armed, the result is not conclusive. *)
Definition disarmed (x : KillOnDropGuard * option OsHandle * outcome (Result unit AerError.t)) : Prop :=
  forall r, x.2 = Val r -> conclusive r -> armed x.1.1 = false.

Lemma inconclusive x e :
  x.2 = Val (Err e) -> e <> AerError.TimedOut -> e <> AerError.Cancelled -> disarmed x.
Proof. intros Hx Ht Hc r E [-> | [-> | ->]]; congruence. Qed.

Lemma full_guarded task handle guard :
  full (guarded_body task on_event (Some ch) Machine.new handle guard) disarmed.
Proof using L K Hcb Hd.
  unfold guarded_body. rewrite transition_running. eapply full_bind; [apply full_event|].
  intros [u|p] _; [|by apply full_ret].
  apply full_bind with (R := fun _ => True); [by apply full_wire|]. intros _ _.
  apply full_act. intros timed_out Ht. split; [done|]. full_pass.
  apply full_bind with (R := fun _ => True).
  { apply full_idle; [|done]. unfold start_monitor, thread_spawn. all_obs_solve ltac:(done). }
  intros m _. apply full_bind with (R := disarmed).
  - destruct m as [v|p]; [|by apply full_ret].
    apply full_bind with
      (R := fun c => match c with Early e => exists io, e = AerError.WaitFailed io | _ => True end).
    { destruct (capture_output task); [by apply full_wait_capturing|by apply full_wait_discarding]. }
    intros [os_code|e|p] Hc; [|destruct Hc as [io ->]; apply full_ret; by eapply inconclusive|by apply full_ret].
    eapply full_bind; [by apply full_finish|]. intros out _. by apply full_ret.
  - intros res Hres. apply full_bind with (R := fun _ => True).
    { apply full_idle; [|done]. all_obs_solve ltac:(done). }
    intros _ _. full_pass. by apply full_ret.
Qed.

(** The run looks at [cancelled] once it has wired the slot. *)
Lemma wire_looks kill tr :
  exec (wire_cancel (Some ch) kill) tr (Some tt) -> exists b, Obs (Load (cancelled ch)) b ∈ tr.
Proof.
  intros (poisoned & old & last & late & -> & Hl)%wire_cancel_exec.
  assert (exists b late', late = Obs (Load (cancelled ch)) b :: late') as (b & late' & ->)
    by (destruct Hl; by eexists _, _).
  exists b. rewrite !elem_of_app. do 2 right. by left.
Qed.

Lemma guarded_looks task handle guard tr x r :
  exec (guarded_body task on_event (Some ch) Machine.new handle guard) tr (Some x) -> x.2 = Val r ->
  exists b, Obs (Load (cancelled ch)) b ∈ tr.
Proof.
  unfold guarded_body. rewrite transition_running.
  intros (out & tr1 & tr2 & -> & _ & Hex)%exec_bind_Some Hx.
  destruct out as [u|p]; [|apply exec_ret_Some in Hex as [_ ->]; done].
  apply exec_bind_Some in Hex as ([] & tr3 & tr4 & -> & [b Hb]%wire_looks & _).
  exists b. rewrite !elem_of_app. auto.
Qed.

(** The run's own steps, when it ends with a conclusive result. *)
Lemma run_kills task tr r :
  exec (run_impl task on_event (Some ch)) tr (Some (Val r)) -> conclusive r -> Forall clean tr ->
  proper tr /\ (exists b, Obs (Load (cancelled ch)) b ∈ tr) /\
  exists k, run_handle task k tr /\ Forall (sets_only k) tr.
Proof using L K Hcb Hd.
  intros (spawned & trs & tr0 & -> & Hs & Hex)%exec_bind_Some Hr [_ Hc]%Forall_app.
  pose proof (os_spawn_obs _ _ _ _ _ Hs) as Ho. destruct spawned as [handle|e].
  2: { apply exec_ret_Some in Hex as [_ [= ->]]. destruct (os_spawn_err _ _ _ _ _ Hs) as [io ->].
    by destruct Hr as [?|[?|?]]. }
  assert (proper trs) as Hps by (eapply proper_idle, os_idle, os_spawn_spares; [done|exact Hs]).
  apply exec_bind_Some in Hex as ([] & clone & tr1 & -> & ->%kill_clone_exec & Hex).
  apply exec_bind_Some in Hex as ([[guard rest] out] & trb & tr2 & -> & Hb & Hex).
  apply exec_bind_Some in Hex as ([] & trg & tr3 & -> & Hg & Hex).
  apply exec_bind_Some in Hex as ([] & trd & tr4 & -> & Hdr & [-> <-]%exec_ret_Some).
  rewrite app_nil_r in *. apply Forall_app in Hc as [_ [Hcb' _]%Forall_app].
  destruct (full_guarded _ _ _ _ _ Hb Hcb') as [Hpb Harm].
  specialize (Harm r eq_refl Hr). simpl in Harm. unfold guard_drop in Hg. rewrite Harm in Hg.
  apply (kill_drop_arc (guard_kill guard)) in Hg as Hga.
  assert (Forall arc_obs trd) as Hda.
  { destruct rest as [h|]; [by apply (kill_drop_arc (kill h)) in Hdr|by apply exec_ret_Some in Hdr as [-> _]]. }
  assert (forall l, Forall arc_obs l -> Forall idle l) as Harc
    by (intros l Hl; eapply Forall_impl; [exact Hl|exact arc_idle]).
  split_and!.
  - repeat apply proper_app; try done; apply proper_idle; auto using clone_idle.
  - destruct (guarded_looks _ _ _ _ _ _ Hb eq_refl) as [b Hin]. exists b. rewrite !elem_of_app. auto.
  - exists (kill handle). split; [by exists [], trs, (clone_trace (kill handle) ++ trb ++ trg ++ trd), handle|].
    assert (forall l, Forall arc_obs l -> Forall (sets_only (kill handle)) l) as Hao
      by (intros l Hl; eapply Forall_impl; [exact Hl|intros o ?; by apply unset_only, arc_unset]).
    repeat (apply Forall_app; split); auto.
    + eapply Forall_impl; [exact Ho|]. intros o ?. by apply unset_only, os_unset.
    + apply Hao. by apply (kill_clone_arc (kill handle) _ (Some tt)), kill_clone_exec.
    + by apply (guarded_only _ _ _ _ _ _ Hb).
Qed.
End Callback.

(** Callbacks that oblige: one whose steps concern none of this, and one that
    also calls [cancel], before or after. *)
Lemma obliging_idle on_event :
  (forall ev, all_obs idle (on_event ev)) -> (forall ev, all_obs unset (on_event ev)) -> obliging on_event.
Proof. intros Hi Hu ev. split; [by apply full_idle|done]. Qed.

Lemma cancel_unset : all_obs unset (cancel ch).
Proof using L.
  unfold cancel. all_obs_solve ltac:(done).
  all: eapply all_obs_impl; [apply os_unset|]; auto using os_alive_obs, os_kill_obs, kill_clone_obs.
Qed.

Lemma obliging_cancel (wants : Event.t -> bool) on_event :
  obliging on_event ->
  obliging (fun ev => if wants ev then cancel ch ;;; on_event ev else on_event ev).
Proof using L K.
  intros Hcb ev. destruct (wants ev); [|apply Hcb]. split.
  - eapply full_bind; [by apply (full_cancel (fun _ => True))|]. intros [] _. apply Hcb.
  - apply all_obs_bind; [apply cancel_unset|intros _; apply Hcb].
Qed.
End Cancel.
