(* ===== verification/Race.v ===== *)
(** * Cancellation under every interleaving (properties of src/src/task.rs)

    One thread in [run_with_cancel] with a callback that may call [cancel] too,
    any number of threads in [cancel] on the same handle, and the threads the
    run creates, over the shared memory of Pool.v and an arbitrary outside
    world. A rely/guarantee proof: what each
    thread may do to the handle's cells ([Guar]), what holds of them and of
    the log ([Inv]), and one pass over the code of each thread. *)

From Stdlib Require Import ZArith.
From stdpp Require Import base numbers list gmap relations.
From S2P Require Import Prelude Core Machine Sys Prog Os Task Run Blocks Lifecycle Pool Threads History Kills.

Open Scope Z_scope.

(** ** What the log says about the handle *)

(** The steps that matter: the first [cancel]'s swap, a look at an empty slot,
    the run's look at an unset [cancelled], the slot wired and unwired, a kill
    being fired, a look at the flag of a fired one, and the mutex released. *)
Inductive mark : Type :=
  | First
  | SawEmpty
  | SawUnset
  | Wired
  | Unwired
  | Fired
  | SawFired
  | Released.

#[export] Instance mark_eq_dec : EqDecision mark.
Proof. solve_decision. Defined.

Section Marks.
Variable ch : CancelHandle.

Definition mark_of (o : obs) : option mark :=
  match o with
  | Obs e x =>
      match e in act X return X -> option mark with
      | Swap l true => fun old =>
          if decide (l = cancelled ch) then if old : bool then None else Some First else None
      | Load l => fun b =>
          if decide (l = cancelled ch) then if b : bool then None else Some SawUnset
          else if decide (l = kill_fired ch) then if b : bool then Some SawFired else None
          else None
      | Unlock l => fun _ => if decide (l = kill_slot ch) then Some Released else None
      | GetSlot l => fun v =>
          if decide (l = kill_slot ch) then
            match v with Some _ => None | None => Some SawEmpty end
          else None
      | SetSlot l v => fun _ =>
          if decide (l = kill_slot ch) then
            Some match v with Some _ => Wired | None => Unwired end
          else None
      | Store l true => fun _ => if decide (l = kill_fired ch) then Some Fired else None
      | _ => fun _ => None
      end x
  | ObsFork _ _ => None
  end.

Definition marks (l : list (tid * obs)) : list (tid * mark) :=
  omap (fun x => match mark_of x.2 with Some m => Some (x.1, m) | None => None end) l.

Definition firsts (l : list (tid * mark)) : nat := length (filter (fun x => x.2 = First) l).

Lemma marks_snoc l t o :
  marks (l ++ [(t, o)]) = marks l ++ match mark_of o with Some m => [(t, m)] | None => [] end.
Proof. unfold marks. rewrite omap_app. simpl. by destruct (mark_of o). Qed.
End Marks.

Section Race.
Context {W : Type}.
Variable external : tid -> forall X, act X -> W -> X -> W -> Prop.
Variable ch : CancelHandle.

(** The threads that may cancel are the run's own and the first so many. *)
Variable cancellers : nat.

(** ** The cells *)

Definition fired (g : global W) : bool := flag (memory g) (kill_fired ch).
Definition requested (g : global W) : bool := flag (memory g) (cancelled ch).
Definition owner (g : global W) : option tid := holder (mutex_at (memory g) (kill_slot ch)).
Definition slot (g : global W) : option KillHandle := value (mutex_at (memory g) (kill_slot ch)).
Definition notes (g : global W) : list (tid * mark) := marks ch (log g).

Definition wait_msg {ty} : msg ty -> Prop :=
  match ty return msg ty -> Prop with
  | TyWait => wait_ok
  | TyUnit | TyChunk => fun _ => True
  end.

Record Inv (g : global W) : Prop := {
  inv_distinct : cancelled ch <> kill_fired ch;
  inv_alloc : (cancelled ch < next (memory g) /\ kill_fired ch < next (memory g) /\
               kill_slot ch < next (memory g))%nat;
  inv_wait : forall l x, x ∈ q_wait (chan_at (memory g) l) -> wait_ok x;
  (** Only one [cancel] finds the flag unset. *)
  inv_first : (firsts (notes g) <= if requested g then 1 else 0)%nat;
  (** A look at an empty slot comes after a request. *)
  inv_empty : forall t, (t, SawEmpty) ∈ notes g -> requested g = true;
  (** The run looks at the flag after it has wired the slot. *)
  inv_unset : (0%nat, SawUnset) ∈ notes g -> (0%nat, Wired) ∈ notes g;
  (** A wired slot is empty only once unwired. *)
  inv_wired : (0%nat, Wired) ∈ notes g -> slot g = None -> (0%nat, Unwired) ∈ notes g;
  (** A request the run did not see found the slot wired, or came too late. *)
  inv_lost : forall t, (0%nat, SawUnset) ∈ notes g -> (t, SawEmpty) ∈ notes g ->
    (0%nat, Unwired) ∈ notes g;
  (** Only the [cancel] that found the flag unset fires. *)
  inv_fired : forall t, (t, Fired) ∈ notes g -> t <> 0%nat -> (t, First) ∈ notes g;
  (** The flag says that a kill was fired, and stays. *)
  inv_flag : forall t m, (t, m) ∈ notes g -> m = Fired \/ m = SawFired -> fired g = true;
  inv_lit : fired g = true -> exists t, (t, Fired) ∈ notes g;
  (** Who fires has the mutex, the slot wired, until it releases it. *)
  inv_done : forall t, (t, Fired) ∈ notes g -> t <> 0%nat ->
    (owner g = Some t /\ slot g <> None) \/ (t, Released) ∈ notes g;
  (** Who does what. *)
  inv_few : forall t, (t, Fired) ∈ notes g -> (t <= cancellers)%nat;
  inv_looked : forall t, (t, SawEmpty) ∈ notes g -> (t, First) ∈ notes g;
  inv_wirer : forall t, (t, Wired) ∈ notes g -> t = 0%nat
}.

(** What a step of thread [t] may change. *)
Record Guar (t : tid) (g g' : global W) : Prop := {
  guar_requested : requested g = true -> requested g' = true;
  guar_fired_mono : fired g = true -> fired g' = true;
  guar_owner : owner g' = owner g \/ (owner g = None /\ owner g' = Some t) \/
               (owner g = Some t /\ owner g' = None);
  guar_slot : slot g' <> slot g -> t = 0%nat /\ owner g = Some t;
  guar_fired : t <> 0%nat -> fired g' <> fired g -> owner g = Some t /\ slot g <> None;
  guar_notes : exists l, notes g' = notes g ++ l /\ Forall (fun x => x.1 = t) l
}.

(** A step that leaves the handle alone. *)
Definition apart_act {X} (e : act X) : Prop :=
  match e with
  | Load l | Swap l _ => l <> cancelled ch /\ l <> kill_fired ch
  | Store l _ => l <> cancelled ch /\ l <> kill_fired ch
  | Lock l | GetSlot l | SetSlot l _ | Unlock l => l <> kill_slot ch
  | Send _ m => wait_msg m
  | _ => True
  end.

(** ... in a program, the threads it creates and those they create. *)
Fixpoint apart (depth : nat) (o : obs) : Prop :=
  match o with
  | Obs e _ => apart_act e
  | ObsFork body _ =>
      match depth with
      | O => False
      | S depth => all_obs (apart depth) body
      end
  end.

(** ** Lemmas *)

Lemma apart_mark depth o : apart depth o -> mark_of ch o = None.
Proof.
  destruct o as [X e x|body t]; [|done]. destruct depth; simpl; destruct e; simpl; try done;
    repeat case_match; try done; intros; destruct_and?; done.
Qed.

Lemma flag_set_other m l l' b : l <> l' -> flag (set_flag l b m) l' = flag m l'.
Proof. intros Hne. unfold flag. simpl. by rewrite lookup_insert_ne. Qed.

Lemma flag_set_same m l b : flag (set_flag l b m) l = b.
Proof. unfold flag. simpl. by rewrite lookup_insert_eq. Qed.

Lemma mutex_set_other m l l' v : l <> l' -> mutex_at (set_mutex l v m) l' = mutex_at m l'.
Proof. intros Hne. unfold mutex_at. simpl. by rewrite lookup_insert_ne. Qed.

Lemma mutex_set_same m l v : mutex_at (set_mutex l v m) l = v.
Proof. unfold mutex_at. simpl. by rewrite lookup_insert_eq. Qed.

Lemma chan_set m l l' c :
  chan_at (set_chan l c m) l' = if decide (l = l') then c else chan_at m l'.
Proof.
  unfold chan_at. simpl. case_decide; subst; [by rewrite lookup_insert_eq|].
  by rewrite lookup_insert_ne.
Qed.

(** The memory's part of a step that leaves the handle alone. *)
Definition same_cells (m m' : mem) : Prop :=
  flag m' (cancelled ch) = flag m (cancelled ch) /\
  flag m' (kill_fired ch) = flag m (kill_fired ch) /\
  mutex_at m' (kill_slot ch) = mutex_at m (kill_slot ch) /\
  (next m <= next m')%nat.

Definition waits_ok (m : mem) : Prop := forall l x, x ∈ q_wait (chan_at m l) -> wait_ok x.

Lemma waits_ok_set m l c :
  waits_ok m -> (forall x, x ∈ q_wait c -> wait_ok x) -> waits_ok (set_chan l c m).
Proof. intros Hm Hc l' x. rewrite chan_set. case_decide; eauto. Qed.

Lemma mem_step_apart t el {X} (e : act X) m x m' :
  apart_act e ->
  (cancelled ch < next m /\ kill_fired ch < next m /\ kill_slot ch < next m)%nat ->
  waits_ok m -> mem_step t el e m = Answer x m' -> same_cells m m' /\ waits_ok m'.
Proof.
  intros He (Hc & Hf & Hs) Hw Hst.
  assert (forall l c, waits_ok m -> (forall x, x ∈ q_wait c -> wait_ok x) ->
    same_cells m (set_chan l c m) /\ waits_ok (set_chan l c m)) as Hchan.
  { intros l c ? ?. split; [by repeat split|by apply waits_ok_set]. }
  assert (forall l x, x ∈ q_wait (chan_at m l) -> wait_ok x) as Hw' by done.
  destruct e; simpl in He, Hst; try discriminate Hst;
    try (injection Hst as <- <-; first [by repeat split | apply Hchan; by eauto]).
  - injection Hst as <- <-. split; [|done]. unfold same_cells. simpl.
    change (flag (bump ?m) ?l) with (flag m l). change (mutex_at (bump ?m) ?l) with (mutex_at m l).
    rewrite !flag_set_other by lia. split_and!; [done..|lia].
  - injection Hst as <- <-. destruct He. split; [|done]. unfold same_cells.
    rewrite !flag_set_other by done. done.
  - injection Hst as <- <-. destruct He. split; [|done]. unfold same_cells.
    rewrite !flag_set_other by done. done.
  - injection Hst as <- <-. split; [|done]. repeat split. simpl. lia.
  - injection Hst as <- <-. split; [|done]. unfold same_cells. simpl.
    change (flag (bump ?m) ?l) with (flag m l). change (mutex_at (bump ?m) ?l) with (mutex_at m l).
    rewrite mutex_set_other by lia. split_and!; [done..|lia].
  - destruct (holder _); [done|]. injection Hst as <- <-. split; [|done]. unfold same_cells.
    by rewrite mutex_set_other.
  - injection Hst as <- <-. split; [|done]. unfold same_cells. by rewrite mutex_set_other.
  - injection Hst as <- <-. split; [|done]. unfold same_cells. by rewrite mutex_set_other.
  - injection Hst as <- <-. split; [|].
    + unfold same_cells. simpl. split_and!; [done..|lia].
    + apply (waits_ok_set m); [done|]. simpl. intros ? ?%elem_of_nil. done.
  - injection Hst as <- <-. apply Hchan; [done|]. simpl. apply Hw'.
  - injection Hst as <- <-. apply Hchan; [done|]. simpl. apply Hw'.
  - injection Hst as <- <-. apply Hchan; [done|]. simpl. apply Hw'.
  - destruct (rx _); injection Hst as <- <-; [|done]. apply Hchan; [done|].
    destruct ty; simpl; [apply Hw'|apply Hw'|].
    intros y Hy. apply elem_of_app in Hy as [Hy|Hy]; [by eapply Hw'|].
    by apply list_elem_of_singleton in Hy as ->.
  - destruct ty; simpl in Hst; [destruct (q_unit _)|destruct (q_chunk _)|destruct (q_wait _) eqn:E];
      try (destruct (txs _); [|done]); injection Hst as <- <-; try done;
      apply Hchan; try done; simpl; try apply Hw'.
    intros y Hy. apply (Hw' (chan_key c)). rewrite E. by right.
  - destruct (q_unit _).
    + destruct (txs _); [|destruct el]; try done; by injection Hst as <- <-.
    + injection Hst as <- <-. apply Hchan; [done|]. simpl. apply Hw'.
  - injection Hst as <- <-. split; [|done]. repeat split. simpl. lia.
Qed.

(** What an assertion about the handle looks at. *)
Definition same_view (g g' : global W) : Prop :=
  requested g' = requested g /\ fired g' = fired g /\ owner g' = owner g /\
  slot g' = slot g /\ notes g' = notes g.

Definition about_view (Q : global W -> Prop) : Prop :=
  forall g g', same_view g g' -> Q g -> Q g'.

Lemma inv_view g g' :
  Inv g -> same_view g g' -> waits_ok (memory g') -> (next (memory g) <= next (memory g'))%nat ->
  Inv g'.
Proof.
  intros [] (Hr & Hf & Ho & Hs & Hn) Hw Hx. destruct inv_alloc0 as (? & ? & ?).
  split; rewrite ?Hr, ?Hf, ?Ho, ?Hs, ?Hn; try done. split_and!; lia.
Qed.

Lemma guar_view t g g' : same_view g g' -> Guar t g g'.
Proof.
  intros (Hr & Hf & Ho & Hs & Hn). split; rewrite ?Hr, ?Hf, ?Ho, ?Hs, ?Hn; try done.
  - by left.
  - exists []. by rewrite app_nil_r.
Qed.

Lemma apart_step fin t {X} (e : act X) g x g' :
  apart_act e -> Inv g -> act_sem external fin t e g x g' ->
  same_view g g' /\ Guar t g g' /\ Inv g'.
Proof.
  intros He HI [Hl Hst].
  assert (same_cells (memory g) (memory g') /\ waits_ok (memory g')) as [(Hc & Hf & Hm & Hx) Hw].
  { destruct HI. destruct Hst as [(el & Hst & _)|(_ & -> & _)].
    - by eapply mem_step_apart.
    - by repeat split. }
  assert (same_view g g') as Hv.
  { unfold same_view, requested, fired, owner, slot, notes. rewrite Hc, Hf, Hm, Hl.
    rewrite marks_snoc, (apart_mark 0) by done. by rewrite app_nil_r. }
  split_and!; [done|by apply guar_view|by eapply inv_view].
Qed.

Lemma fork_step t body o g g' :
  Inv g -> memory g' = memory g -> log g' = log g ++ [(t, ObsFork body o)] ->
  same_view g g' /\ Guar t g g' /\ Inv g'.
Proof.
  intros HI Hm Hl. assert (same_view g g') as Hv.
  { unfold same_view, requested, fired, owner, slot, notes. rewrite Hm, Hl, marks_snoc.
    by rewrite app_nil_r. }
  destruct HI eqn:E. split_and!; [done|by apply guar_view|]. eapply inv_view; [exact HI|done| |].
  - by rewrite Hm.
  - by rewrite Hm.
Qed.

#[local] Abbreviation wpc := (wpc external Inv Guar).
#[local] Abbreviation stable := (stable Inv Guar).

Lemma stable_true t : stable t (fun _ => True).
Proof. done. Qed.

(** A program apart from the handle keeps what is known of it. *)
Lemma wpc_apart {A} d t (p : prog A) (Q : A -> global W -> Prop) (F : global W -> Prop) g :
  stable t F -> about_view F -> all_obs (apart d) p -> F g ->
  (forall a tr g, exec p tr (Some a) -> F g -> Inv g -> Q a g) -> wpc t p Q g.
Proof.
  revert A t p Q F g. induction d as [|d IH]; intros A t p Q F g Hst Hv Hp HF HQ;
    (eapply wpc_all_obs with (P := F); [done| | |exact Hp|done|done]).
  - intros fin X e x g1 g2 He HF1 HI Hs. destruct (apart_step _ _ _ _ _ _ He HI Hs) as (? & ? & ?).
    split_and!; [done|done|by eapply Hv].
  - done.
  - intros fin X e x g1 g2 He HF1 HI Hs. destruct (apart_step _ _ _ _ _ _ He HI Hs) as (? & ? & ?).
    split_and!; [done|done|by eapply Hv].
  - intros body o g1 g2 Hb HF1 HI Hm _ Hl.
    destruct (fork_step _ _ _ _ _ HI Hm Hl) as (? & ? & ?).
    split_and!; [done|done|by eapply Hv|]. intros n _ _.
    by apply (IH _ n body _ (fun _ => True)).
Qed.

(** *** The steps on the handle *)

(** What a step of thread [t] does to the view: new cells and new notes. *)
Definition view_step (g g' : global W) (r f : bool) (o : option tid) (v : option KillHandle)
    (l : list (tid * mark)) : Prop :=
  requested g' = r /\ fired g' = f /\ owner g' = o /\ slot g' = v /\ notes g' = notes g ++ l /\
  next (memory g') = next (memory g) /\ (waits_ok (memory g) -> waits_ok (memory g')).

Lemma act_memory fin t {X} (e : act X) g x g' :
  act_sem external fin t e g x g' -> mem_step t false e (memory g) <> External ->
  log g' = log g ++ [(t, Obs e x)] /\
  exists el, mem_step t el e (memory g) = Answer x (memory g').
Proof. intros [Hl [(el & Hs & _)|(He & _)]] Hn; [by split; [|exists el]|done]. Qed.

Lemma notes_act g g' t o :
  log g' = log g ++ [(t, o)] ->
  notes g' = notes g ++ match mark_of ch o with Some m => [(t, m)] | None => [] end.
Proof. intros Hl. unfold notes. by rewrite Hl, marks_snoc. Qed.

(** Read a step on a cell of the handle off the memory's definition. *)
Ltac handle_step H :=
  apply act_memory in H as [Hl [el Hs]]; [|done]; apply notes_act in Hl; simpl in Hl, Hs.

Lemma swap_step fin t g x g' :
  cancelled ch <> kill_fired ch ->
  act_sem external fin t (Swap (cancelled ch) true) g x g' ->
  x = requested g /\
  view_step g g' true (fired g) (owner g) (slot g) (if x then [] else [(t, First)]).
Proof.
  intros Hd H. handle_step H. injection Hs as <- Hm. rewrite decide_True in Hl by done.
  split; [done|]. unfold view_step, requested, fired, owner, slot. rewrite <- Hm, Hl.
  rewrite flag_set_same, flag_set_other by done. fold (requested g).
  split_and!; try done. by destruct (requested g).
Qed.

Lemma lock_step fin t g x g' :
  act_sem external fin t (Lock (kill_slot ch)) g x g' ->
  x = false /\ owner g = None /\ view_step g g' (requested g) (fired g) (Some t) (slot g) [].
Proof.
  intros H. apply act_memory in H as [Hl [el Hs]]; [|simpl; by case_match].
  apply notes_act in Hl. simpl in Hl, Hs. destruct (holder _) eqn:Ho; [done|].
  injection Hs as <- Hm. split_and!; try done.
  unfold view_step, requested, fired, owner, slot. by rewrite <- Hm, Hl, mutex_set_same.
Qed.

Lemma unlock_step fin t g x g' :
  act_sem external fin t (Unlock (kill_slot ch)) g x g' ->
  view_step g g' (requested g) (fired g) None (slot g) [(t, Released)].
Proof.
  intros H. handle_step H. injection Hs as _ Hm. rewrite decide_True in Hl by done.
  unfold view_step, requested, fired, owner, slot. by rewrite <- Hm, Hl, mutex_set_same.
Qed.

Lemma get_step fin t g x g' :
  act_sem external fin t (GetSlot (kill_slot ch)) g x g' ->
  x = slot g /\
  view_step g g' (requested g) (fired g) (owner g) (slot g)
    (match x with Some _ => [] | None => [(t, SawEmpty)] end).
Proof.
  intros H. handle_step H. injection Hs as <- Hm. rewrite decide_True in Hl by done.
  split; [done|]. unfold view_step, requested, fired, owner, slot. rewrite <- Hm, Hl.
  fold (slot g). split_and!; try done. by destruct (slot g).
Qed.

Lemma set_step fin t g v x g' :
  act_sem external fin t (SetSlot (kill_slot ch) v) g x g' ->
  view_step g g' (requested g) (fired g) (owner g) v
    [(t, match v with Some _ => Wired | None => Unwired end)].
Proof.
  intros H. handle_step H. injection Hs as _ Hm. rewrite decide_True in Hl by done.
  unfold view_step, requested, fired, owner, slot. by rewrite <- Hm, Hl, mutex_set_same.
Qed.

Lemma load_step fin t g x g' :
  act_sem external fin t (Load (cancelled ch)) g x g' ->
  x = requested g /\
  view_step g g' (requested g) (fired g) (owner g) (slot g) (if x then [] else [(t, SawUnset)]).
Proof.
  intros H. handle_step H. injection Hs as <- Hm. rewrite decide_True in Hl by done.
  split; [done|]. unfold view_step, requested, fired, owner, slot. rewrite <- Hm, Hl.
  split_and!; try done. by destruct (flag _ _).
Qed.

Lemma load_fired_step fin t g x g' :
  cancelled ch <> kill_fired ch ->
  act_sem external fin t (Load (kill_fired ch)) g x g' ->
  x = fired g /\
  view_step g g' (requested g) (fired g) (owner g) (slot g) (if x then [(t, SawFired)] else []).
Proof.
  intros Hd H. handle_step H. injection Hs as <- Hm. rewrite decide_False, decide_True in Hl by done.
  split; [done|]. unfold view_step, requested, fired, owner, slot. rewrite <- Hm, Hl.
  split_and!; try done. by destruct (flag _ _).
Qed.

Lemma fire_step fin t g x g' :
  cancelled ch <> kill_fired ch ->
  act_sem external fin t (Store (kill_fired ch) true) g x g' ->
  view_step g g' (requested g) true (owner g) (slot g) [(t, Fired)].
Proof.
  intros Hd H. handle_step H. injection Hs as _ Hm. rewrite decide_True in Hl by done.
  unfold view_step, requested, fired, owner, slot. rewrite <- Hm, Hl.
  by rewrite flag_set_same, flag_set_other.
Qed.

(** The conditions under which such a step is allowed. *)
Lemma guar_step t g g' r f o v l :
  view_step g g' r f o v l ->
  (requested g = true -> r = true) -> (fired g = true -> f = true) ->
  (o = owner g \/ (owner g = None /\ o = Some t) \/ (owner g = Some t /\ o = None)) ->
  (v <> slot g -> t = 0%nat /\ owner g = Some t) ->
  (t <> 0%nat -> f <> fired g -> owner g = Some t /\ slot g <> None) ->
  Forall (fun x => x.1 = t) l -> Guar t g g'.
Proof.
  intros (Hr & Hf & Ho & Hv & Hn & _) ??????.
  split; rewrite ?Hr, ?Hf, ?Ho, ?Hv, ?Hn; try done. by exists l.
Qed.

Lemma firsts_app l l' : firsts (l ++ l') = (firsts l + firsts l')%nat.
Proof. unfold firsts. by rewrite filter_app, length_app. Qed.

(** What has to be known for a note to be taken. *)
Definition note_ok (g : global W) (f : bool) (o : option tid) (v : option KillHandle) (t : tid)
    (m : mark) : Prop :=
  match m with
  | Fired =>
      f = true /\ (t <= cancellers)%nat /\
      (t <> 0%nat -> (t, First) ∈ notes g /\ o = Some t /\ v <> None)
  | SawFired => f = true
  | SawEmpty => (t, First) ∈ notes g
  | Wired => t = 0%nat
  | First | SawUnset | Unwired | Released => True
  end.

Lemma inv_step g g' r f o v l :
  Inv g -> view_step g g' r f o v l ->
  (firsts (notes g) + firsts l <= if r then 1 else 0)%nat ->
  (requested g = true -> r = true) ->
  (forall t, (t, SawEmpty) ∈ l -> r = true /\
     ((0%nat, SawUnset) ∈ notes g -> (0%nat, Unwired) ∈ notes g)) ->
  ((0%nat, SawUnset) ∈ l -> (0%nat, Wired) ∈ notes g /\
     ((exists t, (t, SawEmpty) ∈ notes g) -> (0%nat, Unwired) ∈ notes g)) ->
  (forall t t', (t, SawEmpty) ∈ l -> (t', SawUnset) ∉ l) ->
  ((0%nat, Wired) ∈ notes g ++ l -> v = None -> (0%nat, Unwired) ∈ notes g ++ l) ->
  (forall t m, (t, m) ∈ l -> note_ok g f o v t m) ->
  (fired g = true -> f = true) -> (f = true -> fired g = true \/ exists t, (t, Fired) ∈ l) ->
  (forall t, owner g = Some t -> t <> 0%nat -> slot g <> None ->
     (o = Some t /\ v <> None) \/ (t, Released) ∈ l) ->
  Inv g'.
Proof.
  intros [] (Hr & Hf & Ho & Hv & Hn & Hx & Hw) Hfirst Hmono Hempty Hunset Hboth Hwired Hnote Hfmono Hlit Hkeep.
  split; rewrite ?Hr, ?Hf, ?Ho, ?Hv, ?Hn, ?Hx; try done.
  - by apply Hw.
  - by rewrite firsts_app.
  - intros t [Ht|Ht]%elem_of_app; [by apply Hmono, (inv_empty0 t)|by apply (Hempty t)].
  - intros [Ht|Ht]%elem_of_app; apply elem_of_app; left; [by auto|by apply Hunset].
  - intros t [H1|H1]%elem_of_app [H2|H2]%elem_of_app; apply elem_of_app; left.
    + by eapply inv_lost0.
    + by apply (Hempty t).
    + apply Hunset; [done|by exists t].
    + by destruct (Hboth _ _ H2 H1).
  - intros t [H1|H1]%elem_of_app Ht; apply elem_of_app; left; [by auto|].
    by destruct (Hnote _ _ H1) as (_ & _ & [? _]).
  - intros t m [H1|H1]%elem_of_app Hm; [by eapply Hfmono, inv_flag0|].
    destruct Hm as [-> | ->]; [apply (Hnote _ _ H1)|exact (Hnote _ _ H1)].
  - intros Ht. destruct (Hlit Ht) as [[t H1]%inv_lit0|[t H1]]; exists t; apply elem_of_app; auto.
  - intros t [H1|H1]%elem_of_app Ht; rewrite elem_of_app.
    + destruct (inv_done0 _ H1 Ht) as [[Ho1 Hs1]|?]; [|by auto].
      destruct (Hkeep t Ho1 Ht Hs1) as [?|?]; auto.
    + destruct (Hnote _ _ H1) as (_ & _ & [_ ?]); auto.
  - intros t [H1|H1]%elem_of_app; [by auto|apply (Hnote _ _ H1)].
  - intros t [H1|H1]%elem_of_app; apply elem_of_app; left; [by auto|apply (Hnote _ _ H1)].
  - intros t [H1|H1]%elem_of_app; [by auto|apply (Hnote _ _ H1)].
Qed.

(** *** The threads *)

Lemma os_apart_act {X} (e : act X) : os_act e -> apart_act e.
Proof. destruct e; try done. simpl. by intros ->. Qed.

Lemma os_obs_apart o : os_obs o -> apart 1 o.
Proof.
  destruct o as [X e x|body t]; simpl; [apply os_apart_act|].
  apply all_obs_impl. intros [X e x|]; [apply os_apart_act|done].
Qed.

Lemma os_apart {A} (p : prog A) : all_obs os_obs p -> all_obs (apart 1) p.
Proof. apply all_obs_impl, os_obs_apart. Qed.

(** What a thread in [cancel] knows: that it came first, that it holds the
    mutex, what the slot holds. *)
Definition came_first (t : tid) (g : global W) : Prop :=
  requested g = true /\ (t, First) ∈ notes g.
Definition holding (t : tid) (g : global W) : Prop := came_first t g /\ owner g = Some t.
Definition aiming (t : tid) (k : KillHandle) (g : global W) : Prop :=
  holding t g /\ slot g = Some k.

Lemma notes_mono t g g' x : Guar t g g' -> x ∈ notes g -> x ∈ notes g'.
Proof. intros [_ _ _ _ _ (l & -> & _)] Hx. apply elem_of_app. by left. Qed.

Lemma came_first_stable t : stable t (came_first t).
Proof.
  intros g g' [Hr Hn] (_ & u & Hu & HG & _). split; [by apply HG|by eapply notes_mono].
Qed.

Lemma holding_stable t : stable t (holding t).
Proof.
  intros g g' [Hc Ho] Hr. split; [by eapply came_first_stable|].
  destruct Hr as (_ & u & Hu & HG & _). destruct (guar_owner _ _ _ HG) as [->|[[Hn _]|[Hn _]]];
    congruence.
Qed.

Lemma aiming_stable t k : stable t (aiming t k).
Proof.
  intros g g' [Hh Hs] Hr. split; [by eapply holding_stable|].
  destruct Hh as [_ Ho], Hr as (_ & u & Hu & HG & _).
  destruct (decide (slot g' = slot g)) as [->|Hne]; [done|].
  destruct (guar_slot _ _ _ HG Hne). congruence.
Qed.

Lemma view_came_first t : about_view (came_first t).
Proof. intros g g' (Hr & _ & _ & _ & Hn). unfold came_first. by rewrite Hr, Hn. Qed.

Lemma view_aiming t k : about_view (aiming t k).
Proof.
  intros g g' (Hr & Hf & Ho & Hs & Hn). unfold aiming, holding, came_first.
  by rewrite Hr, Ho, Hs, Hn.
Qed.

(** The side conditions of a step on the handle. *)
Ltac no_notes := intros; by match goal with H : _ ∈ [] |- _ => apply elem_of_nil in H end.
Ltac one_note :=
  intros; match goal with H : _ ∈ [_] |- _ => apply list_elem_of_singleton in H; simplify_eq end.

Lemma inv_silent g g' r o :
  Inv g -> view_step g g' r (fired g) o (slot g) [] -> (requested g = true -> r = true) ->
  (forall t, owner g = Some t -> o = Some t) -> Inv g'.
Proof.
  intros HI Hv Hr Ho. eapply inv_step; [done|done| |done|no_notes..| |no_notes|done|by left|by auto].
  - destruct HI. unfold firsts at 2. simpl. destruct (requested g); [rewrite Hr by done; lia|].
    destruct r; lia.
  - rewrite app_nil_r. apply (inv_wired _ HI).
Qed.

(** A step that takes a note and changes nothing else. *)
Lemma inv_noted g g' t m :
  Inv g -> view_step g g' (requested g) (fired g) (owner g) (slot g) [(t, m)] ->
  note_ok g (fired g) (owner g) (slot g) t m -> m <> First -> m <> SawUnset -> m <> Wired ->
  (m = SawEmpty -> requested g = true /\ ((0%nat, SawUnset) ∈ notes g -> (0%nat, Unwired) ∈ notes g)) ->
  Inv g'.
Proof.
  intros HI Hv Hm Hf Hu Hw He. eapply inv_step; [done|done| |done| | | | | |done|by left|by auto].
  - destruct HI. unfold firsts at 2. rewrite filter_cons_False by done. simpl. lia.
  - intros t' [= -> <-]%list_elem_of_singleton. by apply He.
  - by intros [= <- <-]%list_elem_of_singleton.
  - by intros t1 t2 _ [= <- <-]%list_elem_of_singleton.
  - intros [Hin|[= <- <-]%list_elem_of_singleton]%elem_of_app Hs; [|done].
    apply elem_of_app. left. by apply (inv_wired _ HI).
  - by intros t' m' [= -> ->]%list_elem_of_singleton.
Qed.

(** An assertion about how the handle ends: it looks at [kill_fired] and the
    slot only, and at [kill_fired] only where the slot is empty. *)
Definition about_end (F : global W -> Prop) : Prop :=
  forall g g', slot g' = slot g -> (fired g' = fired g \/ slot g <> None) -> F g -> F g'.

Lemma about_end_view F : about_end F -> about_view F.
Proof. intros HF g g' (_ & Hf & _ & Hs & _). apply HF; [done|by left]. Qed.

Lemma wpc_swap {A} t (k : bool -> prog A) (F : global W -> Prop) Q g :
  stable t F -> about_end F -> F g ->
  (forall g, F g -> wpc t (k true) Q g) ->
  (forall g, F g -> came_first t g -> wpc t (k false) Q g) ->
  wpc t (bind (do_act (Swap (cancelled ch) true)) k) Q g.
Proof.
  intros Hst HF Hg Ht Hf. apply wpc_act with (P := F); [done|done|].
  intros fin g1 old g2 HF1 HI Hs. apply swap_step in Hs as [Hold Hv]; [|apply HI].
  pose proof Hv as (Hr & Hfi & _ & Hs2 & Hn & _).
  assert (F g2) as HF2 by (apply (HF g1); auto).
  split_and!.
  - eapply guar_step; try done; [by left|destruct old; by repeat constructor].
  - destruct old; [eapply inv_silent; try done|].
    eapply inv_step; [done|done| |done|one_note..| | |done|by left|by auto].
    + destruct HI. rewrite <- Hold in inv_first0. unfold firsts at 2. simpl. lia.
    + intros [Hw|Hw%list_elem_of_singleton]%elem_of_app Hsl; [|done].
      apply elem_of_app. left. by apply (inv_wired _ HI).
    + by intros t' m' [= -> ->]%list_elem_of_singleton.
  - destruct old; [by apply Ht|]. apply Hf; [done|]. split; [done|]. rewrite Hn. apply elem_of_app.
    right. by left.
Qed.

(** An assertion that does not look at who holds the mutex, nor at who has
    released it. *)
Definition about_rest (F : global W -> Prop) : Prop :=
  forall g g', requested g' = requested g -> fired g' = fired g -> slot g' = slot g ->
    (forall x, x ∈ notes g -> x ∈ notes g') -> F g -> F g'.

Lemma stable_and t F G : stable t F -> stable t G -> stable t (fun g => F g /\ G g).
Proof. intros HF HG g g' [? ?] Hr. split; eauto. Qed.

Lemma owner_stable t : stable t (fun g => owner g = Some t).
Proof.
  intros g g' Ho (_ & u & Hu & HG & _).
  destruct (guar_owner _ _ _ HG) as [->|[[Hn _]|[Hn _]]]; congruence.
Qed.

(** A look at the flag of a fired kill. *)
Lemma load_fired_ok fin t g x g' :
  Inv g -> act_sem external fin t (Load (kill_fired ch)) g x g' ->
  x = fired g /\ Guar t g g' /\ Inv g' /\ forall y, y ∈ notes g -> y ∈ notes g'.
Proof.
  intros HI Hs. apply load_fired_step in Hs as [Hx Hv]; [|apply HI].
  split_and!; [done| | |].
  - eapply guar_step; try done; [by left|destruct x; by repeat constructor].
  - destruct x; [by eapply inv_noted|by eapply inv_silent].
  - destruct Hv as (_ & _ & _ & _ & -> & _). intros y Hy. apply elem_of_app. by left.
Qed.

Lemma wpc_lock {A} t (k : bool -> prog A) (F : global W -> Prop) Q g :
  stable t F -> about_rest F -> F g ->
  (forall g, F g -> owner g = Some t -> wpc t (k false) Q g) ->
  wpc t (bind (do_act (Lock (kill_slot ch))) k) Q g.
Proof.
  intros Hst HF Hg Hk. apply wpc_act with (P := F); [done|done|].
  intros fin g1 x g2 HF1 HI Hs. apply lock_step in Hs as (-> & Ho & Hv).
  pose proof Hv as (Hr & Hf & Ho' & Hsl & Hn & _). rewrite app_nil_r in Hn.
  split_and!.
  - eapply guar_step; try done. right. by left.
  - eapply inv_silent; try done. intros u Hu. congruence.
  - apply Hk; [|done]. apply (HF g1); try done. by rewrite Hn.
Qed.

Lemma wpc_unlock {A} t (k : unit -> prog A) (F : global W -> Prop) Q g :
  stable t F -> about_rest F -> F g -> owner g = Some t ->
  (forall g, F g -> wpc t (k tt) Q g) ->
  wpc t (bind (do_act (Unlock (kill_slot ch))) k) Q g.
Proof.
  intros Hst HF Hg Ho Hk.
  apply wpc_act with (P := fun g => F g /\ owner g = Some t);
    [apply stable_and; [done|apply owner_stable]|done|].
  intros fin g1 x g2 [HF1 Ho1] HI Hs. apply unlock_step in Hs as Hv.
  pose proof Hv as (Hr & Hf & Ho' & Hsl & Hn & _).
  split_and!.
  - eapply guar_step; try done; [right; by right|by repeat constructor].
  - eapply inv_step; [done|done| |done|one_note..| | |done|by left|].
    + destruct HI. unfold firsts at 2. simpl. lia.
    + intros [Hw|Hw%list_elem_of_singleton]%elem_of_app Hs'; [|done].
      apply elem_of_app. left. by apply (inv_wired _ HI).
    + by intros t' m' [= -> ->]%list_elem_of_singleton.
    + intros u Hu _ _. right. assert (u = t) as -> by congruence. by left.
  - destruct x. apply Hk. apply (HF g1); try done. intros y Hy. rewrite Hn. apply elem_of_app. by left.
Qed.

Lemma wpc_look {A} t (k : option KillHandle -> prog A) (F : global W -> Prop) Q g :
  stable t F -> about_end F -> F g -> holding t g ->
  (forall g, F g -> holding t g -> wpc t (k None) Q g) ->
  (forall kill g, F g -> aiming t kill g -> wpc t (k (Some kill)) Q g) ->
  wpc t (bind (do_act (GetSlot (kill_slot ch))) k) Q g.
Proof.
  intros Hst HF Hg Hh Hnone Hsome. apply wpc_act with (P := fun g => F g /\ holding t g);
    [apply stable_and; [done|apply holding_stable]|done|].
  intros fin g1 x g2 [HF1 [[Hr1 Hn1] Ho1]] HI Hs. apply get_step in Hs as [Hx Hv].
  pose proof Hv as (Hr & Hfi & Ho & Hsl & Hn & _).
  assert (F g2) as HF2 by (apply (HF g1); auto).
  assert (holding t g2) as Hg2.
  { unfold holding, came_first. rewrite Hr, Ho, Hn. split_and!; try done.
    apply elem_of_app. by left. }
  split_and!.
  - eapply guar_step; try done; [by left|destruct x; by repeat constructor].
  - destruct x; [by eapply inv_silent|]. eapply inv_noted; [done|done|done..|].
    intros _. split; [done|]. intros Hu. apply (inv_wired _ HI); [|done]. by apply (inv_unset _ HI).
  - destruct x as [kill|]; [apply Hsome; [done|]; split; [done|by rewrite Hsl]|by apply Hnone].
Qed.

Lemma wpc_fire {A} t (k : unit -> prog A) (F : global W -> Prop) Q g :
  (t <= cancellers)%nat -> stable t F -> F g ->
  (forall g, F g -> t = 0%nat \/ (owner g = Some t /\ slot g <> None /\ (t, First) ∈ notes g)) ->
  (forall g g', F g -> requested g' = requested g -> fired g' = true -> owner g' = owner g ->
     slot g' = slot g -> notes g' = notes g ++ [(t, Fired)] -> F g') ->
  (forall g, F g -> fired g = true -> wpc t (k tt) Q g) ->
  wpc t (bind (do_act (Store (kill_fired ch) true)) k) Q g.
Proof.
  intros Hfew Hst Hg Ht HF Hk. apply wpc_act with (P := F); [done|done|].
  intros fin g1 [] g2 HF1 HI Hs. apply fire_step in Hs as Hv; [|apply HI].
  pose proof Hv as (Hr & Hf & Ho & Hsl & Hn & _). specialize (Ht g1 HF1).
  split_and!.
  - eapply guar_step; try done; [by left| |by repeat constructor].
    intros Hne _. destruct Ht as [?|(? & ? & ?)]; [done|done].
  - eapply inv_step; [done|done| |done|one_note..| | |done| |by auto].
    + destruct HI. unfold firsts at 2. simpl. lia.
    + intros [Hw|Hw%list_elem_of_singleton]%elem_of_app Hsl'; [|done].
      apply elem_of_app. left. by apply (inv_wired _ HI).
    + intros t0 m [= -> ->]%list_elem_of_singleton. split_and!; [done|done|].
      intros Hne. by destruct Ht as [?|(? & ? & ?)].
    + intros _. right. exists t. by left.
  - apply Hk; [|done]. by apply (HF g1).
Qed.

Context `{P : OsProcess} {L : OsProcessLaws P}.

Lemma wpc_os {A} t (p : prog A) (F : global W -> Prop) (Q : A -> global W -> Prop) g :
  all_obs os_obs p -> stable t F -> about_view F -> F g ->
  (forall a tr g, exec p tr (Some a) -> F g -> Inv g -> Q a g) -> wpc t p Q g.
Proof. intros Hp Hst Hv HF HQ. eapply wpc_apart; [done|done|by apply os_apart|done|done]. Qed.

Lemma came_first_rest t : about_rest (came_first t).
Proof. intros g g' Hr _ _ Hn [? ?]. unfold came_first. rewrite Hr. auto. Qed.

Lemma wpc_true t (a : unit) g : wpc t (Ret a) (fun _ _ => True) g.
Proof. by apply wpc_ret with (P := fun _ => True); [apply stable_true|..]. Qed.

Lemma about_end_rest F : about_end F -> about_rest F.
Proof. intros HF g g' _ Hf Hs _. apply HF; [done|by left]. Qed.

Lemma rest_and F G : about_rest F -> about_rest G -> about_rest (fun g => F g /\ G g).
Proof. intros HF HG g g' ???? [? ?]. split; eauto. Qed.

Lemma view_and F G : about_view F -> about_view G -> about_view (fun g => F g /\ G g).
Proof. intros HF HG g g' Hv [? ?]. split; eauto. Qed.

(** A thread in [cancel], whichever thread it is; it keeps what the run knows
    of the end of the handle. *)
Lemma wpc_cancel t (F : global W -> Prop) g :
  (t <= cancellers)%nat -> stable t F -> about_end F -> F g -> wpc t (cancel ch) (fun _ => F) g.
Proof.
  intros Hfew Hst HF Hg. unfold cancel.
  assert (forall g, F g -> wpc t (Ret tt) (fun _ => F) g) as Hdone.
  { intros g1 Hg1. by apply wpc_ret with (P := F). }
  apply wpc_swap with (F := F); simpl; [done..|exact Hdone|].
  intros g1 HF1 Hg1. apply wpc_lock with (F := fun g => F g /\ came_first t g);
    [apply stable_and; [done|apply came_first_stable]
    |by apply rest_and; [apply about_end_rest|apply came_first_rest]|done|].
  intros g2 [HF2 Hg2] Ho2. simpl. apply wpc_bind.
  assert (forall g, F g -> holding t g ->
    wpc t (do_act (Unlock (kill_slot ch))) (fun _ => F) g) as Hunlock.
  { intros g3 HF3 [Hc Ho]. apply wpc_unlock with (k := Ret) (F := F);
      [done|by apply about_end_rest|done|done|exact Hdone]. }
  assert (forall g, F g -> holding t g -> wpc t (Ret tt)
    (fun _ => wpc t (do_act (Unlock (kill_slot ch))) (fun _ => F)) g) as Hend.
  { intros g3 HF3 Hg3. apply wpc_ret with (P := fun g => F g /\ holding t g);
      [apply stable_and; [done|apply holding_stable]|done|]. intros g4 [? ?] _. by apply Hunlock. }
  apply wpc_look with (F := F); [done..|exact Hend|]. intros kill g3 HF3 Hg3.
  assert (stable t (fun g => F g /\ aiming t kill g)) as Hst'
    by (apply stable_and; [done|apply aiming_stable]).
  assert (about_view (fun g => F g /\ aiming t kill g)) as Hview
    by (apply view_and; [by apply about_end_view|apply view_aiming]).
  apply wpc_bind, wpc_os with (F := fun g => F g /\ aiming t kill g);
    [apply os_alive_obs|done..|].
  intros alive _ g4 _ [HF4 Hg4] _. destruct alive; [|by apply Hend, Hg4].
  apply wpc_fire with (F := fun g => F g /\ aiming t kill g); [done|done|done| | |].
  - intros g5 [_ [[[_ Hf] Ho] Hs]]. right. rewrite Hs. done.
  - intros g5 g6 [HF5 [[[Hr Hf] Ho] Hs]] Hr6 _ Ho6 Hs6 Hn6. split.
    { apply (HF g5); [done| |done]. right. by rewrite Hs. }
    unfold aiming, holding, came_first.
    rewrite Hr6, Ho6, Hs6, Hn6. split_and!; try done. apply elem_of_app. by left.
  - intros g5 Hg5 _. apply wpc_bind, wpc_os with (F := fun g => F g /\ aiming t kill g);
      [apply kill_clone_obs|done..|].
    intros _ _ g5' _ Hg5' _. apply wpc_bind, wpc_os with (F := fun g => F g /\ aiming t kill g);
      [apply os_kill_obs|done..|].
    intros _ _ g6 _ [HF6 Hg6] _. apply Hend; [done|]. apply Hg6.
Qed.

(** *** The thread of the run *)

(** A result of the run that says what became of the cancel. *)
Definition agrees (out : outcome (Result unit AerError.t)) (g : global W) : Prop :=
  (out = Val (Ok tt) -> fired g = false /\ slot g = None) /\
  (out = Val (Err AerError.Cancelled) -> fired g = true /\ slot g = None).

(** Early ends that say nothing about it. *)
Definition mute (out : outcome (Result unit AerError.t)) : Prop :=
  out <> Val (Ok tt) /\ out <> Val (Err AerError.Cancelled).

Lemma wpc_mute out g : mute out -> wpc 0%nat (Ret out) agrees g.
Proof. intros [Ho Hc]. by apply wpc_ret with (P := fun _ => True); [apply stable_true|..]. Qed.

(** A step apart from the handle, by thread [t]. *)
Lemma wpc_apart_act {A X} t (e : act X) (k : X -> prog A) (F : global W -> Prop) Q g :
  stable t F -> about_view F -> apart_act e -> F g ->
  (forall x g, F g -> Inv g -> wpc t (k x) Q g) -> wpc t (bind (do_act e) k) Q g.
Proof.
  intros Hst Hv He Hg Hk. apply wpc_act with (P := F); [done|done|].
  intros fin g1 x g2 HF HI Hs. destruct (apart_step _ _ _ _ _ _ He HI Hs) as (Hsv & HG & HI2).
  split_and!; [done|done|]. apply Hk; [by eapply Hv|done].
Qed.

Lemma wpc_fork_apart {A} t body (k : option tid -> prog A) (F : global W -> Prop) Q g :
  stable t F -> about_view F -> F g ->
  (forall n g, n <> 0%nat -> Inv g -> wpc n body (fun _ _ => True) g) ->
  (forall o g, F g -> wpc t (k o) Q g) -> wpc t (bind (fork body) k) Q g.
Proof.
  intros Hst Hv Hg Hb Hk. apply wpc_fork with (P := F); [done|done|].
  intros g1 o g2 HF HI Hm _ Hl. destruct (fork_step _ _ _ _ _ HI Hm Hl) as (Hsv & HG & HI2).
  split_and!; [done|done|by eapply Hk, Hv|]. intros n _ Hn. by apply Hb.
Qed.

(** What the run knows once it has wired the slot, and once it has unwired it. *)
Definition wired (g : global W) : Prop := (0%nat, Wired) ∈ notes g.
Definition closed (b : bool) (g : global W) : Prop := slot g = None /\ fired g = b.

Lemma wired_stable : stable 0%nat wired.
Proof. intros g g' Hw (_ & u & _ & HG & _). by eapply notes_mono. Qed.

Lemma slot_stable v : stable 0%nat (fun g => slot g = v).
Proof.
  intros g g' Hs (_ & u & Hu & HG & _). destruct (decide (slot g' = slot g)) as [->|Hne]; [done|].
  by destruct (guar_slot _ _ _ HG Hne).
Qed.

Lemma closed_stable b : stable 0%nat (closed b).
Proof.
  intros g g' [Hs Hf] Hr. split; [by eapply slot_stable|].
  destruct Hr as (_ & u & Hu & HG & _). destruct (decide (fired g' = fired g)) as [->|Hne]; [done|].
  by destruct (guar_fired _ _ _ HG Hu Hne).
Qed.

Lemma wpc_set {A} v (k : option KillHandle -> prog A) Q g :
  owner g = Some 0%nat ->
  (forall old g, owner g = Some 0%nat -> slot g = v -> (v <> None -> wired g) ->
     wpc 0%nat (k old) Q g) ->
  wpc 0%nat (bind (do_act (SetSlot (kill_slot ch) v)) k) Q g.
Proof.
  intros Hg Hk. apply wpc_act with (P := fun g => owner g = Some 0%nat); [apply owner_stable|done|].
  intros fin g1 old g2 Ho1 HI Hs. apply set_step in Hs as Hv.
  pose proof Hv as (Hr & Hf & Ho & Hsl & Hn & _).
  split_and!.
  - eapply guar_step; try done; [by left|by repeat constructor].
  - eapply inv_step; [done|done| |done| | | | | |done|by left|].
    + destruct HI. destruct v; unfold firsts at 2; simpl; lia.
    + intros t Ht. destruct v; one_note.
    + intros Ht. destruct v; one_note.
    + intros t t' Ht. destruct v; one_note.
    + intros _ ->. apply elem_of_app. right. by left.
    + intros t m [= -> ->]%list_elem_of_singleton. by destruct v.
    + intros t Ht Hne _. congruence.
  - apply Hk; [by rewrite Ho|done|]. intros Hne. unfold wired. rewrite Hn. apply elem_of_app. right.
    destruct v; [by left|done].
Qed.

Lemma wpc_set_kill {A} v (k : unit -> prog A) Q g :
  (forall g, slot g = v -> (v <> None -> wired g) -> wpc 0%nat (k tt) Q g) ->
  wpc 0%nat (bind (set_kill ch v) k) Q g.
Proof.
  intros Hk. unfold set_kill. apply wpc_bind.
  apply wpc_lock with (F := fun _ => True); [apply stable_true|done|done|].
  intros g1 _ Ho1. apply wpc_set; [done|]. intros old g2' Ho2' Hs2' Hw2'. apply wpc_bind.
  apply wpc_os with (F := fun g => (owner g = Some 0%nat /\ slot g = v) /\ (v <> None -> wired g));
    [apply kill_drop_opt_obs| | |done|].
  { apply stable_and; [apply stable_and; [apply owner_stable|apply slot_stable]|].
    intros h h' Hw Hr Hv. by eapply wired_stable; [apply Hw|]. }
  { intros h h' (_ & _ & Ho & Hs & Hn) [[? ?] ?]. unfold wired. by rewrite Ho, Hs, Hn. }
  intros [] _ g2 _ [[Ho2 Hs2] Hw2] _.
  apply wpc_unlock with (k := Ret) (F := fun g => slot g = v /\ (v <> None -> wired g)).
  - apply stable_and; [apply slot_stable|]. intros h h' Hw Hr Hv. by eapply wired_stable; [apply Hw|].
  - intros h h' _ _ Hs Hn [Hh Hw]. rewrite Hs. split; [done|].
    intros Hne. by apply Hn, Hw.
  - done.
  - done.
  - intros g3 [Hs3 Hw3]. apply wpc_ret with (P := fun g => slot g = v /\ (v <> None -> wired g)).
    + apply stable_and; [apply slot_stable|]. intros h h' Hw Hr Hv. by eapply wired_stable; [apply Hw|].
    + done.
    + intros g4 [Hs4 Hw4] _. by apply Hk.
Qed.

(** Wiring the handle, with the kill for a request that came first. *)
Lemma wpc_wire {A} kill (k : unit -> prog A) Q g :
  (forall g, wpc 0%nat (k tt) Q g) ->
  wpc 0%nat (bind (wire_cancel (Some ch) kill) k) Q g.
Proof.
  intros Hk. unfold wire_cancel. apply wpc_bind, wpc_bind.
  apply wpc_os with (F := fun _ => True); [apply kill_clone_obs|apply stable_true|done|done|].
  intros [] _ g0 _ _ _. apply wpc_set_kill. intros g1 _ Hw1.
  specialize (Hw1 ltac:(done)).
  assert (forall g, wired g -> wpc 0%nat (Ret tt) (fun a => wpc 0%nat (k a) Q) g) as Hend.
  { intros h Hh. apply wpc_ret with (P := wired); [apply wired_stable|done|]. auto. }
  assert (about_view wired) as Hview.
  { intros h h' (_ & _ & _ & _ & Hn). unfold wired. by rewrite Hn. }
  apply wpc_act with (P := wired); [apply wired_stable|done|].
  intros fin g2 c g3 Hw2 HI Hs. apply load_step in Hs as [Hc Hv].
  pose proof Hv as (Hr & _ & Ho & Hsl & Hn & _).
  assert (wired g3) as Hw3. { unfold wired. rewrite Hn. apply elem_of_app. by left. }
  split_and!.
  - eapply guar_step; try done; [by left|destruct c; by repeat constructor].
  - destruct c; [by eapply inv_silent|].
    eapply inv_step; [done|done| |done|one_note| |one_note| | |done|by left|by auto].
    + destruct HI. unfold firsts at 2. simpl. lia.
    + intros _. split; [done|]. intros [t Ht]. exfalso. apply (inv_empty _ HI) in Ht. congruence.
    + intros [Hw|Hw%list_elem_of_singleton]%elem_of_app Hsl'; [|done].
      apply elem_of_app. left. by apply (inv_wired _ HI).
    + by intros t' m' [= -> ->]%list_elem_of_singleton.
  - assert (forall due g, wired g -> wpc 0%nat
      (if due : bool then
         do_act (Store (kill_fired ch) true) ;;; kill_clone kill ;;;
         os_kill_escalating kill KILL_GRACE ;;; Ret tt
       else Ret tt) (fun a => wpc 0%nat (k a) Q) g) as Hdue.
    { intros [] h Hh; [|by apply Hend].
      apply wpc_fire with (F := wired); [lia|apply wired_stable|done|by left| |].
      - intros h1 h2 Hh1 _ _ _ _ Hn'. unfold wired. rewrite Hn'. apply elem_of_app. by left.
      - intros h1 Hh1 _. apply wpc_bind, wpc_os with (F := wired);
          [apply kill_clone_obs|apply wired_stable|done|done|]. intros _ _ h2 _ Hh2 _.
        apply wpc_bind, wpc_os with (F := wired);
          [apply os_kill_obs|apply wired_stable|done|done|]. intros _ _ h3 _ Hh3 _. by apply Hend. }
    apply wpc_bind. destruct c.
    + apply wpc_act with (P := wired); [apply wired_stable|done|].
      intros fin' h f h' Hh HIh Hs'.
      destruct (load_fired_ok _ _ _ _ _ HIh Hs') as (_ & HG & HI' & Hsub).
      assert (wired h') as Hh' by (by apply Hsub).
      split_and!; [done|done|].
      destruct f.
      * apply wpc_ret with (P := wired); [apply wired_stable|done|]. auto.
      * apply wpc_os with (F := wired); [apply os_alive_obs|apply wired_stable|done|done|]. auto.
    + apply wpc_ret with (P := wired); [apply wired_stable|done|]. auto.
Qed.

Definition ctl_ok (c : ctl Z) : Prop :=
  match c with
  | Early e => exists io, e = AerError.WaitFailed io
  | Go _ | Unwind _ => True
  end.

Lemma true_view : about_view (fun _ => True).
Proof. done. Qed.

(** A step apart from the handle, when nothing needs to be remembered. *)
Lemma wpc_any {A X} t (e : act X) (k : X -> prog A) Q g :
  apart_act e -> (forall x g, wpc t (k x) Q g) -> wpc t (bind (do_act e) k) Q g.
Proof.
  intros He Hk. apply wpc_apart_act with (F := fun _ => True); auto using stable_true, true_view.
Qed.

Lemma wpc_done {A} t (a : A) (Q : A -> global W -> Prop) g : (forall g, Q a g) -> wpc t (Ret a) Q g.
Proof. intros HQ. by apply wpc_ret with (P := fun _ => True); [apply stable_true|..]. Qed.

Lemma wpc_wait_body handle sinks wait_ch n g :
  n <> 0%nat -> wpc n (wait_body handle sinks wait_ch) (fun _ _ => True) g.
Proof.
  intros Hn. unfold wait_body. apply wpc_bind, wpc_os with (F := fun _ => True);
    [apply os_wait_obs|apply stable_true|done|done|].
  intros result tr g1 Hex _ _. destruct result as [result|p].
  - apply wpc_any; [|intros; apply wpc_any with (k := Ret); [done|]; intros; by apply wpc_done].
    simpl. destruct result; [done|]. by eapply os_wait_err.
  - apply wpc_any with (k := Ret); [done|]. intros; by apply wpc_done.
Qed.

Lemma wpc_recv_wait {A} t (c : chan TyWait) (k : option (Result Z AerError.t) -> prog A) Q g :
  (forall x g, (forall r, x = Some r -> wait_ok r) -> wpc t (k x) Q g) ->
  wpc t (bind (do_act (Recv c)) k) Q g.
Proof.
  intros Hk. apply wpc_act with (P := fun _ => True); [apply stable_true|done|].
  intros fin g1 x g2 _ HI Hs.
  assert (forall r, x = Some r -> wait_ok r) as Hx.
  { destruct Hs as [_ [(el & Hs & _)|(Hs & _)]]; simpl in Hs.
    - destruct (q_wait _) eqn:E; [destruct (txs _); [|done]|]; injection Hs as <- _; [done|].
      intros r0 [= <-]. apply (inv_wait _ HI (chan_key c)). rewrite E. by left.
    - destruct (q_wait _); [destruct (txs _)|]; done. }
  destruct (apart_step _ _ (Recv c) _ _ _ I HI Hs) as (_ & HG & HI2).
  split_and!; [done|done|by apply Hk].
Qed.

Lemma wpc_thread_spawn {A} t body captured (k : outcome tid -> prog A) Q g :
  (forall n g, n <> 0%nat -> Inv g -> wpc n body (fun _ _ => True) g) ->
  all_obs (apart 1) captured ->
  (forall x g, wpc t (k x) Q g) -> wpc t (bind (thread_spawn body captured) k) Q g.
Proof.
  intros Hb Hc Hk. apply wpc_bind. unfold thread_spawn.
  apply wpc_fork_apart with (F := fun _ => True); [apply stable_true|done|done|done|].
  intros [n|] g1 _; [by apply wpc_done|]. apply wpc_bind.
  eapply wpc_apart with (F := fun _ => True); [apply stable_true|done|done|done|].
  intros [] tr g2 _ _ _. by apply wpc_done.
Qed.

(** A callback that keeps what the run knows of the end of the handle. *)
Definition polite (on_event : Event.t -> prog (outcome unit)) : Prop :=
  forall ev (F : global W -> Prop) g,
    stable 0%nat F -> about_end F -> F g -> wpc 0%nat (on_event ev) (fun _ => F) g.

(** One whose steps are apart from the handle is such a callback ... *)
Lemma polite_apart d on_event : (forall ev, all_obs (apart d) (on_event ev)) -> polite on_event.
Proof.
  intros Hcb ev F g Hst HF Hg.
  apply wpc_apart with (d := d) (F := F); [done|by apply about_end_view|done|done|done].
Qed.

(** ... and so is one that also calls [cancel] on it, before or after. *)
Lemma polite_cancel (before : Event.t -> bool) on_event :
  polite on_event ->
  polite (fun ev => if before ev then cancel ch ;;; on_event ev else on_event ev).
Proof.
  intros Hcb ev F g Hst HF Hg. destruct (before ev); [|by apply Hcb].
  apply wpc_bind. eapply wpc_mono; [|by apply (wpc_cancel 0%nat F); [lia|..]].
  intros [] g1 _ Hg1. by apply Hcb.
Qed.

Section Callback.
Context (on_event : Event.t -> prog (outcome unit)) (Hcb : polite on_event).

Lemma polite_any ev g : wpc 0%nat (on_event ev) (fun _ _ => True) g.
Proof using Hcb. by apply (Hcb ev (fun _ => True)). Qed.

Lemma closed_end b : about_end (closed b).
Proof. intros g g' Hs Hf [Hn Hb]. split; [by rewrite Hs|]. by destruct Hf as [->|]. Qed.

Lemma wpc_pump chunk_ch g : wpc 0%nat (pump on_event chunk_ch) (fun _ _ => True) g.
Proof using Hcb.
  apply wpc_iter with (J := fun _ _ => True); [done|done|]. intros [] g1 _ _.
  unfold pump_round. apply wpc_any; [done|]. intros m g2. destruct m as [m|].
  - apply wpc_bind. eapply wpc_mono; [|apply polite_any]. intros r g3 _ _.
    destruct r as [u|p]; apply wpc_done; [done|]. intros g4. by apply wpc_done.
  - apply wpc_done. intros g3. by apply wpc_done.
Qed.

Lemma wpc_wait_capturing handle g :
  wpc 0%nat (wait_capturing on_event handle) (fun c _ => ctl_ok c) g.
Proof using Hcb L.
  unfold wait_capturing. apply wpc_any; [done|]. intros chunk_ch g1.
  do 3 (apply wpc_any; [done|]; intros _ ?). apply wpc_any; [done|]. intros wait_ch h2.
  apply wpc_thread_spawn.
  { intros n h Hn _. by apply wpc_wait_body. }
  { all_obs_solve ltac:(done). }
  intros wt h3. apply wpc_bind. apply wpc_mono with (Q := fun c _ => ctl_ok c).
  { intros c h _ Hc. do 2 (apply wpc_any; [done|]; intros _ ?). by apply wpc_done. }
  destruct wt as [wt|p]; [|by apply wpc_done].
  apply wpc_bind. eapply wpc_mono; [|apply wpc_pump].
  intros [[]|p] g4 _ _; [|by apply wpc_done].
  apply wpc_recv_wait. intros x g5 Hx. destruct x as [result|]; [|apply wpc_done; by eexists].
  apply wpc_any; [done|]. intros _ g6. specialize (Hx _ eq_refl).
  destruct result; by apply wpc_done.
Qed.

Lemma wpc_wait_discarding handle g :
  wpc 0%nat (wait_discarding handle) (fun c _ => ctl_ok c) g.
Proof.
  unfold wait_discarding. apply wpc_bind, wpc_os with (F := fun _ => True);
    [apply os_wait_obs|apply stable_true|done|done|].
  intros r tr g1 Hex _ _. destruct r as [[code|e]|p]; apply wpc_done; try done.
  intros _. by eapply os_wait_err.
Qed.

Lemma view_closed b : about_view (closed b).
Proof. intros g g' (_ & Hf & _ & Hs & _). unfold closed. by rewrite Hf, Hs. Qed.

Lemma wpc_finish timed_out cancel_ch os_code g :
  timed_out <> cancelled ch -> timed_out <> kill_fired ch ->
  wpc 0%nat (finish on_event (Some ch) {| Machine.state := Running |} timed_out cancel_ch os_code)
    agrees g.
Proof using Hcb.
  intros Hc Hf. unfold finish, unwire_cancel. apply wpc_set_kill. intros g1 Hs1 _.
  assert (closed (fired g1) g1) as Hg1 by done. revert Hg1. generalize (fired g1). intros b Hg1.
  apply wpc_apart_act with (F := closed b); [apply closed_stable|apply view_closed|done|done|].
  intros _ g2 Hg2 _.
  apply wpc_apart_act with (F := closed b); [apply closed_stable|apply view_closed|done|done|].
  intros b1 g3 Hg3 _.
  apply wpc_act with (k := fun b2 => _) (P := closed b); [apply closed_stable|done|].
  intros fin g4 b2 g5 [Hs4 Hf4] HI Hs.
  pose proof (load_fired_step _ _ _ _ _ (inv_distinct _ HI) Hs) as [-> (_ & Hf5 & _ & Hs5 & _)].
  destruct (load_fired_ok _ _ _ _ _ HI Hs) as (_ & HG & HI' & _).
  assert (closed b g5) as Hg5 by (unfold closed; by rewrite Hf5, Hs5).
  split_and!; [done|done|].
  rewrite Hf4. clear fin g4 Hs4 Hf4 HI Hs Hf5 Hs5 HG HI'.
  change (transition {| Machine.state := Running |} Exited) with
    ({| Machine.state := Exited |}, @Ok unit AerError.t tt). cbv iota beta zeta.
  apply wpc_bind. eapply wpc_mono; [|by apply (Hcb _ (closed b)); [apply closed_stable|apply closed_end|]].
  intros cb g6 _ Hg6.
  destruct cb as [u|p]; (apply wpc_ret with (P := closed b); [apply closed_stable|done|]);
    intros g7 [Hs7 Hf7] _; [|done].
  split; [intros [= Hout]|intros [= Hout]]; destruct b1, b; simpl in Hout; done.
Qed.

Lemma monitor_apart kill timed_out cancel_ch timeout :
  timed_out <> cancelled ch -> timed_out <> kill_fired ch ->
  all_obs (apart 1) (monitor_body kill timed_out cancel_ch timeout).
Proof.
  intros Hc Hf. unfold monitor_body. all_obs_solve ltac:(done);
    try (apply os_apart; auto using os_alive_obs, os_kill_obs).
  all: by split.
Qed.

Lemma wpc_start_monitor {A} timeout kill timed_out cancel_ch (k : outcome unit -> prog A) Q g :
  timed_out <> cancelled ch -> timed_out <> kill_fired ch ->
  (forall x g, wpc 0%nat (k x) Q g) ->
  wpc 0%nat (bind (start_monitor timeout kill timed_out cancel_ch) k) Q g.
Proof.
  intros Hc Hf Hk. apply wpc_bind. unfold start_monitor. destruct timeout as [timeout|]; [|by apply wpc_done].
  apply wpc_bind, wpc_os with (F := fun _ => True); [apply kill_clone_obs|apply stable_true|done|done|].
  intros [] _ g1 _ _ _. apply wpc_thread_spawn.
  - intros n h _ _. eapply wpc_apart with (F := fun _ => True); [apply stable_true|done| |done|done].
    by apply monitor_apart.
  - all_obs_solve ltac:(done).
  - intros [t|p] h; by apply wpc_done.
Qed.

(** The flag of a new [AtomicBool] is not one of the handle's. *)
Lemma wpc_new_flag {A} (k : loc -> prog A) Q g :
  (forall l g, l <> cancelled ch -> l <> kill_fired ch -> wpc 0%nat (k l) Q g) ->
  wpc 0%nat (bind (do_act (NewFlag false)) k) Q g.
Proof.
  intros Hk. apply wpc_act with (P := fun _ => True); [apply stable_true|done|].
  intros fin g1 x g2 _ HI Hs.
  assert (x = next (memory g1)) as ->.
  { destruct Hs as [_ [(el & Hs & _)|(Hs & _)]]; simpl in Hs; [by injection Hs|done]. }
  destruct (apart_step _ _ (NewFlag false) _ _ _ I HI Hs) as (_ & HG & HI2).
  destruct (inv_alloc _ HI) as (H1 & H2 & H3).
  split_and!; [done|done|]. apply Hk; intros E; rewrite E in *; lia.
Qed.

Lemma agrees_stable out : stable 0%nat (agrees out).
Proof.
  intros g g' [Hok Hc] Hr. split; intros Hout.
  - destruct (Hok Hout) as [Hf Hs].
    destruct (closed_stable false g g' (conj Hs Hf) Hr) as [Hs' Hf']. by split.
  - destruct (Hc Hout) as [Hf Hs].
    destruct (closed_stable true g g' (conj Hs Hf) Hr) as [Hs' Hf']. by split.
Qed.

Lemma view_agrees out : about_view (agrees out).
Proof. intros g g' (_ & Hf & _ & Hs & _). unfold agrees. by rewrite Hf, Hs. Qed.

Lemma mute_agrees out g : mute out -> agrees out g.
Proof. intros [Ho Hc]. by split. Qed.

Lemma wpc_guarded_body task handle guard g :
  wpc 0%nat (guarded_body task on_event (Some ch) Machine.new handle guard)
    (fun x g => agrees x.2 g) g.
Proof using Hcb L.
  unfold guarded_body. rewrite transition_running.
  assert (forall p g, agrees (Panic p) g) as Hpanic by (intros; by apply mute_agrees).
  apply wpc_bind. eapply wpc_mono; [|apply polite_any]. intros [[]|p] g1 _ _; [|by apply wpc_done].
  apply wpc_wire. intros g2. apply wpc_new_flag. intros timed_out g3 Hc Hf.
  apply wpc_any; [done|]. intros cancel_ch g4. apply wpc_start_monitor; [done|done|].
  intros m g5. apply wpc_bind. apply wpc_mono with (Q := fun x g => agrees x.2 g).
  { intros [[guard' rest] out] h _ Hout. apply wpc_bind.
    eapply wpc_apart with (F := agrees out) (d := 0%nat);
      [apply agrees_stable|apply view_agrees| |done|].
    { all_obs_solve ltac:(done). }
    intros [] _ h1 _ Hh1 _. apply wpc_apart_act with (F := agrees out);
      [apply agrees_stable|apply view_agrees|done|done|].
    intros _ h2 Hh2 _. apply wpc_ret with (P := agrees out); [apply agrees_stable|done|done]. }
  destruct m as [[]|p]; [|by apply wpc_done].
  apply wpc_bind. apply wpc_mono with (Q := fun c _ => ctl_ok c).
  - intros c h _ Hctl. destruct c as [os_code|e|p].
    + apply wpc_bind. eapply wpc_mono; [|by apply wpc_finish].
      intros out h1 _ Hout. apply wpc_ret with (P := agrees out); [apply agrees_stable|done|done].
    + apply wpc_done. intros h1. apply mute_agrees. destruct Hctl as [io ->]. by split.
    + by apply wpc_done.
  - destruct (capture_output task); [apply wpc_wait_capturing|apply wpc_wait_discarding].
Qed.

Lemma wpc_run_impl task g : wpc 0%nat (run_impl task on_event (Some ch)) agrees g.
Proof using Hcb L.
  unfold run_impl. apply wpc_bind, wpc_os with (F := fun _ => True);
    [apply os_spawn_obs|apply stable_true|done|done|].
  intros spawned tr g1 Hex _ _. destruct spawned as [handle|e].
  - apply wpc_bind, wpc_os with (F := fun _ => True); [apply kill_clone_obs|apply stable_true|done|done|].
    intros [] _ g2 _ _ _. apply wpc_bind. eapply wpc_mono; [|apply wpc_guarded_body].
    intros [[guard rest] out] h _ Hout. simpl in Hout. apply wpc_bind.
    apply wpc_os with (F := agrees out); [|apply agrees_stable|apply view_agrees|done|].
    { unfold guard_drop. all_obs_solve ltac:(done);
        auto using os_kill_obs, os_reap_obs, kill_clone_obs, kill_drop_obs. }
    intros [] _ h1 _ Hh1 _. apply wpc_bind.
    apply wpc_os with (F := agrees out); [|apply agrees_stable|apply view_agrees|done|].
    { destruct rest; [apply kill_drop_obs|apply all_obs_ret]. }
    intros [] _ h2 _ Hh2 _. apply wpc_ret with (P := agrees out); [apply agrees_stable|done|done].
  - destruct (os_spawn_err _ _ _ _ _ Hex) as [io ->]. apply wpc_done. intros h.
    apply mute_agrees. by split.
Qed.
End Callback.

(** ** Properties *)

(** A callback that takes the event, and before that calls [cancel] on the
    events it chooses. *)
Definition cancelling (wants : Event.t -> bool) (ev : Event.t) : prog (outcome unit) :=
  if wants ev then cancel ch ;;; rust_callback ev else rust_callback ev.

Lemma cancelling_polite wants : polite (cancelling wants).
Proof.
  apply (polite_cancel wants rust_callback), (polite_apart 0). intros ev.
  unfold rust_callback. all_obs_solve ltac:(done).
Qed.

(** A new handle, one thread about to run a task with it, [n] threads about to
    cancel it. *)
Definition fresh (g : global W) : Prop :=
  cancelled ch <> kill_fired ch /\
  (cancelled ch < next (memory g) /\ kill_fired ch < next (memory g) /\
   kill_slot ch < next (memory g))%nat /\
  requested g = false /\ fired g = false /\ owner g = None /\ slot g = None /\
  log g = [] /\ forall l, q_wait (chan_at (memory g) l) = [].

Definition race (task : Task) (wants : Event.t -> bool) (n : nat) (g : global W) :
    config W (outcome (Result unit AerError.t)) :=
  mkConfig (run_impl task (cancelling wants) (Some ch)) (replicate n (cancel ch)) g.

(** Nothing has been done with the handle yet. *)
Lemma blank_inv g :
  cancelled ch <> kill_fired ch ->
  (cancelled ch < next (memory g) /\ kill_fired ch < next (memory g) /\
   kill_slot ch < next (memory g))%nat ->
  notes g = [] -> fired g = false -> (forall l, q_wait (chan_at (memory g) l) = []) -> Inv g.
Proof.
  intros Hd Ha Hn Hf Hq. split; rewrite ?Hn, ?Hf; try done;
    try (by intros ?%elem_of_nil); try (by intros ? ?%elem_of_nil).
  - intros l x. rewrite Hq. by intros ?%elem_of_nil.
  - unfold firsts. simpl. lia.
  - by intros ? ? ?%elem_of_nil.
Qed.

Lemma fresh_inv g : fresh g -> Inv g.
Proof.
  intros (Hd & Ha & Hr & Hf & Ho & Hs & Hl & Hq). apply blank_inv; try done.
  unfold notes. by rewrite Hl.
Qed.

(** *** From the notes to the steps *)

Lemma elem_of_notes g t m : (t, m) ∈ notes g <-> exists o, (t, o) ∈ log g /\ mark_of ch o = Some m.
Proof.
  unfold notes, marks. rewrite list_elem_of_omap. split.
  - intros ([u o] & Hin & Hm). simpl in Hm. destruct (mark_of ch o) eqn:E; [|done].
    simplify_eq. by exists o.
  - intros (o & Hin & Hm). exists (t, o). split; [done|]. simpl. by rewrite Hm.
Qed.

Lemma noted g t o m : o ∈ own t (log g) -> mark_of ch o = Some m -> (t, m) ∈ notes g.
Proof. intros Hin%elem_of_own Hm. apply elem_of_notes. by exists o. Qed.

Lemma mark_fired o : mark_of ch o = Some Fired -> o = fires ch.
Proof.
  destruct o as [X e x|]; [|done]. destruct e; simpl; try done; repeat case_match; try done.
  intros _. subst. by destruct x.
Qed.

Lemma mark_released o : mark_of ch o = Some Released -> o = Obs (Unlock (kill_slot ch)) tt.
Proof.
  destruct o as [X e x|]; [|done]. destruct e; simpl; try done; repeat case_match; try done.
  intros _. subst. by destruct x.
Qed.

Lemma mark_empty o : mark_of ch o = Some SawEmpty -> o = Obs (GetSlot (kill_slot ch)) None.
Proof.
  destruct o as [X e x|]; [|done]. destruct e; simpl; try done; repeat case_match; try done.
  intros _. by subst.
Qed.

Lemma fired_fires g t : (t, Fired) ∈ notes g <-> fires ch ∈ own t (log g).
Proof.
  split; [intros (o & Hin & ->%mark_fired)%elem_of_notes; by apply elem_of_own|].
  intros Hin. eapply noted; [done|]. simpl. by rewrite decide_True.
Qed.

(** Only one [cancel] comes first. *)
Lemma one_first g t u : Inv g -> (t, First) ∈ notes g -> (u, First) ∈ notes g -> t = u.
Proof.
  intros HI Hft Hfu. destruct (decide (t = u)) as [?|Hne]; [done|]. exfalso.
  pose proof (inv_first _ HI) as Hle.
  assert (2 <= firsts (notes g))%nat; [|destruct (requested _); lia].
  unfold firsts. apply list_elem_of_split in Hft as (l1 & l2 & E). rewrite E in *.
  rewrite filter_app, length_app, filter_cons_True by done. simpl.
  apply elem_of_app in Hfu as [Hfu|[Hfu|Hfu]%elem_of_cons]; [|by simplify_eq|];
    apply list_elem_of_split in Hfu as (l3 & l4 & ->);
    rewrite filter_app, length_app, filter_cons_True by done; simpl; lia.
Qed.

(** *** What the threads' own steps say together *)

Section Told.
(** The trace of the run's thread is that of a conclusive run, maybe with steps
    around it that concern none of this. *)
Definition ran (task : Task) (k : KillHandle) (tr : list obs) : Prop :=
  proper ch tr /\ run_handle task k tr /\ Forall (sets_only ch k) tr.

Definition told (task : Task) (k : KillHandle) (g : global W) : Prop :=
  Inv g /\ ran task k (own 0%nat (log g)) /\
  (forall t, (0 < t <= cancellers)%nat -> candid ch (own t (log g))) /\
  (forall t o k, (t, o) ∈ log g -> finds (kill_slot ch) o = Some k ->
     exists u o', (u, o') ∈ log g /\ puts (kill_slot ch) o' = Some k).

(** Whatever handle was in the slot, it is the run's process's. *)
Lemma told_put task k g u o k' :
  told task k g -> (u, o) ∈ log g -> puts (kill_slot ch) o = Some k' -> k' = k.
Proof.
  intros (HI & (_ & _ & Hset) & _ & _) Hin Ho.
  destruct o as [X e x|]; [|done]. destruct e; simpl in Ho; try done. case_decide as El; [|done].
  subst v. assert (u = 0%nat) as ->.
  { apply (inv_wirer _ HI), elem_of_notes. eexists. split; [exact Hin|]. simpl. by rewrite decide_True. }
  rewrite Forall_forall in Hset. apply (Hset (Obs (SetSlot l (Some k')) x)); [by apply elem_of_own|done].
Qed.

Lemma told_aimed task k g t k' : told task k g -> aimed ch k' (own t (log g)) -> k' = k.
Proof.
  intros Ht Ha. pose proof Ht as (_ & _ & _ & Hfinds).
  assert (exists u o, (u, o) ∈ log g /\ puts (kill_slot ch) o = Some k') as (u & o & Hin & Ho).
  { destruct Ha as [Hin%elem_of_own|[old Hin%elem_of_own]].
    - eapply Hfinds; [exact Hin|]. simpl. by rewrite decide_True.
    - eexists _, _. split; [exact Hin|]. simpl. by rewrite decide_True. }
  by eapply told_put.
Qed.

Lemma told_spared task k g t :
  told task k g -> fired g = false -> (t <= cancellers)%nat -> ~ struck (own t (log g)).
Proof.
  intros (HI & (Hp & _) & Hc & _) Hf Ht.
  assert (fires ch ∉ own t (log g)) as Hn.
  { intros Hin%fired_fires. apply (inv_flag _ HI) in Hin; [congruence|by left]. }
  apply orderly_struck. destruct (decide (t = 0%nat)) as [->|Hne].
  - by destruct (proper_excused _ _ Hp).
  - apply orderly_spares. by destruct (candid_spares _ _ (Hc t ltac:(lia))).
Qed.

Lemma told_killed task k g :
  told task k g -> fired g = true -> slot g = None ->
  exists t, (t <= cancellers)%nat /\ carried ch k (own t (log g)).
Proof.
  intros Ht Hf Hs. pose proof Ht as (HI & (Hp & _) & Hc & _).
  destruct (inv_lit _ HI Hf) as [t Hin]. pose proof (inv_few _ HI _ Hin) as Hle.
  exists t. split; [done|]. destruct (decide (t = 0%nat)) as [->|Hne].
  - apply fired_fires in Hin. destruct (proper_kept _ _ Hp Hin) as (k' & Hk & Ha).
    by rewrite (told_aimed _ _ _ _ _ Ht Ha) in Hk.
  - destruct (inv_done _ HI t Hin Hne) as [[_ ?]|Hr]; [done|]. apply fired_fires in Hin.
    apply elem_of_notes in Hr as (o & Ho%elem_of_own & ->%mark_released).
    destruct (candid_carried _ _ (Hc t ltac:(lia)) Hin Ho) as (k' & Hk & Hg).
    rewrite (told_aimed task k g t k') in Hk; [done|done|by left].
Qed.

(** A request that found no process, and that the run saw. *)
Lemma told_seen task k g t :
  told task k g -> (t, SawEmpty) ∈ notes g -> Obs (Load (cancelled ch)) true ∈ own 0%nat (log g) ->
  carried ch k (own 0%nat (log g)) \/ found_dead ch k (own 0%nat (log g)).
Proof.
  intros Ht He Hin. pose proof Ht as (HI & (Hp & _) & Hc & _).
  assert (fires ch ∈ own 0%nat (log g) -> carried ch k (own 0%nat (log g))) as Hown.
  { intros Hfi. destruct (proper_kept _ _ Hp Hfi) as (k' & Hk & Ha).
    by rewrite (told_aimed _ _ _ _ _ Ht Ha) in Hk. }
  destruct (proper_seen _ _ Hp Hin) as [Hf|(k' & Ha & Hk)];
    [|by rewrite (told_aimed _ _ _ _ _ Ht Ha) in Hk].
  assert (fired g = true) as Hfi.
  { apply (inv_flag _ HI 0%nat SawFired); [|by right]. eapply noted; [exact Hf|]. simpl.
    rewrite decide_False, decide_True; [done..|]. apply not_eq_sym, (inv_distinct _ HI). }
  left. apply Hown. destruct (inv_lit _ HI Hfi) as [u Hu].
  destruct (decide (u = 0%nat)) as [->|Hne]; [by apply fired_fires|]. exfalso.
  assert (u = t) as ->.
  { eapply one_first; [done|by apply (inv_fired _ HI)|by apply (inv_looked _ HI)]. }
  apply elem_of_notes in He as (o & Ho%elem_of_own & ->%mark_empty). pose proof (inv_few _ HI _ Hu).
  apply (candid_empty _ _ (Hc t ltac:(lia)) Ho). by apply fired_fires.
Qed.
End Told.

(** *** The answers the memory gives *)

Lemma clean_step fin t o g g' : Inv g -> obs_step external fin t o g g' -> clean ch o.
Proof.
  intros HI Ho. destruct o as [X e x|]; [|done]. destruct e; try done.
  - destruct Ho as [_ [(el & [= <- _] & _)|([=] & _)]]. simpl. destruct (inv_alloc _ HI) as (? & _ & _). lia.
  - destruct ty; try done. destruct Ho as [_ [(el & Hs & _)|(Hs & _)]]; simpl in Hs.
    + intros r ->. destruct (q_wait _) eqn:E; [destruct (txs _); [|done]|]; simplify_eq.
      apply (inv_wait _ HI (chan_key c)). rewrite E. by left.
    + destruct (q_wait _); [destruct (txs _)|]; done.
Qed.

Lemma log_clean {R} (G : tid -> global W -> global W -> Prop) (Q : R -> global W -> Prop)
    (c c' : config W R) :
  pool_ok external Inv G Q c -> reachable external c c' ->
  exists l, log (state c') = log (state c) ++ l /\ Forall (fun x => clean ch x.2) l.
Proof.
  intros Hok Hr. induction Hr as [c|c c1 c2 Hs _ IH]; [exists []; by rewrite app_nil_r|].
  destruct IH as (l & El & Hl); [by eapply pool_step|]. destruct Hok as (HI & _).
  destruct (step_log _ _ _ Hs) as [E|(t & o & E & Ho)].
  - exists l. by rewrite El, E.
  - exists ((t, o) :: l). rewrite El, E, <- app_assoc. split; [done|].
    constructor; [by eapply clean_step|done].
Qed.

Lemma own_clean {R} (Q : R -> global W -> Prop) (c c' : config W R) t :
  pool_ok external Inv Guar Q c -> log (state c) = [] -> reachable external c c' ->
  Forall (clean ch) (own t (log (state c'))).
Proof.
  intros Hok Hl Hr. destruct (log_clean _ _ _ _ Hok Hr) as (l & -> & Hc). rewrite Hl. simpl.
  apply Forall_forall. intros o Hin%elem_of_own. rewrite Forall_forall in Hc. by apply (Hc (t, o)).
Qed.
End Race.

(** ** Properties *)

Section Properties.
Context {W : Type}.
Variable external : tid -> forall X, act X -> W -> X -> W -> Prop.
Variable ch : CancelHandle.
Context `{P : OsProcess} {L : OsProcessLaws P} {K : OsKills P}.

Lemma cancelling_obliging wants : obliging ch (cancelling ch wants).
Proof using L K.
  apply (obliging_cancel ch wants rust_callback). apply obliging_idle; unfold rust_callback;
    all_obs_solve ltac:(done).
Qed.

Lemma race_ok task wants n g :
  fresh ch g -> pool_ok external (Inv ch n) (Guar ch) (agrees ch) (race ch task wants n g).
Proof using L.
  intros Hg. split_and!; simpl; [by apply fresh_inv|by apply wpc_run_impl, cancelling_polite|].
  intros i p Hi. apply lookup_replicate in Hi as [-> Hi].
  by apply (wpc_cancel _ _ _ (S i) (fun _ => True)).
Qed.

Lemma race_inv task wants n g c :
  fresh ch g -> reachable external (race ch task wants n g) c ->
  pool_ok external (Inv ch n) (Guar ch) (agrees ch) c.
Proof using L. intros Hg Hr. eapply pool_sound; [by apply race_ok|done]. Qed.

(** What the log of a race tells, once the run has returned. *)
Lemma race_told task wants n g c r :
  fresh ch g -> reachable external (race ch task wants n g) c -> main c = Ret (Val r) -> conclusive r ->
  (exists k, told ch n task k (state c)) /\
  exists b, Obs (Load (cancelled ch)) b ∈ own 0%nat (log (state c)).
Proof using L K.
  intros Hg Hr Hm Hcr. pose proof Hg as (Hd & _ & _ & _ & _ & Hs & Hl & _).
  pose proof (main_exec_done external (race ch task wants n g) c Hl Hr _ Hm) as Hex.
  destruct (run_kills ch (cancelling ch wants) (cancelling_obliging wants) Hd _ _ _ Hex Hcr)
    as (Hp & Hb & k & Hk & Hset).
  { by eapply own_clean; [apply race_ok|..]. }
  split; [|done]. exists k. split_and!; [by apply (race_inv task wants n g c)|done| |].
  - intros t Ht. destruct t as [|i]; [lia|]. eapply (cancel_candid ch).
    apply (program_exec external (race ch task wants n g) c Hl Hr), initial_program. simpl.
    apply lookup_replicate. split; [done|lia].
  - intros t o k' Hin Ho. eapply (slot_history external _ (race ch task wants n g) c); try done.
    simpl. rewrite Hl. constructor.
Qed.

(** C1: Whatever the interleaving, and whatever events the run's own callback
    cancels on: when the run has returned [Ok], no thread that may cancel has
    taken a step that kills, but for the run's own after its wait for the
    child, and the flag [kill_fired] is not set; when it has returned
    [Cancelled], the flag is set, and one of these threads has after setting it
    carried out, to its end, the escalating kill of the very process the run
    spawned. *)
Theorem cancel_outcome task wants n g c out :
  fresh ch g -> reachable external (race ch task wants n g) c -> main c = Ret out ->
  (out = Val (Ok tt) ->
     flag (memory (state c)) (kill_fired ch) = false /\
     forall t, (t <= n)%nat -> ~ struck (own t (log (state c)))) /\
  (out = Val (Err AerError.Cancelled) ->
     flag (memory (state c)) (kill_fired ch) = true /\
     exists t k, (t <= n)%nat /\ run_handle task k (own 0%nat (log (state c))) /\
       carried ch k (own t (log (state c)))).
Proof using L K.
  intros Hg Hr Hm.
  pose proof (pool_ok_returned _ _ _ _ _ _ (race_inv _ _ _ _ _ Hg Hr) Hm) as [Ho Hc].
  split; intros ->.
  - destruct (Ho eq_refl) as [Hf Hs]. split; [done|].
    destruct (race_told _ _ _ _ _ _ Hg Hr Hm) as [[k Ht] _]; [by left|].
    intros t Hle. by apply (told_spared _ _ _ _ _ _ Ht).
  - destruct (Hc eq_refl) as [Hf Hs]. split; [done|].
    destruct (race_told _ _ _ _ _ _ Hg Hr Hm) as [[k Ht] _]; [by do 2 right|].
    destruct (told_killed _ _ _ _ _ Ht Hf Hs) as (t & Hle & Hk). exists t, k.
    split_and!; [done|apply Ht|done].
Qed.

(** C3: At most one of the threads in [cancel] ever fires: the first one. *)
Theorem cancel_fires_once task wants n g c t u :
  fresh ch g -> reachable external (race ch task wants n g) c -> t <> 0%nat -> u <> 0%nat ->
  (t, Fired) ∈ marks ch (log (state c)) -> (u, Fired) ∈ marks ch (log (state c)) -> t = u.
Proof using L.
  intros Hg Hr Ht Hu Ht1 Hu1. destruct (race_inv _ _ _ _ _ Hg Hr) as (HI & _ & _).
  by eapply one_first; [exact HI|apply (inv_fired _ _ _ HI)..].
Qed.

(** C2: No cancel is lost. If the run did not see the request when it looked, and
    the cancel found no process to kill, then the run had already unwired the
    handle, its process being dead. And when the run has ended, a cancel that
    found no process is one that the run did not see, or else the run has
    carried the kill of its process out itself, or found the whole tree dead. *)
Theorem cancel_not_lost task wants n g c t :
  fresh ch g -> reachable external (race ch task wants n g) c ->
  (t, SawEmpty) ∈ marks ch (log (state c)) ->
  ((0%nat, SawUnset) ∈ marks ch (log (state c)) -> (0%nat, Unwired) ∈ marks ch (log (state c))) /\
  (forall r, main c = Ret (Val r) -> conclusive r ->
     (0%nat, SawUnset) ∈ marks ch (log (state c)) \/
     exists k, run_handle task k (own 0%nat (log (state c))) /\
       (carried ch k (own 0%nat (log (state c))) \/ found_dead ch k (own 0%nat (log (state c))))).
Proof using L K.
  intros Hg Hr Ht. destruct (race_inv _ _ _ _ _ Hg Hr) as (HI & _ & _).
  split; [intros Hu; by eapply inv_lost|]. intros r Hm Hcr.
  destruct (race_told _ _ _ _ _ _ Hg Hr Hm Hcr) as [[k Hk] [[] Hb]].
  - right. exists k. split; [apply Hk|]. by eapply told_seen.
  - left. eapply noted; [exact Hb|]. simpl. by rewrite decide_True.
Qed.
End Properties.
