(* ===== verification/Owned.v ===== *)
(** * Ownership of the job handle

    Who holds what of an [Arc<JobHandle>], over the interleavings of Pool.v:
    a thread owns clones of the [Arc]s and, for a moment, raw job handles; the
    mutex of a cancel handle owns the clone in its slot, which the thread that
    holds the lock may look at. [keeps] follows what a thread owns through its
    code, [books] balances what all threads own with the memory and the log,
    and [keeping_sound] says that code that [keeps] its books uses a job handle
    only while it is open, and closes it once. *)

From Stdlib Require Import ZArith.
From stdpp Require Import base numbers list gmap gmultiset relations.
From S2P Require Import Prelude Core Sys Prog Os Pool.

Open Scope Z_scope.

(** ** What the log says about job handles *)

Inductive job_event : Type :=
  | Opened (job : HANDLE)
  | Used (job : HANDLE)
  | Closed (job : HANDLE).

#[export] Instance job_event_eq_dec : EqDecision job_event.
Proof. solve_decision. Defined.

Definition job_obs (o : obs) : option job_event :=
  match o with
  | Obs e x =>
      match e in act X return X -> option job_event with
      | CreateJobObjectW => fun r => if rc r =? 0 then None else Some (Opened (rc r))
      | SetInformationJobObject job _ | AssignProcessToJobObject job _ => fun _ => Some (Used job)
      | TerminateJobObject job _ => fun _ => Some (Used job)
      | QueryActiveProcesses job => fun _ => Some (Used job)
      | CloseHandle job => fun _ => Some (Closed job)
      | _ => fun _ => None
      end x
  | ObsFork _ _ => None
  end.

Definition job_events (l : list (tid * obs)) : list job_event := omap (fun x => job_obs x.2) l.

Definition times (e : job_event) (l : list job_event) : nat := length (filter (fun e' => e' = e) l).

Definition is_opened (e : job_event) : Prop :=
  match e with
  | Opened _ => True
  | Used _ | Closed _ => False
  end.

#[export] Instance is_opened_dec e : Decision (is_opened e).
Proof. destruct e; simpl; apply _. Defined.

Definition opens (l : list job_event) : nat := length (filter is_opened l).

(** The handle an event needs open. *)
Definition needs (e : job_event) : option HANDLE :=
  match e with
  | Opened _ => None
  | Used job | Closed job => Some job
  end.

(** Every use of a handle, and its close, comes while it was opened more often
    than closed. *)
Definition open_when_used (l : list job_event) : Prop :=
  forall l1 e l2 job, l = l1 ++ e :: l2 -> needs e = Some job ->
    (times (Closed job) l1 < times (Opened job) l1)%nat.

(** ** What a thread owns *)

(** [budget] is how many jobs the thread may still open, [raws] the job
    handles it must wrap or close, [clones] its clones of the [Arc]s, and
    [seen] what the slot holds while the thread holds its lock. *)
Record hold : Type := mkHold {
  budget : nat;
  raws : gmultiset HANDLE;
  clones : gmultiset (loc * HANDLE);
  seen : option (option KillHandle)
}.

(** A thread outside every critical block, with its clones alone. *)
Definition with_clones (c : gmultiset (loc * HANDLE)) : hold := mkHold 0 ∅ c None.

(** The clone in the slot. *)
Definition slot_clones (v : option KillHandle) : gmultiset (loc * HANDLE) :=
  match v with
  | Some (WindowsKill arc job) => {[+ (arc, job) +]}
  | Some (UnixKill _) | None => ∅
  end.

(** On Windows there are no other kill handles. *)
Definition job_kill (v : option KillHandle) : Prop :=
  match v with
  | Some (UnixKill _) => False
  | Some (WindowsKill _ _) | None => True
  end.

Definition avail (h : hold) (x : loc * HANDLE) : Prop :=
  x ∈ clones h \/ exists v, seen h = Some v /\ x ∈ slot_clones v.

Definition usable (h : hold) (job : HANDLE) : Prop :=
  job ∈ raws h \/ exists arc, avail h (arc, job).

Definition with_seen (v : option (option KillHandle)) (h : hold) : hold :=
  mkHold (budget h) (raws h) (clones h) v.

(** What a thread must own to perform an action, and that [F] holds of each
    answer and what the thread owns then; [l] is the only mutex. *)
Definition act_pre (l : loc) (h : hold) {X} (e : act X) : (X -> hold -> Prop) -> Prop :=
  match e in act X return (X -> hold -> Prop) -> Prop with
  | CreateJobObjectW => fun F =>
      (0 < budget h)%nat /\
      forall r, F r (mkHold (pred (budget h))
                       (if rc r =? 0 then raws h else raws h ⊎ {[+ rc r +]}) (clones h) (seen h))
  | SetInformationJobObject job _ | AssignProcessToJobObject job _ => fun F =>
      usable h job /\ forall r, F r h
  | TerminateJobObject job _ => fun F => usable h job /\ forall r, F r h
  | QueryActiveProcesses job => fun F => usable h job /\ forall r, F r h
  | CloseHandle job => fun F =>
      job ∈ raws h /\
      forall x, F x (mkHold (budget h) (raws h ∖ {[+ job +]}) (clones h) (seen h))
  | NewArc job => fun F =>
      job ∈ raws h /\
      forall arc, F arc (mkHold (budget h) (raws h ∖ {[+ job +]})
                           (clones h ⊎ {[+ (arc, job) +]}) (seen h))
  | ArcClone arc => fun F =>
      exists job, avail h (arc, job) /\
        forall x, F x (mkHold (budget h) (raws h) (clones h ⊎ {[+ (arc, job) +]}) (seen h))
  | ArcDrop arc => fun F =>
      exists job, (arc, job) ∈ clones h /\
        forall last, F last (mkHold (budget h)
                               (if last : bool then raws h ⊎ {[+ job +]} else raws h)
                               (clones h ∖ {[+ (arc, job) +]}) (seen h))
  | NewMutex => fun _ => False
  | Lock l' => fun F =>
      l' = l /\ seen h = None /\ forall b v, job_kill v -> F b (with_seen (Some v) h)
  | GetSlot l' => fun F => l' = l /\ exists v, seen h = Some v /\ F v h
  | SetSlot l' v => fun F =>
      l' = l /\ exists old, seen h = Some old /\ job_kill v /\ slot_clones v ⊆ clones h /\
        F old (mkHold (budget h) (raws h) (clones h ∖ slot_clones v ⊎ slot_clones old)
                 (Some v))
  | Unlock l' => fun F => l' = l /\ seen h <> None /\ forall x, F x (with_seen None h)
  | _ => fun F => forall x, F x h
  end.

(** [keeps l h p Q]: a thread that owns [h] can run [p], each thread it starts
    taking some of its clones and ending with nothing, and owns what [Q] says
    when [p] returns. *)
Fixpoint keeps (l : loc) (h : hold) {A} (p : prog A) : (A -> hold -> Prop) -> Prop :=
  match p in prog A return (A -> hold -> Prop) -> Prop with
  | Ret a => fun Q => Q a h
  | Vis e k => fun Q => act_pre l h e (fun x h' => keeps l h' (k x) Q)
  | Fork body k => fun Q =>
      exists given, given ⊆ clones h /\
        keeps l (with_clones given) body (fun _ h' => h' = with_clones ∅) /\
        (forall n, keeps l (mkHold (budget h) (raws h) (clones h ∖ given) (seen h)) (k (Some n)) Q) /\
        keeps l h (k None) Q
  | Iter body i k => fun Q =>
      exists J : _ -> hold -> Prop, J i h /\
        forall i h, J i h ->
          keeps l h (body i)
            (fun r h => match r with inl i' => J i' h | inr x => keeps l h (k x) Q end)
  end.

(** A step that has nothing to do with jobs or mutexes; nor have those of the
    threads it starts, to the given depth. *)
Definition apart_from_jobs {X} (e : act X) : Prop :=
  match e with
  | CreateJobObjectW | SetInformationJobObject _ _ | AssignProcessToJobObject _ _ => False
  | TerminateJobObject _ _ | QueryActiveProcesses _ | CloseHandle _ => False
  | NewArc _ | ArcClone _ | ArcDrop _ => False
  | NewMutex | Lock _ | GetSlot _ | SetSlot _ _ | Unlock _ => False
  | _ => True
  end.

Fixpoint jobless (depth : nat) (o : obs) : Prop :=
  match o with
  | Obs e _ => apart_from_jobs e
  | ObsFork body _ =>
      match depth with
      | O => False
      | S depth => all_obs (jobless depth) body
      end
  end.

(** ** The books *)

(** How many [Arc]s hold [job], of those that have clones. *)
Definition live (job : HANDLE) (c : gmultiset (loc * HANDLE)) : nat :=
  size (filter (fun x => x.2 = job) (dom c)).

(** All clones [c] and all raw handles [r] there are, with the memory and what
    has happened: the counts of the [Arc]s are those of the clones, a handle is
    open as often as it is raw or in an [Arc], and it was open when used. *)
Record acct (c : gmultiset (loc * HANDLE)) (r : gmultiset HANDLE) (m : mem)
    (evs : list job_event) : Prop := {
  acct_arcs : forall (a : loc) job, (a, job) ∈ c ->
    (a < next m)%nat /\ arc_at m a = (multiplicity (a, job) c, job);
  acct_count : forall job,
    times (Opened job) evs = (times (Closed job) evs + multiplicity job r + live job c)%nat;
  acct_used : open_when_used evs
}.

Definition all_clones (hs : list hold) : gmultiset (loc * HANDLE) := ⋃+ (clones <$> hs).
Definition all_raws (hs : list hold) : gmultiset HANDLE := ⋃+ (raws <$> hs).
Definition budgets (hs : list hold) : nat := sum_list (budget <$> hs).

Section Definitions.
Context {W : Type}.
Variable l : loc.

Definition mutex_of (g : global W) : mutex := mutex_at (memory g) l.
Definition in_slot (g : global W) : option KillHandle := value (mutex_of g).

(** What the threads own, [hs], agrees with the memory and the log; [n] is how
    many jobs may be opened at all. *)
Record books (n : nat) (hs : list hold) (g : global W) : Prop := {
  bk_acct : acct (all_clones hs ⊎ slot_clones (in_slot g)) (all_raws hs) (memory g)
              (job_events (log g));
  bk_slot : job_kill (in_slot g);
  bk_alloc : (l < next (memory g))%nat;
  bk_lock : forall t h v, hs !! t = Some h -> seen h = Some v ->
    holder (mutex_of g) = Some t /\ in_slot g = v;
  bk_budget : (budgets hs + opens (job_events (log g)) <= n)%nat
}.

(** A thread that ends owns nothing. *)
Definition ends_empty (_ : unit) (h : hold) : Prop := h = with_clones ∅.

(** Every thread of a configuration keeps the books. *)
Definition keeping n {R} (Q : R -> hold -> Prop) (c : config W R) : Prop :=
  exists h hs, books n (h :: hs) (state c) /\ keeps l h (main c) Q /\
    Forall2 (fun p h => keeps l h p ends_empty) (others c) hs.
End Definitions.

(** ** Multisets *)

(** Moving one element in and out of a sum. *)
Section Multiset.
Context `{Countable A}.
Implicit Types X Y Z : gmultiset A.

Lemma sum_mine X x : x ∈ X ⊎ {[+ x +]}.
Proof. apply gmultiset_elem_of_disj_union. right. by apply gmultiset_elem_of_singleton. Qed.

Lemma sum_swap X Y Z : X ⊎ Y ⊎ Z = X ⊎ Z ⊎ Y.
Proof. by rewrite <- !(assoc_L (⊎)), (comm_L (⊎) Y). Qed.

Lemma sum_last X Y Z U : X ⊎ U ⊎ Y ⊎ Z = X ⊎ Y ⊎ Z ⊎ U.
Proof. by rewrite (sum_swap X U), (sum_swap _ U). Qed.

Lemma sum_take X Y x : x ∈ X -> (X ⊎ Y) ∖ {[+ x +]} = X ∖ {[+ x +]} ⊎ Y.
Proof.
  intros Hx%gmultiset_disj_union_difference'. rewrite Hx at 1.
  apply gmultiset_eq. intros y.
  rewrite !multiplicity_difference, !multiplicity_disj_union, ?multiplicity_difference. lia.
Qed.

Lemma sum_give X Y x : x ∈ X -> X ⊎ Y = X ∖ {[+ x +]} ⊎ Y ⊎ {[+ x +]}.
Proof.
  intros Hx%gmultiset_disj_union_difference'. rewrite Hx at 1.
  rewrite (comm_L (⊎) {[+ x +]}). apply sum_swap.
Qed.

Lemma sum_back X x : x ∈ X -> X = X ∖ {[+ x +]} ⊎ {[+ x +]}.
Proof. intros Hx%gmultiset_disj_union_difference'. by rewrite Hx at 1; rewrite (comm_L (⊎)). Qed.

Lemma sum_exchange X Y Z U : U ⊆ X -> X ∖ U ⊎ Z ⊎ Y ⊎ U = X ⊎ Y ⊎ Z.
Proof.
  intros Hx%gmultiset_disj_union_difference. rewrite Hx at 2. apply gmultiset_eq. intros y.
  rewrite !multiplicity_disj_union. lia.
Qed.

Lemma sum_cancel X x : (X ⊎ {[+ x +]}) ∖ {[+ x +]} = X.
Proof.
  apply gmultiset_eq. intros y.
  rewrite !multiplicity_difference, !multiplicity_disj_union, ?multiplicity_difference. lia.
Qed.
End Multiset.

(** ** Lemmas on [keeps] *)

Section Keeps.
Variable l : loc.

Lemma act_pre_mono h {X} (e : act X) (F G : X -> hold -> Prop) :
  (forall x h, F x h -> G x h) -> act_pre l h e F -> act_pre l h e G.
Proof.
  intros HFG. destruct e; simpl; try (by intros HF x; apply HFG);
    try (intros [? HF]; split; [done|by auto]);
    try (intros (? & ? & HF); by eauto 6).
  - done.
  - intros (-> & v & ? & HF). split; [done|]. exists v. by auto.
  - intros (-> & old & ? & ? & ? & HF). split; [done|]. exists old. split_and!; by auto.
Qed.

Lemma act_pre_apart h {X} (e : act X) (F : X -> hold -> Prop) :
  apart_from_jobs e -> (act_pre l h e F <-> forall x, F x h).
Proof. by destruct e. Qed.

Lemma keeps_mono {A} h (p : prog A) (Q Q' : A -> hold -> Prop) :
  (forall a h, Q a h -> Q' a h) -> keeps l h p Q -> keeps l h p Q'.
Proof.
  revert h Q Q'.
  induction p as [A a|A X e k IH|A body _ k IH|A J R body IHb i k IH]; intros h Q Q' HQ; simpl.
  - apply HQ.
  - apply act_pre_mono. intros x h'. by apply IH.
  - intros (given & Hg & Hb & Hs & Hn). exists given. split_and!; [done|done| |].
    + intros n. by eapply IH, Hs.
    + by eapply IH, Hn.
  - intros (inv & Hi & Hb). exists inv. split; [done|]. intros j h' Hj.
    eapply IHb; [|by apply Hb]. intros [j'|x] h''; [done|]. by apply IH.
Qed.

Lemma keeps_bind {A B} h (p : prog A) (f : A -> prog B) Q :
  keeps l h p (fun a h' => keeps l h' (f a) Q) -> keeps l h (bind p f) Q.
Proof.
  revert h f.
  induction p as [A a|A X e k IH|A body _ k IH|A J R body IHb i k IH]; intros h f.
  - done.
  - apply act_pre_mono. intros x h'. apply IH.
  - intros (given & Hg & Hb & Hs & Hn). exists given. split_and!; [done|done| |].
    + intros n. by apply IH, Hs.
    + by apply IH, Hn.
  - intros (inv & Hi & Hb). exists inv. split; [done|]. intros j h' Hj.
    eapply keeps_mono; [|by apply Hb]. intros [j'|x] h''; [done|]. by apply IH.
Qed.

Lemma keeps_act {A X} h (e : act X) (k : X -> prog A) Q :
  act_pre l h e (fun x h' => keeps l h' (k x) Q) -> keeps l h (bind (do_act e) k) Q.
Proof. done. Qed.

Lemma keeps_do {X} h (e : act X) Q : act_pre l h e Q -> keeps l h (do_act e) Q.
Proof. done. Qed.

(** A program known by what it leaves. *)
Lemma keeps_seq {A B} h h' (p : prog A) (f : A -> prog B) Q :
  keeps l h p (fun _ h'' => h'' = h') -> (forall a, keeps l h' (f a) Q) ->
  keeps l h (bind p f) Q.
Proof. intros Hp Hf. apply keeps_bind. eapply keeps_mono; [|exact Hp]. by intros a ? ->. Qed.

Lemma jobless_act d {X} (e : act X) x : jobless d (Obs e x) -> apart_from_jobs e.
Proof. by destruct d. Qed.

Lemma decide_apart {X} (e : act X) : apart_from_jobs e \/ ~ apart_from_jobs e.
Proof. destruct e; simpl; tauto. Qed.

Lemma apart_or_answer {X} (e : act X) : apart_from_jobs e \/ exists x : X, True.
Proof.
  destruct e; simpl; try (by left); right;
    solve [by exists (mkRet 0 0)|by exists (mkRet 0 0, 0)|by exists tt|by exists 0%nat
          |by exists false|by exists None].
Qed.

(** A program that has nothing to do with jobs leaves what the thread owns. *)
Lemma keeps_jobless d {A} h (p : prog A) (Q : A -> hold -> Prop) :
  all_obs (jobless d) p -> (forall a tr, exec p tr (Some a) -> Q a h) -> keeps l h p Q.
Proof.
  revert A h p Q. induction d as [d IHd] using lt_wf_ind. intros A h p. revert h.
  induction p as [A a|A X e k IH|A body _ k IH|A J R body IHb i k IH]; intros h Q Hp HQ; simpl.
  - apply (HQ a []). by apply exec_ret_Some.
  - apply act_pre_apart.
    { destruct (apart_or_answer e) as [He|[x _]]; [done|].
      by apply (all_obs_vis_inv _ _ _ x) in Hp as [He%jobless_act _]. }
    intros x. apply IH; [by apply (all_obs_vis_inv _ _ _ x) in Hp as [_ Hk]|].
    intros a tr Hex. apply (HQ a (Obs e x :: tr)). right. by exists x, tr.
  - exists ∅. split_and!; [multiset_solver| | |].
    + destruct (all_obs_fork_inv _ _ _ None Hp) as [Hb _]. destruct d as [|d]; [done|].
      apply (IHd d); [lia|done|done].
    + intros n. destruct (all_obs_fork_inv _ _ _ (Some n) Hp) as [_ Hk].
      assert (mkHold (budget h) (raws h) (clones h ∖ ∅) (seen h) = h) as ->.
      { destruct h. simpl. f_equal. multiset_solver. }
      apply IH; [done|]. intros a tr Hex. apply (HQ a (ObsFork body (Some n) :: tr)). right. eauto.
    + destruct (all_obs_fork_inv _ _ _ None Hp) as [_ Hk]. apply IH; [done|].
      intros a tr Hex. apply (HQ a (ObsFork body None :: tr)). right. eauto.
  - exists (fun j h' => h' = h /\ all_obs (jobless d) (Iter body j k) /\
      forall a tr, exec (Iter body j k) tr (Some a) -> Q a h).
    split; [done|]. clear i Hp HQ. intros j h' (-> & Hp & HQ).
    destruct (all_obs_iter_inv _ _ _ _ Hp) as (Hb & Hnext & Hdone).
    apply IHb; [done|]. intros [j'|x] tr Hex.
    + split_and!; [done|by eapply Hnext|]. intros a tr' Hex'. apply (HQ a (tr ++ tr')).
      by apply (iter_exec_next _ _ _ j').
    + apply IH; [by eapply Hdone|]. intros a tr' Hex'. apply (HQ a (tr ++ tr')).
      by apply (iter_exec_done _ _ _ x).
Qed.

Lemma keeps_iter {I R} (J : I -> hold -> Prop) h (body : I -> prog (I + R)) i Q :
  J i h ->
  (forall i h, J i h ->
     keeps l h (body i) (fun r h => match r with inl i' => J i' h | inr x => Q x h end)) ->
  keeps l h (iter body i) Q.
Proof. intros Hi Hb. exists J. split; [done|]. intros j h' Hj. by apply Hb. Qed.
End Keeps.

Lemma counted `{Countable A} (x : A) (X : gmultiset A) : x ∈ X -> (0 < multiplicity x X)%nat.
Proof. exact (proj1 (elem_of_multiplicity x X)). Qed.

Lemma times_snoc e evs e' :
  times e (evs ++ [e']) = (times e evs + if decide (e' = e) then 1 else 0)%nat.
Proof. unfold times. rewrite filter_app, length_app. simpl. unfold filter. simpl. by case_decide. Qed.

Lemma live_pos a job c : (a, job) ∈ c -> (0 < live job c)%nat.
Proof.
  intros Hin. unfold live. assert ((a, job) ∈ filter (fun x => x.2 = job) (dom c)) as H.
  { apply elem_of_filter. split; [done|]. by apply gmultiset_elem_of_dom. }
  destruct (size _) eqn:E; [|lia]. apply size_empty_inv in E.
  by apply E, elem_of_empty in H.
Qed.

Lemma live_add job x c :
  live job (c ⊎ {[+ x +]}) =
  (live job c + if decide (x ∈ c) then 0 else if decide (x.2 = job) then 1 else 0)%nat.
Proof.
  unfold live. case_decide as Hin.
  - assert (dom (c ⊎ {[+ x +]}) = dom c) as ->; [|lia].
    apply set_eq. intros y. rewrite !gmultiset_elem_of_dom, gmultiset_elem_of_disj_union,
      gmultiset_elem_of_singleton. by split; [intros [?| ->]|left].
  - assert (dom (c ⊎ {[+ x +]}) = {[x]} ∪ dom c) as ->.
    { apply set_eq. intros y. rewrite elem_of_union, elem_of_singleton, !gmultiset_elem_of_dom,
        gmultiset_elem_of_disj_union, gmultiset_elem_of_singleton. tauto. }
    rewrite filter_union_L, filter_singleton_L by apply _. case_decide as Hj.
    + rewrite size_union; [rewrite size_singleton; lia|].
      intros y Hy [_ Hd]%elem_of_filter. apply elem_of_singleton in Hy as ->.
      by apply gmultiset_elem_of_dom in Hd.
    + rewrite union_empty_l_L. lia.
Qed.

Lemma live_none job : live job ∅ = 0%nat.
Proof. done. Qed.

Lemma live_one job arc j : live job {[+ (arc, j) +]} = if decide (j = job) then 1%nat else 0%nat.
Proof.
  rewrite <- (left_id_L ∅ (⊎) {[+ (arc, j) +]}), live_add, live_none, decide_False; [done|].
  by intros ?%gmultiset_elem_of_empty.
Qed.

Lemma open_when_used_snoc evs e :
  open_when_used evs ->
  (forall job, needs e = Some job -> (times (Closed job) evs < times (Opened job) evs)%nat) ->
  open_when_used (evs ++ [e]).
Proof.
  intros Hu He l1 e' l2 job E Hn.
  destruct l2 as [|e2 l2 _] using rev_ind.
  - apply app_inj_tail in E as [<- <-]. by apply He.
  - rewrite app_comm_cons, app_assoc in E. apply app_inj_tail in E as [E _]. by eapply Hu.
Qed.

Section Acct.
Context (c : gmultiset (loc * HANDLE)) (r : gmultiset HANDLE) (m : mem) (evs : list job_event).

Lemma acct_mem m' :
  arcs m' = arcs m -> (next m <= next m')%nat -> acct c r m evs -> acct c r m' evs.
Proof.
  intros Ha Hn []. split; [|done|done]. intros a job Hin. unfold arc_at. rewrite Ha.
  destruct (acct_arcs0 a job Hin) as [Hlt Harc]. split; [lia|done].
Qed.

Lemma acct_open job : acct c r m evs -> acct c (r ⊎ {[+ job +]}) m (evs ++ [Opened job]).
Proof.
  intros []. split; [done| |by apply open_when_used_snoc].
  intros j. rewrite !times_snoc, acct_count0, multiplicity_disj_union, multiplicity_singleton.
  repeat case_decide; simplify_eq; try congruence; lia.
Qed.

Lemma acct_opened_more job :
  acct c r m evs -> job ∈ r \/ (exists a, (a, job) ∈ c) ->
  (times (Closed job) evs < times (Opened job) evs)%nat.
Proof.
  intros [] Hj. rewrite (acct_count0 job).
  destruct Hj as [Hj|[a Hj%live_pos]]; [apply counted in Hj|]; lia.
Qed.

Lemma acct_use job :
  acct c r m evs -> job ∈ r \/ (exists a, (a, job) ∈ c) -> acct c r m (evs ++ [Used job]).
Proof.
  intros HA Hj. pose proof (acct_opened_more _ HA Hj). destruct HA. split; [done| |].
  - intros j. rewrite !times_snoc, acct_count0. simpl. lia.
  - apply open_when_used_snoc; [done|]. by intros j [= <-].
Qed.

Lemma acct_close job :
  acct c r m evs -> job ∈ r -> acct c (r ∖ {[+ job +]}) m (evs ++ [Closed job]).
Proof.
  intros HA Hj. pose proof (acct_opened_more job HA (or_introl Hj)). destruct HA. split; [done| |].
  - intros j. rewrite !times_snoc, acct_count0, multiplicity_difference, multiplicity_singleton.
    apply counted in Hj. repeat case_decide; simplify_eq; try congruence; lia.
  - apply open_when_used_snoc; [done|]. by intros j [= <-].
Qed.

Lemma arc_set a a' x : arc_at (set_arc a x m) a' = if decide (a = a') then x else arc_at m a'.
Proof.
  unfold arc_at. simpl. case_decide; subst; [by rewrite lookup_insert_eq|].
  by rewrite lookup_insert_ne.
Qed.

Lemma acct_arc job :
  acct c r m evs -> job ∈ r ->
  acct (c ⊎ {[+ (next m, job) +]}) (r ∖ {[+ job +]}) (bump (set_arc (next m) (1%nat, job) m)) evs.
Proof.
  intros [] Hj.
  assert (forall job, (next m, job) ∉ c) as Hnew.
  { intros j Hin. destruct (acct_arcs0 _ _ Hin). lia. }
  split; [| |done].
  - intros a j Hin. change (arc_at (bump ?x) ?l) with (arc_at x l). rewrite arc_set.
    rewrite multiplicity_disj_union, multiplicity_singleton.
    apply gmultiset_elem_of_disj_union in Hin as [Hin|Hin%gmultiset_elem_of_singleton].
    + destruct (acct_arcs0 _ _ Hin) as [Hlt Ha]. simpl. split; [lia|].
      rewrite !decide_False by (intros ?; simplify_eq; lia). rewrite Ha. f_equal. lia.
    + injection Hin as -> ->. simpl. split; [lia|]. rewrite !decide_True by done.
      by rewrite (proj1 (not_elem_of_multiplicity _ _) (Hnew _)).
  - intros j. rewrite acct_count0, multiplicity_difference, multiplicity_singleton, live_add.
    rewrite (decide_False (P := _ ∈ _)) by done. simpl.
    apply counted in Hj. repeat case_decide; simplify_eq; try congruence; lia.
Qed.

Lemma acct_clone a job :
  acct c r m evs -> (a, job) ∈ c ->
  acct (c ⊎ {[+ (a, job) +]}) r (set_arc a (S (arc_at m a).1, (arc_at m a).2) m) evs.
Proof.
  intros [] Hj. destruct (acct_arcs0 _ _ Hj) as [Hlt Ha]. split; [| |done].
  - intros b j Hin. rewrite arc_set, multiplicity_disj_union, multiplicity_singleton.
    assert ((b, j) ∈ c) as Hin'.
    { by apply gmultiset_elem_of_disj_union in Hin as [?|Hin%gmultiset_elem_of_singleton];
        [|injection Hin as -> ->]. }
    destruct (acct_arcs0 _ _ Hin') as [Hlt' Hb].
    split; [done|]. case_decide as Hd.
    + subst. rewrite Ha in Hb |- *. simpl in *. simplify_eq. rewrite decide_True by done. f_equal. lia.
    + rewrite Hb, decide_False by (intros ?; simplify_eq). f_equal. lia.
  - intros j. rewrite acct_count0, live_add, decide_True by done. lia.
Qed.
End Acct.

Lemma acct_drop c r m evs a job :
  acct (c ⊎ {[+ (a, job) +]}) r m evs ->
  acct c (if ((arc_at m a).1 =? 1)%nat then r ⊎ {[+ job +]} else r)
    (set_arc a (pred (arc_at m a).1, (arc_at m a).2) m) evs.
Proof.
  intros []. destruct (acct_arcs0 a job) as [Hlt Ha].
  { apply gmultiset_elem_of_disj_union. right. by apply gmultiset_elem_of_singleton. }
  assert (arc_at m a = (S (multiplicity (a, job) c), job)) as Ha'.
  { rewrite Ha. f_equal. rewrite multiplicity_disj_union, multiplicity_singleton_eq. lia. }
  clear Ha. rename Ha' into Ha. rewrite Ha. simpl. split; [| |done].
  - intros b j Hin. rewrite arc_set. destruct (acct_arcs0 b j) as [Hlt' Hb].
    { apply gmultiset_elem_of_disj_union. by left. }
    split; [done|]. rewrite multiplicity_disj_union, multiplicity_singleton in Hb.
    destruct (decide (a = b)) as [<-|Hd].
    + rewrite Ha in Hb. by injection Hb as _ <-.
    + rewrite decide_False in Hb by (intros ?; simplify_eq). rewrite Hb. f_equal. lia.
  - intros j. pose proof (acct_count0 j) as Hc. rewrite live_add in Hc. simpl in Hc.
    destruct (decide ((a, job) ∈ c)) as [Hin|Hin].
    + apply counted in Hin.
      destruct (multiplicity (a, job) c); [lia|]. simpl. lia.
    + rewrite (proj1 (not_elem_of_multiplicity _ _) Hin). simpl.
      rewrite multiplicity_disj_union, multiplicity_singleton.
      repeat case_decide; simplify_eq; try congruence; lia.
Qed.

Lemma job_events_snoc lg t o : job_events (lg ++ [(t, o)]) = job_events lg ++ option_list (job_obs o).
Proof. unfold job_events. rewrite omap_app. simpl. by destruct (job_obs o). Qed.

Lemma opens_app evs evs' : opens (evs ++ evs') = (opens evs + opens evs')%nat.
Proof. unfold opens. by rewrite filter_app, length_app. Qed.

#[export] Instance all_clones_perm : Proper ((≡ₚ) ==> (=)) all_clones.
Proof. intros hs hs' Hp. unfold all_clones. by rewrite Hp. Qed.
#[export] Instance all_raws_perm : Proper ((≡ₚ) ==> (=)) all_raws.
Proof. intros hs hs' Hp. unfold all_raws. by rewrite Hp. Qed.
#[export] Instance budgets_perm : Proper ((≡ₚ) ==> (=)) budgets.
Proof. intros hs hs' Hp. unfold budgets. by rewrite Hp. Qed.

Lemma all_clones_cons h hs : all_clones (h :: hs) = clones h ⊎ all_clones hs.
Proof. done. Qed.

Lemma all_raws_cons h hs : all_raws (h :: hs) = raws h ⊎ all_raws hs.
Proof. done. Qed.

Lemma budgets_cons h hs : budgets (h :: hs) = (budget h + budgets hs)%nat.
Proof. done. Qed.

Lemma budgets_app hs hs' : budgets (hs ++ hs') = (budgets hs + budgets hs')%nat.
Proof. unfold budgets. by rewrite fmap_app, sum_list_with_app. Qed.

(** One thread and the rest. *)
Lemma hold_split (hs : list hold) t h :
  hs !! t = Some h -> exists rest, hs ≡ₚ h :: rest /\ forall h', <[t := h']> hs ≡ₚ h' :: rest.
Proof.
  intros Ht. exists (take t hs ++ drop (S t) hs).
  assert (forall h', <[t := h']> hs ≡ₚ h' :: take t hs ++ drop (S t) hs) as Hi.
  { intros h'. rewrite insert_take_drop by (by eapply lookup_lt_Some).
    by rewrite Permutation_middle. }
  split; [|done]. rewrite <- (list_insert_id hs t h) at 1 by done. apply Hi.
Qed.

Section Books.
Context {W : Type}.
Variable external : tid -> forall X, act X -> W -> X -> W -> Prop.
Variable l : loc.
#[local] Abbreviation books := (books l).
#[local] Abbreviation mutex_of := (mutex_of l).
#[local] Abbreviation in_slot := (in_slot l).

(** Thread [t] changes what it owns from [h] to [h']. *)
Lemma books_update n hs t h h' (g g' : global W) :
  hs !! t = Some h -> books n hs g ->
  (forall c r, acct (clones h ⊎ c ⊎ slot_clones (in_slot g)) (raws h ⊎ r) (memory g)
                 (job_events (log g)) ->
               acct (clones h' ⊎ c ⊎ slot_clones (in_slot g')) (raws h' ⊎ r) (memory g')
                 (job_events (log g'))) ->
  job_kill (in_slot g') -> (next (memory g) <= next (memory g'))%nat ->
  (forall v, seen h' = Some v -> holder (mutex_of g') = Some t /\ in_slot g' = v) ->
  (mutex_of g' = mutex_of g \/ forall u, holder (mutex_of g) = Some u -> u = t) ->
  (budget h' + opens (job_events (log g')) <= budget h + opens (job_events (log g)))%nat ->
  books n (<[t := h']> hs) g'.
Proof.
  intros Ht [] Hacct Hslot Hnext Hseen Hother Hbudget.
  destruct (hold_split hs t h Ht) as (rest & Hp & Hi). split.
  - rewrite Hi. specialize (Hacct (all_clones rest) (all_raws rest)).
    unfold all_clones, all_raws in *. simpl. apply Hacct. rewrite Hp in bk_acct0. exact bk_acct0.
  - done.
  - lia.
  - intros u hu v Hu Hv. apply list_lookup_insert_Some in Hu as [(-> & -> & _)|[Hne Hu]]; [by apply Hseen|].
    destruct (bk_lock0 u hu v Hu Hv) as [Hh Hval]. destruct Hother as [E|E].
    + unfold in_slot in *. by rewrite E.
    + destruct Hne. symmetry. by apply E.
  - rewrite Hi. rewrite Hp in bk_budget0. unfold budgets in *. simpl in *. lia.
Qed.

(** What a thread may look at is there. *)
Lemma avail_there n hs t h (g : global W) x c :
  hs !! t = Some h -> books n hs g -> avail h x -> x ∈ clones h ⊎ c ⊎ slot_clones (in_slot g).
Proof.
  intros Ht Hb [Hx|(v & Hv & Hx)]; rewrite !gmultiset_elem_of_disj_union; [by left; left|].
  right. by destruct (bk_lock _ _ _ _ Hb _ _ _ Ht Hv) as [_ ->].
Qed.

Lemma usable_there n hs t h (g : global W) job c r :
  hs !! t = Some h -> books n hs g -> usable h job ->
  job ∈ raws h ⊎ r \/ exists a, (a, job) ∈ clones h ⊎ c ⊎ slot_clones (in_slot g).
Proof.
  intros Ht Hb [Hj|[a Ha]]; [left; apply gmultiset_elem_of_disj_union; by left|].
  right. exists a. by eapply avail_there.
Qed.

(** A step that has nothing to do with jobs. *)
Lemma apart_memory fin t {X} (e : act X) (g : global W) x g' :
  apart_from_jobs e -> (l < next (memory g))%nat -> act_sem external fin t e g x g' ->
  arcs (memory g') = arcs (memory g) /\ mutex_of g' = mutex_of g /\
  (next (memory g) <= next (memory g'))%nat /\ job_events (log g') = job_events (log g).
Proof.
  intros He Hl [Hlog Hst].
  assert (job_events (log g') = job_events (log g)) as ->.
  { rewrite Hlog, job_events_snoc. destruct e; try done; apply app_nil_r. }
  unfold mutex_of. destruct Hst as [(el & Hst & _)|(_ & -> & _)]; [|done].
  destruct e; simpl in He, Hst; try done;
    try (injection Hst as _ <-; by split_and!; try done; simpl; lia).
  - destruct (rx _); injection Hst as _ <-; done.
  - destruct (queue _ _); [destruct (txs _); [|done]|]; injection Hst as _ <-; done.
  - destruct (q_unit _); [destruct (txs _); [|destruct el; [|done]]|]; injection Hst as _ <-; done.
Qed.
End Books.

Section Sound.
Context {W : Type}.
Variable external : tid -> forall X, act X -> W -> X -> W -> Prop.
Variable l : loc.
#[local] Abbreviation books := (books l).
#[local] Abbreviation keeping := (keeping l).

(** A step outside the memory. *)
Lemma external_step fin t {X} (e : act X) (g : global W) x g' :
  mem_step t false e (memory g) = External -> (forall el, mem_step t el e (memory g) = External) ->
  act_sem external fin t e g x g' ->
  memory g' = memory g /\
  job_events (log g') = job_events (log g) ++ option_list (job_obs (Obs e x)).
Proof.
  intros _ He [Hl Hs]. rewrite Hl, job_events_snoc. split; [|done].
  destruct Hs as [(el & Hs & _)|(_ & Hm & _)]; [by rewrite He in Hs|done].
Qed.

(** A use of a job. *)
Lemma use_sound n hs t h fin {X} (e : act X) job (F : X -> hold -> Prop) (g : global W) x g' :
  (forall el, mem_step t el e (memory g) = External) -> job_obs (Obs e x) = Some (Used job) ->
  hs !! t = Some h -> books n hs g -> usable h job -> (forall x, F x h) ->
  act_sem external fin t e g x g' ->
  exists h', F x h' /\ books n (<[t := h']> hs) g'.
Proof.
  intros He Ho Ht Hb Hu HF Hs. exists h. split; [done|].
  destruct (external_step _ _ _ _ _ _ (He false) He Hs) as [Hm Hl]. rewrite Ho in Hl. simpl in Hl.
  apply (books_update l n hs t h h g); try done; unfold in_slot, mutex_of; rewrite ?Hm; try done.
  - intros c r HA. rewrite Hl. apply acct_use; [done|]. by eapply usable_there.
  - apply (bk_slot _ _ _ _ Hb).
  - intros v. apply (bk_lock _ _ _ _ Hb _ _ _ Ht).
  - by left.
  - rewrite Hl, opens_app. unfold opens at 2. simpl. lia.
Qed.

(** A step of the memory that is not a job's. *)
Lemma inside_step fin t {X} (e : act X) (g : global W) x g' :
  mem_step t false e (memory g) <> External -> job_obs (Obs e x) = None ->
  act_sem external fin t e g x g' ->
  job_events (log g') = job_events (log g) /\
  exists el, mem_step t el e (memory g) = Answer x (memory g').
Proof.
  intros He Ho [Hl Hs]. rewrite Hl, job_events_snoc, Ho, app_nil_r. split; [done|].
  destruct Hs as [(el & Hs & _)|(Hs & _)]; [by exists el|done].
Qed.

Lemma lock_mine n hs t h v (g : global W) u :
  hs !! t = Some h -> books n hs g -> seen h = Some v -> holder (mutex_of l g) = Some u -> u = t.
Proof. intros Ht Hb Hv Hu. destruct (bk_lock _ _ _ _ Hb _ _ _ Ht Hv) as [Hh _]. congruence. Qed.

Lemma create_sound n hs t h fin (F : c_ret -> hold -> Prop) (g : global W) x g' :
  hs !! t = Some h -> books n hs g -> act_pre l h CreateJobObjectW F ->
  act_sem external fin t CreateJobObjectW g x g' ->
  exists h', F x h' /\ books n (<[t := h']> hs) g'.
Proof.
  intros Ht Hb [Hbud HF] Hs. eexists. split; [apply HF|].
  destruct (external_step fin t CreateJobObjectW g x g') as [Hm Hl]; [done..|]. simpl in Hl.
  apply (books_update l n hs t h _ g); try done; unfold in_slot, mutex_of; simpl; rewrite ?Hm; try done.
  - intros c r HA. rewrite Hl. destruct (rc x =? 0); simpl; [by rewrite app_nil_r|].
    rewrite (sum_swap (raws h)). by apply acct_open.
  - apply (bk_slot _ _ _ _ Hb).
  - intros v. apply (bk_lock _ _ _ _ Hb _ _ _ Ht).
  - by left.
  - rewrite Hl, opens_app. destruct (rc x =? 0); unfold opens at 2; simpl; lia.
Qed.

Lemma close_sound n hs t h fin job (F : unit -> hold -> Prop) (g : global W) x g' :
  hs !! t = Some h -> books n hs g -> act_pre l h (CloseHandle job) F ->
  act_sem external fin t (CloseHandle job) g x g' ->
  exists h', F x h' /\ books n (<[t := h']> hs) g'.
Proof.
  intros Ht Hb [Hj HF] Hs. eexists. split; [apply HF|].
  destruct (external_step fin t (CloseHandle job) g x g') as [Hm Hl]; [done..|]. simpl in Hl.
  apply (books_update l n hs t h _ g); try done; unfold in_slot, mutex_of; simpl; rewrite ?Hm; try done.
  - intros c r HA. rewrite Hl, <- sum_take by done. apply acct_close; [done|].
    apply gmultiset_elem_of_disj_union. by left.
  - apply (bk_slot _ _ _ _ Hb).
  - intros v. apply (bk_lock _ _ _ _ Hb _ _ _ Ht).
  - by left.
  - rewrite Hl, opens_app. unfold opens at 2. simpl. lia.
Qed.

Lemma new_arc_sound n hs t h fin job (F : loc -> hold -> Prop) (g : global W) x g' :
  hs !! t = Some h -> books n hs g -> act_pre l h (NewArc job) F ->
  act_sem external fin t (NewArc job) g x g' ->
  exists h', F x h' /\ books n (<[t := h']> hs) g'.
Proof.
  intros Ht Hb [Hj HF] Hs. eexists. split; [apply HF|].
  destruct (inside_step fin t (NewArc job) g x g') as (Hl & el & Ha); [done..|].
  injection Ha as <- Hm.
  apply (books_update l n hs t h _ g); try done; unfold in_slot, mutex_of; simpl; rewrite <- ?Hm; try done.
  - intros c r HA. rewrite Hl, <- sum_take, sum_last by done.
    change (slot_clones (value (mutex_at (bump ?m) ?l))) with (slot_clones (value (mutex_at m l))).
    apply acct_arc; [done|]. apply gmultiset_elem_of_disj_union. by left.
  - apply (bk_slot _ _ _ _ Hb).
  - simpl. lia.
  - intros v. apply (bk_lock _ _ _ _ Hb _ _ _ Ht).
  - by left.
  - by rewrite Hl.
Qed.

Lemma clone_sound n hs t h fin arc (F : unit -> hold -> Prop) (g : global W) x g' :
  hs !! t = Some h -> books n hs g -> act_pre l h (ArcClone arc) F ->
  act_sem external fin t (ArcClone arc) g x g' ->
  exists h', F x h' /\ books n (<[t := h']> hs) g'.
Proof.
  intros Ht Hb (job & Hj & HF) Hs. eexists. split; [apply HF|].
  destruct (inside_step fin t (ArcClone arc) g x g') as (Hl & el & Ha); [done..|].
  injection Ha as _ Hm.
  apply (books_update l n hs t h _ g); try done; unfold in_slot, mutex_of; simpl; rewrite <- ?Hm; try done.
  - intros c r HA. rewrite Hl, sum_last.
    apply acct_clone; [done|]. by eapply avail_there.
  - apply (bk_slot _ _ _ _ Hb).
  - intros v. apply (bk_lock _ _ _ _ Hb _ _ _ Ht).
  - by left.
  - by rewrite Hl.
Qed.

Lemma drop_sound n hs t h fin arc (F : bool -> hold -> Prop) (g : global W) x g' :
  hs !! t = Some h -> books n hs g -> act_pre l h (ArcDrop arc) F ->
  act_sem external fin t (ArcDrop arc) g x g' ->
  exists h', F x h' /\ books n (<[t := h']> hs) g'.
Proof.
  intros Ht Hb (job & Hj & HF) Hs. eexists. split; [apply HF|].
  destruct (inside_step fin t (ArcDrop arc) g x g') as (Hl & el & Ha); [done..|].
  injection Ha as Hx Hm. subst x.
  apply (books_update l n hs t h _ g); try done; unfold in_slot, mutex_of; simpl; rewrite <- ?Hm; try done.
  - intros c r HA. rewrite Hl.
    assert (forall b : bool, (if b then raws h ⊎ {[+ job +]} else raws h) ⊎ r =
              if b then raws h ⊎ r ⊎ {[+ job +]} else raws h ⊎ r) as ->.
    { intros []; [apply sum_swap|done]. }
    apply acct_drop. by rewrite <- sum_last, <- sum_back.
  - apply (bk_slot _ _ _ _ Hb).
  - intros v. apply (bk_lock _ _ _ _ Hb _ _ _ Ht).
  - by left.
  - by rewrite Hl.
Qed.

Lemma mutex_update (g g' : global W) x :
  memory g' = set_mutex l x (memory g) -> mutex_of l g' = x.
Proof. intros Hm. unfold mutex_of. rewrite Hm. unfold mutex_at. simpl. by rewrite lookup_insert_eq. Qed.

Lemma lock_sound n hs t h fin (F : bool -> hold -> Prop) (g : global W) x g' :
  hs !! t = Some h -> books n hs g -> act_pre l h (Lock l) F ->
  act_sem external fin t (Lock l) g x g' ->
  exists h', F x h' /\ books n (<[t := h']> hs) g'.
Proof.
  intros Ht Hb (_ & Hn & HF) Hs.
  exists (with_seen (Some (in_slot l g)) h). split; [by apply HF, (bk_slot _ _ _ _ Hb)|].
  assert (mem_step t false (Lock l) (memory g) <> External) as He by (simpl; by destruct (holder _)).
  destruct (inside_step fin t (Lock l) g x g') as (Hl & el & Ha); [done..|]. simpl in Ha.
  destruct (holder (mutex_at (memory g) l)) eqn:Hh; [done|]. injection Ha as _ Hm.
  symmetry in Hm. apply mutex_update in Hm as Hmu.
  assert (in_slot l g' = in_slot l g) as Hi by (unfold in_slot at 1; by rewrite Hmu).
  apply (books_update l n hs t h _ g); try done.
  - intros c r HA. rewrite Hl, Hi, Hm. by apply (acct_mem _ _ (memory g)).
  - rewrite Hi. apply (bk_slot _ _ _ _ Hb).
  - by rewrite Hm.
  - intros v [= <-]. by rewrite Hmu, Hi.
  - right. intros u. unfold mutex_of. by rewrite Hh.
  - by rewrite Hl.
Qed.

Lemma get_sound n hs t h fin (F : option KillHandle -> hold -> Prop) (g : global W) x g' :
  hs !! t = Some h -> books n hs g -> act_pre l h (GetSlot l) F ->
  act_sem external fin t (GetSlot l) g x g' ->
  exists h', F x h' /\ books n (<[t := h']> hs) g'.
Proof.
  intros Ht Hb (_ & v & Hv & HF) Hs. exists h.
  destruct (inside_step fin t (GetSlot l) g x g') as (Hl & el & Ha); [done..|].
  injection Ha as <- Hm. destruct (bk_lock _ _ _ _ Hb _ _ _ Ht Hv) as [_ E].
  unfold in_slot, mutex_of in E. rewrite E. split; [done|].
  apply (books_update l n hs t h h g); try done; unfold in_slot, mutex_of; rewrite <- ?Hm; try done.
  - intros c r. by rewrite Hl.
  - apply (bk_slot _ _ _ _ Hb).
  - intros v'. apply (bk_lock _ _ _ _ Hb _ _ _ Ht).
  - by left.
  - by rewrite Hl.
Qed.

Lemma unlock_sound n hs t h fin (F : unit -> hold -> Prop) (g : global W) x g' :
  hs !! t = Some h -> books n hs g -> act_pre l h (Unlock l) F ->
  act_sem external fin t (Unlock l) g x g' ->
  exists h', F x h' /\ books n (<[t := h']> hs) g'.
Proof.
  intros Ht Hb (_ & Hn & HF) Hs. exists (with_seen None h). split; [done|].
  destruct (inside_step fin t (Unlock l) g x g') as (Hl & el & Ha); [done..|].
  injection Ha as _ Hm. symmetry in Hm. apply mutex_update in Hm as Hmu.
  assert (in_slot l g' = in_slot l g) as Hi by (unfold in_slot at 1; by rewrite Hmu).
  destruct (seen h) as [v|] eqn:Hv; [|done].
  apply (books_update l n hs t h _ g); try done.
  - intros c r HA. rewrite Hl, Hi, Hm. by apply (acct_mem _ _ (memory g)).
  - rewrite Hi. apply (bk_slot _ _ _ _ Hb).
  - by rewrite Hm.
  - right. intros u. by eapply lock_mine.
  - by rewrite Hl.
Qed.

Lemma set_sound n hs t h fin v (F : option KillHandle -> hold -> Prop) (g : global W) x g' :
  hs !! t = Some h -> books n hs g -> act_pre l h (SetSlot l v) F ->
  act_sem external fin t (SetSlot l v) g x g' ->
  exists h', F x h' /\ books n (<[t := h']> hs) g'.
Proof.
  intros Ht Hb (_ & old & Hv & Hjk & Hsub & HF) Hs. eexists. split.
  { destruct (inside_step fin t (SetSlot l v) g x g') as (Hl & el & Ha); [done..|].
    injection Ha as <- Hm. destruct (bk_lock _ _ _ _ Hb _ _ _ Ht Hv) as [_ E].
    unfold in_slot, mutex_of in E. rewrite E. exact HF. }
  destruct (inside_step fin t (SetSlot l v) g x g') as (Hl & el & Ha); [done..|].
  injection Ha as _ Hm. symmetry in Hm. apply mutex_update in Hm as Hmu.
  destruct (bk_lock _ _ _ _ Hb _ _ _ Ht Hv) as [Hh Hi].
  assert (in_slot l g' = v) as Hi' by (unfold in_slot at 1; by rewrite Hmu).
  apply (books_update l n hs t h _ g); try done.
  - intros c r HA. rewrite Hl, Hi', Hm. simpl. rewrite Hi in HA.
    apply (acct_mem _ _ (memory g)); [done|done|].
    by rewrite sum_exchange.
  - by rewrite Hi'.
  - by rewrite Hm.
  - intros v' [= <-]. rewrite Hmu, Hi'. split; [|done]. exact Hh.
  - right. intros u. by eapply lock_mine.
  - by rewrite Hl.
Qed.

(** Each action of a thread that may perform it keeps the books. *)
Lemma act_sound n hs t h fin {X} (e : act X) (F : X -> hold -> Prop) (g : global W) x g' :
  hs !! t = Some h -> books n hs g -> act_pre l h e F -> act_sem external fin t e g x g' ->
  exists h', F x h' /\ books n (<[t := h']> hs) g'.
Proof.
  intros Ht Hb Hpre Hs. destruct (decide_apart e) as [He|He].
  { exists h. split; [by apply (proj1 (act_pre_apart l h e F He) Hpre)|].
    destruct (apart_memory external l _ _ _ _ _ _ He (bk_alloc _ _ _ _ Hb) Hs) as (Ha & Hm & Hn & He').
    assert (in_slot l g' = in_slot l g) as Hi by (unfold in_slot; by rewrite Hm).
    apply (books_update l n hs t h h g); [done|done| | |done| |by left|by rewrite He'].
    - intros c r. rewrite Hi, He'. by apply acct_mem.
    - rewrite Hi. by apply (bk_slot _ _ _ _ Hb).
    - intros v Hv. rewrite Hi, Hm. by apply (bk_lock _ _ _ _ Hb _ _ _ Ht). }
  destruct e; simpl in He; try tauto;
    try (destruct Hpre as [Hu HF]; refine (use_sound n hs t h fin _ _ F g x g' _ _ Ht Hb Hu HF Hs); done).
  - exact (create_sound _ _ _ _ _ _ _ _ _ Ht Hb Hpre Hs).
  - exact (close_sound _ _ _ _ _ _ _ _ _ _ Ht Hb Hpre Hs).
  - exact (new_arc_sound _ _ _ _ _ _ _ _ _ _ Ht Hb Hpre Hs).
  - exact (clone_sound _ _ _ _ _ _ _ _ _ _ Ht Hb Hpre Hs).
  - exact (drop_sound _ _ _ _ _ _ _ _ _ _ Ht Hb Hpre Hs).
  - assert (l0 = l) as -> by apply Hpre. exact (lock_sound _ _ _ _ _ _ _ _ _ Ht Hb Hpre Hs).
  - assert (l0 = l) as -> by apply Hpre. exact (get_sound _ _ _ _ _ _ _ _ _ Ht Hb Hpre Hs).
  - assert (l0 = l) as -> by apply Hpre. exact (set_sound _ _ _ _ _ _ _ _ _ _ Ht Hb Hpre Hs).
  - assert (l0 = l) as -> by apply Hpre. exact (unlock_sound _ _ _ _ _ _ _ _ _ Ht Hb Hpre Hs).
Qed.

(** A thread created with some of its creator's clones. *)
Lemma books_fork n hs t h given (g : global W) :
  hs !! t = Some h -> given ⊆ clones h -> books n hs g ->
  books n (<[t := mkHold (budget h) (raws h) (clones h ∖ given) (seen h)]> hs ++ [with_clones given]) g.
Proof.
  intros Ht Hg []. destruct (hold_split hs t h Ht) as (rest & Hp & Hi). split.
  - rewrite Hi. rewrite Hp in bk_acct0.
    unfold all_clones, all_raws in *. simpl in *. rewrite !fmap_app, !gmultiset_disj_union_list_app.
    simpl. rewrite !(right_id_L ∅ (⊎)).
    rewrite (gmultiset_disj_union_difference given (clones h)) in bk_acct0 by done.
    by rewrite (assoc_L (⊎)), (comm_L (⊎) _ given), (assoc_L (⊎)).
  - done.
  - done.
  - intros u hu v [Hu|[_ Hu]]%lookup_app_Some Hv.
    + apply list_lookup_insert_Some in Hu as [(<- & <- & _)|[_ Hu]]; [|by eapply bk_lock0].
      by eapply bk_lock0.
    + apply list_lookup_singleton_Some in Hu as [_ <-]. done.
  - rewrite Hi. rewrite Hp in bk_budget0. rewrite budgets_cons in bk_budget0. rewrite budgets_app, budgets_cons.
    unfold budgets at 2. simpl in *. lia.
Qed.

Lemma books_silent n hs (g g' : global W) :
  memory g' = memory g -> job_events (log g') = job_events (log g) -> books n hs g -> books n hs g'.
Proof.
  intros Hm Hl []. unfold in_slot, mutex_of in *.
  split; unfold in_slot, mutex_of; rewrite ?Hm, ?Hl; done.
Qed.

(** One step of a thread, and what the thread it may create is given. *)
Lemma keeps_step n hs t h fin next {A} (p : prog A) Q (g : global W) born p' g' :
  hs !! t = Some h -> books n hs g -> keeps l h p Q ->
  thread_step external fin next t p g born p' g' ->
  exists h' new, books n (<[t := h']> hs ++ new) g' /\ keeps l h' p' Q /\
    Forall2 (fun b hb => keeps l hb b ends_empty) (option_list born) new.
Proof.
  intros Ht Hb Hp Hs. destruct p as [A a|A X e k|A body k|A J R body i k]; simpl in Hs; [done| | |].
  - destruct Hs as (-> & x & Hs & ->).
    destruct (act_sound n hs t h fin e _ g x g' Ht Hb Hp Hs) as (h' & Hk & Hb').
    exists h', []. rewrite app_nil_r. by split_and!; [| |constructor].
  - destruct Hs as (Hm & Hw & Hs), Hp as (given & Hg & Hbody & Hsome & Hnone).
    destruct Hs as [(-> & -> & Hl)|(-> & -> & Hl)].
    + eexists _, [_]. split_and!; [|apply Hsome|by repeat constructor].
      apply (books_silent n _ g); [done|by rewrite Hl, job_events_snoc, app_nil_r|].
      by apply books_fork.
    + exists h, []. rewrite app_nil_r, list_insert_id by done. split_and!; [|done|constructor].
      apply (books_silent n _ g); [done|by rewrite Hl, job_events_snoc, app_nil_r|done].
  - destruct Hs as (-> & -> & ->). exists h, []. rewrite app_nil_r, list_insert_id by done.
    split_and!; [done| |constructor]. destruct Hp as (inv & Hi & Hinv). apply keeps_bind.
    eapply keeps_mono; [|by apply Hinv]. intros [i'|x] h'; [|done]. intros Hi'. by exists inv.
Qed.

Lemma keeping_step n {R} (Q : R -> hold -> Prop) (c c' : config W R) :
  keeping n Q c -> step external c c' -> keeping n Q c'.
Proof.
  intros (h & hs & Hb & Hm & Ho) Hs. destruct Hs as [born p' g' Ht|i p born p' g' Hi Ht].
  - destruct (keeps_step n (h :: hs) 0%nat h _ _ _ Q _ _ _ _ eq_refl Hb Hm Ht)
      as (h' & new & Hb' & Hk & Hn).
    exists h', (hs ++ new). split_and!; [done|done|]. by apply Forall2_app.
  - destruct (Forall2_lookup_l _ _ _ _ _ Ho Hi) as (hi & Hhi & Hp).
    destruct (keeps_step n (h :: hs) (S i) hi _ _ _ ends_empty _ _ _ _ Hhi Hb Hp Ht)
      as (h' & new & Hb' & Hk & Hn).
    exists h, (<[i := h']> hs ++ new). split_and!; [done|done|]. simpl.
    apply Forall2_app; [|done]. by apply Forall2_insert.
Qed.

Lemma keeping_reachable n {R} (Q : R -> hold -> Prop) (c c' : config W R) :
  keeping n Q c -> reachable external c c' -> keeping n Q c'.
Proof. intros Hk Hr. induction Hr; eauto using keeping_step. Qed.

Lemma keeps_returned {A} h (p : prog A) Q : returned p -> keeps l h p Q -> exists a, Q a h.
Proof. destruct p; [|done..]. intros _ Hp. by eexists. Qed.

(** ** What the books say *)

Lemma keeping_used n {R} (Q : R -> hold -> Prop) (c : config W R) :
  keeping n Q c -> open_when_used (job_events (log (state c))).
Proof. intros (h & hs & Hb & _). apply (acct_used _ _ _ _ (bk_acct _ _ _ _ Hb)). Qed.

Lemma keeping_opens n {R} (Q : R -> hold -> Prop) (c : config W R) :
  keeping n Q c -> (opens (job_events (log (state c))) <= n)%nat.
Proof. intros (h & hs & Hb & _). pose proof (bk_budget _ _ _ _ Hb). lia. Qed.

(** When every thread has ended, a job is still open for each clone in the
    slot and for no other reason. *)
Lemma keeping_ended n {R} (Q : R -> hold -> Prop) (c : config W R) job :
  (forall a h, Q a h -> clones h = ∅ /\ raws h = ∅) ->
  keeping n Q c -> (forall t, (t <= length (others c))%nat -> finished c t) ->
  times (Opened job) (job_events (log (state c))) =
  (times (Closed job) (job_events (log (state c))) +
   live job (slot_clones (in_slot l (state c))))%nat.
Proof.
  intros HQ (h & hs & Hb & Hm & Ho) Hend.
  assert (all_clones (h :: hs) = ∅ /\ all_raws (h :: hs) = ∅) as [Hc Hr].
  { assert (clones h = ∅ /\ raws h = ∅) as [Hhc Hhr].
    { assert (finished c 0%nat) as Hf by (apply Hend; lia). simpl in Hf.
      destruct (keeps_returned _ _ _ Hf Hm) as [a Ha]. by eapply HQ. }
    assert (Forall (fun h => h = with_clones ∅) hs) as Hall.
    { apply Forall_lookup. intros i hi Hi.
      destruct (Forall2_lookup_r _ _ _ _ _ Ho Hi) as (p & Hp & Hk).
      destruct (Hend (S i)) as (p' & Hp' & Hret); [by eapply lookup_lt_Some|].
      rewrite Hp in Hp'. injection Hp' as <-. by destruct (keeps_returned _ _ _ Hret Hk). }
    unfold all_clones, all_raws. simpl. rewrite Hhc, Hhr, !(left_id_L ∅ (⊎)).
    clear -Hall. induction Hall as [|h' hs' -> _ [IH1 IH2]]; [done|]. simpl.
    by rewrite !(left_id_L ∅ (⊎)). }
  rewrite (acct_count _ _ _ _ (bk_acct _ _ _ _ Hb)), Hc, Hr, (left_id_L ∅ (⊎)), multiplicity_empty.
  lia.
Qed.
End Sound.

#[global] Arguments keeps : simpl never.
#[global] Arguments act_pre : simpl never.
