(* ===== verification/Jobs.v ===== *)
(** * The life of the job handle (properties of src/src/os/windows.rs)

    The code of a run on Windows keeps the books of Owned.v: the kill guard,
    the cancel handle's slot, the timeout monitor, the wait thread and every
    call that is handed a [KillHandle] by value own one clone each of the one
    [Arc<JobHandle>]. So, in every interleaving with any number of cancels,
    the job is opened once, used only while open, and closed once, by whoever
    drops the last clone. *)

From Stdlib Require Import ZArith.
From stdpp Require Import base numbers list strings gmap gmultiset relations.
From S2P Require Import Prelude Core Machine Sys Prog Os Windows Task Run Pool Race Owned.

Open Scope Z_scope.

(** One clone more, and one less. *)
Definition gain (x : loc * HANDLE) (h : hold) : hold :=
  mkHold (budget h) (raws h) (clones h ⊎ {[+ x +]}) (seen h).
Definition lose (x : loc * HANDLE) (h : hold) : hold :=
  mkHold (budget h) (raws h) (clones h ∖ {[+ x +]}) (seen h).

(** A critical section: what the slot holds is seen. *)
Definition inside (c : gmultiset (loc * HANDLE)) (v : option KillHandle) : hold :=
  mkHold 0 ∅ c (Some v).

(** A program that leaves a thread's clones as they were; [l] is the mutex. *)
Definition neutral (l : loc) {A} (p : prog A) : Prop :=
  forall c, keeps l (with_clones c) p (fun _ h => h = with_clones c).

Section Jobs.
Variable l : loc.

(** ** Clones and drops *)

Lemma lose_gain x h : lose x (gain x h) = h.
Proof. destruct h. unfold lose. simpl. by rewrite sum_cancel. Qed.

Lemma with_gain c x : gain x (with_clones c) = with_clones (c ⊎ {[+ x +]}).
Proof. done. Qed.

Lemma with_lose c x : lose x (with_clones (c ⊎ {[+ x +]})) = with_clones c.
Proof. by rewrite <- with_gain, lose_gain. Qed.

Lemma keeps_clone h arc job :
  avail h (arc, job) ->
  keeps l h (kill_clone (WindowsKill arc job)) (fun _ h' => h' = gain (arc, job) h).
Proof. intros Hx. by exists job. Qed.

Lemma keeps_drop h arc job :
  (arc, job) ∈ clones h ->
  keeps l h (kill_drop (WindowsKill arc job)) (fun _ h' => h' = lose (arc, job) h).
Proof.
  intros Hx. exists job. split; [done|]. intros [].
  - split; [apply sum_mine|]. intros []. unfold lose, keeps. simpl. by rewrite sum_cancel.
  - done.
Qed.

Lemma keeps_apart {A X} h (e : act X) (k : X -> prog A) Q :
  apart_from_jobs e -> (forall x, keeps l h (k x) Q) -> keeps l h (bind (do_act e) k) Q.
Proof. intros He Hk. apply keeps_act. by apply (act_pre_apart l h e _ He). Qed.

Lemma jobless_neutral d {A} h (p : prog A) :
  all_obs (jobless d) p -> keeps l h p (fun _ h' => h' = h).
Proof. intros Hp. by apply (keeps_jobless l d). Qed.

(** ** The platform *)

Lemma keeps_use {A X} h (e : act X) (k : X -> prog A) Q job :
  (forall F, act_pre l h e F = (usable h job /\ forall r, F r h)) ->
  usable h job -> (forall x, keeps l h (k x) Q) -> keeps l h (bind (do_act e) k) Q.
Proof. intros He Hu Hk. apply keeps_act. by rewrite He. Qed.

Lemma keeps_kill h arc job grace :
  (arc, job) ∈ clones h ->
  keeps l h (Windows.kill_escalating (WindowsKill arc job) grace)
    (fun _ h' => h' = lose (arc, job) h).
Proof.
  intros Hx. unfold kill_escalating. apply (keeps_use _ _ _ _ job); [done| |].
  { right. exists arc. by left. }
  intros r. eapply keeps_seq; [by apply keeps_drop|]. done.
Qed.

Lemma keeps_alive h arc job :
  avail h (arc, job) ->
  keeps l h (Windows.tree_alive (WindowsKill arc job)) (fun _ h' => h' = h).
Proof.
  intros Hx. unfold tree_alive. apply (keeps_use _ _ _ _ job); [done|right; by exists arc|].
  intros [ok n]. by destruct (rc ok =? 0).
Qed.

Lemma keeps_spawn c pr ar op :
  keeps l (mkHold 1 ∅ c None) (Windows.spawn pr ar op)
    (fun r h => match r with
                | Ok handle => exists arc job, kill handle = WindowsKill arc job /\
                    h = with_clones (c ⊎ {[+ (arc, job) +]})
                | Err _ => h = with_clones c
                end).
Proof.
  unfold Windows.spawn. apply keeps_act. split; [cbn [budget]; lia|]. intros raw.
  destruct (rc raw =? 0); [done|]. cbn [raws clones budget seen pred].
  apply keeps_act. split; [apply sum_mine|]. intros arc. cbn [raws clones budget seen].
  rewrite sum_cancel.
  set (x := (arc, rc raw)). set (h := mkHold 0 ∅ (c ⊎ {[+ x +]}) None).
  assert (x ∈ clones h) as Hx by apply sum_mine.
  assert (usable h (rc raw)) as Hu by (right; exists arc; by left).
  assert (forall e, keeps l h (kill_drop (WindowsKill arc (rc raw)) ;;; Ret (Err e))
    (fun (r : Result OsHandle AerError.t) h => match r with
                | Ok handle => exists arc job, kill handle = WindowsKill arc job /\
                    h = with_clones (c ⊎ {[+ (arc, job) +]})
                | Err _ => h = with_clones c
                end)) as Hfail.
  { intros e. eapply keeps_seq; [by apply keeps_drop|]. intros _. apply with_lose. }
  apply (keeps_use _ _ _ _ (rc raw)); [done|done|]. intros r. destruct (rc r =? 0); [apply Hfail|].
  apply keeps_apart; [done|]. intros [child|e]; [|apply Hfail].
  apply (keeps_use _ _ _ _ (rc raw)); [done|done|]. intros r'. destruct (rc r' =? 0).
  - do 2 (apply keeps_apart; [done|]; intros _). apply Hfail.
  - by eexists arc, (rc raw).
Qed.

Lemma jobless_sink d tx : all_obs (jobless d) (drop_sink tx).
Proof. unfold drop_sink. all_obs_solve ltac:(by destruct d). Qed.

Lemma jobless_drain pipe tx mk : all_obs (jobless 1) (drain_pipe pipe tx mk).
Proof.
  unfold drain_pipe, spawn_drain_thread, thread_spawn. all_obs_solve ltac:(idtac).
  - simpl. unfold drain_body, drain_loop, drain_round. all_obs_solve ltac:(done).
  - apply jobless_sink.
  - apply jobless_sink.
Qed.

(** [wait] is given the handle's clone and drops it on every path. *)
Lemma keeps_wait c arc job handle sinks :
  kill handle = WindowsKill arc job ->
  keeps l (with_clones (c ⊎ {[+ (arc, job) +]})) (Windows.wait handle sinks)
    (fun _ h => h = with_clones c).
Proof.
  intros Hk. unfold Windows.wait. rewrite Hk.
  set (h := with_clones (c ⊎ {[+ (arc, job) +]})).
  assert (forall pipe tx mk, keeps l h (drain_pipe pipe tx mk) (fun _ h' => h' = h)) as Hdrain.
  { intros pipe tx mk. apply (jobless_neutral 1), jobless_drain. }
  assert (forall tx c, keeps l (with_clones c) (drop_sink tx) (fun _ h' => h' = with_clones c)) as Hsink.
  { intros tx c'. apply (jobless_neutral 0), jobless_sink. }
  assert (forall t c, keeps l (with_clones c) (join_drain t) (fun _ h' => h' = with_clones c)) as Hjoin.
  { intros t c'. apply (jobless_neutral 0). unfold join_drain. all_obs_solve ltac:(done). }
  assert (forall {A} (p : prog A), keeps l (with_clones c) p (fun _ h' => h' = with_clones c) ->
    keeps l h (kill_drop (WindowsKill arc job) ;;; p) (fun _ h' => h' = with_clones c)) as Hdrop.
  { intros A p Hp. eapply keeps_seq; [apply keeps_drop, sum_mine|]. intros _. unfold h.
    by rewrite with_lose. }
  eapply keeps_seq; [apply Hdrain|]. intros [o1|]; [|apply Hdrop; by eapply keeps_seq].
  eapply keeps_seq; [apply Hdrain|]. intros [o2|]; [|by apply Hdrop].
  apply keeps_apart; [done|]. intros [status|e]; simpl.
  - apply (keeps_use _ _ _ _ job); [done|right; exists arc; left; apply sum_mine|]. intros _.
    apply Hdrop. by repeat (eapply keeps_seq; [apply Hjoin|intros _]).
  - by apply Hdrop.
Qed.
End Jobs.

(** ** The run *)

Section Run.
Variable ch : CancelHandle.
#[local] Abbreviation l := (kill_slot ch).
#[local] Abbreviation keeps := (keeps l).
#[local] Abbreviation neutral := (neutral l).

(** A kill for which the thread has a clone, or sees one in the slot. *)
Lemma keeps_escalate h arc job grace :
  avail h (arc, job) ->
  keeps h (kill_clone (WindowsKill arc job) ;;; os_kill_escalating (WindowsKill arc job) grace)
    (fun _ h' => h' = h).
Proof.
  intros Hx. eapply keeps_seq; [by apply keeps_clone|]. intros _.
  eapply keeps_mono; [|apply keeps_kill, sum_mine]. intros _ ? ->. apply lose_gain.
Qed.

(** A block with the mutex held that leaves the clones and the slot. *)
Lemma keeps_locked c (p : bool -> prog unit) :
  (forall b v, job_kill v -> keeps (inside c v) (p b) (fun _ h => exists v', h = inside c v')) ->
  keeps (with_clones c) (let! b := do_act (Lock l) in p b ;;; do_act (Unlock l))
    (fun _ h => h = with_clones c).
Proof.
  intros Hp. apply keeps_act. split_and!; [done|done|]. intros b v Hv.
  apply keeps_bind. eapply keeps_mono; [|by apply Hp]. intros _ h [v' ->].
  by split_and!.
Qed.

Lemma cancel_neutral : neutral (cancel ch).
Proof.
  intros c. unfold cancel. apply keeps_apart; [done|]. intros old. destruct (negb old); [|done].
  apply (keeps_locked c (fun poisoned => if negb poisoned then _ else Ret tt)).
  intros b v Hv. destruct (negb b); [|by exists v].
  apply keeps_act. split; [done|]. exists v. split; [done|].
  destruct v as [[p|arc job]|]; [done| |by exists None].
  set (v := Some (WindowsKill arc job)).
  assert (avail (inside c v) (arc, job)) as Hx.
  { right. exists v. split; [done|]. by apply gmultiset_elem_of_singleton. }
  eapply keeps_seq; [by apply keeps_alive|]. intros [].
  - apply keeps_apart; [done|]. intros _. apply keeps_bind.
    eapply keeps_mono; [|by apply keeps_clone]. intros _ ? ->. apply keeps_bind.
    eapply keeps_mono; [|apply keeps_kill, sum_mine]. intros _ ? ->. rewrite lose_gain. by exists v.
  - by exists v.
Qed.

(** Storing a kill handle gives its clone away; the one it replaces is
    dropped. *)
Lemma keeps_set_kill c v :
  job_kill v -> slot_clones v ⊆ c ->
  keeps (with_clones c) (set_kill ch v) (fun _ h => h = with_clones (c ∖ slot_clones v)).
Proof.
  intros Hv Hsub. unfold set_kill. apply keeps_act. split_and!; [done|done|]. intros _ old Hold.
  apply keeps_act. split; [done|]. exists old. split_and!; [done|done|done|].
  apply keeps_bind. cbn [budget raws clones with_seen with_clones].
  apply keeps_mono with (Q := fun _ h => h = inside (c ∖ slot_clones v) v); [by intros _ ? ->; split_and!|].
  destruct old as [[p|arc job]|]; [done| |].
  - eapply keeps_mono; [|apply keeps_drop, sum_mine]. intros _ ? ->. unfold lose, inside. simpl.
    by rewrite sum_cancel.
  - simpl. by rewrite (right_id_L ∅ (⊎)).
Qed.

(** The run is given this handle, or none. *)
Definition this_or_none (handle : option CancelHandle) : Prop :=
  forall ch', handle = Some ch' -> ch' = ch.

(** A thread with a clone can have the handle wired with another one. *)
Lemma keeps_wire handle c arc job :
  this_or_none handle -> (arc, job) ∈ c ->
  keeps (with_clones c) (wire_cancel handle (WindowsKill arc job)) (fun _ h => h = with_clones c).
Proof.
  intros Hh Hx. unfold wire_cancel. destruct handle as [ch'|]; [rewrite (Hh ch' eq_refl)|done].
  eapply keeps_seq; [apply keeps_clone; by left|]. intros _. rewrite with_gain.
  eapply keeps_seq; [apply keeps_set_kill; [done|]|].
  { apply gmultiset_singleton_subseteq_l, sum_mine. }
  intros _. simpl slot_clones. rewrite sum_cancel. apply keeps_apart; [done|]. intros b.
  apply keeps_seq with (h' := with_clones c).
  - destruct b; [|done]. apply keeps_apart; [done|]. intros []; [done|]. apply keeps_alive. by left.
  - intros []; [|done]. apply keeps_apart; [done|]. intros _.
    apply keeps_bind. eapply keeps_mono; [|apply keeps_clone; by left]. intros _ ? ->.
    apply keeps_bind. eapply keeps_mono; [|apply keeps_kill, sum_mine]. intros _ ? ->.
    by rewrite lose_gain.
Qed.

Lemma keeps_monitor arc job timed_out cancel_ch timeout :
  keeps (with_clones {[+ (arc, job) +]})
    (monitor_body (WindowsKill arc job) timed_out cancel_ch timeout)
    (fun _ h => h = with_clones ∅).
Proof.
  rewrite <- (left_id_L ∅ (⊎) {[+ (arc, job) +]}).
  assert (keeps (with_clones (∅ ⊎ {[+ (arc, job) +]})) (kill_drop (WindowsKill arc job))
    (fun _ h => h = with_clones ∅)) as Hdrop.
  { eapply keeps_mono; [|apply keeps_drop, sum_mine]. intros _ ? ->. apply with_lose. }
  unfold monitor_body. apply keeps_apart; [done|]. intros [].
  - by apply keeps_apart.
  - eapply keeps_seq; [apply keeps_alive; left; apply sum_mine|]. intros [].
    + apply keeps_apart; [done|]. intros _. eapply keeps_seq; [apply keeps_kill, sum_mine|].
      intros _. rewrite with_lose. by apply (jobless_neutral l 0), all_obs_act.
    + by apply keeps_apart.
  - by apply keeps_apart.
Qed.

(** A thread given a clone that ends without it; the creator's own is dropped
    when the thread cannot be created. *)
Lemma keeps_thread_spawn c x body captured :
  keeps (with_clones {[+ x +]}) body (fun _ h => h = with_clones ∅) ->
  keeps (with_clones (c ⊎ {[+ x +]})) captured (fun _ h => h = with_clones c) ->
  keeps (with_clones (c ⊎ {[+ x +]})) (thread_spawn body captured)
    (fun _ h => h = with_clones c).
Proof.
  intros Hb Hc. unfold thread_spawn. apply keeps_bind. exists {[+ x +]}. split_and!.
  - apply gmultiset_singleton_subseteq_l, sum_mine.
  - exact Hb.
  - intros n. apply with_lose.
  - eapply keeps_seq; [exact Hc|done].
Qed.

Lemma keeps_start_monitor c arc job timeout timed_out cancel_ch :
  (arc, job) ∈ c ->
  keeps (with_clones c) (start_monitor timeout (WindowsKill arc job) timed_out cancel_ch)
    (fun _ h => h = with_clones c).
Proof.
  intros Hx. unfold start_monitor. destruct timeout as [timeout|]; [|done].
  eapply keeps_seq; [apply keeps_clone; by left|]. intros _. rewrite with_gain.
  eapply keeps_seq; [|by intros []].
  apply keeps_thread_spawn; [apply keeps_monitor|]. apply keeps_apart; [done|]. intros _.
  eapply keeps_mono; [|apply keeps_drop, sum_mine]. intros _ ? ->. apply with_lose.
Qed.

Lemma keeps_wait_body arc job handle sinks wait_ch :
  kill handle = WindowsKill arc job ->
  keeps (with_clones {[+ (arc, job) +]}) (wait_body handle sinks wait_ch)
    (fun _ h => h = with_clones ∅).
Proof.
  intros Hk. unfold wait_body. rewrite <- (left_id_L ∅ (⊎) {[+ (arc, job) +]}).
  eapply keeps_seq; [by apply keeps_wait|]. intros [result|p].
  - apply keeps_apart; [done|]. intros _. by apply (jobless_neutral l 0), all_obs_act.
  - by apply (jobless_neutral l 0), all_obs_act.
Qed.

Section Callback.
Context (on_event : Event.t -> prog (outcome unit)) (Hcb : forall ev, neutral (on_event ev)).

Lemma keeps_pump chunk_ch : neutral (pump on_event chunk_ch).
Proof using Hcb.
  intros c. apply keeps_iter with (J := fun _ h => h = with_clones c); [done|].
  intros [] h ->. unfold pump_round. apply keeps_apart; [done|]. intros [m|]; [|done].
  eapply keeps_seq; [apply Hcb|]. by intros [].
Qed.

Lemma keeps_capturing c arc job handle :
  kill handle = WindowsKill arc job ->
  keeps (with_clones (c ⊎ {[+ (arc, job) +]})) (wait_capturing on_event handle)
    (fun _ h => h = with_clones c).
Proof using Hcb.
  intros Hk. unfold wait_capturing. apply keeps_apart; [done|]. intros chunk_ch.
  do 3 (apply keeps_apart; [done|]; intros _). apply keeps_apart; [done|]. intros wait_ch.
  eapply keeps_seq.
  { apply keeps_thread_spawn; [by apply keeps_wait_body|]. rewrite Hk.
    eapply keeps_seq; [apply keeps_drop, sum_mine|]. intros _. rewrite with_lose.
    apply (jobless_neutral l 0). all_obs_solve ltac:(done). }
  intros wt. apply keeps_seq with (h' := with_clones c).
  - destruct wt as [wt|p]; [|done]. eapply keeps_seq; [apply keeps_pump|]. intros [u|p]; [|done].
    apply keeps_apart; [done|]. intros [result|]; [|done]. apply keeps_apart; [done|]. intros _.
    by destruct result.
  - intros code. by do 2 (apply keeps_apart; [done|]; intros _).
Qed.

Lemma keeps_discarding c arc job handle :
  kill handle = WindowsKill arc job ->
  keeps (with_clones (c ⊎ {[+ (arc, job) +]})) (wait_discarding handle)
    (fun _ h => h = with_clones c).
Proof.
  intros Hk. unfold wait_discarding. eapply keeps_seq; [by apply keeps_wait|].
  by intros [[]|].
Qed.

Lemma unwire_neutral handle : this_or_none handle -> neutral (unwire_cancel handle).
Proof.
  intros Hh c. unfold unwire_cancel. destruct handle as [ch'|]; [rewrite (Hh ch' eq_refl)|done].
  eapply keeps_mono; [|apply keeps_set_kill; [done|apply gmultiset_empty_subseteq]].
  intros _ ? ->. f_equal. apply gmultiset_eq. intros x. simpl.
  rewrite multiplicity_difference, multiplicity_empty. lia.
Qed.

Lemma keeps_finish handle machine timed_out cancel_ch os_code :
  this_or_none handle -> neutral (finish on_event handle machine timed_out cancel_ch os_code).
Proof using Hcb.
  intros Hh c. unfold finish. eapply keeps_seq; [by apply unwire_neutral|]. intros _.
  do 2 (apply keeps_apart; [done|]; intros ?).
  apply keeps_seq with (h' := with_clones c); [by destruct handle|]. intros ?.
  destruct (transition machine Exited) as [m [[]|e]]; [|done].
  eapply keeps_seq; [apply Hcb|]. by intros [].
Qed.

(** What the run still owns when the guarded part is over: the guard's clone,
    and the handle's if [wait] was not reached. *)
Lemma keeps_guarded task cancel_handle machine handle arc job :
  this_or_none cancel_handle -> kill handle = WindowsKill arc job ->
  let one := with_clones {[+ (arc, job) +]} in
  keeps (gain (arc, job) one)
    (guarded_body task on_event cancel_handle machine handle (Guard_new (kill handle)))
    (fun r h => guard_kill r.1.1 = kill handle /\
       h = match r.1.2 with Some handle' => gain (arc, job) one | None => one end /\
       (forall handle', r.1.2 = Some handle' -> handle' = handle)).
Proof using Hcb.
  intros Hh Hk one. subst one. rewrite with_gain.
  set (x := (arc, job)). set (two := with_clones ({[+ x +]} ⊎ {[+ x +]})).
  unfold guarded_body. destruct (transition machine Running) as [m [[]|e]].
  2: { split_and!; [done|done|]. by intros ? [= <-]. }
  eapply keeps_seq; [apply Hcb|]. intros [u|p].
  2: { split_and!; [done|done|]. by intros ? [= <-]. }
  assert (x ∈ ({[+ x +]} ⊎ {[+ x +]} : gmultiset _)) as Hx by apply sum_mine.
  rewrite Hk. eapply keeps_seq; [by apply keeps_wire|]. intros _.
  apply keeps_apart; [done|]. intros timed_out. apply keeps_apart; [done|]. intros cancel_ch.
  eapply keeps_seq; [by apply keeps_start_monitor|]. intros mon.
  apply keeps_bind.
  eapply keeps_mono with (Q := fun r h => guard_kill r.1.1 = WindowsKill arc job /\
       h = match r.1.2 with Some handle' => two | None => with_clones {[+ x +]} end /\
       (forall handle', r.1.2 = Some handle' -> handle' = handle)).
  { intros r h (Hg & -> & Hr). apply keeps_seq with (h' :=
      match r.1.2 with Some handle' => two | None => with_clones {[+ x +]} end).
    - destruct (timeout task); [done|]. by apply (jobless_neutral l 0), all_obs_act.
    - intros _. by apply keeps_apart. }
  destruct mon as [u'|p].
  2: { split_and!; [done|done|]. by intros ? [= <-]. }
  eapply keeps_seq.
  { destruct (capture_output task); [by apply keeps_capturing|by apply keeps_discarding]. }
  intros [os_code|e|p]; [|by split_and!..].
  eapply keeps_seq; [by apply keeps_finish|]. intros out. by split_and!.
Qed.

Lemma keeps_guard_drop c arc job armed :
  (arc, job) ∈ c ->
  keeps (with_clones c) (guard_drop (mkGuard (WindowsKill arc job) armed))
    (fun _ h => h = lose (arc, job) (with_clones c)).
Proof.
  intros Hx. unfold guard_drop. apply keeps_seq with (h' := with_clones c).
  - destruct armed; [|done]. simpl. apply keeps_bind.
    eapply keeps_mono; [|apply keeps_clone; by left]. intros _ ? ->.
    eapply keeps_seq; [apply keeps_kill, sum_mine|]. intros _. rewrite lose_gain. done.
  - intros _. by apply keeps_drop.
Qed.

(** The whole run: it may open one job, and ends owning nothing. *)
Lemma keeps_run_impl task cancel_handle :
  this_or_none cancel_handle ->
  keeps (mkHold 1 ∅ ∅ None) (run_impl task on_event cancel_handle) (fun _ h => h = with_clones ∅).
Proof using Hcb.
  intros Hh. unfold run_impl. apply keeps_bind. eapply keeps_mono; [|apply keeps_spawn].
  intros [handle|e] h; [|by intros ->]. intros (arc & job & Hk & ->).
  rewrite (left_id_L ∅ (⊎)), Hk.
  eapply keeps_seq; [apply keeps_clone; left; by apply gmultiset_elem_of_singleton|]. intros _.
  rewrite <- Hk. apply keeps_bind. eapply keeps_mono; [|by apply keeps_guarded].
  intros [[[gk armed] rest] out] h (Hg & -> & Hr). simpl in Hg, Hr. simpl. rewrite Hk in Hg. subst gk.
  destruct rest as [handle'|].
  - rewrite (Hr handle' eq_refl). eapply keeps_seq; [apply keeps_guard_drop, sum_mine|].
    intros _. rewrite with_lose. unfold drop_handle. rewrite Hk, <- (left_id_L ∅ (⊎) {[+ (arc, job) +]}).
    eapply keeps_seq; [apply keeps_drop, sum_mine|]. intros _. apply with_lose.
  - rewrite <- (left_id_L ∅ (⊎) {[+ (arc, job) +]}).
    eapply keeps_seq; [apply keeps_guard_drop, sum_mine|]. intros _. apply with_lose.
Qed.
End Callback.
End Run.

(** ** The events of one job *)

(** A job is opened, used any number of times, and closed last, if at all. *)
Inductive life : list job_event -> Prop :=
  | life_none : life []
  | life_open job n : life (Opened job :: replicate n (Used job))
  | life_closed job n : life (Opened job :: replicate n (Used job) ++ [Closed job]).

Lemma times_used e job n :
  times e (Opened job :: replicate n (Used job)) =
  ((if decide (e = Opened job) then 1 else 0) + if decide (e = Used job) then n else 0)%nat.
Proof.
  unfold times. rewrite filter_cons. 
  assert (length (filter (fun e' => e' = e) (replicate n (Used job))) =
          if decide (e = Used job) then n else 0%nat) as E.
  { induction n as [|n IH]; simpl; [by case_decide|]. rewrite filter_cons.
    repeat case_decide; simpl; simplify_eq; try done; by rewrite IH. }
  repeat case_decide; simpl; rewrite E; simplify_eq; try done; repeat case_decide; done.
Qed.

Lemma life_spec evs : open_when_used evs -> (opens evs <= 1)%nat -> life evs.
Proof.
  induction evs as [|e evs IH] using rev_ind; intros Hu Ho; [constructor|].
  rewrite opens_app in Ho.
  assert (open_when_used evs) as Hu'.
  { intros l1 e' l2 job -> Hn. apply (Hu l1 e' (l2 ++ [e]) job); [|done]. by rewrite <- app_assoc. }
  assert (forall job, needs e = Some job -> (times (Closed job) evs < times (Opened job) evs)%nat) as He.
  { intros job Hn. by apply (Hu evs e [] job). }
  destruct (IH Hu' ltac:(lia)) as [|job n|job n].
  - destruct e as [job|job|job]; [apply (life_open job 0)| |];
      specialize (He job eq_refl); unfold times in He; simpl in He; lia.
  - destruct e as [job'|job'|job'].
    + unfold opens in Ho. simpl in Ho. lia.
    + assert (job' = job) as ->.
      { specialize (He job' eq_refl). rewrite !times_used in He. repeat case_decide; simplify_eq; [done|lia]. }
      rewrite <- app_comm_cons, <- replicate_cons_app. apply (life_open job (S n)).
    + assert (job' = job) as ->.
      { specialize (He job' eq_refl). rewrite !times_used in He. repeat case_decide; simplify_eq; [done|lia]. }
      apply life_closed.
  - exfalso. destruct e as [job'|job'|job'].
    + unfold opens in Ho. simpl in Ho. lia.
    + specialize (He job' eq_refl). rewrite app_comm_cons, !times_snoc, !times_used in He.
      repeat case_decide; simplify_eq; lia.
    + specialize (He job' eq_refl). rewrite app_comm_cons, !times_snoc, !times_used in He.
      repeat case_decide; simplify_eq; lia.
Qed.

(** The life that leaves the clones of a slot open, and nothing else. *)
Lemma life_balance evs v :
  life evs -> job_kill v ->
  (forall job, times (Opened job) evs =
     (times (Closed job) evs + live job (slot_clones v))%nat) ->
  match v with
  | None => evs = [] \/ exists job k, evs = Opened job :: replicate k (Used job) ++ [Closed job]
  | Some kill => exists k, evs = Opened (job kill) :: replicate k (Used (job kill))
  end.
Proof.
  intros Hl Hv Hcount. destruct v as [[p|arc j]|]; [done| |]; simpl in Hcount |- *.
  - destruct Hl as [|job n|job n].
    + specialize (Hcount j). rewrite live_one, decide_True in Hcount by done. done.
    + specialize (Hcount job). rewrite !times_used, live_one in Hcount.
      destruct (decide (j = job)) as [->|Hne]; [by exists n|].
      repeat case_decide; simplify_eq; lia.
    + pose proof (Hcount j) as Hj. specialize (Hcount job).
      rewrite app_comm_cons, !times_snoc, !times_used, live_one in Hj, Hcount.
      repeat case_decide; simplify_eq; try congruence; lia.
  - destruct Hl as [|job n|job n]; [by left| |right; by exists job, n].
    specialize (Hcount job). rewrite !times_used, live_none in Hcount.
    repeat case_decide; simplify_eq; lia.
Qed.

(** ** Properties *)

Section Properties.
Context {W : Type}.
Variable external : tid -> forall X, act X -> W -> X -> W -> Prop.
Variable ch : CancelHandle.

(** One thread in a run with the handle, or without one, whose callback calls
    [cancel] on the events it chooses; [n] threads in [cancel]. *)
Definition job_race (task : Task) (given : bool) (wants : Event.t -> bool) (n : nat) (g : global W) :
    config W (outcome (Result unit AerError.t)) :=
  mkConfig (run_impl task (cancelling ch wants) (if given then Some ch else None))
    (replicate n (cancel ch)) g.

Lemma cancelling_neutral wants ev : neutral (kill_slot ch) (cancelling ch wants ev).
Proof.
  intros c. unfold cancelling. assert (neutral (kill_slot ch) (rust_callback ev)) as Hr.
  { intros c'. apply (jobless_neutral _ 0). unfold rust_callback. all_obs_solve ltac:(done). }
  destruct (wants ev); [|apply Hr]. eapply keeps_seq; [apply cancel_neutral|]. intros _. apply Hr.
Qed.

Lemma no_clones n :
  all_clones (replicate n (with_clones ∅)) = ∅ /\ all_raws (replicate n (with_clones ∅)) = ∅ /\
  budgets (replicate n (with_clones ∅)) = 0%nat.
Proof.
  induction n as [|n (IH1 & IH2 & IH3)]; [done|].
  change (replicate (S n) ?x) with (x :: replicate n x).
  by rewrite all_clones_cons, all_raws_cons, budgets_cons, IH1, IH2, IH3.
Qed.

Lemma race_keeping task given wants n (g : global W) :
  fresh ch g ->
  keeping (kill_slot ch) 1 (fun _ h => h = with_clones ∅) (job_race task given wants n g).
Proof.
  intros (_ & (_ & _ & Ha) & _ & _ & _ & Hs & Hl & _). unfold slot in Hs.
  exists (mkHold 1 ∅ ∅ None), (replicate n (with_clones ∅)).
  destruct (no_clones n) as (Hc & Hr & Hb). split_and!.
  - split; unfold in_slot, mutex_of; simpl; rewrite ?Hs, ?Hl; try done.
    + rewrite all_clones_cons, all_raws_cons, Hc, Hr.
      change (acct (∅ ⊎ ∅ ⊎ ∅) (∅ ⊎ ∅) (memory g) []). rewrite !(left_id_L ∅ (⊎)).
      split; [by intros a job ?%gmultiset_elem_of_empty|done|]. intros l1 e l2 job E. by destruct l1.
    + intros t h v Ht Hv. apply list_elem_of_lookup_2 in Ht as [->|Ht]%elem_of_cons; [done|].
      by apply elem_of_replicate in Ht as [-> _].
    + change (1 + budgets (replicate n (with_clones ∅)) + 0 <= 1)%nat. rewrite Hb. lia.
  - apply keeps_run_impl; [apply cancelling_neutral|]. destruct given; [by intros ? [= ->]|done].
  - simpl. apply Forall2_replicate. apply cancel_neutral.
Qed.

Lemma race_kept task given wants n g c :
  fresh ch g -> reachable external (job_race task given wants n g) c ->
  keeping (kill_slot ch) 1 (fun _ h => h = with_clones ∅) c.
Proof. intros Hg. by apply keeping_reachable, race_keeping. Qed.

Lemma keeping_life {R} (Q : R -> hold -> Prop) (c : config W R) :
  keeping (kill_slot ch) 1 Q c -> life (job_events (log (state c))).
Proof. intros Hk. apply life_spec; [by eapply keeping_used|by eapply keeping_opens]. Qed.

(** C4: Whatever the interleaving of a run on Windows, with a cancel handle
    or without, and cancels on the handle, some from its own callback: the job object is opened at most once,
    every use of its handle comes while it is open, and its close is the last
    thing done with it; no handle value is used after it could be recycled. *)
Theorem job_life task given wants n g c :
  fresh ch g -> reachable external (job_race task given wants n g) c ->
  life (job_events (log (state c))).
Proof. intros Hg Hr. by eapply keeping_life, race_kept. Qed.

(** C5: And no handle is leaked: when every thread has ended, the job has been
    closed, once, unless the cancel handle still keeps a clone in its slot,
    and then it is open, for that clone to close. *)
Theorem job_closed task given wants n g c :
  fresh ch g -> reachable external (job_race task given wants n g) c ->
  (forall t, (t <= length (others c))%nat -> finished c t) ->
  match value (mutex_at (memory (state c)) (kill_slot ch)) with
  | None =>
      job_events (log (state c)) = [] \/
      exists job k, job_events (log (state c)) =
        Opened job :: replicate k (Used job) ++ [Closed job]
  | Some kill => exists k, job_events (log (state c)) =
      Opened (job kill) :: replicate k (Used (job kill))
  end.
Proof.
  intros Hg Hr Hend. pose proof (race_kept task given wants n g c Hg Hr) as Hk.
  apply life_balance; [by eapply keeping_life| |].
  - destruct Hk as (h & hs & Hb & _). apply (bk_slot _ _ _ _ Hb).
  - intros job. eapply keeping_ended; [|exact Hk|exact Hend]. by intros _ ? ->.
Qed.
End Properties.
