(* ===== verification/Utf8.v ===== *)
(** * UTF-8

    What the program takes from std's [str]: the validation behind
    [CStr::to_str] (src/src/ffi.rs) and [String::from_utf8_lossy]
    (src/examples/capture.rs, env.rs), against the encoding of Unicode scalar
    values. A Rust [String] is a [string] of its UTF-8 bytes. *)

From Stdlib Require Import ZArith Strings.Byte.
From stdpp Require Import base numbers list strings.
From S2P Require Import Prelude.

Open Scope Z_scope.

(** ** Validation *)

Definition byte_Z (b : byte) : Z := Z.of_N (Byte.to_N b).

(** A continuation byte, and one within tighter bounds. *)
Definition between (lo hi : Z) (b : byte) : bool := (lo <=? byte_Z b) && (byte_Z b <=? hi).
Definition continuation (b : byte) : bool := between 128 191 b.

(** How many continuation bytes follow a first byte, and the bounds of the
    first of them (the Unicode table of well-formed byte sequences). *)
Definition utf8_first (b : byte) : option (nat * (Z * Z)) :=
  let z := byte_Z b in
  if z <? 128 then Some (0%nat, (128, 191))
  else if z <? 194 then None
  else if z <? 224 then Some (1%nat, (128, 191))
  else if z =? 224 then Some (2%nat, (160, 191))
  else if z =? 237 then Some (2%nat, (128, 159))
  else if z <? 240 then Some (2%nat, (128, 191))
  else if z =? 240 then Some (3%nat, (144, 191))
  else if z <? 244 then Some (3%nat, (128, 191))
  else if z =? 244 then Some (3%nat, (128, 143))
  else None.

(** [wanted] continuation bytes are still due, the next one within [lo], [hi]. *)
Fixpoint utf8_from (wanted : nat) (lo hi : Z) (bytes : list byte) : bool :=
  match wanted, bytes with
  | O, [] => true
  | S _, [] => false
  | O, b :: bytes =>
      match utf8_first b with
      | Some (n, (lo, hi)) => utf8_from n lo hi bytes
      | None => false
      end
  | S n, b :: bytes => between lo hi b && utf8_from n 128 191 bytes
  end.

Definition utf8_valid (bytes : list byte) : bool := utf8_from 0 128 191 bytes.

(** ** [String::from_utf8_lossy] *)

Definition replacement : list byte := [xef; xbf; xbd].

(** [pending] is the part of a sequence read so far, [wanted] and the bounds as
    above. A sequence that breaks off, and a byte no sequence starts with, is
    replaced; the byte that broke it off is read again. *)
Fixpoint lossy_from (pending : list byte) (wanted : nat) (lo hi : Z) (bytes : list byte) : list byte :=
  match bytes with
  | [] => match wanted with O => [] | S _ => replacement end
  | b :: bytes =>
      let start :=
        match utf8_first b with
        | Some (O, _) => b :: lossy_from [] 0 128 191 bytes
        | Some (n, (lo, hi)) => lossy_from [b] n lo hi bytes
        | None => replacement ++ lossy_from [] 0 128 191 bytes
        end in
      match wanted with
      | O => start
      | S n =>
          if between lo hi b then
            match n with
            | O => pending ++ b :: lossy_from [] 0 128 191 bytes
            | S _ => lossy_from (pending ++ [b]) n 128 191 bytes
            end
          else replacement ++ start
      end
  end.

Definition from_utf8_lossy (bytes : list byte) : list byte := lossy_from [] 0 128 191 bytes.

(** ** The encoding of scalar values *)

(** Unicode scalar values: code points that are not surrogates. *)
Definition scalar (c : Z) : Prop := 0 <= c < 55296 \/ 57344 <= c < 1114112.

Definition Z_byte (z : Z) : byte := default x00 (Byte.of_N (Z.to_N z)).

Definition encode (c : Z) : list byte :=
  if c <? 128 then [Z_byte c]
  else if c <? 2048 then [Z_byte (192 + c / 64); Z_byte (128 + c mod 64)]
  else if c <? 65536 then
    [Z_byte (224 + c / 4096); Z_byte (128 + c / 64 mod 64); Z_byte (128 + c mod 64)]
  else
    [Z_byte (240 + c / 262144); Z_byte (128 + c / 4096 mod 64); Z_byte (128 + c / 64 mod 64);
     Z_byte (128 + c mod 64)].

Definition encodes (cs : list Z) : list byte := cs ≫= encode.

(** ** Lemmas *)

Lemma byte_Z_range b : 0 <= byte_Z b < 256.
Proof. unfold byte_Z. pose proof (Byte.to_N_bounded b). lia. Qed.

Lemma byte_Z_byte z : 0 <= z < 256 -> byte_Z (Z_byte z) = z.
Proof.
  intros Hz. unfold byte_Z, Z_byte. destruct (Byte.of_N (Z.to_N z)) as [b|] eqn:E; simpl.
  - apply Byte.to_of_N in E. rewrite E. lia.
  - apply Byte.of_N_None_iff in E. lia.
Qed.

Lemma Z_byte_Z b : Z_byte (byte_Z b) = b.
Proof. unfold Z_byte, byte_Z. by rewrite N2Z.id, Byte.of_to_N. Qed.

Lemma between_spec lo hi b : between lo hi b = true <-> lo <= byte_Z b <= hi.
Proof. unfold between. rewrite andb_true_iff, !Z.leb_le. done. Qed.

#[local] Ltac div_lia := Z.to_euclidean_division_equations; lia.

(** The first byte by its number. *)
Lemma utf8_first_Z z :
  0 <= z < 256 ->
  utf8_first (Z_byte z) =
    if z <? 128 then Some (0%nat, (128, 191))
    else if z <? 194 then None
    else if z <? 224 then Some (1%nat, (128, 191))
    else if z =? 224 then Some (2%nat, (160, 191))
    else if z =? 237 then Some (2%nat, (128, 159))
    else if z <? 240 then Some (2%nat, (128, 191))
    else if z =? 240 then Some (3%nat, (144, 191))
    else if z <? 244 then Some (3%nat, (128, 191))
    else if z =? 244 then Some (3%nat, (128, 143))
    else None.
Proof. intros Hz. unfold utf8_first. by rewrite byte_Z_byte. Qed.

Lemma utf8_from_0 lo hi bytes : utf8_from 0 lo hi bytes = utf8_valid bytes.
Proof. by destruct bytes. Qed.

Lemma utf8_from_S n lo hi z bytes :
  lo <= z <= hi -> 0 <= z < 256 ->
  utf8_from (S n) lo hi (Z_byte z :: bytes) = utf8_from n 128 191 bytes.
Proof.
  intros Hb Hz. simpl. assert (between lo hi (Z_byte z) = true) as ->; [|done].
  rewrite between_spec, byte_Z_byte; lia.
Qed.

#[local] Ltac utf8_tests :=
  repeat match goal with
  | |- context [?x <? ?y] => destruct (Z.ltb_spec x y); try div_lia
  | |- context [?x =? ?y] => destruct (Z.eqb_spec x y); try div_lia
  end.

Lemma valid_first z n lo hi bytes :
  0 <= z < 256 -> utf8_first (Z_byte z) = Some (n, (lo, hi)) ->
  utf8_valid (Z_byte z :: bytes) = utf8_from n lo hi bytes.
Proof. intros Hz E. unfold utf8_valid. simpl. by rewrite E. Qed.

(** The encoding of a scalar value is accepted, and what follows it is read. *)
Lemma valid_encode c bytes : scalar c -> utf8_valid (encode c ++ bytes) = utf8_valid bytes.
Proof.
  intros Hc. unfold scalar in Hc. unfold encode.
  destruct (Z.ltb_spec c 128); [|destruct (Z.ltb_spec c 2048); [|destruct (Z.ltb_spec c 65536)]];
    cbn [app].
  - rewrite (valid_first _ 0 128 191); [apply utf8_from_0|lia|]. rewrite utf8_first_Z by lia. by utf8_tests.
  - rewrite (valid_first _ 1 128 191); [|div_lia|rewrite utf8_first_Z by div_lia; by utf8_tests].
    rewrite utf8_from_S by div_lia. apply utf8_from_0.
  - assert (exists lo hi, utf8_first (Z_byte (224 + c / 4096)) = Some (2%nat, (lo, hi)) /\
      lo <= 128 + c / 64 mod 64 <= hi) as (lo & hi & E & Hb).
    { rewrite utf8_first_Z by div_lia. utf8_tests; do 2 eexists; (split; [reflexivity|div_lia]). }
    assert (0 <= 224 + c / 4096 < 256) as Hz by div_lia.
    rewrite (valid_first _ _ _ _ _ Hz E), !utf8_from_S by div_lia. apply utf8_from_0.
  - assert (exists lo hi, utf8_first (Z_byte (240 + c / 262144)) = Some (3%nat, (lo, hi)) /\
      lo <= 128 + c / 4096 mod 64 <= hi) as (lo & hi & E & Hb).
    { rewrite utf8_first_Z by div_lia. utf8_tests; do 2 eexists; (split; [reflexivity|div_lia]). }
    assert (0 <= 240 + c / 262144 < 256) as Hz by div_lia.
    rewrite (valid_first _ _ _ _ _ Hz E), !utf8_from_S by div_lia. apply utf8_from_0.
Qed.

(** The bytes due after a first byte. *)
Lemma utf8_from_S_inv n lo hi bytes :
  utf8_from (S n) lo hi bytes = true ->
  exists b rest, bytes = b :: rest /\ lo <= byte_Z b <= hi /\ utf8_from n 128 191 rest = true.
Proof.
  destruct bytes as [|b rest]; [done|]. simpl. intros [Hb%between_spec Hr]%andb_true_iff.
  by exists b, rest.
Qed.

(** A byte by its number. *)
Lemma byte_cases (b : byte) : exists z, b = Z_byte z /\ byte_Z b = z /\ 0 <= z < 256.
Proof. exists (byte_Z b). split_and!; [by rewrite Z_byte_Z|done|apply byte_Z_range..]. Qed.

Lemma utf8_first_inv z n lo hi :
  0 <= z < 256 -> utf8_first (Z_byte z) = Some (n, (lo, hi)) ->
  (n = 0%nat /\ z < 128) \/
  (n = 1%nat /\ 194 <= z < 224 /\ lo = 128 /\ hi = 191) \/
  (n = 2%nat /\ 224 <= z < 240 /\ 128 <= lo /\ hi <= 191 /\
     (z = 224 -> lo = 160) /\ (z = 237 -> hi = 159)) \/
  (n = 3%nat /\ 240 <= z < 245 /\ 128 <= lo /\ hi <= 191 /\
     (z = 240 -> lo = 144) /\ (z = 244 -> hi = 143)).
Proof. intros Hz. rewrite utf8_first_Z by done. utf8_tests; intros [= <- <- <-]; lia. Qed.

(** What is accepted starts with the encoding of a scalar value. *)
Lemma valid_decode b bytes :
  utf8_valid (b :: bytes) = true ->
  exists c rest, b :: bytes = encode c ++ rest /\ scalar c /\ utf8_valid rest = true.
Proof.
  destruct (byte_cases b) as (z & -> & _ & Hz). intros Hv.
  destruct (utf8_first (Z_byte z)) as [[n [lo hi]]|] eqn:E; [|unfold utf8_valid in Hv; simpl in Hv; by rewrite E in Hv].
  rewrite (valid_first _ _ _ _ _ Hz E) in Hv. apply utf8_first_inv in E; [|done].
  destruct E as [[-> Hlt]|[(-> & Hr & -> & ->)|[(-> & Hr & Hlo & Hhi & H1 & H2)|(-> & Hr & Hlo & Hhi & H1 & H2)]]].
  - exists z, bytes. rewrite utf8_from_0 in Hv. unfold encode, scalar.
    destruct (Z.ltb_spec z 128); [|lia]. split_and!; [done|lia|done].
  - apply utf8_from_S_inv in Hv as (b1 & rest & -> & Hb1 & Hv). rewrite utf8_from_0 in Hv.
    destruct (byte_cases b1) as (z1 & -> & E1 & Hz1). rewrite E1 in Hb1.
    exists ((z - 192) * 64 + (z1 - 128)), rest. unfold encode, scalar. utf8_tests.
    split_and!; [|lia|done]. simpl. f_equal; [f_equal; div_lia|]. f_equal. f_equal. div_lia.
  - apply utf8_from_S_inv in Hv as (b1 & rest1 & -> & Hb1 & Hv).
    apply utf8_from_S_inv in Hv as (b2 & rest & -> & Hb2 & Hv). rewrite utf8_from_0 in Hv.
    destruct (byte_cases b1) as (z1 & -> & E1 & Hz1). rewrite E1 in Hb1.
    destruct (byte_cases b2) as (z2 & -> & E2 & Hz2). rewrite E2 in Hb2.
    exists ((z - 224) * 4096 + (z1 - 128) * 64 + (z2 - 128)), rest. unfold encode, scalar. utf8_tests.
    split_and!; [|lia|done]. simpl. f_equal; [f_equal; div_lia|].
    f_equal; [f_equal; div_lia|]. f_equal. f_equal. div_lia.
  - apply utf8_from_S_inv in Hv as (b1 & rest1 & -> & Hb1 & Hv).
    apply utf8_from_S_inv in Hv as (b2 & rest2 & -> & Hb2 & Hv).
    apply utf8_from_S_inv in Hv as (b3 & rest & -> & Hb3 & Hv). rewrite utf8_from_0 in Hv.
    destruct (byte_cases b1) as (z1 & -> & E1 & Hz1). rewrite E1 in Hb1.
    destruct (byte_cases b2) as (z2 & -> & E2 & Hz2). rewrite E2 in Hb2.
    destruct (byte_cases b3) as (z3 & -> & E3 & Hz3). rewrite E3 in Hb3.
    exists ((z - 240) * 262144 + (z1 - 128) * 4096 + (z2 - 128) * 64 + (z3 - 128)), rest.
    unfold encode, scalar. utf8_tests. split_and!; [|lia|done]. simpl. f_equal; [f_equal; div_lia|].
    f_equal; [f_equal; div_lia|]. f_equal; [f_equal; div_lia|]. f_equal. f_equal. div_lia.
Qed.

(** The validation accepts exactly the encodings of sequences of scalar values. *)
Lemma utf8_valid_spec bytes :
  utf8_valid bytes = true <-> exists cs, Forall scalar cs /\ bytes = encodes cs.
Proof.
  split.
  - induction bytes as [bytes IH] using (induction_ltof1 _ length). unfold ltof in IH.
    destruct bytes as [|b bytes]; intros Hv; [by exists []|].
    destruct (valid_decode _ _ Hv) as (c & rest & E & Hc & Hr). rewrite E in *.
    destruct (IH rest) as (cs & Hcs & ->); [|done|].
    { rewrite length_app. unfold encode. repeat case_match; simpl; lia. }
    exists (c :: cs). split; [by constructor|done].
  - intros (cs & Hcs & ->). induction Hcs as [|c cs Hc _ IH]; [done|].
    unfold encodes. simpl. rewrite valid_encode by done. exact IH.
Qed.

(** *** The lossy reading *)

(** Well-formed text is kept. *)
Lemma lossy_keeps n lo hi pending bytes :
  utf8_from n lo hi bytes = true ->
  lossy_from pending n lo hi bytes = match n with O => bytes | S _ => pending ++ bytes end.
Proof.
  revert n lo hi pending. induction bytes as [|b bytes IH]; intros [|n] lo hi pending; simpl; [done|done| |].
  - destruct (utf8_first b) as [[[|n] [lo' hi']]|]; [|intros Hv..|done].
    + rewrite utf8_from_0. intros Hv. by rewrite (IH 0%nat).
    + by rewrite (IH (S n)).
  - intros [-> Hv]%andb_true_iff. destruct n as [|n]; [by rewrite (IH 0%nat)|].
    rewrite (IH (S n)) by done. by rewrite <- app_assoc.
Qed.

(** [pending] is the beginning of a sequence that wants [n] more bytes. *)
Definition begun (pending : list byte) (n : nat) (lo hi : Z) : Prop :=
  forall bytes, utf8_valid (pending ++ bytes) = utf8_from n lo hi bytes.

Lemma begun_first b n lo hi : utf8_first b = Some (n, (lo, hi)) -> begun [b] n lo hi.
Proof. intros E bytes. unfold utf8_valid. simpl. by rewrite E. Qed.

Lemma begun_next pending n lo hi b :
  begun pending (S n) lo hi -> between lo hi b = true -> begun (pending ++ [b]) n 128 191.
Proof. intros Hp Hb bytes. rewrite <- app_assoc, Hp. simpl. by rewrite Hb. Qed.

Lemma valid_replacement bytes : utf8_valid (replacement ++ bytes) = utf8_valid bytes.
Proof. apply (valid_encode 65533). unfold scalar. lia. Qed.

Lemma lossy_valid_from pending n lo hi bytes :
  (n <> 0%nat -> begun pending n lo hi) -> utf8_valid (lossy_from pending n lo hi bytes) = true.
Proof.
  revert pending n lo hi. induction bytes as [|b bytes IH]; intros pending n lo hi Hp; [by destruct n|].
  assert (utf8_valid (match utf8_first b with
    | Some (O, _) => b :: lossy_from [] 0 128 191 bytes
    | Some (n, (lo, hi)) => lossy_from [b] n lo hi bytes
    | None => replacement ++ lossy_from [] 0 128 191 bytes
    end) = true) as Hstart.
  { destruct (utf8_first b) as [[[|m] [lo' hi']]|] eqn:E.
    - apply begun_first in E. change (utf8_valid ([b] ++ lossy_from [] 0 128 191 bytes) = true).
      rewrite E, utf8_from_0. by apply IH.
    - apply IH. intros _. by apply begun_first.
    - rewrite valid_replacement. by apply IH. }
  cbn [lossy_from]. destruct n as [|n]; [done|].
  destruct (between lo hi b) eqn:Hb; [|by rewrite valid_replacement].
  pose proof (begun_next _ _ _ _ _ (Hp ltac:(done)) Hb) as Hn.
  destruct n as [|n]; [|by apply IH]. specialize (Hn (lossy_from [] 0 128 191 bytes)).
  rewrite <- app_assoc in Hn. simpl in Hn. rewrite Hn, utf8_from_0. by apply IH.
Qed.

(** What [from_utf8_lossy] gives is well-formed, and is the bytes themselves
    when they were. *)
Lemma lossy_valid bytes : utf8_valid (from_utf8_lossy bytes) = true.
Proof. by apply lossy_valid_from. Qed.

Lemma lossy_id bytes : utf8_valid bytes = true -> from_utf8_lossy bytes = bytes.
Proof. apply (lossy_keeps 0%nat). Qed.

(** The replacements std documents: each broken sequence becomes one U+FFFD. *)
Example lossy_documented :
  from_utf8_lossy ([x48; x65; x6c; x6c; x6f; x20] ++ [xf0; x90; x80] ++ [x57; x6f; x72; x6c; x64]) =
  [x48; x65; x6c; x6c; x6f; x20] ++ replacement ++ [x57; x6f; x72; x6c; x64].
Proof. reflexivity. Qed.
