(* ===== verification/Examples.v ===== *)
(** * The example programs (src/examples/)

    The six programs that show the crate at work, as programs over the library
    of src/src: the task of each for both platforms ([windows] is
    [cfg(target_os = "windows")]), the closure it runs the task with, and its
    [main]. A [println!] is one step, which panics when standard output fails;
    a [Vec<u8>] that a closure borrows is a local buffer of the thread. *)

From Stdlib Require Import ZArith Strings.Byte Strings.String.
From stdpp Require Import base numbers list strings gmap pretty.
From S2P Require Import Prelude Core Sys Prog Os Task Run Utf8.

Open Scope Z_scope.

(** ** What they use of std *)

Definition newline : string := String (Ascii.ascii_of_nat 10) EmptyString.

Definition print (s : string) : prog (outcome unit) := do_act (Print s).
Definition println (s : string) : prog (outcome unit) := print (s +:+ newline).

(** Code that may unwind. *)
Definition obind {A B} (p : prog (outcome A)) (f : A -> prog (outcome B)) : prog (outcome B) :=
  let! r := p in
  match r with
  | Val a => f a
  | Panic q => Ret (Panic q)
  end.

Notation "'let?' x := p 'in' q" := (obind p (fun x => q))
  (at level 10, x pattern, p at level 100, q at level 200) : aer_scope.
Notation "p ;;? q" := (obind p (fun _ => q))
  (at level 100, q at level 200, right associativity) : aer_scope.

(** [{n}] of an integer, and of a [usize]. *)
Definition len (bytes : list byte) : string := pretty (Z.of_nat (length bytes)).

(** [{:?}] of a [Result<(), AerError>]. *)
Definition debug_result (io_debug : io_Error -> string) (r : Result unit AerError.t) : string :=
  match r with
  | Ok _ => "Ok(())"
  | Err e => "Err(" +:+ AerError.debug io_debug e +:+ ")"
  end.

Definition started_line (pid : Z) : string := "  → Started  (pid " +:+ pretty pid +:+ ")".
Definition exited_line (code : Z) : string := "  → Exited   (code " +:+ pretty code +:+ ")".
Definition exited_reason_line (code : Z) (reason : ExitReason.t) : string :=
  "  → Exited   (code " +:+ pretty code +:+ ", reason " +:+ ExitReason.debug reason +:+ ")".

Section Examples.
Context `{P : OsProcess}.
Context (windows : bool) (io_debug : io_Error -> string).

(** ** hello.rs *)

Definition hello_task : Task :=
  if windows then Task_new "cmd" ["/c"; "echo Hello from AER!"]
  else Task_new "sh" ["-c"; "echo Hello from AER!"].

Definition hello_event (event : Event.t) : prog (outcome unit) :=
  match event with
  | Event.Started pid => println (started_line pid)
  | Event.Exited code _ => println (exited_line code +:+ newline)
  | _ => Ret (Val tt)
  end.

Definition hello_main : prog (outcome (Result unit AerError.t)) :=
  println ("Spawning task..." +:+ newline) ;;?
  let? r := Run.run hello_task hello_event in
  match r with
  | Err e => Ret (Val (Err e))
  | Ok _ => println "Done." ;;? Ret (Val (Ok tt))
  end.

(** ** tree.rs *)

Definition tree_task : Task :=
  if windows then
    Task_new "powershell"
      ["-NoProfile"; "-Command";
       "Start-Process -NoNewWindow -FilePath ping " +:+
       "-ArgumentList @('-n','60','127.0.0.1'); " +:+
       "Write-Host 'root exiting'"]
  else Task_new "sh" ["-c"; "sleep 60 & echo 'root exiting'"].

Definition tree_event (event : Event.t) : prog (outcome unit) :=
  match event with
  | Event.Started pid => println (started_line pid)
  | Event.Exited code _ => println (exited_line code)
  | _ => Ret (Val tt)
  end.

Definition no_orphans : string :=
  newline +:+ "Done. Background child is gone — no orphans.".

Definition tree_main : prog (outcome unit) :=
  println ("Spawning a process that forks a long-lived background child..." +:+ newline) ;;?
  println "The root exits immediately; without AER the child would be an orphan." ;;?
  println ("AER guarantees the entire process tree is dead when run() returns." +:+ newline) ;;?
  let? r := Run.run tree_task tree_event in
  match r with
  | Err e => Ret (Panic (PString ("task failed: " +:+ AerError.debug io_debug e)))
  | Ok _ => println no_orphans
  end.

(** ** timeout.rs *)

Definition slow_task : Task :=
  with_timeout (from_secs 2)
    (if windows then Task_new "ping" ["-n"; "61"; "127.0.0.1"]
     else Task_new "sh" ["-c"; "sleep 60"]).

Definition fast_task : Task :=
  with_timeout (from_secs 30)
    (if windows then Task_new "cmd" ["/c"; "echo Hello from AER!"]
     else Task_new "sh" ["-c"; "echo Hello from AER!"]).

Definition timeout_event (event : Event.t) : prog (outcome unit) :=
  match event with
  | Event.Started pid => println (started_line pid)
  | Event.Exited code _ => println (exited_line code)
  | _ => Ret (Val tt)
  end.

Definition slow_verdict (r : Result unit AerError.t) : string :=
  match r with
  | Err AerError.TimedOut => "  → TimedOut" +:+ newline
  | other => "  unexpected result: " +:+ debug_result io_debug other +:+ newline
  end.

Definition fast_verdict (r : Result unit AerError.t) : string :=
  match r with
  | Ok _ => "  → Completed normally"
  | other => "  unexpected result: " +:+ debug_result io_debug other
  end.

Definition timeout_main : prog (outcome unit) :=
  println ("=== Process outlives timeout (2 s) ===" +:+ newline) ;;?
  let? r := Run.run slow_task timeout_event in
  println (slow_verdict r) ;;?
  println ("=== Process exits before timeout (30 s) ===" +:+ newline) ;;?
  let? r := Run.run fast_task timeout_event in
  println (fast_verdict r).

(** ** cancel.rs *)

Definition cancel_task : Task :=
  if windows then Task_new "ping" ["-n"; "61"; "127.0.0.1"]
  else Task_new "sh" ["-c"; "sleep 60"].

Definition cancel_event (event : Event.t) : prog (outcome unit) :=
  match event with
  | Event.Started pid => println (started_line pid)
  | Event.Exited code reason => println (exited_reason_line code reason)
  | _ => Ret (Val tt)
  end.

(** The thread; [returned] is the cell in which std leaves a thread's result
    for [join], true when the closure returned. *)
Definition canceller (cancel_for_thread : CancelHandle) (returned : loc) : prog unit :=
  do_act (Sleep (from_secs 1)) ;;;
  let! r := println "  [canceller] sending cancel..." in
  match r with
  | Panic _ => Ret tt
  | Val _ => cancel cancel_for_thread ;;; do_act (Store returned true)
  end.

Definition cancel_verdict (r : Result unit AerError.t) : string :=
  match r with
  | Err AerError.Cancelled => newline +:+ "run_with_cancel returned Err(Cancelled) — as expected."
  | other => newline +:+ "unexpected result: " +:+ debug_result io_debug other
  end.

Definition cancel_main : prog (outcome unit) :=
  let! cancel := CancelHandle_new in
  let! returned := do_act (NewFlag false) in
  let? cancel_thread := thread_spawn (canceller cancel returned) (Ret tt) in
  println ("Spawning long-running process (will be cancelled in ~1 s)..." +:+ newline) ;;?
  let? result := run_with_cancel cancel_task cancel_event cancel in
  do_act (Join cancel_thread) ;;;
  let! ok := do_act (Load returned) in
  if ok : bool then println (cancel_verdict result)
  else Ret (Panic (PString "called `Result::unwrap()` on an `Err` value: Any { .. }")).

(** ** capture.rs *)

Definition capture_task : Task :=
  with_capture_output true
    (if windows then
       Task_new "cmd"
         ["/c";
          "(echo stdout line 1) & " +:+ "(echo stderr line 1 1>&2) & " +:+
          "(echo stdout line 2) & " +:+ "(echo stderr line 2 1>&2) & " +:+
          "(echo stdout line 3)"]
     else
       Task_new "sh"
         ["-c";
          "echo 'stdout line 1'; " +:+ "echo 'stderr line 1' >&2; " +:+
          "echo 'stdout line 2'; " +:+ "echo 'stderr line 2' >&2; " +:+
          "echo 'stdout line 3'"]).

Definition chunk_line (stream : string) (seq : Z) (bytes : list byte) : string :=
  "  → " +:+ stream +:+ "  seq=" +:+ pretty seq +:+ " len=" +:+ len bytes.

Definition capture_event (stdout_buf stderr_buf : loc) (event : Event.t) : prog (outcome unit) :=
  match event with
  | Event.Started pid => println (started_line pid)
  | Event.StdoutChunk seq bytes =>
      println (chunk_line "StdoutChunk" seq bytes) ;;?
      let! _ := do_act (Extend stdout_buf bytes) in Ret (Val tt)
  | Event.StderrChunk seq bytes =>
      println (chunk_line "StderrChunk" seq bytes) ;;?
      let! _ := do_act (Extend stderr_buf bytes) in Ret (Val tt)
  | Event.Exited code reason => println (exited_reason_line code reason)
  end.

Definition print_lossy (buf : loc) : prog (outcome unit) :=
  let! bytes := do_act (Contents buf) in
  print (string_of_list_byte (from_utf8_lossy bytes)).

(** The report on a buffer. *)
Definition capture_report (stream : string) (buf : loc) : prog (outcome unit) :=
  let! bytes := do_act (Contents buf) in
  println (newline +:+ "--- " +:+ stream +:+ " (" +:+ len bytes +:+ " bytes) ---") ;;?
  print_lossy buf.

Definition capture_main : prog (outcome (Result unit AerError.t)) :=
  println ("Spawning with capture enabled..." +:+ newline) ;;?
  let! stdout_buf := do_act NewVec in
  let! stderr_buf := do_act NewVec in
  let? r := Run.run capture_task (capture_event stdout_buf stderr_buf) in
  match r with
  | Err e => Ret (Val (Err e))
  | Ok _ =>
      capture_report "stdout" stdout_buf ;;?
      capture_report "stderr" stderr_buf ;;?
      println (newline +:+ "Done.") ;;?
      Ret (Val (Ok tt))
  end.

(** ** env.rs; [temp_dir] is what [env::temp_dir] answers *)

Definition env_task (temp_dir : string) : Task :=
  with_capture_output true
    (with_cwd temp_dir
       (with_env "AER_EXAMPLE_VAR" "hello_from_aer"
          (if windows then Task_new "cmd" ["/c"; "echo %AER_EXAMPLE_VAR% & cd"]
           else Task_new "sh" ["-c"; "echo $AER_EXAMPLE_VAR; pwd"]))).

Definition env_event (stdout_buf : loc) (event : Event.t) : prog (outcome unit) :=
  match event with
  | Event.Started pid => println (started_line pid)
  | Event.StdoutChunk _ bytes => let! _ := do_act (Extend stdout_buf bytes) in Ret (Val tt)
  | Event.Exited code _ => println (exited_line code)
  | _ => Ret (Val tt)
  end.

Definition env_main (temp_dir : string) : prog (outcome (Result unit AerError.t)) :=
  println ("Spawning with AER_EXAMPLE_VAR=hello_from_aer, cwd=" +:+ temp_dir +:+ newline) ;;?
  let! stdout_buf := do_act NewVec in
  let? r := Run.run (env_task temp_dir) (env_event stdout_buf) in
  match r with
  | Err e => Ret (Val (Err e))
  | Ok _ =>
      println (newline +:+ "--- what the child saw ---") ;;?
      print_lossy stdout_buf ;;?
      println (newline +:+ "Done.") ;;?
      Ret (Val (Ok tt))
  end.
End Examples.

(** What a thread printed. *)
Definition obs_print (o : obs) : option string :=
  match o with
  | Obs e _ =>
      match e with
      | Print s => Some s
      | _ => None
      end
  | ObsFork _ _ => None
  end.

Definition printed (tr : list obs) : list string := omap obs_print tr.
