(* ===== verification/Shown.v ===== *)
(** * What the example programs show (src/examples/)

    The lines the programs of Examples.v print, from what their runs did: the
    library's theorems, carried over to the closures by Closure.v, down to the
    text on standard output. *)

From Stdlib Require Import ZArith Strings.Byte Strings.String.
From stdpp Require Import base numbers list strings gmap pretty.
From S2P Require Import Prelude Core Machine Sys Prog Os Unix Task Config Run Lifecycle Closure Exit Utf8 Examples.

Open Scope Z_scope.

(** ** Executions of code that may unwind *)

Lemma obind_Val {A B} (p : prog (outcome A)) (f : A -> prog (outcome B)) tr b :
  exec (obind p f) tr (Some (Val b)) ->
  exists a tr1 tr2, tr = tr1 ++ tr2 /\ exec p tr1 (Some (Val a)) /\ exec (f a) tr2 (Some (Val b)).
Proof.
  intros (r & tr1 & tr2 & -> & H1 & H2)%exec_bind_Some.
  destruct r as [a|q]; [by exists a, tr1, tr2|by exec_inv_step H2].
Qed.

(** What [println!] prints. *)
Definition line (s : string) : string := s +:+ newline.

(** A text that was printed. *)
Definition shown (s : string) : obs := Obs (Print s) (Val tt).

Lemma print_Val s tr u : exec (print s) tr (Some (Val u)) -> tr = [shown s].
Proof. destruct u. intros ->%exec_do_act_Some. done. Qed.

Lemma print_then {B} s (q : prog (outcome B)) tr b :
  exec (print s ;;? q) tr (Some (Val b)) ->
  exists tr', tr = shown s :: tr' /\ exec q tr' (Some (Val b)).
Proof. intros (u & tr1 & tr2 & -> & ->%print_Val & H)%obind_Val. by exists tr2. Qed.

Lemma printed_app tr tr' : printed (tr ++ tr') = printed tr ++ printed tr'.
Proof. apply omap_app. Qed.

Section Shown.
Context `{P : OsProcess} {L : OsProcessLaws P}.

(** ** A run with a closure that prints *)

(** A complete call of the closure prints [lines]. *)
Definition prints (on_event : Event.t -> prog (outcome unit)) (lines : Event.t -> list string) : Prop :=
  forall ev call u, exec (on_event ev) call (Some (Val u)) -> printed call = lines ev.

Lemma run_unprinted task ch tr r o :
  exec (run_impl task rust_callback ch) tr r -> o ∈ tr -> obs_print o = None.
Proof using L.
  intros Hex Ho. pose proof (proj1 (Forall_forall _ _) (crate_run task ch _ _ Hex) o Ho) as Hc.
  destruct o as [X e x|]; [|done]. by destruct e.
Qed.

Lemma expanded_prints on_event lines task ch tr0 tr r :
  prints on_event lines -> exec (run_impl task rust_callback ch) tr0 (Some (Val r)) ->
  expands on_event tr0 tr -> printed tr = events tr0 ≫= lines.
Proof using L.
  intros Hl Hq He. eapply expands_omap; [exact Hl| |by eapply run_no_panic|done].
  intros o Ho _. by eapply run_unprinted.
Qed.

Lemma closure_prints on_event lines task ch tr r :
  prints on_event lines ->
  exec (run_impl task on_event ch) tr (Some (Val r)) ->
  exists tr0, exec (run_impl task rust_callback ch) tr0 (Some (Val r)) /\
    expands on_event tr0 tr /\ printed tr = events tr0 ≫= lines.
Proof using L.
  intros Hl Hex. destruct (closure_run _ _ _ _ _ Hex) as (tr0 & Hq & He). exists tr0.
  split_and!; [done|done|]. by eapply expanded_prints.
Qed.

(** ** hello.rs *)

Definition hello_lines (ev : Event.t) : list string :=
  match ev with
  | Event.Started pid => [line (started_line pid)]
  | Event.Exited code _ => [line (exited_line code +:+ newline)]
  | _ => []
  end.

Lemma hello_prints : prints hello_event hello_lines.
Proof.
  intros [] call u Hex; simpl in Hex; first [by apply print_Val in Hex as -> | by exec_inv_step Hex].
Qed.

(** When hello.rs succeeds it has printed four lines: its banner, the start and
    the exit of the child, and that it is done. *)
Theorem hello_shows windows tr :
  exec (hello_main windows) tr (Some (Val (Ok tt))) ->
  exists pid code, printed tr =
    [line ("Spawning task..." +:+ newline); line (started_line pid);
     line (exited_line code +:+ newline); line "Done."].
Proof using L.
  intros (tr1 & -> & H)%print_then. apply obind_Val in H as (r & tr2 & tr3 & -> & H2 & H3).
  destruct r as [[]|e]; [|by exec_inv_step H3].
  apply print_then in H3 as (tr4 & -> & H4). exec_inv_step H4.
  destruct (closure_prints _ _ _ _ _ _ hello_prints H2) as (tr0 & Hex & He & Hp).
  destruct (run_ok_events _ _ _ Hex) as (pid & chunks & code & E & _ & Hc).
  rewrite Hc in E by (by destruct windows). exists pid, code.
  change (line ("Spawning task..." +:+ newline) :: printed (tr2 ++ [shown (line "Done.")]) =
    [line ("Spawning task..." +:+ newline); line (started_line pid);
     line (exited_line code +:+ newline); line "Done."]).
  rewrite printed_app, Hp, E. done.
Qed.

(** ** cancel.rs *)

Definition cancel_lines (ev : Event.t) : list string :=
  match ev with
  | Event.Started pid => [line (started_line pid)]
  | Event.Exited code reason => [line (exited_reason_line code reason)]
  | _ => []
  end.

Lemma cancel_prints : prints cancel_event cancel_lines.
Proof.
  intros [] call u Hex; simpl in Hex; first [by apply print_Val in Hex as -> | by exec_inv_step Hex].
Qed.

(** When the main thread of cancel.rs ends, it has printed its banner, the
    events of the run, and a verdict on the result of the run, which the events
    shown bear out. *)
Theorem cancel_shows windows io_debug tr :
  exec (cancel_main windows io_debug) tr (Some (Val tt)) ->
  exists evs result, printed tr =
    line ("Spawning long-running process (will be cancelled in ~1 s)..." +:+ newline) ::
    (evs ≫= cancel_lines) ++ [line (cancel_verdict io_debug result)] /\
    result_shown result evs.
Proof using L.
  unfold cancel_main, CancelHandle_new.
  intros (cancel & tr0 & tr' & -> & Hn & H)%exec_bind_Some. repeat exec_inv_step Hn. exec_inv_step H.
  apply obind_Val in H as (t & tr1 & tr2 & -> & H1 & H). apply print_then in H as (tr3 & -> & H).
  apply obind_Val in H as (result & tr4 & tr5 & -> & H4 & H). do 2 (exec_inv_step H).
  destruct x4; [|by exec_inv_step H]. apply print_Val in H as ->.
  destruct (closure_prints _ _ _ _ _ _ cancel_prints H4) as (tr0 & Hex & He & Hp).
  exists (events tr0), result. split.
  - assert (printed tr1 = []) as E1.
    { apply exec_fork_Some in H1 as ([w|] & tr6 & -> & H1); simpl in H1; repeat exec_inv_step H1; done. }
    simpl. rewrite printed_app, E1. simpl. by rewrite printed_app, Hp.
  - eapply run_result_shown, Hex. by destruct windows.
Qed.
(** ** timeout.rs *)

Definition timeout_lines (ev : Event.t) : list string :=
  match ev with
  | Event.Started pid => [line (started_line pid)]
  | Event.Exited code _ => [line (exited_line code)]
  | _ => []
  end.

Lemma timeout_prints : prints timeout_event timeout_lines.
Proof.
  intros [] call u Hex; simpl in Hex; first [by apply print_Val in Hex as -> | by exec_inv_step Hex].
Qed.

(** What any other result than the expected one is reported with. *)
Definition unexpected (verdict : string) : Prop := String.prefix "  unexpected result: " verdict = true.

Lemma slow_verdict_told io_debug r evs :
  result_shown r evs ->
  (slow_verdict io_debug r = "  → TimedOut" +:+ newline <->
     exists pid, evs = [Event.Started pid; Event.Exited (-1) ExitReason.TimedOut]) /\
  (slow_verdict io_debug r = "  → TimedOut" +:+ newline \/ unexpected (slow_verdict io_debug r)).
Proof.
  intros Hr. destruct r as [[]|[]]; simpl in Hr;
    repeat (match goal with H : exists _, _ |- _ => destruct H end); subst;
    (split; [split|]); try done; try (by intros (? & [=])); try (by eauto); by right.
Qed.

Lemma fast_verdict_told io_debug r evs :
  result_shown r evs ->
  (fast_verdict io_debug r = "  → Completed normally" <->
     exists pid code, evs = [Event.Started pid; Event.Exited code ExitReason.NaturalExit]) /\
  (fast_verdict io_debug r = "  → Completed normally" \/ unexpected (fast_verdict io_debug r)).
Proof.
  intros Hr. destruct r as [[]|[]]; simpl in Hr;
    repeat (match goal with H : exists _, _ |- _ => destruct H end); subst;
    (split; [split|]); try done; try (by intros (? & ? & [=])); try (by eauto); by right.
Qed.

(** C22: When timeout.rs ends, it has printed for each of its two runs a header,
    the events of the run, and a verdict that these events bear out: the first
    is "TimedOut" exactly when the run has ended with the event of a timeout,
    the second is "Completed normally" exactly when it has ended with a natural
    exit, and any other verdict says "unexpected result". *)
Theorem timeout_shows windows io_debug tr :
  exec (timeout_main windows io_debug) tr (Some (Val tt)) ->
  exists tr1 r1 verdict1 tr2 r2 verdict2,
    exec (Run.run (slow_task windows) rust_callback) tr1 (Some (Val r1)) /\
    exec (Run.run (fast_task windows) rust_callback) tr2 (Some (Val r2)) /\
    printed tr =
      line ("=== Process outlives timeout (2 s) ===" +:+ newline) ::
      (events tr1 ≫= timeout_lines) ++ line verdict1 ::
      line ("=== Process exits before timeout (30 s) ===" +:+ newline) ::
      (events tr2 ≫= timeout_lines) ++ [line verdict2] /\
    ((verdict1 = "  → TimedOut" +:+ newline <->
        exists pid, events tr1 = [Event.Started pid; Event.Exited (-1) ExitReason.TimedOut]) /\
     (verdict1 = "  → TimedOut" +:+ newline \/ unexpected verdict1)) /\
    ((verdict2 = "  → Completed normally" <->
        exists pid code, events tr2 = [Event.Started pid; Event.Exited code ExitReason.NaturalExit]) /\
     (verdict2 = "  → Completed normally" \/ unexpected verdict2)).
Proof using L.
  intros (tr1 & -> & H)%print_then. apply obind_Val in H as (r1 & t1 & tr2 & -> & H1 & H).
  apply print_then in H as (tr3 & -> & H). apply print_then in H as (tr4 & -> & H).
  apply obind_Val in H as (r2 & t2 & tr5 & -> & H2 & H). apply print_Val in H as ->.
  destruct (closure_prints _ _ _ _ _ _ timeout_prints H1) as (e1 & Hx1 & _ & Hp1).
  destruct (closure_prints _ _ _ _ _ _ timeout_prints H2) as (e2 & Hx2 & _ & Hp2).
  exists e1, r1, (slow_verdict io_debug r1), e2, r2, (fast_verdict io_debug r2).
  split; [done|]. split; [done|]. split; [|split].
  - simpl. rewrite printed_app, Hp1. simpl. by rewrite printed_app, Hp2.
  - apply slow_verdict_told. eapply run_result_shown, Hx1. by destruct windows.
  - apply fast_verdict_told. eapply run_result_shown, Hx2. by destruct windows.
Qed.
End Shown.

(** ** tree.rs, on Unix *)

Definition tree_lines (ev : Event.t) : list string :=
  match ev with
  | Event.Started pid => [line (started_line pid)]
  | Event.Exited code _ => [line (exited_line code)]
  | _ => []
  end.

Lemma tree_prints : prints tree_event tree_lines.
Proof.
  intros [] call u Hex; simpl in Hex; first [by apply print_Val in Hex as -> | by exec_inv_step Hex].
Qed.

(** C16: On Unix, when tree.rs says that nothing of the tree is left, the process
    whose start it has shown has been waited for, and SIGKILL has been sent to
    its whole group. *)
Theorem tree_kills io_debug tr :
  exec (tree_main false io_debug) tr (Some (Val tt)) ->
  exists pid tr1 wait_res kill_res tr2,
    tr = tr1 ++ Obs (ChildWait pid) wait_res :: Obs (Killpg (as_i32 pid) SIGKILL) kill_res :: tr2 ++
      [shown (line no_orphans)] /\
    line (started_line pid) ∈ printed tr.
Proof.
  intros (tr1 & -> & (tr2 & -> & (tr3 & -> & H)%print_then)%print_then)%print_then.
  apply obind_Val in H as (r & tr4 & tr5 & -> & H4 & H).
  destruct r as [[]|e]; [|by exec_inv_step H]. apply print_Val in H as ->.
  destruct (closure_prints _ _ _ _ _ _ tree_prints H4) as (tr0 & Hex & He & Hp).
  destruct (run_ok_events _ _ _ Hex) as (p & chunks & code & Eev & _).
  destruct (killed_before_exited (tree_task false) _ _ _ code ExitReason.NaturalExit eq_refl Hex) as
    (pid & t1 & wr & kr & t2 & cb & t3 & E0 & evs & Est).
  { rewrite Eev. right. apply elem_of_app. right. by left. }
  rewrite E0 in He. change (expands tree_event (t1 ++ [Obs (ChildWait pid) wr; Obs (Killpg (as_i32 pid) SIGKILL) kr] ++
    t2 ++ Obs (Callback (Event.Exited code ExitReason.NaturalExit)) cb :: t3) tr4) in He.
  apply expands_app_inv in He as (s1 & s2 & -> & _ & He).
  apply expands_app_inv in He as (s3 & s4 & -> & He & _).
  apply expands_quiet_inv in He as ->; [|by repeat constructor].
  eexists pid, (_ :: _ :: _ :: s1), wr, kr, s4. split.
  - simpl. rewrite <- app_assoc. reflexivity.
  - assert (line (started_line pid) ∈ printed (s1 ++ [Obs (ChildWait pid) wr;
      Obs (Killpg (as_i32 pid) SIGKILL) kr] ++ s4)) as Hin by (rewrite Hp, Est; by left).
    apply list_elem_of_omap in Hin as (o & Ho & E). apply list_elem_of_omap. exists o. split; [|done].
    do 3 right. apply elem_of_app. by left.
Qed.
