(* ===== verification/Console.v ===== *)
(** * What reaches the console from the child (src/examples/capture.rs, env.rs)

    The two examples that capture output, over every interleaving of their
    main thread with the threads of the run: from the bytes read off the
    child's pipes, through the closure and its local buffers, to the text that
    is printed. *)

From Stdlib Require Import ZArith Strings.Byte Strings.String.
From stdpp Require Import base numbers list strings gmap pretty relations.
From S2P Require Import Prelude Core Sys Prog Os Unix Drains Task Run Caller Blocks Lifecycle Closure Pool Threads History Capture Delivery Captured Config Utf8 Examples Shown.

Open Scope Z_scope.

(** What was read of a stream. *)
Definition read_of {W R} (c : config W R) (s : Stream) : list byte := concat (chunks_of c s).

Section Console.
Context `{P : OsProcess} {L : OsProcessLaws P} {D : OsDrains P}.
Context {W : Type}.
Variable external : tid -> forall X, act X -> W -> X -> W -> Prop.
Hypothesis Hpiped : piped_children external.
#[local] Abbreviation reachable := (reachable external).
#[local] Abbreviation on_obs := (on_obs rust_caller).

(** ** A capturing run within a program *)

Section Within.
Context (on_event : Event.t -> prog (outcome unit)).
Context (Haside : forall ev, all_obs aside_obs (on_event ev)).

Lemma expands_calm E tr tr' :
  Forall (on_obs E) tr -> expands on_event tr tr' -> Forall calm_obs tr'.
Proof using Haside.
  apply expands_Forall; [|intros ev; eapply all_obs_impl; [|apply Haside]; apply aside_calm].
  intros o Ho _. by eapply on_calm.
Qed.

Lemma expands_pump lc tr tr' :
  Forall (pump_obs lc) tr -> expands on_event tr tr' -> Forall (pump_obs lc) tr'.
Proof using Haside.
  apply expands_Forall; [done|]. intros ev. eapply all_obs_impl; [|apply Haside].
  intros o Ho. destruct o as [X e x|]; [|done]. by destruct e.
Qed.

Lemma expands_later lc tr tr' :
  Forall (later_obs lc) tr -> expands on_event tr tr' -> Forall (later_obs lc) tr'.
Proof using Haside.
  apply expands_Forall; [done|]. intros ev. eapply all_obs_impl; [|apply Haside].
  intros o Ho. left. by apply aside_calm.
Qed.

Lemma expands_received l s tr tr' :
  expands on_event tr tr' -> omap (recv_on l s) tr' = omap (recv_on l s) tr.
Proof using Haside.
  apply expands_omap_same; [|done]. intros ev. eapply all_obs_impl; [|apply Haside].
  intros o Ho. unfold recv_on. rewrite idle_no_recv; [done|left; by apply aside_calm|done].
Qed.

(** The chunk events of a run are those of its delivery loop. *)
Definition chunk_only (ev : Event.t) : option Event.t := if Event.is_chunk ev then Some ev else None.

Lemma chunk_only_all evs :
  Forall (fun ev => Event.is_chunk ev = true) evs -> omap chunk_only evs = evs.
Proof.
  induction 1 as [|ev evs Hev _ IH]; [done|]. rewrite omap_cons, IH. unfold chunk_only. by rewrite Hev.
Qed.

Lemma chunk_only_none (E : Event.t -> Prop) tr :
  (forall ev, E ev -> Event.is_chunk ev = false) -> Forall (on_obs E) tr ->
  omap chunk_only (events tr) = [].
Proof.
  intros HE Htr. apply omap_none. intros ev Hev. pose proof (on_events _ _ _ Htr Hev) as Hc.
  unfold chunk_only. by rewrite HE.
Qed.

Lemma received_chunks trp :
  Forall (fun ev => Event.is_chunk ev = true) (chunk_event <$> received trp).
Proof. apply Forall_forall. intros ev ([] & -> & _)%list_elem_of_fmap; done. Qed.

(** The main thread has completed a run of [task] with the closure, between
    steps that leave the output alone: the closure was given the start, every
    chunk read from the pipes, and the exit. *)
Lemma run_within {R} (c c' : config W R) task ch pre trr post :
  capture_output task = true -> Forall (all_obs aside_obs) (others c) ->
  log (state c) = [] -> reachable c c' ->
  own 0%nat (log (state c')) = pre ++ trr ++ post -> Forall calm_obs pre -> Forall calm_obs post ->
  exec (run_impl task on_event ch) trr (Some (Val (Ok tt))) ->
  exists tr0 pid msgs code,
    exec (run_impl task rust_callback ch) tr0 (Some (Val (Ok tt))) /\ expands on_event tr0 trr /\
    events tr0 = Event.Started pid :: (chunk_event <$> msgs) ++ [Event.Exited code ExitReason.NaturalExit] /\
    forall s, omap (on_stream s) msgs = numbered (make_msg s) 0 (chunks_of c' s) /\ drained c' s.
Proof using Haside Hpiped L D.
  intros Hcap Hrest Hl Hr Eown Hpre Hpost Hx.
  destruct (closure_run _ _ _ _ _ Hx) as (tr0 & Hex & He).
  destruct (run_ok_events _ _ _ Hex) as (pid & chunks & code & Eev & Hch & _).
  destruct (run_exited_stage task ch tr0 _ code ExitReason.NaturalExit Hcap Hex) as (handle & cmd & lc & lw & w &
    trs & tr1 & trp & trt & tr3 & os_code & E & Hs & Hc & Ho & Hee & H1 & Hp & Ht & Hrecv & H3 & Hin3).
  { rewrite Eev. right. apply elem_of_app. right. by left. }
  exists tr0, pid, (received trp), code.
  destruct (later_steps _ _ _ _ _ _ Hp Ht H3) as (Hpump & Hlater & _).
  destruct (pump_exec _ _ _ Hp) as [_ Hrc]. destruct (Hrc tt eq_refl) as [Epump _].
  unfold received in Epump. rewrite events_app, omap_app, fmap_app in Epump. simpl in Epump.
  rewrite !app_nil_r in Epump. fold (received trp) in Epump. apply Forall_app in Hpump as [Hpump _].
  assert (chunks = chunk_event <$> received trp) as ->.
  { rewrite <- (chunk_only_all chunks Hch), <- (chunk_only_all _ (received_chunks trp)).
    transitivity (omap chunk_only (events tr0)).
    { rewrite Eev. simpl. by rewrite omap_app, app_nil_r. }
    rewrite E. rewrite !events_app, !omap_app.
    rewrite (chunk_only_none is_started tr1) by first [done | by intros []].
    change (events (ObsFork ?b ?w :: ?l)) with (events l). rewrite !events_app, !omap_app.
    rewrite (chunk_only_none (exit_of os_code) tr3) by first [done | by intros ? (? & ? & ->)].
    assert (events trt = []) as ->.
    { apply omap_none. intros o Hin. eapply Forall_forall in Ht; [|done]. by apply tail_event. }
    simpl. by rewrite !app_nil_r, Epump. }
  split_and!; [done|done|done|]. intros s.
  rewrite E in He. apply expands_app_inv in He as (t1 & t' & -> & He1 & He).
  apply expands_app_inv in He as (t2 & t'' & -> & He2 & He). apply expands_quiet_inv in He2 as ->; [|by repeat constructor].
  change (expands on_event ([ObsFork (wait_body handle (mkOutputSinks (Some lc) (Some lc)) lw) (Some w)] ++
    (trp ++ [Obs (Recv lc) None]) ++ trt ++ tr3) t'') in He.
  apply expands_app_inv in He as (t2 & t3 & -> & He2 & He). apply expands_quiet_inv in He2 as ->; [|by repeat constructor].
  rewrite <- app_assoc in He.
  apply expands_app_inv in He as (tp & t4 & -> & Hep & He).
  apply expands_app_inv in He as (t2 & t5 & -> & He2 & He). apply expands_quiet_inv in He2 as ->; [|by repeat constructor].
  destruct (spawned_pipes external Hpiped c c' cmd (child handle) Hl Hr) as [Hout Herr]; [|done|done|].
  { apply elem_of_own. rewrite Eown. apply elem_of_app. right. apply elem_of_app. left. apply elem_of_app. left.
    exact (expands_elem _ _ _ _ He1 Hc eq_refl). }
  assert (own 0%nat (log (state c')) = (pre ++ t1) ++ setup lc lw ++
    ObsFork (wait_body handle (mkOutputSinks (Some lc) (Some lc)) lw) (Some w) ::
    tp ++ Obs (Recv lc) None :: (t5 ++ post)) as Eown'.
  { rewrite Eown. by list_simplifier. }
  assert (Forall calm_obs (pre ++ t1)) as Hcalm.
  { apply Forall_app. split; [done|]. exact (expands_calm _ _ _ H1 He1). }
  assert (Forall (later_obs lc) (t5 ++ post)) as Hlater'.
  { apply Forall_app. split; [exact (expands_later _ _ _ Hlater He)|]. eapply Forall_impl; [exact Hpost|]. by left. }
  assert ((0%nat : tid, Obs (Recv lw) (Some (Ok os_code))) ∈ log (state c')) as Hcode.
  { apply elem_of_own. rewrite Eown'. do 2 (apply elem_of_app; right). right. apply elem_of_app. right. right.
    apply elem_of_app. left. eapply expands_elem; [exact He| |done]. apply elem_of_app. by left. }
  destruct (stream_complete external c c' Hl Hr Hrest handle _ Hout Herr lc lw w (pre ++ t1) tp (t5 ++ post)
    Eown' Hcalm (expands_pump _ _ _ Hpump Hep) Hlater' os_code Hcode s) as [Hall Hd].
  split; [|done]. rewrite (expands_received _ _ _ _ Hep) in Hall.
  unfold chunks_of. rewrite <- Hall, (pump_received lc) by done. symmetry. apply omap_bind.
Qed.
End Within.

(** ** Local buffers *)

(** A buffer reads as what its thread has appended to it so far. *)
Lemma contents_read {R} (c c' : config W R) t b x m1 m2 m3 :
  log (state c) = [] -> reachable c c' ->
  own t (log (state c')) = m1 ++ Obs NewVec b :: m2 ++ Obs (Contents b) x :: m3 ->
  x = concat (omap (extends b) m2).
Proof.
  intros Hl Hr E. rewrite app_comm_cons, app_assoc in E.
  destruct (own_split t _ _ _ _ E) as (l1 & l2 & El & E1 & _).
  destruct (reachable_split external c c' _ _ _ _ Hl Hr El) as (c1 & c2 & Hr1 & _ & <- & _ & Ho).
  destruct (own_split t _ _ _ _ E1) as (k1 & k2 & Ek & _ & <-).
  destruct (vec_history external R c c1 b k1 _ k2 Hl Hr1 Ek eq_refl) as [_ Hv]. cbn [fst] in Hv. rewrite <- Hv.
  by destruct Ho as [_ [(el & Hm & _)|(Hm & _)]]; simpl in Hm; simplify_eq.
Qed.

(** Two buffers are two. *)
Lemma vecs_differ {R} (c c' : config W R) t b b' m1 m2 m3 :
  log (state c) = [] -> reachable c c' ->
  own t (log (state c')) = m1 ++ Obs NewVec b :: m2 ++ Obs NewVec b' :: m3 -> b <> b'.
Proof.
  intros Hl Hr E <-. rewrite app_comm_cons, app_assoc in E.
  destruct (own_split t _ _ _ _ E) as (l1 & l2 & El & E1 & _).
  destruct (reachable_split external c c' _ _ _ _ Hl Hr El) as (c1 & c2 & Hr1 & _ & <- & _ & Ho).
  destruct (own_split t _ _ _ _ E1) as (k1 & k2 & Ek & _ & _).
  destruct (vec_history external R c c1 b k1 _ k2 Hl Hr1 Ek eq_refl) as [Hlt _].
  destruct Ho as [_ [(el & Hm & _)|(Hm & _)]]; simpl in Hm; [|done]. injection Hm as Hm _. lia.
Qed.


(** ** The closures *)

Definition capture_lines (ev : Event.t) : list string :=
  match ev with
  | Event.Started pid => [line (started_line pid)]
  | Event.StdoutChunk seq bytes => [line (chunk_line "StdoutChunk" seq bytes)]
  | Event.StderrChunk seq bytes => [line (chunk_line "StderrChunk" seq bytes)]
  | Event.Exited code reason => [line (exited_reason_line code reason)]
  end.

Definition env_lines (ev : Event.t) : list string :=
  match ev with
  | Event.Started pid => [line (started_line pid)]
  | Event.Exited code _ => [line (exited_line code)]
  | _ => []
  end.

(** The bytes an event brings of a stream. *)
Definition bytes_on (s : Stream) (ev : Event.t) : list (list byte) :=
  match ev, s with
  | Event.StdoutChunk _ bytes, OutStream | Event.StderrChunk _ bytes, ErrStream => [bytes]
  | _, _ => []
  end.

(** A complete call of the closure appends to buffer [b] what the event brings
    of stream [s]. *)
Definition keeps (on_event : Event.t -> prog (outcome unit)) (b : loc) (s : Stream) : Prop :=
  forall ev call u, exec (on_event ev) call (Some (Val u)) -> omap (extends b) call = bytes_on s ev.

#[local] Ltac closure_case Hex :=
  simpl in Hex;
  first
    [ apply print_Val in Hex as ->; done
    | let tr := fresh in apply print_then in Hex as (tr & -> & Hex); repeat exec_inv_step Hex; simpl
    | repeat exec_inv_step Hex; simpl ];
  repeat case_decide; try done; congruence.

Lemma capture_prints b1 b2 : prints (capture_event b1 b2) capture_lines.
Proof. intros [] call u Hex; closure_case Hex. Qed.

Lemma capture_keeps_out b1 b2 : b1 <> b2 -> keeps (capture_event b1 b2) b1 OutStream.
Proof. intros Hne [] call u Hex; closure_case Hex. Qed.

Lemma capture_keeps_err b1 b2 : b1 <> b2 -> keeps (capture_event b1 b2) b2 ErrStream.
Proof. intros Hne [] call u Hex; closure_case Hex. Qed.

Lemma env_prints b : prints (env_event b) env_lines.
Proof. intros [] call u Hex; closure_case Hex. Qed.

Lemma env_keeps b : keeps (env_event b) b OutStream.
Proof. intros [] call u Hex; closure_case Hex. Qed.

Lemma capture_event_aside b1 b2 ev : all_obs aside_obs (capture_event b1 b2 ev).
Proof. unfold capture_event, obind, println, print. all_obs_solve ltac:(done). Qed.

Lemma env_event_aside b ev : all_obs aside_obs (env_event b ev).
Proof. unfold env_event, obind, println, print. all_obs_solve ltac:(done). Qed.

(** *** The bytes of the messages of a stream *)

Definition chunk_bytes (m : ChunkMsg.t) : list byte :=
  match m with
  | ChunkMsg.Stdout _ bytes | ChunkMsg.Stderr _ bytes => bytes
  end.

Lemma numbered_bytes s seq chunks : chunk_bytes <$> numbered (make_msg s) seq chunks = chunks.
Proof.
  revert seq. induction chunks as [|bytes chunks IH]; intros seq; [done|].
  cbn [numbered]. rewrite fmap_cons, IH. by destruct s.
Qed.

Lemma bytes_on_msgs s msgs :
  (chunk_event <$> msgs) ≫= bytes_on s = chunk_bytes <$> omap (on_stream s) msgs.
Proof.
  induction msgs as [|m msgs IH]; [done|]. rewrite omap_cons, fmap_app, <- IH. simpl.
  by destruct m, s.
Qed.

(** What a buffer of the closure holds after a run. *)
Lemma kept {R} (c : config W R) on_event b s task ch tr0 trr pid msgs code :
  keeps on_event b s -> exec (run_impl task rust_callback ch) tr0 (Some (Val (Ok tt))) ->
  expands on_event tr0 trr ->
  events tr0 = Event.Started pid :: (chunk_event <$> msgs) ++ [Event.Exited code ExitReason.NaturalExit] ->
  omap (on_stream s) msgs = numbered (make_msg s) 0 (chunks_of c s) ->
  concat (omap (extends b) trr) = read_of c s.
Proof using L.
  intros Hk Hex He Hev Hm. unfold read_of. f_equal.
  rewrite (expands_omap on_event (extends b) (bytes_on s) tr0 trr Hk); [| |by eapply run_no_panic|done].
  - rewrite Hev. simpl. rewrite bind_app, bytes_on_msgs, Hm, numbered_bytes. simpl.
    by destruct s; rewrite app_nil_r.
  - intros o Ho _. pose proof (proj1 (Forall_forall _ _) (crate_run task ch _ _ Hex) o Ho) as Hc.
    destruct o as [X e x|]; [|done]. by destruct e.
Qed.

(** A buffer of the closure read after the run. *)
Lemma reads {R} (c0 c : config W R) b x m1 mid trr after post s :
  log (state c0) = [] -> reachable c0 c ->
  own 0%nat (log (state c)) =
    m1 ++ Obs NewVec b :: mid ++ trr ++ after ++ Obs (Contents b) x :: post ->
  omap (extends b) mid = [] -> omap (extends b) after = [] ->
  concat (omap (extends b) trr) = read_of c s -> x = read_of c s.
Proof.
  intros Hl Hr E Hmid Hafter <-.
  rewrite (contents_read c0 c 0%nat b x m1 (mid ++ trr ++ after) post Hl Hr) by (by rewrite E, <- !app_assoc).
  by rewrite !omap_app, Hmid, Hafter, app_nil_r.
Qed.

(** ** capture.rs *)

(** The report on the bytes of a stream. *)
Definition report_lines (stream : string) (bytes : list byte) : list string :=
  [line (newline +:+ "--- " +:+ stream +:+ " (" +:+ len bytes +:+ " bytes) ---");
   string_of_list_byte (from_utf8_lossy bytes)].

Lemma capture_report_exec stream b tr u :
  exec (capture_report stream b) tr (Some (Val u)) ->
  exists x y, tr =
    [Obs (Contents b) x;
     shown (line (newline +:+ "--- " +:+ stream +:+ " (" +:+ len x +:+ " bytes) ---"));
     Obs (Contents b) y; shown (string_of_list_byte (from_utf8_lossy y))].
Proof.
  unfold capture_report, print_lossy. intros H. exec_inv_step H.
  apply print_then in H as (tr' & -> & H). exec_inv_step H. apply print_Val in H as ->.
  by exists x, x0.
Qed.

Lemma capture_main_exec windows tr :
  exec (capture_main windows) tr (Some (Val (Ok tt))) ->
  exists b1 b2 trr x1 y1 x2 y2,
    exec (run_impl (capture_task windows) (capture_event b1 b2) None) trr (Some (Val (Ok tt))) /\
    tr = [shown (line ("Spawning with capture enabled..." +:+ newline)); Obs NewVec b1; Obs NewVec b2] ++
      trr ++
      [Obs (Contents b1) x1; shown (line (newline +:+ "--- stdout (" +:+ len x1 +:+ " bytes) ---"));
       Obs (Contents b1) y1; shown (string_of_list_byte (from_utf8_lossy y1));
       Obs (Contents b2) x2; shown (line (newline +:+ "--- stderr (" +:+ len x2 +:+ " bytes) ---"));
       Obs (Contents b2) y2; shown (string_of_list_byte (from_utf8_lossy y2));
       shown (line (newline +:+ "Done."))].
Proof.
  intros (tr1 & -> & H)%print_then. do 2 (exec_inv_step H).
  apply obind_Val in H as (r & trr & tr2 & -> & Hr & H). destruct r as [[]|e]; [|by exec_inv_step H].
  apply obind_Val in H as (u1 & t1 & t2 & -> & (x1 & y1 & ->)%capture_report_exec & H).
  apply obind_Val in H as (u2 & t3 & t4 & -> & (x2 & y2 & ->)%capture_report_exec & H).
  apply print_then in H as (t5 & -> & H). exec_inv_step H.
  by exists x, x0, trr, x1, y1, x2, y2.
Qed.

(** C7: When capture.rs succeeds, whatever the threads of its run did in what
    order: it has printed its banner, the start of the child, one line for
    each chunk read from the child's pipes (of each stream in order, numbered
    from 0), the exit, and then of each stream, read to its end, the number of
    bytes and the bytes themselves as text. *)
Theorem capture_shows windows rest g c :
  Forall (all_obs aside_obs) rest -> log g = [] ->
  reachable (mkConfig (capture_main windows) rest g) c -> main c = Ret (Val (Ok tt)) ->
  exists pid msgs code,
    printed (own 0%nat (log (state c))) =
      line ("Spawning with capture enabled..." +:+ newline) ::
      ((Event.Started pid :: (chunk_event <$> msgs) ++ [Event.Exited code ExitReason.NaturalExit])
         ≫= capture_lines) ++
      report_lines "stdout" (read_of c OutStream) ++ report_lines "stderr" (read_of c ErrStream) ++
      [line (newline +:+ "Done.")] /\
    forall s, omap (on_stream s) msgs = numbered (make_msg s) 0 (chunks_of c s) /\ drained c s.
Proof using Hpiped L D.
  set (c0 := mkConfig (capture_main windows) rest g). intros Hrest Hl Hr Hm.
  change (log (state c0) = []) in Hl.
  pose proof (main_exec_done external c0 c Hl Hr _ Hm) as Hex.
  apply capture_main_exec in Hex as (b1 & b2 & trr & x1 & y1 & x2 & y2 & Hrun & E).
  destruct (run_within (capture_event b1 b2) (capture_event_aside b1 b2) c0 c
    (capture_task windows) None _ _ _ eq_refl Hrest Hl Hr E) as (tr0 & pid & msgs & code & H0 & He & Hev & Hs);
    [by repeat constructor..|done|].
  exists pid, msgs, code. split; [|exact Hs].
  assert (b1 <> b2) as Hne by exact (vecs_differ c0 c _ b1 b2 [_] [] _ Hl Hr E).
  pose proof (kept c _ b1 OutStream _ _ _ _ _ _ _ (capture_keeps_out b1 b2 Hne) H0 He Hev (proj1 (Hs OutStream))) as K1.
  pose proof (kept c _ b2 ErrStream _ _ _ _ _ _ _ (capture_keeps_err b1 b2 Hne) H0 He Hev (proj1 (Hs ErrStream))) as K2.
  rewrite E, !printed_app.
  rewrite (reads c0 c b1 x1 [_] [_] trr [] _ OutStream Hl Hr E eq_refl eq_refl K1).
  rewrite (reads c0 c b1 y1 [_] [_] trr [_; _] [_; _; _; _; _; _] OutStream Hl Hr E eq_refl eq_refl K1).
  rewrite (reads c0 c b2 x2 [_; _] [] trr [_; _; _; _] [_; _; _; _] ErrStream Hl Hr E eq_refl eq_refl K2).
  rewrite (reads c0 c b2 y2 [_; _] [] trr [_; _; _; _; _; _] [_; _] ErrStream Hl Hr E eq_refl eq_refl K2).
  by rewrite (expanded_prints _ _ _ _ _ _ _ (capture_prints b1 b2) H0 He), Hev.
Qed.

(** ** env.rs *)

Lemma print_lossy_then {B} b (q : prog (outcome B)) tr a :
  exec (print_lossy b ;;? q) tr (Some (Val a)) ->
  exists y tr', tr = Obs (Contents b) y :: shown (string_of_list_byte (from_utf8_lossy y)) :: tr' /\
    exec q tr' (Some (Val a)).
Proof.
  intros (u & tr1 & tr2 & -> & H1 & H2)%obind_Val. unfold print_lossy in H1. exec_inv_step H1.
  apply print_Val in H1 as ->. by exists x, tr2.
Qed.

Lemma env_main_exec windows temp_dir tr :
  exec (env_main windows temp_dir) tr (Some (Val (Ok tt))) ->
  exists b trr y,
    exec (run_impl (env_task windows temp_dir) (env_event b) None) trr (Some (Val (Ok tt))) /\
    tr = [shown (line ("Spawning with AER_EXAMPLE_VAR=hello_from_aer, cwd=" +:+ temp_dir +:+ newline));
          Obs NewVec b] ++ trr ++
      [shown (line (newline +:+ "--- what the child saw ---"));
       Obs (Contents b) y; shown (string_of_list_byte (from_utf8_lossy y));
       shown (line (newline +:+ "Done."))].
Proof.
  intros (tr1 & -> & H)%print_then. exec_inv_step H.
  apply obind_Val in H as (r & trr & tr2 & -> & Hr & H). destruct r as [[]|e]; [|by exec_inv_step H].
  apply print_then in H as (t1 & -> & H). apply print_lossy_then in H as (y & t2 & -> & H).
  apply print_then in H as (t3 & -> & H). exec_inv_step H. by exists x, trr, y.
Qed.

(** When env.rs succeeds, whatever the threads of its run did: it has printed
    its banner, the start and the exit of the child, and between its two last
    lines exactly what was read from the child's standard output, to its end,
    as text. *)
Lemma env_output windows temp_dir rest g c :
  Forall (all_obs aside_obs) rest -> log g = [] ->
  reachable (mkConfig (env_main windows temp_dir) rest g) c -> main c = Ret (Val (Ok tt)) ->
  exists pid code tr1 trr tr2 b,
    own 0%nat (log (state c)) = tr1 ++ trr ++ tr2 /\
    exec (run_impl (env_task windows temp_dir) (env_event b) None) trr (Some (Val (Ok tt))) /\
    printed (own 0%nat (log (state c))) =
      [line ("Spawning with AER_EXAMPLE_VAR=hello_from_aer, cwd=" +:+ temp_dir +:+ newline);
       line (started_line pid); line (exited_line code);
       line (newline +:+ "--- what the child saw ---");
       string_of_list_byte (from_utf8_lossy (read_of c OutStream));
       line (newline +:+ "Done.")] /\
    drained c OutStream.
Proof using Hpiped L D.
  set (c0 := mkConfig (env_main windows temp_dir) rest g). intros Hrest Hl Hr Hm.
  change (log (state c0) = []) in Hl.
  pose proof (main_exec_done external c0 c Hl Hr _ Hm) as Hex.
  apply env_main_exec in Hex as (b & trr & y & Hrun & E).
  destruct (run_within (env_event b) (env_event_aside b) c0 c
    (env_task windows temp_dir) None _ _ _ eq_refl Hrest Hl Hr E) as (tr0 & pid & msgs & code & H0 & He & Hev & Hs);
    [by repeat constructor..|done|].
  pose proof (kept c _ b OutStream _ _ _ _ _ _ _ (env_keeps b) H0 He Hev (proj1 (Hs OutStream))) as K.
  eexists pid, code, _, trr, _, b. split; [exact E|]. split; [done|]. split; [|exact (proj2 (Hs OutStream))].
  rewrite E, !printed_app.
  rewrite (reads c0 c b y [_] [] trr [_] [_; _] OutStream Hl Hr E eq_refl eq_refl K).
  rewrite (expanded_prints _ _ _ _ _ _ _ (env_prints b) H0 He), Hev. simpl. rewrite bind_app.
  assert ((chunk_event <$> msgs) ≫= env_lines = []) as ->; [|done].
  clear. by induction msgs as [|[] msgs IH].
Qed.
End Console.

(** C15: On Unix, when env.rs succeeds: the child it started has its variable over
    the environment of the program, and the directory asked for; and what was
    printed between its two last lines is exactly what was read from the
    child's standard output, to its end, as text. *)
Theorem env_shows {W} (external : tid -> forall X, act X -> W -> X -> W -> Prop) temp_dir rest g c parent :
  piped_children external -> Forall (all_obs aside_obs) rest -> log g = [] ->
  reachable external (mkConfig (env_main (P := UnixProcess) false temp_dir) rest g) c ->
  main c = Ret (Val (Ok tt)) ->
  exists cmd child pid code,
    (0%nat : tid, Obs (CommandSpawn cmd) (Ok child)) ∈ log (state c) /\
    child_env cmd parent = <["AER_EXAMPLE_VAR" := "hello_from_aer"]> parent /\
    cmd_cwd cmd = Some temp_dir /\
    printed (own 0%nat (log (state c))) =
      [line ("Spawning with AER_EXAMPLE_VAR=hello_from_aer, cwd=" +:+ temp_dir +:+ newline);
       line (started_line pid); line (exited_line code);
       line (newline +:+ "--- what the child saw ---");
       string_of_list_byte (from_utf8_lossy (read_of c OutStream));
       line (newline +:+ "Done.")] /\
    drained c OutStream.
Proof.
  intros Hpiped Hrest Hl Hr Hm.
  destruct (env_output external Hpiped false temp_dir rest g c Hrest Hl Hr Hm)
    as (pid & code & tr1 & trr & tr2 & b & E & Hrun & Hp & Hd).
  apply exec_bind_Some in Hrun as (o & t1 & t2 & -> & Hs & Hrun). destruct o as [handle|e]; [|by exec_inv_step Hrun].
  unfold os_spawn in Hs. simpl in Hs. unfold spawn in Hs. exec_inv_step Hs. destruct x as [child|]; [|by exec_inv_step Hs].
  eexists _, child, pid, code. split_and!; [| | |exact Hp|exact Hd].
  - apply elem_of_own. rewrite E. apply elem_of_app. right. apply elem_of_app. left. by left.
  - symmetry. apply insert_union_singleton_l.
  - done.
Qed.
