(* ===== verification/Verdict.v ===== *)
(** * What cancel.rs claims, under every interleaving (src/examples/cancel.rs)

    The main thread of the example allocates a cancel handle, starts the
    canceller, runs the task and prints a verdict. Race.v says what the threads
    that share a handle have done once the run has its result; here that is
    carried through the whole program, to the text of the last line it prints. *)

From Stdlib Require Import ZArith Strings.String.
From stdpp Require Import base numbers list strings gmap relations.
From S2P Require Import Prelude Core Machine Sys Prog Os Task Run Pool Threads History Kills Race Utf8 Examples Closure Shown.

Open Scope Z_scope.

Section Verdict.
Context {W : Type}.
Variable external : tid -> forall X, act X -> W -> X -> W -> Prop.
Context `{P : OsProcess} {L : OsProcessLaws P} {K : OsKills P}.
Context (windows : bool) (io_debug : io_Error -> string).

(** The line of the verdict, and what it claims. *)
Definition verdict_line (result : Result unit AerError.t) : obs :=
  Obs (Print (cancel_verdict io_debug result +:+ newline)) (Val tt).

Definition claims (ch : CancelHandle) (out : outcome unit) (g : global W) : Prop :=
  out = Val tt -> exists result,
    (0%nat : tid, verdict_line result) ∈ log g /\ agrees ch (Val result) g.

(** [main] once it has started the canceller. *)
Definition started (cancel : CancelHandle) (cancel_thread : tid) (returned : loc) : prog (outcome unit) :=
  println ("Spawning long-running process (will be cancelled in ~1 s)..." +:+ newline) ;;?
  let? result := run_with_cancel (cancel_task windows) cancel_event cancel in
  do_act (Join cancel_thread) ;;;
  let! ok := do_act (Load returned) in
  if ok : bool then println (cancel_verdict io_debug result)
  else Ret (Panic (PString "called `Result::unwrap()` on an `Err` value: Any { .. }")).

(** The handle it allocates, and the cell of the canceller's result. *)
Definition first_handle (n : loc) : CancelHandle := mkCancelHandle n (S n) (S (S n)).
Definition first_returned (n : loc) : loc := S (S (S n)).

(** ** Lemmas *)

Section Handle.
Variable ch : CancelHandle.
#[local] Abbreviation wpc := (wpc external (Inv ch 1) (Guar ch)).
#[local] Abbreviation wpcl := (Pool.wpc external (Inv ch 1) (logged (Guar ch))).

Lemma cancel_event_polite : polite external ch 1 cancel_event.
Proof.
  apply (polite_apart external ch 1 0). intros ev. unfold cancel_event, println, print.
  all_obs_solve ltac:(done).
Qed.

Lemma wpc_canceller n returned g :
  (n <= 1)%nat -> returned <> cancelled ch -> returned <> kill_fired ch ->
  wpc n (canceller ch returned) (fun _ _ => True) g.
Proof using L.
  intros Hn Hc Hf. unfold canceller. apply wpc_any; [done|]. intros _ g1.
  apply wpc_any; [done|]. intros [u|p] g2; [|by apply wpc_done].
  apply wpc_bind. eapply wpc_mono; [|by apply (wpc_cancel external ch 1 n (fun _ => True))].
  intros [] g3 _ _. apply wpc_any with (k := Ret); [by split|]. intros [] g4. by apply wpc_done.
Qed.

(** A step apart from the handle, and its entry in the log. *)
Lemma wpcl_apart {A X} (e : act X) (k : X -> prog A) (F : global W -> Prop) Q g :
  stable (Inv ch 1) (Guar ch) 0%nat F -> about_view ch F -> apart_act ch e -> F g ->
  (forall x g, F g -> (0%nat : tid, Obs e x) ∈ log g -> wpcl 0%nat (k x) Q g) ->
  wpcl 0%nat (bind (do_act e) k) Q g.
Proof.
  intros Hst Hv He Hg Hk. apply wpc_act with (P := F); [by apply stable_logged|done|].
  intros fin g1 x g2 HF HI Hs. destruct (apart_step _ _ _ _ _ _ _ _ _ He HI Hs) as (Hsv & HG & HI2).
  destruct Hs as [Hl _]. split_and!; [split; [done|]|done|].
  - rewrite Hl. by apply prefix_app_r.
  - apply Hk; [by eapply Hv|]. rewrite Hl. in_list.
Qed.

(** An early end claims nothing. *)
Lemma wpcl_panic p g : wpcl 0%nat (Ret (Panic p)) (claims ch) g.
Proof. apply (wpc_ret _ _ _ _ _ (fun _ => True)); [done|done|]. by intros ? _ _. Qed.

Lemma wpcl_obind {A} (p : prog (outcome A)) (f : A -> prog (outcome unit)) (R : A -> global W -> Prop) g :
  wpcl 0%nat p (fun out g => forall a, out = Val a -> R a g) g ->
  (forall a g, R a g -> wpcl 0%nat (f a) (claims ch) g) ->
  wpcl 0%nat (obind p f) (claims ch) g.
Proof.
  intros Hp Hf. apply wpc_bind. eapply wpc_mono; [|exact Hp]. intros [a|q] g1 _ HR.
  - by apply Hf, HR.
  - apply wpcl_panic.
Qed.

Lemma wpcl_verdict result cancel_thread returned g :
  returned <> cancelled ch -> returned <> kill_fired ch -> agrees ch (Val result) g ->
  wpcl 0%nat
    (do_act (Join cancel_thread) ;;;
     let! ok := do_act (Load returned) in
     if ok : bool then println (cancel_verdict io_debug result)
     else Ret (Panic (PString "called `Result::unwrap()` on an `Err` value: Any { .. }")))
    (claims ch) g.
Proof.
  intros Hc Hf Hg.
  assert (stable (Inv ch 1) (Guar ch) 0%nat (agrees (W := W) ch (Val result))) as Hst by apply agrees_stable.
  assert (about_view ch (agrees (W := W) ch (Val result))) as Hv by apply view_agrees.
  apply wpcl_apart with (F := agrees ch (Val result)); [done..|]. intros _ g1 Hg1 _.
  apply wpcl_apart with (F := agrees ch (Val result)); [done|done|by split|done|]. intros [] g2 Hg2 _;
    [|apply wpcl_panic].
  apply wpcl_apart with (k := Ret) (F := agrees ch (Val result)); [done..|]. intros [[]|p] g3 Hg3 Hin;
    [|apply wpcl_panic].
  apply (wpc_ret _ _ _ _ _ (fun g => (0%nat : tid, verdict_line result) ∈ log g /\ agrees ch (Val result) g)).
  - intros h h' [Hh Ha] Hr. split; [by eapply log_stable|by eapply (stable_logged _ _ 0%nat)].
  - done.
  - intros g4 [Hg4 Ha4] _ _. by exists result.
Qed.

Lemma wpcl_started cancel_thread returned g :
  returned <> cancelled ch -> returned <> kill_fired ch ->
  wpcl 0%nat (started ch cancel_thread returned) (claims ch) g.
Proof using L.
  intros Hc Hf. unfold started. apply wpcl_obind with (R := fun _ _ => True).
  { apply wpc_logged, wpc_any with (k := Ret); [done|]. intros x h. by apply wpc_done. }
  intros _ g3 _. apply wpcl_obind with (R := fun result g => agrees ch (Val result) g).
  { apply wpc_logged. eapply wpc_mono; [|by apply wpc_run_impl, cancel_event_polite].
    by intros out h _ Hout a ->. }
  intros result g4 Hg4. by apply wpcl_verdict.
Qed.

(** *** The threads' own steps *)

Lemma quiet_candid tr : Forall (quiet ch) tr -> candid ch tr.
Proof using Type.
  intros Hq. rewrite <- (app_nil_r tr). apply (candid_quiet ch tr [] []); [done|constructor|].
  apply unfired_candid. split; [constructor|by intros ?%elem_of_nil].
Qed.

Lemma canceller_candid returned tr r :
  returned <> kill_fired ch -> exec (canceller ch returned) tr r -> candid ch tr.
Proof using L K.
  intros Hf. unfold canceller, println, print.
  intros [[-> ->]|([] & tr1 & -> & Hex)]; [apply quiet_candid; constructor|].
  destruct Hex as [[-> ->]|(x & tr2 & -> & Hex)]; [apply quiet_candid; by repeat constructor|].
  change (exec (match x with Val _ => cancel ch ;;; do_act (Store returned true) | Panic _ => Ret tt end) tr2 r) in Hex.
  destruct x as [u|p]; [|destruct Hex as [-> _]; apply quiet_candid; by repeat constructor].
  apply exec_bind_inv in Hex as [[-> Hex]|([] & tr3 & tr4 & -> & Hex%cancel_candid & Hst)].
  - rewrite <- (app_nil_r tr2). apply (candid_quiet ch [_; _] tr2 []); [by repeat constructor|constructor|].
    by eapply cancel_candid.
  - apply (candid_quiet ch [_; _] tr3 tr4); [by repeat constructor| |done].
    assert (all_obs (quiet ch) (do_act (Store returned true))) as Hq by (all_obs_solve ltac:(done)).
    by apply (Hq _ _ Hst).
Qed.

Lemma cancel_event_obliging : obliging ch cancel_event.
Proof using Type.
  apply obliging_idle; intros ev; unfold cancel_event, println, print; all_obs_solve ltac:(done).
Qed.
End Handle.

(** A complete run of [main] from there. *)
Lemma started_exec ch cancel_thread returned tr :
  exec (started ch cancel_thread returned) tr (Some (Val tt)) ->
  exists trr result joined,
    tr = shown (line ("Spawning long-running process (will be cancelled in ~1 s)..." +:+ newline)) :: trr ++
      [Obs (Join cancel_thread) joined; Obs (Load returned) true; verdict_line result] /\
    exec (run_impl (cancel_task windows) cancel_event (Some ch)) trr (Some (Val result)).
Proof using Type.
  intros (tr3 & -> & H)%print_then.
  apply obind_Val in H as (result & tr4 & tr5 & -> & H4 & H).
  apply exec_act_Some in H as (joined & tr6 & -> & H).
  apply exec_act_Some in H as (ok & tr7 & -> & H).
  destruct ok; [|by exec_inv_step H]. apply print_Val in H as ->.
  by exists tr4, result, joined.
Qed.

(** What [main] does before. *)
Definition setting_up (n : loc) : list obs :=
  [Obs (NewFlag false) n; Obs (NewFlag false) (S n); Obs NewMutex (S (S n));
   Obs (NewFlag false) (first_returned n);
   ObsFork (canceller (first_handle n) (first_returned n)) (Some 1%nat)].

(** Main sets up before there is any other thread. *)
Lemma cancel_main_started g c :
  log g = [] -> (forall l, q_wait (chan_at (memory g) l) = []) ->
  reachable external (mkConfig (cancel_main windows io_debug) [] g) c -> main c = Ret (Val tt) ->
  let n := next (memory g) in
  exists g5, Inv (first_handle n) 1 g5 /\
    value (mutex_at (memory g5) (kill_slot (first_handle n))) = None /\
    log g5 = pair 0%nat <$> setting_up n /\
    reachable external
      (mkConfig (started (first_handle n) 1%nat (first_returned n))
         [canceller (first_handle n) (first_returned n)] g5) c.
Proof.
  intros Hl Hq Hr Hm n.
  apply reachable_alone in Hr as [E|(fin1 & a & g1 & [Hl1 Hs1] & Hr)]; [by rewrite E in Hm|].
  apply reachable_alone in Hr as [E|(fin2 & b & g2 & [Hl2 Hs2] & Hr)]; [by rewrite E in Hm|].
  apply reachable_alone in Hr as [E|(fin3 & m & g3 & [Hl3 Hs3] & Hr)]; [by rewrite E in Hm|].
  apply reachable_alone in Hr as [E|(fin4 & r & g4 & [Hl4 Hs4] & Hr)]; [by rewrite E in Hm|].
  destruct Hs1 as [(el1 & [= <- Hm1] & _)|[[=] _]].
  destruct Hs2 as [(el2 & [= <- Hm2] & _)|[[=] _]].
  destruct Hs3 as [(el3 & [= <- Hm3] & _)|[[=] _]].
  destruct Hs4 as [(el4 & [= <- Hm4] & _)|[[=] _]].
  apply reachable_forking in Hr as [E|(born & o & g5 & Hm5 & Hl5 & Hb & Hr)]; [by rewrite E in Hm|].
  assert (exec (Ret (Val tt)) [] (Some (Val tt))) as Hx by (by apply exec_ret_Some).
  destruct Hb as [[-> ->]|[-> ->]].
  2: { apply (reachable_returned external (Panic spawn_panic)) in Hr. rewrite Hr in Hm.
    rewrite <- Hm in Hx. by destruct Hx as [_ [?|?]]. }
  rewrite Hl1, Hl2, Hl3, Hl4, Hl in *. rewrite <- Hm1 in *. rewrite <- Hm2 in *. rewrite <- Hm3 in *.
  rewrite <- Hm4 in *. clear Hm1 Hm2 Hm3 Hm4 Hl1 Hl2 Hl3 Hl4. simpl in Hm5, Hl5. exists g5.
  assert (value (mutex_at (memory g5) (kill_slot (first_handle n))) = None) as Hv.
  { rewrite Hm5. unfold mutex_at. simpl. by rewrite lookup_insert_eq. }
  split_and!; [|done|by rewrite Hl5|exact Hr].
  apply blank_inv; [simpl; lia|rewrite Hm5; simpl; lia|by unfold notes; rewrite Hl5| |by rewrite Hm5].
  unfold fired, flag. rewrite Hm5. simpl.
  rewrite lookup_insert_ne by lia. by rewrite lookup_insert_eq.
Qed.

Lemma cancel_main_rest n tr :
  exec (cancel_main windows io_debug) (setting_up n ++ tr) (Some (Val tt)) ->
  exec (started (first_handle n) 1%nat (first_returned n)) tr (Some (Val tt)).
Proof.
  assert (forall A (x y : A) l l', x :: l = y :: l' -> x = y /\ l = l') as Hcons
    by (intros A x y l l' E; by injection E).
  unfold setting_up. intros Hex.
  apply exec_act_Some in Hex as (a & t1 & E & Hex). simpl in E.
  apply Hcons in E as [[= <-]%(f_equal allocs) <-].
  apply exec_act_Some in Hex as (b & t2 & E & Hex). apply Hcons in E as [[= <-]%(f_equal allocs) <-].
  apply exec_act_Some in Hex as (m & t3 & E & Hex). apply Hcons in E as [[= <-]%(f_equal allocs) <-].
  apply exec_act_Some in Hex as (r & t4 & E & Hex). apply Hcons in E as [[= <-]%(f_equal allocs) <-].
  apply exec_fork_Some in Hex as (o & t5 & E & Hex). apply Hcons in E as [E <-].
  injection E as <-. exact Hex.
Qed.

(** *** The text *)

Lemma expected_told result :
  line (cancel_verdict io_debug result) =
    line (newline +:+ "run_with_cancel returned Err(Cancelled) — as expected.") ->
  result = Err AerError.Cancelled.
Proof. by destruct result as [[]|[]]. Qed.

Lemma ok_told result :
  line (cancel_verdict io_debug result) = line (newline +:+ "unexpected result: Ok(())") -> result = Ok tt.
Proof. by destruct result as [[]|[]]. Qed.

(** No other line is a verdict. *)
Lemma verdict_apart result evs :
  line (cancel_verdict io_debug result) ∉ (evs ≫= cancel_lines).
Proof.
  intros (ev & Hl & _)%list_elem_of_bind. destruct ev; simpl in Hl; try (by apply elem_of_nil in Hl);
    apply list_elem_of_singleton in Hl; by destruct result as [[]|[]].
Qed.

Lemma printed_elem o s tr : o ∈ tr -> obs_print o = Some s -> s ∈ printed tr.
Proof. intros Hin Ho. apply list_elem_of_omap. by exists o. Qed.

(** *** A run of the program *)

Lemma returned_apart m :
  first_returned m <> cancelled (first_handle m) /\ first_returned m <> kill_fired (first_handle m).
Proof. unfold first_returned, first_handle, loc. simpl. lia. Qed.

Section Ended.
Context (g : global W) (c : config W (outcome unit)).
Context (Hl : log g = []) (Hq : forall l, q_wait (chan_at (memory g) l) = []).
Context (Hr : reachable external (mkConfig (cancel_main windows io_debug) [] g) c).
Context (Hm : main c = Ret (Val tt)).
#[local] Abbreviation n := (next (memory g)).
#[local] Abbreviation ch := (first_handle n).

(** The steps of the main thread: set up, the run in the middle, the verdict. *)
Definition main_trace (trr : list obs) (joined : unit) (result : Result unit AerError.t) : list obs :=
  (setting_up n ++
   [shown (line ("Spawning long-running process (will be cancelled in ~1 s)..." +:+ newline))]) ++
  trr ++
  [Obs (Join 1%nat) joined; Obs (Load (first_returned n)) true; verdict_line result].

Lemma ended :
  Inv ch 1 (state c) /\ claims ch (Val tt) (state c) /\
  (forall t o k, (t, o) ∈ log (state c) -> finds (kill_slot ch) o = Some k ->
     exists u o', (u, o') ∈ log (state c) /\ puts (kill_slot ch) o' = Some k) /\
  exists trr joined result,
    own 0%nat (log (state c)) = main_trace trr joined result /\ Forall (clean ch) trr /\
    exec (run_impl (cancel_task windows) cancel_event (Some ch)) trr (Some (Val result)).
Proof using Hl Hq Hr Hm L.
  destruct (returned_apart n) as [Hrc Hrf].
  destruct (cancel_main_started g c Hl Hq Hr Hm) as (g5 & HI & Hv & Hl5 & Hr5).
  assert (pool_ok external (Inv ch 1) (logged (Guar ch)) (claims ch)
    (mkConfig (started ch 1%nat (first_returned n)) [canceller ch (first_returned n)] g5)) as Hok0.
  { split; [done|]. split; [by apply wpcl_started|]. intros [|i] p Hi; [|done]. injection Hi as <-.
    by apply wpc_logged, wpc_canceller. }
  pose proof (pool_sound _ _ _ _ _ _ Hok0 Hr5) as Hok. split; [exact (proj1 Hok)|].
  split; [by apply (pool_ok_returned _ _ _ _ _ _ Hok Hm)|]. split.
  { intros t o k. eapply (slot_history external _
      (mkConfig (started ch 1%nat (first_returned n)) [canceller ch (first_returned n)] g5) c _ t o k);
      [|exact Hv|exact Hr5].
    simpl. rewrite Hl5. by repeat constructor. }
  destruct (log_clean _ _ _ _ _ _ _ Hok0 Hr5) as (l & El & Hc). simpl in El.
  pose proof (main_exec_done external (mkConfig (cancel_main windows io_debug) [] g) c Hl Hr _ Hm) as Hex.
  assert (own 0%nat (log (state c)) = setting_up n ++ own 0%nat l) as Eo.
  { rewrite El, own_app, Hl5. by rewrite own_self. }
  rewrite Eo in Hex |- *. simpl in Hex.
  apply cancel_main_rest, started_exec in Hex as (trr & result & joined & E & Hex).
  exists trr, joined, result. split; [|split; [|done]].
  - rewrite E. unfold main_trace. by rewrite <- app_assoc.
  - assert (Forall (clean ch) (own 0%nat l)) as Hcl.
    { apply Forall_forall. intros o Hin%elem_of_own. rewrite Forall_forall in Hc. by apply (Hc (0%nat, o)). }
    rewrite E in Hcl. by apply Forall_cons in Hcl as [_ [? _]%Forall_app].
Qed.

(** The second thread is the canceller. *)
Lemma second_thread trr joined result :
  own 0%nat (log (state c)) = main_trace trr joined result ->
  (0%nat, ObsFork (canceller ch (first_returned n)) (Some 1%nat)) ∈ log (state c).
Proof using Type.
  intros E. apply elem_of_own. rewrite E. apply elem_of_app. left. apply elem_of_app. left.
  do 4 right. by left.
Qed.

Lemma second_candid trr joined result :
  own 0%nat (log (state c)) = main_trace trr joined result ->
  candid ch (own 1%nat (log (state c))).
Proof using Hl Hr L K.
  intros E. apply second_thread in E. destruct (returned_apart n) as [_ Hrf].
  destruct (born_program external (mkConfig (cancel_main windows io_debug) [] g) c Hl Hr _ _ _ E)
    as (_ & _ & i & [= <-] & Hi).
  destruct (program_exec external (mkConfig (cancel_main windows io_debug) [] g) c Hl Hr _ _ Hi) as [Hex _].
  by apply (canceller_candid _ _ _ _ Hrf Hex).
Qed.

(** What the steps of the two threads tell, for a conclusive result. *)
Lemma ended_told trr joined result :
  Inv ch 1 (state c) ->
  (forall t o k, (t, o) ∈ log (state c) -> finds (kill_slot ch) o = Some k ->
     exists u o', (u, o') ∈ log (state c) /\ puts (kill_slot ch) o' = Some k) ->
  own 0%nat (log (state c)) = main_trace trr joined result -> Forall (clean ch) trr ->
  exec (run_impl (cancel_task windows) cancel_event (Some ch)) trr (Some (Val result)) ->
  conclusive result -> exists k, told ch 1 (cancel_task windows) k (state c).
Proof using Hl Hr L K.
  intros HI Hfinds E Hc Hex Hcr. destruct (returned_apart n) as [Hrc Hrf].
  destruct (run_kills ch cancel_event (cancel_event_obliging ch) (inv_distinct _ _ _ HI) _ _ _ Hex Hcr Hc)
    as (Hp & _ & k & Hk & Hset).
  exists k. split; [done|]. split; [|split; [|done]].
  - rewrite E. split; [|split].
    + apply proper_app; [by apply proper_idle; repeat constructor|]. apply proper_app; [done|].
      apply proper_idle. constructor; [done|]. constructor; [by left|]. by repeat constructor.
    + by apply run_handle_inside.
    + apply Forall_app. split; [by repeat constructor|]. apply Forall_app. split; [done|by repeat constructor].
  - intros t Ht. assert (t = 1%nat) as -> by lia. by eapply second_candid.
Qed.

(** The last line is the verdict on the result of the run, which the cells of
    the handle bear out. *)
Lemma ended_verdict trr joined result :
  own 0%nat (log (state c)) = main_trace trr joined result ->
  exec (run_impl (cancel_task windows) cancel_event (Some ch)) trr (Some (Val result)) ->
  claims ch (Val tt) (state c) ->
  last (printed (own 0%nat (log (state c)))) = Some (line (cancel_verdict io_debug result)) /\
  exists result', agrees ch (Val result') (state c) /\
    line (cancel_verdict io_debug result') = line (cancel_verdict io_debug result).
Proof using L.
  intros E Hex Hcl. destruct (Hcl eq_refl) as (result' & Hin%elem_of_own & Ha).
  destruct (closure_prints _ _ _ _ _ _ cancel_prints Hex) as (tr0 & _ & _ & Hp).
  assert (printed (own 0%nat (log (state c))) =
    line ("Spawning long-running process (will be cancelled in ~1 s)..." +:+ newline) ::
    (events tr0 ≫= cancel_lines) ++ [line (cancel_verdict io_debug result)]) as Epr.
  { rewrite E. unfold main_trace. rewrite !printed_app, Hp. done. }
  rewrite Epr. split; [by rewrite app_comm_cons, last_snoc|]. exists result'. split; [done|].
  apply printed_elem with (s := line (cancel_verdict io_debug result')) in Hin; [|done].
  rewrite Epr in Hin. apply elem_of_cons in Hin as [Hin|Hin]; [by destruct result' as [[]|[]]|].
  apply elem_of_app in Hin as [Hin|Hin%list_elem_of_singleton]; [by apply verdict_apart in Hin|done].
Qed.
End Ended.

(** ** Properties *)

(** C17: Whatever the interleaving of cancel.rs: when its main thread has ended
    well, the last line it has printed is true of the kills. If that line says
    that the run was cancelled, as expected, one of the two threads, the main one
    and the canceller, has carried out to its end the kill of the very process
    the run spawned; if it says [Ok(())], neither has taken a step that kills,
    but for the main one after its wait for the child. *)
Theorem cancel_verdict_true g c :
  log g = [] -> (forall l, q_wait (chan_at (memory g) l) = []) ->
  reachable external (mkConfig (cancel_main windows io_debug) [] g) c -> main c = Ret (Val tt) ->
  (exists returned, (0%nat, ObsFork (canceller (first_handle (next (memory g))) returned) (Some 1%nat)) ∈
     log (state c)) /\
  exists verdict, last (printed (own 0%nat (log (state c)))) = Some verdict /\
    (verdict = line (newline +:+ "run_with_cancel returned Err(Cancelled) — as expected.") ->
     exists t k, (t <= 1)%nat /\ run_handle (cancel_task windows) k (own 0%nat (log (state c))) /\
       carried (first_handle (next (memory g))) k (own t (log (state c)))) /\
    (verdict = line (newline +:+ "unexpected result: Ok(())") ->
     forall t, (t <= 1)%nat -> ~ struck (own t (log (state c)))).
Proof using L K.
  intros Hl Hq Hr Hm. destruct (ended g c Hl Hq Hr Hm) as (HI & Hcl & Hfi & trr & joined & result & E & Hc & Hex).
  split; [eexists; by eapply second_thread|].
  destruct (ended_verdict _ _ _ _ _ E Hex Hcl) as (Hlast & result' & [Hok Hca] & Et).
  exists (line (cancel_verdict io_debug result)). split; [done|]. split; intros Ev.
  - pose proof (expected_told _ (eq_trans Et Ev)) as ->. apply expected_told in Ev as ->.
    destruct (ended_told g c Hl Hr _ _ _ HI Hfi E Hc Hex) as [k Ht]; [by do 2 right|].
    destruct (Hca eq_refl) as [Hf Hs].
    destruct (told_killed _ _ _ _ _ Ht Hf Hs) as (t & Hle & Hk). exists t, k.
    split_and!; [done|apply Ht|done].
  - pose proof (ok_told _ (eq_trans Et Ev)) as ->. apply ok_told in Ev as ->.
    destruct (ended_told g c Hl Hr _ _ _ HI Hfi E Hc Hex) as [k Ht]; [by left|].
    destruct (Hok eq_refl) as [Hf Hs]. intros t Hle. by apply (told_spared _ _ _ _ _ _ Ht).
Qed.
End Verdict.
