(* ===== verification/Cstr.v ===== *)
(** * C strings

    What src/src/ffi.rs takes from std to read its arguments: [CStr::from_ptr]
    and [CStr::to_str] (over Utf8.v), [CString::new], [str::is_empty] and
    [str::contains]. *)

From Stdlib Require Import ZArith Strings.Byte Strings.String.
From stdpp Require Import base numbers list strings.
From S2P Require Import Prelude Core Utf8.

Open Scope Z_scope.

(** A [*const c_char]: null, or the memory from the pointer on. *)
Inductive cptr : Type :=
  | Null
  | Mem (bytes : list byte).

Definition is_null (p : cptr) : bool :=
  match p with
  | Null => true
  | Mem _ => false
  end.

(** [CStr::from_ptr]: the bytes before the first NUL; [None] when the memory
    has none, which is outside the function's safety contract. *)
Fixpoint CStr_from_ptr (mem : list byte) : option (list byte) :=
  match mem with
  | [] => None
  | x00 :: _ => Some []
  | b :: mem => cons b <$> CStr_from_ptr mem
  end.

(** [CStr::to_str]. *)
Definition to_str (bytes : list byte) : Result string unit :=
  if utf8_valid bytes then Ok (string_of_list_byte bytes) else Err tt.

(** ** Strings *)

Definition is_empty (s : string) : bool :=
  match s with
  | EmptyString => true
  | String _ _ => false
  end.

Fixpoint contains (c : Ascii.ascii) (s : string) : bool :=
  match s with
  | EmptyString => false
  | String c' s => Ascii.eqb c c' || contains c s
  end.

Definition NUL : Ascii.ascii := Ascii.zero.
Definition EQUALS : Ascii.ascii := Ascii.ascii_of_nat 61.

(** [CString::new(msg).ok()]. *)
Definition CString_new (msg : string) : option string :=
  if contains NUL msg then None else Some msg.

(** ** Lemmas *)

Lemma contains_app c s s' : contains c (s +:+ s') = contains c s || contains c s'.
Proof. induction s as [|c' s IH]; simpl; [done|]. by rewrite IH, orb_assoc. Qed.

(** A C string has no NUL of its own. *)
Lemma CStr_from_ptr_no_nul mem bytes : CStr_from_ptr mem = Some bytes -> x00 ∉ bytes.
Proof.
  revert bytes. induction mem as [|b mem IH]; intros bytes; simpl; [done|].
  destruct (Byte.byte_eq_dec b x00) as [->|Hne]; [intros [= <-]; apply not_elem_of_nil|].
  assert (cons b <$> CStr_from_ptr mem = Some bytes -> x00 ∉ bytes).
  { intros (bytes' & Hm & ->)%fmap_Some. apply not_elem_of_cons. split; [done|by apply IH]. }
  by destruct b.
Qed.

(** What a caller passes as a C string is read back. *)
Lemma CStr_from_ptr_bytes bytes rest :
  x00 ∉ bytes -> CStr_from_ptr (bytes ++ x00 :: rest) = Some bytes.
Proof.
  induction bytes as [|b bytes IH]; [done|]. intros [Hne Hb]%not_elem_of_cons.
  specialize (IH Hb). destruct b; simpl; by rewrite ?IH.
Qed.

Lemma contains_byte b0 bytes :
  contains (Ascii.ascii_of_byte b0) (string_of_list_byte bytes) = true <-> b0 ∈ bytes.
Proof.
  induction bytes as [|b bytes IH].
  - split; [done|]. by intros ?%elem_of_nil.
  - change (Ascii.eqb (Ascii.ascii_of_byte b0) (Ascii.ascii_of_byte b) ||
              contains (Ascii.ascii_of_byte b0) (string_of_list_byte bytes) = true <-> b0 ∈ b :: bytes).
    rewrite orb_true_iff, IH, elem_of_cons, Ascii.eqb_eq.
    assert (Ascii.ascii_of_byte b0 = Ascii.ascii_of_byte b <-> b0 = b) as ->; [|done].
    split; [|by intros ->]. intros E.
    by rewrite <- (Ascii.byte_of_ascii_of_byte b), <- E, Ascii.byte_of_ascii_of_byte.
Qed.

Lemma is_empty_bytes bytes : is_empty (string_of_list_byte bytes) = bool_decide (bytes = []).
Proof. by destruct bytes. Qed.

(** What a caller passes as an argument: null, or a C string. *)
Definition carg (a : option (list byte)) : cptr :=
  match a with
  | None => Null
  | Some bytes => Mem (bytes ++ [x00])
  end.

Definition no_nul (a : option (list byte)) : Prop :=
  match a with
  | None => True
  | Some bytes => x00 ∉ bytes
  end.

Definition usable (a : option (list byte)) : bool :=
  match a with
  | None => false
  | Some bytes => utf8_valid bytes
  end.

Definition arg_string (a : option (list byte)) : string := string_of_list_byte (default [] a).
