(* ===== verification/Ffi.v ===== *)
(** * The C interface (src/src/ffi.rs)

    Each exported function is a definition over [FfiState]: the boxes the C
    caller holds pointers to and the calling thread's last-error slot. A call
    answers [None] when the caller broke the documented safety contract (a
    pointer that is not live, a string without its NUL): what happens then is
    undefined. [catch] is the [catch_unwind] around every body. *)

From Stdlib Require Import ZArith Strings.Byte Strings.String.
From stdpp Require Import base numbers list strings gmap.
From S2P Require Import Prelude Core Machine Sys Prog Os Task Run Cstr.

Open Scope Z_scope.

(** ** Error codes *)

Module AerErrorCode.
Inductive t : Type :=
  | Ok
  | NullPointer
  | SpawnFailed
  | WaitFailed
  | InvalidStateTransition
  | TimedOut
  | KillFailed
  | AlreadyRun
  | Panic
  | Cancelled
  | InvalidArgument.

(** The C values. *)
Definition as_u32 (c : t) : Z :=
  match c with
  | Ok => 0
  | NullPointer => 1
  | SpawnFailed => 2
  | WaitFailed => 3
  | InvalidStateTransition => 4
  | TimedOut => 5
  | KillFailed => 6
  | AlreadyRun => 7
  | Panic => 8
  | Cancelled => 9
  | InvalidArgument => 10
  end.

#[global] Instance eq_dec : EqDecision t.
Proof. solve_decision. Defined.
End AerErrorCode.

Definition MAX_ARGS_LEN : Z := 65536.

(** ** The boxes *)

(** A non-null address; 0 is the null pointer. *)
Definition ptr : Type := Z.

#[export] Instance cancel_handle_eq_dec : EqDecision CancelHandle.
Proof. solve_decision. Defined.

Record AerTask : Type := mkAerTask {
  inner : option Task;
  has_run : bool;
  task_cancel : option CancelHandle
}.

Record FfiState : Type := mkFfiState {
  tasks : gmap ptr AerTask;
  cancels : gmap ptr CancelHandle;
  last_error : option string;
  next_ptr : ptr
}.

(** A body: undefined ([None]), or how it ends and the state it leaves. *)
Definition ffi (A : Type) : Type := FfiState -> prog (option (outcome A * FfiState)).

Definition fret {A} (a : A) : ffi A := fun s => Ret (Some (Val a, s)).

Definition fbind {A B} (m : ffi A) (f : A -> ffi B) : ffi B := fun s =>
  let! r := m s in
  match r with
  | None => Ret None
  | Some (Panic p, s) => Ret (Some (Panic p, s))
  | Some (Val a, s) => f a s
  end.

Notation "'call!' x := p 'in' q" := (fbind p (fun x => q))
  (at level 10, x pattern, p at level 100, q at level 200) : aer_scope.
Notation "p ;;- q" := (fbind p (fun _ => q))
  (at level 100, q at level 200, right associativity) : aer_scope.

(** A piece of code of the crate, and one that may unwind. *)
Definition lift {A} (p : prog A) : ffi A := fun s =>
  let! a := p in Ret (Some (Val a, s)).
Definition unwinding {A} (p : prog (outcome A)) : ffi A := fun s =>
  let! r := p in Ret (Some (r, s)).

(** A read of the caller's memory; undefined outside the contract. *)
Definition must {A} (o : option A) : ffi A := fun s =>
  match o with
  | Some a => Ret (Some (Val a, s))
  | None => Ret None
  end.

Definition set_last_error (msg : string) : ffi unit := fun s =>
  Ret (Some (Val tt, mkFfiState (tasks s) (cancels s) (CString_new msg) (next_ptr s))).

Definition clear_last_error : ffi unit := fun s =>
  Ret (Some (Val tt, mkFfiState (tasks s) (cancels s) None (next_ptr s))).

(** [&mut *task], and the write back. *)
Definition deref (task : ptr) : ffi AerTask := fun s => must (tasks s !! task) s.
Definition put_task (task : ptr) (t : AerTask) : ffi unit := fun s =>
  Ret (Some (Val tt, mkFfiState (<[task := t]> (tasks s)) (cancels s) (last_error s) (next_ptr s))).

Definition deref_cancel (cancel : ptr) : ffi CancelHandle := fun s => must (cancels s !! cancel) s.

(** [Box::into_raw(Box::new(...))]. *)
Definition box_task (t : AerTask) : ffi ptr := fun s =>
  Ret (Some (Val (next_ptr s),
    mkFfiState (<[next_ptr s := t]> (tasks s)) (cancels s) (last_error s) (next_ptr s + 1))).
Definition box_cancel (c : CancelHandle) : ffi ptr := fun s =>
  Ret (Some (Val (next_ptr s),
    mkFfiState (tasks s) (<[next_ptr s := c]> (cancels s)) (last_error s) (next_ptr s + 1))).

(** Whether a box still holds a clone of a cancel handle. *)
Definition holds_cancel (c : CancelHandle) (s : FfiState) : bool :=
  bool_decide (map_Exists (fun _ t => task_cancel t = Some c) (tasks s)) ||
  bool_decide (map_Exists (fun _ h => h = c) (cancels s)).

(** The drop of a [CancelHandle]: with the last of its [Arc]s the mutex goes,
    and what is left in the slot, after a run that did not come to unwire it. *)
Definition drop_cancel (c : CancelHandle) : ffi unit := fun s =>
  if holds_cancel c s then Ret (Some (Val tt, s))
  else
    let! old := do_act (GetSlot (kill_slot c)) in
    kill_drop_opt old ;;;
    Ret (Some (Val tt, s)).

Definition drop_cancel_opt (c : option CancelHandle) : ffi unit :=
  match c with
  | Some c => drop_cancel c
  | None => fret tt
  end.

(** [drop(Box::from_raw(...))] of a live pointer. *)
Definition unbox_task (task : ptr) : ffi unit := fun s =>
  match tasks s !! task with
  | Some t =>
      drop_cancel_opt (task_cancel t)
        (mkFfiState (delete task (tasks s)) (cancels s) (last_error s) (next_ptr s))
  | None => Ret None
  end.
Definition unbox_cancel (cancel : ptr) : ffi unit := fun s =>
  match cancels s !! cancel with
  | Some c =>
      drop_cancel c
        (mkFfiState (tasks s) (delete cancel (cancels s)) (last_error s) (next_ptr s))
  | None => Ret None
  end.

(** ** Panics and errors *)

Definition format_panic (p : payload) : string :=
  match p with
  | PStr s => "panic: " +:+ s
  | PString s => "panic: " +:+ s
  | POther => "panic: unknown panic payload"
  end.

(** [match catch_unwind(body) { Ok(x) => x, Err(e) => { set_last_error(...); on_panic } }]. *)
Definition catch {A} (on_panic : A) (body : ffi A) : ffi A := fun s =>
  let! r := body s in
  match r with
  | None => Ret None
  | Some (Val a, s) => Ret (Some (Val a, s))
  | Some (Panic p, s) => (set_last_error (format_panic p) ;;- fret on_panic) s
  end.

(** [let _ = catch_unwind(body);]. *)
Definition catch_quiet (body : ffi unit) : ffi unit := fun s =>
  let! r := body s in
  match r with
  | None => Ret None
  | Some (_, s) => Ret (Some (Val tt, s))
  end.

Section Ffi.
(** The text of an [io::Error], which the operating system provides. *)
Variable io_fmt : io_Error -> string.

Definition map_aer_error (e : AerError.t) : ffi AerErrorCode.t :=
  set_last_error (AerError.fmt io_fmt e) ;;-
  fret match e with
       | AerError.SpawnFailed _ => AerErrorCode.SpawnFailed
       | AerError.WaitFailed _ => AerErrorCode.WaitFailed
       | AerError.InvalidStateTransition _ _ => AerErrorCode.InvalidStateTransition
       | AerError.TimedOut => AerErrorCode.TimedOut
       | AerError.KillFailed _ => AerErrorCode.KillFailed
       | AerError.Cancelled => AerErrorCode.Cancelled
       end.

(** ** Construction *)

(** The argument loop: [Some] of the strings, or [None] for the early return
    of a null pointer. [args] is the array, [n] how many are left to read. *)
Fixpoint read_args (args : list cptr) (n : nat) : ffi (option (list string)) :=
  match n with
  | O => fret (Some [])
  | S n =>
      match args with
      | [] => must None
      | arg_ptr :: args =>
          match arg_ptr with
          | Null => fret None
          | Mem mem =>
              call! bytes := must (CStr_from_ptr mem) in
              match to_str bytes with
              | Err _ => fret None
              | Ok s =>
                  call! rest := read_args args n in
                  fret (option_map (cons s) rest)
              end
          end
      end
  end.

Definition aer_task_new (program : cptr) (args : option (list cptr)) (args_len : Z) : ffi ptr :=
  catch 0
    match program with
    | Null => fret 0
    | Mem mem =>
        call! bytes := must (CStr_from_ptr mem) in
        match to_str bytes with
        | Err _ => fret 0
        | Ok program_str =>
            if MAX_ARGS_LEN <? args_len then fret 0
            else if (0 <? args_len) && bool_decide (args = None) then fret 0
            else
              call! arg_strings := read_args (default [] args) (Z.to_nat args_len) in
              match arg_strings with
              | None => fret 0
              | Some arg_strings =>
                  box_task (mkAerTask (Some (Task_new program_str arg_strings)) false None)
              end
        end
    end.

(** ** The builders *)

(** [match t.inner.take() { Some(inner) => { t.inner = Some(...); clear_last_error(); Ok }
    None => AlreadyRun }]; the [take] of a [None] leaves [None]. *)
Definition rebuild (task : ptr) (t : AerTask) (f : Task -> Task) : ffi AerErrorCode.t :=
  match inner t with
  | Some inner =>
      put_task task (mkAerTask (Some (f inner)) (has_run t) (task_cancel t)) ;;-
      clear_last_error ;;-
      fret AerErrorCode.Ok
  | None => fret AerErrorCode.AlreadyRun
  end.

Definition aer_task_with_timeout (task : ptr) (timeout_ms : Z) : ffi AerErrorCode.t :=
  catch AerErrorCode.Panic
    (if task =? 0 then fret AerErrorCode.NullPointer
     else
       call! t := deref task in
       if has_run t then fret AerErrorCode.AlreadyRun
       else rebuild task t (with_timeout (from_millis timeout_ms))).

Definition aer_task_with_capture_output (task : ptr) (capture : bool) : ffi AerErrorCode.t :=
  catch AerErrorCode.Panic
    (if task =? 0 then fret AerErrorCode.NullPointer
     else
       call! t := deref task in
       if has_run t then fret AerErrorCode.AlreadyRun
       else rebuild task t (with_capture_output capture)).

Definition aer_task_set_env (task : ptr) (key value : cptr) : ffi AerErrorCode.t :=
  catch AerErrorCode.Panic
    match key, value with
    | Mem key_mem, Mem value_mem =>
        if task =? 0 then fret AerErrorCode.NullPointer
        else
          call! t := deref task in
          if has_run t then fret AerErrorCode.AlreadyRun
          else
            call! key_bytes := must (CStr_from_ptr key_mem) in
            match to_str key_bytes with
            | Err _ => fret AerErrorCode.InvalidArgument
            | Ok key_str =>
                call! value_bytes := must (CStr_from_ptr value_mem) in
                match to_str value_bytes with
                | Err _ => fret AerErrorCode.InvalidArgument
                | Ok value_str =>
                    if is_empty key_str || contains EQUALS key_str
                    then fret AerErrorCode.InvalidArgument
                    else rebuild task t (with_env key_str value_str)
                end
            end
    | _, _ => fret AerErrorCode.NullPointer
    end.

Definition aer_task_set_clear_env (task : ptr) (clear : bool) : ffi AerErrorCode.t :=
  catch AerErrorCode.Panic
    (if task =? 0 then fret AerErrorCode.NullPointer
     else
       call! t := deref task in
       if has_run t then fret AerErrorCode.AlreadyRun
       else rebuild task t (with_clear_env clear)).

Definition aer_task_set_cwd (task : ptr) (path : cptr) : ffi AerErrorCode.t :=
  catch AerErrorCode.Panic
    match path with
    | Mem path_mem =>
        if task =? 0 then fret AerErrorCode.NullPointer
        else
          call! t := deref task in
          if has_run t then fret AerErrorCode.AlreadyRun
          else
            call! path_bytes := must (CStr_from_ptr path_mem) in
            match to_str path_bytes with
            | Err _ => fret AerErrorCode.InvalidArgument
            | Ok path_str =>
                if is_empty path_str then fret AerErrorCode.InvalidArgument
                else rebuild task t (with_cwd path_str)
            end
    | Null => fret AerErrorCode.NullPointer
    end.

(** ** Cancellation *)

Definition aer_task_make_cancel_handle (task : ptr) : ffi ptr :=
  catch 0
    (if task =? 0 then fret 0
     else
       call! t := deref task in
       call! cancel := lift CancelHandle_new in
       put_task task (mkAerTask (inner t) (has_run t) (Some cancel)) ;;-
       drop_cancel_opt (task_cancel t) ;;-
       box_cancel cancel).

Definition aer_cancel_free (c : ptr) : ffi unit :=
  if c =? 0 then fret tt else catch_quiet (unbox_cancel c).

Definition aer_task_free (task : ptr) : ffi unit :=
  if task =? 0 then fret tt else catch_quiet (unbox_task task).

(** The string the pointer refers to, or null. *)
Definition aer_last_error_message : ffi (option string) := fun s =>
  Ret (Some (Val (last_error s), s)).

(** ** Events for C *)

Definition c_event (event : Event.t) : AerEvent :=
  match event with
  | Event.Started pid => mkAerEvent 0 pid 0 0 0 None 0
  | Event.Exited code reason => mkAerEvent 1 0 code (ExitReason.as_u32 reason) 0 None 0
  | Event.StdoutChunk seq bytes =>
      mkAerEvent 2 0 0 0 seq (Some bytes) (Z.of_nat (length bytes))
  | Event.StderrChunk seq bytes =>
      mkAerEvent 3 0 0 0 seq (Some bytes) (Z.of_nat (length bytes))
  end.

(** A C function, with the [user_data] it is passed, is code of the caller; a
    null pointer is [None]. The one every session uses is a step that hands
    the struct over and comes back. *)
Definition AerEventCallback : Type := option (AerEvent -> prog unit).

Definition c_callback (non_null : bool) : AerEventCallback :=
  if non_null then Some (fun ev => do_act (CCallback ev)) else None.

(** The [on_event] closure. *)
Definition on_event (callback : AerEventCallback) (event : Event.t) : prog (outcome unit) :=
  match callback with
  | Some cb => cb (c_event event) ;;; Ret (Val tt)
  | None => Ret (Val tt)
  end.

Section Platform.
Context `{P : OsProcess}.

Definition aer_cancel (c : ptr) : ffi AerErrorCode.t :=
  catch AerErrorCode.Panic
    (if c =? 0 then fret AerErrorCode.NullPointer
     else
       call! h := deref_cancel c in
       lift (cancel h) ;;-
       clear_last_error ;;-
       fret AerErrorCode.Ok).

Definition aer_task_run (task : ptr) (callback : AerEventCallback) : ffi AerErrorCode.t :=
  catch AerErrorCode.Panic
    (if task =? 0 then fret AerErrorCode.NullPointer
     else
       call! t := deref task in
       if has_run t then fret AerErrorCode.AlreadyRun
       else
         put_task task (mkAerTask (inner t) true (task_cancel t)) ;;-
         match inner t with
         | None => fret AerErrorCode.AlreadyRun
         | Some inner =>
             call! result :=
               unwinding
                 match task_cancel t with
                 | Some c => run_with_cancel inner (on_event callback) c
                 | None => run inner (on_event callback)
                 end in
             match result with
             | Ok _ => clear_last_error ;;- fret AerErrorCode.Ok
             | Err e => map_aer_error e
             end
         end).
End Platform.
End Ffi.
