(* ===== verification/Boundary.v ===== *)
(** * What a C caller can rely on (properties of src/src/ffi.rs)

    The exported functions as calls of a session: the handles stay well
    formed, a task runs once, arguments are checked before anything changes,
    and a run behaves as [Task::run] does, its events and its result
    translated. *)

From Stdlib Require Import ZArith Strings.Byte Strings.String.
From stdpp Require Import base numbers list strings gmap relations.
From S2P Require Import Prelude Core Machine Sys Prog Os Task Run Lifecycle Cstr Ffi.

Open Scope Z_scope.

(** ** Sessions *)

Inductive call : Type :=
  | CNew (program : cptr) (args : option (list cptr)) (args_len : Z)
  | CTimeout (task : ptr) (ms : Z)
  | CCapture (task : ptr) (capture : bool)
  | CSetEnv (task : ptr) (key value : cptr)
  | CClearEnv (task : ptr) (clear : bool)
  | CCwd (task : ptr) (path : cptr)
  | CMakeCancel (task : ptr)
  | CCancel (c : ptr)
  | CCancelFree (c : ptr)
  | CRun (task : ptr) (callback : bool)
  | CFree (task : ptr)
  | CLastError.

Inductive reply : Type :=
  | RPtr (p : ptr)
  | RCode (c : AerErrorCode.t)
  | RUnit
  | RMessage (m : option string).

Section Sessions.
Variable io_fmt : io_Error -> string.
Context `{P : OsProcess}.

Definition fmap_ffi {A B} (f : A -> B) (m : ffi A) : ffi B := call! a := m in fret (f a).

Definition perform (c : call) : ffi reply :=
  match c with
  | CNew program args args_len => fmap_ffi RPtr (aer_task_new program args args_len)
  | CTimeout task ms => fmap_ffi RCode (aer_task_with_timeout task ms)
  | CCapture task capture => fmap_ffi RCode (aer_task_with_capture_output task capture)
  | CSetEnv task key value => fmap_ffi RCode (aer_task_set_env task key value)
  | CClearEnv task clear => fmap_ffi RCode (aer_task_set_clear_env task clear)
  | CCwd task path => fmap_ffi RCode (aer_task_set_cwd task path)
  | CMakeCancel task => fmap_ffi RPtr (aer_task_make_cancel_handle task)
  | CCancel c => fmap_ffi RCode (aer_cancel c)
  | CCancelFree c => fmap_ffi (fun _ => RUnit) (aer_cancel_free c)
  | CRun task callback => fmap_ffi RCode (aer_task_run io_fmt task (c_callback callback))
  | CFree task => fmap_ffi (fun _ => RUnit) (aer_task_free task)
  | CLastError => fmap_ffi RMessage aer_last_error_message
  end.

(** The calls of one thread, with what each did and answered; the caller kept
    to the safety contract. *)
Inductive session : FfiState -> list (call * list obs * outcome reply) -> FfiState -> Prop :=
  | session_nil s : session s [] s
  | session_cons s c tr r s1 l s2 :
      exec (perform c s) tr (Some (Some (r, s1))) -> session s1 l s2 ->
      session s ((c, tr, r) :: l) s2.

Definition ffi_init : FfiState := mkFfiState ∅ ∅ None 1.

(** Every live task can be used, and a live pointer was handed out: it is not
    null and not the next one. *)
Definition wf (s : FfiState) : Prop :=
  1 <= next_ptr s /\
  (forall p t, tasks s !! p = Some t -> 0 < p < next_ptr s /\ inner t <> None) /\
  (forall p h, cancels s !! p = Some h -> 0 < p < next_ptr s).

(** The task of this handed-out pointer has run, or was freed. *)
Definition spent (p : ptr) (s : FfiState) : Prop :=
  p < next_ptr s /\ forall t, tasks s !! p = Some t -> has_run t = true.

(** ** A calculus for the bodies *)

Definition fwp {A} (m : ffi A) (Q : outcome A -> FfiState -> Prop) (s : FfiState) : Prop :=
  forall tr r s', exec (m s) tr (Some (Some (r, s'))) -> Q r s'.

Lemma fwp_ret {A} (a : A) Q s : Q (Val a) s -> fwp (fret a) Q s.
Proof. intros HQ tr r s' H. apply exec_ret_Some in H as [_ H]. by simplify_eq. Qed.

Lemma fwp_mono {A} (m : ffi A) (Q Q' : outcome A -> FfiState -> Prop) s :
  (forall r s, Q r s -> Q' r s) -> fwp m Q s -> fwp m Q' s.
Proof. intros HQ Hm tr r s' H. by apply HQ, (Hm tr). Qed.

Lemma fwp_bind {A B} (m : ffi A) (f : A -> ffi B) Q s :
  fwp m (fun r s => match r with Val a => fwp (f a) Q s | Panic p => Q (Panic p) s end) s ->
  fwp (fbind m f) Q s.
Proof.
  intros Hm tr r s' (o & tr1 & tr2 & -> & H1 & H2)%exec_bind_Some.
  destruct o as [[[a|p] s1]|].
  - exact (Hm _ _ _ H1 _ _ _ H2).
  - apply exec_ret_Some in H2 as [_ H2]. simplify_eq. exact (Hm _ _ _ H1).
  - by apply exec_ret_Some in H2 as [_ ?].
Qed.

Lemma fwp_lift {A} (p : prog A) Q s : (forall a, Q (Val a) s) -> fwp (lift p) Q s.
Proof.
  intros HQ tr r s' (a & tr1 & tr2 & -> & H1 & H2)%exec_bind_Some.
  apply exec_ret_Some in H2 as [_ H2]. by simplify_eq.
Qed.

Lemma fwp_unwinding {A} (p : prog (outcome A)) Q s : (forall r, Q r s) -> fwp (unwinding p) Q s.
Proof.
  intros HQ tr r s' (a & tr1 & tr2 & -> & H1 & H2)%exec_bind_Some.
  apply exec_ret_Some in H2 as [_ H2]. by simplify_eq.
Qed.

Lemma fwp_must {A} (o : option A) Q s : (forall a, o = Some a -> Q (Val a) s) -> fwp (must o) Q s.
Proof.
  intros HQ tr r s' H. unfold must in H. destruct o; apply exec_ret_Some in H as [_ H];
    simplify_eq. by apply HQ.
Qed.

Lemma fwp_state {A} (a : FfiState -> A) (g : FfiState -> FfiState) Q s :
  Q (Val (a s)) (g s) -> fwp (fun s => Ret (Some (Val (a s), g s))) Q s.
Proof. intros HQ tr r s' H. apply exec_ret_Some in H as [_ H]. by simplify_eq. Qed.

Lemma fwp_catch {A} (x : A) m Q s :
  fwp m (fun r s => match r with
                    | Val a => Q (Val a) s
                    | Panic p => fwp (set_last_error (format_panic p) ;;- fret x) Q s
                    end) s ->
  fwp (catch x m) Q s.
Proof.
  intros Hm tr r s' (o & tr1 & tr2 & -> & H1 & H2)%exec_bind_Some.
  destruct o as [[[a|p] s1]|].
  - apply exec_ret_Some in H2 as [_ H2]. simplify_eq. exact (Hm _ _ _ H1).
  - exact (Hm _ _ _ H1 _ _ _ H2).
  - by apply exec_ret_Some in H2 as [_ ?].
Qed.

Lemma fwp_catch_quiet m Q s :
  fwp m (fun _ s => Q (Val tt) s) s -> fwp (catch_quiet m) Q s.
Proof.
  intros Hm tr r s' (o & tr1 & tr2 & -> & H1 & H2)%exec_bind_Some.
  destruct o as [[r1 s1]|]; [|by apply exec_ret_Some in H2 as [_ ?]].
  apply exec_ret_Some in H2 as [_ H2]. simplify_eq. exact (Hm _ _ _ H1).
Qed.

Lemma fwp_deref p Q s :
  (forall t, tasks s !! p = Some t -> Q (Val t) s) -> fwp (deref p) Q s.
Proof. intros HQ. exact (fwp_must _ _ _ HQ). Qed.

Lemma fwp_deref_cancel p Q s :
  (forall h, cancels s !! p = Some h -> Q (Val h) s) -> fwp (deref_cancel p) Q s.
Proof. intros HQ. exact (fwp_must _ _ _ HQ). Qed.

Lemma fwp_drop_cancel c Q s : Q (Val tt) s -> fwp (drop_cancel c) Q s.
Proof.
  intros HQ tr r s' H. unfold drop_cancel in H.
  destruct (holds_cancel c s); [apply exec_ret_Some in H as [_ H]; by simplify_eq|].
  apply exec_act_Some in H as (old & tr1 & -> & H).
  apply exec_bind_Some in H as ([] & tr2 & tr3 & -> & _ & [_ H]%exec_ret_Some). by simplify_eq.
Qed.

Lemma fwp_drop_cancel_opt c Q s : Q (Val tt) s -> fwp (drop_cancel_opt c) Q s.
Proof. destruct c; [apply fwp_drop_cancel|apply fwp_ret]. Qed.

Lemma fwp_unbox_task p Q s :
  Q (Val tt) (mkFfiState (delete p (tasks s)) (cancels s) (last_error s) (next_ptr s)) ->
  fwp (unbox_task p) Q s.
Proof.
  intros HQ tr r s' H. unfold unbox_task in H. destruct (tasks s !! p); [|by apply exec_ret_Some in H as [_ H]].
  by eapply fwp_drop_cancel_opt.
Qed.

Lemma fwp_unbox_cancel p Q s :
  Q (Val tt) (mkFfiState (tasks s) (delete p (cancels s)) (last_error s) (next_ptr s)) ->
  fwp (unbox_cancel p) Q s.
Proof.
  intros HQ tr r s' H. unfold unbox_cancel in H. destruct (cancels s !! p); [|by apply exec_ret_Some in H as [_ H]].
  by eapply fwp_drop_cancel.
Qed.

(** ** The invariant *)

(** From [s0] to [s] the handles stayed well formed and spent tasks spent. *)
Definition kept (s0 s : FfiState) : Prop :=
  wf s /\ next_ptr s0 <= next_ptr s /\ forall p, spent p s0 -> spent p s.

Lemma kept_refl s : wf s -> kept s s.
Proof. intros Hs. split; [done|]. split; [lia|done]. Qed.

Lemma kept_error s0 s m :
  kept s0 s -> kept s0 (mkFfiState (tasks s) (cancels s) m (next_ptr s)).
Proof. done. Qed.

Lemma kept_put s0 s p t t' :
  kept s0 s -> tasks s !! p = Some t -> inner t' <> None ->
  (has_run t = true -> has_run t' = true) ->
  kept s0 (mkFfiState (<[p := t']> (tasks s)) (cancels s) (last_error s) (next_ptr s)).
Proof.
  intros ((Hn & Ht & Hc) & Hle & Hs) Hp Hi Hr. split; [|split; [done|]].
  - split; [done|]. split; [|done]. intros q u. simpl.
    rewrite lookup_insert_Some. intros [[<- <-]|[_ Hq]]; [|by apply Ht].
    destruct (Ht _ _ Hp). done.
  - intros q Hq. destruct (Hs q Hq) as [Hlt Hq']. split; [done|]. intros u. simpl.
    rewrite lookup_insert_Some. intros [[<- <-]|[_ Hu]]; [|by apply Hq'].
    by apply Hr, Hq'.
Qed.

Lemma kept_box_task s0 s t :
  kept s0 s -> inner t <> None ->
  kept s0 (mkFfiState (<[next_ptr s := t]> (tasks s)) (cancels s) (last_error s) (next_ptr s + 1)).
Proof.
  intros ((Hn & Ht & Hc) & Hle & Hs) Hi. split; [|split; [simpl; lia|]].
  - split; [simpl; lia|]. split.
    + intros q u. simpl. rewrite lookup_insert_Some. intros [[<- <-]|[_ Hq]]; [by split; [lia|]|].
      destruct (Ht _ _ Hq). split; [lia|done].
    + intros q h Hq. simpl. specialize (Hc _ _ Hq). lia.
  - intros q Hq. destruct (Hs q Hq) as [Hlt Hq']. split; [simpl; lia|]. intros u. simpl.
    rewrite lookup_insert_Some. intros [[<- <-]|[_ Hu]]; [lia|by apply Hq'].
Qed.

Lemma kept_box_cancel s0 s h :
  kept s0 s ->
  kept s0 (mkFfiState (tasks s) (<[next_ptr s := h]> (cancels s)) (last_error s) (next_ptr s + 1)).
Proof.
  intros ((Hn & Ht & Hc) & Hle & Hs). split; [|split; [simpl; lia|]].
  - split; [simpl; lia|]. split.
    + intros q u Hq. simpl. destruct (Ht _ _ Hq). split; [lia|done].
    + intros q h'. simpl. rewrite lookup_insert_Some. intros [[<- _]|[_ Hq]]; [lia|].
      specialize (Hc _ _ Hq). lia.
  - intros q Hq. destruct (Hs q Hq) as [Hlt Hq']. split; [simpl; lia|done].
Qed.

Lemma kept_unbox_task s0 s p :
  kept s0 s -> kept s0 (mkFfiState (delete p (tasks s)) (cancels s) (last_error s) (next_ptr s)).
Proof.
  intros ((Hn & Ht & Hc) & Hle & Hs). split; [|split; [done|]].
  - split; [done|]. split; [|done]. intros q u. simpl.
    rewrite lookup_delete_Some. intros [_ Hq]. by apply Ht.
  - intros q Hq. destruct (Hs q Hq) as [Hlt Hq']. split; [done|]. intros u. simpl.
    rewrite lookup_delete_Some. intros [_ Hu]. by apply Hq'.
Qed.

Lemma kept_unbox_cancel s0 s p :
  kept s0 s -> kept s0 (mkFfiState (tasks s) (delete p (cancels s)) (last_error s) (next_ptr s)).
Proof.
  intros ((Hn & Ht & Hc) & Hle & Hs). split; [|split; [done|done]].
  split; [done|]. split; [done|]. intros q h. simpl.
  rewrite lookup_delete_Some. intros [_ Hq]. by apply (Hc q h).
Qed.

Lemma kept_inner s0 s p t : kept s0 s -> tasks s !! p = Some t -> inner t <> None.
Proof. intros ((_ & Ht & _) & _) Hp. by apply (Ht p). Qed.

#[local] Hint Resolve kept_refl kept_error kept_put kept_box_task kept_box_cancel kept_unbox_task
  kept_unbox_cancel kept_inner : aer.

(** Symbolic execution of a body. *)
Ltac fwp_step :=
  lazymatch goal with
  | |- fwp (match ?x with _ => _ end) _ _ => destruct x eqn:?
  | |- fwp (fbind _ _) _ _ => apply fwp_bind
  | |- fwp (fret _) _ _ => apply fwp_ret
  | |- fwp (catch _ _) _ _ => apply fwp_catch
  | |- fwp (catch_quiet _) _ _ => apply fwp_catch_quiet
  | |- fwp (lift _) _ _ => apply fwp_lift; intros
  | |- fwp (unwinding _) _ _ => apply fwp_unwinding; intros
  | |- fwp (must _) _ _ => apply fwp_must; intros
  | |- fwp (deref _) _ _ => apply fwp_deref; intros
  | |- fwp (deref_cancel _) _ _ => apply fwp_deref_cancel; intros
  | |- fwp (drop_cancel_opt _) _ _ => apply fwp_drop_cancel_opt
  | |- fwp (unbox_task _) _ _ => apply fwp_unbox_task
  | |- fwp (unbox_cancel _) _ _ => apply fwp_unbox_cancel
  | |- fwp (set_last_error _) _ _ => apply fwp_state
  | |- fwp clear_last_error _ _ => apply fwp_state
  | |- fwp (put_task _ _) _ _ => apply fwp_state
  | |- fwp (box_task _) _ _ => apply fwp_state
  | |- fwp (box_cancel _) _ _ => apply fwp_state
  | |- fwp aer_last_error_message _ _ => apply fwp_state with (g := fun s => s)
  | |- match ?x with _ => _ end => destruct x eqn:?
  end.
Ltac fwp_solve := repeat (fwp_step; simplify_eq/=); eauto with aer.

Lemma read_args_O args : read_args args 0 = fret (Some []).
Proof. by destruct args. Qed.

Lemma read_args_S args n :
  read_args args (S n) =
  match args with
  | [] => must None
  | Null :: _ => fret None
  | Mem mem :: args =>
      call! bytes := must (CStr_from_ptr mem) in
      match to_str bytes with
      | Err _ => fret None
      | Ok str =>
          call! rest := read_args args n in
          fret (option_map (cons str) rest)
      end
  end.
Proof. by destruct args as [|[|mem] args]. Qed.

Lemma read_args_kept s0 args n s :
  kept s0 s -> fwp (read_args args n) (fun _ s => kept s0 s) s.
Proof.
  revert args s. induction n as [|n IH]; intros args s Hs.
  - rewrite read_args_O. fwp_solve.
  - rewrite read_args_S. fwp_solve. eapply fwp_mono; [|by apply IH].
    intros r s' Hs'. fwp_solve.
Qed.

Lemma rebuild_kept s0 s p t f :
  kept s0 s -> tasks s !! p = Some t ->
  fwp (rebuild p t f) (fun _ s => kept s0 s) s.
Proof.
  intros Hs Hp. unfold rebuild. fwp_solve.
Qed.

Lemma perform_kept c s : wf s -> fwp (perform c) (fun _ s' => kept s s') s.
Proof.
  intros Hwf. pose proof (kept_refl s Hwf) as Hs. destruct c; unfold perform, fmap_ffi.
  - unfold aer_task_new. fwp_solve. eapply fwp_mono; [|by apply read_args_kept].
    intros r s' Hs'. fwp_solve.
  - unfold aer_task_with_timeout. fwp_solve. eapply fwp_mono; [|by eapply rebuild_kept].
    intros r s' Hs'. fwp_solve.
  - unfold aer_task_with_capture_output. fwp_solve. eapply fwp_mono; [|by eapply rebuild_kept].
    intros r s' Hs'. fwp_solve.
  - unfold aer_task_set_env. fwp_solve. eapply fwp_mono; [|by eapply rebuild_kept].
    intros r s' Hs'. fwp_solve.
  - unfold aer_task_set_clear_env. fwp_solve. eapply fwp_mono; [|by eapply rebuild_kept].
    intros r s' Hs'. fwp_solve.
  - unfold aer_task_set_cwd. fwp_solve. eapply fwp_mono; [|by eapply rebuild_kept].
    intros r s' Hs'. fwp_solve.
  - unfold aer_task_make_cancel_handle. fwp_solve.
    apply (kept_box_cancel s (mkFfiState _ _ _ _)).
    eapply kept_put; [done|done| |done]. simpl. by eapply kept_inner.
  - unfold aer_cancel. fwp_solve.
  - unfold aer_cancel_free. fwp_solve.
  - unfold aer_task_run, map_aer_error. fwp_solve. by destruct (kept_inner _ _ _ _ Hs H).
  - unfold aer_task_free. fwp_solve.
  - fwp_solve.
Qed.

(** ** A task runs once *)

(** The calls that need an unrun task, their pointers non-null. *)
Definition needs_fresh (p : ptr) (c : call) : bool :=
  match c with
  | CTimeout task _ | CCapture task _ | CClearEnv task _ | CRun task _ => task =? p
  | CSetEnv task key value => (task =? p) && negb (is_null key) && negb (is_null value)
  | CCwd task path => (task =? p) && negb (is_null path)
  | CNew _ _ _ | CMakeCancel _ | CCancel _ | CCancelFree _ | CFree _ | CLastError => false
  end.

(** A computation that does nothing but answer. *)
Lemma ret_answer {A} (m : prog (option (outcome A * FfiState))) o s tr r s' :
  m = Ret (Some (o, s)) -> exec m tr (Some (Some (r, s'))) -> tr = [] /\ r = o /\ s' = s.
Proof. intros -> H. apply exec_ret_Some in H as [-> H]. by simplify_eq. Qed.

Lemma ret_undefined {A} (m : prog (option (outcome A * FfiState))) tr x :
  m = Ret None -> exec m tr (Some (Some x)) -> False.
Proof. intros -> H. by apply exec_ret_Some in H as [_ ?]. Qed.

(** The checks every such call starts with. *)
Lemma fresh_checks (p : ptr) c s :
  p <> 0 -> needs_fresh p c = true ->
  match tasks s !! p with
  | None => perform c s = Ret None
  | Some t =>
      has_run t = true -> perform c s = Ret (Some (Val (RCode AerErrorCode.AlreadyRun), s))
  end.
Proof.
  intros Hp%Z.eqb_neq Hc.
  destruct c; simpl in Hc; try discriminate Hc;
    repeat match goal with
           | H : _ && _ = true |- _ => apply andb_prop in H as [? ?]
           | H : (_ =? _) = true |- _ => apply Z.eqb_eq in H as ->
           | H : negb (is_null ?x) = true |- _ => destruct x; [discriminate H|clear H]
           end;
    unfold perform, fmap_ffi, aer_task_with_timeout, aer_task_with_capture_output,
      aer_task_set_env, aer_task_set_clear_env, aer_task_set_cwd, aer_task_run,
      catch, fbind, deref, must;
    rewrite Hp; destruct (tasks s !! p) as [[i [] tc]|]; first [reflexivity | done].
Qed.

Lemma spent_refused (p : ptr) c s tr r s' :
  p <> 0 -> spent p s -> needs_fresh p c = true ->
  exec (perform c s) tr (Some (Some (r, s'))) ->
  tr = [] /\ r = Val (RCode AerErrorCode.AlreadyRun) /\ s' = s.
Proof.
  intros Hp [_ Hs] Hc Hex. pose proof (fresh_checks p c s Hp Hc) as Hf.
  destruct (tasks s !! p) as [t|]; [|by destruct (ret_undefined _ _ _ Hf Hex)].
  by eapply ret_answer; [apply Hf, Hs|].
Qed.

Lemma run_spends (p : ptr) cb s tr r s' :
  p <> 0 -> wf s -> exec (perform (CRun p cb) s) tr (Some (Some (r, s'))) -> spent p s'.
Proof.
  intros Hp%Z.eqb_neq (Hn & Ht & _).
  cut (fwp (perform (CRun p cb)) (fun _ s' => spent p s') s); [intros Hw; apply Hw|].
  unfold perform, fmap_ffi, aer_task_run, map_aer_error. rewrite Hp.
  assert (forall q t, tasks s !! q = Some t -> q < next_ptr s) as Hlt by (intros q t Hq; by apply (Ht q t)).
  fwp_solve; (split; simpl; [by eapply Hlt|]); intros t';
    rewrite ?lookup_insert_eq; intros; by simplify_eq/=.
Qed.

Lemma session_kept s l s' : session s l s' -> wf s -> kept s s'.
Proof.
  induction 1 as [|s c tr r s1 l s2 Hex _ IH]; intros Hwf; [by apply kept_refl|].
  pose proof (perform_kept c s Hwf _ _ _ Hex) as (Hwf1 & Hle & Hs).
  destruct (IH Hwf1) as (Hwf2 & Hle' & Hs'). split; [done|]. split; [lia|]. intros p Hp. by apply Hs', Hs.
Qed.

Lemma session_app_inv s l1 l2 s' :
  session s (l1 ++ l2) s' -> exists s1, session s l1 s1 /\ session s1 l2 s'.
Proof.
  revert s. induction l1 as [|x l1 IH]; intros s Hs; [by exists s; split; [constructor|]|].
  inversion Hs as [|? c tr r s1 l s2 Hex Hs1]; subst.
  destruct (IH _ Hs1) as (s2 & H1 & H2). exists s2. split; [|done]. by econstructor.
Qed.

Lemma session_spent s l s' (p : ptr) c tr r :
  session s l s' -> wf s -> spent p s -> p <> 0 -> (c, tr, r) ∈ l -> needs_fresh p c = true ->
  tr = [] /\ r = Val (RCode AerErrorCode.AlreadyRun).
Proof.
  intros Hs. induction Hs as [|s c1 tr1 r1 s1 l s2 Hex Hs IH]; intros Hwf Hsp Hp Hin Hc;
    [by apply elem_of_nil in Hin|].
  apply elem_of_cons in Hin as [[= <- <- <-]|Hin].
  - by destruct (spent_refused _ _ _ _ _ _ Hp Hsp Hc Hex) as (? & ? & _).
  - pose proof (perform_kept c1 s Hwf _ _ _ Hex) as (Hwf1 & _ & Hk). apply IH; auto.
Qed.

(** ** Properties *)

(** C39: From the first call on, whatever a caller does within the contract, every
    live task handle holds a task: the branches that answer [AlreadyRun]
    because a builder had taken the task away are never taken. And every live
    pointer is non-null. *)
Theorem session_wf l s p t :
  session ffi_init l s -> tasks s !! p = Some t -> inner t <> None /\ 0 < p.
Proof.
  intros Hs Hp. assert (wf ffi_init) as Hwf.
  { split; [done|]. by split. }
  destruct (session_kept _ _ _ Hs Hwf) as ((_ & Ht & _) & _).
  destruct (Ht p t Hp) as [? ?]. split; [done|lia].
Qed.

(** C26: A task handle is single-shot: after an [aer_task_run] on it, whatever that
    run answered, every later run or builder call on it answers [AlreadyRun]
    and does nothing. *)
Theorem session_single_shot s l1 (p : ptr) cb tr1 r1 l2 s' c tr r :
  wf s -> p <> 0 ->
  session s (l1 ++ (CRun p cb, tr1, r1) :: l2) s' ->
  (c, tr, r) ∈ l2 -> needs_fresh p c = true ->
  tr = [] /\ r = Val (RCode AerErrorCode.AlreadyRun).
Proof.
  intros Hwf Hp (s1 & Hs1 & Hs2)%session_app_inv Hin Hc.
  destruct (session_kept _ _ _ Hs1 Hwf) as [Hwf1 _].
  inversion Hs2 as [|? ? ? ? s2 ? ? Hex Hs3]; subst.
  pose proof (run_spends _ _ _ _ _ _ Hp Hwf1 Hex) as Hsp.
  destruct (perform_kept _ _ Hwf1 _ _ _ Hex) as [Hwf2 _].
  by eapply session_spent.
Qed.
End Sessions.

(** ** A run from C *)

Lemma exec_then {A B} (p : prog A) (f : A -> prog B) a b tr :
  exec p tr (Some a) -> f a = Ret b -> exec (bind p f) tr (Some b).
Proof.
  intros Hp Hf. rewrite <- (app_nil_r tr). eapply exec_bind; [done|].
  rewrite Hf. by apply exec_ret_Some.
Qed.

Section Runs.
Variable io_fmt : io_Error -> string.
Context `{P : OsProcess}.

(** The code and the message that an outcome of [Task::run] becomes. *)
Definition run_code (out : outcome (Result unit AerError.t)) : AerErrorCode.t :=
  match out with
  | Val (Ok _) => AerErrorCode.Ok
  | Val (Err (AerError.SpawnFailed _)) => AerErrorCode.SpawnFailed
  | Val (Err (AerError.WaitFailed _)) => AerErrorCode.WaitFailed
  | Val (Err (AerError.InvalidStateTransition _ _)) => AerErrorCode.InvalidStateTransition
  | Val (Err AerError.TimedOut) => AerErrorCode.TimedOut
  | Val (Err (AerError.KillFailed _)) => AerErrorCode.KillFailed
  | Val (Err AerError.Cancelled) => AerErrorCode.Cancelled
  | Panic _ => AerErrorCode.Panic
  end.

Definition run_message (out : outcome (Result unit AerError.t)) : option string :=
  match out with
  | Val (Ok _) => None
  | Val (Err e) => CString_new (AerError.fmt io_fmt e)
  | Panic p => CString_new (format_panic p)
  end.

(** A run through the interface is a run of [run_impl]. *)
Lemma aer_task_run_exec (p : ptr) cb s t task tr r s' :
  p <> 0 -> tasks s !! p = Some t -> has_run t = false -> inner t = Some task ->
  exec (aer_task_run io_fmt p cb s) tr (Some (Some (r, s'))) <->
  exists out,
    exec (run_impl task (on_event cb) (task_cancel t)) tr (Some out) /\
    r = Val (run_code out) /\
    s' = mkFfiState (<[p := mkAerTask (Some task) true (task_cancel t)]> (tasks s)) (cancels s)
           (run_message out) (next_ptr s).
Proof.
  intros Hp%Z.eqb_neq Ht Hr Hi. destruct t as [i hr tc]; simpl in Hr, Hi; subst. simpl.
  set (s1 := mkFfiState (<[p := mkAerTask (Some task) true tc]> (tasks s)) (cancels s)
               (last_error s) (next_ptr s)).
  set (body := run_impl task (on_event cb) tc).
  assert (aer_task_run io_fmt p cb s =
    catch AerErrorCode.Panic (fun _ => fbind (fun _ => unwinding body s1)
      (fun result => match result with
                     | Ok _ => clear_last_error ;;- fret AerErrorCode.Ok
                     | Err e => map_aer_error io_fmt e
                     end) s) s) as ->.
  { unfold aer_task_run, catch, fbind, deref, must. rewrite Hp, Ht. by destruct tc. }
  unfold catch, fbind, unwinding.
  split.
  - intros (o & tr1 & tr2 & -> & H1 & H2)%exec_bind_Some.
    apply exec_bind_Some in H1 as (o1 & tr3 & tr4 & -> & H1 & H3).
    apply exec_bind_Some in H1 as (out & tr5 & tr6 & -> & H1 & H4).
    apply exec_ret_Some in H4 as [-> ->]. exists out.
    destruct out as [[[]|e]|pay]; apply exec_ret_Some in H3 as [-> ->];
      apply exec_ret_Some in H2 as [-> H2]; rewrite !app_nil_r; simplify_eq;
      (split; [done|split; [|done]]); simpl; [done|by destruct e|done].
  - intros (out & H & -> & ->).
    pose (o := Some (Val (run_code out),
      mkFfiState (tasks s1) (cancels s1) (run_message out) (next_ptr s1))).
    pose (o1 := match out with
                | Panic pay => Some (Panic pay, s1)
                | Val _ => o
                end).
    apply (exec_then _ _ o1); [|destruct out as [[[]|[]]|]; reflexivity].
    apply (exec_then _ _ (Some (out, s1))); [|destruct out as [[[]|[]]|]; reflexivity].
    by apply (exec_then _ _ out).
Qed.

(** C24: [aer_task_run] on a fresh task is [Task::run], or [run_with_cancel] when a
    cancel handle was made, with the events converted: the same steps, and the
    outcome as a code, a panic included, with its message in the last-error
    slot. The handle is spent whatever the outcome. *)
Theorem aer_task_run_spec (p : ptr) cb s t task tr r s' :
  p <> 0 -> tasks s !! p = Some t -> has_run t = false -> inner t = Some task ->
  exec (aer_task_run io_fmt p cb s) tr (Some (Some (r, s'))) <->
  exists out,
    exec (run_impl task (on_event cb) (task_cancel t)) tr (Some out) /\
    r = Val (run_code out) /\
    s' = mkFfiState (<[p := mkAerTask (Some task) true (task_cancel t)]> (tasks s)) (cancels s)
           (run_message out) (next_ptr s).
Proof. apply aer_task_run_exec. Qed.
End Runs.
