(* ===== verification/CRace.v ===== *)
(** * Threads of a C program in the interface (properties of src/src/ffi.rs)

    One thread in [aer_task_run], any number of threads in [aer_cancel] on the
    task's handle, and a C callback that may call [aer_cancel] itself, under
    every interleaving: Race.v at the level of the exported functions. Each
    thread has a last-error slot of its own; the boxes behind the handles are
    shared, and no call of the race changes one but [aer_task_run] its own. *)

From Stdlib Require Import ZArith.
From stdpp Require Import base numbers list strings gmap relations.
From S2P Require Import Prelude Core Machine Sys Prog Os Task Run Pool Threads History Kills Race Ffi Boundary.

Open Scope Z_scope.

Section CRace.
Context {W : Type}.
Variable external : tid -> forall X, act X -> W -> X -> W -> Prop.
Variable ch : CancelHandle.
Variable io_fmt : io_Error -> string.
Context `{P : OsProcess} {L : OsProcessLaws P} {K : OsKills P}.

(** ** The threads *)

(** The interface as another thread sees it: the same boxes, its own message. *)
Definition on_thread (s : FfiState) (message : option string) : FfiState :=
  mkFfiState (tasks s) (cancels s) message (next_ptr s).

(** A thread of the C program that cancels. *)
Definition c_canceller (h : ptr) (s : FfiState) : prog unit :=
  let! _ := aer_cancel h s in Ret tt.

(** A C callback that takes each struct, and cancels on those it chooses. *)
Definition cancelling_callback (wants : AerEvent -> bool) (h : ptr) (s : FfiState)
    (ev : AerEvent) : prog unit :=
  do_act (CCallback ev) ;;;
  if wants ev then c_canceller h s else Ret tt.

Definition c_race (task h : ptr) (wants : AerEvent -> bool) (s : FfiState)
    (messages : list (option string)) (g : global W) :
    config W (option (outcome AerErrorCode.t * FfiState)) :=
  mkConfig (aer_task_run io_fmt task (Some (cancelling_callback wants h s)) s)
    ((fun m => c_canceller h (on_thread s m)) <$> messages) g.

(** ** Lemmas *)

(** [aer_cancel] of a live handle is [cancel]. *)
Lemma aer_cancel_live (h : ptr) s :
  h <> 0 -> cancels s !! h = Some ch ->
  aer_cancel h s =
  catch AerErrorCode.Panic (lift (cancel ch) ;;- clear_last_error ;;- fret AerErrorCode.Ok) s.
Proof.
  intros Hh%Z.eqb_neq Hc. unfold aer_cancel, catch. rewrite Hh.
  unfold fbind at 1, deref_cancel, must. by rewrite Hc.
Qed.

Section Cancellers.
Variable cancellers : nat.
#[local] Abbreviation wpc := (wpc external (Inv ch cancellers) (Guar ch)).
#[local] Abbreviation stable := (stable (Inv ch cancellers) (Guar ch)).

Lemma wpc_keep {A} t (a : A) (F : global W -> Prop) (Q : A -> global W -> Prop) g :
  stable t F -> F g -> (forall g, F g -> Q a g) -> wpc t (Ret a) Q g.
Proof. intros Hst Hg HQ. apply wpc_ret with (P := F); auto. Qed.

Lemma wpc_c_canceller t (h : ptr) s (F : global W -> Prop) g :
  (t <= cancellers)%nat -> h <> 0 -> cancels s !! h = Some ch -> stable t F -> about_end ch F -> F g ->
  wpc t (c_canceller h s) (fun _ => F) g.
Proof using L.
  intros Ht Hh Hc Hst HF Hg. unfold c_canceller. rewrite aer_cancel_live by done.
  apply wpc_bind, wpc_bind, wpc_bind, wpc_bind. eapply wpc_mono; [|by apply wpc_cancel].
  intros [] g1 _ Hg1. do 4 (eapply wpc_keep; [done..|]; intros ? ?). done.
Qed.

(** The C callback keeps what the run knows of the end of the handle. *)
Lemma callback_polite wants (h : ptr) s :
  h <> 0 -> cancels s !! h = Some ch ->
  polite external ch cancellers (on_event (Some (cancelling_callback wants h s))).
Proof using L.
  intros Hh Hc ev F g Hst HF Hg. unfold on_event, cancelling_callback.
  apply wpc_bind. apply wpc_apart_act with (F := F);
    [done|by apply about_end_view|done|done|]. intros [] g1 Hg1 _.
  apply wpc_mono with (Q := fun _ => F); [intros [] g2 _ Hg2; by eapply wpc_keep|].
  destruct (wants (c_event ev)); [apply wpc_c_canceller; [lia|done..]|by eapply wpc_keep].
Qed.

(** The outcome of the run, as the caller of [aer_task_run] finds it. *)
Definition c_agrees (p : ptr) (task : Task) (s : FfiState)
    (r : option (outcome AerErrorCode.t * FfiState)) (g : global W) : Prop :=
  exists out, agrees ch out g /\
    r = Some (Val (run_code out),
          mkFfiState (<[p := mkAerTask (Some task) true (Some ch)]> (tasks s)) (cancels s)
            (run_message io_fmt out) (next_ptr s)).

Lemma wpc_aer_task_run (p : ptr) task callback s g :
  p <> 0 -> tasks s !! p = Some (mkAerTask (Some task) false (Some ch)) ->
  polite external ch cancellers (on_event callback) ->
  wpc 0%nat (aer_task_run io_fmt p callback s) (c_agrees p task s) g.
Proof using L.
  intros Hp%Z.eqb_neq Ht Hcb.
  set (s1 := mkFfiState (<[p := mkAerTask (Some task) true (Some ch)]> (tasks s)) (cancels s)
               (last_error s) (next_ptr s)).
  assert (aer_task_run io_fmt p callback s =
    catch AerErrorCode.Panic (fun _ => fbind (fun _ =>
        unwinding (run_impl task (on_event callback) (Some ch)) s1)
      (fun result => match result with
                     | Ok _ => clear_last_error ;;- fret AerErrorCode.Ok
                     | Err e => map_aer_error io_fmt e
                     end) s) s) as ->.
  { unfold aer_task_run, catch, fbind, deref, must. by rewrite Hp, Ht. }
  apply wpc_bind, wpc_bind, wpc_bind. eapply wpc_mono; [|by apply wpc_run_impl].
  intros out g1 _ Hout.
  assert (stable 0%nat (fun g : global W => agrees ch out g)) as Hst by apply agrees_stable.
  eapply wpc_keep; [done..|]. intros g2 Hg2.
  destruct out as [[[]|[]]|pay]; (do 2 (eapply wpc_keep; [exact Hst|done|]; intros ? ?));
    eexists; (split; [done|reflexivity]).
Qed.
End Cancellers.

(** *** The threads' own steps *)

(** What follows [cancel] in [aer_cancel] takes no step. *)
Lemma exec_then_ret {A B} (p : prog A) (f : A -> prog B) tr r :
  (forall a, returned (f a)) -> exec (bind p f) tr r ->
  exists r', exec p tr r' /\ (is_Some r -> is_Some r').
Proof.
  intros Hf [[-> Hex]|(a & tr1 & tr2 & -> & Hex & Hk)]%exec_bind_inv; [by exists None|].
  exists (Some a). split; [|done]. specialize (Hf a). destruct (f a); try done.
  destruct Hk as [-> _]. by rewrite app_nil_r.
Qed.

Lemma c_canceller_exec (h : ptr) s tr r :
  h <> 0 -> cancels s !! h = Some ch -> exec (c_canceller h s) tr r ->
  exists r', exec (cancel ch) tr r' /\ (is_Some r -> is_Some r').
Proof.
  intros Hh Hc Hex. unfold c_canceller in Hex. rewrite aer_cancel_live in Hex by done.
  apply exec_then_ret in Hex as (r1 & Hex & H1); [|done].
  apply exec_then_ret in Hex as (r2 & Hex & H2); [|by intros [[[a|q] s1]|]].
  apply exec_then_ret in Hex as (r3 & Hex & H3); [|by intros [[[a|q] s1]|]].
  apply exec_then_ret in Hex as (r4 & Hex & H4); [|done].
  exists r4. by auto 10.
Qed.

Lemma callback_obliging wants (h : ptr) s :
  h <> 0 -> cancels s !! h = Some ch ->
  obliging ch (on_event (Some (cancelling_callback wants h s))).
Proof using L K.
  intros Hh Hc ev. unfold on_event, cancelling_callback.
  assert (forall tr r, exec (c_canceller h s) tr r -> Forall (unset ch) tr) as Hu.
  { intros tr r (r' & Hex & _)%c_canceller_exec; [|done..]. by apply (cancel_unset ch _ _ Hex). }
  split.
  - apply full_bind with (R := fun _ => True); [|intros ? _; by apply full_ret].
    apply full_act. intros ? _. split; [done|]. destruct (wants (c_event ev)); [|by apply full_ret].
    intros tr [] (r' & Hex & Hr)%c_canceller_exec Hcl; [|done..].
    destruct Hr as [[] ->]; [done|]. by apply (full_cancel ch (fun _ => True) I _ _ Hex Hcl).
  - all_obs_solve ltac:(done).
Qed.

(** The race, in the terms of Race.v. *)
Lemma c_race_ok (p h : ptr) task wants s messages g :
  p <> 0 -> h <> 0 ->
  tasks s !! p = Some (mkAerTask (Some task) false (Some ch)) -> cancels s !! h = Some ch ->
  fresh ch g ->
  pool_ok external (Inv ch (length messages)) (Guar ch) (c_agrees p task s)
    (c_race p h wants s messages g).
Proof using L.
  intros Hp Hh Ht Hc Hg. split_and!; simpl.
  - by apply fresh_inv.
  - apply wpc_aer_task_run; [done|done|]. by apply callback_polite.
  - intros i q Hi. apply list_lookup_fmap_Some in Hi as (m & -> & Hm). apply lookup_lt_Some in Hm.
    by apply (wpc_c_canceller _ (S i) h (on_thread s m) (fun _ => True)).
Qed.

Lemma c_race_told (p h : ptr) task wants s messages g c code s' :
  p <> 0 -> h <> 0 ->
  tasks s !! p = Some (mkAerTask (Some task) false (Some ch)) -> cancels s !! h = Some ch ->
  fresh ch g -> reachable external (c_race p h wants s messages g) c ->
  main c = Ret (Some (Val code, s')) -> (code = AerErrorCode.Ok \/ code = AerErrorCode.Cancelled) ->
  exists k, told ch (length messages) task k (state c).
Proof using L K.
  intros Hp Hh Ht Hc Hg Hr Hm Hcode.
  pose proof Hg as (Hd & _ & _ & _ & _ & Hs & Hl & _).
  pose proof (c_race_ok _ _ _ wants _ messages _ Hp Hh Ht Hc Hg) as Hok.
  pose proof (main_exec_done external (c_race p h wants s messages g) c Hl Hr _ Hm) as Hex.
  eapply (aer_task_run_exec io_fmt p _ s _ task) in Hex as (out & Hex & Eo & _); [|done..].
  injection Eo as Eo.
  assert (exists r, out = Val r /\ conclusive r) as (r & -> & Hcr).
  { subst code. destruct out as [[[]|[]]|]; destruct Hcode as [?|?]; try done; eexists; split; try done;
      [by left|by do 2 right]. }
  destruct (run_kills ch _ (callback_obliging wants h s Hh Hc) Hd _ _ _ Hex Hcr) as (Hpr & _ & k & Hk & Hset).
  { by eapply own_clean; [exact Hok|..]. }
  exists k. split; [exact (proj1 (pool_sound _ _ _ _ _ _ Hok Hr))|]. split; [done|]. split.
  - intros t Hle. destruct t as [|i]; [lia|].
    destruct (lookup_lt_is_Some_2 messages i) as [m Hi]; [lia|].
    assert (others (c_race p h wants s messages g) !! i = Some (c_canceller h (on_thread s m))) as Ho
      by (simpl; by rewrite list_lookup_fmap, Hi).
    destruct (program_exec external (c_race p h wants s messages g) c Hl Hr i _
      (initial_program _ _ _ _ Ho)) as [Hci _].
    destruct (c_canceller_exec h (on_thread s m) _ _ Hh Hc Hci) as (r' & Hcc & _).
    by eapply cancel_candid.
  - intros t o k' Hin Ho. eapply (slot_history external _ (c_race p h wants s messages g) c); try done.
    simpl. rewrite Hl. constructor.
Qed.

(** ** Properties *)

(** C23: Whatever the interleaving of a run with any number of [aer_cancel] calls
    by other threads and by the run's own C callback: of a run that answers
    [AER_OK] no thread that may cancel has taken a step that kills, but for the
    run's own after its wait for the child, and it leaves no message; of one that
    answers [AER_CANCELLED] one of these threads has carried out, to its end, the
    kill of the very process the run spawned, and it leaves the message of a
    cancelled run on the running thread, whose last-error slot the other threads
    do not touch. The call never ends in undefined behaviour and the handle is
    spent. *)
Theorem c_cancel_outcome (p h : ptr) task wants s messages g c r :
  p <> 0 -> h <> 0 ->
  tasks s !! p = Some (mkAerTask (Some task) false (Some ch)) -> cancels s !! h = Some ch ->
  fresh ch g -> reachable external (c_race p h wants s messages g) c -> main c = Ret r ->
  exists code s', r = Some (Val code, s') /\
    (code = AerErrorCode.Ok ->
       flag (memory (state c)) (kill_fired ch) = false /\
       (forall t, (t <= length messages)%nat -> ~ struck (own t (log (state c)))) /\
       last_error s' = None) /\
    (code = AerErrorCode.Cancelled ->
       flag (memory (state c)) (kill_fired ch) = true /\
       (exists t k, (t <= length messages)%nat /\ run_handle task k (own 0%nat (log (state c))) /\
          carried ch k (own t (log (state c)))) /\
       last_error s' = Some (AerError.fmt io_fmt AerError.Cancelled)) /\
    tasks s' !! p = Some (mkAerTask (Some task) true (Some ch)).
Proof using L K.
  intros Hp Hh Ht Hc Hg Hr Hm.
  pose proof (pool_sound _ _ _ _ _ _ (c_race_ok _ _ _ wants _ messages _ Hp Hh Ht Hc Hg) Hr) as Hok.
  destruct (pool_ok_returned _ _ _ _ _ _ Hok Hm) as (out & [Ho Hcc] & ->).
  pose proof (c_race_told p h task wants s messages g c _ _ Hp Hh Ht Hc Hg Hr Hm) as Htold.
  eexists _, _. split; [done|]. split; [|split; [|simpl; by rewrite lookup_insert_eq]].
  - intros E. destruct (Htold (or_introl E)) as [k Hk]. destruct out as [[[]|[]]|]; try done.
    destruct (Ho eq_refl) as [Hf Hs]. split; [done|]. split; [|done].
    intros t Hle. by apply (told_spared _ _ _ _ _ _ Hk).
  - intros E. destruct (Htold (or_intror E)) as [k Hk]. destruct out as [[[]|[]]|]; try done.
    destruct (Hcc eq_refl) as [Hf Hs]. split; [done|]. split; [|done].
    destruct (told_killed _ _ _ _ _ Hk Hf Hs) as (t & Hle & Hkk). exists t, k.
    split_and!; [done|apply Hk|done].
Qed.
End CRace.
