(* ===== verification/CEvents.v ===== *)
(** * The events of the C interface are the events of [Task::run]

    A run with the C callback of ffi.rs is a run with the Rust callback, step
    for step, with each event handed over as its C struct (or dropped, when the
    caller passed no callback). The theorems of Lifecycle.v carry over. *)

From Stdlib Require Import ZArith.
From stdpp Require Import base numbers list strings gmap.
From S2P Require Import Prelude Core Machine Sys Prog Os Task Run Lifecycle Ffi Boundary.

Open Scope Z_scope.

(** ** Decoding *)

(** What the documentation of [AerEvent] says of its fields. *)
Definition decode_reason (r : Z) : option ExitReason.t :=
  match r with
  | 0 => Some ExitReason.NaturalExit
  | 1 => Some ExitReason.TimedOut
  | 2 => Some ExitReason.CancelRequested
  | _ => None
  end.

Definition decode_event (e : AerEvent) : option Event.t :=
  match ev_kind e with
  | 0 => Some (Event.Started (ev_pid e))
  | 1 => Event.Exited (ev_code e) <$> decode_reason (ev_reason e)
  | 2 => Event.StdoutChunk (ev_seq e) <$> (take (Z.to_nat (ev_data_len e)) <$> ev_data e)
  | 3 => Event.StderrChunk (ev_seq e) <$> (take (Z.to_nat (ev_data_len e)) <$> ev_data e)
  | _ => None
  end.

(** ** The simulation *)

Section CSim.
Variable cb : bool.

Definition silent (o : obs) : Prop := obs_event o = None /\ obs_cevent o = None.

(** The C trace that stands for a Rust trace. *)
Inductive c_of : list obs -> list obs -> Prop :=
  | c_of_nil : c_of [] []
  | c_of_silent o tr tr' : silent o -> c_of tr tr' -> c_of (o :: tr) (o :: tr')
  | c_of_event ev tr tr' :
      c_of tr tr' ->
      c_of (Obs (Callback ev) (Val tt) :: tr)
        ((if cb then [Obs (CCallback (c_event ev)) tt] else []) ++ tr').

Definition csim {A} (p q : prog A) : Prop :=
  forall tr r, exec p tr r -> exists tr', exec q tr' r /\ c_of tr' tr.

Lemma c_of_app tr1 tr1' tr2 tr2' : c_of tr1 tr1' -> c_of tr2 tr2' -> c_of (tr1 ++ tr2) (tr1' ++ tr2').
Proof.
  induction 1 as [|o tr tr' Ho _ IH|ev tr tr' _ IH]; intros H2; simpl; [done| |].
  - constructor; auto.
  - rewrite <- app_assoc. constructor; auto.
Qed.

Lemma c_of_events tr tr' : c_of tr tr' -> cevents tr' = if cb then c_event <$> events tr else [].
Proof.
  induction 1 as [|o tr tr' [Ho Ho'] _ IH|ev tr tr' _ IH]; [by destruct cb| |].
  - unfold events, cevents in *. simpl. by rewrite Ho, Ho'.
  - rewrite cevents_app, IH. by destruct cb.
Qed.

Lemma csim_bind {A B} (p q : prog A) (f g : A -> prog B) :
  csim p q -> (forall a, csim (f a) (g a)) -> csim (bind p f) (bind q g).
Proof.
  intros Hp Hf tr r [[-> Hex]|(a & tr1 & tr2 & -> & H1 & H2)]%exec_bind_inv.
  - destruct (Hp _ _ Hex) as (tr' & Hq & Hc). exists tr'. split; [|done].
    clear Hex Hc Hf Hp. revert tr' Hq. clear p.
    induction q as [A a|A X e k IH|A body _ k IH|A I R body _ i k IH]; intros tr' Hq.
    + destruct Hq as [-> _]. apply exec_nil.
    + destruct Hq as [[-> _]|(x & tr2 & -> & Hq)]; [apply exec_nil|].
      right. exists x, tr2. split; [done|]. by apply IH.
    + destruct Hq as [[-> _]|(x & tr2 & -> & Hq)]; [apply exec_nil|].
      right. exists x, tr2. split; [done|]. by apply IH.
    + change (iter_exec (fun i => exec (body i)) (fun x => exec (bind (k x) g)) i tr' None).
      change (iter_exec (fun i => exec (body i)) (fun x => exec (k x)) i tr' None) in Hq.
      remember None as o eqn:Ho. induction Hq; subst.
      * by apply iter_exec_cut.
      * by eapply iter_exec_next; eauto.
      * eapply iter_exec_done; [done|]. by apply IH.
  - destruct (Hp _ _ H1) as (tr1' & Hq & Hc). destruct (Hf _ _ _ H2) as (tr2' & Hq2 & Hc2).
    exists (tr1' ++ tr2'). split; [by eapply exec_bind|by apply c_of_app].
Qed.

Lemma csim_iter {I R} (body body' : I -> prog (I + R)) i :
  (forall i, csim (body i) (body' i)) -> csim (iter body i) (iter body' i).
Proof.
  intros Hb tr r Hex. unfold iter in *.
  change (iter_exec (fun i => exec (body i)) (fun x => exec (Ret x)) i tr r) in Hex.
  change (exists tr', iter_exec (fun i => exec (body' i)) (fun x => exec (Ret x)) i tr' r /\ c_of tr' tr).
  induction Hex as [i tr Hex|i i' tr tr' r Hex _ IH|i x tr tr' r Hex Hc].
  - destruct (Hb _ _ _ Hex) as (tr' & ? & ?). exists tr'. split; [by apply iter_exec_cut|done].
  - destruct (Hb _ _ _ Hex) as (tr1 & ? & ?), IH as (tr2 & ? & ?).
    exists (tr1 ++ tr2). split; [by eapply iter_exec_next|by apply c_of_app].
  - destruct (Hb _ _ _ Hex) as (tr1 & ? & ?). destruct Hc as [-> Hr].
    exists (tr1 ++ []). split; [|by apply c_of_app; [|constructor]].
    eapply iter_exec_done; [done|]. by split.
Qed.

Lemma csim_silent {A} (p : prog A) : all_obs silent p -> csim p p.
Proof.
  intros Hp tr r Hex. exists tr. split; [done|]. specialize (Hp _ _ Hex). clear Hex.
  induction Hp; constructor; auto.
Qed.

Lemma csim_ret {A} (a : A) : csim (Ret a) (Ret a).
Proof. apply csim_silent, all_obs_ret. Qed.

Lemma csim_event ev : csim (on_event (c_callback cb) ev) (rust_callback ev).
Proof.
  intros tr r Hex. unfold on_event, c_callback in Hex. unfold rust_callback. destruct cb eqn:E.
  - apply exec_bind_inv in Hex as [[-> Hex]|([] & tr1 & tr2 & -> & Hex & Hr)].
    + destruct Hex as [[-> _]|([] & tr' & -> & -> & _)]; [by exists []; split; [apply exec_nil|constructor]|].
      exists [Obs (Callback ev) (Val tt)]. split.
      * right. exists (Val tt), []. split; [done|]. apply exec_nil.
      * pose proof (c_of_event ev [] [] c_of_nil) as Hc. by rewrite E in Hc.
    + apply exec_do_act_Some in Hex as ->. destruct Hr as [-> Hr].
      exists [Obs (Callback ev) (Val tt)]. split.
      * right. exists (Val tt), []. split; [done|]. by split.
      * pose proof (c_of_event ev [] [] c_of_nil) as Hc. by rewrite E in Hc.
  - destruct Hex as [-> Hr]. exists (match r with None => [] | Some _ => [Obs (Callback ev) (Val tt)] end).
    destruct Hr as [-> | ->]; split.
    + apply exec_nil.
    + constructor.
    + by apply exec_do_act_Some.
    + pose proof (c_of_event ev [] [] c_of_nil) as Hc. by rewrite E in Hc.
Qed.

Context `{P : OsProcess} {L : OsProcessLaws P}.

Lemma os_obs_silent o : os_obs o -> silent o.
Proof. destruct o as [X e x|]; [|done]. destruct e; done. Qed.

Lemma csim_os {A} (p : prog A) : all_obs os_obs p -> csim p p.
Proof. intros Hp. apply csim_silent. eapply all_obs_impl; [exact os_obs_silent|done]. Qed.

#[local] Hint Resolve os_spawn_obs os_wait_obs os_kill_obs os_alive_obs os_reap_obs : aer.

Ltac csim_step :=
  lazymatch goal with
  | |- csim (bind _ _) (bind _ _) => apply csim_bind; [|intros]
  | |- csim (Ret _) (Ret _) => apply csim_ret
  | |- csim (do_act _) (do_act _) => apply csim_silent, all_obs_act; by split
  | |- csim (on_event _ _) (rust_callback _) => apply csim_event
  | |- csim (match ?x with _ => _ end) _ => destruct x
  end.

Lemma csim_thread_spawn body captured :
  all_obs silent captured -> csim (thread_spawn body captured) (thread_spawn body captured).
Proof.
  intros Hc. apply csim_silent. unfold thread_spawn. all_obs_solve ltac:(done).
Qed.

Lemma csim_pump chunk_ch : csim (pump (on_event (c_callback cb)) chunk_ch) (pump rust_callback chunk_ch).
Proof. apply csim_iter. intros []. unfold pump_round. repeat csim_step. Qed.

Lemma csim_wait_capturing handle :
  csim (wait_capturing (on_event (c_callback cb)) handle) (wait_capturing rust_callback handle).
Proof.
  unfold wait_capturing. repeat csim_step.
  - apply csim_thread_spawn. all_obs_solve ltac:(done).
  - apply csim_pump.
Qed.

Lemma csim_finish ch machine timed_out cancel_ch os_code :
  csim (finish (on_event (c_callback cb)) ch machine timed_out cancel_ch os_code)
    (finish rust_callback ch machine timed_out cancel_ch os_code).
Proof.
  unfold finish, unwire_cancel, set_kill. repeat csim_step; apply csim_os; auto with aer.
Qed.

Lemma csim_wire ch k : csim (wire_cancel ch k) (wire_cancel ch k).
Proof.
  unfold wire_cancel, set_kill. repeat csim_step; apply csim_os; solve [auto with aer].
Qed.

Lemma csim_run_impl task ch : csim (run_impl task (on_event (c_callback cb)) ch) (run_impl task rust_callback ch).
Proof.
  unfold run_impl, guarded_body, guard_drop, drop_handle, start_monitor, wait_discarding.
  repeat csim_step; try (apply csim_os; solve [auto with aer]).
  - apply csim_wire.
  - apply csim_thread_spawn. all_obs_solve ltac:(done).
  - apply csim_wait_capturing.
  - apply csim_finish.
Qed.
End CSim.

(** ** Properties *)

Section CRun.
Context `{P : OsProcess} {L : OsProcessLaws P}.

(** C25: Every execution of a run with the C callback is an execution of the run
    with the Rust callback, with the same result, in which the C function was
    handed exactly the structs of the events, in order, and nothing when there
    is no C function. *)
Theorem c_run_refines task ch cb tr r :
  exec (run_impl task (on_event (c_callback cb)) ch) tr r ->
  exists tr', exec (run_impl task rust_callback ch) tr' r /\ c_of cb tr' tr /\
    cevents tr = if cb then c_event <$> events tr' else [].
Proof.
  intros (tr' & Hex & Hc)%(csim_run_impl cb). exists tr'. split_and!; [done|done|by apply c_of_events].
Qed.

End CRun.

(** C40: The structs carry the whole event: reading the fields that [kind] makes
    valid, as documented, gives the event back. *)
Theorem c_event_decode ev : decode_event (c_event ev) = Some ev.
Proof.
  destruct ev as [pid|code reason|seq bytes|seq bytes]; simpl.
  - done.
  - by destruct reason.
  - unfold decode_event. simpl. by rewrite Nat2Z.id, take_ge.
  - unfold decode_event. simpl. by rewrite Nat2Z.id, take_ge.
Qed.
