(* ===== verification/Args.v ===== *)
(** * The arguments of the C interface

    Exactly which arguments [aer_task_new] and the builders accept, and what
    each of them does on every answer: the arguments are checked before
    anything changes, and a refused call leaves the state as it was. *)

From Stdlib Require Import ZArith Strings.Byte Strings.String.
From stdpp Require Import base numbers list strings gmap.
From S2P Require Import Prelude Core Sys Prog Task Utf8 Cstr Ffi Boundary.

Open Scope Z_scope.

(** A call that does nothing but answer and change the state. *)
Definition answers {A} (m : ffi A) (s : FfiState) (a : A) (s' : FfiState) : Prop :=
  m s = Ret (Some (Val a, s')).

Lemma answers_ret {A} (a : A) s : answers (fret a) s a s.
Proof. done. Qed.

Lemma answers_bind {A B} (m : ffi A) (f : A -> ffi B) s a s1 b s2 :
  answers m s a s1 -> answers (f a) s1 b s2 -> answers (fbind m f) s b s2.
Proof. unfold answers, fbind. intros -> Hf. exact Hf. Qed.

Lemma answers_catch {A} (x : A) m s a s' : answers m s a s' -> answers (catch x m) s a s'.
Proof. unfold answers, catch. by intros ->. Qed.

Lemma answers_cstr bytes s :
  x00 ∉ bytes -> answers (must (CStr_from_ptr (bytes ++ [x00]))) s bytes s.
Proof. intros Hb. unfold answers, must. by rewrite CStr_from_ptr_bytes. Qed.

Lemma answers_deref (p : ptr) s t : tasks s !! p = Some t -> answers (deref p) s t s.
Proof. intros Hp. unfold answers, deref, must. by rewrite Hp. Qed.

(** The state after a successful builder call on [p]. *)
Definition rebuilt (p : ptr) (t : AerTask) (task : Task) (s : FfiState) : FfiState :=
  mkFfiState (<[p := mkAerTask (Some task) (has_run t) (task_cancel t)]> (tasks s)) (cancels s) None
    (next_ptr s).

Lemma answers_rebuild (p : ptr) t task f s :
  inner t = Some task -> answers (rebuild p t f) s AerErrorCode.Ok (rebuilt p t (f task) s).
Proof. intros Hi. unfold answers, rebuild. by rewrite Hi. Qed.

(** ** [aer_task_new] *)

Lemma read_args_answers args rest s :
  Forall no_nul args ->
  answers (read_args ((carg <$> args) ++ rest) (length args)) s
    (if forallb usable args then Some (arg_string <$> args) else None) s.
Proof.
  induction 1 as [|a args Ha Hargs IH]; [by rewrite read_args_O|].
  simpl length. rewrite read_args_S. rewrite fmap_cons. simpl app. destruct a as [bytes|]; [|done].
  simpl carg. cbv iota. eapply answers_bind; [by apply answers_cstr|]. simpl.
  unfold to_str. destruct (utf8_valid bytes); [|done].
  eapply answers_bind; [exact IH|]. simpl. by destruct (forallb usable args).
Qed.

(** The box of a new task. *)
Definition boxed (task : Task) (s : FfiState) : FfiState :=
  mkFfiState (<[next_ptr s := mkAerTask (Some task) false None]> (tasks s)) (cancels s)
    (last_error s) (next_ptr s + 1).

(** C36: [aer_task_new] makes a task exactly when the program and each of the
    [args_len] arguments is a C string of valid UTF-8 and there are at most
    65536 of them; the task holds these strings. Otherwise it answers null and
    changes nothing. A null array is accepted only for no arguments, whatever
    [args_len] says. *)
Theorem aer_task_new_spec program args rest args_len s :
  no_nul program ->
  match args with
  | Some args => Forall no_nul args /\ args_len = Z.of_nat (length args)
  | None => 0 <= args_len
  end ->
  let ok := usable program && (args_len <=? MAX_ARGS_LEN) &&
              match args with
              | Some args => forallb usable args
              | None => args_len =? 0
              end in
  aer_task_new (carg program) ((fun args => (carg <$> args) ++ rest) <$> args) args_len s =
  Ret (Some (if ok
             then (Val (next_ptr s),
                   boxed (Task_new (arg_string program) (arg_string <$> default [] args)) s)
             else (Val 0, s))).
Proof.
  intros Hp Hargs ok. destruct program as [prog|]; [|done].
  set (arr := (fun args => (carg <$> args) ++ rest) <$> args).
  assert (forall a s', answers
    (match to_str prog with
     | Err _ => fret 0
     | Ok program_str =>
         if MAX_ARGS_LEN <? args_len then fret 0
         else if (0 <? args_len) && bool_decide (arr = None) then fret 0
         else
           call! arg_strings := read_args (default [] arr) (Z.to_nat args_len) in
           match arg_strings with
           | None => fret 0
           | Some arg_strings =>
               box_task (mkAerTask (Some (Task_new program_str arg_strings)) false None)
           end
     end) s a s' ->
    aer_task_new (Mem (prog ++ [x00])) arr args_len s = Ret (Some (Val a, s'))) as Hbody.
  { intros a s' Ha. apply answers_catch. by eapply answers_bind; [apply answers_cstr|]. }
  subst ok. simpl usable. unfold to_str in Hbody. simpl carg.
  rewrite (Z.leb_antisym MAX_ARGS_LEN args_len).
  destruct (utf8_valid prog); simpl; [|by apply Hbody].
  destruct (MAX_ARGS_LEN <? args_len); simpl; [by apply Hbody|].
  destruct args as [args|]; simpl in arr, Hbody |- *.
  - destruct Hargs as [Hargs ->]. pose proof (read_args_answers args rest s Hargs) as Hread.
    rewrite andb_false_r, Nat2Z.id in Hbody.
    destruct (forallb usable args); simpl; apply Hbody; by eapply answers_bind.
  - destruct (Z.eqb_spec args_len 0) as [->|Hne]; [|by apply Hbody; destruct (Z.ltb_spec 0 args_len); [|lia]].
    apply Hbody. apply (answers_bind _ _ _ (Some []) s); [|done].
    done.
Qed.

(** An absurd [args_len] is refused before any argument is read: whatever is
    behind the pointer, the answer is null and nothing changes. *)
Theorem aer_task_new_bounded program arr args_len s :
  no_nul program -> MAX_ARGS_LEN < args_len ->
  aer_task_new (carg program) arr args_len s = Ret (Some (Val 0, s)).
Proof.
  intros Hp Hm%Z.ltb_lt. destruct program as [prog|]; [|done]. apply answers_catch.
  eapply answers_bind; [by apply answers_cstr|]. simpl. unfold to_str. rewrite Hm.
  by destruct (utf8_valid prog).
Qed.

(** ** The builders *)

(** The keys [aer_task_set_env] accepts. *)
Definition valid_key (key : list byte) : bool :=
  negb (bool_decide (key = [])) && negb (bool_decide (x3d ∈ key)).

Lemma valid_key_spec key :
  is_empty (string_of_list_byte key) || contains EQUALS (string_of_list_byte key) =
  negb (valid_key key).
Proof.
  unfold valid_key. rewrite is_empty_bytes, <- negb_orb, negb_involutive. f_equal.
  apply eq_true_iff_eq. rewrite bool_decide_eq_true.
  change EQUALS with (Ascii.ascii_of_byte x3d). apply contains_byte.
Qed.

(** C37: [aer_task_set_env] on a live, unrun task, for every argument: a null
    pointer, a key or value that is not UTF-8, an empty key and a key with '='
    are refused and change nothing; any other call is [Task::with_env]. *)
Theorem aer_task_set_env_spec (p : ptr) t task key value s :
  p <> 0 -> tasks s !! p = Some t -> has_run t = false -> inner t = Some task ->
  no_nul key -> no_nul value ->
  aer_task_set_env p (carg key) (carg value) s =
  Ret (Some match key, value with
            | Some k, Some v =>
                if utf8_valid k && utf8_valid v && valid_key k then
                  (Val AerErrorCode.Ok,
                   rebuilt p t (with_env (string_of_list_byte k) (string_of_list_byte v) task) s)
                else (Val AerErrorCode.InvalidArgument, s)
            | _, _ => (Val AerErrorCode.NullPointer, s)
            end).
Proof.
  intros Hp%Z.eqb_neq Ht Hr Hi Hk Hv. destruct key as [k|], value as [v|]; try done.
  cut (forall a s', answers
    (match to_str k with
     | Err _ => fret AerErrorCode.InvalidArgument
     | Ok key_str =>
         call! value_bytes := must (CStr_from_ptr (v ++ [x00])) in
         match to_str value_bytes with
         | Err _ => fret AerErrorCode.InvalidArgument
         | Ok value_str =>
             if is_empty key_str || contains EQUALS key_str
             then fret AerErrorCode.InvalidArgument
             else rebuild p t (with_env key_str value_str)
         end
     end) s a s' ->
    aer_task_set_env p (Mem (k ++ [x00])) (Mem (v ++ [x00])) s = Ret (Some (Val a, s'))).
  - intros Hbody. unfold to_str in Hbody. simpl carg.
    destruct (utf8_valid k); simpl; [|by apply Hbody].
    rewrite valid_key_spec in Hbody.
    destruct (utf8_valid v) eqn:Hu; simpl; destruct (valid_key k); simpl; apply Hbody;
      (eapply answers_bind; [by apply answers_cstr|]); rewrite Hu; try done;
      by apply answers_rebuild.
  - intros a s' Ha. apply answers_catch. rewrite Hp.
    eapply answers_bind; [by apply answers_deref|]. simpl. rewrite Hr.
    by eapply answers_bind; [apply answers_cstr|].
Qed.

(** C38: The other builders on a live, unrun task: exactly the builders of [Task],
    with a null, non-UTF-8 or empty path refused. *)
Theorem aer_builders_spec (p : ptr) t task s :
  p <> 0 -> tasks s !! p = Some t -> has_run t = false -> inner t = Some task ->
  (forall ms, aer_task_with_timeout p ms s =
     Ret (Some (Val AerErrorCode.Ok, rebuilt p t (with_timeout (from_millis ms) task) s))) /\
  (forall b, aer_task_with_capture_output p b s =
     Ret (Some (Val AerErrorCode.Ok, rebuilt p t (with_capture_output b task) s))) /\
  (forall b, aer_task_set_clear_env p b s =
     Ret (Some (Val AerErrorCode.Ok, rebuilt p t (with_clear_env b task) s))) /\
  (forall path, no_nul path ->
     aer_task_set_cwd p (carg path) s =
     Ret (Some match path with
               | None => (Val AerErrorCode.NullPointer, s)
               | Some bytes =>
                   if utf8_valid bytes && negb (bool_decide (bytes = [])) then
                     (Val AerErrorCode.Ok,
                      rebuilt p t (with_cwd (string_of_list_byte bytes) task) s)
                   else (Val AerErrorCode.InvalidArgument, s)
               end)).
Proof.
  intros Hp%Z.eqb_neq Ht Hr Hi.
  assert (forall f, answers (rebuild p t f) s AerErrorCode.Ok (rebuilt p t (f task) s)) as Hre
    by (intros; by apply answers_rebuild).
  assert (forall A (f : AerTask -> ffi A) a s', answers (f t) s a s' ->
    answers (if p =? 0 then must None else fbind (deref p) f) s a s') as Hd.
  { intros A f a s' Ha. rewrite Hp. by eapply answers_bind; [apply answers_deref|]. }
  split_and!; intros; [apply answers_catch; rewrite Hp;
    (eapply answers_bind; [by apply answers_deref|]); simpl; rewrite Hr; apply Hre ..|].
  destruct path as [bytes|]; [|done].
  cut (forall a s', answers
    (match to_str bytes with
     | Err _ => fret AerErrorCode.InvalidArgument
     | Ok path_str =>
         if is_empty path_str then fret AerErrorCode.InvalidArgument
         else rebuild p t (with_cwd path_str)
     end) s a s' ->
    aer_task_set_cwd p (Mem (bytes ++ [x00])) s = Ret (Some (Val a, s'))).
  - intros Hbody. unfold to_str in Hbody. simpl carg.
    destruct (utf8_valid bytes); simpl; [|by apply Hbody].
    rewrite is_empty_bytes in Hbody.
    destruct (bool_decide (bytes = [])); simpl; apply Hbody; [done|apply Hre].
  - intros a s' Ha. apply answers_catch. rewrite Hp.
    eapply answers_bind; [by apply answers_deref|]. simpl. rewrite Hr.
    by eapply answers_bind; [apply answers_cstr|].
Qed.
