(* ===== verification/Sim.v ===== *)
(** * A simulated system

    A deterministic system the programs run on ([Prog.run]): a clock that
    advances by what is slept, one child process with given output and wait
    status, a memory ([Pool.mem_step]), and threads that run when they are
    created, up to a given nesting. The concrete runs of the other files
    execute here. *)

From Stdlib Require Import ZArith.
From stdpp Require Import base numbers list strings gmap.
From S2P Require Import Prelude Core Sys Prog Os Unix Pool Delivery Types.

Open Scope Z_scope.

Record sim : Type := mkSim {
  sim_now : Z;
  sim_mem : mem;
  (** What the spawn answers, and the child's wait status. *)
  sim_spawn : Result Child io_Error;
  sim_status : Result ExitStatus io_Error;
  (** Whether the tree is there, and whether it dies of SIGTERM. *)
  sim_alive : bool;
  sim_term : bool;
  (** What is left in the two pipes. *)
  sim_out : list (list Byte.byte);
  sim_err : list (list Byte.byte);
  (** What the callback answers. *)
  sim_callback : Event.t -> outcome unit;
  (** Whether the deadline of a timed receive has passed. *)
  sim_elapsed : bool;
  sim_threads : nat
}.

Definition with_mem (m : mem) (w : sim) : sim :=
  mkSim (sim_now w) m (sim_spawn w) (sim_status w) (sim_alive w) (sim_term w) (sim_out w)
    (sim_err w) (sim_callback w) (sim_elapsed w) (sim_threads w).
Definition with_now (t : Z) (w : sim) : sim :=
  mkSim t (sim_mem w) (sim_spawn w) (sim_status w) (sim_alive w) (sim_term w) (sim_out w)
    (sim_err w) (sim_callback w) (sim_elapsed w) (sim_threads w).
Definition with_alive (b : bool) (w : sim) : sim :=
  mkSim (sim_now w) (sim_mem w) (sim_spawn w) (sim_status w) b (sim_term w) (sim_out w)
    (sim_err w) (sim_callback w) (sim_elapsed w) (sim_threads w).
Definition with_out (l : list (list Byte.byte)) (w : sim) : sim :=
  mkSim (sim_now w) (sim_mem w) (sim_spawn w) (sim_status w) (sim_alive w) (sim_term w) l
    (sim_err w) (sim_callback w) (sim_elapsed w) (sim_threads w).
Definition with_err (l : list (list Byte.byte)) (w : sim) : sim :=
  mkSim (sim_now w) (sim_mem w) (sim_spawn w) (sim_status w) (sim_alive w) (sim_term w) (sim_out w)
    l (sim_callback w) (sim_elapsed w) (sim_threads w).
Definition with_threads (n : nat) (w : sim) : sim :=
  mkSim (sim_now w) (sim_mem w) (sim_spawn w) (sim_status w) (sim_alive w) (sim_term w) (sim_out w)
    (sim_err w) (sim_callback w) (sim_elapsed w) n.

(** Sending [sig] to the tree. *)
Definition sim_signal (sig : Z) (w : sim) : c_ret * sim :=
  if sim_alive w then
    (mkRet 0 0,
     if (sig =? SIGKILL) || ((sig =? SIGTERM) && sim_term w) then with_alive false w else w)
  else (mkRet (-1) ESRCH, w).

Definition sim_read (p : Pipe) (w : sim) : Result (list Byte.byte) io_Error * sim :=
  match pipe_stream p with
  | OutStream =>
      match sim_out w with
      | [] => (Ok [], w)
      | bytes :: l => (Ok bytes, with_out l w)
      end
  | ErrStream =>
      match sim_err w with
      | [] => (Ok [], w)
      | bytes :: l => (Ok bytes, with_err l w)
      end
  end.

(** What [Command::spawn] documents: the child has the pipes it was asked for,
    and a [u32] for its pid. *)
Definition sim_pipe (how : Stdio) (pid : Z) (s : Stream) : option Pipe :=
  match how with
  | StdioPiped => Some (mkPipe pid s)
  | _ => None
  end.

Definition sim_spawned (cmd : Command) (r : Result Child io_Error) : Result Child io_Error :=
  match r with
  | Ok child =>
      let pid := child_id child mod 2 ^ 32 in
      Ok (mkChild pid (sim_pipe (cmd_stdout cmd) pid OutStream) (sim_pipe (cmd_stderr cmd) pid ErrStream))
  | Err e => Err e
  end.

(** One action; a blocking one that can never be answered gets the answer of a
    closed channel or an uncontended lock. *)
Definition sim_handle (X : Type) (e : act X) (w : sim) : X * sim :=
  match mem_step 0%nat (sim_elapsed w) e (sim_mem w) with
  | Answer x m => (x, with_mem m w)
  | Blocked | External =>
      match e in act X return X * sim with
      | Callback ev => (sim_callback w ev, w)
      | CCallback _ => (tt, w)
      | CommandSpawn cmd => (sim_spawned cmd (sim_spawn w), w)
      | ChildWait _ => (sim_status w, w)
      | ChildKill _ => (Ok tt, with_alive false w)
      | PipeRead p _ => sim_read p w
      | PipeToSink p =>
          (Ok 0, match pipe_stream p with OutStream => with_out [] w | ErrStream => with_err [] w end)
      | Killpg _ sig => sim_signal sig w
      | Kill _ sig => sim_signal sig w
      | Waitpid p _ => (mkRet p 0, w)
      | CreateJobObjectW => (mkRet 1 0, w)
      | SetInformationJobObject _ _ => (mkRet 1 0, w)
      | AssignProcessToJobObject _ _ => (mkRet 1 0, w)
      | TerminateJobObject _ _ => (mkRet 1 0, with_alive false w)
      | QueryActiveProcesses _ => ((mkRet 1 0, if sim_alive w then 1 else 0), w)
      | CloseHandle _ => (tt, w)
      | InstantNow => (sim_now w, w)
      | Sleep d => (tt, with_now (sim_now w + Z.max 0 d) w)
      | NewFlag _ => (0%nat, w)
      | Load _ => (false, w)
      | Store _ _ => (tt, w)
      | Swap _ _ => (false, w)
      | NewArc _ => (0%nat, w)
      | ArcClone _ => (tt, w)
      | ArcDrop _ => (false, w)
      | NewMutex => (0%nat, w)
      | Lock _ => (false, w)
      | GetSlot _ => (None, w)
      | SetSlot _ _ => (None, w)
      | Unlock _ => (tt, w)
      | NewChan _ => (mkChan 0%nat, w)
      | CloneTx _ => (tt, w)
      | DropTx _ => (tt, w)
      | DropRx _ => (tt, w)
      | Send _ _ => (false, w)
      | Recv _ => (None, w)
      | RecvWithTimeout _ _ => (RecvDisconnected, w)
      | Join _ => (tt, w)
      | Print _ => (Val tt, w)
      | NewVec => (0%nat, w)
      | Extend _ _ => (tt, w)
      | Contents _ => ([], w)
      end
  end.

(** A thread runs when it is created; at nesting 0 the system refuses it. *)
Fixpoint sim_fork (fuel depth : nat) (body : prog unit) (w : sim) : option tid * sim :=
  match depth with
  | O => (None, w)
  | S depth =>
      let '(_, _, w) := run sim_handle (sim_fork fuel depth) fuel body w in
      let n := S (sim_threads w) in
      (Some n, with_threads n w)
  end.

(** 300 rounds are enough for every loop: the grace period of 5 s takes 200
    polls of 25 ms. *)
Definition sim_fuel : nat := 300.

Definition simulate {A} (p : prog A) (w : sim) : option A * list obs * sim :=
  run sim_handle (sim_fork sim_fuel 2) sim_fuel p w.

Definition sim_trace {A} (p : prog A) (w : sim) : list obs := (simulate p w).1.2.
Definition sim_result {A} (p : prog A) (w : sim) : option A := (simulate p w).1.1.

(** ** A system to start from *)

Definition sim_pid : Z := 4242.

Definition sim_child : Child :=
  mkChild sim_pid (Some (mkPipe sim_pid OutStream)) (Some (mkPipe sim_pid ErrStream)).

Definition mem0 : mem := mkMem ∅ ∅ ∅ ∅ ∅ 1%nat.

(** A child that writes two chunks on stdout and one on stderr, and exits with
    code 7. *)
Definition sim0 : sim :=
  mkSim 1000 mem0 (Ok sim_child) (Ok (7 * 256)) true true
    [[Byte.x61; Byte.x62]; [Byte.x63]] [[Byte.x21]] (fun _ => Val tt) false 0%nat.

Definition with_spawn (r : Result Child io_Error) (w : sim) : sim :=
  mkSim (sim_now w) (sim_mem w) r (sim_status w) (sim_alive w) (sim_term w) (sim_out w)
    (sim_err w) (sim_callback w) (sim_elapsed w) (sim_threads w).
Definition with_status (r : Result ExitStatus io_Error) (w : sim) : sim :=
  mkSim (sim_now w) (sim_mem w) (sim_spawn w) r (sim_alive w) (sim_term w) (sim_out w)
    (sim_err w) (sim_callback w) (sim_elapsed w) (sim_threads w).
Definition with_term (b : bool) (w : sim) : sim :=
  mkSim (sim_now w) (sim_mem w) (sim_spawn w) (sim_status w) (sim_alive w) b (sim_out w)
    (sim_err w) (sim_callback w) (sim_elapsed w) (sim_threads w).
Definition with_callback (f : Event.t -> outcome unit) (w : sim) : sim :=
  mkSim (sim_now w) (sim_mem w) (sim_spawn w) (sim_status w) (sim_alive w) (sim_term w) (sim_out w)
    (sim_err w) f (sim_elapsed w) (sim_threads w).
Definition with_elapsed (b : bool) (w : sim) : sim :=
  mkSim (sim_now w) (sim_mem w) (sim_spawn w) (sim_status w) (sim_alive w) (sim_term w) (sim_out w)
    (sim_err w) (sim_callback w) b (sim_threads w).

(** ** Schedules

    The threads of a configuration of Pool.v, one step at a time, in the order
    of a schedule; the outside world is the simulated system. *)

Definition sim_external (t : tid) (X : Type) (e : act X) (w : sim) (x : X) (w' : sim) : Prop :=
  sim_handle X e w = (x, w').

Definition returnedb {A} (p : prog A) : bool :=
  match p with
  | Ret _ => true
  | _ => false
  end.

Definition finishedb {R} (c : config sim R) (t : tid) : bool :=
  match t with
  | O => returnedb (main c)
  | S i => match others c !! i with Some p => returnedb p | None => false end
  end.

(** One step of thread [t] on program [p], if it can take one; the answer of
    a timed receive is given by [sim_elapsed]. *)
Definition thread_try {R} (c : config sim R) (n t : tid) {A} (p : prog A) (g : global sim) :
    option (option (prog unit) * prog A * global sim) :=
  match p in prog A return option (option (prog unit) * prog A * global sim) with
  | Ret _ => None
  | Vis e k =>
      match mem_step t (sim_elapsed (world g)) e (memory g) with
      | Answer x m => Some (None, k x, mkGlobal m (world g) (log g ++ [(t, Obs e x)]))
      | Blocked => None
      | External =>
          if match join_target e with Some u => finishedb c u | None => true end then
            let '(x, w) := sim_handle _ e (world g) in
            Some (None, k x, mkGlobal (memory g) w (log g ++ [(t, Obs e x)]))
          else None
      end
  | Fork body k =>
      Some (Some body, k (Some n), mkGlobal (memory g) (world g) (log g ++ [(t, ObsFork body (Some n))]))
  | Iter body i k => Some (None, unroll body i k, g)
  end.

Definition take_step {R} (t : tid) (c : config sim R) : config sim R :=
  let n := S (length (others c)) in
  match t with
  | O =>
      match thread_try c n 0%nat (main c) (state c) with
      | Some (born, p, g) => mkConfig p (others c ++ option_list born) g
      | None => c
      end
  | S i =>
      match others c !! i with
      | Some p =>
          match thread_try c n (S i) p (state c) with
          | Some (born, p, g) => mkConfig (main c) (<[i := p]> (others c) ++ option_list born) g
          | None => c
          end
      | None => c
      end
  end.

(** The schedule [l], then [rounds] rounds of all threads. *)
Definition play {R} (l : list tid) (c : config sim R) : config sim R :=
  fold_left (fun c t => take_step t c) l c.

Fixpoint rounds {R} (k : nat) (c : config sim R) : config sim R :=
  match k with
  | O => c
  | S k => rounds k (play (seq 0 (S (length (others c)))) c)
  end.

Definition result_of {A} (p : prog A) : option A :=
  match p in prog A return option A with
  | Ret a => Some a
  | _ => None
  end.

(** ** Lemmas *)

Lemma result_of_Some {A} (p : prog A) a : result_of p = Some a -> p = Ret a.
Proof. destruct p; simpl; [by intros [= ->]|done..]. Qed.

Lemma finishedb_spec {R} (c : config sim R) t : finishedb c t = true -> finished c t.
Proof.
  assert (forall A (p : prog A), returnedb p = true -> returned p) as Hr by (by intros A []).
  destruct t as [|i]; simpl; [apply Hr|]. destruct (others c !! i) as [p|] eqn:E; [|done].
  intros Hp. exists p. split; [done|by apply Hr].
Qed.

Lemma thread_try_sound {R} (c : config sim R) n t {A} (p : prog A) g born p' g' :
  thread_try c n t p g = Some (born, p', g') ->
  thread_step sim_external (finished c) n t p g born p' g'.
Proof.
  destruct p as [A a|A X e k|A body k|A I B body i k]; simpl; [done| | |].
  - destruct (mem_step t (sim_elapsed (world g)) e (memory g)) as [| |x m] eqn:E; [|done|].
    + destruct (match join_target e with Some u => finishedb c u | None => true end) eqn:J; [|done].
      destruct (sim_handle X e (world g)) as [x w] eqn:H. intros [= <- <- <-].
      split; [done|]. exists x. split; [|done]. split; [done|]. right. split_and!; try done.
      * unfold mem_step in *. destruct e; try done; repeat case_match; done.
      * intros u Hu. rewrite Hu in J. by apply finishedb_spec.
    + intros [= <- <- <-]. split; [done|]. exists x. split; [|done]. split; [done|].
      left. by exists (sim_elapsed (world g)).
  - intros [= <- <- <-]. split_and!; [done|done|]. by left.
  - by intros [= <- <- <-].
Qed.

Lemma take_step_sound {R} t (c : config sim R) : reachable sim_external c (take_step t c).
Proof.
  destruct t as [|i]; simpl.
  - destruct (thread_try c _ _ (main c) (state c)) as [[[born p] g]|] eqn:E; [|constructor].
    apply rtc_once, step_main. by apply thread_try_sound.
  - destruct (others c !! i) as [p|] eqn:Hi; [|constructor].
    destruct (thread_try c _ _ p (state c)) as [[[born p'] g]|] eqn:E; [|constructor].
    apply rtc_once. eapply step_other; [done|]. by apply thread_try_sound.
Qed.

Lemma play_sound {R} l (c : config sim R) : reachable sim_external c (play l c).
Proof.
  revert c. induction l as [|t l IH]; intros c; [constructor|]. simpl.
  etrans; [apply (take_step_sound t)|apply IH].
Qed.

Lemma rounds_sound {R} k (c : config sim R) : reachable sim_external c (rounds k c).
Proof.
  revert c. induction k as [|k IH]; intros c; [constructor|].
  change (rounds (S k) c) with (rounds k (play (seq 0 (S (length (others c)))) c)).
  etrans; [apply play_sound|apply IH].
Qed.

(** What the simulation does is an execution. *)
Lemma sim_exec {A} (p : prog A) w r : sim_result p w = r -> exec p (sim_trace p w) r.
Proof.
  unfold sim_result, sim_trace. destruct (simulate p w) as [[r' tr] w'] eqn:E. simpl.
  intros <-. by eapply run_exec.
Qed.

Lemma sim_piped : piped_children sim_external.
Proof.
  intros t cmd w child w'. unfold sim_external, sim_handle. simpl.
  destruct (sim_spawn w) as [ch|]; [|done]. simpl. intros [= <- <-] Ho He. rewrite Ho, He. done.
Qed.

Lemma sim_pids : u32_children sim_external.
Proof.
  intros t cmd w child w'. unfold sim_external, sim_handle. simpl.
  destruct (sim_spawn w) as [ch|]; [|done]. intros [= <- <-]. unfold is_u32, u32_max.
  pose proof (Z.mod_pos_bound (child_id ch) (2 ^ 32) ltac:(lia)). simpl child_id. lia.
Qed.

Lemma sim_clock_mono X (e : act X) w : sim_now w <= sim_now (sim_handle X e w).2.
Proof.
  unfold sim_handle. destruct (mem_step _ _ _ _); [..|done];
    destruct e; simpl; unfold sim_signal, sim_read; simpl; repeat (case_match; simpl); lia.
Qed.

Lemma sim_clock_now w :
  sim_now w <= (sim_handle Z InstantNow w).1 <= sim_now (sim_handle Z InstantNow w).2.
Proof. simpl. lia. Qed.

Lemma sim_clock_sleep d w : sim_now w + d <= sim_now (sim_handle unit (Sleep d) w).2.
Proof. simpl. lia. Qed.
