(* ===== verification/Runs.v ===== *)
(** * Concrete runs

    The theorems of the library applied to runs on the simulated system of
    Sim.v: a captured run that exits with code 7, a refused spawn, a panicking
    callback, a timeout, a cancel before the run. *)

From Stdlib Require Import ZArith.
From stdpp Require Import base numbers list strings gmap.
From S2P Require Import Prelude Core Machine Sys Prog Os Windows Unix Task Run Blocks Lifecycle Exit Pool Threads Kills Race Locks Delivery Captured Types Timeout Progress Drains Caller Sim Config.

Open Scope Z_scope.

Definition demo : Task := with_capture_output true (Task_new "demo" ["-x"]).

(** The callback panics on the first chunk. *)
Definition panicky (ev : Event.t) : outcome unit :=
  if Event.is_chunk ev then Panic (PStr "boom") else Val tt.

Definition demo_run (w : sim) : option (outcome (Result unit AerError.t)) * list Event.t :=
  let '(r, tr, _) := simulate (run_impl demo rust_callback None) w in (r, events tr).

Example demo_run_ok :
  demo_run sim0 =
  (Some (Val (Ok tt)),
   [Event.Started 4242; Event.StdoutChunk 0 [Byte.x61; Byte.x62]; Event.StdoutChunk 1 [Byte.x63];
    Event.StderrChunk 0 [Byte.x21]; Event.Exited 7 ExitReason.NaturalExit]).
Proof. vm_compute. reflexivity. Qed.

Lemma demo_exec w r :
  sim_result (run_impl demo rust_callback None) w = Some r ->
  exec (run_impl demo rust_callback None) (sim_trace (run_impl demo rust_callback None) w) (Some r).
Proof. apply sim_exec. Qed.

(** The trace of the captured run. *)
Definition demo_trace (w : sim) : list obs := sim_trace (run_impl demo rust_callback None) w.

Lemma run_lifecycle_witness :
  length (events (demo_trace sim0)) = 5%nat /\ lifecycle true (events (demo_trace sim0)).
Proof.
  split; [vm_compute; reflexivity|].
  apply (run_lifecycle demo None (demo_trace sim0) (Some (Val (Ok tt)))).
  apply demo_exec. vm_compute. reflexivity.
Defined.

Definition refused : sim := with_spawn (Err (OsError 2)) sim0.

Lemma run_without_events_witness :
  events (demo_trace refused) = [] /\
  exists io, @Val (Result unit AerError.t) (Err (AerError.SpawnFailed (OsError 2))) =
               Val (Err (AerError.SpawnFailed io)) /\
    exec (os_spawn "demo" ["-x"] (spawn_options demo)) (demo_trace refused)
      (Some (Err (AerError.SpawnFailed io))).
Proof.
  assert (events (demo_trace refused) = []) as E by (vm_compute; reflexivity).
  split; [exact E|].
  apply (run_without_events demo None (demo_trace refused)
           (Val (Err (AerError.SpawnFailed (OsError 2))))); [|exact E].
  apply demo_exec. vm_compute. reflexivity.
Defined.

Lemma run_exited_result_witness :
  @Val (Result unit AerError.t) (Ok tt) = Val (Ok tt) \/
  exists p, @Val (Result unit AerError.t) (Ok tt) = Panic p.
Proof.
  apply (run_exited_result demo None (demo_trace sim0) (Val (Ok tt)) 7 ExitReason.NaturalExit).
  - apply demo_exec. vm_compute. reflexivity.
  - assert (events (demo_trace sim0) !! 4%nat = Some (Event.Exited 7 ExitReason.NaturalExit)) as E
      by (vm_compute; reflexivity).
    exact (list_elem_of_lookup_2 _ _ _ E).
Defined.

Lemma run_ok_exited_witness :
  exists pid chunks code, events (demo_trace sim0) =
    Event.Started pid :: chunks ++ [Event.Exited code ExitReason.NaturalExit].
Proof.
  apply (run_ok_exited demo None (demo_trace sim0)).
  apply demo_exec. vm_compute. reflexivity.
Defined.

Definition panicked : sim := with_callback panicky sim0.

Lemma run_abandoned_killed_witness :
  exists handle tr1 tr2 tr3 tr4 tr5 r, demo_trace panicked = tr1 ++ tr2 ++ tr3 ++ tr4 ++ tr5 /\
    exec (os_spawn "demo" ["-x"] (spawn_options demo)) tr1 (Some (Ok handle)) /\
    exec (os_kill_escalating (kill handle) 0) tr3 (Some r) /\
    exec (os_reap_abandoned (kill handle)) tr4 (Some tt) /\ Forall arc_obs tr5.
Proof.
  apply (run_abandoned_killed demo None (demo_trace panicked) (Panic (PStr "boom")) 4242
           [Event.StdoutChunk 0 [Byte.x61; Byte.x62]]).
  - apply demo_exec. vm_compute. reflexivity.
  - vm_compute. reflexivity.
  - reflexivity.
Defined.

Lemma run_exited_guard_off_witness :
  exists handle tr1 tr2 tr3 g rest, demo_trace sim0 = tr1 ++ clone_trace (kill handle) ++ tr2 ++ tr3 /\
    exec (os_spawn "demo" ["-x"] (spawn_options demo)) tr1 (Some (Ok handle)) /\
    exec (guarded_body demo rust_callback None Machine.new handle (Guard_new (kill handle)))
      tr2 (Some (g, rest, Val (Ok tt))) /\ armed g = false /\ Forall arc_obs tr3.
Proof.
  apply (run_exited_guard_off demo None (demo_trace sim0) (Val (Ok tt)) 7 ExitReason.NaturalExit).
  - apply demo_exec. vm_compute. reflexivity.
  - assert (events (demo_trace sim0) !! 4%nat = Some (Event.Exited 7 ExitReason.NaturalExit)) as E
      by (vm_compute; reflexivity).
    exact (list_elem_of_lookup_2 _ _ _ E).
Defined.

(** ** The delivery loop, over a channel with one message and no sender *)

Definition one_chunk : sim :=
  with_mem (mkMem ∅ ∅ {[ (TyChunk, 1%nat) := mkChanState [] [ChunkMsg.Stdout 0 [Byte.x61]] [] 0 true ]} ∅ ∅ 2%nat)
    sim0.

Definition pump_trace : list obs := sim_trace (pump rust_callback (mkChan 1%nat)) one_chunk.

Lemma pump_delivers_witness :
  events pump_trace = [Event.StdoutChunk 0 [Byte.x61]] /\
  (events pump_trace = chunk_event <$> received pump_trace \/
   exists m, chunk_event <$> received pump_trace = events pump_trace ++ [m]) /\
  (forall u, Some (Val tt) = Some (Val u) ->
     events pump_trace = chunk_event <$> received pump_trace /\
     exists tr', pump_trace = tr' ++ [Obs (Recv (@mkChan TyChunk 1%nat)) None]).
Proof.
  split; [vm_compute; reflexivity|].
  apply (pump_delivers (mkChan 1%nat) pump_trace (Some (Val tt))).
  apply sim_exec. vm_compute. reflexivity.
Defined.

(** ** The Unix kill *)

Definition kill_trace (w : sim) : list obs :=
  sim_trace (Unix.kill_escalating (UnixKill 4242) KILL_GRACE) w.

(** A tree that ignores SIGTERM. *)
Definition stubborn : sim := with_term false sim0.

Lemma kill_escalating_spec_witness :
  signalled 4242 SIGTERM (kill_trace stubborn) /\
  ((exists tr' probe, kill_trace stubborn = tr' ++ probe /\ dead_probe 4242 probe) \/
   signalled 4242 SIGKILL (kill_trace stubborn)).
Proof.
  apply (kill_escalating_spec (UnixKill 4242) KILL_GRACE (kill_trace stubborn) (Ok tt)).
  apply sim_exec. vm_compute. reflexivity.
Defined.

Lemma sigkill_after_grace_witness :
  exists tr1 t0 tr2 t1 tr3,
    kill_trace stubborn = tr1 ++ Obs InstantNow t0 :: tr2 ++ Obs InstantNow t1 :: tr3 /\
    t0 + KILL_GRACE <= t1 /\ Obs (Killpg 4242 SIGKILL) (mkRet 0 0) ∈ tr3 /\
    signalled 4242 SIGTERM tr1.
Proof.
  apply (sigkill_after_grace (UnixKill 4242) KILL_GRACE (kill_trace stubborn) (Some (Ok tt))
           (Obs (Killpg 4242 SIGKILL) (mkRet 0 0))); [| |reflexivity].
  - apply sim_exec. vm_compute. reflexivity.
  - assert (last (kill_trace stubborn) = Some (Obs (Killpg 4242 SIGKILL) (mkRet 0 0))) as E
      by (vm_compute; reflexivity).
    apply last_Some in E as [l ->]. apply elem_of_app. right. left.
Defined.

Lemma kill_escalating_returns_witness :
  exists r tr w', Prog.run sim_handle (sim_fork sim_fuel 2) 300
    (Unix.kill_escalating (UnixKill 4242) KILL_GRACE) stubborn = (Some r, tr, w').
Proof.
  apply (kill_escalating_returns sim_handle (sim_fork sim_fuel 2) sim_now sim_clock_mono
           sim_clock_now sim_clock_sleep (UnixKill 4242) KILL_GRACE 300 stubborn);
    vm_compute; congruence.
Defined.

(** ** The builder *)

Lemma with_envs_last_wins_witness :
  let t := with_envs [("A", "1"); ("B", "2"); ("A", "3")] demo in
  NoDup (env t).*1 /\
  env_map (env t) = list_to_map (reverse [("A", "1"); ("B", "2"); ("A", "3")]) ∪ env_map (env demo).
Proof.
  apply (with_envs_last_wins [("A", "1"); ("B", "2"); ("A", "3")] demo). constructor.
Defined.

(** The upper case of the ASCII letters. *)
Definition ascii_upper (c : Ascii.ascii) : Ascii.ascii :=
  let n := Ascii.nat_of_ascii c in
  if (97 <=? n)%nat && (n <=? 122)%nat then Ascii.ascii_of_nat (n - 32) else c.

Fixpoint string_upper (s : string) : string :=
  match s with
  | EmptyString => EmptyString
  | String c s => String (ascii_upper c) (string_upper s)
  end.

Definition demo_calls : list (string * string) := [("A", "1"); ("A", "3")].

Lemma child_environment_witness :
  let t := with_envs demo_calls demo in
  (forall parent, child_env (Unix.command "demo" [] (spawn_options t)) parent =
     list_to_map (reverse demo_calls) ∪ env_map (env demo) ∪ parent) /\
  (forall parent name,
     (forall n, n ∈ demo_calls.*1 ++ (env demo).*1 -> string_upper n = string_upper name -> n = name) ->
     Windows.env_var string_upper
       (Windows.win_child_env string_upper (Windows.command "demo" [] (spawn_options t)) parent) name =
     match (list_to_map (reverse demo_calls) ∪ env_map (env demo) : gmap string string) !! name with
     | Some value => Some value
     | None => Windows.env_var string_upper (Windows.env_inserted string_upper parent) name
     end).
Proof. apply (child_environment string_upper "demo" [] demo_calls demo). constructor. Defined.

(** The environment of a Windows child. *)
Definition win_vars (calls parent : list (string * string)) : gmap string (string * string) :=
  Windows.win_child_env string_upper
    (Windows.command "demo" [] (spawn_options (with_envs calls demo))) parent.

(** "A" is the last call's, "Path" the parent's, under any spelling. *)
Example windows_vars :
  Windows.env_var string_upper (win_vars demo_calls [("Path", "C:")]) "a" = Some "3" /\
  Windows.env_var string_upper (win_vars demo_calls [("Path", "C:")]) "PATH" = Some "C:".
Proof. split; vm_compute; reflexivity. Qed.

(** Two spellings of one Windows name: the child is not given the last call's
    value. *)
Example windows_spellings :
  Windows.env_var string_upper (win_vars [("Foo", "1"); ("FOO", "2"); ("Foo", "3")] []) "Foo" = Some "2".
Proof. vm_compute. reflexivity. Qed.

(** ** The end of a run without capture *)

Definition plain : Task := Task_new "demo" [].
Definition plain_trace : list obs := sim_trace (run_impl plain rust_callback None) sim0.

Lemma plain_exec : exec (run_impl plain rust_callback None) plain_trace (Some (Val (Ok tt))).
Proof. apply sim_exec. vm_compute. reflexivity. Qed.

Lemma plain_exited : Event.Exited 7 ExitReason.NaturalExit ∈ events plain_trace.
Proof.
  assert (events plain_trace !! 1%nat = Some (Event.Exited 7 ExitReason.NaturalExit)) as E
    by (vm_compute; reflexivity).
  exact (list_elem_of_lookup_2 _ _ _ E).
Qed.

Lemma run_exit_code_witness :
  exists handle tr1 trw tr2 os_code,
    plain_trace = tr1 ++ trw ++ tr2 /\
    exec (os_wait handle (mkOutputSinks None None)) trw (Some (Val (Ok os_code))) /\
    7 = (if decide (ExitReason.NaturalExit = ExitReason.NaturalExit) then os_code else -1).
Proof.
  apply (run_exit_code plain None plain_trace (Val (Ok tt)) 7 ExitReason.NaturalExit);
    [reflexivity|apply plain_exec|apply plain_exited].
Defined.

Lemma unix_no_survivors_witness :
  exists pid tr1 wait_res kill_res tr2 cb tr3,
    plain_trace = tr1 ++ Obs (ChildWait pid) wait_res ::
      Obs (Killpg (as_i32 pid) SIGKILL) kill_res :: tr2 ++
      Obs (Callback (Event.Exited 7 ExitReason.NaturalExit)) cb :: tr3.
Proof.
  apply (unix_no_survivors plain None plain_trace (Val (Ok tt)) 7 ExitReason.NaturalExit);
    [reflexivity|apply plain_exec|apply plain_exited].
Defined.

(** ** The codes of [wait] *)

Definition demo_handle : OsHandle := mkOsHandle 4242 sim_child (UnixKill 4242).

Definition wait_trace : list obs :=
  sim_trace (Unix.wait demo_handle (mkOutputSinks None None)) sim0.

Lemma reported_codes_witness :
  exists tr1 wait_res tr2, wait_trace = tr1 ++ Obs (ChildWait 4242) wait_res :: tr2 /\
    (forall code, 0 <= code <= 255 -> wait_res = Ok (Z.shiftl code 8) ->
       @Ok Z AerError.t 7 = Ok code) /\
    (forall sig core, 0 < sig < 127 -> core = 0 \/ core = 128 ->
       wait_res = Ok (sig + core) -> @Ok Z AerError.t 7 = Ok (-1)) /\
    (forall code, @Ok Z AerError.t 7 = Ok code -> code = -1 \/ 0 <= code <= 255) /\
    (forall e, @Ok Z AerError.t 7 = Err e <-> exists io, wait_res = Err io /\ e = AerError.WaitFailed io).
Proof.
  apply (reported_codes demo_handle (mkOutputSinks None None) wait_trace (Ok 7)).
  apply sim_exec. vm_compute. reflexivity.
Defined.

(** ** A drain thread *)

Definition drain_trace : list obs :=
  sim_trace (drain_loop (mkPipe sim_pid OutStream) (mkChan 1%nat) ChunkMsg.Stdout) sim0.

Lemma drain_loop_spec_witness :
  chunks_read drain_trace = [[Byte.x61; Byte.x62]; [Byte.x63]] /\
  (forall i bytes, Z.of_nat i <= u64_max -> chunks_read drain_trace !! i = Some bytes ->
     (i < length (sent drain_trace))%nat ->
     sent drain_trace !! i = Some (ChunkMsg.Stdout (Z.of_nat i) bytes)) /\
  (length (sent drain_trace) <= length (chunks_read drain_trace)
     <= S (length (sent drain_trace)))%nat /\
  (Some tt = Some tt -> length (sent drain_trace) = length (chunks_read drain_trace) /\
     exists tr' x, drain_trace = tr' ++ [Obs (PipeRead (mkPipe sim_pid OutStream) drain_buf) x] /\
       ends_drain x).
Proof.
  split; [vm_compute; reflexivity|].
  apply (drain_loop_spec (mkPipe sim_pid OutStream) (mkChan 1%nat) ChunkMsg.Stdout drain_trace (Some tt)).
  apply sim_exec. vm_compute. reflexivity.
Defined.

(** ** Cancels in parallel with a run *)

Definition handle1 : CancelHandle := mkCancelHandle 1%nat 2%nat 3%nat.

Definition start : global sim :=
  mkGlobal (mkMem {[ 1%nat := false; 2%nat := false ]} {[ 3%nat := mkMutex None None ]} ∅ ∅ ∅ 4%nat)
    sim0 [].

Lemma start_fresh : fresh handle1 start.
Proof. repeat split; try done; try (simpl; lia). Qed.

(** The run wires its handle, then both cancels come. *)
Definition cancelled_run : config sim (outcome (Result unit AerError.t)) :=
  rounds 60 (play (repeat 0%nat 12) (race handle1 demo (fun _ => false) 2 start)).

(** The run ends before the cancel begins. *)
Definition late_cancel : config sim (outcome (Result unit AerError.t)) :=
  rounds 60 (play (concat (repeat [0; 2; 3; 4]%nat 60)) (race handle1 demo (fun _ => false) 1 start)).

Lemma cancelled_run_reachable : reachable sim_external (race handle1 demo (fun _ => false) 2 start) cancelled_run.
Proof. etrans; [apply play_sound|apply rounds_sound]. Qed.

Lemma late_cancel_reachable : reachable sim_external (race handle1 demo (fun _ => false) 1 start) late_cancel.
Proof. etrans; [apply play_sound|apply rounds_sound]. Qed.

Lemma cancel_outcome_witness :
  (flag (memory (state cancelled_run)) (kill_fired handle1) = true /\
   exists t k, (t <= 2)%nat /\ run_handle demo k (own 0%nat (log (state cancelled_run))) /\
     carried handle1 k (own t (log (state cancelled_run)))) /\
  (flag (memory (state late_cancel)) (kill_fired handle1) = false /\
   forall t, (t <= 1)%nat -> ~ struck (own t (log (state late_cancel)))).
Proof.
  split.
  - apply (cancel_outcome sim_external handle1 demo (fun _ => false) 2 start cancelled_run
             (Val (Err AerError.Cancelled)));
      [apply start_fresh|apply cancelled_run_reachable| |reflexivity].
    apply result_of_Some. vm_compute. reflexivity.
  - apply (cancel_outcome sim_external handle1 demo (fun _ => false) 1 start late_cancel (Val (Ok tt)));
      [apply start_fresh|apply late_cancel_reachable| |reflexivity].
    apply result_of_Some. vm_compute. reflexivity.
Defined.

Lemma marks_lookup (c : config sim (outcome (Result unit AerError.t))) i x :
  marks handle1 (log (state c)) !! i = Some x -> x ∈ marks handle1 (log (state c)).
Proof. apply list_elem_of_lookup_2. Qed.

Lemma cancel_fires_once_witness : 1%nat = 1%nat.
Proof.
  apply (cancel_fires_once sim_external handle1 demo (fun _ => false) 2 start cancelled_run 1%nat 1%nat);
    [apply start_fresh|apply cancelled_run_reachable|discriminate|discriminate| |];
    apply (marks_lookup _ 4%nat); vm_compute; reflexivity.
Defined.

(** The cancel comes before the run has begun. *)
Definition early_cancel : config sim (outcome (Result unit AerError.t)) :=
  rounds 60 (play (repeat 1%nat 10) (race handle1 demo (fun _ => false) 1 start)).

Lemma early_cancel_reachable : reachable sim_external (race handle1 demo (fun _ => false) 1 start) early_cancel.
Proof. etrans; [apply play_sound|apply rounds_sound]. Qed.

Lemma cancel_not_lost_witness :
  (0%nat, Unwired) ∈ marks handle1 (log (state late_cancel)) /\
  ((0%nat, SawUnset) ∈ marks handle1 (log (state early_cancel)) \/
   exists k, run_handle demo k (own 0%nat (log (state early_cancel))) /\
     (carried handle1 k (own 0%nat (log (state early_cancel))) \/
      found_dead handle1 k (own 0%nat (log (state early_cancel))))).
Proof.
  split.
  - apply (cancel_not_lost sim_external handle1 demo (fun _ => false) 1 start late_cancel 1%nat);
      [apply start_fresh|apply late_cancel_reachable| |].
    + apply (marks_lookup _ 6%nat). vm_compute. reflexivity.
    + apply (marks_lookup _ 2%nat). vm_compute. reflexivity.
  - apply (proj2 (cancel_not_lost sim_external handle1 demo (fun _ => false) 1 start early_cancel 1%nat
      start_fresh early_cancel_reachable (marks_lookup early_cancel 1%nat (1%nat, SawEmpty) ltac:(vm_compute; reflexivity)))
      (Err AerError.Cancelled)); [|do 2 right; reflexivity].
    apply result_of_Some. vm_compute. reflexivity.
Defined.

(** There the run did see the request, and fired. *)
Example early_cancel_marks :
  marks handle1 (log (state early_cancel)) =
  [(1%nat, First); (1%nat, SawEmpty); (1%nat, Released); (0%nat, Wired); (0%nat, Released);
   (0%nat, Fired); (0%nat, Unwired); (0%nat, Released); (0%nat, SawFired)].
Proof. vm_compute. reflexivity. Qed.

(** ** Captured output *)

(** The same run, cut while the delivery loop is at work. *)
Definition midway : config sim (outcome (Result unit AerError.t)) :=
  play (concat (repeat [0; 2; 3; 4]%nat 20)) (race handle1 demo (fun _ => false) 1 start).

Lemma cancels_aside n : Forall (all_obs aside_obs) (replicate n (cancel handle1)).
Proof. apply Forall_replicate, cancel_aside. Qed.

Lemma captured_prefix_witness :
  length (caller_events midway) = 2%nat /\
  omap (event_on OutStream) (caller_events midway) `prefix_of` owed midway OutStream.
Proof.
  split; [vm_compute; reflexivity|].
  apply (captured_prefix sim_external sim_piped demo (Some handle1) (replicate 1 (cancel handle1)) start);
    [reflexivity|apply cancels_aside|reflexivity|apply play_sound].
Defined.

Lemma late_cancel_exited : Event.Exited 7 ExitReason.NaturalExit ∈ caller_events late_cancel.
Proof. apply (list_elem_of_lookup_2 _ 4%nat). vm_compute. reflexivity. Qed.

Lemma captured_all_witness :
  omap (event_on OutStream) (caller_events late_cancel) =
    [Event.StdoutChunk 0 [Byte.x61; Byte.x62]; Event.StdoutChunk 1 [Byte.x63]] /\
  omap (event_on OutStream) (caller_events late_cancel) = owed late_cancel OutStream /\
  drained late_cancel OutStream.
Proof.
  split; [vm_compute; reflexivity|].
  apply (captured_all sim_external sim_piped demo (Some handle1) (replicate 1 (cancel handle1)) start);
    [reflexivity|apply cancels_aside|reflexivity|apply late_cancel_reachable|].
  exists 7, ExitReason.NaturalExit. apply late_cancel_exited.
Defined.

Lemma captured_no_survivors_witness :
  exists pid (w : tid) l1 wait_res l2 kill_res l3 cb l4 os_code,
    log (state late_cancel) = l1 ++ (w, Obs (ChildWait pid) wait_res) :: l2 ++
      (w, Obs (Killpg (as_i32 pid) SIGKILL) kill_res) :: l3 ++
      (0%nat : tid, Obs (Callback (Event.Exited 7 ExitReason.NaturalExit)) cb) :: l4 /\
    reported wait_res = Ok os_code /\
    7 = if decide (ExitReason.NaturalExit = ExitReason.NaturalExit) then os_code else -1.
Proof.
  apply (captured_no_survivors sim_external demo (Some handle1) (replicate 1 (cancel handle1)) start
           late_cancel 7 ExitReason.NaturalExit);
    [apply sim_piped|reflexivity|apply cancels_aside|reflexivity|apply late_cancel_reachable
    |apply late_cancel_exited].
Defined.

Lemma event_types_witness :
  Event.Exited 7 ExitReason.NaturalExit ∈ caller_events late_cancel /\
  typed_event (Event.Exited 7 ExitReason.NaturalExit).
Proof.
  split; [apply late_cancel_exited|].
  apply (event_types sim_external sim_piped demo (Some handle1) (replicate 1 (cancel handle1)) start
           late_cancel);
    [apply cancels_aside|reflexivity|apply late_cancel_reachable|apply sim_pids|apply late_cancel_exited].
Defined.

(** ** A timeout *)

Definition hurried : Task := with_timeout 1000000000 demo.

(** The deadline passes while the child writes. *)
Definition timed_run : config sim (outcome (Result unit AerError.t)) :=
  rounds 80 (capture_run rust_callback hurried None []
    (mkGlobal mem0 (with_elapsed true sim0) [])).

Lemma timeout_outcome_witness :
  main timed_run = Ret (Val (Err AerError.TimedOut)) /\
  exists timed_out l1 b l2,
    log (state timed_run) = l1 ++ (0%nat : tid, Obs (Load timed_out) b) :: l2 /\
    (0%nat : tid, Obs (NewFlag false) timed_out) ∈ l1 /\
    (ExitReason.TimedOut = ExitReason.TimedOut <->
     exists t d, timeout hurried = Some d /\ fired t d timed_out l1).
Proof.
  split; [apply result_of_Some; vm_compute; reflexivity|].
  apply (timeout_outcome sim_external hurried None [] (mkGlobal mem0 (with_elapsed true sim0) []))
    with (code := -1);
    [constructor|discriminate|reflexivity|apply rounds_sound|].
  apply (list_elem_of_lookup_2 _ 4%nat). vm_compute. reflexivity.
Defined.

(** ** The end of a run *)

Lemma finished_stuck {R} (c : config sim R) :
  returned (main c) -> Forall returned (others c) -> stuck sim_external c.
Proof.
  assert (forall A fin n t (p : prog A) g born p' g', returned p ->
    ~ thread_step sim_external fin n t p g born p' g') as Hno by (intros A fin n t [] g born p' g' Hr Hs; done).
  intros Hm Ho c' [born p' g' Hs|i p born p' g' Hi Hs].
  - by eapply Hno.
  - eapply Hno, Hs. by eapply Forall_lookup_1 in Ho.
Qed.

Lemma sim_answers : answers sim_external.
Proof. intros t X e w. exists (sim_handle X e w).1, (sim_handle X e w).2. by destruct (sim_handle X e w) eqn:E. Qed.

Lemma cancels_beside n :
  Forall (fun p => all_obs aside_obs p /\ tidy p) (replicate n (cancel handle1)).
Proof. apply Forall_replicate. split; [apply cancel_aside|apply tidy_cancel]. Qed.

Lemma start_unlocked m : holder (mutex_at (memory start) m) = None.
Proof. unfold mutex_at. simpl. rewrite lookup_singleton. by case_decide. Qed.

Lemma late_cancel_done : returned (main late_cancel) /\ Forall returned (others late_cancel).
Proof. vm_compute. split; [exact I|]. repeat constructor. Qed.

Lemma run_progress_witness :
  length (others late_cancel) = 4%nat /\
  returned (main late_cancel) /\ Forall returned (others late_cancel).
Proof.
  split; [vm_compute; reflexivity|].
  apply (run_progress sim_external sim_answers demo (Some handle1) (replicate 1 (cancel handle1)) start);
    [apply sim_piped|apply cancels_beside|reflexivity|apply start_unlocked|apply late_cancel_reachable|].
  destruct late_cancel_done. by apply finished_stuck.
Defined.

(** ** Corners *)

(** A drain thread goes on reading after a send that the closed channel
    refused; it does not stop there. *)
Example drain_ignores_send_failure :
  let reader := mkPipe sim_pid OutStream in
  let tx := @mkChan TyChunk 1%nat in
  exec (drain_loop reader tx ChunkMsg.Stdout)
    [Obs (PipeRead reader drain_buf) (Ok [Byte.x61]);
     Obs (Send tx (ChunkMsg.Stdout 0 [Byte.x61])) false;
     Obs (PipeRead reader drain_buf) (Ok [Byte.x62]);
     Obs (Send tx (ChunkMsg.Stdout 1 [Byte.x62])) false;
     Obs (PipeRead reader drain_buf) (Ok [])] (Some tt).
Proof.
  intros reader tx.
  apply (iter_exec_next _ _ 0 1 [_; _]).
  { apply exec_act_Some. eexists _, _. split; [done|]. apply exec_act_Some.
    eexists _, _. split; [done|]. by apply exec_ret_Some. }
  apply (iter_exec_next _ _ 1 2 [_; _]).
  { apply exec_act_Some. eexists _, _. split; [done|]. apply exec_act_Some.
    eexists _, _. split; [done|]. by apply exec_ret_Some. }
  apply (iter_exec_done _ _ 2 tt [_] []); [|split; [done|by right]].
  apply exec_act_Some. eexists _, _. split; [done|]. by apply exec_ret_Some.
Qed.

(** A handle whose cancel fired in an earlier run: the next run with it is not
    killed and exits by itself with code 7, and is reported as cancelled. *)
Definition used_handle : sim :=
  with_mem (mkMem {[ 1%nat := true; 2%nat := true ]} {[ 3%nat := mkMutex None None ]} ∅ ∅ ∅ 4%nat) sim0.

Definition sends_sigterm (o : obs) : bool :=
  match o with
  | Obs e _ =>
      match e with
      | Killpg _ sig | Kill _ sig => sig =? SIGTERM
      | _ => false
      end
  | ObsFork _ _ => false
  end.

Example reused_handle_misreports :
  let '(r, tr, _) := simulate (run_impl plain rust_callback (Some handle1)) used_handle in
  (r, events tr, existsb sends_sigterm tr) =
  (Some (Val (Err AerError.Cancelled)),
   [Event.Started 4242; Event.Exited (-1) ExitReason.CancelRequested], false).
Proof. vm_compute. reflexivity. Qed.
