(* ===== verification/WinRuns.v ===== *)
(** * Concrete runs on Windows

    The theorems of Jobs.v and Contained.v on the simulated system of Sim.v: a
    capturing run with a timeout that another thread cancels, to the end of all
    its threads. *)

From Stdlib Require Import ZArith.
From stdpp Require Import base numbers list strings gmap.
From S2P Require Import Prelude Core Machine Sys Prog Os Windows Drains Task Run Caller History Capture Delivery Captured Contained Pool Threads Race Sim Runs Owned Jobs.

Open Scope Z_scope.

Definition win_race : config sim (outcome (Result unit AerError.t)) :=
  job_race handle1 hurried true (fun _ => false) 1 start.

(** All threads take turns until none is left. *)
Definition win_run : config sim (outcome (Result unit AerError.t)) := rounds 60 win_race.

Lemma win_run_reachable : reachable sim_external win_race win_run.
Proof. apply rounds_sound. Qed.

Lemma win_run_ended t : (t <= length (others win_run))%nat -> finished win_run t.
Proof.
  intros Ht. apply finishedb_spec.
  assert (forallb (finishedb win_run) (seq 0 (S (length (others win_run)))) = true) as H
    by (vm_compute; reflexivity).
  rewrite forallb_forall in H. apply H, in_seq. lia.
Qed.

Lemma job_life_witness :
  job_events (log (state win_run)) =
    [Opened 1; Used 1; Used 1; Used 1; Used 1; Used 1; Closed 1] /\
  life (job_events (log (state win_run))).
Proof.
  split; [vm_compute; reflexivity|].
  apply (job_life sim_external handle1 hurried true (fun _ => false) 1 start win_run);
    [apply start_fresh|apply win_run_reachable].
Defined.

Lemma job_closed_witness :
  job_events (log (state win_run)) =
    [Opened 1; Used 1; Used 1; Used 1; Used 1; Used 1; Closed 1] /\
  (job_events (log (state win_run)) = [] \/
   exists job k, job_events (log (state win_run)) =
     Opened job :: replicate k (Used job) ++ [Closed job]).
Proof.
  split; [vm_compute; reflexivity|].
  assert (value (mutex_at (memory (state win_run)) (kill_slot handle1)) = None) as Hs
    by (vm_compute; reflexivity).
  pose proof (job_closed sim_external handle1 hurried true (fun _ => false) 1 start win_run
    start_fresh win_run_reachable win_run_ended) as H.
  by rewrite Hs in H.
Defined.

Lemma win_captured_no_survivors_witness :
  exists job pid assigned (w : tid) l1 status l2 kill_res l3 cb l4,
    log (state win_run) = l1 ++ (w, Obs (ChildWait pid) (Ok status)) :: l2 ++
      (w, Obs (TerminateJobObject job 1) kill_res) :: l3 ++
      (0%nat : tid, Obs (Callback (Event.Exited (-1) ExitReason.CancelRequested)) cb) :: l4 /\
    (0%nat : tid, Obs (AssignProcessToJobObject job pid) assigned) ∈ log (state win_run) /\
    rc assigned <> 0 /\
    -1 = if decide (ExitReason.CancelRequested = ExitReason.NaturalExit) then as_i32 status else -1.
Proof.
  apply (win_captured_no_survivors sim_external hurried (Some handle1)
           (replicate 1 (cancel (P := WindowsProcess) handle1)) start win_run (-1) ExitReason.CancelRequested);
    [apply sim_piped|reflexivity|apply Forall_replicate, cancel_aside|reflexivity|apply win_run_reachable|].
  apply (list_elem_of_lookup_2 _ 4%nat). vm_compute. reflexivity.
Defined.

(** ** A spawn that fails *)

Definition refused_spawn : config sim (Result OsHandle AerError.t) :=
  rounds 8 (mkConfig (spawn "demo" [] (spawn_options hurried)) [] (mkGlobal mem0 refused [])).

Lemma win_spawn_failure_witness :
  own 0%nat (log (state refused_spawn)) !! 5%nat = Some (Obs (CloseHandle 1) tt) /\
  spawn_failure (command "demo" [] (spawn_options hurried)) true
    (own 0%nat (log (state refused_spawn))) (OsError 2).
Proof.
  split; [vm_compute; reflexivity|].
  apply (win_spawn_failure sim_external "demo" [] (spawn_options hurried) [] (mkGlobal mem0 refused []));
    [constructor|reflexivity|apply rounds_sound|].
  apply result_of_Some. vm_compute. reflexivity.
Defined.
