(* ===== verification/Demos.v ===== *)
(** * The example programs at work (src/examples/)

    The programs of Examples.v executed on the simulated system of Sim.v, and
    the theorems about them applied to these runs. *)

From Stdlib Require Import ZArith Strings.Byte Strings.String.
From stdpp Require Import base numbers list strings gmap pretty relations.
From S2P Require Import Prelude Core Sys Prog Os Unix Drains Task Run Lifecycle Closure Exit Pool Threads Kills Capture Delivery Captured Utf8 Examples Shown Console Race Verdict Sim.

Open Scope Z_scope.

Definition no_debug (_ : io_Error) : string := "".

Definition hello_trace : list obs := sim_trace (hello_main (P := UnixProcess) false) sim0.

Lemma hello_shows_witness :
  exists pid code, printed hello_trace =
    [line ("Spawning task..." +:+ newline); line (started_line pid);
     line (exited_line code +:+ newline); line "Done."].
Proof.
  apply (hello_shows (P := UnixProcess) false hello_trace). apply sim_exec. vm_compute. reflexivity.
Defined.

(** A system whose next timed receive times out. *)
Definition timeout_trace : list obs :=
  sim_trace (timeout_main (P := UnixProcess) false no_debug) (with_elapsed true sim0).

Definition capture_start : config sim (outcome (Result unit AerError.t)) :=
  mkConfig (capture_main (P := UnixProcess) false) [] (mkGlobal mem0 sim0 []).

Definition capture_end : config sim (outcome (Result unit AerError.t)) := rounds 60 capture_start.

Lemma timeout_shows_witness :
  exists tr1 r1 verdict1 tr2 r2 verdict2,
    exec (Run.run (P := UnixProcess) (slow_task false) rust_callback) tr1 (Some (Val r1)) /\
    exec (Run.run (P := UnixProcess) (fast_task false) rust_callback) tr2 (Some (Val r2)) /\
    printed timeout_trace =
      line ("=== Process outlives timeout (2 s) ===" +:+ newline) ::
      (events tr1 ≫= timeout_lines) ++ line verdict1 ::
      line ("=== Process exits before timeout (30 s) ===" +:+ newline) ::
      (events tr2 ≫= timeout_lines) ++ [line verdict2] /\
    ((verdict1 = "  → TimedOut" +:+ newline <->
        exists pid, events tr1 = [Event.Started pid; Event.Exited (-1) ExitReason.TimedOut]) /\
     (verdict1 = "  → TimedOut" +:+ newline \/ unexpected verdict1)) /\
    ((verdict2 = "  → Completed normally" <->
        exists pid code, events tr2 = [Event.Started pid; Event.Exited code ExitReason.NaturalExit]) /\
     (verdict2 = "  → Completed normally" \/ unexpected verdict2)).
Proof.
  apply (timeout_shows (P := UnixProcess) false no_debug timeout_trace).
  apply sim_exec. vm_compute. reflexivity.
Defined.

(** The first run was timed out, the second was not. *)
Example timeout_verdicts :
  printed timeout_trace !! 3%nat = Some (line ("  → TimedOut" +:+ newline)) /\
  printed timeout_trace !! 7%nat = Some (line "  → Completed normally").
Proof. split; vm_compute; reflexivity. Qed.

Definition tree_trace : list obs := sim_trace (tree_main (P := UnixProcess) false no_debug) sim0.

Lemma tree_kills_witness :
  exists pid tr1 wait_res kill_res tr2,
    tree_trace = tr1 ++ Obs (ChildWait pid) wait_res :: Obs (Killpg (as_i32 pid) SIGKILL) kill_res ::
      tr2 ++ [shown (line no_orphans)] /\
    line (started_line pid) ∈ printed tree_trace.
Proof.
  apply (tree_kills no_debug tree_trace). apply sim_exec. vm_compute. reflexivity.
Defined.

(** The simulated canceller runs as soon as it is created. *)
Definition cancel_trace : list obs := sim_trace (cancel_main (P := UnixProcess) false no_debug) sim0.

Lemma cancel_shows_witness :
  exists evs result, printed cancel_trace =
    line ("Spawning long-running process (will be cancelled in ~1 s)..." +:+ newline) ::
    (evs ≫= cancel_lines) ++ [line (cancel_verdict no_debug result)] /\
    result_shown result evs.
Proof.
  apply (cancel_shows (P := UnixProcess) false no_debug cancel_trace).
  apply sim_exec. vm_compute. reflexivity.
Defined.

(** All threads of cancel.rs in turn. *)
Definition cancel_start : global sim := mkGlobal mem0 sim0 [].
Definition cancel_run : config sim (outcome unit) :=
  rounds 100 (mkConfig (cancel_main (P := UnixProcess) false no_debug) [] cancel_start).

Lemma cancel_verdict_true_witness :
  last (printed (own 0%nat (log (state cancel_run)))) =
    Some (line (newline +:+ "run_with_cancel returned Err(Cancelled) — as expected.")) /\
  exists t k, (t <= 1)%nat /\ run_handle (cancel_task false) k (own 0%nat (log (state cancel_run))) /\
    carried (first_handle 1%nat) k (own t (log (state cancel_run))).
Proof.
  assert (last (printed (own 0%nat (log (state cancel_run)))) =
    Some (line (newline +:+ "run_with_cancel returned Err(Cancelled) — as expected."))) as Hlast
    by (vm_compute; reflexivity).
  split; [exact Hlast|].
  destruct (cancel_verdict_true sim_external (P := UnixProcess) false no_debug cancel_start cancel_run)
    as [_ (verdict & Hv & Hexp & _)]; [reflexivity|reflexivity|apply rounds_sound| |].
  - apply result_of_Some. vm_compute. reflexivity.
  - rewrite Hlast in Hv. injection Hv as <-. apply Hexp. reflexivity.
Defined.

Example cancel_verdict_shown :
  last (printed cancel_trace) =
  Some (line (newline +:+ "run_with_cancel returned Err(Cancelled) — as expected.")).
Proof. vm_compute. reflexivity. Qed.

(** ** All threads of a run taking turns *)

Lemma capture_shows_witness :
  exists pid msgs code,
    printed (own 0%nat (log (state capture_end))) =
      line ("Spawning with capture enabled..." +:+ newline) ::
      ((Event.Started pid :: (chunk_event <$> msgs) ++ [Event.Exited code ExitReason.NaturalExit])
         ≫= capture_lines) ++
      report_lines "stdout" (read_of capture_end OutStream) ++
      report_lines "stderr" (read_of capture_end ErrStream) ++
      [line (newline +:+ "Done.")] /\
    forall s, omap (on_stream s) msgs = numbered (make_msg s) 0 (chunks_of capture_end s) /\
      drained capture_end s.
Proof.
  apply (capture_shows sim_external sim_piped false [] (mkGlobal mem0 sim0 []) capture_end);
    [constructor|reflexivity|apply rounds_sound|].
  apply result_of_Some. vm_compute. reflexivity.
Defined.

(** What it prints of the two streams. *)
Example capture_printed :
  printed (own 0%nat (log (state capture_end))) !! 7%nat = Some "abc" /\
  printed (own 0%nat (log (state capture_end))) !! 9%nat = Some "!".
Proof. split; vm_compute; reflexivity. Qed.

Definition env_start : config sim (outcome (Result unit AerError.t)) :=
  mkConfig (env_main (P := UnixProcess) false "/tmp") [] (mkGlobal mem0 sim0 []).

Definition env_end : config sim (outcome (Result unit AerError.t)) := rounds 60 env_start.

Lemma env_shows_witness :
  exists cmd child pid code,
    (0%nat : tid, Obs (CommandSpawn cmd) (Ok child)) ∈ log (state env_end) /\
    child_env cmd {[ "HOME" := "/root" ]} =
      <["AER_EXAMPLE_VAR" := "hello_from_aer"]> {[ "HOME" := "/root" ]} /\
    cmd_cwd cmd = Some "/tmp" /\
    printed (own 0%nat (log (state env_end))) =
      [line ("Spawning with AER_EXAMPLE_VAR=hello_from_aer, cwd=" +:+ "/tmp" +:+ newline);
       line (started_line pid); line (exited_line code);
       line (newline +:+ "--- what the child saw ---");
       string_of_list_byte (from_utf8_lossy (read_of env_end OutStream));
       line (newline +:+ "Done.")] /\
    drained env_end OutStream.
Proof.
  apply (env_shows sim_external "/tmp" [] (mkGlobal mem0 sim0 []) env_end);
    [apply sim_piped|constructor|reflexivity|apply rounds_sound|].
  apply result_of_Some. vm_compute. reflexivity.
Defined.
