(* ===== verification/CRuns.v ===== *)
(** * Concrete sessions of a C caller

    The theorems about src/src/ffi.rs applied to calls on the simulated system:
    a task created, configured, run, and used again. *)

From Stdlib Require Import ZArith Strings.Byte Strings.String.
From stdpp Require Import base numbers list strings gmap.
From S2P Require Import Prelude Core Machine Sys Prog Os Unix Task Run Lifecycle Pool Threads Kills Race Utf8 Cstr Ffi Boundary CRace CEvents Args Sim Runs.

Open Scope Z_scope.

Definition no_text (e : io_Error) : string := "os error".

(** Evaluate that a concrete argument has no NUL. *)
Ltac no_zero := apply (bool_decide_unpack _); vm_compute; exact I.

(** A session of calls, run one after the other. *)
Fixpoint sim_session (calls : list call) (s : FfiState) (w : sim) :
    option (list (call * list obs * outcome reply) * FfiState) :=
  match calls with
  | [] => Some ([], s)
  | c :: calls =>
      let '(r, tr, w) := simulate (perform no_text c s) w in
      match r with
      | Some (Some (r, s)) =>
          match sim_session calls s w with
          | Some (l, s) => Some ((c, tr, r) :: l, s)
          | None => None
          end
      | _ => None
      end
  end.

Lemma sim_session_sound calls s w l s' :
  sim_session calls s w = Some (l, s') -> session no_text s l s'.
Proof.
  revert s w l. induction calls as [|c calls IH]; intros s w l; simpl; [intros [= <- <-]; constructor|].
  destruct (simulate (perform no_text c s) w) as [[r tr] w'] eqn:E.
  destruct r as [[[r s1]|]|]; [|done|done].
  destruct (sim_session calls s1 w') as [[l' s2]|] eqn:E2; [|done]. intros [= <- <-].
  econstructor; [|by eapply IH]. by eapply run_exec.
Qed.

(** "sh", with one argument "x". *)
Definition sh : list byte := [x73; x68].
Definition new_sh : call := CNew (carg (Some sh)) (Some [carg (Some [x78])]) 1.

Definition calls1 : list call := [new_sh; CTimeout 1 5000; CRun 1 true; CTimeout 1 9; CRun 1 false].

Definition session1 : list (call * list obs * outcome reply) * FfiState :=
  default ([], ffi_init) (sim_session calls1 ffi_init sim0).

Example session1_replies :
  (snd <$> session1.1) =
  [Val (RPtr 1); Val (RCode AerErrorCode.Ok); Val (RCode AerErrorCode.Ok);
   Val (RCode AerErrorCode.AlreadyRun); Val (RCode AerErrorCode.AlreadyRun)].
Proof. vm_compute. reflexivity. Qed.

Lemma session1_sound : session no_text ffi_init session1.1 session1.2.
Proof.
  apply (sim_session_sound calls1 _ sim0). unfold session1.
  assert (sim_session calls1 ffi_init sim0 <> None) as Hs by (vm_compute; discriminate).
  destruct (sim_session calls1 ffi_init sim0) as [[l s]|]; [reflexivity|done].
Qed.

Definition task1 : AerTask :=
  mkAerTask (Some (with_timeout (from_millis 5000) (Task_new "sh" ["x"]))) true None.

Lemma session_wf_witness : inner task1 <> None /\ 0 < 1.
Proof.
  apply (session_wf no_text session1.1 session1.2 1 task1); [apply session1_sound|].
  vm_compute. reflexivity.
Defined.

Lemma session_single_shot_witness :
  @nil obs = [] /\
  @Val reply (RCode AerErrorCode.AlreadyRun) = Val (RCode AerErrorCode.AlreadyRun).
Proof.
  assert (session1.1 = take 2 session1.1 ++
    (CRun 1 true, default [] ((fun x => x.1.2) <$> session1.1 !! 2%nat),
     Val (RCode AerErrorCode.Ok)) :: drop 3 session1.1) as E by (vm_compute; reflexivity).
  apply (session_single_shot no_text ffi_init (take 2 session1.1) 1 true
           (default [] ((fun x => x.1.2) <$> session1.1 !! 2%nat)) (Val (RCode AerErrorCode.Ok))
           (drop 3 session1.1) session1.2 (CTimeout 1 9) []).
  - split; [done|]. by split.
  - discriminate.
  - rewrite <- E. apply session1_sound.
  - apply (list_elem_of_lookup_2 _ 0%nat). vm_compute. reflexivity.
  - reflexivity.
Defined.

(** ** A run *)

Definition task2 : AerTask :=
  mkAerTask (Some (with_capture_output true (Task_new "sh" []))) false None.

Definition state2 : FfiState := mkFfiState {[ 1 := task2 ]} ∅ (Some "old") 2.

Definition run2_trace : list obs := sim_trace (aer_task_run no_text 1 (c_callback true) state2) sim0.

Definition state2' : FfiState :=
  mkFfiState (<[1 := mkAerTask (inner task2) true None]> {[ 1 := task2 ]}) ∅ None 2.

Lemma aer_task_run_spec_witness :
  exists out,
    exec (run_impl (with_capture_output true (Task_new "sh" [])) (on_event (c_callback true)) None) run2_trace
      (Some out) /\
    Val AerErrorCode.Ok = Val (run_code out) /\
    state2' = mkFfiState (<[1 := mkAerTask (Some (with_capture_output true (Task_new "sh" []))) true
                             None]> {[ 1 := task2 ]}) ∅ (run_message no_text out) 2.
Proof.
  apply (aer_task_run_spec no_text 1 (c_callback true) state2 task2
           (with_capture_output true (Task_new "sh" [])) run2_trace);
    [discriminate|reflexivity|reflexivity|reflexivity|].
  apply sim_exec. vm_compute. reflexivity.
Defined.

Definition c_trace : list obs :=
  sim_trace (run_impl (with_capture_output true (Task_new "sh" [])) (on_event (c_callback true)) None) sim0.

Lemma c_run_refines_witness :
  length (cevents c_trace) = 5%nat /\
  exists tr', exec (run_impl (with_capture_output true (Task_new "sh" [])) rust_callback None) tr'
      (Some (Val (Ok tt))) /\
    c_of true tr' c_trace /\ cevents c_trace = c_event <$> events tr'.
Proof.
  split; [vm_compute; reflexivity|].
  apply (c_run_refines (with_capture_output true (Task_new "sh" [])) None true c_trace
           (Some (Val (Ok tt)))).
  apply sim_exec. vm_compute. reflexivity.
Defined.

(** ** Arguments *)

(** "é", and a byte sequence that is not UTF-8. *)
Definition e_acute : list byte := [xc3; xa9].
Definition broken : list byte := [xc3; x28].

Lemma aer_task_new_spec_witness :
  aer_task_new (carg (Some sh)) (Some [carg (Some e_acute); carg (Some broken)]) 2 state2 =
  Ret (Some (Val 0, state2)).
Proof.
  apply (aer_task_new_spec (Some sh) (Some [Some e_acute; Some broken]) [] 2 state2).
  - simpl. no_zero.
  - split; [repeat constructor; simpl; no_zero|reflexivity].
Defined.

(** A null array, said to have three elements. *)
Example null_array_refused :
  aer_task_new (carg (Some sh)) None 3 state2 = Ret (Some (Val 0, state2)).
Proof. vm_compute. reflexivity. Qed.

Lemma aer_task_new_bounded_witness :
  aer_task_new (carg (Some sh)) (Some []) 65537 state2 = Ret (Some (Val 0, state2)).
Proof. apply (aer_task_new_bounded (Some sh)); [simpl; no_zero|reflexivity]. Defined.

Lemma aer_task_set_env_spec_witness :
  aer_task_set_env 1 (carg (Some [x41; x3d])) (carg (Some e_acute)) state2 =
  Ret (Some (Val AerErrorCode.InvalidArgument, state2)).
Proof.
  apply (aer_task_set_env_spec 1 task2 (with_capture_output true (Task_new "sh" []))
           (Some [x41; x3d]) (Some e_acute) state2);
    [discriminate|reflexivity|reflexivity|reflexivity|simpl; no_zero|simpl; no_zero].
Defined.

Lemma aer_builders_spec_witness :
  (forall ms, aer_task_with_timeout 1 ms state2 =
     Ret (Some (Val AerErrorCode.Ok,
       rebuilt 1 task2 (with_timeout (from_millis ms) (with_capture_output true (Task_new "sh" [])))
         state2))) /\
  (forall b, aer_task_with_capture_output 1 b state2 =
     Ret (Some (Val AerErrorCode.Ok,
       rebuilt 1 task2 (with_capture_output b (with_capture_output true (Task_new "sh" [])))
         state2))) /\
  (forall b, aer_task_set_clear_env 1 b state2 =
     Ret (Some (Val AerErrorCode.Ok,
       rebuilt 1 task2 (with_clear_env b (with_capture_output true (Task_new "sh" []))) state2))) /\
  (forall path, no_nul path ->
     aer_task_set_cwd 1 (carg path) state2 =
     Ret (Some match path with
               | None => (Val AerErrorCode.NullPointer, state2)
               | Some bytes =>
                   if utf8_valid bytes && negb (bool_decide (bytes = [])) then
                     (Val AerErrorCode.Ok,
                      rebuilt 1 task2 (with_cwd (string_of_list_byte bytes)
                        (with_capture_output true (Task_new "sh" []))) state2)
                   else (Val AerErrorCode.InvalidArgument, state2)
               end)).
Proof.
  apply (aer_builders_spec 1 task2 (with_capture_output true (Task_new "sh" [])) state2);
    [discriminate|reflexivity..].
Defined.

(** A panic message with a NUL leaves no message at all. *)
Example nul_message_lost :
  run_message no_text (Panic (PString (string_of_list_byte [x61; x00; x62]))) = None.
Proof. vm_compute. reflexivity. Qed.

(** A successful [aer_task_new] leaves the previous error message in place. *)
Example new_keeps_message :
  exists p s, aer_task_new (carg (Some sh)) None 0 state2 = Ret (Some (Val p, s)) /\
    p <> 0 /\ last_error s = Some "old".
Proof. eexists _, _. split; [vm_compute; reflexivity|]. split; [discriminate|reflexivity]. Qed.

(** ** Threads *)

(** Two threads cancel a run whose C callback cancels too, on [Started]. *)
Definition state3 : FfiState :=
  mkFfiState {[ 1 := mkAerTask (Some demo) false (Some handle1) ]} {[ 2 := handle1 ]} (Some "old") 3.

Definition wants_started (ev : AerEvent) : bool := ev_kind ev =? 0.

Definition c_race3 : config sim (option (outcome AerErrorCode.t * FfiState)) :=
  c_race no_text 1 2 wants_started state3 [None; Some "mine"] start.

Definition c_race3_end : config sim (option (outcome AerErrorCode.t * FfiState)) :=
  rounds 80 (play (repeat 0%nat 6) c_race3).

Definition state3' : FfiState :=
  mkFfiState (<[1 := mkAerTask (Some demo) true (Some handle1)]> (tasks state3)) (cancels state3)
    (Some (AerError.fmt no_text AerError.Cancelled)) 3.

Lemma c_cancel_outcome_witness :
  exists code s', Some (Val AerErrorCode.Cancelled, state3') = Some (Val code, s') /\
    (code = AerErrorCode.Ok ->
       flag (memory (state c_race3_end)) (kill_fired handle1) = false /\
       (forall t, (t <= 2)%nat -> ~ struck (own t (log (state c_race3_end)))) /\
       last_error s' = None) /\
    (code = AerErrorCode.Cancelled ->
       flag (memory (state c_race3_end)) (kill_fired handle1) = true /\
       (exists t k, (t <= 2)%nat /\ run_handle demo k (own 0%nat (log (state c_race3_end))) /\
          carried handle1 k (own t (log (state c_race3_end)))) /\
       last_error s' = Some (AerError.fmt no_text AerError.Cancelled)) /\
    tasks s' !! 1 = Some (mkAerTask (Some demo) true (Some handle1)).
Proof.
  apply (c_cancel_outcome sim_external handle1 no_text 1 2 demo wants_started state3
           [None; Some "mine"%string] start);
    [discriminate|discriminate|reflexivity|reflexivity|apply start_fresh| |].
  - etrans; [apply play_sound|apply rounds_sound].
  - apply result_of_Some. vm_compute. reflexivity.
Defined.
